(* ===== verification/_CoqProject ===== *)
-Q . S2P
Prelude.v
Registry.v
AuditRing.v
Memory.v
Lexer.v
SymTab.v
Exec.v
Parser.v
ParserSafe.v
ParserSem.v
Isa.v
Emitter.v
EmitterSem.v
Native.v
Tokens.v
Ring.v
Scheduler.v
Uart.v
HrosCap.v
Wcet.v
Jit.v
Fuzz.v
Pool.v
Pstore.v
Drivers.v
Gpio.v
Pcie.v
HrosKernel.v
HrosDrivers.v
Interrupt.v
Hal.v
Multitask.v
Repl.v
World.v
Bench.v
Session.v
SessionSafe.v
Console.v
StoreSession.v
StoreTrust.v
Lifecycle.v
HrosCore.v
BuildTool.v
