(* ===== verification/Prelude.v ===== *)
(** * HR-OS: a verification library of the Holy Rust kernel

    HR-OS is a single-address-space kernel whose control loop is a REPL: bytes
    arrive on a UART, are edited into a line, compiled in one pass, checked
    against a capability registry, and run by a threaded-code engine on the
    bare machine. This library models the kernel crate (src/src) and the
    stand-alone crates (src/crates) as executable functions on explicit state
    and proves what each part promises.

    ** The parts and their files

    - Prelude (this file): results, 32-bit words with explicit wrap-around,
      byte strings, fixed arrays, sequences of operations and the simulation
      lemma, automation and the generic lemmas.
    - Registry (capabilities/registry.rs): the eight-word claim bitfield, the
      address maps of the two targets, [check_access], the 256-bit block
      masks. [CapStore] and [CapStoreLaws] are the interface the token code is
      proved against; the bitfield is an instance.
    - AuditRing (capabilities/audit.rs): the sixteen-entry SuperUser ring.
    - Memory (kernel/memory.rs): the [Machine] (registry, audit log, bus), raw
      and enforced access, boot-time section initialisation. [Bus] is the
      interface of the hardware bus, [BusWidth] and [BusRam] what is assumed of
      its values and of ordinary memory, [ram_bus] a byte-addressed instance.
      The registry words are mapped at their linker address, so a store can
      reach them.
    - Lexer (compiler/lexer.rs) and SymTab (names, errors and the symbol table
      of compiler/parser.rs).
    - Exec (kernel/exec.rs, compiler/primitives.rs): operand stack, primitives,
      dispatch loop. [PrimAddrs] stands for the addresses the linker gives the
      primitives: distinct, non-null words.
    - Parser (compiler/parser.rs): a state and error monad over compiler,
      cursor and machine; every function of the parser. ParserSafe holds a
      total-correctness triple for it and the invariant; ParserSem the meaning
      of expressions.
    - Isa: reference decoders and semantics of the emitted Thumb-2 and RV32IM
      instructions, a specification. Emitter (compiler/emitter.rs): encoders
      and the two backends of the class [TargetEmitter]; EmitterSem: what the
      emitted code does. Native (compiler/native.rs): the translation of
      streams to machine code and [StreamProgram::run], native path first.
    - Tokens (capabilities/tokens.rs): linear tokens over [CapStore], with the
      ownership the borrow checker tracks as a step relation. Gpio (the same
      source): ports, pin guards and their leases; [GpioBlock] is the register
      contract the source documents.
    - Ring, Scheduler (crates/hros-kernel/src/scheduler.rs), Uart
      (drivers/uart.rs): the bounded ring, the lock-free task queue, the shadow
      stack, console input and output.
    - HrosCap (crates/hros-cap/src/lib.rs), Wcet and Fuzz
      (crates/hros-kernel/src/wcet.rs, fuzz.rs), Jit (crates/hros-jit/src/lib.rs),
      Pool (kernel/pool.rs), Pstore (drivers/pstore.rs). [ByteRam] is what the
      program store needs of its window of memory. The watchdog window of Fuzz
      is computed in IEEE single precision, with the Standard Library's SpecFloat.
    - HrosKernel (crates/hros-kernel/src/lib.rs): the crate's own memory
      functions, vector table and constants. HrosDrivers (crates/hros-drivers):
      its PCIe functions and DMA ring, over the class [Usize] of word widths,
      since the crate does not fix a target and the HAL has a 64-bit one; timer
      and stubs.
    - Drivers (drivers/pwm.rs, spi.rs, flash.rs, timer.rs): programs of register
      accesses in the monad [Dev]; [Traced] is a bus that records them, so
      protocols are statements about traces. Pcie (drivers/pcie.rs): bus
      enumeration, BAR sizing, the DMA ring.
    - Interrupt (kernel/interrupt.rs): the vector table as memory. Hal
      (crates/hros-hal and the three hros-arch crates): the traits as classes,
      [CapEngineLaws] what a capability engine promises, three back ends.
    - Multitask (kernel/multitask.rs): the assembly of the context switch, as
      instruction lists with a step function, over control blocks in memory;
      the abstract scheduler [Sched] is its specification.
    - Repl (line editor and texts of drivers/repl.rs), World (the state all
      commands share, and what it means that a command is safe), Bench
      (kernel/bench.rs), Session ([execute], the loop of [run], the reset entry,
      boot and panic handler of main.rs), SessionSafe (no command crashes; whole
      sessions on a memory with a console).
    - Console: [Terminal] is what a session needs of the UART, and lines are
      followed from the keys typed to the text answered; the memory with a
      console is an instance. StoreSession: the store commands against a table
      of programs. StoreTrust: sessions in which only [store] writes the store.
      Lifecycle: claim, write, drop and write again, typed at a terminal; the
      SiFive UART is a second instance of [Terminal].
    - HrosCore (crates/hros-core/src/main.rs): the boot entry of the core crate.
    - BuildTool (build.rs, xtask/src/main.rs): the build script as a function of
      environment and directory contents, and the task runner.

    ** What the theorems show

    - Capabilities: the bitfield refines a set of ids under any sequence of
      operations; [check_access] is exactly its policy; release revokes one
      window; tokens are exclusive; every access of a live pin guard is one the
      gate grants and pins are independent; the vector and window range checks
      agree with the bit of every block.
    - Memory: an enforced write happens exactly when the gate allows it and is
      logged exactly when SuperUser is claimed; batches of enforced writes are
      logged in order; the ring keeps the last sixteen events; boot initialises
      data and bss.
    - Compiler: lexing and parsing always return; the compiler invariant holds
      after every line, errors included; access outcomes carry an address the
      current registry grants, and the statements of programs name addresses
      granted now or named by a stored function, which were granted when it was
      defined, over sessions with exports and imports too; on the threaded
      engine compiled programs halt; the symbol table is a finite map; [let] and [poke] mean what their expressions mean; literals
      denote their value and printed numbers read back.
    - Engine: threaded code refines a bounded stack machine, and compiled
      statements perform their accesses in order.
    - Native code: emission is a bounded append to the code buffer; Thumb-2
      calls have their documented effect, RV32I calls too except for immediates
      wider than twelve bits and division by zero; every parsed program takes
      the native path and returns, and when its pokes share one address, no peek
      comes before a poke and its constants load exactly, it performs its
      statements in order, as the threaded engine does.
    - Queues and stacks: refinement of bounded lists; the task queue also under
      every interleaving of one producer and one consumer.
    - Devices: PWM and SPI stay in their windows, a flash word is programmed by
      the controller's protocol, whatever the devices answer and also in the
      runs that are left waiting; enumeration is exact where reads have no side
      effect; the DMA ring is a queue; each slot of the vector table holds the
      handler attached last, the flash word, or what the SRAM held at reset.
    - Tasks: the context-switch assembly returns and refines the abstract
      scheduler; on the handler itself tasks 0 and 1, once both live, alternate
      and no other task runs; spawned tasks start at their body; code slots are
      confined. The HAL's own switch restores the saved registers, its queue
      head is fair, and its vector guard is exact on all three back ends.
    - The whole kernel: from boot on, through any rounds of the loop in which no
      exception is taken, with any input and any device, no command crashes and
      the state stays well formed ([SessionSafe.repl_session_safe]); on ARM
      [load] needs a store that holds compiled programs.
    - Whole lines, from the keyboard to the screen, on any terminal: every line
      typed is answered ([Console.typed_line_answered]); a [let] shows and binds
      the value of its expression; a [poke] evaluates its operands and shows
      their error, or E001 with no write, or makes exactly one guarded write and
      shows OK ([Console.poke_typed]); over
      claim, write, drop and write again exactly the first write reaches the bus
      ([Lifecycle.capability_lifecycle]).
    - The program store: with names none of which begins with another, any
      sequence of store and load commands answers as a table of eight programs
      does, and keeps the store one [load] may trust; a stored function comes
      back with its code words; a session in which only [store] writes the
      slots never crashes, loads included ([StoreTrust.store_session_safe]).
    - The stand-alone crates: the kernel crate accesses memory as the kernel
      does away from the registry words; the driver crate's ring is the same
      bounded queue, its BAR sizing right exactly when [usize] has 32 bits.
    - Analysis: response-time analysis returns the least fixed point, and finds
      every one that takes fewer than 100 iterations; pool blocks stay apart.
    - Where the code falls short of its documentation a theorem shows it:
      registry words reachable by a plain poke, range checks that read behind
      the registry, ungated unmapped access and [peek] terms, functions that
      outlive their capability, overlapping store slots, the iteration cap of
      the analysis, the wrapping allocator, the RV32I upper immediate, native
      division, pokes after the first on the native path, registers lost in a
      context switch and a third task that starves, ticks that go to the fault
      handler, a trampoline that calls itself, forged programs that [load] runs,
      an interrupt acknowledge that raises the interrupt, a session without any
      capability whose native code writes a peripheral register, a flash test
      that nothing gates, programs that SuperUser runs unaudited, a guard whose
      error is that of a full buffer, a HAL switch that never reads the stack
      pointer in use.

    ** Modelling choices

    Both targets are 32-bit, so [usize] is a 32-bit word, except in HrosDrivers,
    which has it at both widths; arithmetic is that of the release profile (wrapping, shift amounts masked). Arrays are lists of
    fixed length; the invariants carry the bounds, so an index out of range
    never occurs where a theorem applies. Accesses to the registry words are
    aligned ones; an unaligned access that straddles them is a bus access.
    A bus access always completes: there is no bus fault, so a wild access that
    would end in [fault_hang] on the part reads or writes the bus like any other,
    and an unaligned one is an access to that address.
    Exceptions are not taken during the rounds of the REPL loop; what a tick
    would do after [spawn] is stated separately
    ([SessionSafe.spawn_ticks_into_fault]), and the handler is verified by
    itself (Multitask), from states in which the process stack is valid.
    The code buffer, the operand stack, the main stack and the kernel's variables
    other than the registry, the vector table and the task control blocks are not
    mapped on the bus: a program that stores into them, in particular into its
    own code, is outside the model. The words [spawn]
    emits into its slots lie in the code buffer, which every native run fills
    again before it jumps there. Volatile and atomic operations are indivisible;
    the interleaving of the task queue is sequentially consistent, one shared
    access per step; the weaker orderings the source asks for are not modelled.
    The pointer operands of the HAL's inline assembly are taken to lie outside
    the registers it saves.

    Fuel bounds the loops that are not structural: [parse] gets two units per
    input byte plus eight, enough for every line
    ([ParserSafe.parse_total_and_preserves]); the dispatcher one per
    instruction; the native translation one per stream word; the window loop
    one per window plus one; the waits on devices are bounded by a parameter
    because a device may never become ready, and running out of it is a result
    of its own ([Hang], or no value in the machine reached so far, of which
    Drivers' theorems speak too); the context-switch handler is given 100
    instructions and proved to return within them.

    ** Not modelled

    [uart::init] and [repl::run] of the driver crate, which the core crate calls
    and no crate defines, are parameters of HrosCore. Re-exports have nothing to
    model.
    Memory and instruction barriers and the cache flush have no effect on the
    model, in which every access is indivisible and in program order. The tests
    of the crates and the linker scripts are not code of the kernel; the
    addresses the scripts give are the parameters and constants of the model. *)
From Stdlib Require Export ZArith Lia Bool String Ascii.
From stdpp Require Export base numbers list gmap decidable.

Open Scope Z_scope.

(** ** Results

    Rust's [Result]: the success value first, the error second. *)
Inductive Result (A E : Type) : Type :=
| Ok (a : A)
| Err (e : E).
Arguments Ok {A E} a.
Arguments Err {A E} e.

#[export] Instance Result_eq_dec {A E} `{EqDecision A, EqDecision E} :
  EqDecision (Result A E).
Proof. solve_decision. Defined.

Definition is_ok {A E} (r : Result A E) : bool :=
  match r with Ok _ => true | Err _ => false end.

(** ** Machine integers

    A [w]-bit unsigned integer is a [Z] in [[0, 2^w)]; every operation that
    Rust defines as wrapping reduces its result explicitly. [usize] has 32
    bits on the two supported targets (thumbv7em and riscv32imac). *)
Definition M32 : Z := 4294967296.
Definition M64 : Z := 18446744073709551616.
Definition wrap32 (x : Z) : Z := x mod M32.
Definition u32 (x : Z) : Prop := 0 <= x < M32.
Definition u8 (x : Z) : Prop := 0 <= x < 256.

Definition u32_add (a b : Z) : Z := wrap32 (a + b).
Definition u32_sub (a b : Z) : Z := wrap32 (a - b).
Definition u32_mul (a b : Z) : Z := wrap32 (a * b).
Definition u32_not (a : Z) : Z := M32 - 1 - a.
Definition u32_shl (a n : Z) : Z := wrap32 (Z.shiftl a n).
Definition u32_shr (a n : Z) : Z := Z.shiftr a n.

(** [1u32 << bit]. *)
Definition bit32 (n : Z) : Z := Z.shiftl 1 n.

Declare Scope u32_scope.
Delimit Scope u32_scope with u32.
Infix "+w" := u32_add (at level 50, left associativity) : u32_scope.
Infix "-w" := u32_sub (at level 50, left associativity) : u32_scope.
Infix "*w" := u32_mul (at level 40, left associativity) : u32_scope.
Open Scope u32_scope.

(** ** Byte strings

    A Rust byte string is a list of byte values. *)
Fixpoint bytes (s : string) : list Z :=
  match s with
  | EmptyString => []
  | String c s' => Z.of_N (N_of_ascii c) :: bytes s'
  end.

(** The byte value of a one-character literal such as [b'+']. *)
Definition ch (s : string) : Z := hd 0 (bytes s).

(** [lo <= b <= hi], the pattern [lo..=hi]. *)
Definition in_range (lo hi b : Z) : bool := (lo <=? b) && (b <=? hi).

(** ** Fixed-size arrays

    [aget] and [aset] are the in-range behaviour of Rust indexing; the
    callers' invariants carry the bounds that rule out the panic. *)
Definition aget {A} (d : A) (l : list A) (i : nat) : A := nth i l d.
Definition aset {A} (l : list A) (i : nat) (x : A) : list A := <[i:=x]> l.

(** [dst[..src.len()].copy_from_slice(src)]. *)
Definition copy_prefix {A} (dst src : list A) : list A :=
  src ++ drop (length src) dst.

(** ** Runs

    A sequence of operations, each with a result and a new state. *)
Fixpoint run {S O R} (step : O -> S -> R * S) (os : list O) (s : S) : list R * S :=
  match os with
  | [] => ([], s)
  | o :: os' => let (r, s1) := step o s in let (rs, s2) := run step os' s1 in (r :: rs, s2)
  end.

(** ** Automation *)
Create HintDb hros discriminated.

Ltac bool_to_prop :=
  repeat match goal with
  | H : (_ && _)%bool = true |- _ => apply andb_true_iff in H as [? ?]
  | H : (_ || _)%bool = false |- _ => apply orb_false_iff in H as [? ?]
  | H : (_ <=? _) = true |- _ => apply Z.leb_le in H
  | H : (_ <=? _) = false |- _ => apply Z.leb_gt in H
  | H : (_ <? _) = true |- _ => apply Z.ltb_lt in H
  | H : (_ <? _) = false |- _ => apply Z.ltb_ge in H
  | H : (_ =? _) = true |- _ => apply Z.eqb_eq in H
  | H : (_ =? _) = false |- _ => apply Z.eqb_neq in H
  | H : (_ =? _)%nat = true |- _ => apply Nat.eqb_eq in H
  | H : (_ =? _)%nat = false |- _ => apply Nat.eqb_neq in H
  | H : (_ <=? _)%nat = true |- _ => apply Nat.leb_le in H
  | H : (_ <=? _)%nat = false |- _ => apply Nat.leb_gt in H
  | H : (_ <? _)%nat = true |- _ => apply Nat.ltb_lt in H
  | H : (_ <? _)%nat = false |- _ => apply Nat.ltb_ge in H
  | H : negb _ = true |- _ => apply negb_true_iff in H
  | H : negb _ = false |- _ => apply negb_false_iff in H
  | H : bool_decide _ = true |- _ => apply bool_decide_eq_true in H
  | H : bool_decide _ = false |- _ => apply bool_decide_eq_false in H
  end.

(** Case analysis on every test and match of the goal, with the tests turned
    into propositions. *)
Ltac branch :=
  repeat (case_match; simplify_eq/=); bool_to_prop; simplify_eq/=.

(** ** Machine-integer lemmas *)
Lemma M32_pow : M32 = 2 ^ 32.
Proof. reflexivity. Qed.

Lemma M64_pow : M64 = 2 ^ 64.
Proof. reflexivity. Qed.

Lemma wrap32_range x : u32 (wrap32 x).
Proof. unfold u32, wrap32, M32. apply Z.mod_pos_bound. lia. Qed.

Lemma wrap32_small x : u32 x -> wrap32 x = x.
Proof. apply Z.mod_small. Qed.

Lemma u32_add_range a b : u32 (a +w b).
Proof. apply wrap32_range. Qed.

Lemma u32_sub_range a b : u32 (a -w b).
Proof. apply wrap32_range. Qed.

Lemma u32_mul_range a b : u32 (a *w b).
Proof. apply wrap32_range. Qed.

Lemma u32_div_range a b : u32 a -> u32 b -> b <> 0 -> u32 (a / b).
Proof.
  unfold u32. intros. split; [apply Z.div_pos; lia|].
  apply Z.le_lt_trans with a; [apply Z.div_le_upper_bound; nia | lia].
Qed.

Lemma u32_mod_range a b : u32 a -> u32 b -> b <> 0 -> u32 (a mod b).
Proof. unfold u32. intros. pose proof (Z.mod_pos_bound a b). lia. Qed.

#[export] Hint Resolve wrap32_range u32_add_range u32_sub_range u32_mul_range
  u32_div_range u32_mod_range : hros.

(** ** Bits *)
Lemma testbit_high n x i : 0 <= n -> 0 <= x < 2 ^ n -> n <= i -> Z.testbit x i = false.
Proof.
  intros Hn Hx Hi. rewrite <- (Z.mod_small x (2 ^ n)) by lia.
  apply Z.mod_pow2_bits_high. lia.
Qed.

Lemma bit32_pow n : 0 <= n -> bit32 n = 2 ^ n.
Proof. intros. unfold bit32. rewrite Z.shiftl_mul_pow2 by lia. lia. Qed.

Lemma testbit_bit32 n i : 0 <= n -> Z.testbit (bit32 n) i = (n =? i).
Proof. intros. rewrite bit32_pow by lia. apply Z.pow2_bits_eqb. lia. Qed.

Lemma bit32_range n : 0 <= n < 32 -> u32 (bit32 n).
Proof.
  intros. rewrite bit32_pow by lia. unfold u32. rewrite M32_pow. split; [lia|].
  apply Z.pow_lt_mono_r; lia.
Qed.

Lemma testbit_u32_not x i :
  u32 x -> 0 <= i < 32 -> Z.testbit (u32_not x) i = negb (Z.testbit x i).
Proof.
  intros Hx Hi. unfold u32_not.
  replace (M32 - 1 - x) with (Z.lnot x mod 2 ^ 32).
  - rewrite Z.mod_pow2_bits_low by lia. apply Z.lnot_spec. lia.
  - unfold Z.lnot, u32, M32 in *. rewrite <- (Z.mod_unique_pos _ (2^32) (-1) (4294967296 - 1 - x)); lia.
Qed.

Lemma u32_not_range x : u32 x -> u32 (u32_not x).
Proof. unfold u32, u32_not. lia. Qed.

(** Two naturals below [2^n] that agree on their low [n] bits are equal. *)
Lemma bits_inj_below n x y :
  0 <= n -> 0 <= x < 2 ^ n -> 0 <= y < 2 ^ n ->
  (forall i, 0 <= i < n -> Z.testbit x i = Z.testbit y i) -> x = y.
Proof.
  intros Hn Hx Hy H. apply Z.bits_inj'. intros i Hi.
  destruct (Z.lt_ge_cases i n); [auto|].
  rewrite !(testbit_high n) by lia. done.
Qed.

Lemma lor_range n a b :
  0 <= n -> 0 <= a < 2 ^ n -> 0 <= b < 2 ^ n -> 0 <= Z.lor a b < 2 ^ n.
Proof.
  intros Hn Ha Hb.
  assert (Z.lor a b = (Z.lor a b) mod 2 ^ n) as ->.
  - rewrite <- Z.land_ones, Z.land_lor_distr_l, !Z.land_ones, !Z.mod_small by lia. done.
  - apply Z.mod_pos_bound. lia.
Qed.

Lemma land_range_r n a b : 0 <= n -> 0 <= b < 2 ^ n -> 0 <= Z.land a b < 2 ^ n.
Proof.
  intros Hn Hb.
  assert (Z.land a b = (Z.land a b) mod 2 ^ n) as ->.
  - rewrite <- Z.land_ones by lia. rewrite <- Z.land_assoc.
    rewrite Z.land_ones, Z.mod_small by lia. done.
  - apply Z.mod_pos_bound. lia.
Qed.

Lemma lor_u32 a b : u32 a -> u32 b -> u32 (Z.lor a b).
Proof. unfold u32. rewrite M32_pow. apply lor_range. lia. Qed.

Lemma land_u32 a b : u32 b -> u32 (Z.land a b).
Proof. unfold u32. rewrite M32_pow. apply land_range_r. lia. Qed.

#[export] Hint Resolve bit32_range u32_not_range lor_u32 land_u32 : hros.

(** The test [w & (1 << bit) == 0] reads one bit. *)
Lemma land_bit32_zero w n : 0 <= n -> (Z.land w (bit32 n) =? 0) = negb (Z.testbit w n).
Proof.
  intros Hn. destruct (Z.testbit w n) eqn:Hb; cbn.
  - apply Z.eqb_neq. intros H0.
    assert (Z.testbit (Z.land w (bit32 n)) n = false) as Hf by (rewrite H0; apply Z.bits_0).
    rewrite Z.land_spec, testbit_bit32, Hb, Z.eqb_refl in Hf by lia. done.
  - apply Z.eqb_eq. apply Z.bits_inj'. intros i Hi.
    rewrite Z.land_spec, testbit_bit32, Z.bits_0 by lia.
    destruct (Z.eqb_spec n i); subst; rewrite ?Hb, ?andb_false_r; done.
Qed.

(** The test [v & m == m] is bitwise inclusion. *)
Lemma land_eq_mask v m :
  0 <= m -> (Z.land v m =? m) = true <->
  (forall i, 0 <= i -> Z.testbit m i = true -> Z.testbit v i = true).
Proof.
  intros Hm. rewrite Z.eqb_eq. split.
  - intros H i Hi Hmi. apply (f_equal (fun z => Z.testbit z i)) in H.
    rewrite Z.land_spec, Hmi, andb_true_r in H. done.
  - intros H. apply Z.bits_inj'. intros i Hi. rewrite Z.land_spec.
    destruct (Z.testbit m i) eqn:E; [rewrite (H i Hi E)|rewrite andb_false_r]; done.
Qed.

(** ** Array lemmas *)
Lemma aget_lookup {A} (d : A) l i : (i < length l)%nat -> l !! i = Some (aget d l i).
Proof.
  intros H. unfold aget. revert i H. induction l as [|x l IH]; intros [|i] H;
    simpl in *; try lia; auto. apply IH. lia.
Qed.

Lemma aget_of_lookup {A} (d x : A) l i : l !! i = Some x -> aget d l i = x.
Proof.
  intros H. pose proof (lookup_lt_Some _ _ _ H) as Hl.
  rewrite (aget_lookup d) in H by done. congruence.
Qed.

Lemma aget_aset_eq {A} (d x : A) l i : (i < length l)%nat -> aget d (aset l i x) i = x.
Proof. intros. apply aget_of_lookup. apply list_lookup_insert_eq. done. Qed.

Lemma aget_aset_ne {A} (d x : A) l i j : i <> j -> aget d (aset l i x) j = aget d l j.
Proof.
  intros Hne. unfold aset.
  destruct (decide (j < length l)%nat).
  - apply aget_of_lookup. rewrite list_lookup_insert_ne by done. by apply aget_lookup.
  - unfold aget. rewrite !nth_overflow; rewrite ?length_insert; auto; lia.
Qed.

Lemma aget_replicate {A} (x : A) n i : aget x (replicate n x) i = x.
Proof. unfold aget. revert i. induction n; intros [|i]; cbn; auto. Qed.

Lemma length_aset {A} (x : A) l i : length (aset l i x) = length l.
Proof. apply length_insert. Qed.

Lemma length_copy_prefix {A} (dst src : list A) :
  (length src <= length dst)%nat -> length (copy_prefix dst src) = length dst.
Proof. intros. unfold copy_prefix. rewrite length_app, length_drop. lia. Qed.

Lemma take_copy_prefix {A} (dst src : list A) : take (length src) (copy_prefix dst src) = src.
Proof. unfold copy_prefix. by rewrite take_app_length. Qed.

Create Rewrite HintDb hros_len.
#[export] Hint Rewrite @length_aset @length_app @length_take @length_drop : hros_len.

(** ** Simulation

    Two machines whose steps agree under a relation give the same results on
    every sequence of operations. *)
Lemma run_simulation_on {S T O R} (ok : O -> Prop) (step : O -> S -> R * S) (spec : O -> T -> R * T) (rel : S -> T -> Prop) :
  (forall o s t, ok o -> rel s t ->
     fst (step o s) = fst (spec o t) /\ rel (snd (step o s)) (snd (spec o t))) ->
  forall os s t, Forall ok os -> rel s t ->
    fst (run step os s) = fst (run spec os t) /\ rel (snd (run step os s)) (snd (run spec os t)).
Proof.
  intros Hstep os s t Hos. revert s t. induction Hos as [|o os Ho _ IH]; intros s t Hr; [done|]. cbn [run].
  destruct (Hstep o s t Ho Hr) as [E1 R1].
  destruct (step o s) as [r s1], (spec o t) as [r' t1]. cbn [fst snd] in *. subst r'.
  destruct (IH s1 t1 R1) as [E2 R2].
  destruct (run step os s1), (run spec os t1). cbn [fst snd] in *. by subst.
Qed.

Lemma run_simulation {S T O R} (step : O -> S -> R * S) (spec : O -> T -> R * T) (rel : S -> T -> Prop) :
  (forall o s t, rel s t ->
     fst (step o s) = fst (spec o t) /\ rel (snd (step o s)) (snd (spec o t))) ->
  forall os s t, rel s t ->
    fst (run step os s) = fst (run spec os t) /\ rel (snd (run step os s)) (snd (run spec os t)).
Proof.
  intros Hstep os s t. apply (run_simulation_on (fun _ => True)); [intros; by apply Hstep|]. by apply Forall_true.
Qed.
