(* ===== verification/Registry.v ===== *)
(** * Registry: the capability bitfield (src/capabilities/registry.rs)

    The registry is eight 32-bit words, one bit per hardware resource, set
    while the resource is claimed. This file models every operation of
    registry.rs: the bit operations ([available], [acquire], [release]), the
    per-architecture map from physical addresses to capabilities,
    [check_access], and the 256-bit block masks. The interface [CapStore]
    states what a client (the tokens, the parser, the memory primitives) may
    rely on; the bitfield discharges it. *)
From S2P Require Import Prelude.
Local Open Scope Z_scope.
Local Open Scope u32_scope.

(** ** Targets

    The crate is compiled for thumbv7em ([Arm]) or riscv32imac ([Riscv32]);
    every [cfg(target_arch)] choice of the source is a match on this type. *)
Inductive Arch := Arm | Riscv32.
#[export] Instance Arch_eq_dec : EqDecision Arch.
Proof. solve_decision. Defined.

Definition MAX_RESOURCES : Z := 256.
Definition WORDS : Z := MAX_RESOURCES / 32.

(** ** Capability identifiers *)
Inductive CapId :=
| GpioA | GpioB | Uart0 | Spi0 | I2c0 | Timer0 | Dma0 | SuperUser.
#[export] Instance CapId_eq_dec : EqDecision CapId.
Proof. solve_decision. Defined.

(** The discriminants ([cap_id as usize]). *)
Definition cap_val (c : CapId) : Z :=
  match c with
  | GpioA => 0 | GpioB => 1 | Uart0 => 2 | Spi0 => 3
  | I2c0 => 4 | Timer0 => 5 | Dma0 => 6 | SuperUser => 31
  end.

Definition arm_addr_to_cap (addr : Z) : option CapId :=
  if in_range 0x40020000 0x400203FF addr then Some GpioA
  else if in_range 0x40020400 0x400207FF addr then Some GpioB
  else if in_range 0x40011000 0x400113FF addr then Some Uart0
  else if in_range 0x40013000 0x400133FF addr then Some Spi0
  else if in_range 0x40015400 0x400157FF addr then Some I2c0
  else if in_range 0x40000000 0x400003FF addr then Some Timer0
  else if in_range 0x40002000 0x400023FF addr then Some Dma0
  else None.

Definition riscv_addr_to_cap (addr : Z) : option CapId :=
  if in_range 0x10012000 0x10012FFF addr then Some GpioA
  else if in_range 0x10013000 0x10013FFF addr then Some Uart0
  else if in_range 0x10014000 0x10014FFF addr then Some Spi0
  else if in_range 0x10020000 0x10020FFF addr then Some I2c0
  else if in_range 0x10015000 0x10015FFF addr then Some Timer0
  else if in_range 0x10000000 0x10000FFF addr then Some Dma0
  else None.

Definition addr_to_cap_id (arch : Arch) (addr : Z) : option CapId :=
  match arch with
  | Arm => arm_addr_to_cap addr
  | Riscv32 => riscv_addr_to_cap addr
  end.

(** ** The bitfield

    [RegistryBits] is [[AtomicU32; 8]]; an atomic read-modify-write is one
    indivisible function on it. [get] out of range is [None] in the source,
    as [lookup] is here. *)
Abbreviation RegistryBits := (list Z) (only parsing).

Definition REGISTRY_INIT : RegistryBits := replicate 8 0.

Definition word_of_id (id : Z) : nat := Z.to_nat (id / 32).
Definition bit_of_id (id : Z) : Z := id mod 32.

Definition available (r : RegistryBits) (id : Z) : bool :=
  match r !! word_of_id id with
  | Some w => Z.land w (bit32 (bit_of_id id)) =? 0
  | None => false
  end.

Definition is_claimed (r : RegistryBits) (id : Z) : bool := negb (available r id).

Definition acquire (r : RegistryBits) (id : Z) : bool * RegistryBits :=
  match r !! word_of_id id with
  | Some w =>
      let mask := bit32 (bit_of_id id) in
      (Z.land w mask =? 0, <[word_of_id id := Z.lor w mask]> r)
  | None => (false, r)
  end.

Definition release (r : RegistryBits) (id : Z) : RegistryBits :=
  match r !! word_of_id id with
  | Some w => <[word_of_id id := Z.land w (u32_not (bit32 (bit_of_id id)))]> r
  | None => r
  end.

Definition is_superuser_active (r : RegistryBits) : bool :=
  negb (available r (cap_val SuperUser)).

(** The RAM and flash ranges of [check_access], per target. *)
Definition is_ram_flash (arch : Arch) (addr : Z) : bool :=
  match arch with
  | Arm => in_range 0x08000000 0x080FFFFF addr || in_range 0x20000000 0x2001C000 addr
  | Riscv32 => in_range 0x20000000 0x2000FFFF addr || in_range 0x80000000 0x8000FFFF addr
  end.

Definition check_access (arch : Arch) (r : RegistryBits) (addr : Z) : Result unit CapId :=
  if is_superuser_active r then Ok tt
  else
    match addr_to_cap_id arch addr with
    | Some cap_id =>
        if negb (is_claimed r (cap_val cap_id)) then Err cap_id else Ok tt
    | None => if is_ram_flash arch addr then Ok tt else Err SuperUser
    end.

(** ** 256-bit block masks *)
Record Mask256 := { mask_words : list Z }.

Definition MASK_ZERO : Mask256 := {| mask_words := replicate 4 0 |}.

(** [mask[offset >> 6] |= 1u64 << (offset & 63)]. *)
Definition mask_set (m : list Z) (offset : Z) : list Z :=
  let word := Z.to_nat (Z.shiftr offset 6) in
  let bit := Z.land offset 63 in
  aset m word (Z.lor (aget 0 m word) (Z.shiftl 1 bit)).

Definition build_mask (addr len : Z) : option Mask256 :=
  if (len =? 0) || (256 <? len) then None
  else
    let k_start := Z.shiftr addr 12 in
    let k_end := k_start + len - 1 in
    let window_base := Z.land k_start (u32_not 255) in
    if window_base + 256 <=? k_end then None
    else
      Some {| mask_words :=
        foldl (fun m k => mask_set m (k - window_base)) (replicate 4 0)
          (seqZ k_start (k_end - k_start + 1)) |}.

Definition verify_scalar (r : RegistryBits) (addr : Z) : bool :=
  let k := Z.shiftr addr 12 in
  let word := Z.to_nat (Z.shiftr k 5) in
  let bit := Z.land k 31 in
  match r !! word with
  | Some w => Z.land (Z.shiftr w bit) 1 =? 1
  | None => false
  end.

(** [vcap] is the slice of four 64-bit words read at [vcap_base]. *)
Definition verify_vector (mask : Mask256) (vcap : list Z) : bool :=
  let m := mask_words mask in
  let ok i := Z.land (aget 0 vcap i) (aget 0 m i) =? aget 0 m i in
  ok 0%nat && ok 1%nat && ok 2%nat && ok 3%nat.

(** A raw read of the registry seen as a [u32] array: past the eighth word it
    returns whatever lies behind the static, the parameter [beyond]. *)
Definition raw_word (r : RegistryBits) (beyond : Z -> Z) (i : Z) : Z :=
  match r !! Z.to_nat i with Some w => w | None => beyond i end.

(** The little-endian [u64] at [u32] index [i]. *)
Definition raw_u64 (r : RegistryBits) (beyond : Z -> Z) (i : Z) : Z :=
  Z.lor (raw_word r beyond i) (Z.shiftl (raw_word r beyond (i + 1)) 32).

(** [from_raw_parts(u64_base, 4)] at [u32] index [i]. *)
Definition raw_window (r : RegistryBits) (beyond : Z -> Z) (i : Z) : list Z :=
  [raw_u64 r beyond i; raw_u64 r beyond (i + 2);
   raw_u64 r beyond (i + 4); raw_u64 r beyond (i + 6)].

(** The scan that names the missing capability after a vector miss. *)
Fixpoint scan_missing (arch : Arch) (r : RegistryBits) (addr : Z) (offsets : list Z)
  : Result unit CapId :=
  match offsets with
  | [] => Err SuperUser
  | offset :: rest =>
      let a := addr +w (offset *w 4096) in
      match addr_to_cap_id arch a with
      | Some cap =>
          if negb (is_claimed r (cap_val cap)) then Err cap
          else scan_missing arch r addr rest
      | None =>
          if negb (in_range 0x08000000 0x080FFFFF a || in_range 0x20000000 0x2001C000 a
                   || in_range 0x80000000 0x8000FFFF a)
          then if negb (is_claimed r (cap_val SuperUser)) then Err SuperUser
               else scan_missing arch r addr rest
          else scan_missing arch r addr rest
      end
  end.

(** The scalar fallback: [check_access] on every block, stopping at the first
    refusal. *)
Fixpoint check_blocks (arch : Arch) (r : RegistryBits) (addr : Z) (offsets : list Z)
  : Result unit CapId :=
  match offsets with
  | [] => Ok tt
  | offset :: rest =>
      match check_access arch r (addr +w (offset *w 4096)) with
      | Ok _ => check_blocks arch r addr rest
      | Err e => Err e
      end
  end.

Definition verify_range_contiguous (arch : Arch) (r : RegistryBits) (beyond : Z -> Z)
    (addr len : Z) : Result unit CapId :=
  if len =? 0 then Ok tt
  else if is_superuser_active r then Ok tt
  else
    match build_mask addr len with
    | Some mask =>
        let window_base := Z.land (Z.shiftr addr 12) (u32_not 255) in
        let u32_word := Z.shiftr window_base 5 in
        if verify_vector mask (raw_window r beyond u32_word) then Ok tt
        else scan_missing arch r addr (seqZ 0 len)
    | None => check_blocks arch r addr (seqZ 0 len)
    end.

(** ** Well-formedness: eight 32-bit words. *)
Definition wf_registry (r : RegistryBits) : Prop :=
  length r = 8%nat /\ Forall u32 r.

(** ** The interface

    What a capability store promises: [holds s id] tells whether the
    resource is claimed, and the two updates change it at one id only. *)
Class CapStore (S : Type) := {
  cs_wf : S -> Prop;
  cs_valid : Z -> Prop;
  cs_holds : S -> Z -> bool;
  cs_acquire : S -> Z -> bool * S;
  cs_release : S -> Z -> S;
}.

Class CapStoreLaws (S : Type) `{CapStore S} := {
  cs_acquire_wf : forall s id, cs_wf s -> cs_wf (snd (cs_acquire s id));
  cs_release_wf : forall s id, cs_wf s -> cs_wf (cs_release s id);
  cs_acquire_won : forall s id, cs_wf s -> cs_valid id ->
    fst (cs_acquire s id) = negb (cs_holds s id);
  cs_acquire_holds : forall s id j, cs_wf s -> cs_valid id -> cs_valid j ->
    cs_holds (snd (cs_acquire s id)) j = (bool_decide (id = j) || cs_holds s j)%bool;
  cs_release_holds : forall s id j, cs_wf s -> cs_valid id -> cs_valid j ->
    cs_holds (cs_release s id) j = (negb (bool_decide (id = j)) && cs_holds s j)%bool;
}.

Definition valid_id (id : Z) : Prop := 0 <= id < MAX_RESOURCES.

#[export] Instance registry_store : CapStore RegistryBits := {
  cs_wf := wf_registry;
  cs_valid := valid_id;
  cs_holds := is_claimed;
  cs_acquire := acquire;
  cs_release := release;
}.

(** ** Bit-level lemmas *)
Lemma word_of_id_lt id : valid_id id -> (word_of_id id < 8)%nat.
Proof. unfold valid_id, MAX_RESOURCES, word_of_id. intros. Z.to_euclidean_division_equations. lia. Qed.

Lemma bit_of_id_range id : 0 <= bit_of_id id < 32.
Proof. unfold bit_of_id. apply Z.mod_pos_bound. lia. Qed.

Lemma id_split id j :
  valid_id id -> valid_id j ->
  id = j <-> word_of_id id = word_of_id j /\ bit_of_id id = bit_of_id j.
Proof.
  unfold valid_id, MAX_RESOURCES, word_of_id, bit_of_id. intros.
  split; [by intros ->|]. intros [Hw Hb].
  apply Z2Nat.inj in Hw; [|apply Z.div_pos; lia..].
  rewrite (Z.div_mod id 32), (Z.div_mod j 32) by lia. lia.
Qed.

Lemma wf_lookup r i : wf_registry r -> (i < 8)%nat -> r !! i = Some (aget 0 r i) /\ u32 (aget 0 r i).
Proof.
  intros [Hl Hf] Hi. assert (r !! i = Some (aget 0 r i)) as Hlk by (apply aget_lookup; lia).
  split; [done|]. rewrite Forall_lookup in Hf. eauto.
Qed.

Lemma wf_insert r i w : wf_registry r -> u32 w -> wf_registry (<[i:=w]> r).
Proof.
  intros [Hl Hf] Hw. split; [by rewrite length_insert|]. by apply Forall_insert.
Qed.

(** The registry as a set of bits. *)
Lemma is_claimed_testbit r id :
  wf_registry r -> valid_id id ->
  is_claimed r id = Z.testbit (aget 0 r (word_of_id id)) (bit_of_id id).
Proof.
  intros Hwf Hid. unfold is_claimed, available.
  destruct (wf_lookup r (word_of_id id)) as [-> _]; [done|by apply word_of_id_lt|].
  rewrite land_bit32_zero by apply bit_of_id_range. apply negb_involutive.
Qed.

Lemma is_claimed_insert r id j w :
  wf_registry r -> u32 w -> valid_id id -> valid_id j ->
  is_claimed (<[word_of_id id := w]> r) j =
  if bool_decide (word_of_id id = word_of_id j)
  then Z.testbit w (bit_of_id j) else is_claimed r j.
Proof.
  intros Hwf Hw Hid Hj. pose proof (word_of_id_lt id Hid).
  rewrite is_claimed_testbit by (auto using wf_insert). case_bool_decide as E.
  - rewrite <- E. change (<[word_of_id id := w]> r) with (aset r (word_of_id id) w).
    rewrite aget_aset_eq; [done|]. destruct Hwf. lia.
  - change (<[word_of_id id := w]> r) with (aset r (word_of_id id) w).
    rewrite aget_aset_ne by done. by rewrite is_claimed_testbit.
Qed.

Lemma acquire_wf r id : wf_registry r -> wf_registry (snd (acquire r id)).
Proof.
  intros Hwf. unfold acquire. destruct (r !! word_of_id id) as [w|] eqn:E; [|done].
  apply wf_insert; [done|]. pose proof (bit_of_id_range id).
  destruct Hwf as [_ Hf]. rewrite Forall_lookup in Hf. apply lor_u32; [eauto|].
  by apply bit32_range.
Qed.

Lemma release_wf r id : wf_registry r -> wf_registry (release r id).
Proof.
  intros Hwf. unfold release. destruct (r !! word_of_id id) as [w|] eqn:E; [|done].
  apply wf_insert; [done|]. auto using bit_of_id_range with hros.
Qed.

Lemma acquire_won r id :
  wf_registry r -> valid_id id -> fst (acquire r id) = negb (is_claimed r id).
Proof.
  intros Hwf Hid. unfold acquire, is_claimed, available.
  destruct (wf_lookup r (word_of_id id)) as [-> _]; [done|by apply word_of_id_lt|].
  by rewrite negb_involutive.
Qed.

Lemma acquire_claimed r id j :
  wf_registry r -> valid_id id -> valid_id j ->
  is_claimed (snd (acquire r id)) j = (bool_decide (id = j) || is_claimed r j)%bool.
Proof.
  intros Hwf Hid Hj. unfold acquire. pose proof (bit_of_id_range id).
  destruct (wf_lookup r (word_of_id id)) as [-> Hu]; [done|by apply word_of_id_lt|]. cbn [snd].
  rewrite is_claimed_insert by auto with hros.
  rewrite (is_claimed_testbit r j) by done.
  rewrite (bool_decide_ext _ _ (id_split id j Hid Hj)).
  case_bool_decide as E; [|by rewrite bool_decide_false by tauto].
  rewrite Z.lor_spec, testbit_bit32, <- E, orb_comm by lia. f_equal.
  destruct (Z.eqb_spec (bit_of_id id) (bit_of_id j)); [by rewrite bool_decide_true|].
  rewrite bool_decide_false; [done|tauto].
Qed.

Lemma release_claimed r id j :
  wf_registry r -> valid_id id -> valid_id j ->
  is_claimed (release r id) j = (negb (bool_decide (id = j)) && is_claimed r j)%bool.
Proof.
  intros Hwf Hid Hj. unfold release. pose proof (bit_of_id_range id). pose proof (bit_of_id_range j).
  destruct (wf_lookup r (word_of_id id)) as [-> Hu]; [done|by apply word_of_id_lt|].
  rewrite is_claimed_insert by auto with hros.
  rewrite (is_claimed_testbit r j) by done.
  rewrite (bool_decide_ext _ _ (id_split id j Hid Hj)).
  case_bool_decide as E; [|by rewrite bool_decide_false by tauto].
  rewrite Z.land_spec, testbit_u32_not, testbit_bit32, <- E, andb_comm by (auto with hros; lia).
  f_equal. f_equal.
  destruct (Z.eqb_spec (bit_of_id id) (bit_of_id j)); [by rewrite bool_decide_true|].
  rewrite bool_decide_false; [done|tauto].
Qed.

#[export] Instance registry_laws : CapStoreLaws RegistryBits := {
  cs_acquire_wf := acquire_wf;
  cs_release_wf := release_wf;
  cs_acquire_won := acquire_won;
  cs_acquire_holds := acquire_claimed;
  cs_release_holds := release_claimed;
}.

Lemma registry_init_wf : wf_registry REGISTRY_INIT.
Proof. split; [done|]. apply Forall_replicate. unfold u32, M32. lia. Qed.

Lemma cap_val_valid c : valid_id (cap_val c).
Proof. unfold valid_id, MAX_RESOURCES. destruct c; cbn; lia. Qed.

Lemma cap_val_inj c d : cap_val c = cap_val d -> c = d.
Proof. by destruct c, d. Qed.

#[export] Hint Resolve acquire_wf release_wf registry_init_wf cap_val_valid : hros.

(** ** Block masks *)
Definition mask_bit (m : list Z) (o : Z) : bool :=
  Z.testbit (aget 0 m (Z.to_nat (o / 64))) (o mod 64).

(** Bit [k] of the registry and the memory behind it, seen as one bit array. *)
Definition block_bit (r : RegistryBits) (beyond : Z -> Z) (k : Z) : bool :=
  Z.testbit (raw_word r beyond (k / 32)) (k mod 32).

Definition wf_mask (m : list Z) : Prop :=
  length m = 4%nat /\ Forall (fun w => 0 <= w < 2 ^ 64) m.

Lemma land_not255 k : u32 k -> Z.land k (u32_not 255) = 256 * (k / 256).
Proof.
  intros Hk. pose proof Hk as Hk'. unfold u32 in Hk. rewrite M32_pow in Hk.
  assert (256 * (k / 256) = Z.ldiff k (Z.ones 8)) as ->.
  { rewrite Z.ldiff_ones_r, Z.shiftl_mul_pow2, Z.shiftr_div_pow2 by lia.
    change (2 ^ 8) with 256. lia. }
  apply Z.bits_inj'. intros i Hi. rewrite Z.land_spec, Z.ldiff_spec.
  destruct (Z.lt_ge_cases i 32).
  - rewrite testbit_u32_not by (unfold u32, M32; lia). done.
  - rewrite (testbit_high 32 k) by lia. done.
Qed.

Lemma shiftr12 addr : Z.shiftr addr 12 = addr / 4096.
Proof. by rewrite Z.shiftr_div_pow2 by lia. Qed.

Lemma wf_mask_word m i : wf_mask m -> 0 <= aget 0 m i < 2 ^ 64.
Proof.
  intros [Hl Hf]. destruct (decide (i < length m)%nat).
  - rewrite Forall_lookup in Hf. eapply Hf, aget_lookup. done.
  - unfold aget. rewrite nth_overflow by lia. lia.
Qed.

Lemma mask_set_wf m off : wf_mask m -> 0 <= off -> wf_mask (mask_set m off).
Proof.
  intros Hwf Hoff. pose proof (wf_mask_word m (Z.to_nat (Z.shiftr off 6)) Hwf) as Hb.
  destruct Hwf as [Hl Hf]. unfold mask_set. split; [by rewrite length_aset|].
  apply Forall_insert; [done|]. apply lor_range; [lia|done|].
  change 63 with (Z.ones 6). rewrite Z.land_ones by lia.
  pose proof (Z.mod_pos_bound off (2 ^ 6)). rewrite Z.shiftl_mul_pow2, Z.mul_1_l by lia.
  split; [lia|]. apply Z.pow_lt_mono_r; lia.
Qed.

Lemma mask_set_bit m off o :
  wf_mask m -> 0 <= off < 256 -> 0 <= o < 256 ->
  mask_bit (mask_set m off) o = ((off =? o) || mask_bit m o)%bool.
Proof.
  intros [Hl _] Hoff Ho. unfold mask_bit, mask_set. cbv zeta.
  change 63 with (Z.ones 6). rewrite Z.land_ones, Z.shiftr_div_pow2 by lia.
  change (2 ^ 6) with 64.
  assert (Z.to_nat (off / 64) < length m)%nat by (rewrite Hl; Z.to_euclidean_division_equations; lia).
  destruct (decide (Z.to_nat (off / 64) = Z.to_nat (o / 64))) as [E|E].
  - rewrite <- E, aget_aset_eq, Z.lor_spec, orb_comm by done. f_equal.
    rewrite Z.shiftl_mul_pow2, Z.mul_1_l, Z.pow2_bits_eqb by (apply Z.mod_pos_bound; lia).
    apply eq_bool_prop_intro. rewrite !Is_true_true, !Z.eqb_eq.
    Z.to_euclidean_division_equations. lia.
  - rewrite aget_aset_ne by done. destruct (Z.eqb_spec off o); [congruence|done].
Qed.

Lemma mask_fold_wf base ks m :
  wf_mask m -> Forall (fun k => base <= k) ks ->
  wf_mask (foldl (fun m k => mask_set m (k - base)) m ks).
Proof.
  revert m. induction ks as [|k ks IH]; intros m Hwf Hks; [done|].
  inversion_clear Hks. cbn. apply IH; [|done]. apply mask_set_wf; [done|lia].
Qed.

Lemma mask_fold_bit base ks m o :
  wf_mask m -> Forall (fun k => base <= k < base + 256) ks -> 0 <= o < 256 ->
  mask_bit (foldl (fun m k => mask_set m (k - base)) m ks) o =
  (bool_decide (base + o ∈ ks) || mask_bit m o)%bool.
Proof.
  revert m. induction ks as [|k ks IH]; intros m Hwf Hks Ho; [done|].
  inversion_clear Hks. cbn [foldl]. rewrite IH by first [done | apply mask_set_wf; [done|lia]].
  rewrite mask_set_bit by first [done | lia]. rewrite orb_assoc. f_equal.
  destruct (Z.eqb_spec (k - base) o) as [E|E].
  - rewrite orb_true_r, bool_decide_true; [done|].
    rewrite elem_of_cons. left. lia.
  - rewrite orb_false_r. apply bool_decide_ext. rewrite elem_of_cons. split; [tauto|].
    intros [?|?]; [lia|done].
Qed.

Lemma mask_zero_wf : wf_mask (replicate 4 0).
Proof. split; [done|]. apply Forall_replicate. lia. Qed.

Lemma mask_zero_bit o : mask_bit (replicate 4 0) o = false.
Proof.
  unfold mask_bit. rewrite aget_replicate. apply Z.bits_0.
Qed.

Lemma verify_vector_spec m v :
  wf_mask m ->
  verify_vector {| mask_words := m |} v = true <->
  (forall o, 0 <= o < 256 -> mask_bit m o = true -> mask_bit v o = true).
Proof.
  intros Hwf. pose proof (wf_mask_word m) as Hw.
  unfold verify_vector. cbn [mask_words]. rewrite !andb_true_iff, !land_eq_mask by apply Hw, Hwf.
  split.
  - intros [[[H0 H1] H2] H3] o Ho Hm. unfold mask_bit in *.
    pose proof (Z.mod_pos_bound o 64).
    assert (o / 64 = 0 \/ o / 64 = 1 \/ o / 64 = 2 \/ o / 64 = 3) as Hq
      by (Z.to_euclidean_division_equations; lia).
    destruct Hq as [Hq|[Hq|[Hq|Hq]]]; rewrite Hq in *;
      first [apply H0|apply H1|apply H2|apply H3]; (lia || done).
  - intros H.
    assert (forall i : Z, 0 <= i < 4 -> forall b, 0 <= b ->
      Z.testbit (aget 0 m (Z.to_nat i)) b = true -> Z.testbit (aget 0 v (Z.to_nat i)) b = true) as G.
    { intros i Hi b Hb Hm.
      assert (b < 64) by (destruct (Z.lt_ge_cases b 64); [done|];
        rewrite (testbit_high 64) in Hm by (lia || apply Hw, Hwf); done).
      specialize (H (64 * i + b)). unfold mask_bit in H.
      replace ((64 * i + b) / 64) with i in H by (Z.to_euclidean_division_equations; lia).
      replace ((64 * i + b) mod 64) with b in H by (Z.to_euclidean_division_equations; lia).
      apply H; [lia|done]. }
    repeat split; [apply (G 0)|apply (G 1)|apply (G 2)|apply (G 3)]; lia.
Qed.

Section RawReads.
Context (r : RegistryBits) (beyond : Z -> Z).
Hypothesis words_u32 : forall i, u32 (raw_word r beyond i).

Lemma raw_u64_bit i b :
  0 <= b < 64 ->
  Z.testbit (raw_u64 r beyond i) b = Z.testbit (raw_word r beyond (i + b / 32)) (b mod 32).
Proof.
  intros Hb. unfold raw_u64. rewrite Z.lor_spec, Z.shiftl_spec by lia.
  destruct (Z.lt_ge_cases b 32).
  - rewrite Z.div_small, Z.mod_small, Z.add_0_r, (Z.testbit_neg_r _ (b - 32)), orb_false_r by lia.
    done.
  - replace (b / 32) with 1 by (Z.to_euclidean_division_equations; lia).
    replace (b mod 32) with (b - 32) by (Z.to_euclidean_division_equations; lia).
    pose proof (words_u32 i) as Hu. unfold u32 in Hu. rewrite M32_pow in Hu.
    rewrite (testbit_high 32) by lia. done.
Qed.

Lemma raw_window_bit w o :
  0 <= o < 256 ->
  mask_bit (raw_window r beyond (8 * w)) o = block_bit r beyond (256 * w + o).
Proof.
  intros Ho. unfold mask_bit, block_bit, raw_window, aget.
  pose proof (Z.mod_pos_bound o 64).
  replace ((256 * w + o) / 32) with (8 * w + 2 * (o / 64) + (o mod 64) / 32)
    by (Z.to_euclidean_division_equations; lia).
  replace ((256 * w + o) mod 32) with ((o mod 64) mod 32)
    by (Z.to_euclidean_division_equations; lia).
  rewrite <- raw_u64_bit by lia.
  assert (o / 64 = 0 \/ o / 64 = 1 \/ o / 64 = 2 \/ o / 64 = 3) as Hq
    by (Z.to_euclidean_division_equations; lia).
  destruct Hq as [Hq|[Hq|[Hq|Hq]]]; rewrite Hq; cbn; do 2 f_equal; lia.
Qed.

End RawReads.

Lemma build_mask_some addr len m :
  u32 addr -> 0 <= len -> build_mask addr len = Some m ->
  let base := 256 * (addr / 4096 / 256) in
  1 <= len <= 256 /\ addr / 4096 + len <= base + 256 /\ wf_mask (mask_words m) /\
  (forall o, 0 <= o < 256 -> mask_bit (mask_words m) o = true <->
     addr / 4096 <= base + o < addr / 4096 + len).
Proof.
  intros Ha Hl Hb base. unfold build_mask in Hb.
  assert (u32 (addr / 4096)) as Hk by (apply u32_div_range; unfold u32, M32 in *; lia).
  rewrite shiftr12, land_not255 in Hb by done. fold base in Hb.
  destruct ((len =? 0) || (256 <? len))%bool eqn:E1; [done|]. bool_to_prop.
  destruct (base + 256 <=? addr / 4096 + len - 1) eqn:E2; [done|]. bool_to_prop.
  simplify_eq/=. set (ks := seqZ _ _).
  assert (forall k, k ∈ ks <-> addr / 4096 <= k < addr / 4096 + len) as Hks.
  { intros k. unfold ks. rewrite elem_of_seqZ. lia. }
  assert (base <= addr / 4096) by (unfold base; Z.to_euclidean_division_equations; lia).
  assert (Forall (fun k => base <= k < base + 256) ks) as Hf.
  { apply list.Forall_forall. intros k Hin. apply Hks in Hin. lia. }
  split; [lia|]. split; [lia|]. split.
  - apply mask_fold_wf; [apply mask_zero_wf|]. eapply Forall_impl; [|exact Hf]. cbn. lia.
  - intros o Ho. rewrite (mask_fold_bit base) by (auto using mask_zero_wf).
    rewrite mask_zero_bit, orb_false_r, bool_decide_eq_true. apply Hks.
Qed.

Lemma build_mask_total addr len :
  u32 addr -> 1 <= len <= 256 -> addr / 4096 + len <= 256 * (addr / 4096 / 256) + 256 ->
  exists m, build_mask addr len = Some m.
Proof.
  intros Ha Hl Hw. unfold build_mask.
  rewrite shiftr12, land_not255 by (apply u32_div_range; unfold u32, M32 in *; lia).
  destruct ((len =? 0) || (256 <? len))%bool eqn:E1.
  { apply orb_true_iff in E1 as [E1|E1]; bool_to_prop; lia. }
  destruct (_ <=? _) eqn:E2; bool_to_prop; [lia|]. eauto.
Qed.

Lemma vector_window addr len m r beyond :
  u32 addr -> 0 <= len -> (forall i, u32 (raw_word r beyond i)) ->
  build_mask addr len = Some m ->
  verify_vector m (raw_window r beyond
    (Z.shiftr (Z.land (Z.shiftr addr 12) (u32_not 255)) 5)) = true <->
  (forall k, addr / 4096 <= k < addr / 4096 + len -> block_bit r beyond k = true).
Proof.
  intros Ha Hl Hu Hb. destruct (build_mask_some addr len m Ha Hl Hb) as (Hlen & Hfit & Hwf & Hbit).
  assert (u32 (addr / 4096)) as Hk by (apply u32_div_range; unfold u32, M32 in *; lia).
  rewrite shiftr12, land_not255, Z.shiftr_div_pow2 by (done || lia).
  set (w := addr / 4096 / 256) in *.
  replace (256 * w / 2 ^ 5) with (8 * w) by (change (2 ^ 5) with 32; Z.to_euclidean_division_equations; lia).
  destruct m as [m]. rewrite verify_vector_spec by done. cbn [mask_words] in *.
  assert (256 * w <= addr / 4096) by (subst w; Z.to_euclidean_division_equations; lia).
  split.
  - intros H1 k Hr. specialize (H1 (k - 256 * w)). rewrite raw_window_bit in H1 by (done || lia).
    replace (256 * w + (k - 256 * w)) with k in H1 by lia. apply H1; [lia|]. apply Hbit; lia.
  - intros H1 o Ho Hm. rewrite raw_window_bit by (done || lia). apply H1. apply Hbit; [lia|done].
Qed.

(** ** The abstract registry: the set of claimed resources *)
Definition claimed_set (r : RegistryBits) : gset Z :=
  list_to_set (filter (fun id => is_claimed r id = true) (seqZ 0 MAX_RESOURCES)).

Inductive CapOp := OpAcquire (id : Z) | OpRelease (id : Z) | OpAvailable (id : Z).

(** One atomic operation on the bitfield, with the value it returns. *)
Definition step_bits (op : CapOp) (r : RegistryBits) : bool * RegistryBits :=
  match op with
  | OpAcquire id => acquire r id
  | OpRelease id => (true, release r id)
  | OpAvailable id => (available r id, r)
  end.

(** The same operation on the set; ids past the table never succeed. *)
Definition step_set (op : CapOp) (s : gset Z) : bool * gset Z :=
  match op with
  | OpAcquire id =>
      if id <? MAX_RESOURCES then (bool_decide (id ∉ s), {[id]} ∪ s) else (false, s)
  | OpRelease id => (true, if id <? MAX_RESOURCES then s ∖ {[id]} else s)
  | OpAvailable id => ((id <? MAX_RESOURCES) && bool_decide (id ∉ s), s)
  end.

Fixpoint run_ops {S} (step : CapOp -> S -> bool * S) (ops : list CapOp) (s : S) : list bool * S :=
  match ops with
  | [] => ([], s)
  | op :: rest =>
      let (b, s1) := step op s in
      let (bs, s2) := run_ops step rest s1 in (b :: bs, s2)
  end.

Definition op_id (op : CapOp) : Z :=
  match op with OpAcquire id | OpRelease id | OpAvailable id => id end.

Lemma elem_of_claimed_set r id : id ∈ claimed_set r <-> valid_id id /\ is_claimed r id = true.
Proof.
  unfold claimed_set, valid_id. rewrite elem_of_list_to_set, list_elem_of_filter, elem_of_seqZ.
  rewrite Z.add_0_l. tauto.
Qed.

Lemma claimed_set_decide r id :
  valid_id id -> bool_decide (id ∉ claimed_set r) = negb (is_claimed r id).
Proof.
  intros Hid. rewrite bool_decide_not. f_equal. rewrite (bool_decide_ext _ _ (elem_of_claimed_set r id)).
  destruct (is_claimed r id); [by rewrite bool_decide_true|].
  rewrite bool_decide_false; [done|]. intros [_ ?]. done.
Qed.

Lemma lookup_past r id : wf_registry r -> 256 <= id -> r !! word_of_id id = None.
Proof.
  intros [Hl _] Hid. apply lookup_ge_None. rewrite Hl. unfold word_of_id.
  Z.to_euclidean_division_equations. lia.
Qed.

Lemma claimed_set_acquire r id :
  wf_registry r -> valid_id id -> claimed_set (snd (acquire r id)) = {[id]} ∪ claimed_set r.
Proof.
  intros Hwf Hid. apply set_eq. intros j.
  rewrite elem_of_union, elem_of_singleton, !elem_of_claimed_set.
  split.
  - intros [Hj H]. rewrite acquire_claimed in H by done.
    apply orb_true_iff in H as [H|H]; bool_to_prop; [left; done|right; done].
  - intros H. assert (valid_id j) as Hj by (destruct H as [->|[? _]]; done). split; [done|].
    rewrite acquire_claimed by done. destruct H as [->|[_ ->]]; [|apply orb_true_r].
    by rewrite bool_decide_true.
Qed.

Lemma claimed_set_release r id :
  wf_registry r -> valid_id id -> claimed_set (release r id) = claimed_set r ∖ {[id]}.
Proof.
  intros Hwf Hid. apply set_eq. intros j.
  rewrite elem_of_difference, elem_of_singleton, !elem_of_claimed_set.
  split.
  - intros [Hj H]. rewrite release_claimed in H by done. bool_to_prop. naive_solver.
  - intros [[Hj H] Hne]. split; [done|]. rewrite release_claimed, H by done.
    rewrite bool_decide_false; [done|congruence].
Qed.

Lemma step_refines op r :
  wf_registry r -> 0 <= op_id op ->
  let (b, r') := step_bits op r in
  wf_registry r' /\ step_set op (claimed_set r) = (b, claimed_set r').
Proof.
  intros Hwf Hop. destruct op as [id|id|id]; cbn in *.
  - destruct (Z.ltb_spec id MAX_RESOURCES).
    + pose proof (acquire_won r id Hwf ltac:(done)) as Hw.
      pose proof (claimed_set_acquire r id Hwf ltac:(done)) as Hs.
      pose proof (acquire_wf r id Hwf). destruct (acquire r id) as [b r']; cbn in *.
      rewrite claimed_set_decide by done. split; [done|congruence].
    + unfold acquire. rewrite lookup_past by (done || (unfold MAX_RESOURCES in *; lia)). done.
  - split; [by apply release_wf|]. destruct (Z.ltb_spec id MAX_RESOURCES).
    + by rewrite claimed_set_release.
    + unfold release. by rewrite lookup_past by (done || (unfold MAX_RESOURCES in *; lia)).
  - split; [done|]. destruct (Z.ltb_spec id MAX_RESOURCES).
    + rewrite claimed_set_decide by done. cbn. unfold is_claimed. by rewrite negb_involutive.
    + unfold available. by rewrite lookup_past by (done || (unfold MAX_RESOURCES in *; lia)).
Qed.

(** C1. Refinement of the capability registry: any sequence of atomic
    acquire, release and availability operations (whoever issues them, the
    REPL or an interrupt handler, in whatever order they interleave) returns
    on the eight-word bitfield exactly the answers it returns on a set of
    claimed resource ids, and ends in a bitfield that represents the final
    set; an id past the table is refused and changes nothing. *)
Theorem registry_refines_set (ops : list CapOp) (r : RegistryBits) :
  wf_registry r -> Forall (fun op => 0 <= op_id op) ops ->
  wf_registry (snd (run_ops step_bits ops r)) /\
  run_ops step_set ops (claimed_set r) =
    (fst (run_ops step_bits ops r), claimed_set (snd (run_ops step_bits ops r))).
Proof.
  intros Hwf Hops. revert r Hwf. induction Hops as [|op ops Hop _ IH]; intros r Hwf; [done|].
  pose proof (step_refines op r Hwf Hop) as Hs. cbn. destruct (step_bits op r) as [b r'].
  destruct Hs as [Hwf' ->]. destruct (IH r' Hwf') as [Hw ->].
  destruct (run_ops step_bits ops r') as [bs r'']. done.
Qed.

Lemma registry_refines_set_witness :
  let ops := [OpAcquire 3; OpAcquire 3; OpRelease 3; OpAvailable 3; OpAcquire 300] in
  run_ops step_set ops (claimed_set REGISTRY_INIT) =
    ([true; false; true; true; false], claimed_set REGISTRY_INIT).
Proof.
  pose proof (registry_refines_set
    [OpAcquire 3; OpAcquire 3; OpRelease 3; OpAvailable 3; OpAcquire 300] REGISTRY_INIT
    registry_init_wf ltac:(repeat constructor; cbn; lia)) as [_ H].
  exact H.
Defined.

(** ** The access policy *)

(** The peripheral windows of the two memory maps. *)
Definition cap_regions (arch : Arch) : list (Z * Z * CapId) :=
  match arch with
  | Arm =>
      [(0x40000000, 0x400003FF, Timer0); (0x40002000, 0x400023FF, Dma0);
       (0x40011000, 0x400113FF, Uart0); (0x40013000, 0x400133FF, Spi0);
       (0x40015400, 0x400157FF, I2c0); (0x40020000, 0x400203FF, GpioA);
       (0x40020400, 0x400207FF, GpioB)]
  | Riscv32 =>
      [(0x10000000, 0x10000FFF, Dma0); (0x10012000, 0x10012FFF, GpioA);
       (0x10013000, 0x10013FFF, Uart0); (0x10014000, 0x10014FFF, Spi0);
       (0x10015000, 0x10015FFF, Timer0); (0x10020000, 0x10020FFF, I2c0)]
  end.

Definition in_region (arch : Arch) (a : Z) (c : CapId) : Prop :=
  exists lo hi, (lo, hi, c) ∈ cap_regions arch /\ lo <= a <= hi.

Lemma addr_to_cap_id_region arch a c : addr_to_cap_id arch a = Some c <-> in_region arch a c.
Proof.
  unfold in_region. split.
  - intros H. destruct arch; cbn in *; unfold arm_addr_to_cap, riscv_addr_to_cap, in_range in H;
      repeat (case_match; simplify_eq; bool_to_prop);
      do 2 eexists; (split; [|split; eassumption]); set_solver.
  - intros (lo & hi & Hin & Hr). destruct arch; cbn in *; set_unfold in Hin;
      repeat destruct Hin as [Hin|Hin]; simplify_eq; try done;
      unfold arm_addr_to_cap, riscv_addr_to_cap, in_range; cbn;
      repeat (case_match; simplify_eq; bool_to_prop; try lia); try done;
      exfalso; rewrite ?andb_false_iff, ?Z.leb_gt in *; lia.
Qed.

Lemma superuser_active_set r :
  is_superuser_active r = true <-> cap_val SuperUser ∈ claimed_set r.
Proof.
  rewrite elem_of_claimed_set. unfold is_superuser_active, is_claimed.
  pose proof (cap_val_valid SuperUser). tauto.
Qed.

(** Peripheral windows never overlap RAM or flash. *)
Lemma region_not_ram arch a c : in_region arch a c -> is_ram_flash arch a = false.
Proof.
  intros (lo & hi & Hin & Hr). destruct arch; cbn in *; set_unfold in Hin;
    repeat destruct Hin as [Hin|Hin]; simplify_eq; try done;
    unfold in_range; rewrite orb_false_iff, !andb_false_iff, !Z.leb_gt; lia.
Qed.

Lemma check_access_ok arch r a :
  check_access arch r a = Ok tt <->
  is_superuser_active r = true \/
  (exists c, addr_to_cap_id arch a = Some c /\ is_claimed r (cap_val c) = true) \/
  (addr_to_cap_id arch a = None /\ is_ram_flash arch a = true).
Proof.
  unfold check_access. destruct (is_superuser_active r); [tauto|].
  destruct (addr_to_cap_id arch a) as [c|].
  - destruct (is_claimed r (cap_val c)) eqn:E; cbn; split; try done.
    + intros _. right; left. eauto.
    + intros [?|[(d & ? & ?)|[? _]]]; simplify_eq; congruence.
  - destruct (is_ram_flash arch a); split; try done; [by right; right|].
    intros [?|[(d & ? & ?)|[_ ?]]]; simplify_eq.
Qed.

Lemma check_access_total arch r a : check_access arch r a <> Ok tt -> exists c, check_access arch r a = Err c.
Proof. intros H. destruct (check_access arch r a) as [[]|c]; [done|eauto]. Qed.

(** The access decision: [check_access] lets an address through exactly
    when SUPERUSER is claimed, or the address lies in a peripheral window
    whose capability is claimed, or it lies in RAM or flash. The windows are
    disjoint from each other and from RAM and flash, so the order of the
    source's match arms plays no part; unmapped device addresses fail
    closed. *)
Theorem check_access_policy arch (r : RegistryBits) (a : Z) :
  check_access arch r a = Ok tt <->
  cap_val SuperUser ∈ claimed_set r \/
  (exists c, in_region arch a c /\ cap_val c ∈ claimed_set r) \/
  is_ram_flash arch a = true.
Proof.
  rewrite check_access_ok, superuser_active_set.
  setoid_rewrite addr_to_cap_id_region. setoid_rewrite elem_of_claimed_set.
  split; (intros [H|[H|H]]; [tauto| |]).
  - right; left. destruct H as (c & H1 & H2). eauto using cap_val_valid.
  - tauto.
  - right; left. destruct H as (c & H1 & _ & H2). eauto.
  - right; right. split; [|done]. destruct (addr_to_cap_id arch a) as [c|] eqn:E; [|done].
    apply addr_to_cap_id_region, region_not_ram in E. congruence.
Qed.

Lemma in_region_unique arch a c d : in_region arch a c -> in_region arch a d -> c = d.
Proof. rewrite <- !addr_to_cap_id_region. congruence. Qed.

(** Scope of revocation: releasing a capability other than SUPERUSER
    takes access away from the addresses of its own peripheral window and
    from nothing else, and there it takes it away completely (unless
    SUPERUSER is active). *)
Theorem release_scope arch (r : RegistryBits) (c : CapId) (a : Z) :
  wf_registry r -> c <> SuperUser ->
  (in_region arch a c -> is_superuser_active r = false ->
     check_access arch (release r (cap_val c)) a = Err c) /\
  (~ in_region arch a c ->
     check_access arch (release r (cap_val c)) a = check_access arch r a).
Proof.
  intros Hwf Hc. pose proof (cap_val_valid c) as Hv.
  assert (is_superuser_active (release r (cap_val c)) = is_superuser_active r) as Hsu.
  { change (is_claimed (release r (cap_val c)) (cap_val SuperUser) = is_claimed r (cap_val SuperUser)).
    rewrite release_claimed by (auto using cap_val_valid).
    rewrite bool_decide_false; [done|]. intros E. by apply cap_val_inj in E. }
  split.
  - intros Hin Hs. apply addr_to_cap_id_region in Hin.
    unfold check_access. rewrite Hsu, Hs, Hin, release_claimed, bool_decide_true by done. done.
  - intros Hin. unfold check_access. rewrite Hsu.
    destruct (is_superuser_active r); [done|].
    destruct (addr_to_cap_id arch a) as [d|] eqn:E; [|done].
    rewrite release_claimed by (auto using cap_val_valid).
    rewrite bool_decide_false; [done|]. intros Ecd. apply cap_val_inj in Ecd as ->.
    by apply Hin, addr_to_cap_id_region.
Qed.

Lemma release_scope_witness :
  check_access Arm (release (snd (acquire REGISTRY_INIT 0)) (cap_val GpioA)) 0x40020004 = Err GpioA.
Proof.
  apply (release_scope Arm (snd (acquire REGISTRY_INIT 0)) GpioA 0x40020004).
  - auto using acquire_wf, registry_init_wf.
  - discriminate.
  - apply addr_to_cap_id_region. reflexivity.
  - reflexivity.
Defined.

(** ** Block ranges *)
Lemma scan_missing_err arch r addr offs : exists c, scan_missing arch r addr offs = Err c.
Proof. induction offs; cbn; repeat case_match; eauto. Qed.

Lemma raw_word_in r beyond i : wf_registry r -> 0 <= i < 8 -> raw_word r beyond i = aget 0 r (Z.to_nat i).
Proof.
  intros Hwf Hi. unfold raw_word. destruct (wf_lookup r (Z.to_nat i) Hwf ltac:(lia)) as [-> _]. done.
Qed.

Lemma verify_scalar_bit r beyond addr :
  wf_registry r -> 0 <= addr < 0x100000 ->
  verify_scalar r addr = block_bit r beyond (addr / 4096).
Proof.
  intros Hwf Ha. unfold verify_scalar, block_bit. rewrite shiftr12, Z.shiftr_div_pow2 by lia.
  change 31 with (Z.ones 5). rewrite Z.land_ones by lia. change (2 ^ 5) with 32.
  rewrite raw_word_in by (done || (Z.to_euclidean_division_equations; lia)).
  destruct (wf_lookup r (Z.to_nat (addr / 4096 / 32)) Hwf) as [-> _];
    [Z.to_euclidean_division_equations; lia|].
  set (w := aget 0 r _). set (b := addr / 4096 mod 32).
  assert (0 <= b) by (apply Z.mod_pos_bound; lia).
  change 1 with (Z.ones 1) at 1. rewrite Z.land_ones, Z.shiftr_div_pow2 by lia.
  rewrite Z.testbit_eqb by lia. done.
Qed.

(** The vector check agrees with the scalar one: for a range of blocks in
    the registry's own 256-block window (the first MiB), the 4x64-bit mask
    test of [verify_range_contiguous] accepts exactly the ranges in which
    [verify_scalar] accepts every 4 KiB block. *)
Theorem verify_range_vector_scalar arch (r : RegistryBits) (beyond : Z -> Z) (addr len : Z) :
  wf_registry r -> (forall i, u32 (beyond i)) -> is_superuser_active r = false ->
  0 <= addr -> 1 <= len -> addr / 4096 + len <= 256 ->
  verify_range_contiguous arch r beyond addr len = Ok tt <->
  (forall k, addr / 4096 <= k < addr / 4096 + len -> verify_scalar r (k * 4096) = true).
Proof.
  intros Hwf Hb Hsu Ha Hl Hfit.
  assert (u32 addr) as Hu by (unfold u32, M32; Z.to_euclidean_division_equations; lia).
  assert (forall i, u32 (raw_word r beyond i)) as Hw.
  { intros i. unfold raw_word. destruct (r !! Z.to_nat i) eqn:E; [|apply Hb].
    destruct Hwf as [_ Hf]. rewrite Forall_lookup in Hf. eauto. }
  assert (addr / 4096 / 256 = 0) as H0 by (Z.to_euclidean_division_equations; lia).
  pose proof (Z.div_pos addr 4096 Ha ltac:(lia)) as Hp.
  destruct (build_mask_total addr len Hu) as [m Hm]; [lia|rewrite H0; lia|].
  unfold verify_range_contiguous. rewrite Hsu, Hm.
  destruct (Z.eqb_spec len 0); [lia|].
  pose proof (vector_window addr len m r beyond Hu ltac:(lia) Hw Hm) as Hv.
  assert (forall k, addr / 4096 <= k < addr / 4096 + len ->
    verify_scalar r (k * 4096) = block_bit r beyond k) as Hsc.
  { intros k Hk. rewrite (verify_scalar_bit r beyond) by (done || (Z.to_euclidean_division_equations; lia)).
    by rewrite Z.div_mul by lia. }
  destruct (verify_vector m _) eqn:E.
  - split; [|done]. intros _ k Hk. rewrite Hsc by done. by apply Hv.
  - destruct (scan_missing_err arch r addr (seqZ 0 len)) as [c ->]. split; [done|].
    intros H. exfalso. assert (false = true); [|done]. apply Hv. intros k Hk. rewrite <- Hsc; auto.
Qed.

Lemma verify_range_vector_scalar_witness :
  verify_range_contiguous Arm [6; 0; 0; 0; 0; 0; 0; 0] (fun _ => 0) 0x1000 2 = Ok tt.
Proof.
  apply (verify_range_vector_scalar Arm [6; 0; 0; 0; 0; 0; 0; 0] (fun _ => 0) 0x1000 2);
    [split; [done|repeat constructor; cbn; lia] | intros; unfold u32, M32; lia | done | lia | lia | done |].
  change (0x1000 / 4096) with 1. intros k Hk.
  assert (k = 1 \/ k = 2) as [-> | ->] by lia; reflexivity.
Defined.

Lemma block_bit_beyond r beyond k :
  wf_registry r -> 256 <= k -> block_bit r beyond k = Z.testbit (beyond (k / 32)) (k mod 32).
Proof.
  intros [Hl _] Hk. unfold block_bit, raw_word.
  rewrite (lookup_ge_None_2 r); [done|]. rewrite Hl. Z.to_euclidean_division_equations. lia.
Qed.

(** Above the first MiB, where all RAM and all peripherals live, the
    vector path of [verify_range_contiguous] leaves the registry: its answer
    for a single block is decided by the words stored behind the static, not
    by any claim. With all those words set every block is authorised, with
    all of them clear none is. *)
Theorem verify_range_reads_past_registry arch (r : RegistryBits) (addr : Z) :
  wf_registry r -> is_superuser_active r = false -> 0x100000 <= addr < M32 ->
  verify_range_contiguous arch r (fun _ => M32 - 1) addr 1 = Ok tt /\
  verify_range_contiguous arch r (fun _ => 0) addr 1 <> Ok tt.
Proof.
  intros Hwf Hsu Ha.
  assert (forall v, u32 v -> verify_range_contiguous arch r (fun _ => v) addr 1 = Ok tt <->
    Z.testbit v (addr / 4096 mod 32) = true) as H.
  { intros v Hv.
    assert (u32 addr) as Hu by (unfold u32; lia).
    assert (forall i, u32 (raw_word r (fun _ => v) i)) as Hw.
    { intros i. unfold raw_word. destruct (r !! Z.to_nat i) eqn:E; [|done].
      destruct Hwf as [_ Hf]. rewrite Forall_lookup in Hf. eauto. }
    destruct (build_mask_total addr 1 Hu) as [m Hm];
      [lia | pose proof (Z.mod_pos_bound (addr / 4096) 256);
             pose proof (Z.div_mod (addr / 4096) 256); lia |].
    unfold verify_range_contiguous. rewrite Hsu, Hm. cbn [Z.eqb].
    pose proof (vector_window addr 1 m r _ Hu ltac:(lia) Hw Hm) as Hv2.
    assert (256 <= addr / 4096) as Hk by (apply Z.div_le_lower_bound; lia).
    pose proof (block_bit_beyond r (fun _ => v) (addr / 4096) Hwf Hk) as Hbb.
    destruct (verify_vector m _) eqn:E.
    - split; [|done]. intros _. rewrite <- Hbb. apply Hv2; [done|lia].
    - destruct (scan_missing_err arch r addr (seqZ 0 1)) as [c ->]. split; [done|].
      intros Hb. exfalso. assert (false = true); [|done]. apply Hv2. intros k Hr.
      replace k with (addr / 4096) by lia. by rewrite Hbb. }
  split.
  - apply H; [unfold u32, M32; lia|]. change (M32 - 1) with (Z.ones 32).
    pose proof (Z.mod_pos_bound (addr / 4096) 32). apply Z.ones_spec_low. lia.
  - intros E. apply H in E; [|unfold u32, M32; lia]. by rewrite Z.bits_0 in E.
Qed.

Lemma verify_range_reads_past_registry_witness :
  verify_range_contiguous Arm REGISTRY_INIT (fun _ => M32 - 1) 0x40020000 1 = Ok tt.
Proof.
  apply (verify_range_reads_past_registry Arm REGISTRY_INIT 0x40020000);
    [apply registry_init_wf | reflexivity | unfold M32; lia].
Defined.
