(* ===== verification/AuditRing.v ===== *)
(** * AuditRing: the SuperUser audit ring (src/capabilities/audit.rs)

    Sixteen entries, a write index and a saturating event counter. The
    cycle stamp is read by the caller's machine (see Memory.v), so
    [record_event] takes it as an argument. *)
From S2P Require Import Prelude.
Local Open Scope Z_scope.

Record AuditEntry := { ae_addr : Z; ae_val : Z; ae_cycles : Z }.
#[export] Instance AuditEntry_eq_dec : EqDecision AuditEntry.
Proof. solve_decision. Defined.

Record AuditLog := { al_buffer : list AuditEntry; al_head : nat; al_count : Z }.

Definition ZERO_ENTRY : AuditEntry := {| ae_addr := 0; ae_val := 0; ae_cycles := 0 |}.

Definition audit_new : AuditLog :=
  {| al_buffer := replicate 16 ZERO_ENTRY; al_head := 0; al_count := 0 |}.

(** [usize::saturating_add(1)] on a 32-bit target. *)
Definition saturating_inc (n : Z) : Z := Z.min (n + 1) (M32 - 1).

Definition record_event (log : AuditLog) (cycles addr val : Z) : AuditLog :=
  {| al_buffer := aset (al_buffer log) (al_head log)
       {| ae_addr := addr; ae_val := val; ae_cycles := cycles |};
     al_head := (al_head log + 1) mod 16;
     al_count := saturating_inc (al_count log) |}.

Definition total_audits (log : AuditLog) : Z := al_count log.
Definition entries (log : AuditLog) : list AuditEntry := al_buffer log.

(** ** The abstract log: the list of all recorded events, oldest first. *)
Definition record_all (log : AuditLog) (evs : list AuditEntry) : AuditLog :=
  foldl (fun l e => record_event l (ae_cycles e) (ae_addr e) (ae_val e)) log evs.

(** The ring represents a history: the write index and the counter follow
    its length, and each of the last sixteen events sits in its slot. *)
Definition audit_rep (log : AuditLog) (evs : list AuditEntry) : Prop :=
  length (al_buffer log) = 16%nat /\
  al_head log = (length evs mod 16)%nat /\
  al_count log = Z.min (Z.of_nat (length evs)) (M32 - 1) /\
  (forall j, (j < length evs)%nat -> (length evs <= j + 16)%nat ->
     al_buffer log !! (j mod 16)%nat = evs !! j) /\
  (forall i, (length evs <= i < 16)%nat -> al_buffer log !! i = Some ZERO_ENTRY).

Lemma audit_new_rep : audit_rep audit_new [].
Proof.
  unfold audit_rep, audit_new. cbn [al_buffer al_head al_count length]. repeat split; try done.
  - intros j Hj. lia.
  - intros i Hi. apply lookup_replicate_2. lia.
Qed.

Lemma mod16_inj a b : (a < b)%nat -> (b < a + 16)%nat -> (a mod 16)%nat <> (b mod 16)%nat.
Proof.
  intros H1 H2 E. pose proof (Nat.div_mod_eq a 16). pose proof (Nat.div_mod_eq b 16).
  pose proof (Nat.mod_upper_bound a 16). lia.
Qed.

Lemma record_event_rep log evs e :
  audit_rep log evs ->
  audit_rep (record_event log (ae_cycles e) (ae_addr e) (ae_val e)) (evs ++ [e]).
Proof.
  intros (Hl & Hh & Hc & Hs & Hz). unfold audit_rep, record_event.
  cbn [al_buffer al_head al_count]. rewrite length_app, length_aset. cbn [length].
  assert (al_head log < 16)%nat as Hb by (rewrite Hh; apply Nat.mod_upper_bound; lia).
  split; [done|]. split; [|split; [|split]].
  - rewrite Hh, Nat.Div0.add_mod_idemp_l. done.
  - unfold saturating_inc. rewrite Hc, Nat2Z.inj_add. unfold M32. lia.
  - intros j Hj Hold. unfold aset. destruct (decide (j = length evs)) as [->|Hne].
    + rewrite <- Hh, list_lookup_insert_eq by lia. rewrite lookup_app_r, Nat.sub_diag by lia.
      by destruct e.
    + rewrite list_lookup_insert_ne.
      * rewrite lookup_app_l by lia. apply Hs; lia.
      * rewrite Hh. intros E. symmetry in E. revert E. apply mod16_inj; lia.
  - intros i Hi. unfold aset. rewrite list_lookup_insert_ne; [apply Hz; lia|].
    rewrite Hh, Nat.mod_small by lia. lia.
Qed.

Lemma record_all_rep log evs evs' : audit_rep log evs -> audit_rep (record_all log evs') (evs ++ evs').
Proof.
  revert log evs. induction evs' as [|e evs' IH]; intros log evs H.
  - by rewrite app_nil_r.
  - cbn. rewrite (cons_middle e evs evs'), app_assoc. by apply IH, record_event_rep.
Qed.

(** C40. The audit ring keeps the last sixteen events: after any history of
    events from boot, event number [j] among the last sixteen is found in slot
    [j mod 16] with its address, value and cycle stamp, the slots not yet
    reached still hold the zero entry, and the counter is the length of the
    history, saturated at [usize::MAX]. *)
Theorem audit_ring_history (evs : list AuditEntry) :
  let log := record_all audit_new evs in
  total_audits log = Z.min (Z.of_nat (length evs)) (M32 - 1) /\
  length (entries log) = 16%nat /\
  (forall j, (j < length evs)%nat -> (length evs <= j + 16)%nat ->
     entries log !! (j mod 16)%nat = evs !! j) /\
  (forall i, (length evs <= i < 16)%nat -> entries log !! i = Some ZERO_ENTRY).
Proof.
  destruct (record_all_rep audit_new [] evs audit_new_rep) as (Hl & Hh & Hc & Hs & Hz).
  repeat split; auto.
Qed.
