(* ===== verification/Memory.v ===== *)
(** * Memory: volatile access and its capability gate (src/kernel/memory.rs)

    The machine is the capability registry, the audit log and the bus. The
    bus is hardware: [Bus] is its interface (a 32-bit read may change device
    state, so it returns a new bus), and the theorems hold for every
    instance. The registry static is itself memory at a fixed linker address,
    so an aligned access inside it reads or writes the registry words. *)
From S2P Require Import Prelude Registry AuditRing.
Local Open Scope Z_scope.
Local Open Scope u32_scope.

Class Bus (B : Type) := {
  bus_read : Z -> B -> Z * B;
  bus_write : Z -> Z -> B -> B;
  bus_mcycle : B -> Z * B;
}.

(** The values a 32-bit bus delivers. *)
Class BusWidth (B : Type) `{Bus B} := {
  bus_read_u32 : forall a b, u32 (fst (bus_read a b));
}.

Record Machine (B : Type) := {
  m_regs : RegistryBits;
  m_audit : AuditLog;
  m_bus : B;
}.
Arguments m_regs {B} _.
Arguments m_audit {B} _.
Arguments m_bus {B} _.

Definition set_regs {B} (r : RegistryBits) (m : Machine B) : Machine B :=
  {| m_regs := r; m_audit := m_audit m; m_bus := m_bus m |}.
Definition set_audit {B} (l : AuditLog) (m : Machine B) : Machine B :=
  {| m_regs := m_regs m; m_audit := l; m_bus := m_bus m |}.
Definition set_bus {B} (b : B) (m : Machine B) : Machine B :=
  {| m_regs := m_regs m; m_audit := m_audit m; m_bus := b |}.

(** Where the linker scripts place [REGISTRY_BITS] (memory.x, memory-riscv.x). *)
Definition CAPREG_BASE (arch : Arch) : Z :=
  match arch with Arm => 0x20001000 | Riscv32 => 0x80001800 end.

(** The registry word an aligned access hits, if any. *)
Definition reg_slot (arch : Arch) (addr : Z) : option nat :=
  let off := addr - CAPREG_BASE arch in
  if (0 <=? off) && (off <? 32) && (off mod 4 =? 0) then Some (Z.to_nat (off / 4)) else None.

Inductive MemError := CapabilityViolation | PermissionDenied.
#[export] Instance MemError_eq_dec : EqDecision MemError.
Proof. solve_decision. Defined.

Section Access.
Context {B : Type} `{Bus B} (arch : Arch).
Implicit Type m : Machine B.

Definition peek_u32 (addr : Z) m : Z * Machine B :=
  match reg_slot arch addr with
  | Some i => (aget 0 (m_regs m) i, m)
  | None => let (v, b) := bus_read addr (m_bus m) in (v, set_bus b m)
  end.

Definition poke_u32 (addr value : Z) m : Machine B :=
  match reg_slot arch addr with
  | Some i => set_regs (aset (m_regs m) i value) m
  | None => set_bus (bus_write addr value (m_bus m)) m
  end.

(** [1u32 << bit]: the release profile masks the shift amount. *)
Definition shl_bit (bit : Z) : Z := bit32 (bit mod 32).

Definition reg_set_bit (addr bit : Z) m : Machine B :=
  let (v, m1) := peek_u32 addr m in poke_u32 addr (Z.lor v (shl_bit bit)) m1.

Definition reg_clr_bit (addr bit : Z) m : Machine B :=
  let (v, m1) := peek_u32 addr m in poke_u32 addr (Z.land v (u32_not (shl_bit bit))) m1.

(** DWT CYCCNT on ARM (a bus read), the mcycle CSR on RISC-V. *)
Definition get_cycle_count m : Z * Machine B :=
  match arch with
  | Arm => let (v, b) := bus_read 0xE0001004 (m_bus m) in (v, set_bus b m)
  | Riscv32 => let (v, b) := bus_mcycle (m_bus m) in (v, set_bus b m)
  end.

(** [SUPERUSER_AUDIT_LOG.record_event(addr, value)]. *)
Definition audit_event (addr value : Z) m : Machine B :=
  let (c, m1) := get_cycle_count m in set_audit (record_event (m_audit m1) c addr value) m1.

Definition enforced_poke_u32 (addr value : Z) m : Result unit MemError * Machine B :=
  if is_superuser_active (m_regs m) then
    (Ok tt, poke_u32 addr value (audit_event addr value m))
  else
    match addr_to_cap_id arch addr with
    | Some cap_id =>
        if negb (is_claimed (m_regs m) (cap_val cap_id)) then (Err CapabilityViolation, m)
        else (Ok tt, poke_u32 addr value m)
    | None => (Ok tt, poke_u32 addr value m)
    end.

Definition enforced_peek_u32 (addr : Z) m : Result Z MemError * Machine B :=
  if is_superuser_active (m_regs m) then
    let (v, m1) := peek_u32 addr m in (Ok v, m1)
  else
    match addr_to_cap_id arch addr with
    | Some cap_id =>
        if negb (is_claimed (m_regs m) (cap_val cap_id)) then (Err CapabilityViolation, m)
        else let (v, m1) := peek_u32 addr m in (Ok v, m1)
    | None => let (v, m1) := peek_u32 addr m in (Ok v, m1)
    end.

(** *** Boot-time section initialisation

    The two [while] loops over linker-delimited sections; the fuel is the
    number of words between the bounds. *)
Fixpoint copy_words (fuel : nat) (src dst data_end : Z) m : Machine B :=
  match fuel with
  | O => m
  | S f =>
      if dst <? data_end then
        let (v, m1) := peek_u32 src m in
        copy_words f (src + 4) (dst + 4) data_end (poke_u32 dst v m1)
      else m
  end.

Fixpoint zero_words (fuel : nat) (z bss_end : Z) m : Machine B :=
  match fuel with
  | O => m
  | S f =>
      if z <? bss_end then zero_words f (z + 4) bss_end (poke_u32 z 0 m) else m
  end.

Definition section_fuel (lo hi : Z) : nat := Z.to_nat ((hi - lo + 3) / 4).

Definition init_data_bss (sidata sdata edata sbss ebss : Z) m : Machine B :=
  zero_words (section_fuel sbss ebss) sbss ebss
    (copy_words (section_fuel sdata edata) sidata sdata edata m).

(** ** Well-formed machines *)
Definition wf_machine m : Prop := wf_registry (m_regs m).

End Access.

(** ** RAM as a bus

    A byte-addressed little-endian memory: the instance the witnesses run
    on. The cycle counter stands still. *)
Definition ram_byte (b : gmap Z Z) (a : Z) : Z := default 0 (b !! a) mod 256.

Definition ram_read (a : Z) (b : gmap Z Z) : Z * gmap Z Z :=
  (ram_byte b a + 256 * ram_byte b (a + 1) + 65536 * ram_byte b (a + 2)
   + 16777216 * ram_byte b (a + 3), b).

Definition ram_write (a v : Z) (b : gmap Z Z) : gmap Z Z :=
  <[a := v mod 256]> (<[a + 1 := v / 256 mod 256]>
    (<[a + 2 := v / 65536 mod 256]> (<[a + 3 := v / 16777216 mod 256]> b))).

#[export] Instance ram_bus : Bus (gmap Z Z) := {
  bus_read := ram_read;
  bus_write := ram_write;
  bus_mcycle b := (0, b);
}.

Definition boot_machine {B} (b : B) : Machine B :=
  {| m_regs := REGISTRY_INIT; m_audit := audit_new; m_bus := b |}.

(** ** Ordinary memory

    What a region [ram] of aligned word addresses promises: reads have no
    effect, and a word holds what was last written to it. *)
Class BusRam (B : Type) `{Bus B} (ram : Z -> Prop) := {
  ram_read_pure : forall a b, ram a -> snd (bus_read a b) = b;
  ram_read_eq : forall a v b, ram a -> u32 v -> fst (bus_read a (bus_write a v b)) = v;
  ram_read_ne : forall a c v b, ram a -> ram c -> a <> c ->
    fst (bus_read a (bus_write c v b)) = fst (bus_read a b);
}.

Definition aligned (a : Z) : Prop := a mod 4 = 0.

Lemma ram_byte_range b a : 0 <= ram_byte b a < 256.
Proof. apply Z.mod_pos_bound. lia. Qed.

Lemma ram_byte_insert b a c v :
  ram_byte (<[a := v]> b) c = if bool_decide (a = c) then v mod 256 else ram_byte b c.
Proof. unfold ram_byte. rewrite lookup_insert. repeat case_decide; case_bool_decide; done. Qed.

Lemma ram_read_u32 a b : u32 (fst (ram_read a b)).
Proof.
  unfold ram_read, u32, M32. cbn [fst].
  pose proof (ram_byte_range b a). pose proof (ram_byte_range b (a + 1)).
  pose proof (ram_byte_range b (a + 2)). pose proof (ram_byte_range b (a + 3)). lia.
Qed.

#[export] Instance ram_bus_width : BusWidth (gmap Z Z).
Proof. constructor. apply ram_read_u32. Qed.

#[export] Instance ram_bus_ram : BusRam (gmap Z Z) aligned.
Proof.
  constructor.
  - done.
  - intros a v b _ Hv. cbv [bus_read bus_write ram_bus ram_read ram_write fst]. rewrite !ram_byte_insert. repeat (case_bool_decide; try lia).
    rewrite !Zmod_mod. unfold u32, M32 in Hv. Z.to_euclidean_division_equations. lia.
  - intros a c v b Ha Hc Hne. unfold aligned in *.
    cbv [bus_read bus_write ram_bus ram_read ram_write fst]. rewrite !ram_byte_insert.
    repeat (case_bool_decide; [Z.to_euclidean_division_equations; lia|]). done.
Qed.

Section AccessLemmas.
Context {B : Type} `{Bus B} (arch : Arch).
Implicit Type m : Machine B.

Lemma reg_slot_lt addr i : reg_slot arch addr = Some i -> (i < 8)%nat.
Proof.
  unfold reg_slot. intros H0. repeat case_match; simplify_eq. bool_to_prop.
  Z.to_euclidean_division_equations. lia.
Qed.

Lemma peek_regs addr m : m_regs (snd (peek_u32 arch addr m)) = m_regs m.
Proof. unfold peek_u32. destruct (reg_slot _ _); [done|]. by destruct (bus_read _ _). Qed.

Lemma peek_audit addr m : m_audit (snd (peek_u32 arch addr m)) = m_audit m.
Proof. unfold peek_u32. destruct (reg_slot _ _); [done|]. by destruct (bus_read _ _). Qed.

Lemma peek_range `{!BusWidth B} addr m : wf_machine m -> u32 (fst (peek_u32 arch addr m)).
Proof.
  intros Hwf. unfold peek_u32. destruct (reg_slot _ _) as [i|] eqn:E.
  - apply reg_slot_lt in E. by destruct (wf_lookup (m_regs m) i Hwf E).
  - pose proof (bus_read_u32 addr (m_bus m)) as Hr. by destruct (bus_read _ _).
Qed.

Lemma peek_wf addr m : wf_machine m -> wf_machine (snd (peek_u32 arch addr m)).
Proof. unfold wf_machine. by rewrite peek_regs. Qed.

Lemma poke_wf addr v m : wf_machine m -> u32 v -> wf_machine (poke_u32 arch addr v m).
Proof.
  unfold poke_u32. intros Hwf Hv. destruct (reg_slot _ _) as [i|]; [|done].
  by apply wf_insert.
Qed.

Lemma poke_regs addr v m : reg_slot arch addr = None -> m_regs (poke_u32 arch addr v m) = m_regs m.
Proof. unfold poke_u32. by intros ->. Qed.

Lemma poke_audit addr v m : m_audit (poke_u32 arch addr v m) = m_audit m.
Proof. unfold poke_u32. by destruct (reg_slot _ _). Qed.

Lemma audit_event_regs addr v m : m_regs (audit_event arch addr v m) = m_regs m.
Proof.
  unfold audit_event, get_cycle_count. destruct arch;
    [destruct (bus_read _ _) | destruct (bus_mcycle _)]; done.
Qed.

Lemma audit_event_log addr v m :
  exists c, m_audit (audit_event arch addr v m) = record_event (m_audit m) c addr v.
Proof.
  unfold audit_event, get_cycle_count. destruct arch;
    [destruct (bus_read _ _) | destruct (bus_mcycle _)]; cbn; eauto.
Qed.

Lemma reg_slot_ram addr i : reg_slot arch addr = Some i -> is_ram_flash arch addr = true.
Proof.
  unfold reg_slot, CAPREG_BASE, is_ram_flash, in_range. intros H0.
  repeat case_match; simplify_eq; bool_to_prop; rewrite orb_true_iff, !andb_true_iff, !Z.leb_le; lia.
Qed.

Lemma reg_slot_region addr i : reg_slot arch addr = Some i -> addr_to_cap_id arch addr = None.
Proof.
  intros E%reg_slot_ram. destruct (addr_to_cap_id arch addr) as [c|] eqn:E2; [|done].
  apply addr_to_cap_id_region, region_not_ram in E2. congruence.
Qed.

Lemma reg_slot_base : reg_slot arch (CAPREG_BASE arch) = Some 0%nat.
Proof. by destruct arch. Qed.

End AccessLemmas.

Section RamLemmas.
Context {B : Type} `{Bus B} (arch : Arch) (ram : Z -> Prop) `{!BusRam B ram}.
Implicit Type m : Machine B.

(** The word stored at an address. *)
Definition word_at (m : Machine B) (a : Z) : Z := fst (peek_u32 arch a m).

(** Word addresses of ordinary memory outside the registry. *)
Definition plain (a : Z) : Prop := ram a /\ reg_slot arch a = None.

Lemma peek_plain a m : plain a -> peek_u32 arch a m = (word_at m a, m).
Proof.
  intros [Hr Hs]. unfold word_at, peek_u32. rewrite Hs.
  pose proof (ram_read_pure a (m_bus m) Hr) as Hp. destruct (bus_read a (m_bus m)) as [v b].
  cbn in *. subst. by destruct m.
Qed.

Lemma word_at_poke_eq a v m : plain a -> u32 v -> word_at (poke_u32 arch a v m) a = v.
Proof.
  intros [Hr Hs] Hv. unfold word_at, peek_u32, poke_u32. rewrite Hs. cbn.
  pose proof (ram_read_eq a v (m_bus m) Hr Hv) as Hp. by destruct (bus_read a _).
Qed.

Lemma word_at_poke_ne a c v m : plain a -> plain c -> a <> c ->
  word_at (poke_u32 arch c v m) a = word_at m a.
Proof.
  intros [Hr Hs] [Hr' Hs'] Hne. unfold word_at, peek_u32, poke_u32. rewrite Hs, Hs'. cbn.
  pose proof (ram_read_ne a c v (m_bus m) Hr Hr' Hne) as Hp.
  destruct (bus_read a (bus_write _ _ _)), (bus_read a (m_bus m)). done.
Qed.

Lemma word_at_u32 `{!BusWidth B} a m : plain a -> u32 (word_at m a).
Proof.
  intros [_ Hs]. unfold word_at, peek_u32. rewrite Hs. pose proof (bus_read_u32 a (m_bus m)) as Hu.
  by destruct (bus_read a (m_bus m)).
Qed.

Lemma zero_words_spec n z m :
  (forall i, 0 <= i < Z.of_nat n -> plain (z + 4 * i)) ->
  let m' := zero_words arch n z (z + 4 * Z.of_nat n) m in
  (forall i, 0 <= i < Z.of_nat n -> word_at m' (z + 4 * i) = 0) /\
  (forall a, plain a -> ~ (z <= a < z + 4 * Z.of_nat n) -> word_at m' a = word_at m a).
Proof.
  revert z m. induction n as [|n IH]; intros z m Hp; cbn zeta.
  { split; [intros; lia|done]. }
  cbn [zero_words]. destruct (Z.ltb_spec z (z + 4 * Z.of_nat (S n))); [|lia].
  assert (forall i, 0 <= i < Z.of_nat n -> plain (z + 4 + 4 * i)) as Hp'.
  { intros i Hi. replace (z + 4 + 4 * i) with (z + 4 * (i + 1)) by lia. apply Hp. lia. }
  assert (plain z) as Hz by (rewrite <- (Z.add_0_r z); apply (Hp 0); lia).
  destruct (IH (z + 4) (poke_u32 arch z 0 m) Hp') as [H1 H2].
  replace (z + 4 + 4 * Z.of_nat n) with (z + 4 * Z.of_nat (S n)) in * by lia.
  split.
  - intros i Hi. destruct (Z.eq_dec i 0) as [->|].
    + rewrite Z.mul_0_r, Z.add_0_r. rewrite H2 by (done || lia).
      apply word_at_poke_eq; [done|unfold u32, M32; lia].
    + replace (z + 4 * i) with (z + 4 + 4 * (i - 1)) by lia. apply H1. lia.
  - intros a Ha Hr. rewrite H2 by (done || lia). apply word_at_poke_ne; [done..|lia].
Qed.

Lemma copy_words_spec n src dst m :
  (forall i, 0 <= i < Z.of_nat n -> plain (src + 4 * i) /\ plain (dst + 4 * i)) ->
  (forall i, 0 <= i < Z.of_nat n -> u32 (word_at m (src + 4 * i))) ->
  src + 4 * Z.of_nat n <= dst \/ dst + 4 * Z.of_nat n <= src ->
  let m' := copy_words arch n src dst (dst + 4 * Z.of_nat n) m in
  (forall i, 0 <= i < Z.of_nat n -> word_at m' (dst + 4 * i) = word_at m (src + 4 * i)) /\
  (forall a, plain a -> ~ (dst <= a < dst + 4 * Z.of_nat n) -> word_at m' a = word_at m a).
Proof.
  revert src dst m. induction n as [|n IH]; intros src dst m Hp Hu Hd; cbn zeta.
  { split; [intros; lia|done]. }
  cbn [copy_words]. destruct (Z.ltb_spec dst (dst + 4 * Z.of_nat (S n))); [|lia].
  destruct (Hp 0) as [Hs Hdst]; [lia|]. rewrite Z.mul_0_r, Z.add_0_r in Hs.
  rewrite Z.mul_0_r, Z.add_0_r in Hdst. rewrite peek_plain by done.
  set (m1 := poke_u32 arch dst (word_at m src) m).
  assert (forall a, plain a -> a <> dst -> word_at m1 a = word_at m a) as Hm1
    by (intros; by apply word_at_poke_ne).
  destruct (IH (src + 4) (dst + 4) m1) as [H1 H2].
  { intros i Hi. replace (src + 4 + 4 * i) with (src + 4 * (i + 1)) by lia.
    replace (dst + 4 + 4 * i) with (dst + 4 * (i + 1)) by lia. apply Hp. lia. }
  { intros i Hi. replace (src + 4 + 4 * i) with (src + 4 * (i + 1)) by lia.
    rewrite Hm1; [apply Hu; lia | apply Hp; lia | lia]. }
  { lia. }
  replace (dst + 4 + 4 * Z.of_nat n) with (dst + 4 * Z.of_nat (S n)) in * by lia.
  split.
  - intros i Hi. destruct (Z.eq_dec i 0) as [->|].
    + rewrite !Z.mul_0_r, !Z.add_0_r. rewrite H2 by (done || lia).
      apply word_at_poke_eq; [done|]. specialize (Hu 0). rewrite Z.mul_0_r, Z.add_0_r in Hu.
      apply Hu. lia.
    + replace (dst + 4 * i) with (dst + 4 + 4 * (i - 1)) by lia. rewrite H1 by lia.
      replace (src + 4 + 4 * (i - 1)) with (src + 4 * i) by lia.
      apply Hm1; [apply Hp; lia|lia].
  - intros a Ha Hr. rewrite H2 by (done || lia). apply Hm1; [done|lia].
Qed.

End RamLemmas.

Section Claims.
Context {B : Type} `{Bus B} (arch : Arch).
Implicit Type m : Machine B.

(** A batch of guarded writes, in program order. *)
Fixpoint poke_all (ws : list (Z * Z)) m : Machine B :=
  match ws with
  | [] => m
  | (a, v) :: rest => poke_all rest (snd (enforced_poke_u32 arch a v m))
  end.

(** The writes of the batch that run while SUPERUSER is claimed. *)
Fixpoint superuser_pokes (ws : list (Z * Z)) m : list (Z * Z) :=
  match ws with
  | [] => []
  | (a, v) :: rest =>
      let tail := superuser_pokes rest (snd (enforced_poke_u32 arch a v m)) in
      if is_superuser_active (m_regs m) then (a, v) :: tail else tail
  end.

Lemma enforced_poke_log a v m evs :
  audit_rep (m_audit m) evs ->
  exists new, audit_rep (m_audit (snd (enforced_poke_u32 arch a v m))) (evs ++ new) /\
    map (fun e => (ae_addr e, ae_val e)) new =
      if is_superuser_active (m_regs m) then [(a, v)] else [].
Proof.
  intros Hrep. unfold enforced_poke_u32. destruct (is_superuser_active _); cbn [snd].
  - rewrite poke_audit. destruct (audit_event_log arch a v m) as [c ->].
    exists [{| ae_addr := a; ae_val := v; ae_cycles := c |}]. split; [|done].
    by apply (record_event_rep _ _ {| ae_addr := a; ae_val := v; ae_cycles := c |}).
  - exists []. rewrite app_nil_r. split; [|done]. repeat case_match; cbn; rewrite ?poke_audit; done.
Qed.

Lemma enforced_poke_refused a v m c :
  addr_to_cap_id arch a = Some c -> is_claimed (m_regs m) (cap_val c) = false ->
  is_superuser_active (m_regs m) = false ->
  enforced_poke_u32 arch a v m = (Err CapabilityViolation, m).
Proof. intros H1 H2 H3. unfold enforced_poke_u32. by rewrite H3, H1, H2. Qed.

(** The gate of [enforced_poke_u32]: SUPERUSER is not claimed and the address
    belongs to a peripheral whose capability is not claimed. *)
Definition gate_refuses (a : Z) m : Prop :=
  is_superuser_active (m_regs m) = false /\
  exists c, in_region arch a c /\ cap_val c ∉ claimed_set (m_regs m).

(** C8. The write gate, on every branch. When SUPERUSER is not claimed and the
    address lies in a peripheral window whose capability is not claimed, the
    write is refused as a capability violation and the whole machine (bus,
    registry and audit log) is left as it was. In every other case, which
    includes the addresses of no window, the write succeeds: with SUPERUSER
    claimed it is one audit entry with this address and value followed by the
    raw write, registry untouched by the entry; otherwise it is the raw write
    alone. *)
Theorem enforced_poke_gate (a v : Z) m :
  (gate_refuses a m -> enforced_poke_u32 arch a v m = (Err CapabilityViolation, m)) /\
  (~ gate_refuses a m ->
     if is_superuser_active (m_regs m) then
       exists c m1, enforced_poke_u32 arch a v m = (Ok tt, poke_u32 arch a v m1) /\
         m_regs m1 = m_regs m /\ m_audit m1 = record_event (m_audit m) c a v /\
         m_bus m1 = m_bus (snd (get_cycle_count arch m))
     else enforced_poke_u32 arch a v m = (Ok tt, poke_u32 arch a v m)).
Proof.
  unfold gate_refuses. setoid_rewrite elem_of_claimed_set. setoid_rewrite <- addr_to_cap_id_region. split.
  - intros (Hsu & c & Hc & Hn). apply (enforced_poke_refused _ _ _ c); [done| |done].
    destruct (is_claimed _ _) eqn:E; [|done]. destruct Hn. auto using cap_val_valid.
  - intros Hn. unfold enforced_poke_u32. destruct (is_superuser_active (m_regs m)) eqn:Hsu.
    + destruct (audit_event_log arch a v m) as [c Hc]. exists c, (audit_event arch a v m).
      split; [done|]. split; [apply audit_event_regs|]. split; [exact Hc|].
      unfold audit_event. by destruct (get_cycle_count arch m).
    + destruct (addr_to_cap_id arch a) as [c|]; [|done].
      destruct (is_claimed _ _) eqn:E; [done|]. destruct Hn. split; [done|]. exists c. split; [done|].
      intros [_ ?]. congruence.
Qed.

(** C30. Audit completeness of the guarded write: any batch of calls of
    [enforced_poke_u32] appends to the audit history exactly the writes that
    ran while SUPERUSER was claimed, in order, each with its address and
    value; writes made under ordinary capabilities and refused writes leave no
    entry. Writes by other routes (compiled programs, drivers, the flash
    controller) do not pass this function and are not logged. *)
Theorem superuser_writes_audited (ws : list (Z * Z)) m evs :
  audit_rep (m_audit m) evs ->
  exists new, audit_rep (m_audit (poke_all ws m)) (evs ++ new) /\
    map (fun e => (ae_addr e, ae_val e)) new = superuser_pokes ws m.
Proof.
  revert m evs. induction ws as [|[a v] ws IH]; intros m evs Hrep; cbn.
  { exists []. by rewrite app_nil_r. }
  destruct (enforced_poke_log a v m evs Hrep) as (n1 & Hr1 & Hm1).
  destruct (IH _ _ Hr1) as (n2 & Hr2 & Hm2). exists (n1 ++ n2). rewrite app_assoc.
  split; [done|]. rewrite map_app, Hm1, Hm2. by destruct (is_superuser_active _).
Qed.

(** Privilege escalation through memory: the registry lies in RAM, RAM
    needs no capability, and so on every machine a write of a word with bit
    31 set to the registry's first word passes both [check_access] and the
    write gate and leaves SUPERUSER claimed, with no audit entry when it was
    not claimed before. *)
Theorem registry_poke_escalates (v : Z) m :
  wf_machine m -> u32 v -> Z.testbit v 31 = true ->
  is_superuser_active (m_regs m) = false ->
  let a := CAPREG_BASE arch in
  check_access arch (m_regs m) a = Ok tt /\
  fst (enforced_poke_u32 arch a v m) = Ok tt /\
  is_superuser_active (m_regs (snd (enforced_poke_u32 arch a v m))) = true /\
  m_audit (snd (enforced_poke_u32 arch a v m)) = m_audit m.
Proof.
  intros Hwf Hv Hb Hsu a.
  assert (addr_to_cap_id arch a = None) as Hc by (by apply (reg_slot_region _ _ 0), reg_slot_base).
  assert (enforced_poke_u32 arch a v m = (Ok tt, poke_u32 arch a v m)) as ->
    by (unfold enforced_poke_u32; by rewrite Hsu, Hc).
  split; [|split; [done|split; [|apply poke_audit]]].
  - unfold check_access. rewrite Hsu, Hc. by rewrite (reg_slot_ram _ _ 0) by apply reg_slot_base.
  - cbn [snd]. unfold poke_u32. unfold a at 1. rewrite reg_slot_base. cbn [m_regs set_regs].
    change (is_claimed (aset (m_regs m) 0 v) (cap_val SuperUser) = true).
    rewrite is_claimed_testbit by first [apply cap_val_valid | by apply wf_insert].
    change (word_of_id (cap_val SuperUser)) with 0%nat. rewrite aget_aset_eq; [done|].
    destruct Hwf. lia.
Qed.

(** The two gates disagree on unmapped device addresses: where no
    window and no RAM or flash range contains the address and SUPERUSER is
    not claimed, [check_access] fails closed, while the guarded write and
    the guarded read go through; the error [PermissionDenied] that the
    module documents for this case is never produced. *)
Theorem enforced_access_admits_unmapped (a v : Z) m :
  is_superuser_active (m_regs m) = false ->
  (forall c, ~ in_region arch a c) -> is_ram_flash arch a = false ->
  check_access arch (m_regs m) a = Err SuperUser /\
  enforced_poke_u32 arch a v m = (Ok tt, poke_u32 arch a v m) /\
  fst (enforced_peek_u32 arch a m) = Ok (fst (peek_u32 arch a m)).
Proof.
  intros Hsu Hno Hram.
  assert (addr_to_cap_id arch a = None) as Hc.
  { destruct (addr_to_cap_id arch a) as [c|] eqn:E; [|done].
    destruct (Hno c). by apply addr_to_cap_id_region. }
  unfold check_access, enforced_poke_u32, enforced_peek_u32. rewrite Hsu, Hc, Hram.
  split; [done|]. split; [done|]. by destruct (peek_u32 arch a m).
Qed.

(** C39. Boot initialisation: with word-aligned sections in ordinary memory,
    the load image disjoint from [.data] and [.bss], and the two sections
    disjoint, [init_data_bss] ends with every [.data] word equal to its load
    image, every [.bss] word zero and every other word unchanged. *)
Theorem init_data_bss_correct (ram : Z -> Prop) `{!BusRam B ram}
    (sidata sdata sbss : Z) (n k : nat) m :
  let edata := sdata + 4 * Z.of_nat n in
  let ebss := sbss + 4 * Z.of_nat k in
  (forall i, 0 <= i < Z.of_nat n -> plain arch ram (sidata + 4 * i) /\ plain arch ram (sdata + 4 * i)) ->
  (forall i, 0 <= i < Z.of_nat n -> u32 (word_at arch m (sidata + 4 * i))) ->
  (forall i, 0 <= i < Z.of_nat k -> plain arch ram (sbss + 4 * i)) ->
  sidata + 4 * Z.of_nat n <= sdata \/ edata <= sidata ->
  edata <= sbss \/ ebss <= sdata ->
  let m' := init_data_bss arch sidata sdata edata sbss ebss m in
  (forall i, 0 <= i < Z.of_nat n ->
     word_at arch m' (sdata + 4 * i) = word_at arch m (sidata + 4 * i)) /\
  (forall i, 0 <= i < Z.of_nat k -> word_at arch m' (sbss + 4 * i) = 0) /\
  (forall a, plain arch ram a -> ~ (sdata <= a < edata) -> ~ (sbss <= a < ebss) ->
     word_at arch m' a = word_at arch m a).
Proof.
  intros edata ebss Hp Hu Hz Hd Hdz. unfold init_data_bss.
  assert (forall lo c, section_fuel lo (lo + 4 * Z.of_nat c) = c) as Hf.
  { intros lo c. unfold section_fuel. Z.to_euclidean_division_equations. lia. }
  unfold edata, ebss in *. rewrite !Hf.
  destruct (copy_words_spec arch ram n sidata sdata m Hp Hu Hd) as [C1 C2].
  set (m1 := copy_words arch n sidata sdata (sdata + 4 * Z.of_nat n) m) in *.
  destruct (zero_words_spec arch ram k sbss m1 Hz) as [Z1 Z2]. cbn zeta.
  split; [|split; [done|]].
  - intros i Hi. rewrite Z2 by (lia || apply Hp; lia). by apply C1.
  - intros a Ha Hna Hnz. rewrite Z2 by done. by apply C2.
Qed.

End Claims.

(** Refused without GPIO A; written and logged once SUPERUSER is claimed. *)
Lemma enforced_poke_gate_witness :
  enforced_poke_u32 Arm 0x40020000 1 (boot_machine (∅ : gmap Z Z))
    = (Err CapabilityViolation, boot_machine ∅) /\
  let m := set_regs (snd (acquire REGISTRY_INIT 31)) (boot_machine (∅ : gmap Z Z)) in
  exists c m1, enforced_poke_u32 Arm 0x40020000 1 m = (Ok tt, poke_u32 Arm 0x40020000 1 m1) /\
    m_audit m1 = record_event (m_audit m) c 0x40020000 1.
Proof.
  split.
  - apply (enforced_poke_gate Arm 0x40020000 1 (boot_machine ∅)). split; [reflexivity|].
    exists GpioA. split; [by apply addr_to_cap_id_region|].
    rewrite elem_of_claimed_set. intros [_ E]. discriminate E.
  - pose proof (proj2 (enforced_poke_gate Arm 0x40020000 1
      (set_regs (snd (acquire REGISTRY_INIT 31)) (boot_machine (∅ : gmap Z Z))))) as Hg.
    destruct Hg as (c & m1 & H1 & _ & H2 & _).
    + intros [E _]. discriminate E.
    + by exists c, m1.
Defined.

Lemma superuser_writes_audited_witness :
  let m := set_regs (snd (acquire REGISTRY_INIT 31)) (boot_machine (∅ : gmap Z Z)) in
  exists new, audit_rep (m_audit (poke_all Arm [(0x20003000, 7)] m)) ([] ++ new) /\
    map (fun e => (ae_addr e, ae_val e)) new = [(0x20003000, 7)].
Proof.
  exact (superuser_writes_audited Arm [(0x20003000, 7)]
    (set_regs (snd (acquire REGISTRY_INIT 31)) (boot_machine (∅ : gmap Z Z))) [] audit_new_rep).
Defined.

Lemma registry_poke_escalates_witness :
  is_superuser_active
    (m_regs (snd (enforced_poke_u32 Arm 0x20001000 0x80000000 (boot_machine (∅ : gmap Z Z))))) = true.
Proof.
  apply (registry_poke_escalates Arm 0x80000000 (boot_machine (∅ : gmap Z Z)));
    [apply registry_init_wf | unfold u32, M32; lia | reflexivity | reflexivity].
Defined.

Lemma enforced_access_admits_unmapped_witness :
  check_access Arm (m_regs (boot_machine (∅ : gmap Z Z))) 0xE000ED08 = Err SuperUser /\
  fst (enforced_poke_u32 Arm 0xE000ED08 0 (boot_machine (∅ : gmap Z Z))) = Ok tt.
Proof.
  destruct (enforced_access_admits_unmapped Arm 0xE000ED08 0 (boot_machine (∅ : gmap Z Z)))
    as (H1 & H2 & _); [reflexivity | | reflexivity |].
  - intros c Hc. apply addr_to_cap_id_region in Hc. discriminate Hc.
  - split; [exact H1|]. by rewrite H2.
Defined.

Lemma init_data_bss_correct_witness :
  let m := boot_machine (ram_write 0x08000000 42 ∅) in
  word_at Arm (init_data_bss Arm 0x08000000 0x20003000 0x20003004 0x20003004 0x20003008 m) 0x20003000
    = word_at Arm m 0x08000000.
Proof.
  destruct (init_data_bss_correct (B := gmap Z Z) Arm aligned
    0x08000000 0x20003000 0x20003004 1 1 (boot_machine (ram_write 0x08000000 42 ∅))) as [H0 _].
  - intros i Hi. assert (i = 0) as -> by lia. by repeat split.
  - intros i Hi. assert (i = 0) as -> by lia. unfold u32, M32. vm_compute. split; congruence.
  - intros i Hi. assert (i = 0) as -> by lia. by repeat split.
  - left. lia.
  - left. lia.
  - exact (H0 0 ltac:(lia)).
Defined.
