(* ===== verification/Lexer.v ===== *)
(** * Lexer: the streaming ASCII lexer (src/compiler/lexer.rs)

    The lexer is a cursor over the input line. The loops of the source run
    over the suffix that starts at the cursor, so each is a structural
    recursion on that suffix that returns the number of bytes it consumed. *)
From S2P Require Import Prelude.
Local Open Scope Z_scope.

Inductive Token :=
| KwFn
| KwLet
| Identifier (id : list Z)
| Operator (b : Z)
| Literal (v : Z)
| LParen | RParen | LBrace | RBrace | Semicolon | Comma
| TError (msg : string)
| Eof.
#[export] Instance Token_eq_dec : EqDecision Token.
Proof. solve_decision. Defined.

Record Lexer := { lx_stream : list Z; lx_cursor : nat; lx_line : nat }.

Definition lexer_new (stream : list Z) : Lexer :=
  {| lx_stream := stream; lx_cursor := 0; lx_line := 1 |}.

(** *** Byte classes *)
Definition is_ascii_digit (b : Z) : bool := in_range 48 57 b.
Definition is_ascii_alphabetic (b : Z) : bool := in_range 97 122 b || in_range 65 90 b.
Definition is_ascii_alphanumeric (b : Z) : bool := is_ascii_alphabetic b || is_ascii_digit b.
Definition is_ascii_hexdigit (b : Z) : bool :=
  is_ascii_digit b || in_range 97 102 b || in_range 65 70 b.
Definition is_underscore (b : Z) : bool := b =? 95.
Definition is_blank (b : Z) : bool := (b =? 32) || (b =? 9) || (b =? 13).

(** [+ - * / % = < > ! & | ^ ~ : ?] *)
Definition is_operator (b : Z) : bool :=
  existsb (Z.eqb b) [43; 45; 42; 47; 37; 61; 60; 62; 33; 38; 124; 94; 126; 58; 63].

(** *** Runs of bytes: [while cursor < len && p(stream[cursor]) { cursor += 1 }] *)
Fixpoint run_len (p : Z -> bool) (rest : list Z) : nat :=
  match rest with
  | b :: rest' => if p b then S (run_len p rest') else 0
  | [] => 0
  end.

Definition is_ident_byte (b : Z) : bool := is_ascii_alphanumeric b || is_underscore b.

Definition parse_identifier (rest : list Z) : Token * nat :=
  let n := run_len is_ident_byte rest in
  let ident := take n rest in
  (if bool_decide (ident = bytes "fn") then KwFn
   else if bool_decide (ident = bytes "let") then KwLet
   else Identifier ident, n).

(** [value.checked_mul(base).and_then(|v| v.checked_add(digit))] *)
Definition checked_shift_in (base value digit : Z) : option Z :=
  let v := value * base in
  if v <? M32 then (let w := v + digit in if w <? M32 then Some w else None) else None.

Definition hex_digit (b : Z) : option Z :=
  if is_ascii_digit b then Some (b - 48)
  else if in_range 97 102 b then Some (b - 97 + 10)
  else if in_range 65 70 b then Some (b - 65 + 10)
  else None.

(** The two digit loops: [inl (value, n)] when the run of digits ends after
    [n] bytes, [inr n] when the value overflows and the rest of the token
    is skipped. *)
Fixpoint hex_loop (rest : list Z) (value : Z) : (Z * nat) + nat :=
  match rest with
  | [] => inl (value, 0%nat)
  | b :: rest' =>
      let bump r := match r with inl (v, n) => inl (v, S n) | inr n => inr (S n) end in
      match hex_digit b with
      | Some d =>
          match checked_shift_in 16 value d with
          | Some v => bump (hex_loop rest' v)
          | None => inr (run_len (fun c => is_ascii_hexdigit c || is_underscore c) rest)
          end
      | None => if is_underscore b then bump (hex_loop rest' value) else inl (value, 0%nat)
      end
  end.

Fixpoint dec_loop (rest : list Z) (value : Z) : (Z * nat) + nat :=
  match rest with
  | [] => inl (value, 0%nat)
  | b :: rest' =>
      let bump r := match r with inl (v, n) => inl (v, S n) | inr n => inr (S n) end in
      if is_ascii_digit b then
        match checked_shift_in 10 value (b - 48) with
        | Some v => bump (dec_loop rest' v)
        | None => inr (run_len (fun c => is_ascii_digit c || is_underscore c) rest)
        end
      else if is_underscore b then bump (dec_loop rest' value)
      else inl (value, 0%nat)
  end.

(** The [0x] / [0X] prefix test. *)
Definition hex_prefix (rest : list Z) : option (list Z) :=
  match rest with
  | 48 :: x :: digits => if (x =? 120) || (x =? 88) then Some digits else None
  | _ => None
  end.

Definition parse_literal (rest : list Z) : Token * nat :=
  match hex_prefix rest with
  | Some digits =>
      match hex_loop digits 0 with
      | inl (_, 0%nat) => (TError "malformed hex literal", 2%nat)
      | inl (v, n) => (Literal v, (2 + n)%nat)
      | inr n => (TError "hex literal overflow", (2 + n)%nat)
      end
  | None =>
      match dec_loop rest 0 with
      | inl (v, n) => (Literal v, n)
      | inr n => (TError "literal overflow", n)
      end
  end.

(** The dispatch loop of [next_token] over the bytes at the cursor. *)
Fixpoint scan (rest : list Z) (cursor line : nat) : Token * nat * nat :=
  match rest with
  | [] => (Eof, cursor, line)
  | b :: rest' =>
      if is_blank b then scan rest' (S cursor) line
      else if b =? 10 then scan rest' (S cursor) (S line)
      else if is_ascii_alphabetic b || is_underscore b then
        let (t, n) := parse_identifier rest in (t, (cursor + n)%nat, line)
      else if is_ascii_digit b then
        let (t, n) := parse_literal rest in (t, (cursor + n)%nat, line)
      else if b =? 40 then (LParen, S cursor, line)
      else if b =? 41 then (RParen, S cursor, line)
      else if b =? 123 then (LBrace, S cursor, line)
      else if b =? 125 then (RBrace, S cursor, line)
      else if b =? 59 then (Semicolon, S cursor, line)
      else if b =? 44 then (Comma, S cursor, line)
      else if is_operator b then (Operator b, S cursor, line)
      else (TError "unexpected character", S cursor, line)
  end.

Definition next_token (lx : Lexer) : Token * Lexer :=
  let '(t, cursor, line) := scan (drop (lx_cursor lx) (lx_stream lx)) (lx_cursor lx) (lx_line lx) in
  (t, {| lx_stream := lx_stream lx; lx_cursor := cursor; lx_line := line |}).

(** All tokens of a line up to the end of input. *)
Fixpoint lex_all (fuel : nat) (lx : Lexer) : option (list Token) :=
  match fuel with
  | O => None
  | S f =>
      match next_token lx with
      | (Eof, _) => Some []
      | (t, lx') => match lex_all f lx' with Some ts => Some (t :: ts) | None => None end
      end
  end.

(** ** Progress *)
Definition remaining (lx : Lexer) : nat := length (lx_stream lx) - lx_cursor lx.

Lemma run_len_le p rest : (run_len p rest <= length rest)%nat.
Proof. induction rest as [|b rest IH]; cbn; [lia|]. destruct (p b); lia. Qed.

Lemma dec_loop_le rest v :
  match dec_loop rest v with inl (_, n) | inr n => (n <= length rest)%nat end.
Proof.
  revert v. induction rest as [|b rest IH]; intros v; cbn [dec_loop length]; [lia|].
  destruct (is_ascii_digit b).
  - destruct (checked_shift_in _ _ _) as [w|]; [|apply (run_len_le _ (b :: rest))].
    specialize (IH w). destruct (dec_loop rest w) as [[? ?]|?]; lia.
  - destruct (is_underscore b); [|lia].
    specialize (IH v). destruct (dec_loop rest v) as [[? ?]|?]; lia.
Qed.

Lemma hex_loop_le rest v :
  match hex_loop rest v with inl (_, n) | inr n => (n <= length rest)%nat end.
Proof.
  revert v. induction rest as [|b rest IH]; intros v; cbn [hex_loop length]; [lia|].
  destruct (hex_digit b) as [d|].
  - destruct (checked_shift_in _ _ _) as [w|]; [|apply (run_len_le _ (b :: rest))].
    specialize (IH w). destruct (hex_loop rest w) as [[? ?]|?]; lia.
  - destruct (is_underscore b); [|lia].
    specialize (IH v). destruct (hex_loop rest v) as [[? ?]|?]; lia.
Qed.

Lemma hex_prefix_length rest digits :
  hex_prefix rest = Some digits -> exists x, rest = 48 :: x :: digits.
Proof. unfold hex_prefix. intros H. repeat case_match; simplify_eq. eauto. Qed.

Lemma parse_literal_consumes b rest :
  is_ascii_digit b = true ->
  let (t, n) := parse_literal (b :: rest) in
  (1 <= n <= length (b :: rest))%nat /\ t <> Eof.
Proof.
  intros Hd. unfold parse_literal. destruct (hex_prefix (b :: rest)) as [digits|] eqn:E.
  - apply hex_prefix_length in E as [x Hx]. rewrite Hx. cbn [length].
    pose proof (hex_loop_le digits 0) as Hl.
    destruct (hex_loop digits 0) as [[v [|n]]|n]; (split; [lia|done]).
  - pose proof (dec_loop_le (b :: rest) 0) as Hl. revert Hl. cbn [dec_loop]. rewrite Hd.
    destruct (checked_shift_in _ _ _) as [w|] eqn:E2.
    + destruct (dec_loop rest w) as [[? ?]|?]; intros; (split; [lia|done]).
    + cbn [run_len]. rewrite Hd. cbn. intros. split; [lia|done].
Qed.

Lemma parse_identifier_consumes b rest :
  is_ascii_alphabetic b || is_underscore b = true ->
  let (t, n) := parse_identifier (b :: rest) in
  (1 <= n <= length (b :: rest))%nat /\ t <> Eof.
Proof.
  intros Hb. unfold parse_identifier. cbv zeta.
  assert (is_ident_byte b = true) as Hi.
  { unfold is_ident_byte, is_ascii_alphanumeric. destruct (is_ascii_alphabetic b); [done|].
    cbn in Hb. rewrite Hb. by rewrite orb_true_r. }
  split; [|repeat case_bool_decide; done].
  pose proof (run_len_le is_ident_byte (b :: rest)). split; [|done].
  cbn [run_len]. rewrite Hi. lia.
Qed.

(** [scan] stops inside the input, and past at least one byte unless the
    input is exhausted. *)
Lemma scan_progress rest c l :
  let '(t, c', l') := scan rest c l in
  (c <= c' <= c + length rest)%nat /\ (t <> Eof -> (c < c')%nat).
Proof.
  revert c l. induction rest as [|b rest IH]; intros c l; [cbn; split; [lia|done]|].
  cbn [scan].
  destruct (is_blank b).
  { specialize (IH (S c) l). destruct (scan rest (S c) l) as [[t c'] l']. cbn [length].
    destruct IH. split; [lia|intros; lia]. }
  destruct (b =? 10).
  { specialize (IH (S c) (S l)). destruct (scan rest (S c) (S l)) as [[t c'] l']. cbn [length].
    destruct IH. split; [lia|intros; lia]. }
  destruct (is_ascii_alphabetic b || is_underscore b) eqn:E1.
  { pose proof (parse_identifier_consumes b rest E1) as H.
    destruct (parse_identifier (b :: rest)) as [t n]. destruct H as [H0 H1].
    split; [lia|intros; lia]. }
  destruct (is_ascii_digit b) eqn:E2.
  { pose proof (parse_literal_consumes b rest E2) as H.
    destruct (parse_literal (b :: rest)) as [t n]. destruct H as [H0 H1].
    split; [lia|intros; lia]. }
  cbn [length].
  repeat (match goal with |- context [if ?x then _ else _] => destruct x end;
    [split; [lia|intros; lia]|]).
  split; [lia|intros; lia].
Qed.

Lemma next_token_progress lx t lx' :
  next_token lx = (t, lx') ->
  lx_stream lx' = lx_stream lx /\ (remaining lx' <= remaining lx)%nat /\
  (t <> Eof -> (remaining lx' < remaining lx)%nat).
Proof.
  unfold next_token, remaining. intros H.
  pose proof (scan_progress (drop (lx_cursor lx) (lx_stream lx)) (lx_cursor lx) (lx_line lx)) as Hp.
  destruct (scan _ _ _) as [[t0 c] l]. simplify_eq. cbn. rewrite length_drop in Hp.
  destruct Hp as [Hc Ht]. split; [done|]. split; [lia|]. intros Hne. specialize (Ht Hne). lia.
Qed.

(** ** Numerals *)

(** The value of a digit string; underscores are skipped. *)
Fixpoint numeral (base : Z) (dig : Z -> option Z) (ds : list Z) (acc : Z) : Z :=
  match ds with
  | [] => acc
  | b :: ds' =>
      match dig b with
      | Some d => numeral base dig ds' (acc * base + d)
      | None => numeral base dig ds' acc
      end
  end.

Definition dec_digit (b : Z) : option Z := if is_ascii_digit b then Some (b - 48) else None.

Definition dec_byte (b : Z) : bool := is_ascii_digit b || is_underscore b.
Definition hex_byte (b : Z) : bool := is_ascii_hexdigit b || is_underscore b.

(** The bytes after a token do not extend it. *)
Definition stops (p : Z -> bool) (rest : list Z) : Prop :=
  match rest with [] => True | b :: _ => p b = false end.

Lemma run_len_app p ds rest : forallb p ds = true -> stops p rest -> run_len p (ds ++ rest) = length ds.
Proof.
  intros Hd Hs. induction ds as [|b ds IH].
  - destruct rest as [|c rest]; [done|]. cbn in *. by rewrite Hs.
  - cbn in *. apply andb_true_iff in Hd as [-> Hd]. by rewrite IH.
Qed.

Lemma numeral_ge base dig ds acc :
  1 <= base -> (forall b d, dig b = Some d -> 0 <= d) -> 0 <= acc -> acc <= numeral base dig ds acc.
Proof.
  intros Hb Hd. revert acc. induction ds as [|b ds IH]; intros acc Ha; cbn; [lia|].
  destruct (dig b) as [d|] eqn:E; [|by apply IH]. apply Hd in E.
  etransitivity; [|apply IH; nia]. nia.
Qed.

Lemma dec_digit_nonneg b d : dec_digit b = Some d -> 0 <= d.
Proof. unfold dec_digit, is_ascii_digit, in_range. intros. case_match; simplify_eq. bool_to_prop. lia. Qed.

Lemma hex_digit_nonneg b d : hex_digit b = Some d -> 0 <= d.
Proof. unfold hex_digit, is_ascii_digit, in_range. intros. repeat case_match; simplify_eq; bool_to_prop; lia. Qed.

Lemma hex_digit_class b d : hex_digit b = Some d -> is_ascii_hexdigit b = true.
Proof.
  unfold hex_digit, is_ascii_hexdigit. intros.
  destruct (is_ascii_digit b), (in_range 97 102 b), (in_range 65 70 b); done.
Qed.

Lemma hex_digit_none b : hex_digit b = None -> is_ascii_hexdigit b = false.
Proof.
  unfold hex_digit, is_ascii_hexdigit. intros.
  destruct (is_ascii_digit b), (in_range 97 102 b), (in_range 65 70 b); done.
Qed.

Lemma checked_shift_in_spec base v d :
  1 <= base -> 0 <= v -> 0 <= d ->
  checked_shift_in base v d = if v * base + d <? M32 then Some (v * base + d) else None.
Proof.
  intros. unfold checked_shift_in.
  destruct (Z.ltb_spec (v * base) M32); [done|]. destruct (Z.ltb_spec (v * base + d) M32); [lia|done].
Qed.

(** An overflow stays an overflow however many digits follow. *)
Lemma numeral_overflow base dig ds acc :
  1 <= base -> (forall b d, dig b = Some d -> 0 <= d) -> M32 <= acc ->
  (numeral base dig ds acc <? M32) = false.
Proof.
  intros Hb Hd Ha. apply Z.ltb_ge. etransitivity; [exact Ha|].
  apply numeral_ge; [done..|unfold M32 in *; lia].
Qed.

Lemma dec_loop_spec ds rest acc :
  forallb dec_byte ds = true -> stops dec_byte rest -> 0 <= acc ->
  (acc <? M32) = true ->
  dec_loop (ds ++ rest) acc =
    let v := numeral 10 dec_digit ds acc in
    if v <? M32 then inl (v, length ds) else inr (length ds).
Proof.
  intros Hd Hs Ha HM. revert acc Ha HM.
  induction ds as [|b ds IH]; intros acc Ha HM.
  - cbn [app numeral length]. cbv zeta. rewrite HM. destruct rest as [|c rest]; [done|].
    cbn in *. unfold dec_byte in Hs. apply orb_false_iff in Hs as [-> ->]. done.
  - pose proof Hd as Hall. cbn in Hd. apply andb_true_iff in Hd as [Hb Hd]. cbn [app dec_loop].
    cbn [numeral]. destruct (is_ascii_digit b) eqn:E.
    + assert (dec_digit b = Some (b - 48)) as Hdg by (unfold dec_digit; by rewrite E).
      pose proof (dec_digit_nonneg _ _ Hdg) as Hnn. rewrite Hdg. rewrite checked_shift_in_spec by lia.
      destruct (acc * 10 + (b - 48) <? M32) eqn:E2.
      * rewrite IH by first [assumption | lia]. cbv zeta. by destruct (numeral _ _ _ _ <? _).
      * rewrite numeral_overflow by first [lia | by bool_to_prop | apply dec_digit_nonneg].
        f_equal. by apply (run_len_app dec_byte (b :: ds) rest).
    + assert (dec_digit b = None) as Hdg by (unfold dec_digit; by rewrite E). rewrite Hdg.
      unfold dec_byte in Hb. rewrite E in Hb. cbn in Hb. rewrite Hb, IH by done.
      cbv zeta. by destruct (numeral _ _ _ _ <? _).
Qed.

Lemma hex_loop_spec ds rest acc :
  forallb hex_byte ds = true -> stops hex_byte rest -> 0 <= acc ->
  (acc <? M32) = true ->
  hex_loop (ds ++ rest) acc =
    let v := numeral 16 hex_digit ds acc in
    if v <? M32 then inl (v, length ds) else inr (length ds).
Proof.
  intros Hd Hs Ha HM. revert acc Ha HM.
  induction ds as [|b ds IH]; intros acc Ha HM.
  - cbn [app numeral length]. cbv zeta. rewrite HM. destruct rest as [|c rest]; [done|].
    cbn in *. unfold hex_byte in Hs. apply orb_false_iff in Hs as [Hh ->].
    destruct (hex_digit c) eqn:E; [|done]. apply hex_digit_class in E. congruence.
  - pose proof Hd as Hall. cbn in Hd. apply andb_true_iff in Hd as [Hb Hd]. cbn [app hex_loop].
    cbn [numeral]. destruct (hex_digit b) as [d|] eqn:E.
    + pose proof (hex_digit_nonneg b d E) as Hnn. rewrite checked_shift_in_spec by lia.
      destruct (acc * 16 + d <? M32) eqn:E2.
      * rewrite IH by first [assumption | lia]. cbv zeta. by destruct (numeral _ _ _ _ <? _).
      * rewrite numeral_overflow by first [lia | by bool_to_prop | apply hex_digit_nonneg].
        f_equal. by apply (run_len_app hex_byte (b :: ds) rest).
    + unfold hex_byte in Hb. rewrite hex_digit_none in Hb by done. cbn in Hb.
      rewrite Hb, IH by done. cbv zeta. by destruct (numeral _ _ _ _ <? _).
Qed.

Lemma parse_literal_dec ds rest :
  forallb dec_byte ds = true -> stops dec_byte rest -> hex_prefix (ds ++ rest) = None ->
  parse_literal (ds ++ rest) =
    (let v := numeral 10 dec_digit ds 0 in
     if v <? M32 then Literal v else TError "literal overflow", length ds).
Proof.
  intros Hd Hs Hp. unfold parse_literal. rewrite Hp, dec_loop_spec by done.
  cbv zeta. by destruct (numeral _ _ _ _ <? _).
Qed.

Lemma parse_literal_hex x ds rest :
  ds <> [] -> (x =? 120) || (x =? 88) = true -> forallb hex_byte ds = true -> stops hex_byte rest ->
  parse_literal (48 :: x :: ds ++ rest) =
    (let v := numeral 16 hex_digit ds 0 in
     if v <? M32 then Literal v else TError "hex literal overflow", S (S (length ds))).
Proof.
  intros Hne Hx Hd Hs. unfold parse_literal, hex_prefix. rewrite Hx, hex_loop_spec by done.
  cbv zeta. destruct ds as [|b ds]; [done|]. cbn [length]. by destruct (numeral _ _ _ _ <? _).
Qed.

(** Literals denote their value: a decimal digit string, or [0x] and a
    hexadecimal one, with underscores anywhere after the first digit, is
    consumed whole and yields the number it denotes when that number fits
    32 bits, and the overflow error otherwise, wherever in the string the
    overflow happens. *)
Theorem parse_literal_value (ds rest : list Z) :
  (forallb dec_byte ds = true -> stops dec_byte rest -> hex_prefix (ds ++ rest) = None ->
   parse_literal (ds ++ rest) =
     (let v := numeral 10 dec_digit ds 0 in
      if v <? M32 then Literal v else TError "literal overflow", length ds)) /\
  (ds <> [] -> forallb hex_byte ds = true -> stops hex_byte rest ->
   parse_literal (48 :: 120 :: ds ++ rest) =
     (let v := numeral 16 hex_digit ds 0 in
      if v <? M32 then Literal v else TError "hex literal overflow", S (S (length ds)))).
Proof.
  split; [apply parse_literal_dec|]. intros. by apply parse_literal_hex.
Qed.

Lemma parse_literal_value_witness :
  parse_literal (bytes "4294967296;") = (TError "literal overflow", 10%nat) /\
  parse_literal (bytes "0x4002_0018;") = (Literal 0x40020018, 11%nat).
Proof.
  split.
  - apply (parse_literal_value (bytes "4294967296") (bytes ";")); reflexivity.
  - apply (parse_literal_value (bytes "4002_0018") (bytes ";")); [discriminate|reflexivity..].
Defined.

(** ** Termination of the token stream *)
Lemma lex_all_enough fuel lx :
  (remaining lx < fuel)%nat -> exists ts, lex_all fuel lx = Some ts /\ (length ts <= remaining lx)%nat.
Proof.
  revert lx. induction fuel as [|f IH]; intros lx Hf; [lia|]. cbn.
  destruct (next_token lx) as [t lx'] eqn:E. apply next_token_progress in E as (_ & _ & Hlt).
  destruct (decide (t = Eof)) as [->|Hne]; [exists []; cbn; split; [done|lia]|].
  specialize (Hlt Hne). destruct (IH lx') as (ts & Hts & Hl); [lia|].
  exists (t :: ts). rewrite Hts. split; [by destruct t|]. cbn. lia.
Qed.

(** The lexer terminates: on every line it reaches the end of input
    after at most one token per byte, whatever the bytes are (lexical errors
    included, since each consumes input). *)
Lemma lexing_terminates (line : list Z) :
  exists ts, lex_all (S (length line)) (lexer_new line) = Some ts /\ (length ts <= length line)%nat.
Proof.
  destruct (lex_all_enough (S (length line)) (lexer_new line)) as (ts & H & Hl).
  - unfold remaining. cbn. lia.
  - exists ts. split; [done|]. unfold remaining in Hl. cbn in Hl. lia.
Qed.
