(* ===== verification/SymTab.v ===== *)
(** * SymTab: identifiers and the symbol table (src/compiler/parser.rs)

    Fixed-capacity names ([NameBuf]), the parser's error type, and the
    32-slot open-addressing table that holds [let] bindings: FNV-1a hashing,
    linear probing, no deletion. The theorems relate the table to a finite
    map from names to values. *)
From S2P Require Import Prelude.
Local Open Scope Z_scope.
Local Open Scope u32_scope.

Definition SYMBOL_SLOTS : nat := 32.
Definition NAME_MAX : nat := 16.

Inductive ParseError :=
| LexError (msg : string)
| UnexpectedToken
| UnsupportedOperator (b : Z)
| UnknownSymbol
| DuplicateFn
| SymbolTableFull
| FnTableFull
| StreamFull
| NameTooLong
| DivByZero
| MissingSemicolon
| EmptyLine
| CapViolation
| LoopTooLarge.
#[export] Instance ParseError_eq_dec : EqDecision ParseError.
Proof. solve_decision. Defined.

(** ** Names *)
Record NameBuf := { nb_len : nat; nb_bytes : list Z }.
#[export] Instance NameBuf_eq_dec : EqDecision NameBuf.
Proof. solve_decision. Defined.

Definition EMPTY_NAME : NameBuf := {| nb_len := 0; nb_bytes := replicate NAME_MAX 0 |}.

Definition from_slice (name : list Z) : Result NameBuf ParseError :=
  if (NAME_MAX <? length name)%nat then Err NameTooLong
  else Ok {| nb_len := length name; nb_bytes := copy_prefix (replicate NAME_MAX 0) name |}.

Definition as_slice (n : NameBuf) : list Z := take (nb_len n) (nb_bytes n).

Definition eq_bytes (n : NameBuf) (other : list Z) : bool := bool_decide (as_slice n = other).

Definition wf_name (n : NameBuf) : Prop :=
  (nb_len n <= NAME_MAX)%nat /\ length (nb_bytes n) = NAME_MAX.

(** ** The table *)
Record Symbol := { sy_used : bool; sy_name_len : nat; sy_name : list Z; sy_value : Z }.

Definition EMPTY_SYMBOL : Symbol :=
  {| sy_used := false; sy_name_len := 0; sy_name := replicate NAME_MAX 0; sy_value := 0 |}.

(** FNV-1a, 32 bits, reduced to a slot. *)
Definition fnv_step (h b : Z) : Z := Z.lxor h b *w 0x01000193.
Definition hash (name : list Z) : nat :=
  Z.to_nat (foldl fnv_step 0x811C9DC5 name mod Z.of_nat SYMBOL_SLOTS).

Definition name_matches (s : Symbol) (name : list Z) : bool :=
  (sy_name_len s =? length name)%nat && bool_decide (take (length name) (sy_name s) = name).

Fixpoint probe_lookup (syms : list Symbol) (name : list Z) (start : nat) (steps : list nat)
  : option Z :=
  match steps with
  | [] => None
  | step :: rest =>
      let s := aget EMPTY_SYMBOL syms ((start + step) mod SYMBOL_SLOTS) in
      if negb (sy_used s) then None
      else if name_matches s name then Some (sy_value s)
      else probe_lookup syms name start rest
  end.

Definition lookup_symbol (syms : list Symbol) (name : list Z) : option Z :=
  probe_lookup syms name (hash name) (seq 0 SYMBOL_SLOTS).

Definition fill_symbol (s : Symbol) (bytes : list Z) (value : Z) : Symbol :=
  {| sy_used := true; sy_name_len := length bytes;
     sy_name := copy_prefix (sy_name s) bytes; sy_value := value |}.

Fixpoint probe_insert (syms : list Symbol) (bytes : list Z) (value : Z) (start : nat)
    (steps : list nat) : Result (list Symbol) ParseError :=
  match steps with
  | [] => Err SymbolTableFull
  | step :: rest =>
      let i := ((start + step) mod SYMBOL_SLOTS)%nat in
      let s := aget EMPTY_SYMBOL syms i in
      if negb (sy_used s) || name_matches s bytes
      then Ok (aset syms i (fill_symbol s bytes value))
      else probe_insert syms bytes value start rest
  end.

Definition insert_symbol (syms : list Symbol) (name : NameBuf) (value : Z)
  : Result (list Symbol) ParseError :=
  let bytes := as_slice name in
  probe_insert syms bytes value (hash bytes) (seq 0 SYMBOL_SLOTS).

Definition symbols_new : list Symbol := replicate SYMBOL_SLOTS EMPTY_SYMBOL.

(** ** The table as a finite map *)
Definition sy_key (s : Symbol) : list Z := take (sy_name_len s) (sy_name s).

Definition wf_symbol (s : Symbol) : Prop :=
  (sy_name_len s <= NAME_MAX)%nat /\ length (sy_name s) = NAME_MAX.

Definition slot (syms : list Symbol) (i : nat) : Symbol := aget EMPTY_SYMBOL syms i.

(** Slots hold well-formed names; no name occurs twice; a used slot is
    reached from its hash through used slots only. *)
Record wf_symtab (syms : list Symbol) : Prop := {
  st_length : length syms = SYMBOL_SLOTS;
  st_wf : Forall wf_symbol syms;
  st_unique : forall i j, (i < SYMBOL_SLOTS)%nat -> (j < SYMBOL_SLOTS)%nat ->
    sy_used (slot syms i) = true -> sy_used (slot syms j) = true ->
    sy_key (slot syms i) = sy_key (slot syms j) -> i = j;
  st_chain : forall d e name, (e < d < SYMBOL_SLOTS)%nat ->
    sy_used (slot syms ((hash name + d) mod SYMBOL_SLOTS)) = true ->
    sy_key (slot syms ((hash name + d) mod SYMBOL_SLOTS)) = name ->
    sy_used (slot syms ((hash name + e) mod SYMBOL_SLOTS)) = true;
}.

Definition used_entries (syms : list Symbol) : list (list Z * Z) :=
  (fun s => (sy_key s, sy_value s)) <$> filter (fun s => sy_used s = true) syms.

Definition sym_map (syms : list Symbol) : gmap (list Z) Z := list_to_map (used_entries syms).

(** ** Name lemmas *)
Lemma from_slice_ok name : (length name <= NAME_MAX)%nat ->
  exists n, from_slice name = Ok n /\ wf_name n /\ as_slice n = name.
Proof.
  intros Hl. unfold from_slice. destruct (Nat.ltb_spec NAME_MAX (length name)); [lia|].
  eexists. split; [done|]. unfold wf_name, as_slice. cbn [nb_len nb_bytes]. split.
  - split; [done|]. rewrite length_copy_prefix; by rewrite length_replicate.
  - apply take_copy_prefix.
Qed.

Lemma from_slice_inv name n :
  from_slice name = Ok n -> wf_name n /\ as_slice n = name /\ (length name <= NAME_MAX)%nat.
Proof.
  intros H. destruct (Nat.le_gt_cases (length name) NAME_MAX) as [Hl|Hl].
  - destruct (from_slice_ok name Hl) as (n' & H' & Hw & Ha). assert (n' = n) as -> by congruence. done.
  - unfold from_slice in H. destruct (Nat.ltb_spec NAME_MAX (length name)); [done|lia].
Qed.

Lemma as_slice_length n : wf_name n -> length (as_slice n) = nb_len n.
Proof. intros [H1 H2]. unfold as_slice. rewrite length_take. lia. Qed.

(** ** Slot arithmetic *)
Lemma slot_index_lt a : (a mod SYMBOL_SLOTS < SYMBOL_SLOTS)%nat.
Proof. apply Nat.mod_upper_bound. done. Qed.

Lemma slot_index_inj h d e :
  (d < SYMBOL_SLOTS)%nat -> (e < SYMBOL_SLOTS)%nat ->
  ((h + d) mod SYMBOL_SLOTS = (h + e) mod SYMBOL_SLOTS)%nat -> d = e.
Proof.
  unfold SYMBOL_SLOTS. intros Hd He E.
  pose proof (Nat.div_mod_eq (h + d) 32). pose proof (Nat.div_mod_eq (h + e) 32). lia.
Qed.

Lemma slot_index_surj h i :
  (i < SYMBOL_SLOTS)%nat -> exists d, (d < SYMBOL_SLOTS)%nat /\ ((h + d) mod SYMBOL_SLOTS = i)%nat.
Proof.
  unfold SYMBOL_SLOTS. intros Hi. exists ((i + 32 - h mod 32) mod 32)%nat.
  split; [apply Nat.mod_upper_bound; lia|].
  rewrite Nat.Div0.add_mod_idemp_r. pose proof (Nat.div_mod_eq h 32).
  pose proof (Nat.mod_upper_bound h 32).
  replace (h + (i + 32 - h mod 32))%nat with (i + (h / 32 + 1) * 32)%nat by lia.
  rewrite Nat.Div0.mod_add. apply Nat.mod_small. done.
Qed.

Lemma wf_slot syms i : wf_symtab syms -> (i < SYMBOL_SLOTS)%nat ->
  syms !! i = Some (slot syms i) /\ wf_symbol (slot syms i).
Proof.
  intros Hwf Hi. assert (syms !! i = Some (slot syms i)) as E.
  { apply aget_lookup. rewrite (st_length _ Hwf). done. }
  split; [done|]. pose proof (st_wf _ Hwf) as Hf. rewrite Forall_lookup in Hf. eauto.
Qed.

Lemma name_matches_key s name : wf_symbol s -> name_matches s name = true <-> sy_key s = name.
Proof.
  intros [H1 H2]. unfold name_matches, sy_key. rewrite andb_true_iff, Nat.eqb_eq, bool_decide_eq_true.
  split.
  - by intros [-> ?].
  - intros <-. rewrite length_take, Nat.min_l by lia. done.
Qed.

(** ** Probing *)
Lemma probe_lookup_hit syms name h d j n :
  (j <= d < j + n)%nat ->
  (forall e, (j <= e < d)%nat -> let s := slot syms ((h + e) mod SYMBOL_SLOTS) in
     sy_used s = true /\ name_matches s name = false) ->
  sy_used (slot syms ((h + d) mod SYMBOL_SLOTS)) = true ->
  name_matches (slot syms ((h + d) mod SYMBOL_SLOTS)) name = true ->
  probe_lookup syms name h (seq j n) = Some (sy_value (slot syms ((h + d) mod SYMBOL_SLOTS))).
Proof.
  revert j. induction n as [|n IH]; intros j Hd Hskip Hu Hm; [lia|]. cbn [seq probe_lookup].
  cbv zeta. fold (slot syms ((h + j) mod SYMBOL_SLOTS)).
  destruct (decide (j = d)) as [->|Hne].
  - by rewrite Hu, Hm.
  - destruct (Hskip j) as [-> ->]; [lia|]. apply IH; [lia| |done..]. intros e He. apply Hskip. lia.
Qed.

Lemma probe_lookup_miss syms name h j n :
  (forall e, (j <= e < j + n)%nat ->
     sy_used (slot syms ((h + e) mod SYMBOL_SLOTS)) = true ->
     name_matches (slot syms ((h + e) mod SYMBOL_SLOTS)) name = false) ->
  probe_lookup syms name h (seq j n) = None.
Proof.
  revert j. induction n as [|n IH]; intros j Hskip; [done|]. cbn [seq probe_lookup]. cbv zeta.
  fold (slot syms ((h + j) mod SYMBOL_SLOTS)).
  destruct (sy_used _) eqn:Hu; [|done]. rewrite Hskip by (done || lia). apply IH.
  intros e He. apply Hskip. lia.
Qed.

Lemma probe_insert_hit syms name v h d j n :
  (j <= d < j + n)%nat ->
  (forall e, (j <= e < d)%nat -> let s := slot syms ((h + e) mod SYMBOL_SLOTS) in
     sy_used s = true /\ name_matches s name = false) ->
  negb (sy_used (slot syms ((h + d) mod SYMBOL_SLOTS)))
    || name_matches (slot syms ((h + d) mod SYMBOL_SLOTS)) name = true ->
  let i := ((h + d) mod SYMBOL_SLOTS)%nat in
  probe_insert syms name v h (seq j n) = Ok (aset syms i (fill_symbol (slot syms i) name v)).
Proof.
  revert j. induction n as [|n IH]; intros j Hd Hskip Hm; [lia|]. cbn [seq probe_insert].
  cbv zeta. fold (slot syms ((h + j) mod SYMBOL_SLOTS)).
  destruct (decide (j = d)) as [->|Hne].
  - by rewrite Hm.
  - destruct (Hskip j) as [-> ->]; [lia|]. apply IH; [lia| |done]. intros e He. apply Hskip. lia.
Qed.

Lemma probe_insert_full syms name v h j n :
  (forall e, (j <= e < j + n)%nat -> let s := slot syms ((h + e) mod SYMBOL_SLOTS) in
     sy_used s = true /\ name_matches s name = false) ->
  probe_insert syms name v h (seq j n) = Err SymbolTableFull.
Proof.
  revert j. induction n as [|n IH]; intros j Hskip; [done|]. cbn [seq probe_insert]. cbv zeta.
  fold (slot syms ((h + j) mod SYMBOL_SLOTS)).
  destruct (Hskip j) as [-> ->]; [lia|]. apply IH. intros e He. apply Hskip. lia.
Qed.

(** ** Refinement *)
Lemma NoDup_filter_fmap {A K} (P : A -> Prop) `{forall x, Decision (P x)} (f : A -> K) l :
  (forall i j s t, l !! i = Some s -> l !! j = Some t -> P s -> P t -> f s = f t -> i = j) ->
  NoDup (f <$> filter P l).
Proof.
  induction l as [|s l IH]; intros Hu; [constructor|]. rewrite filter_cons.
  assert (NoDup (f <$> filter P l)) as Hl.
  { apply IH. intros i j x y Hi Hj Hx Hy E. specialize (Hu (S i) (S j) x y Hi Hj Hx Hy E). lia. }
  case_decide as Hs; [|done]. cbn. constructor; [|done].
  intros (t & E & Ht)%list_elem_of_fmap. apply list_elem_of_filter in Ht as [HP Hin].
  apply list_elem_of_lookup in Hin as [j Hj].
  specialize (Hu 0%nat (S j) s t eq_refl Hj Hs HP E). lia.
Qed.

Lemma used_keys_nodup syms : wf_symtab syms -> NoDup (used_entries syms).*1.
Proof.
  intros Hwf. unfold used_entries. rewrite <- list_fmap_compose.
  apply NoDup_filter_fmap. intros i j s t Hi Hj Hs Ht E. cbn in E.
  pose proof (lookup_lt_Some _ _ _ Hi) as Li. pose proof (lookup_lt_Some _ _ _ Hj) as Lj.
  rewrite (st_length _ Hwf) in Li, Lj.
  destruct (wf_slot syms i Hwf Li) as [Hi' _]. destruct (wf_slot syms j Hwf Lj) as [Hj' _].
  simplify_eq. by apply (st_unique _ Hwf).
Qed.

Lemma sym_map_lookup syms k v :
  wf_symtab syms ->
  sym_map syms !! k = Some v <->
  exists i, (i < SYMBOL_SLOTS)%nat /\ sy_used (slot syms i) = true /\
    sy_key (slot syms i) = k /\ sy_value (slot syms i) = v.
Proof.
  intros Hwf. unfold sym_map. rewrite <- elem_of_list_to_map by (by apply used_keys_nodup).
  unfold used_entries. rewrite list_elem_of_fmap. split.
  - intros (s & E & Hs). apply list_elem_of_filter in Hs as [Hu Hin].
    apply list_elem_of_lookup in Hin as [i Hi]. pose proof (lookup_lt_Some _ _ _ Hi) as Li.
    rewrite (st_length _ Hwf) in Li. destruct (wf_slot syms i Hwf Li) as [Hi' _].
    exists i. simplify_eq. done.
  - intros (i & Li & Hu & Hk & Hv). destruct (wf_slot syms i Hwf Li) as [Hi _].
    exists (slot syms i). split; [congruence|]. apply list_elem_of_filter. split; [done|].
    apply list_elem_of_lookup. eauto.
Qed.

Lemma sym_map_none syms k i :
  wf_symtab syms -> sym_map syms !! k = None -> (i < SYMBOL_SLOTS)%nat ->
  sy_used (slot syms i) = true -> name_matches (slot syms i) k = false.
Proof.
  intros Hwf Hn Hi Hu. destruct (name_matches _ _) eqn:E; [|done].
  apply name_matches_key in E; [|by apply wf_slot].
  assert (sym_map syms !! k = Some (sy_value (slot syms i))); [|congruence].
  apply sym_map_lookup; eauto.
Qed.

Lemma chain_skip syms name d :
  wf_symtab syms -> (d < SYMBOL_SLOTS)%nat ->
  sy_used (slot syms ((hash name + d) mod SYMBOL_SLOTS)) = true ->
  sy_key (slot syms ((hash name + d) mod SYMBOL_SLOTS)) = name ->
  forall e, (0 <= e < d)%nat -> let s := slot syms ((hash name + e) mod SYMBOL_SLOTS) in
    sy_used s = true /\ name_matches s name = false.
Proof.
  intros Hwf Hd Hu Hk e He. assert (sy_used (slot syms ((hash name + e) mod SYMBOL_SLOTS)) = true) as Hue.
  { apply (st_chain _ Hwf d e name); [lia|done..]. }
  split; [done|]. destruct (name_matches _ _) eqn:E; [|done].
  apply name_matches_key in E; [|apply wf_slot; [done|apply slot_index_lt]].
  assert (d = e); [|lia]. apply (slot_index_inj (hash name)); [lia..|].
  apply (st_unique _ Hwf); auto using slot_index_lt. congruence.
Qed.

Lemma lookup_symbol_map syms name : wf_symtab syms -> lookup_symbol syms name = sym_map syms !! name.
Proof.
  intros Hwf. unfold lookup_symbol. destruct (sym_map syms !! name) as [v|] eqn:E.
  - apply sym_map_lookup in E as (i & Hi & Hu & Hk & Hv); [|done].
    destruct (slot_index_surj (hash name) i Hi) as (d & Hd & Hdi). subst i v.
    apply probe_lookup_hit; [lia|by apply chain_skip|done|].
    by apply name_matches_key; [apply wf_slot|].
  - apply probe_lookup_miss. intros e He Hu. apply sym_map_none; auto using slot_index_lt.
Qed.

Lemma slot_aset syms i j s :
  wf_symtab syms -> (i < SYMBOL_SLOTS)%nat ->
  slot (aset syms i s) j = if decide (i = j) then s else slot syms j.
Proof.
  intros Hwf Hi. unfold slot. case_decide as E; [subst j; apply aget_aset_eq|by apply aget_aset_ne].
  by rewrite (st_length _ Hwf).
Qed.

Section Fill.
Context (syms : list Symbol) (k : list Z) (v : Z) (d : nat).
Hypothesis Hwf : wf_symtab syms.
Hypothesis Hk : (length k <= NAME_MAX)%nat.
Hypothesis Hd : (d < SYMBOL_SLOTS)%nat.
Let i := ((hash k + d) mod SYMBOL_SLOTS)%nat.
Let syms' := aset syms i (fill_symbol (slot syms i) k v).
Hypothesis Hother : forall j, (j < SYMBOL_SLOTS)%nat -> j <> i ->
  sy_used (slot syms j) = true -> sy_key (slot syms j) <> k.
Hypothesis Hsame : sy_used (slot syms i) = true -> sy_key (slot syms i) = k.
Hypothesis Hpath : forall e, (e < d)%nat -> sy_used (slot syms ((hash k + e) mod SYMBOL_SLOTS)) = true.

Lemma fill_slot j : slot syms' j = if decide (i = j) then fill_symbol (slot syms i) k v else slot syms j.
Proof. apply slot_aset; [done|apply slot_index_lt]. Qed.

Lemma fill_key : sy_key (fill_symbol (slot syms i) k v) = k.
Proof. apply take_copy_prefix. Qed.

Lemma fill_used j : sy_used (slot syms j) = true -> sy_used (slot syms' j) = true.
Proof. rewrite fill_slot. by case_decide. Qed.

Lemma fill_wf : wf_symtab syms'.
Proof.
  split.
  - unfold syms'. rewrite length_aset. apply (st_length _ Hwf).
  - apply Forall_insert; [apply (st_wf _ Hwf)|]. split; [done|].
    destruct (wf_slot syms i Hwf (slot_index_lt _)) as [_ [_ Hl]]. unfold fill_symbol; cbn [sy_name].
    rewrite length_copy_prefix; lia.
  - intros a b Ha Hb. rewrite !fill_slot. repeat case_decide; subst; try done.
    + intros _ Hu. rewrite fill_key. intros E. by destruct (Hother b Hb ltac:(done) Hu).
    + intros Hu _. rewrite fill_key. intros E. by destruct (Hother a Ha ltac:(done) Hu).
    + by apply (st_unique _ Hwf).
  - intros d' e name Hde. rewrite (fill_slot ((hash name + d') mod SYMBOL_SLOTS)).
    case_decide as E.
    + intros _. rewrite fill_key. intros <-. apply fill_used.
      apply slot_index_inj in E; [|lia..]. subst d'. apply Hpath. lia.
    + intros Hu Hn. apply fill_used. by apply (st_chain _ Hwf d' e name).
Qed.

Lemma fill_map : sym_map syms' = <[k := v]> (sym_map syms).
Proof.
  apply map_eq. intros q. apply option_eq. intros w.
  rewrite lookup_insert, (sym_map_lookup syms' q w fill_wf). setoid_rewrite fill_slot.
  case_decide as Eq.
  - subst q. split.
    + intros (j & Hj & Hu & Hkey & Hv). case_decide as Ej; [by rewrite <- Hv|].
      destruct (Hother j Hj ltac:(done) Hu Hkey).
    + intros E. injection E as <-. exists i. split; [apply slot_index_lt|].
      rewrite decide_True by done. split; [done|]. split; [apply fill_key|done].
  - rewrite sym_map_lookup by done. apply exist_proper. intros j. split.
    + intros (Hj & Hu & Hkey & Hv). case_decide as Ej; [|done].
      rewrite fill_key in Hkey. congruence.
    + intros (Hj & Hu & Hkey & Hv). split; [done|]. case_decide as Ej; [|done].
      subst j. specialize (Hsame Hu). congruence.
Qed.

End Fill.

Lemma least_unused syms h :
  (forall e, (e < SYMBOL_SLOTS)%nat -> sy_used (slot syms ((h + e) mod SYMBOL_SLOTS)) = true) \/
  (exists d, (d < SYMBOL_SLOTS)%nat /\ sy_used (slot syms ((h + d) mod SYMBOL_SLOTS)) = false /\
     forall e, (e < d)%nat -> sy_used (slot syms ((h + e) mod SYMBOL_SLOTS)) = true).
Proof.
  assert (forall n,
    (forall e, (e < n)%nat -> sy_used (slot syms ((h + e) mod SYMBOL_SLOTS)) = true) \/
    (exists d, (d < n)%nat /\ sy_used (slot syms ((h + d) mod SYMBOL_SLOTS)) = false /\
      forall e, (e < d)%nat -> sy_used (slot syms ((h + e) mod SYMBOL_SLOTS)) = true)) as H;
    [|apply H].
  induction n as [|n [IH|(d & Hd & Hu & Hlt)]].
  - left. lia.
  - destruct (sy_used (slot syms ((h + n) mod SYMBOL_SLOTS))) eqn:E.
    + left. intros e He. destruct (decide (e = n)); [by subst|]. apply IH. lia.
    + right. exists n. auto with lia.
  - right. exists d. auto with lia.
Qed.

Lemma filter_all {A} (P : A -> Prop) `{forall x, Decision (P x)} l : Forall P l -> filter P l = l.
Proof. induction 1; [done|]. rewrite filter_cons_True by done. by f_equal. Qed.

Lemma all_used_size syms :
  wf_symtab syms -> (forall i, (i < SYMBOL_SLOTS)%nat -> sy_used (slot syms i) = true) ->
  size (sym_map syms) = SYMBOL_SLOTS.
Proof.
  intros Hwf Hall. unfold sym_map. rewrite map_size_list_to_map by (by apply used_keys_nodup).
  unfold used_entries. rewrite length_fmap, filter_all; [apply (st_length _ Hwf)|].
  apply Forall_lookup. intros i s Hi. pose proof (lookup_lt_Some _ _ _ Hi) as Li. rewrite (st_length _ Hwf) in Li.
  destruct (wf_slot syms i Hwf Li) as [Hi' _]. simplify_eq. by apply Hall.
Qed.

Lemma sym_map_size syms : wf_symtab syms -> (size (sym_map syms) <= SYMBOL_SLOTS)%nat.
Proof.
  intros Hwf. unfold sym_map. rewrite map_size_list_to_map by (by apply used_keys_nodup).
  unfold used_entries. rewrite length_fmap, <- (st_length _ Hwf). apply length_filter.
Qed.

Lemma insert_symbol_map syms nb v :
  wf_symtab syms -> wf_name nb ->
  match insert_symbol syms nb v with
  | Ok syms' => wf_symtab syms' /\ sym_map syms' = <[as_slice nb := v]> (sym_map syms)
  | Err e => e = SymbolTableFull /\ sym_map syms !! as_slice nb = None /\
      size (sym_map syms) = SYMBOL_SLOTS
  end.
Proof.
  intros Hwf Hnb. unfold insert_symbol. cbv zeta. set (k := as_slice nb).
  assert (length k <= NAME_MAX)%nat as Hk by (unfold k; rewrite as_slice_length by done; apply Hnb).
  destruct (sym_map syms !! k) as [w|] eqn:E.
  - apply sym_map_lookup in E as (i & Hi & Hu & Hkey & _); [|done].
    destruct (slot_index_surj (hash k) i Hi) as (d & Hd & <-).
    pose proof (chain_skip syms k d Hwf Hd Hu Hkey) as Hskip.
    rewrite (probe_insert_hit syms k v (hash k) d 0 SYMBOL_SLOTS) by
      (lia || done || (rewrite Hu; by apply name_matches_key; [apply wf_slot|])).
    assert (forall j, (j < SYMBOL_SLOTS)%nat -> j <> ((hash k + d) mod SYMBOL_SLOTS)%nat ->
      sy_used (slot syms j) = true -> sy_key (slot syms j) <> k) as Hother.
    { intros j Hj Hne Huj Hkj. apply Hne. apply (st_unique _ Hwf); auto. congruence. }
    split; [apply fill_wf|apply fill_map]; auto; intros e He; apply (Hskip e); lia.
  - assert (forall j, (j < SYMBOL_SLOTS)%nat -> sy_used (slot syms j) = true ->
      sy_key (slot syms j) <> k) as Habs.
    { intros j Hj Hu Hkj. apply (sym_map_none syms k j Hwf E Hj) in Hu as Hm.
      apply name_matches_key in Hkj; [congruence|by apply wf_slot]. }
    destruct (least_unused syms (hash k)) as [Hall|(d & Hd & Hu & Hlt)].
    + rewrite probe_insert_full.
      * split; [done|]. split; [done|]. apply all_used_size; [done|]. intros i Hi.
        destruct (slot_index_surj (hash k) i Hi) as (d & Hd & <-). by apply Hall.
      * intros e He. split; [apply Hall; lia|]. apply sym_map_none; auto using slot_index_lt.
        apply Hall. lia.
    + rewrite (probe_insert_hit syms k v (hash k) d 0 SYMBOL_SLOTS);
        [ | lia | | by rewrite Hu].
      * split; [apply fill_wf|apply fill_map]; auto; congruence.
      * intros e He. split; [apply Hlt; lia|]. apply sym_map_none; auto using slot_index_lt.
        apply Hlt. lia.
Qed.

Lemma slot_new i : slot symbols_new i = EMPTY_SYMBOL.
Proof. apply aget_replicate. Qed.

Lemma symbols_new_wf : wf_symtab symbols_new.
Proof.
  split.
  - done.
  - apply Forall_replicate. split; [cbn; unfold NAME_MAX; lia|done].
  - intros i j _ _. by rewrite slot_new.
  - intros d e name _. by rewrite slot_new.
Qed.

Lemma symbols_new_map : sym_map symbols_new = ∅.
Proof. done. Qed.

(** A session of bindings on the table: a refused binding changes nothing. *)
Fixpoint bind_all (bs : list (NameBuf * Z)) (syms : list Symbol) : list Symbol :=
  match bs with
  | [] => syms
  | (n, v) :: rest =>
      bind_all rest (match insert_symbol syms n v with Ok syms' => syms' | Err _ => syms end)
  end.

(** The same session on a map of at most 32 names. *)
Fixpoint bind_map (bs : list (NameBuf * Z)) (m : gmap (list Z) Z) : gmap (list Z) Z :=
  match bs with
  | [] => m
  | (n, v) :: rest =>
      bind_map rest
        (if bool_decide (is_Some (m !! as_slice n)) || (size m <? SYMBOL_SLOTS)%nat
         then <[as_slice n := v]> m else m)
  end.

Lemma bind_all_map bs syms :
  wf_symtab syms -> Forall (fun b => wf_name b.1) bs ->
  wf_symtab (bind_all bs syms) /\ sym_map (bind_all bs syms) = bind_map bs (sym_map syms).
Proof.
  intros Hwf Hbs. revert syms Hwf. induction Hbs as [|[n v] bs Hn _ IH]; intros syms Hwf; [done|].
  cbn [bind_all bind_map]. pose proof (insert_symbol_map syms n v Hwf Hn) as Hi.
  destruct (insert_symbol syms n v) as [syms'|e].
  - destruct Hi as [Hwf' Hm]. destruct (IH syms' Hwf') as [Hw ->]. split; [done|].
    destruct (bool_decide _ || _) eqn:E; [by rewrite Hm|]. exfalso.
    apply orb_false_iff in E as [E1 E2]. bool_to_prop.
    assert (sym_map syms !! as_slice n = None) as Hnone by (by apply eq_None_not_Some).
    pose proof (sym_map_size syms' Hwf') as Hs. rewrite Hm, map_size_insert_None in Hs by done. lia.
  - destruct Hi as (_ & Hn0 & Hs). destruct (IH syms Hwf) as [Hw ->]. split; [done|].
    rewrite Hn0, Hs. done.
Qed.

(** C9. The symbol table is a finite map: after any session of [let]
    bindings from an empty table, looking a name up returns the value a map
    of at most 32 names would hold, that is the last value bound to it; a
    binding is refused only when 32 other names are bound, and then changes
    nothing. Hash collisions and probe order are invisible. *)
Theorem symbol_table_is_map (bs : list (NameBuf * Z)) (name : list Z) :
  Forall (fun b => wf_name b.1) bs ->
  lookup_symbol (bind_all bs symbols_new) name = bind_map bs ∅ !! name.
Proof.
  intros Hbs. destruct (bind_all_map bs symbols_new symbols_new_wf Hbs) as [Hwf Hm].
  by rewrite lookup_symbol_map, Hm, symbols_new_map.
Qed.

Lemma symbol_table_is_map_witness :
  let n := {| nb_len := 1; nb_bytes := copy_prefix (replicate NAME_MAX 0) (bytes "x") |} in
  lookup_symbol (bind_all [(n, 1); (n, 2)] symbols_new) (bytes "x") = Some 2.
Proof.
  exact (symbol_table_is_map
    [({| nb_len := 1; nb_bytes := copy_prefix (replicate NAME_MAX 0) (bytes "x") |}, 1);
     ({| nb_len := 1; nb_bytes := copy_prefix (replicate NAME_MAX 0) (bytes "x") |}, 2)]
    (bytes "x")
    ltac:(repeat constructor; cbn; unfold NAME_MAX; lia)).
Defined.
