(* ===== verification/Exec.v ===== *)
(** * Exec: the threaded-code engine (src/kernel/exec.rs, src/compiler/primitives.rs)

    A compiled stream is an array of words: addresses of micro-primitives
    interleaved with literal operands. The addresses are chosen by the
    linker, so [PrimAddrs] is a parameter: distinct, non-null 32-bit words.
    [run_threaded_stream] is the dispatch loop; it is compared with a stack
    machine on instructions, and with the statements the parser compiles. *)
From S2P Require Import Prelude Registry AuditRing Memory.
Local Open Scope Z_scope.
Local Open Scope u32_scope.

Definition VM_STACK_SIZE : nat := 64.

Inductive Prim :=
| lit_prim | load_reg_prim | write_reg_prim
| add_prim | sub_prim | mul_prim | div_prim | halt_prim.
#[export] Instance Prim_eq_dec : EqDecision Prim.
Proof. solve_decision. Defined.

Definition all_prims : list Prim :=
  [lit_prim; load_reg_prim; write_reg_prim; add_prim; sub_prim; mul_prim; div_prim; halt_prim].

(** [f as usize] for the eight primitives. *)
Class PrimAddrs := {
  word_of : Prim -> Z;
  word_of_u32 : forall p, u32 (word_of p);
  word_of_nonnull : forall p, word_of p <> 0;
  word_of_inj : forall p q, word_of p = word_of q -> p = q;
}.

(** ** The operand stack: [VM_STACK] and [VM_SP]. *)
Record VM := { vm_stack : list Z; vm_sp : nat }.

Definition vm_new : VM := {| vm_stack := replicate VM_STACK_SIZE 0; vm_sp := 0 |}.

Definition vm_push (value : Z) (vm : VM) : bool * VM :=
  if (VM_STACK_SIZE <=? vm_sp vm)%nat then (false, vm)
  else (true, {| vm_stack := aset (vm_stack vm) (vm_sp vm) value; vm_sp := S (vm_sp vm) |}).

Definition vm_pop (vm : VM) : Z * VM :=
  match vm_sp vm with
  | O => (0, vm)
  | S sp => (aget 0 (vm_stack vm) sp, {| vm_stack := vm_stack vm; vm_sp := sp |})
  end.

Definition vm_reset (vm : VM) : VM := {| vm_stack := vm_stack vm; vm_sp := 0 |}.

Definition vm_depth (vm : VM) : nat := vm_sp vm.

(** How dispatch ends: the halt primitive, a zero word, a fetch past the
    stream, a jump to a word that is no primitive, or no fuel left. *)
Inductive Stop := Halted | ZeroWord | WildFetch | WildJump | OutOfFuel.
#[export] Instance Stop_eq_dec : EqDecision Stop.
Proof. solve_decision. Defined.

Definition checked_div_or_0 (a b : Z) : Z := if b =? 0 then 0 else a / b.

Section Dispatch.
Context `{PrimAddrs} {B : Type} `{Bus B} (arch : Arch).

(** The primitive a word points to, if it is one. *)
Definition prim_at (w : Z) : option Prim := List.find (fun p => word_of p =? w) all_prims.

Definition binop (f : Z -> Z -> Z) (vm : VM) : VM :=
  let (b, vm1) := vm_pop vm in
  let (a, vm2) := vm_pop vm1 in
  snd (vm_push (f a b) vm2).

(** One primitive called with [ip] just past its own word: the next
    instruction pointer ([None] is the null pointer), or [None] overall when
    the inline operand lies past the stream. *)
Definition call_prim (p : Prim) (words : list Z) (ip : nat) (vm : VM) (m : Machine B)
  : option (option nat * VM * Machine B) :=
  match p with
  | lit_prim =>
      match words !! ip with
      | Some v => Some (Some (S ip), snd (vm_push v vm), m)
      | None => None
      end
  | load_reg_prim =>
      let (addr, vm1) := vm_pop vm in
      let (value, m1) := peek_u32 arch addr m in
      Some (Some ip, snd (vm_push value vm1), m1)
  | write_reg_prim =>
      let (value, vm1) := vm_pop vm in
      let (addr, vm2) := vm_pop vm1 in
      Some (Some ip, vm2, poke_u32 arch addr value m)
  | add_prim => Some (Some ip, binop u32_add vm, m)
  | sub_prim => Some (Some ip, binop u32_sub vm, m)
  | mul_prim => Some (Some ip, binop u32_mul vm, m)
  | div_prim => Some (Some ip, binop checked_div_or_0 vm, m)
  | halt_prim => Some (None, vm, m)
  end.

Fixpoint run_threaded_stream (fuel : nat) (words : list Z) (ip : nat) (vm : VM) (m : Machine B)
  : Stop * VM * Machine B :=
  match fuel with
  | O => (OutOfFuel, vm, m)
  | S f =>
      match words !! ip with
      | None => (WildFetch, vm, m)
      | Some word =>
          if word =? 0 then (ZeroWord, vm, m)
          else
            match prim_at word with
            | None => (WildJump, vm, m)
            | Some p =>
                match call_prim p words (S ip) vm m with
                | None => (WildFetch, vm, m)
                | Some (None, vm', m') => (Halted, vm', m')
                | Some (Some ip', vm', m') => run_threaded_stream f words ip' vm' m'
                end
            end
      end
  end.

(** ** Reference semantics

    Instructions on a list stack of bounded depth (top first): a push on a
    full stack is dropped, a pop from an empty one yields 0. *)
Inductive Instr := ILit (v : Z) | IOp (p : Prim).

Definition straight (i : Instr) : Prop :=
  match i with ILit _ => True | IOp p => p <> lit_prim /\ p <> halt_prim end.

Definition encode_instr (i : Instr) : list Z :=
  match i with ILit v => [word_of lit_prim; v] | IOp p => [word_of p] end.

Definition encode (prog : list Instr) : list Z := concat (map encode_instr prog).

Definition spush (v : Z) (s : list Z) : list Z :=
  if (length s <? VM_STACK_SIZE)%nat then v :: s else s.
Definition spop (s : list Z) : Z * list Z :=
  match s with [] => (0, []) | v :: s' => (v, s') end.

Definition sbinop (f : Z -> Z -> Z) (s : list Z) : list Z :=
  let (b, s1) := spop s in let (a, s2) := spop s1 in spush (f a b) s2.

Definition exec_instr (i : Instr) (st : list Z * Machine B) : list Z * Machine B :=
  let (s, m) := st in
  match i with
  | ILit v => (spush v s, m)
  | IOp load_reg_prim =>
      let (addr, s1) := spop s in
      let (value, m1) := peek_u32 arch addr m in (spush value s1, m1)
  | IOp write_reg_prim =>
      let (value, s1) := spop s in
      let (addr, s2) := spop s1 in (s2, poke_u32 arch addr value m)
  | IOp add_prim => (sbinop (fun a b => (a + b) mod 2 ^ 32) s, m)
  | IOp sub_prim => (sbinop (fun a b => (a - b) mod 2 ^ 32) s, m)
  | IOp mul_prim => (sbinop (fun a b => (a * b) mod 2 ^ 32) s, m)
  | IOp div_prim => (sbinop (fun a b => if b =? 0 then 0 else a / b) s, m)
  | IOp _ => st
  end.

Definition exec_instrs (prog : list Instr) (st : list Z * Machine B) : list Z * Machine B :=
  foldl (fun st i => exec_instr i st) st prog.

(** Statements, the unit the parser compiles. *)
Inductive Stmt := SPoke (a v : Z) | SPeek (a : Z).

Definition stmt_instrs (s : Stmt) : list Instr :=
  match s with
  | SPoke a v => [ILit a; ILit v; IOp write_reg_prim]
  | SPeek a => [ILit a; IOp load_reg_prim]
  end.

Definition code (ss : list Stmt) : list Z := encode (concat (map stmt_instrs ss)).

(** What a statement list means: memory accesses in program order; the
    values read are collected, the last one first. *)
Definition run_stmt (s : Stmt) (st : list Z * Machine B) : list Z * Machine B :=
  let (vals, m) := st in
  match s with
  | SPoke a v => (vals, poke_u32 arch a v m)
  | SPeek a => let (v, m1) := peek_u32 arch a m in (v :: vals, m1)
  end.

Definition run_stmts (ss : list Stmt) (st : list Z * Machine B) : list Z * Machine B :=
  foldl (fun st s => run_stmt s st) st ss.

Definition stmt_addr (s : Stmt) : Z := match s with SPoke a _ | SPeek a => a end.

(** ** Lemmas *)

(** The array and stack pointer represent a list stack. *)
Definition vm_rep (vm : VM) (s : list Z) : Prop :=
  length (vm_stack vm) = VM_STACK_SIZE /\ (vm_sp vm <= VM_STACK_SIZE)%nat /\
  s = rev (take (vm_sp vm) (vm_stack vm)).

Lemma vm_rep_length vm s : vm_rep vm s -> length s = vm_sp vm.
Proof. intros (Hl & Hs & ->). rewrite length_rev, length_take. lia. Qed.

Lemma vm_push_rep v vm s : vm_rep vm s -> vm_rep (snd (vm_push v vm)) (spush v s).
Proof.
  intros Hr. pose proof (vm_rep_length vm s Hr) as Hlen. destruct Hr as (Hl & Hs & Hst).
  unfold vm_push, spush. rewrite Hlen.
  destruct (Nat.leb_spec VM_STACK_SIZE (vm_sp vm)), (Nat.ltb_spec (vm_sp vm) VM_STACK_SIZE); try lia.
  - by repeat split.
  - unfold vm_rep. cbn [snd vm_stack vm_sp]. rewrite length_aset. split; [done|]. split; [lia|].
    unfold aset. rewrite (take_S_r _ _ v) by (apply list_lookup_insert_eq; lia).
    rewrite take_insert_ge by lia. rewrite rev_app_distr. cbn. by rewrite <- Hst.
Qed.

Lemma vm_pop_rep vm s :
  vm_rep vm s -> fst (vm_pop vm) = fst (spop s) /\ vm_rep (snd (vm_pop vm)) (snd (spop s)).
Proof.
  intros Hr. pose proof Hr as (Hl & Hs & Hst). unfold vm_pop. destruct (vm_sp vm) as [|sp] eqn:E.
  - cbn in Hst. subst s. cbn. split; [done|]. unfold vm_rep. rewrite E. done.
  - rewrite (take_S_r _ _ (aget 0 (vm_stack vm) sp)) in Hst by (apply aget_lookup; lia).
    rewrite rev_app_distr in Hst. cbn in Hst. subst s. cbn. split; [done|].
    unfold vm_rep. cbn. split; [done|]. split; [lia|done].
Qed.

Lemma binop_rep f vm s : vm_rep vm s -> vm_rep (binop f vm) (sbinop f s).
Proof.
  intros Hr. unfold binop, sbinop. destruct (vm_pop_rep vm s Hr) as [E1 R1].
  destruct (vm_pop vm) as [b vm1], (spop s) as [b' s1]. cbn in *. subst.
  destruct (vm_pop_rep vm1 s1 R1) as [E2 R2].
  destruct (vm_pop vm1) as [a vm2], (spop s1) as [a' s2]. cbn in *. subst. by apply vm_push_rep.
Qed.

Lemma prim_at_word_of p : prim_at (word_of p) = Some p.
Proof.
  unfold prim_at. assert (forall q, (word_of q =? word_of p) = bool_decide (q = p)) as Hq.
  { intros q. case_bool_decide as E; [subst; apply Z.eqb_refl|]. apply Z.eqb_neq.
    intros E2. by apply word_of_inj in E2. }
  unfold all_prims. cbn [List.find]. rewrite !Hq. by destruct p.
Qed.

(** One dispatch step on an encoded instruction. *)
Lemma dispatch_instr i pre rest fuel vm s m :
  straight i -> vm_rep vm s ->
  exists vm', vm_rep vm' (fst (exec_instr i (s, m))) /\
    run_threaded_stream (S fuel) (pre ++ encode_instr i ++ rest) (length pre) vm m =
    run_threaded_stream fuel (pre ++ encode_instr i ++ rest)
      (length pre + length (encode_instr i)) vm' (snd (exec_instr i (s, m))).
Proof.
  intros Hi Hr. cbn [run_threaded_stream].
  assert (forall w ws, (pre ++ (w :: ws) ++ rest) !! length pre = Some w) as Hhd
    by (intros; by rewrite lookup_app_r, Nat.sub_diag by lia).
  assert (forall p, (word_of p =? 0) = false) as Hnz
    by (intros p; apply Z.eqb_neq, word_of_nonnull).
  destruct i as [v|p].
  - cbn [encode_instr]. rewrite Hhd, Hnz, prim_at_word_of. cbn [call_prim].
    rewrite lookup_app_r by lia. replace (S (length pre) - length pre)%nat with 1%nat by lia.
    cbn. eexists. split; [by apply vm_push_rep|]. f_equal. lia.
  - cbn [encode_instr]. rewrite Hhd, Hnz, prim_at_word_of. rewrite Nat.add_1_r.
    destruct Hi as [Hnl Hnh].
    destruct p; try done; cbn [call_prim exec_instr];
      try (eexists; split; [by apply binop_rep|done]).
    + destruct (vm_pop_rep vm s Hr) as [E1 R1]. destruct (vm_pop vm) as [a vm1], (spop s) as [a' s1].
      cbn in E1, R1. subst a'. destruct (peek_u32 arch a m) as [w m1].
      eexists. split; [by apply vm_push_rep|done].
    + destruct (vm_pop_rep vm s Hr) as [E1 R1]. destruct (vm_pop vm) as [w vm1], (spop s) as [w' s1].
      cbn in E1, R1. subst w'. destruct (vm_pop_rep vm1 s1 R1) as [E2 R2].
      destruct (vm_pop vm1) as [a vm2], (spop s1) as [a' s2]. cbn in E2, R2. subst a'.
      eexists. split; [exact R2|done].
Qed.

Lemma dispatch_instrs prog pre rest fuel vm s m :
  Forall straight prog -> vm_rep vm s -> (length prog < fuel)%nat ->
  exists vm', vm_rep vm' (fst (exec_instrs prog (s, m))) /\
    run_threaded_stream fuel (pre ++ encode prog ++ word_of halt_prim :: rest) (length pre) vm m =
    (Halted, vm', snd (exec_instrs prog (s, m))).
Proof.
  intros Hs. revert pre fuel vm s m. induction Hs as [|i prog Hi _ IH]; intros pre fuel vm s m Hr Hf.
  - destruct fuel as [|f]; [cbn in Hf; lia|]. exists vm. split; [done|].
    cbn [run_threaded_stream encode map concat app].
    rewrite lookup_app_r, Nat.sub_diag by lia. cbn [lookup list_lookup].
    destruct (Z.eqb_spec (word_of halt_prim) 0) as [E|_]; [by apply word_of_nonnull in E|].
    by rewrite prim_at_word_of.
  - destruct fuel as [|f]; [cbn in Hf; lia|]. cbn in Hf.
    unfold encode. cbn [map concat]. fold (encode prog). rewrite <- app_assoc.
    destruct (dispatch_instr i pre (encode prog ++ word_of halt_prim :: rest) f vm s m Hi Hr)
      as (vm1 & R1 & ->).
    unfold exec_instrs. cbn [foldl]. destruct (exec_instr i (s, m)) as [s1 m1]. cbn [fst snd] in *.
    rewrite <- length_app, app_assoc. apply IH; [done|lia].
Qed.

(** Words stay words: with word literals and a bus of words, every slot of the
    operand stack holds a 32-bit word after any run. *)
Lemma vm_push_u32 v vm : u32 v -> Forall u32 (vm_stack vm) -> Forall u32 (vm_stack (snd (vm_push v vm))).
Proof. intros Hv Hs. unfold vm_push. destruct (_ <=? _)%nat; [done|]. cbn. by apply Forall_insert. Qed.

Lemma vm_pop_u32 vm : Forall u32 (vm_stack vm) -> u32 (fst (vm_pop vm)) /\ Forall u32 (vm_stack (snd (vm_pop vm))).
Proof.
  intros Hs. unfold vm_pop. destruct (vm_sp vm) as [|sp]; cbn [fst snd vm_stack]; [by split; [unfold u32, M32; lia|]|].
  split; [|done]. unfold aget. destruct (nth_in_or_default sp (vm_stack vm) 0) as [Hin| ->]; [|unfold u32, M32; lia].
  rewrite list.Forall_forall in Hs. by apply Hs, list_elem_of_In.
Qed.

Lemma binop_u32 f vm : (forall a b, u32 a -> u32 b -> u32 (f a b)) -> Forall u32 (vm_stack vm) -> Forall u32 (vm_stack (binop f vm)).
Proof.
  intros Hf Hs. unfold binop. destruct (vm_pop_u32 vm Hs) as [Hb H1]. destruct (vm_pop vm) as [b vm1].
  destruct (vm_pop_u32 vm1 H1) as [Ha H2]. destruct (vm_pop vm1) as [a vm2]. by apply vm_push_u32; [apply Hf|].
Qed.

Lemma checked_div_u32 a b : u32 a -> u32 b -> u32 (checked_div_or_0 a b).
Proof.
  intros Ha Hb. unfold checked_div_or_0. destruct (Z.eqb_spec b 0); [unfold u32, M32; lia|by apply u32_div_range].
Qed.

Lemma call_prim_u32 `{!BusWidth B} p words ip vm m : Forall u32 words -> Forall u32 (vm_stack vm) -> wf_machine m ->
  match call_prim p words ip vm m with
  | Some (_, vm', m') => Forall u32 (vm_stack vm') /\ wf_machine m'
  | None => True
  end.
Proof.
  intros Hw Hs Hm. destruct (vm_pop_u32 vm Hs) as [H1 H2].
  destruct p; cbn [call_prim]; try (by split; [apply binop_u32; auto using u32_add_range, u32_sub_range, u32_mul_range, checked_div_u32|]);
    try done.
  - destruct (words !! ip) as [v|] eqn:E; [|done]. split; [|done]. apply vm_push_u32; [|done]. rewrite Forall_lookup in Hw. eauto.
  - destruct (vm_pop vm) as [addr vm1]. pose proof (peek_range arch addr m Hm) as Hp. pose proof (peek_wf arch addr m Hm) as Hq.
    destruct (peek_u32 arch addr m) as [v m1]. split; [by apply vm_push_u32|done].
  - destruct (vm_pop vm) as [value vm1]. destruct (vm_pop_u32 vm1 H2) as [_ H3]. destruct (vm_pop vm1) as [addr vm2].
    split; [done|]. by apply poke_wf.
Qed.

Lemma run_threaded_u32 `{!BusWidth B} fuel words ip vm m : Forall u32 words -> Forall u32 (vm_stack vm) -> wf_machine m ->
  Forall u32 (vm_stack (snd (fst (run_threaded_stream fuel words ip vm m)))).
Proof.
  intros Hw. revert ip vm m. induction fuel as [|f IH]; intros ip vm m Hs Hm; [done|]. cbn [run_threaded_stream].
  destruct (words !! ip) as [word|]; [|done]. destruct (word =? 0); [done|]. destruct (prim_at word) as [p|]; [|done].
  pose proof (call_prim_u32 p words (S ip) vm m Hw Hs Hm) as Hc.
  destruct (call_prim p words (S ip) vm m) as [[[[ip'|] vm'] m']|]; [|by destruct Hc|done]. destruct Hc. by apply IH.
Qed.

Lemma vm_reset_rep vm : length (vm_stack vm) = VM_STACK_SIZE -> vm_rep (vm_reset vm) [].
Proof. intros Hl. unfold vm_rep, vm_reset. cbn. repeat split; [done|unfold VM_STACK_SIZE; lia]. Qed.

Lemma stmt_instrs_straight ss : Forall straight (concat (map stmt_instrs ss)).
Proof.
  induction ss as [|s ss IH]; cbn; [constructor|]. apply Forall_app. split; [|done].
  destruct s; repeat constructor; cbn; done.
Qed.

Lemma code_cons s ss : code (s :: ss) = encode (stmt_instrs s) ++ code ss.
Proof. unfold code, encode. cbn. by rewrite map_app, concat_app. Qed.

Lemma code_app ss ts : code (ss ++ ts) = code ss ++ code ts.
Proof. unfold code, encode. rewrite map_app, concat_app, map_app, concat_app. done. Qed.

Lemma code_length_instrs ss : (length (concat (map stmt_instrs ss)) <= length (code ss))%nat.
Proof.
  induction ss as [|s ss IH]; [done|]. rewrite code_cons. cbn. rewrite !length_app.
  destruct s; cbn; lia.
Qed.

(** The stack machine on compiled statements: with room for two operands
    above the values already read, it performs exactly the accesses. *)
Lemma exec_stmts ss vals m :
  (length vals + 2 + length ss <= VM_STACK_SIZE)%nat ->
  exec_instrs (concat (map stmt_instrs ss)) (vals, m) = run_stmts ss (vals, m).
Proof.
  revert vals m. induction ss as [|s ss IH]; intros vals m Hl; [done|].
  cbn [length] in Hl. unfold exec_instrs, run_stmts in *. cbn [map concat foldl]. rewrite foldl_app.
  destruct s as [a v|a]; cbn [stmt_instrs foldl exec_instr run_stmt].
  - unfold spush. destruct (Nat.ltb_spec (length vals) VM_STACK_SIZE); [|lia]. cbn [length].
    destruct (Nat.ltb_spec (S (length vals)) VM_STACK_SIZE); [|lia]. cbn [spop].
    apply IH. lia.
  - unfold spush at 1. destruct (Nat.ltb_spec (length vals) VM_STACK_SIZE); [|lia]. cbn [spop].
    destruct (peek_u32 arch a m) as [v m1]. unfold spush.
    destruct (Nat.ltb_spec (length vals) VM_STACK_SIZE); [|lia]. apply IH. cbn [length]. lia.
Qed.

Lemma code_length ss : (3 * length ss <= length (code ss))%nat.
Proof.
  induction ss as [|s ss IH]; [done|]. rewrite code_cons, length_app. cbn [length].
  destruct s; cbn; lia.
Qed.

(** C10. The threaded engine refines the stack machine: any sequence of
    instructions, encoded as the parser lays it out and closed by the halt
    word, is dispatched to its end in one step per instruction, never
    fetching past the stream nor jumping to a foreign word, and leaves the
    operand array and the machine as the stack machine does, silent drop on
    overflow and 0 on underflow included. *)
Theorem threaded_refines_stack_machine (prog : list Instr) (rest : list Z) (vm : VM) (m : Machine B) :
  Forall straight prog -> length (vm_stack vm) = VM_STACK_SIZE ->
  exists vm',
    run_threaded_stream (S (length prog)) (encode prog ++ word_of halt_prim :: rest) 0 (vm_reset vm) m
      = (Halted, vm', snd (exec_instrs prog ([], m))) /\
    vm_rep vm' (fst (exec_instrs prog ([], m))).
Proof.
  intros Hs Hl. destruct (dispatch_instrs prog [] rest (S (length prog)) (vm_reset vm) [] m Hs
    (vm_reset_rep vm Hl) ltac:(lia)) as (vm' & Hr & E). eauto.
Qed.

(** Compiled statements mean what they say: the stream of a list of
    poke and peek statements that fits the 128-word buffer runs to its halt
    word and performs exactly those accesses in that order; the operand
    stack ends with the values read, the last one on top. *)
Theorem threaded_stmts_correct (ss : list Stmt) (rest : list Z) (vm : VM) (m : Machine B) (fuel : nat) :
  (length (code ss) < 128)%nat -> (128 <= fuel)%nat -> length (vm_stack vm) = VM_STACK_SIZE ->
  exists vm',
    run_threaded_stream fuel (code ss ++ word_of halt_prim :: rest) 0 (vm_reset vm) m
      = (Halted, vm', snd (run_stmts ss ([], m))) /\
    vm_rep vm' (fst (run_stmts ss ([], m))).
Proof.
  intros Hc Hf Hl. pose proof (code_length_instrs ss). pose proof (code_length ss).
  destruct (dispatch_instrs (concat (map stmt_instrs ss)) [] rest fuel (vm_reset vm) [] m
    (stmt_instrs_straight ss) (vm_reset_rep vm Hl) ltac:(lia)) as (vm' & Hr & E).
  rewrite exec_stmts in Hr, E by (unfold VM_STACK_SIZE; cbn; lia). eauto.
Qed.

End Dispatch.

(** ** A concrete placement of the primitives *)
Definition demo_word (p : Prim) : Z :=
  match p with
  | lit_prim => 257 | load_reg_prim => 273 | write_reg_prim => 289 | add_prim => 305
  | sub_prim => 321 | mul_prim => 337 | div_prim => 353 | halt_prim => 369
  end.

#[export] Instance demo_prims : PrimAddrs.
Proof.
  refine {| word_of := demo_word |}.
  - intros []; vm_compute; intuition discriminate.
  - intros []; cbn; lia.
  - intros [] []; cbn; intros; first [done | lia].
Defined.

Definition demo_machine : Machine (gmap Z Z) := boot_machine ∅.

Lemma threaded_refines_stack_machine_witness :
  exists vm',
    run_threaded_stream Arm 4 (encode [ILit 7; ILit 2; IOp div_prim] ++ [word_of halt_prim]) 0
      (vm_reset vm_new) demo_machine = (Halted, vm', demo_machine) /\ vm_rep vm' [3].
Proof.
  apply (threaded_refines_stack_machine Arm [ILit 7; ILit 2; IOp div_prim] [] vm_new demo_machine).
  - repeat constructor; cbn; done.
  - reflexivity.
Defined.

Lemma threaded_stmts_correct_witness :
  exists vm',
    run_threaded_stream Arm 128
      (code [SPoke 0x20000100 5; SPeek 0x20000100] ++ [word_of halt_prim]) 0
      (vm_reset vm_new) demo_machine
      = (Halted, vm', snd (run_stmts Arm [SPoke 0x20000100 5; SPeek 0x20000100] ([], demo_machine))) /\
    vm_rep vm' (fst (run_stmts Arm [SPoke 0x20000100 5; SPeek 0x20000100] ([], demo_machine))).
Proof.
  apply (threaded_stmts_correct Arm [SPoke 0x20000100 5; SPeek 0x20000100] [] vm_new demo_machine 128).
  - cbn. lia.
  - lia.
  - reflexivity.
Defined.
