(* ===== verification/Parser.v ===== *)
(** * Parser: the single-pass front end (src/compiler/parser.rs)

    [Compiler] is the persistent state (symbol table, function bodies, scratch
    stream); [Cur] the one-token-lookahead cursor. The parser mutates both and
    reads memory at compile time, so it is a state monad over the triple
    ([Compiler], [Cur], [Machine]); an error keeps the changes made before it,
    as [?] does. Recursive descent and the source's [while] loops take fuel;
    running out is a third outcome, [NoFuel]. *)
From S2P Require Import Prelude Registry AuditRing Memory Lexer SymTab Exec.
Local Open Scope Z_scope.
Local Open Scope u32_scope.

Definition MAX_STREAM_WORDS : nat := 128.
Definition MAX_FNS : nat := 2.
Definition FN_BODY_WORDS : nat := 32.
Definition MAX_LOOP_UNROLL : Z := 64.

(** ** Data *)
Record StreamProgram := { sp_words : list Z; sp_len : nat; sp_yields : bool }.

(** [StreamProgram::len] and [is_empty]. *)
Definition program_len (p : StreamProgram) : nat := sp_len p.
Definition program_is_empty (p : StreamProgram) : bool := (sp_len p =? 0)%nat.

(** The variants of [Outcome], prefixed with [O]. *)
Inductive Outcome :=
| OEmpty
| OBound (name : NameBuf) (value : Z)
| OFnDefined (name : NameBuf)
| ORun (p : StreamProgram)
| OClaim (name : NameBuf)
| ODrop (name : NameBuf)
| OSetBit (addr bit : Z)
| OClrBit (addr bit : Z)
| OHelp | OBanner | OSysAudit
| OEnforcedPoke (addr val : Z)
| OEnforcedPeek (addr : Z)
| OBench
| OPwm (period duty : Z)
| OPwmDuty (duty : Z)
| OSpiTx (byte : Z)
| OFlashTest
| OStore (name : NameBuf)
| OLoad (name : NameBuf)
| OStoreList
| OSpawn (name : NameBuf)
| OPoolAlloc (size : Z)
| OPoolFree | OPoolStats.

Record Compiler := {
  c_symbols : list Symbol;
  c_fn_names : list NameBuf;
  c_fn_bodies : list (list Z);
  c_fn_body_lens : list nat;
  c_stream : list Z;
  c_stream_len : nat;
}.

Definition compiler_new : Compiler := {|
  c_symbols := symbols_new;
  c_fn_names := replicate MAX_FNS EMPTY_NAME;
  c_fn_bodies := replicate MAX_FNS (replicate FN_BODY_WORDS 0);
  c_fn_body_lens := replicate MAX_FNS 0%nat;
  c_stream := replicate MAX_STREAM_WORDS 0;
  c_stream_len := 0;
|}.

Definition set_symbols (s : list Symbol) (c : Compiler) : Compiler :=
  {| c_symbols := s; c_fn_names := c_fn_names c; c_fn_bodies := c_fn_bodies c;
     c_fn_body_lens := c_fn_body_lens c; c_stream := c_stream c; c_stream_len := c_stream_len c |}.
Definition set_stream (s : list Z) (n : nat) (c : Compiler) : Compiler :=
  {| c_symbols := c_symbols c; c_fn_names := c_fn_names c; c_fn_bodies := c_fn_bodies c;
     c_fn_body_lens := c_fn_body_lens c; c_stream := s; c_stream_len := n |}.

(** ** Functions on the compiler that need no cursor *)
Definition fn_allocated (c : Compiler) (i : nat) : bool :=
  (0 <? nb_len (aget EMPTY_NAME (c_fn_names c) i))%nat.

Definition find_fn (c : Compiler) (name : list Z) : option nat :=
  List.find (fun i => fn_allocated c i && eq_bytes (aget EMPTY_NAME (c_fn_names c) i) name)
    (seq 0 MAX_FNS).

Definition alloc_fn_slot (c : Compiler) (name : NameBuf) : Result nat ParseError :=
  match find_fn c (as_slice name) with
  | Some _ => Err DuplicateFn
  | None =>
      match List.find (fun i => (nb_len (aget EMPTY_NAME (c_fn_names c) i) =? 0)%nat)
              (seq 0 MAX_FNS) with
      | Some i => Ok i
      | None => Err FnTableFull
      end
  end.

(** The three stores that install a function in slot [index]. *)
Definition store_fn (c : Compiler) (index : nat) (name : NameBuf) (words : list Z) : Compiler :=
  {| c_symbols := c_symbols c;
     c_fn_names := aset (c_fn_names c) index name;
     c_fn_bodies := aset (c_fn_bodies c) index (copy_prefix (aget [] (c_fn_bodies c) index) words);
     c_fn_body_lens := aset (c_fn_body_lens c) index (length words);
     c_stream := c_stream c; c_stream_len := c_stream_len c |}.

(** [fn_bodies[i][..fn_body_lens[i]]] *)
Definition fn_body (c : Compiler) (i : nat) : list Z :=
  take (aget 0%nat (c_fn_body_lens c) i) (aget [] (c_fn_bodies c) i).

(** [out] is the caller's buffer. *)
Definition export_fn (c : Compiler) (name : list Z) (out : list Z) : option (nat * list Z) :=
  match find_fn c name with
  | None => None
  | Some idx =>
      let len := aget 0%nat (c_fn_body_lens c) idx in
      if (length out <? len)%nat then None
      else Some (len, copy_prefix out (fn_body c idx))
  end.

Definition import_fn (c : Compiler) (name words : list Z) : Result unit ParseError * Compiler :=
  if (NAME_MAX <? length name)%nat then (Err NameTooLong, c)
  else if (FN_BODY_WORDS <? length words)%nat then (Err StreamFull, c)
  else
    match from_slice name with
    | Err e => (Err e, c)
    | Ok nb =>
        match alloc_fn_slot c nb with
        | Err e => (Err e, c)
        | Ok index => (Ok tt, store_fn c index nb words)
        end
    end.

(** The live names, in slot order, each in a fresh zeroed buffer
    ([heapless_names::FnNames]). *)
Definition fn_names_iter (c : Compiler) : list (list Z * nat) :=
  map (fun i => let n := aget EMPTY_NAME (c_fn_names c) i in
                (copy_prefix (replicate NAME_MAX 0) (as_slice n), nb_len n))
    (List.filter (fn_allocated c) (seq 0 MAX_FNS)).

Definition take_program (c : Compiler) (yields_value : bool) : StreamProgram :=
  {| sp_words := copy_prefix (replicate MAX_STREAM_WORDS 0) (take (c_stream_len c) (c_stream c));
     sp_len := c_stream_len c; sp_yields := yields_value |}.

(** ** The cursor *)
Record Cur := { cu_lx : Lexer; cu_ahead : option Token }.

Definition cur_new (line : list Z) : Cur := {| cu_lx := lexer_new line; cu_ahead := None |}.

Definition Cur_next (c : Cur) : Token * Cur :=
  match cu_ahead c with
  | Some t => (t, {| cu_lx := cu_lx c; cu_ahead := None |})
  | None => let (t, lx) := next_token (cu_lx c) in (t, {| cu_lx := lx; cu_ahead := None |})
  end.

Definition Cur_peek (c : Cur) : Token * Cur :=
  match cu_ahead c with
  | Some t => (t, c)
  | None => let (t, lx) := next_token (cu_lx c) in (t, {| cu_lx := lx; cu_ahead := Some t |})
  end.

(** ** The monad *)
Record PS (B : Type) := { ps_comp : Compiler; ps_cur : Cur; ps_mach : Machine B }.
Arguments ps_comp {B} _.
Arguments ps_cur {B} _.
Arguments ps_mach {B} _.

Inductive Res (A : Type) := ROk (a : A) | RErr (e : ParseError) | NoFuel.
Arguments ROk {A} a.
Arguments RErr {A} e.
Arguments NoFuel {A}.

Definition Parser (B A : Type) : Type := PS B -> Res A * PS B.

#[export] Instance parser_ret B : MRet (Parser B) := fun A a st => (ROk a, st).
#[export] Instance parser_bind B : MBind (Parser B) := fun A A' k p st =>
  match p st with
  | (ROk a, st') => k a st'
  | (RErr e, st') => (RErr e, st')
  | (NoFuel, st') => (NoFuel, st')
  end.

Section Ops.
Context {B : Type}.

Definition err {A} (e : ParseError) : Parser B A := fun st => (RErr e, st).
Definition no_fuel {A} : Parser B A := fun st => (NoFuel, st).

Definition lift {A} (r : Result A ParseError) : Parser B A :=
  fun st => (match r with Ok a => ROk a | Err e => RErr e end, st).

Definition next : Parser B Token := fun st =>
  let (t, c) := Cur_next (ps_cur st) in
  (ROk t, {| ps_comp := ps_comp st; ps_cur := c; ps_mach := ps_mach st |}).

Definition peek : Parser B Token := fun st =>
  let (t, c) := Cur_peek (ps_cur st) in
  (ROk t, {| ps_comp := ps_comp st; ps_cur := c; ps_mach := ps_mach st |}).

Definition get_comp : Parser B Compiler := fun st => (ROk (ps_comp st), st).
Definition put_comp (c : Compiler) : Parser B unit := fun st =>
  (ROk tt, {| ps_comp := c; ps_cur := ps_cur st; ps_mach := ps_mach st |}).

End Ops.

Section Parse.
Context `{PrimAddrs} {B : Type} `{Bus B} (arch : Arch).

(** [crate::kernel::memory::peek_u32]. *)
Definition peek_mem (addr : Z) : Parser B Z := fun st =>
  let (v, m) := peek_u32 arch addr (ps_mach st) in
  (ROk v, {| ps_comp := ps_comp st; ps_cur := ps_cur st; ps_mach := m |}).

(** [check_access(addr).map_err(|_| CapabilityViolation)?]. *)
Definition require_access (addr : Z) : Parser B unit := fun st =>
  match check_access arch (m_regs (ps_mach st)) addr with
  | Ok _ => (ROk tt, st)
  | Err _ => (RErr CapViolation, st)
  end.

Definition check_timer_cap : Parser B unit :=
  require_access (match arch with Riscv32 => 0x10015000 | Arm => 0x40000000 end).

Definition check_spi_cap : Parser B unit :=
  require_access (match arch with Riscv32 => 0x10014000 | Arm => 0x40013000 end).

(** *** Token helpers *)
Definition expect_name : Parser B NameBuf :=
  t ← next;
  match t with Identifier id => lift (from_slice id) | _ => err UnexpectedToken end.

Definition expect_semicolon : Parser B unit :=
  t ← next;
  match t with Semicolon | Eof => mret tt | _ => err MissingSemicolon end.

Definition allow_optional_semicolon : Parser B unit :=
  t ← peek;
  match t with Semicolon => next ;; mret tt | _ => mret tt end.

(** [match cur.next() { tok => {}, _ => return Err(UnexpectedToken) }]. *)
Definition expect_tok (tok : Token) : Parser B unit :=
  t ← next;
  if bool_decide (t = tok) then mret tt else err UnexpectedToken.

(** *** Stream emission *)
Definition stream_reset : Parser B unit :=
  c ← get_comp; put_comp (set_stream (c_stream c) 0 c).

Definition stream_push (word : Z) : Parser B unit :=
  c ← get_comp;
  if (MAX_STREAM_WORDS <=? c_stream_len c)%nat then err StreamFull
  else put_comp (set_stream (aset (c_stream c) (c_stream_len c) word) (S (c_stream_len c)) c).

Definition stream_push_lit (value : Z) : Parser B unit :=
  stream_push (word_of lit_prim) ;; stream_push value.

Definition stream_halt : Parser B unit := stream_push (word_of halt_prim).

(** [for w in words { self.stream_push(w)?; }] over words fixed before the loop. *)
Fixpoint push_words (words : list Z) : Parser B unit :=
  match words with
  | [] => mret tt
  | w :: rest => stream_push w ;; push_words rest
  end.

(** [for i in is { self.stream_push(self.stream[i])?; }]. *)
Fixpoint push_indices (indices : list nat) : Parser B unit :=
  match indices with
  | [] => mret tt
  | i :: rest =>
      c ← get_comp;
      stream_push (aget 0 (c_stream c) i) ;; push_indices rest
  end.

(** The unrolling loop [for _ in 1..count { ... }], [n = count - 1]. *)
Fixpoint unroll (n body_start body_end : nat) : Parser B unit :=
  match n with
  | O => mret tt
  | S n' =>
      c ← get_comp;
      if (MAX_STREAM_WORDS <? c_stream_len c + (body_end - body_start))%nat then err StreamFull
      else push_indices (seq body_start (body_end - body_start)) ;; unroll n' body_start body_end
  end.

Definition build_value_program (value : Z) : Parser B StreamProgram :=
  stream_reset ;; stream_push_lit value ;; stream_halt ;;
  c ← get_comp; mret (take_program c true).

Definition build_call_program (name : list Z) : Parser B StreamProgram :=
  c ← get_comp;
  match find_fn c name with
  | None => err UnknownSymbol
  | Some index =>
      stream_reset ;; push_words (fn_body c index) ;; stream_halt ;;
      c' ← get_comp; mret (take_program c' false)
  end.

Definition splice_call (name : list Z) : Parser B unit :=
  c ← get_comp;
  match find_fn c name with
  | None => err UnknownSymbol
  | Some index => push_words (fn_body c index)
  end.

(** *** Expressions *)
Definition is_arith (op : Z) : bool := existsb (Z.eqb op) (bytes "+-*/%").

(** The [acc = match op { ... }] of the operator loop. *)
Definition apply_op (op acc rhs : Z) : Result Z ParseError :=
  if op =? ch "+" then Ok (acc +w rhs)
  else if op =? ch "-" then Ok (acc -w rhs)
  else if op =? ch "*" then Ok (acc *w rhs)
  else if op =? ch "/" then if rhs =? 0 then Err DivByZero else Ok (acc / rhs)
  else if rhs =? 0 then Err DivByZero else Ok (acc mod rhs).

(** The three places that accept a parenthesised expression or a term:
    [sub] evaluates the inner expression, [term] any other token. *)
Definition paren_or (sub : Parser B Z) (term : Token -> Parser B Z) (tok : Token) : Parser B Z :=
  match tok with
  | LParen =>
      val ← sub;
      t ← next;
      match t with RParen => mret val | _ => err UnexpectedToken end
  | _ => term tok
  end.

Fixpoint eval_expr (fuel : nat) (first : option Token) : Parser B Z :=
  match fuel with
  | O => no_fuel
  | S f =>
      head ← match first with Some t => mret t | None => next end;
      acc ← paren_or (eval_expr f None) (resolve_term f) head;
      eval_ops f acc
  end
with eval_ops (fuel : nat) (acc : Z) : Parser B Z :=
  match fuel with
  | O => no_fuel
  | S f =>
      t ← peek;
      match t with
      | Operator op =>
          if negb (is_arith op) then mret acc
          else
            next ;;
            rhs_tok ← next;
            rhs ← paren_or (eval_expr f None) (resolve_term f) rhs_tok;
            acc' ← lift (apply_op op acc rhs);
            eval_ops f acc'
      | _ => mret acc
      end
  end
with resolve_term (fuel : nat) (tok : Token) : Parser B Z :=
  match fuel with
  | O => no_fuel
  | S f =>
      match tok with
      | Literal v => mret v
      | Identifier id =>
          if bool_decide (id = bytes "peek") then
            addr ← parse_atomic_term f;
            peek_mem addr
          else
            c ← get_comp;
            match lookup_symbol (c_symbols c) id with
            | Some v => mret v
            | None => err UnknownSymbol
            end
      | TError msg => err (LexError msg)
      | _ => err UnexpectedToken
      end
  end
with parse_atomic_term (fuel : nat) : Parser B Z :=
  match fuel with
  | O => no_fuel
  | S f =>
      tok ← next;
      paren_or (eval_expr f None) (resolve_term f) tok
  end.

(** *** Statements *)
Definition parse_let (fuel : nat) : Parser B Outcome :=
  name_tok ← next;
  match name_tok with
  | Identifier id =>
      name ← lift (from_slice id);
      expect_tok (Operator (ch "=")) ;;
      value ← eval_expr fuel None;
      expect_semicolon ;;
      c ← get_comp;
      syms ← lift (insert_symbol (c_symbols c) name value);
      put_comp (set_symbols syms c) ;;
      mret (OBound name value)
  | _ => err UnexpectedToken
  end.

(** The [poke] and [peek] statements of fn bodies and top-level loops. *)
Definition poke_stmt (fuel : nat) : Parser B unit :=
  addr ← parse_atomic_term fuel;
  val ← eval_expr fuel None;
  expect_semicolon ;;
  require_access addr ;;
  stream_push_lit addr ;;
  stream_push_lit val ;;
  stream_push (word_of write_reg_prim).

Definition peek_stmt (fuel : nat) : Parser B unit :=
  addr ← parse_atomic_term fuel;
  expect_semicolon ;;
  require_access addr ;;
  stream_push_lit addr ;;
  stream_push (word_of load_reg_prim).

Definition loop_count_bad (count : Z) : bool := (count =? 0) || (MAX_LOOP_UNROLL <? count).

(** [body_stmts] is the [while] over the statements before a closing brace,
    in [parse_fn] and in a nested [loop]; it leaves the brace unread. *)
Fixpoint parse_body_stmt (fuel : nat) : Parser B unit :=
  match fuel with
  | O => no_fuel
  | S f =>
      t ← next;
      match t with
      | Identifier id =>
          if bool_decide (id = bytes "poke") then poke_stmt f
          else if bool_decide (id = bytes "peek") then peek_stmt f
          else if bool_decide (id = bytes "loop") then
            count ← parse_atomic_term f;
            if loop_count_bad count then err LoopTooLarge
            else
              c0 ← get_comp;
              expect_tok LBrace ;;
              body_stmts f ;;
              next ;;
              c1 ← get_comp;
              unroll (Z.to_nat count - 1) (c_stream_len c0) (c_stream_len c1)
          else
            t2 ← peek;
            match t2 with
            | LParen =>
                next ;;
                expect_tok RParen ;;
                expect_semicolon ;;
                splice_call id
            | _ =>
                eval_expr f (Some (Identifier id)) ;;
                expect_semicolon
            end
      | _ => err UnexpectedToken
      end
  end
with body_stmts (fuel : nat) : Parser B unit :=
  match fuel with
  | O => no_fuel
  | S f =>
      t ← peek;
      match t with
      | RBrace => mret tt
      | Eof => err UnexpectedToken
      | _ => parse_body_stmt f ;; body_stmts f
      end
  end.

Definition parse_fn (fuel : nat) : Parser B Outcome :=
  name ← expect_name;
  expect_tok LParen ;;
  expect_tok RParen ;;
  expect_tok LBrace ;;
  stream_reset ;;
  body_stmts fuel ;;
  next ;;
  c ← get_comp;
  if (FN_BODY_WORDS <? c_stream_len c)%nat then err StreamFull
  else
    index ← lift (alloc_fn_slot c name);
    put_comp (store_fn c index name (take (c_stream_len c) (c_stream c))) ;;
    mret (OFnDefined name).

(** The statements of a top-level [loop]: anything but [poke] and [peek] is
    skipped token by token. *)
Fixpoint loop_stmts (fuel : nat) : Parser B unit :=
  match fuel with
  | O => no_fuel
  | S f =>
      t ← peek;
      match t with
      | RBrace => mret tt
      | Eof => err UnexpectedToken
      | _ =>
          t1 ← next;
          match t1 with
          | Identifier id =>
              if bool_decide (id = bytes "poke") then poke_stmt f
              else if bool_decide (id = bytes "peek") then peek_stmt f
              else mret tt
          | _ => mret tt
          end ;;
          loop_stmts f
      end
  end.

Definition loop_command (fuel : nat) : Parser B Outcome :=
  count ← parse_atomic_term fuel;
  if loop_count_bad count then err LoopTooLarge
  else
    expect_tok LBrace ;;
    stream_reset ;;
    loop_stmts fuel ;;
    next ;;
    c ← get_comp;
    unroll (Z.to_nat count - 1) 0 (c_stream_len c) ;;
    stream_halt ;;
    c' ← get_comp;
    mret (ORun (take_program c' false)).

(** [expect_name], [expect_semicolon], then the outcome. *)
Definition named_command (k : NameBuf -> Outcome) : Parser B Outcome :=
  name ← expect_name; expect_semicolon ;; mret (k name).

Definition bare_command (o : Outcome) : Parser B Outcome :=
  allow_optional_semicolon ;; mret o.

Definition bit_command (fuel : nat) (k : Z -> Z -> Outcome) : Parser B Outcome :=
  addr ← parse_atomic_term fuel;
  bit ← parse_atomic_term fuel;
  expect_semicolon ;;
  require_access addr ;;
  mret (k addr bit).

(** A call or an expression, the last arm of [parse_command]. *)
Definition other_command (fuel : nat) (id : list Z) : Parser B Outcome :=
  t ← peek;
  match t with
  | LParen =>
      next ;;
      expect_tok RParen ;;
      expect_semicolon ;;
      p ← build_call_program id;
      mret (ORun p)
  | _ =>
      value ← eval_expr fuel (Some (Identifier id));
      expect_semicolon ;;
      p ← build_value_program value;
      mret (ORun p)
  end.

Definition parse_command (fuel : nat) (id : list Z) : Parser B Outcome :=
  let kw s := bool_decide (id = bytes s) in
  if kw "peek"%string then
    addr ← parse_atomic_term fuel;
    expect_semicolon ;;
    require_access addr ;;
    mret (OEnforcedPeek addr)
  else if kw "poke"%string then
    addr ← parse_atomic_term fuel;
    val ← eval_expr fuel None;
    expect_semicolon ;;
    require_access addr ;;
    mret (OEnforcedPoke addr val)
  else if kw "cap_claim"%string then named_command OClaim
  else if kw "cap_drop"%string then named_command ODrop
  else if kw "reg_set_bit"%string then bit_command fuel OSetBit
  else if kw "reg_clr_bit"%string then bit_command fuel OClrBit
  else if kw "help"%string then bare_command OHelp
  else if kw "banner"%string then bare_command OBanner
  else if kw "sys_audit"%string then bare_command OSysAudit
  else if kw "bench"%string then bare_command OBench
  else if kw "pwm"%string then
    period ← parse_atomic_term fuel;
    duty ← parse_atomic_term fuel;
    expect_semicolon ;;
    check_timer_cap ;;
    mret (OPwm period duty)
  else if kw "pwm_duty"%string then
    duty ← parse_atomic_term fuel;
    expect_semicolon ;;
    check_timer_cap ;;
    mret (OPwmDuty duty)
  else if kw "store"%string then named_command OStore
  else if kw "load"%string then named_command OLoad
  else if kw "store_list"%string then bare_command OStoreList
  else if kw "loop"%string then loop_command fuel
  else if kw "flash_test"%string then bare_command OFlashTest
  else if kw "pool_alloc"%string then
    size ← parse_atomic_term fuel;
    expect_semicolon ;;
    mret (OPoolAlloc size)
  else if kw "pool_free"%string then bare_command OPoolFree
  else if kw "pool_stats;"%string || kw "pool_stats"%string then mret OPoolStats
  else if kw "spawn"%string then named_command OSpawn
  else if kw "spi_tx"%string then
    b ← parse_atomic_term fuel;
    expect_semicolon ;;
    check_spi_cap ;;
    mret (OSpiTx (b mod 256))
  else other_command fuel id.

(** The body of [parse], on a fresh cursor. *)
Definition parse_line (fuel : nat) : Parser B Outcome :=
  first ← next;
  match first with
  | Eof => err EmptyLine
  | KwLet => parse_let fuel
  | KwFn => parse_fn fuel
  | Identifier id => parse_command fuel id
  | Literal _ | Operator _ | LParen =>
      value ← eval_expr fuel (Some first);
      expect_semicolon ;;
      p ← build_value_program value;
      mret (ORun p)
  | TError msg => err (LexError msg)
  | _ => err UnexpectedToken
  end.

(** Enough for any line: two units per byte (see ParserSafe.v). *)
Definition parse_fuel (line : list Z) : nat := 2 * length line + 8.

Definition parse (c : Compiler) (m : Machine B) (line : list Z)
  : Res Outcome * (Compiler * Machine B) :=
  let (r, st) := parse_line (parse_fuel line)
                   {| ps_comp := c; ps_cur := cur_new line; ps_mach := m |} in
  (r, (ps_comp st, ps_mach st)).

End Parse.
