(* ===== verification/ParserSafe.v ===== *)
(** * ParserSafe: total-correctness rules for the parser and its invariant

    A Hoare triple for the parser monad in the total sense: a computation
    that runs out of fuel satisfies none. The assertion [I n c] says that the
    compiler is [c], that at most [n] tokens are left, and that the registry
    and the audit log are those the line started with; one rule per parser
    function then gives termination, the compiler invariant and the
    capability discipline together. *)
From S2P Require Import Prelude Registry AuditRing Memory Lexer SymTab Exec Parser.
Local Open Scope Z_scope.
Local Open Scope u32_scope.

(** ** Tokens left *)
Definition cur_left (c : Cur) : nat :=
  remaining (cu_lx c) +
  match cu_ahead c with Some t => if decide (t = Eof) then 0 else 1 | None => 0 end.

(** Identifiers consist of letters, digits and underscores, whatever the line
    holds. *)
Definition ident (id : list Z) : Prop := Forall (fun b => is_ident_byte b = true) id.

Definition tok_ok (t : Token) : Prop :=
  match t with Literal v => u32 v | Identifier id => ident id | _ => True end.

Definition wf_cur (c : Cur) : Prop := from_option tok_ok True (cu_ahead c).

Lemma checked_shift_in_range base v d w :
  0 <= v -> 0 <= base -> 0 <= d -> checked_shift_in base v d = Some w -> u32 w.
Proof.
  unfold checked_shift_in, u32. intros. repeat case_match; simplify_eq. bool_to_prop. nia.
Qed.

Lemma hex_digit_range b d : hex_digit b = Some d -> 0 <= d < 16.
Proof.
  unfold hex_digit, is_ascii_digit, in_range. intros H.
  repeat case_match; simplify_eq; bool_to_prop; lia.
Qed.

Lemma dec_loop_range rest v w n : u32 v -> dec_loop rest v = inl (w, n) -> u32 w.
Proof.
  revert v w n. induction rest as [|b rest IH]; cbn [dec_loop]; intros v w n Hv H; [by simplify_eq|].
  unfold u32 in Hv. destruct (is_ascii_digit b) eqn:Ed.
  - unfold is_ascii_digit, in_range in Ed. bool_to_prop.
    destruct (checked_shift_in 10 v (b - 48)) as [x|] eqn:E; [|done].
    apply checked_shift_in_range in E; [|lia..].
    destruct (dec_loop rest x) as [[? ?]|?] eqn:E2; simplify_eq. eauto.
  - destruct (is_underscore b); [|by simplify_eq].
    destruct (dec_loop rest v) as [[? ?]|?] eqn:E2; simplify_eq. eauto.
Qed.

Lemma hex_loop_range rest v w n : u32 v -> hex_loop rest v = inl (w, n) -> u32 w.
Proof.
  revert v w n. induction rest as [|b rest IH]; cbn [hex_loop]; intros v w n Hv H; [by simplify_eq|].
  unfold u32 in Hv. destruct (hex_digit b) as [d|] eqn:Ed.
  - apply hex_digit_range in Ed. destruct (checked_shift_in 16 v d) as [x|] eqn:E; [|done].
    apply checked_shift_in_range in E; [|lia..].
    destruct (hex_loop rest x) as [[? ?]|?] eqn:E2; simplify_eq. eauto.
  - destruct (is_underscore b); [|by simplify_eq].
    destruct (hex_loop rest v) as [[? ?]|?] eqn:E2; simplify_eq. eauto.
Qed.

Lemma parse_literal_ok rest : tok_ok (fst (parse_literal rest)).
Proof.
  assert (u32 0) by (unfold u32, M32; lia).
  unfold parse_literal. destruct (hex_prefix rest) as [ds|].
  - destruct (hex_loop ds 0) as [[v [|n]]|n] eqn:E; cbn; try done. by eapply hex_loop_range.
  - destruct (dec_loop rest 0) as [[v n]|n] eqn:E; cbn; [|done]. by eapply dec_loop_range.
Qed.

Lemma run_len_all p rest : Forall (fun b => p b = true) (take (run_len p rest) rest).
Proof. induction rest as [|b rest IH]; cbn [run_len]; [done|]. destruct (p b) eqn:E; cbn [take]; by constructor. Qed.

Lemma parse_identifier_ok rest : tok_ok (fst (parse_identifier rest)).
Proof.
  unfold parse_identifier. cbn. repeat case_bool_decide; try done. apply run_len_all.
Qed.

(** ** Names

    A name made from an identifier: sixteen bytes, of which the ones in use are
    identifier bytes. *)
Record good_name (n : NameBuf) : Prop := {
  gn_wf : wf_name n;
  gn_ident : ident (as_slice n);
  gn_bytes : Forall u8 (nb_bytes n);
}.

Lemma ident_byte_u8 b : is_ident_byte b = true -> u8 b.
Proof.
  unfold is_ident_byte, is_ascii_alphanumeric, is_ascii_alphabetic, is_ascii_digit, is_underscore, in_range, u8.
  rewrite !orb_true_iff, !andb_true_iff, !Z.leb_le, Z.eqb_eq. lia.
Qed.

Lemma ident_u8 id : ident id -> Forall u8 id.
Proof. intros Hid. eapply list.Forall_impl; [exact Hid|apply ident_byte_u8]. Qed.

Lemma good_name_u8 n : good_name n -> Forall u8 (as_slice n).
Proof. intros Hn. apply ident_u8, Hn. Qed.

Lemma from_slice_good id n : ident id -> from_slice id = Ok n -> good_name n.
Proof.
  intros Hid E. pose proof (from_slice_inv id n E) as (Hw & Hs & _). split; [done|by rewrite Hs|].
  unfold from_slice in E. case_match; [done|]. injection E as <-. cbn [nb_bytes]. unfold copy_prefix.
  apply Forall_app. split; [by apply ident_u8|]. apply Forall_drop. by apply (bool_decide_unpack _).
Qed.

Lemma scan_ok rest c l : tok_ok (fst (fst (scan rest c l))).
Proof.
  revert c l. induction rest as [|b rest IH]; intros c l; cbn [scan]; [done|].
  repeat (match goal with |- context [if ?x then _ else _] => destruct x end; try done).
  - pose proof (parse_identifier_ok (b :: rest)). by destruct (parse_identifier _).
  - pose proof (parse_literal_ok (b :: rest)). by destruct (parse_literal _).
Qed.

Lemma next_token_ok lx t lx' : next_token lx = (t, lx') -> tok_ok t.
Proof.
  unfold next_token. pose proof (scan_ok (drop (lx_cursor lx) (lx_stream lx)) (lx_cursor lx) (lx_line lx)).
  destruct (scan _ _ _) as [[t0 c] l]. intros. by simplify_eq.
Qed.

Lemma Cur_next_spec c t c' :
  wf_cur c -> Cur_next c = (t, c') ->
  tok_ok t /\ wf_cur c' /\
  (cur_left c' + (if decide (t = Eof) then 0 else 1) <= cur_left c)%nat.
Proof.
  unfold Cur_next, cur_left, wf_cur. destruct (cu_ahead c) as [t0|]; cbn [from_option].
  - intros Ht E. simplify_eq/=. split; [done|]. split; [done|]. lia.
  - intros _. destruct (next_token (cu_lx c)) as [t1 lx] eqn:E. intros; simplify_eq/=.
    pose proof (next_token_ok _ _ _ E). apply next_token_progress in E as (_ & Hle & Hlt).
    split; [done|]. split; [done|]. case_decide; [lia|]. specialize (Hlt ltac:(done)). lia.
Qed.

Lemma Cur_peek_spec c t c' :
  wf_cur c -> Cur_peek c = (t, c') ->
  tok_ok t /\ wf_cur c' /\ cu_ahead c' = Some t /\ (cur_left c' <= cur_left c)%nat.
Proof.
  unfold Cur_peek, cur_left, wf_cur. destruct (cu_ahead c) as [t0|] eqn:Ea; cbn [from_option].
  - intros Ht E. simplify_eq/=. rewrite Ea. done.
  - intros _. destruct (next_token (cu_lx c)) as [t1 lx] eqn:E. intros; simplify_eq/=.
    pose proof (next_token_ok _ _ _ E). apply next_token_progress in E as (_ & Hle & Hlt).
    do 3 (split; [done|]). case_decide; [lia|]. specialize (Hlt ltac:(done)). lia.
Qed.

Section Safety.
Context `{PrimAddrs} {B : Type} `{Bus B} `{!BusWidth B} (arch : Arch).

(** ** The compiler invariant

    [A] is the set of addresses authorised so far: a stored function body is
    compiled code whose accesses were all authorised when it was defined. *)
Definition stmt_ok (A : Z -> Prop) (s : Stmt) : Prop :=
  A (stmt_addr s) /\ u32 (stmt_addr s) /\ match s with SPoke _ v => u32 v | SPeek _ => True end.

Record wf_comp (A : Z -> Prop) (c : Compiler) : Prop := {
  wc_syms : wf_symtab (c_symbols c);
  wc_vals : Forall (fun s => u32 (sy_value s)) (c_symbols c);
  wc_names_len : length (c_fn_names c) = MAX_FNS;
  wc_names : Forall good_name (c_fn_names c);
  wc_bodies_len : length (c_fn_bodies c) = MAX_FNS;
  wc_bodies : Forall (fun b => length b = FN_BODY_WORDS) (c_fn_bodies c);
  wc_lens_len : length (c_fn_body_lens c) = MAX_FNS;
  wc_lens : Forall (fun n => (n <= FN_BODY_WORDS)%nat) (c_fn_body_lens c);
  wc_code : forall i, (i < MAX_FNS)%nat ->
    exists ss, fn_body c i = code ss /\ Forall (stmt_ok A) ss;
  wc_unique : forall i j, (i < MAX_FNS)%nat -> (j < MAX_FNS)%nat ->
    fn_allocated c i = true -> fn_allocated c j = true ->
    as_slice (aget EMPTY_NAME (c_fn_names c) i) = as_slice (aget EMPTY_NAME (c_fn_names c) j) -> i = j;
  wc_stream : length (c_stream c) = MAX_STREAM_WORDS;
  wc_stream_len : (c_stream_len c <= MAX_STREAM_WORDS)%nat;
}.

Context (A : Z -> Prop) (R : list Z) (L : AuditLog).
Hypothesis HR : wf_registry R.
Hypothesis HA : forall a, check_access arch R a = Ok tt -> A a.

Implicit Types (c : Compiler) (st : PS B) (n f : nat).

Record I (n : nat) (c : Compiler) (st : PS B) : Prop := {
  i_comp : ps_comp st = c;
  i_left : (cur_left (ps_cur st) <= n)%nat;
  i_cur : wf_cur (ps_cur st);
  i_regs : m_regs (ps_mach st) = R;
  i_audit : m_audit (ps_mach st) = L;
}.

(** What holds of the state in which a line ends, in success or error. *)
Definition ended (st : PS B) : Prop :=
  wf_comp A (ps_comp st) /\ m_regs (ps_mach st) = R /\ m_audit (ps_mach st) = L.

Definition triple {X} (P : PS B -> Prop) (p : Parser B X) (Q : X -> PS B -> Prop) : Prop :=
  forall st, P st ->
    match p st with
    | (ROk a, st') => Q a st'
    | (RErr _, st') => ended st'
    | (NoFuel, _) => False
    end.

Lemma triple_bind {X Y} P (p : Parser B X) (k : X -> Parser B Y) Q Q' :
  triple P p Q -> (forall a, triple (Q a) (k a) Q') -> triple P (p ≫= k) Q'.
Proof.
  intros Hp Hk st Hst. specialize (Hp st Hst). unfold mbind, parser_bind.
  destruct (p st) as [[a|e|] st']; [|done|done]. by apply Hk.
Qed.

(** The workhorse: a step that ends in [I n' c'] with a fact about its value. *)
Lemma triple_step {X Y} P (p : Parser B X) (k : X -> Parser B Y) (phi : X -> Prop) n' c' Q :
  triple P p (fun a st => phi a /\ I n' c' st) ->
  (forall a, phi a -> triple (I n' c') (k a) Q) ->
  triple P (p ≫= k) Q.
Proof.
  intros Hp Hk. eapply triple_bind; [exact Hp|]. intros a st [Ha Hi]. by apply Hk.
Qed.

Lemma triple_conseq {X} (P P' : PS B -> Prop) (p : Parser B X) (Q Q' : X -> PS B -> Prop) :
  triple P' p Q' -> (forall st, P st -> P' st) -> (forall a st, Q' a st -> Q a st) -> triple P p Q.
Proof.
  intros Hp HP HQ st Hst. specialize (Hp st (HP st Hst)).
  destruct (p st) as [[a|e|] st']; auto.
Qed.

Lemma triple_ret {X} P (a : X) (Q : X -> PS B -> Prop) : (forall st, P st -> Q a st) -> triple P (mret a) Q.
Proof. intros HQ st Hst. by apply HQ. Qed.

Lemma ret_step {X Y} P (a : X) (k : X -> Parser B Y) Q : triple P (k a) Q -> triple P (mret a ≫= k) Q.
Proof. intros Hk st Hst. by apply Hk. Qed.

Lemma I_ended n c st : wf_comp A c -> I n c st -> ended st.
Proof. intros Hc Hi. unfold ended. rewrite (i_comp _ _ _ Hi). split; [done|]. split; apply Hi. Qed.

Lemma triple_err {X} n c e (Q : X -> PS B -> Prop) : wf_comp A c -> triple (I n c) (err e) Q.
Proof. intros Hc st Hi. by apply (I_ended n c). Qed.

Lemma I_mono n n' c st : (n <= n')%nat -> I n c st -> I n' c st.
Proof. intros Hle Hi. split; try apply Hi. pose proof (i_left _ _ _ Hi). lia. Qed.

Lemma lift_step {X Y} n c (r : Result X ParseError) (k : X -> Parser B Y) Q :
  wf_comp A c -> (forall a, r = Ok a -> triple (I n c) (k a) Q) -> triple (I n c) (lift r ≫= k) Q.
Proof.
  intros Hc Hk st Hi. unfold mbind, parser_bind, lift. destruct r as [a|e]; [by apply Hk|].
  by apply (I_ended n c).
Qed.

(** ** Cursor rules *)
Lemma next_step {Y} n c (k : Token -> Parser B Y) Q :
  triple (I n c) (k Eof) Q ->
  (forall t m, t <> Eof -> tok_ok t -> n = S m -> triple (I m c) (k t) Q) ->
  triple (I n c) (next ≫= k) Q.
Proof.
  intros Heof Hk st Hi. unfold mbind, parser_bind, next.
  destruct (Cur_next (ps_cur st)) as [t cu] eqn:E.
  apply Cur_next_spec in E as (Ht & Hw & Hl); [|apply Hi]. pose proof (i_left _ _ _ Hi).
  destruct (decide (t = Eof)) as [->|Hne].
  - apply Heof. split; cbn; try apply Hi; [lia|done].
  - destruct n as [|m]; [lia|]. apply (Hk t m); [done..|].
    split; cbn; try apply Hi; [lia|done].
Qed.

(** The state after a peek at [t]. *)
Definition J (t : Token) (n : nat) (c : Compiler) (st : PS B) : Prop :=
  I n c st /\ cu_ahead (ps_cur st) = Some t.

Lemma J_I {X} t n c (p : Parser B X) Q : triple (I n c) p Q -> triple (J t n c) p Q.
Proof. intros Hp st [Hi _]. by apply Hp. Qed.

Lemma peek_step {Y} n c (k : Token -> Parser B Y) Q :
  (forall t, tok_ok t -> triple (J t n c) (k t) Q) -> triple (I n c) (peek ≫= k) Q.
Proof.
  intros Hk st Hi. unfold mbind, parser_bind, peek.
  destruct (Cur_peek (ps_cur st)) as [t cu] eqn:E.
  apply Cur_peek_spec in E as (Ht & Hw & Ha & Hl); [|apply Hi]. apply (Hk t Ht).
  split; [|done]. pose proof (i_left _ _ _ Hi). split; cbn; try apply Hi; [lia|done].
Qed.

Lemma next_peeked {Y} t n c (k : Token -> Parser B Y) Q :
  t <> Eof -> (forall m, n = S m -> triple (I m c) (k t) Q) -> triple (J t n c) (next ≫= k) Q.
Proof.
  intros Hne Hk st [Hi Ha]. unfold mbind, parser_bind, next, Cur_next. rewrite Ha.
  pose proof (i_left _ _ _ Hi) as Hl. unfold cur_left in Hl. rewrite Ha in Hl.
  rewrite decide_False in Hl by done. destruct n as [|m]; [lia|]. apply (Hk m); [done|].
  split; cbn; try apply Hi; [|done]. unfold cur_left. cbn. lia.
Qed.

(** ** Compiler and machine rules *)
Lemma get_step {Y} n c (k : Compiler -> Parser B Y) Q :
  triple (I n c) (k c) Q -> triple (I n c) (get_comp ≫= k) Q.
Proof.
  intros Hk st Hi. unfold mbind, parser_bind, get_comp. rewrite (i_comp _ _ _ Hi). by apply Hk.
Qed.

Lemma put_spec n c c' : triple (I n c) (put_comp c') (fun _ => I n c').
Proof. intros st Hi. cbn. split; cbn; try apply Hi. done. Qed.

Lemma put_step {Y} n c c' (k : unit -> Parser B Y) Q :
  triple (I n c') (k tt) Q -> triple (I n c) (put_comp c' ≫= k) Q.
Proof. intros Hk. eapply triple_bind; [apply put_spec|]. by intros []. Qed.

Lemma peek_mem_spec n c addr :
  triple (I n c) (peek_mem arch addr) (fun v st => u32 v /\ I n c st).
Proof.
  intros st Hi. unfold peek_mem.
  pose proof (peek_regs arch addr (ps_mach st)) as Hr. pose proof (peek_audit arch addr (ps_mach st)) as Ha.
  assert (u32 (fst (peek_u32 arch addr (ps_mach st)))) as Hu.
  { apply peek_range; [done|]. unfold wf_machine. by rewrite (i_regs _ _ _ Hi). }
  destruct (peek_u32 _ _ _) as [v m]. cbn in *. split; [done|].
  split; cbn; try apply Hi; [by rewrite Hr; apply Hi|by rewrite Ha; apply Hi].
Qed.

Lemma access_step {Y} n c addr (k : unit -> Parser B Y) Q :
  wf_comp A c ->
  (check_access arch R addr = Ok tt -> triple (I n c) (k tt) Q) ->
  triple (I n c) (require_access arch addr ≫= k) Q.
Proof.
  intros Hc Hk st Hi. unfold mbind, parser_bind, require_access. rewrite (i_regs _ _ _ Hi).
  destruct (check_access arch R addr) as [[]|e]; [by apply Hk|].
  by apply (I_ended n c).
Qed.

(** Token helpers end with no more tokens left than before. *)
Lemma expect_tok_step {Y} n c tok (k : unit -> Parser B Y) Q :
  wf_comp A c -> triple (I n c) (k tt) Q -> triple (I n c) (expect_tok tok ≫= k) Q.
Proof.
  intros Hc Hk. apply (triple_step _ _ _ (fun _ => True) n c); [|by intros []].
  unfold expect_tok. apply next_step; [|intros t m _ _ ->]; case_bool_decide;
    try (by apply triple_err); apply triple_ret; intros; split; try done.
  eapply I_mono; [|done]. lia.
Qed.

Lemma semicolon_spec n c :
  wf_comp A c -> triple (I n c) expect_semicolon (fun _ st => True /\ I n c st).
Proof.
  intros Hc. unfold expect_semicolon. apply next_step; [by apply triple_ret|].
  intros t m Hne _ ->. destruct t; try (by apply triple_err); try done.
  apply triple_ret. intros. split; [done|]. eapply I_mono; [|done]. lia.
Qed.

Lemma semicolon_step {Y} n c (k : unit -> Parser B Y) Q :
  wf_comp A c -> triple (I n c) (k tt) Q -> triple (I n c) (expect_semicolon ≫= k) Q.
Proof.
  intros Hc Hk. eapply triple_step; [by apply semicolon_spec|]. by intros [].
Qed.

Lemma name_step {Y} n c (k : NameBuf -> Parser B Y) Q :
  wf_comp A c -> (forall name, good_name name -> triple (I n c) (k name) Q) ->
  triple (I n c) (expect_name ≫= k) Q.
Proof.
  intros Hc Hk. apply (triple_step _ _ _ good_name n c); [|done]. unfold expect_name.
  apply next_step; [by apply triple_err|]. intros t m _ Ht ->.
  destruct t as [| |id| | | | | | | | | |]; try (by apply triple_err).
  intros st Hi. unfold lift. destruct (from_slice id) as [nb|] eqn:E.
  - split; [by eapply from_slice_good|]. eapply I_mono; [|done]. lia.
  - by apply (I_ended m c).
Qed.

(** ** Expressions

    The bounds below are the fuel each function of the recursive descent
    needs with [n] tokens left; every value is a 32-bit word and the
    compiler is unchanged. *)
Definition value_in (n : nat) (c : Compiler) (v : Z) (st : PS B) : Prop := u32 v /\ I n c st.

Lemma value_mono (p : Parser B Z) (P : PS B -> Prop) n m c :
  (m <= n)%nat -> triple P p (value_in m c) -> triple P p (value_in n c).
Proof.
  intros Hle Hp. eapply triple_conseq; [exact Hp|done|]. intros v st [Hv Hi]. split; [done|].
  by eapply I_mono.
Qed.

Lemma paren_or_spec n c sub term tok :
  wf_comp A c -> triple (I n c) sub (value_in n c) -> triple (I n c) (term tok) (value_in n c) ->
  triple (I n c) (paren_or sub term tok) (value_in n c).
Proof.
  intros Hc Hs Ht. destruct tok; try exact Ht. cbn [paren_or].
  eapply triple_step; [exact Hs|]. intros v Hv. apply next_step; [by apply triple_err|].
  intros t m Hne _ ->. destruct t; try (by apply triple_err).
  apply triple_ret. intros. split; [done|]. eapply I_mono; [|done]. lia.
Qed.

Lemma apply_op_range op a b v : u32 a -> u32 b -> apply_op op a b = Ok v -> u32 v.
Proof.
  unfold apply_op. intros Ha Hb H1. repeat case_match; simplify_eq; bool_to_prop; auto with hros.
Qed.

Lemma symbol_value_range c id v :
  wf_comp A c -> lookup_symbol (c_symbols c) id = Some v -> u32 v.
Proof.
  intros Hc E. rewrite (lookup_symbol_map _ _ (wc_syms _ _ Hc)) in E.
  apply (sym_map_lookup _ _ _ (wc_syms _ _ Hc)) in E as (i & Hi & _ & _ & <-).
  destruct (wf_slot _ i (wc_syms _ _ Hc) Hi) as [El _].
  pose proof (wc_vals _ _ Hc) as Hv. rewrite Forall_lookup in Hv. exact (Hv _ _ El).
Qed.

Section Expressions.
Context (c : Compiler) (Hc : wf_comp A c).

Record expr_rules (f : nat) : Prop := {
  er_expr : forall n, (2 * n + 2 <= f)%nat -> triple (I n c) (eval_expr arch f None) (value_in n c);
  er_first : forall n t, (2 * n + 4 <= f)%nat -> tok_ok t ->
    triple (I n c) (eval_expr arch f (Some t)) (value_in n c);
  er_ops : forall n acc, (2 * n + 2 <= f)%nat -> u32 acc ->
    triple (I n c) (eval_ops arch f acc) (value_in n c);
  er_term : forall n t, (2 * n + 3 <= f)%nat -> tok_ok t ->
    triple (I n c) (resolve_term arch f t) (value_in n c);
  er_atom : forall n, (2 * n + 2 <= f)%nat -> triple (I n c) (parse_atomic_term arch f) (value_in n c);
}.

(** The end of input is no term. *)
Lemma eof_fails n f sub (Q : Z -> PS B -> Prop) :
  (1 <= f)%nat -> triple (I n c) (paren_or sub (resolve_term arch f) Eof) Q.
Proof. intros Hf. destruct f; [lia|]. by apply triple_err. Qed.

Lemma eof_fails_bind {Y} n f sub (k : Z -> Parser B Y) Q :
  (1 <= f)%nat -> triple (I n c) (paren_or sub (resolve_term arch f) Eof ≫= k) Q.
Proof. intros Hf. eapply triple_bind; [by apply (eof_fails n f sub (fun _ _ => False))|]. by intros a st. Qed.

Lemma operand_spec n f t : expr_rules f -> (2 * n + 3 <= f)%nat -> tok_ok t ->
  triple (I n c) (paren_or (eval_expr arch f None) (resolve_term arch f) t) (value_in n c).
Proof.
  intros IH Hf Ht. apply paren_or_spec; [done|..]; [apply (er_expr f IH)|apply (er_term f IH)]; [lia..|done].
Qed.

Lemma expr_rules_S f : expr_rules f -> expr_rules (S f).
Proof.
  intros IH. split.
  - intros n Hf. cbn [eval_expr]. apply next_step; [apply eof_fails_bind; lia|].
    intros t m _ Ht ->. eapply triple_step; [apply operand_spec; [done|lia|done]|].
    intros v Hv. apply (value_mono _ _ _ m); [lia|]. apply (er_ops f IH); [lia|done].
  - intros n t Hf Ht. cbn [eval_expr]. apply ret_step.
    eapply triple_step; [apply operand_spec; [done|lia|done]|].
    intros v Hv. apply (er_ops f IH); [lia|done].
  - intros n acc Hf Hacc. cbn [eval_ops]. apply peek_step. intros t _.
    destruct t as [| | |op| | | | | | | | |]; try (apply J_I, triple_ret; intros; by split).
    destruct (is_arith op); cbn [negb]; [|apply J_I, triple_ret; intros; by split].
    apply next_peeked; [done|]. intros m ->. apply next_step; [apply eof_fails_bind; lia|].
    intros t k _ Ht ->. eapply triple_step; [apply operand_spec; [done|lia|done]|].
    intros v Hv. apply lift_step; [done|]. intros w Hw.
    apply (value_mono _ _ _ k); [lia|]. apply (er_ops f IH); [lia|exact (apply_op_range op acc v w Hacc Hv Hw)].
  - intros n t Hf Ht. cbn [resolve_term]. destruct t; try (by apply triple_err).
    + case_bool_decide.
      * eapply triple_step; [apply (er_atom f IH); lia|]. intros v _. apply peek_mem_spec.
      * apply get_step. destruct (lookup_symbol _ _) as [v|] eqn:E; [|by apply triple_err].
        apply triple_ret. split; [by eapply symbol_value_range|done].
    + apply triple_ret. by split.
  - intros n Hf. cbn [parse_atomic_term]. apply next_step; [apply eof_fails; lia|].
    intros t m _ Ht ->. apply (value_mono _ _ _ m); [lia|]. apply operand_spec; [done|lia|done].
Qed.

Lemma expr_rules_all f : expr_rules f.
Proof. induction f as [|f IH]; [split; intros; lia|by apply expr_rules_S]. Qed.

Lemma expr_bind {Y} n f (k : Z -> Parser B Y) Q :
  (2 * n + 2 <= f)%nat -> (forall v, u32 v -> triple (I n c) (k v) Q) ->
  triple (I n c) (eval_expr arch f None ≫= k) Q.
Proof. intros Hf Hk. eapply triple_step; [by apply (er_expr f (expr_rules_all f))|done]. Qed.

Lemma first_bind {Y} n f t (k : Z -> Parser B Y) Q :
  (2 * n + 4 <= f)%nat -> tok_ok t -> (forall v, u32 v -> triple (I n c) (k v) Q) ->
  triple (I n c) (eval_expr arch f (Some t) ≫= k) Q.
Proof. intros Hf Ht Hk. eapply triple_step; [by apply (er_first f (expr_rules_all f))|done]. Qed.

Lemma atom_bind {Y} n f (k : Z -> Parser B Y) Q :
  (2 * n + 2 <= f)%nat -> (forall v, u32 v -> triple (I n c) (k v) Q) ->
  triple (I n c) (parse_atomic_term arch f ≫= k) Q.
Proof. intros Hf Hk. eapply triple_step; [by apply (er_atom f (expr_rules_all f))|done]. Qed.

End Expressions.

(** ** Emission

    [ext c ws c']: [c'] is [c] with [ws] appended to the stream. *)
Definition stream_words (c : Compiler) : list Z := take (c_stream_len c) (c_stream c).

Record ext (c : Compiler) (ws : list Z) (c' : Compiler) : Prop := {
  ext_eq : c' = set_stream (c_stream c') (c_stream_len c') c;
  ext_size : length (c_stream c') = length (c_stream c);
  ext_len : c_stream_len c' = (c_stream_len c + length ws)%nat;
  ext_bound : (c_stream_len c' <= MAX_STREAM_WORDS)%nat;
  ext_words : stream_words c' = stream_words c ++ ws;
}.

Lemma ext_refl c : wf_comp A c -> ext c [] c.
Proof. intros Hc. split; [by destruct c|done|cbn; lia|apply Hc|by rewrite app_nil_r]. Qed.

Lemma ext_trans c ws c' ws' c'' : ext c ws c' -> ext c' ws' c'' -> ext c (ws ++ ws') c''.
Proof.
  intros E1 E2. split.
  - rewrite (ext_eq _ _ _ E2) at 1. rewrite (ext_eq _ _ _ E1). done.
  - by rewrite (ext_size _ _ _ E2), (ext_size _ _ _ E1).
  - rewrite (ext_len _ _ _ E2), (ext_len _ _ _ E1), length_app. lia.
  - apply E2.
  - by rewrite (ext_words _ _ _ E2), (ext_words _ _ _ E1), app_assoc.
Qed.

Lemma set_stream_wf c s k :
  wf_comp A c -> length s = MAX_STREAM_WORDS -> (k <= MAX_STREAM_WORDS)%nat ->
  wf_comp A (set_stream s k c).
Proof. intros Hc Hs Hk. destruct Hc. split; done. Qed.

Lemma ext_wf c ws c' : wf_comp A c -> ext c ws c' -> wf_comp A c'.
Proof.
  intros Hc E. rewrite (ext_eq _ _ _ E). apply set_stream_wf; [done| |exact (ext_bound _ _ _ E)].
  rewrite (ext_size _ _ _ E). exact (wc_stream _ _ Hc).
Qed.

Lemma ext_aget c ws c' i :
  wf_comp A c -> ext c ws c' -> (i < c_stream_len c)%nat ->
  aget 0 (c_stream c') i = aget 0 (c_stream c) i.
Proof.
  intros Hc E Hi. pose proof (ext_words _ _ _ E) as Ew. unfold stream_words in Ew.
  pose proof (ext_len _ _ _ E). pose proof (ext_bound _ _ _ E). pose proof (ext_size _ _ _ E).
  pose proof (wc_stream _ _ Hc).
  assert (c_stream c' !! i = c_stream c !! i) as El.
  { transitivity (take (c_stream_len c') (c_stream c') !! i); [symmetry; apply lookup_take_lt; lia|].
    rewrite Ew, lookup_app_l by (rewrite length_take; lia). apply lookup_take_lt. lia. }
  rewrite !(aget_lookup 0) in El by lia. congruence.
Qed.

Definition emits (n : nat) (c : Compiler) (ws : list Z) (st : PS B) : Prop :=
  exists c', ext c ws c' /\ I n c' st.

(** A step that appends [ws], then a continuation. *)
Lemma emits_step {X Y} P (p : Parser B X) (k : X -> Parser B Y) n c ws Q :
  wf_comp A c -> triple P p (fun _ => emits n c ws) ->
  (forall a c', ext c ws c' -> wf_comp A c' -> triple (I n c') (k a) Q) ->
  triple P (p ≫= k) Q.
Proof.
  intros Hc Hp Hk. eapply triple_bind; [exact Hp|]. intros a st (c' & E & Hi).
  apply (Hk a c'); [done|by eapply ext_wf|done].
Qed.

Lemma emits_after {X} n c ws c' ws' P (p : Parser B X) :
  ext c ws c' -> triple P p (fun _ => emits n c' ws') -> triple P p (fun _ => emits n c (ws ++ ws')).
Proof.
  intros E Hp. eapply triple_conseq; [exact Hp|done|]. intros _ st (c'' & E' & Hi).
  exists c''. split; [by eapply ext_trans|done].
Qed.

Lemma push_spec n c w : wf_comp A c -> triple (I n c) (stream_push w) (fun _ => emits n c [w]).
Proof.
  intros Hc. unfold stream_push. apply get_step.
  destruct (Nat.leb_spec MAX_STREAM_WORDS (c_stream_len c)); [by apply triple_err|].
  eapply triple_conseq; [apply put_spec|done|]. intros u st Hi. eexists. split; [|exact Hi].
  pose proof (wc_stream _ _ Hc).
  split; cbn; try done; [by rewrite length_aset|lia..|].
  unfold stream_words, aset. cbn. rewrite (take_S_r _ _ w) by (apply list_lookup_insert_eq; lia).
  by rewrite take_insert_ge by lia.
Qed.

Lemma push_lit_spec n c v :
  wf_comp A c -> triple (I n c) (stream_push_lit v) (fun _ => emits n c [word_of lit_prim; v]).
Proof.
  intros Hc. unfold stream_push_lit. eapply emits_step; [done|by apply push_spec|].
  intros _ c' E Hc'. apply (emits_after n c [_] c' [v]); [done|by apply push_spec].
Qed.

Lemma push_words_spec n c ws :
  wf_comp A c -> triple (I n c) (push_words ws) (fun _ => emits n c ws).
Proof.
  revert c. induction ws as [|w ws IH]; intros c Hc; cbn [push_words].
  - apply triple_ret. intros st Hi. exists c. split; [by apply ext_refl|done].
  - eapply emits_step; [done|by apply push_spec|].
    intros _ c' E Hc'. apply (emits_after n c [_] c' ws); [done|by apply IH].
Qed.

Lemma push_indices_spec n c idxs :
  wf_comp A c -> Forall (fun i => (i < c_stream_len c)%nat) idxs ->
  triple (I n c) (push_indices idxs) (fun _ => emits n c (map (aget 0 (c_stream c)) idxs)).
Proof.
  revert c. induction idxs as [|i idxs IH]; intros c Hc Hi; cbn [push_indices map].
  - apply triple_ret. intros st Hst. exists c. split; [by apply ext_refl|done].
  - apply Forall_cons_1 in Hi as [Hi His]. apply get_step. eapply emits_step; [done|by apply push_spec|].
    intros _ c' E Hc'. apply (emits_after n c [_] c' _ _ _ E).
    rewrite (map_ext_in (aget 0 (c_stream c)) (aget 0 (c_stream c')) idxs).
    + apply IH; [done|]. eapply list.Forall_impl; [exact His|]. intros j Hj.
      cbn beta in *. rewrite (ext_len _ _ _ E). lia.
    + intros j Hj. rewrite list.Forall_forall in His. symmetry.
      apply (ext_aget c [aget 0 (c_stream c) i]); [done|done|]. by apply His, list_elem_of_In.
Qed.

Lemma map_aget_seq (l : list Z) s k :
  (s + k <= length l)%nat -> map (aget 0 l) (seq s k) = take k (drop s l).
Proof.
  revert s. induction k as [|k IH]; intros s Hl; [by rewrite take_0|].
  cbn [seq map]. rewrite IH by lia.
  rewrite (drop_S l (aget 0 l s) s) by (apply aget_lookup; lia). done.
Qed.

(** [copies] rounds of the unrolling loop append as many copies of the body. *)
Lemma unroll_spec n copies s e c body :
  wf_comp A c -> (s <= e <= c_stream_len c)%nat -> take (e - s) (drop s (c_stream c)) = body ->
  triple (I n c) (unroll copies s e) (fun _ => emits n c (concat (replicate copies body))).
Proof.
  revert c. induction copies as [|k IH]; intros c Hc Hse Hb; cbn [unroll replicate concat].
  - apply triple_ret. intros st Hst. exists c. split; [by apply ext_refl|done].
  - apply get_step. case_match; [by apply triple_err|].
    pose proof (wc_stream _ _ Hc). pose proof (wc_stream_len _ _ Hc).
    eapply (emits_step _ _ _ n c body); [done| |].
    + rewrite <- Hb, <- map_aget_seq by lia. apply push_indices_spec; [done|].
      apply list.Forall_forall. intros j Hj%elem_of_seq. lia.
    + intros _ c' E Hc'. apply (emits_after n c body c' _ _ _ E). apply IH; [done| |].
      * rewrite (ext_len _ _ _ E). lia.
      * rewrite <- Hb, <- !map_aget_seq; [|lia..|rewrite (ext_size _ _ _ E); lia].
        apply map_ext_in. intros j Hj%in_seq. apply (ext_aget c body); [done|done|lia].
Qed.

(** ** Statements *)

(** The stream of [c] grows by compiled, authorised statements. *)
Definition emits_code (n : nat) (c : Compiler) (st : PS B) : Prop :=
  exists ss, Forall (stmt_ok A) ss /\ emits n c (code ss) st.

Lemma emits_code_nil n c st : wf_comp A c -> I n c st -> emits_code n c st.
Proof. intros Hc Hi. exists []. split; [constructor|]. exists c. split; [by apply ext_refl|done]. Qed.

Lemma emits_code_mono n m c st : (m <= n)%nat -> emits_code m c st -> emits_code n c st.
Proof.
  intros Hle (ss & Hs & c' & E & Hi). exists ss. split; [done|]. exists c'. split; [done|].
  by eapply I_mono.
Qed.

Lemma emits_code_after {X} n c ss c' P (p : Parser B X) :
  Forall (stmt_ok A) ss -> ext c (code ss) c' ->
  triple P p (fun _ => emits_code n c') -> triple P p (fun _ => emits_code n c).
Proof.
  intros Hs E Hp. eapply triple_conseq; [exact Hp|done|].
  intros a st (ss' & Hs' & c'' & E' & Hi). exists (ss ++ ss'). split; [by apply Forall_app|].
  exists c''. split; [|done]. rewrite code_app. by eapply ext_trans.
Qed.

Lemma emits_code_of {X} n c ss P (p : Parser B X) :
  Forall (stmt_ok A) ss -> triple P p (fun _ => emits n c (code ss)) ->
  triple P p (fun _ => emits_code n c).
Proof. intros Hs Hp. eapply triple_conseq; [exact Hp|done|]. intros a st He. by exists ss. Qed.

Lemma code_step {Y} P (p : Parser B unit) (k : unit -> Parser B Y) n c Q :
  wf_comp A c -> triple P p (fun _ => emits_code n c) ->
  (forall ss c', Forall (stmt_ok A) ss -> ext c (code ss) c' -> wf_comp A c' ->
     triple (I n c') (k tt) Q) ->
  triple P (p ≫= k) Q.
Proof.
  intros Hc Hp Hk. eapply triple_bind; [exact Hp|]. intros [] st (ss & Hs & c' & E & Hi).
  apply (Hk ss c'); [done|done|by eapply ext_wf|done].
Qed.

Lemma poke_stmt_spec n f c :
  (2 * n + 2 <= f)%nat -> wf_comp A c ->
  triple (I n c) (poke_stmt arch f) (fun _ => emits_code n c).
Proof.
  intros Hf Hc. unfold poke_stmt. apply atom_bind; [done|lia|]. intros a Ha.
  apply expr_bind; [done|lia|]. intros v Hv. apply semicolon_step; [done|].
  apply access_step; [done|]. intros Hacc%HA.
  apply (emits_code_of n c [SPoke a v]); [by apply Forall_singleton; split|].
  eapply emits_step; [done|by apply push_lit_spec|]. intros _ c1 E1 Hc1.
  apply (emits_after n c [_; a] c1 [_; v; _] _ _ E1).
  eapply emits_step; [done|by apply push_lit_spec|]. intros _ c2 E2 Hc2.
  apply (emits_after n c1 [_; v] c2 [_] _ _ E2). by apply push_spec.
Qed.

Lemma peek_stmt_spec n f c :
  (2 * n + 2 <= f)%nat -> wf_comp A c ->
  triple (I n c) (peek_stmt arch f) (fun _ => emits_code n c).
Proof.
  intros Hf Hc. unfold peek_stmt. apply atom_bind; [done|lia|]. intros a Ha.
  apply semicolon_step; [done|]. apply access_step; [done|]. intros Hacc%HA.
  apply (emits_code_of n c [SPeek a]); [by apply Forall_singleton; split|].
  eapply emits_step; [done|by apply push_lit_spec|]. intros _ c1 E1 Hc1.
  apply (emits_after n c [_; a] c1 [_] _ _ E1). by apply push_spec.
Qed.

Lemma find_fn_slot c name i : find_fn c name = Some i ->
  (i < MAX_FNS)%nat /\ fn_allocated c i = true /\ as_slice (aget EMPTY_NAME (c_fn_names c) i) = name.
Proof.
  unfold find_fn. intros E%List.find_some. destruct E as [Hi Hp]. apply in_seq in Hi.
  apply andb_true_iff in Hp as [? Hp]. unfold eq_bytes in Hp. bool_to_prop.
  split; [lia|done].
Qed.

Lemma splice_spec n c name :
  wf_comp A c -> triple (I n c) (splice_call name) (fun _ => emits_code n c).
Proof.
  intros Hc. unfold splice_call. apply get_step.
  destruct (find_fn c name) as [i|] eqn:E; [|by apply triple_err].
  apply find_fn_slot in E as (Hi & _). destruct (wc_code _ _ Hc i Hi) as (ss & -> & Hs).
  apply (emits_code_of n c ss); [done|by apply push_words_spec].
Qed.

Lemma code_replicate k ss : concat (replicate k (code ss)) = code (concat (replicate k ss)).
Proof. induction k as [|k IH]; [done|]. cbn [replicate concat]. by rewrite IH, code_app. Qed.

Lemma Forall_concat_replicate {X} (P : X -> Prop) k l : Forall P l -> Forall P (concat (replicate k l)).
Proof. intros Hl. induction k as [|k IH]; cbn; [constructor|]. by apply Forall_app. Qed.

(** Unrolling a body that was just compiled. *)
Lemma unroll_code n k c0 c ss :
  wf_comp A c -> Forall (stmt_ok A) ss -> ext c0 (code ss) c ->
  triple (I n c) (unroll k (c_stream_len c0) (c_stream_len c)) (fun _ => emits_code n c).
Proof.
  intros Hc Hs E. apply (emits_code_of n c (concat (replicate k ss))); [by apply Forall_concat_replicate|].
  rewrite <- code_replicate. pose proof (ext_len _ _ _ E). pose proof (wc_stream_len _ _ Hc).
  pose proof (wc_stream _ _ Hc).
  apply unroll_spec; [done|lia|].
  pose proof (ext_words _ _ _ E) as Ew. unfold stream_words in Ew.
  assert (length (take (c_stream_len c0) (c_stream c0)) = c_stream_len c0) as Hl.
  { rewrite length_take. pose proof (ext_size _ _ _ E). lia. }
  rewrite <- skipn_firstn_comm. rewrite Ew.
  rewrite drop_app_ge by lia. by rewrite Hl, Nat.sub_diag.
Qed.

Lemma next_ignored {Y} n c (k : Token -> Parser B Y) Q :
  (forall t, triple (I n c) (k t) Q) -> triple (I n c) (next ≫= k) Q.
Proof.
  intros Hk. apply next_step; [done|]. intros t m _ _ ->. intros st Hi.
  apply Hk. eapply I_mono; [|done]. lia.
Qed.

Lemma peeked_pos {X} t n c (p : Parser B X) Q :
  t <> Eof -> (forall m, n = S m -> triple (I n c) p Q) -> triple (J t n c) p Q.
Proof.
  intros Hne Hp st [Hi Ha]. pose proof (i_left _ _ _ Hi) as Hl. unfold cur_left in Hl.
  rewrite Ha, decide_False in Hl by done. destruct n as [|m]; [lia|]. by apply (Hp m).
Qed.

Record body_rules (f : nat) : Prop := {
  br_stmt : forall m c, (2 * m + 5 <= f)%nat -> wf_comp A c ->
    triple (I (S m) c) (parse_body_stmt arch f) (fun _ => emits_code m c);
  br_stmts : forall n c, (2 * n + 4 <= f)%nat -> wf_comp A c ->
    triple (I n c) (body_stmts arch f) (fun _ => emits_code n c);
}.

Lemma nested_loop_spec m f c :
  body_rules f -> (2 * m + 4 <= f)%nat -> wf_comp A c ->
  triple (I m c)
    (count ← parse_atomic_term arch f;
     if loop_count_bad count then err LoopTooLarge
     else
       c0 ← get_comp;
       expect_tok LBrace ;; body_stmts arch f ;; next ;;
       c1 ← get_comp;
       unroll (Z.to_nat count - 1) (c_stream_len c0) (c_stream_len c1))
    (fun _ => emits_code m c).
Proof.
  intros IH Hf Hc. apply atom_bind; [done|lia|]. intros count _. case_match; [by apply triple_err|].
  apply get_step, expect_tok_step; [done|].
  eapply code_step; [done|apply (br_stmts f IH); [lia|done]|]. intros ss c1 Hs E Hc1.
  apply next_ignored. intros _. apply get_step.
  apply (emits_code_after m c ss c1); [done|done|]. by apply (unroll_code _ _ _ _ ss).
Qed.

Lemma call_or_expr_spec m f c id :
  (2 * m + 4 <= f)%nat -> wf_comp A c -> ident id ->
  triple (I m c)
    (t2 ← peek;
     match t2 with
     | LParen => next ;; expect_tok RParen ;; expect_semicolon ;; splice_call id
     | _ => eval_expr arch f (Some (Identifier id)) ;; expect_semicolon
     end) (fun _ => emits_code m c).
Proof.
  intros Hf Hc Hid. apply peek_step. intros t2 _.
  assert (triple (I m c) (eval_expr arch f (Some (Identifier id)) ;; expect_semicolon)
            (fun _ => emits_code m c)) as Hexpr.
  { apply first_bind; [done|lia|done|]. intros v _.
    eapply triple_conseq; [by apply semicolon_spec|done|]. intros [] st [_ Hi]. by apply emits_code_nil. }
  destruct t2; try (by apply J_I). apply J_I, next_ignored. intros _.
  apply expect_tok_step; [done|]. apply semicolon_step; [done|]. by apply splice_spec.
Qed.

Lemma body_rules_S f : body_rules f -> body_rules (S f).
Proof.
  intros IH. split.
  - intros m c Hf Hc. cbn [parse_body_stmt]. apply next_step; [by apply triple_err|].
    intros t m' _ Ht [= <-]. destruct t as [| |id| | | | | | | | | |]; try (by apply triple_err).
    repeat case_bool_decide; [apply poke_stmt_spec|apply peek_stmt_spec|apply nested_loop_spec|
      apply call_or_expr_spec]; first [done|lia].
  - intros n c Hf Hc. cbn [body_stmts]. apply peek_step. intros t _.
    destruct (decide (t = Eof)) as [->|Hne]; [by apply J_I, triple_err|].
    destruct (decide (t = RBrace)) as [->|Hnb].
    { apply J_I, triple_ret. intros. by apply emits_code_nil. }
    assert (triple (J t n c) (parse_body_stmt arch f ;; body_stmts arch f) (fun _ => emits_code n c)).
    { apply peeked_pos; [done|]. intros m ->.
      eapply code_step; [done|apply (br_stmt f IH); [lia|done]|]. intros ss c1 Hs E Hc1.
      apply (emits_code_after (S m) c ss c1); [done|done|].
      eapply triple_conseq; [apply (br_stmts f IH m); [lia|done]|done|].
      intros u st. apply emits_code_mono. lia. }
    by destruct t.
Qed.

Lemma body_rules_all f : body_rules f.
Proof. induction f as [|f IH]; [split; intros; lia|by apply body_rules_S]. Qed.

Lemma loop_stmts_spec f : forall n c, (2 * n + 4 <= f)%nat -> wf_comp A c ->
  triple (I n c) (loop_stmts arch f) (fun _ => emits_code n c).
Proof.
  induction f as [|f IH]; intros n c Hf Hc; [lia|]. cbn [loop_stmts]. apply peek_step. intros t _.
  destruct (decide (t = Eof)) as [->|Hne]; [by apply J_I, triple_err|].
  destruct (decide (t = RBrace)) as [->|Hnb].
  { apply J_I, triple_ret. intros. by apply emits_code_nil. }
  destruct t; try done; (apply next_peeked; [done|]; intros m ->).
  all: eapply (code_step _ _ _ m c); [done| |].
  all: try (apply triple_ret; intros; by apply emits_code_nil).
  all: try (intros ss c1 Hs E Hc1; apply (emits_code_after (S m) c ss c1); [done|done|];
            eapply triple_conseq; [apply (IH m); [lia|done]|done|];
            intros u st; apply emits_code_mono; lia).
  repeat case_bool_decide; [apply poke_stmt_spec; [lia|done]|apply peek_stmt_spec; [lia|done]|].
  apply triple_ret. intros. by apply emits_code_nil.
Qed.

(** ** Functions *)
Lemma alloc_fn_slot_inv c name i : alloc_fn_slot c name = Ok i ->
  (i < MAX_FNS)%nat /\ find_fn c (as_slice name) = None /\
  nb_len (aget EMPTY_NAME (c_fn_names c) i) = 0%nat.
Proof.
  unfold alloc_fn_slot. destruct (find_fn c (as_slice name)); [done|].
  destruct (List.find _ _) as [j|] eqn:E; [|done]. intros; simplify_eq.
  apply List.find_some in E as [Hi Hp]. apply in_seq in Hi. bool_to_prop. split; [lia|done].
Qed.

Lemma find_fn_none c name i :
  find_fn c name = None -> (i < MAX_FNS)%nat -> fn_allocated c i = true ->
  as_slice (aget EMPTY_NAME (c_fn_names c) i) <> name.
Proof.
  unfold find_fn. intros E Hi Ha Hn. apply (List.find_none _ _ ) with (x := i) in E; [|apply in_seq; lia].
  rewrite Ha in E. unfold eq_bytes in E. rewrite bool_decide_true in E by done. done.
Qed.

Lemma fn_body_store c i j name words :
  wf_comp A c -> (i < MAX_FNS)%nat ->
  fn_body (store_fn c i name words) j = if decide (i = j) then words else fn_body c j.
Proof.
  intros Hc Hi. unfold fn_body, store_fn. cbn [c_fn_body_lens c_fn_bodies]. case_decide as E.
  - subst j. rewrite !aget_aset_eq by (rewrite ?(wc_lens_len _ _ Hc), ?(wc_bodies_len _ _ Hc); done).
    apply take_copy_prefix.
  - by rewrite !aget_aset_ne by done.
Qed.

Lemma store_fn_wf c i name words ss :
  wf_comp A c -> good_name name -> alloc_fn_slot c name = Ok i -> (length words <= FN_BODY_WORDS)%nat ->
  words = code ss -> Forall (stmt_ok A) ss -> wf_comp A (store_fn c i name words).
Proof.
  intros Hc Hn Ha Hl Hw Hs. apply alloc_fn_slot_inv in Ha as (Hi & Hf & _).
  pose proof (wc_bodies _ _ Hc) as Hb. rewrite Forall_lookup in Hb.
  split; try (by destruct Hc); cbn [store_fn c_fn_names c_fn_bodies c_fn_body_lens].
  - rewrite length_aset. apply (wc_names_len _ _ Hc).
  - apply Forall_insert; [apply (wc_names _ _ Hc)|done].
  - rewrite length_aset. apply (wc_bodies_len _ _ Hc).
  - apply Forall_insert; [apply (wc_bodies _ _ Hc)|].
    assert (length (aget [] (c_fn_bodies c) i) = FN_BODY_WORDS) as Hbl.
    { apply (Hb i), aget_lookup. by rewrite (wc_bodies_len _ _ Hc). }
    by rewrite length_copy_prefix by lia.
  - rewrite length_aset. apply (wc_lens_len _ _ Hc).
  - apply Forall_insert; [apply (wc_lens _ _ Hc)|done].
  - intros j Hj. rewrite fn_body_store by done. case_decide; [eauto|by apply (wc_code _ _ Hc)].
  - intros j k Hj Hk. unfold fn_allocated. cbn [store_fn c_fn_names].
    assert (forall k, aget EMPTY_NAME (aset (c_fn_names c) i name) k =
      if decide (i = k) then name else aget EMPTY_NAME (c_fn_names c) k) as Hget.
    { intros k'. case_decide as E; [subst; apply aget_aset_eq|by apply aget_aset_ne].
      by rewrite (wc_names_len _ _ Hc). }
    rewrite !Hget. repeat case_decide; subst; try done; intros Hj1 Hk1 Heq.
    + by destruct (find_fn_none c _ k Hf Hk Hk1).
    + by destruct (find_fn_none c _ j Hf Hj Hj1).
    + by apply (wc_unique _ _ Hc).
Qed.

(** ** Outcomes *)

(** A program is encoded instructions closed by the halt word, in a zeroed
    buffer: one literal when it yields a value, authorised statements
    otherwise. *)
Definition prog_ok (p : StreamProgram) : Prop :=
  exists prog,
    let ws := encode prog ++ [word_of halt_prim] in
    sp_words p = copy_prefix (replicate MAX_STREAM_WORDS 0) ws /\
    sp_len p = length ws /\ (length ws <= MAX_STREAM_WORDS)%nat /\
    if sp_yields p then exists v, u32 v /\ prog = [ILit v]
    else exists ss, Forall (stmt_ok A) ss /\ prog = concat (map stmt_instrs ss).

Definition timer_probe : Z := match arch with Riscv32 => 0x10015000 | Arm => 0x40000000 end.
Definition spi_probe : Z := match arch with Riscv32 => 0x10014000 | Arm => 0x40013000 end.

Definition outcome_ok (o : Outcome) : Prop :=
  let granted a := check_access arch R a = Ok tt in
  match o with
  | OEnforcedPoke a v => granted a /\ u32 a /\ u32 v
  | OEnforcedPeek a => granted a /\ u32 a
  | OSetBit a b | OClrBit a b => granted a /\ u32 a /\ u32 b
  | OPwm p d => granted timer_probe /\ u32 p /\ u32 d
  | OPwmDuty d => granted timer_probe /\ u32 d
  | OSpiTx b => granted spi_probe /\ u8 b
  | OPoolAlloc s => u32 s
  | OBound n v => good_name n /\ u32 v
  | OFnDefined n | OClaim n | ODrop n | OStore n | OLoad n | OSpawn n => good_name n
  | ORun p => prog_ok p
  | _ => True
  end.

(** A line ends well: the invariant holds and the outcome is authorised. *)
Definition done_ok (o : Outcome) (st : PS B) : Prop := ended st /\ outcome_ok o.

Lemma done_ret n c o : wf_comp A c -> outcome_ok o -> triple (I n c) (mret o) done_ok.
Proof. intros Hc Ho. apply triple_ret. intros st Hi. split; [by apply (I_ended n c)|done]. Qed.

Lemma take_program_ok c prog (yields : bool) :
  stream_words c = encode prog ++ [word_of halt_prim] -> wf_comp A c ->
  (if yields then exists v, u32 v /\ prog = [ILit v]
   else exists ss, Forall (stmt_ok A) ss /\ prog = concat (map stmt_instrs ss)) ->
  prog_ok (take_program c yields).
Proof.
  intros Hw Hc Hp. pose proof (wc_stream_len _ _ Hc). pose proof (wc_stream _ _ Hc).
  unfold stream_words in Hw.
  assert (length (encode prog ++ [word_of halt_prim]) = c_stream_len c) as Hl.
  { rewrite <- Hw, length_take. lia. }
  exists prog. cbn zeta. unfold take_program. cbn [sp_words sp_len sp_yields].
  rewrite Hw. by rewrite Hl.
Qed.

Lemma reset_step {Y} n c (k : unit -> Parser B Y) Q :
  wf_comp A c ->
  (forall c', wf_comp A c' -> stream_words c' = [] -> c_stream_len c' = 0%nat ->
     (forall i, fn_body c' i = fn_body c i) -> triple (I n c') (k tt) Q) ->
  triple (I n c) (stream_reset ≫= k) Q.
Proof.
  intros Hc Hk. unfold stream_reset. eapply (triple_bind _ _ _ (fun _ => I n (set_stream (c_stream c) 0 c))).
  - apply get_step, put_spec.
  - intros []. apply Hk; [|done..]. apply set_stream_wf; [done|apply (wc_stream _ _ Hc)|lia].
Qed.

(** Emit the halt word and take the program. *)
Lemma finish_spec n c prog (yields : bool) :
  wf_comp A c -> stream_words c = encode prog ->
  (if yields then exists v, u32 v /\ prog = [ILit v]
   else exists ss, Forall (stmt_ok A) ss /\ prog = concat (map stmt_instrs ss)) ->
  triple (I n c) (stream_halt ;; c' ← get_comp; mret (take_program c' yields))
    (fun p st => prog_ok p /\ ended st).
Proof.
  intros Hc Hw Hp. eapply (emits_step _ _ _ n c); [done|by apply push_spec|]. intros _ c' E Hc'.
  apply get_step, triple_ret. intros st Hi. split; [|by apply (I_ended n c')].
  apply (take_program_ok c' prog); [|done|done]. by rewrite (ext_words _ _ _ E), Hw.
Qed.

Lemma run_of P (p : Parser B StreamProgram) :
  triple P p (fun p st => prog_ok p /\ ended st) ->
  triple P (p ≫= fun p => mret (ORun p)) done_ok.
Proof.
  intros Hp. eapply triple_bind; [exact Hp|]. intros p'. apply triple_ret. intros st [? ?]. by split.
Qed.

Lemma value_program_spec n c v :
  wf_comp A c -> u32 v ->
  triple (I n c) (p ← build_value_program v; mret (ORun p)) done_ok.
Proof.
  intros Hc Hv. apply run_of. unfold build_value_program. apply reset_step; [done|].
  intros c1 Hc1 Hw _ _. eapply emits_step; [done|by apply push_lit_spec|]. intros _ c2 E2 Hc2.
  apply (finish_spec n c2 [ILit v]); [done| |by exists v].
  by rewrite (ext_words _ _ _ E2), Hw.
Qed.

Lemma call_program_spec n c name :
  wf_comp A c -> triple (I n c) (p ← build_call_program name; mret (ORun p)) done_ok.
Proof.
  intros Hc. apply run_of. unfold build_call_program. apply get_step.
  destruct (find_fn c name) as [i|] eqn:E; [|by apply triple_err].
  apply find_fn_slot in E as (Hi & _). destruct (wc_code _ _ Hc i Hi) as (ss & Hb & Hs).
  apply reset_step; [done|]. intros c1 Hc1 Hw _ _.
  eapply emits_step; [done|by apply push_words_spec|]. intros _ c2 E2 Hc2.
  apply (finish_spec n c2 (concat (map stmt_instrs ss))); [done| |by exists ss].
  by rewrite (ext_words _ _ _ E2), Hw, Hb.
Qed.

(** ** The statement parsers *)
Lemma probe_insert_vals syms bytes v start steps syms' :
  Forall (fun s => u32 (sy_value s)) syms -> u32 v ->
  probe_insert syms bytes v start steps = Ok syms' -> Forall (fun s => u32 (sy_value s)) syms'.
Proof.
  intros Hs Hv. induction steps as [|s steps IH]; cbn [probe_insert]; [done|].
  case_match; [|done]. intros; simplify_eq. by apply Forall_insert.
Qed.

Lemma set_symbols_wf c name v syms :
  wf_comp A c -> wf_name name -> u32 v -> insert_symbol (c_symbols c) name v = Ok syms ->
  wf_comp A (set_symbols syms c).
Proof.
  intros Hc Hn Hv E.
  assert (wf_symtab syms) as Hw.
  { pose proof (insert_symbol_map (c_symbols c) name v (wc_syms _ _ Hc) Hn) as Hm.
    rewrite E in Hm. by destruct Hm as (? & _). }
  pose proof (probe_insert_vals _ _ _ _ _ _ (wc_vals _ _ Hc) Hv E).
  destruct Hc. by split.
Qed.

Lemma parse_let_spec n f c :
  (2 * n + 2 <= f)%nat -> wf_comp A c -> triple (I n c) (parse_let arch f) done_ok.
Proof.
  intros Hf Hc. unfold parse_let. apply next_step; [by apply triple_err|]. intros t m _ Ht ->.
  destruct t as [| |id| | | | | | | | | |]; try (by apply triple_err).
  apply lift_step; [done|]. intros name Hn%from_slice_good; [|exact Ht]. apply expect_tok_step; [done|].
  apply expr_bind; [done|lia|]. intros v Hv. apply semicolon_step; [done|]. apply get_step.
  apply lift_step; [done|]. intros syms E. apply put_step, done_ret; [|done].
  by eapply set_symbols_wf; [| apply Hn | |].
Qed.

Lemma parse_fn_spec n f c :
  (2 * n + 4 <= f)%nat -> wf_comp A c -> triple (I n c) (parse_fn arch f) done_ok.
Proof.
  intros Hf Hc. unfold parse_fn. apply name_step; [done|]. intros name Hn.
  do 3 (apply expect_tok_step; [done|]). apply reset_step; [done|]. intros c0 Hc0 Hw _ _.
  eapply code_step; [done|apply (br_stmts f (body_rules_all f)); [lia|done]|].
  intros ss c1 Hs E Hc1. apply next_ignored. intros _. apply get_step.
  destruct (Nat.ltb_spec FN_BODY_WORDS (c_stream_len c1)); [by apply triple_err|].
  apply lift_step; [done|]. intros i Hi. apply put_step, done_ret; [|done].
  apply (store_fn_wf c1 i name _ ss); try done.
  - rewrite length_take. lia.
  - pose proof (ext_words _ _ _ E) as Ew. rewrite Hw in Ew. exact Ew.
Qed.

Lemma loop_command_spec n f c :
  (2 * n + 4 <= f)%nat -> wf_comp A c -> triple (I n c) (loop_command arch f) done_ok.
Proof.
  intros Hf Hc. unfold loop_command. apply atom_bind; [done|lia|]. intros count _.
  case_match; [by apply triple_err|]. apply expect_tok_step; [done|].
  apply reset_step; [done|]. intros c0 Hc0 Hw Hz _.
  eapply code_step; [done|apply loop_stmts_spec; [lia|done]|]. intros ss c1 Hs E Hc1.
  apply next_ignored. intros _. apply get_step.
  eapply (code_step _ _ _ n c1); [done| |].
  { rewrite <- Hz. by apply (unroll_code _ _ _ _ ss). }
  intros ss' c2 Hs' E2 Hc2.
  eapply (emits_step _ _ _ n c2); [done|by apply push_spec|]. intros _ c3 E3 Hc3.
  apply get_step, done_ret; [done|].
  apply (take_program_ok c3 (concat (map stmt_instrs (ss ++ ss')))); [|done|].
  - rewrite (ext_words _ _ _ E3), (ext_words _ _ _ E2), (ext_words _ _ _ E), Hw. cbn [app].
    by rewrite <- code_app.
  - exists (ss ++ ss'). split; [by apply Forall_app|done].
Qed.

Lemma named_command_spec n c k :
  wf_comp A c -> (forall name, good_name name -> outcome_ok (k name)) ->
  triple (I n c) (named_command k) done_ok.
Proof.
  intros Hc Hk. unfold named_command. apply name_step; [done|]. intros name Hn.
  apply semicolon_step; [done|]. by apply done_ret; [|apply Hk].
Qed.

Lemma bare_command_spec n c o : wf_comp A c -> outcome_ok o -> triple (I n c) (bare_command o) done_ok.
Proof.
  intros Hc Ho. unfold bare_command. apply (triple_step _ _ _ (fun _ => True) n c); [|intros; by apply done_ret].
  unfold allow_optional_semicolon. apply peek_step. intros t _.
  destruct t; try (apply J_I, triple_ret; intros; by split).
  apply J_I, next_ignored. intros _. apply triple_ret. intros. by split.
Qed.

Lemma bit_command_spec n f c k :
  (2 * n + 2 <= f)%nat -> wf_comp A c ->
  (forall a b, check_access arch R a = Ok tt -> u32 a -> u32 b -> outcome_ok (k a b)) ->
  triple (I n c) (bit_command arch f k) done_ok.
Proof.
  intros Hf Hc Hk. unfold bit_command. apply atom_bind; [done|lia|]. intros a Ha.
  apply atom_bind; [done|lia|]. intros b Hb. apply semicolon_step; [done|].
  apply access_step; [done|]. intros Hg. apply done_ret; [done|by apply Hk].
Qed.

Lemma other_command_spec n f c id :
  (2 * n + 4 <= f)%nat -> wf_comp A c -> ident id -> triple (I n c) (other_command arch f id) done_ok.
Proof.
  intros Hf Hc Hid. unfold other_command. apply peek_step. intros t _.
  assert (triple (I n c) (value ← eval_expr arch f (Some (Identifier id));
            expect_semicolon ;; p ← build_value_program value; mret (ORun p)) done_ok) as He.
  { apply first_bind; [done|lia|done|]. intros v Hv. apply semicolon_step; [done|].
    by apply value_program_spec. }
  destruct t; try (by apply J_I). apply J_I, next_ignored. intros _.
  apply expect_tok_step; [done|]. apply semicolon_step; [done|]. by apply call_program_spec.
Qed.

(** One step of a command: an operand, the semicolon, the capability gate,
    the outcome. *)
Ltac command_step Hc :=
  first
    [ apply loop_command_spec; [lia|exact Hc]
    | apply atom_bind; [exact Hc|lia|intros ? ?]
    | apply expr_bind; [exact Hc|lia|intros ? ?]
    | apply semicolon_step; [exact Hc|]
    | apply access_step; [exact Hc|intros ?]
    | apply done_ret; [exact Hc|done]
    | apply named_command_spec; [exact Hc|done]
    | apply bare_command_spec; [exact Hc|done]
    | apply bit_command_spec; [lia|exact Hc|done]
    | apply other_command_spec; [lia|exact Hc|assumption] ].

Lemma parse_command_spec n f c id :
  (2 * n + 4 <= f)%nat -> wf_comp A c -> ident id -> triple (I n c) (parse_command arch f id) done_ok.
Proof.
  intros Hf Hc Hid. unfold parse_command, check_timer_cap, check_spi_cap. cbv zeta.
  repeat (match goal with |- triple _ (if ?x then _ else _) _ => destruct x end);
    try (repeat command_step Hc; fail).
  do 3 command_step Hc. apply done_ret; [exact Hc|]. split; [done|].
  unfold u8. apply Z.mod_pos_bound. lia.
Qed.

Lemma parse_line_spec n f c :
  (2 * n + 4 <= f)%nat -> wf_comp A c -> triple (I n c) (parse_line arch f) done_ok.
Proof.
  intros Hf Hc. unfold parse_line. apply next_step; [by apply triple_err|]. intros t m _ Ht ->.
  assert (triple (I m c) (value ← eval_expr arch f (Some t);
            expect_semicolon ;; p ← build_value_program value; mret (ORun p)) done_ok) as He.
  { apply first_bind; [done|lia|done|]. intros v Hv. apply semicolon_step; [done|].
    by apply value_program_spec. }
  destruct t; try (by apply triple_err); try exact He.
  - apply parse_fn_spec; [lia|done].
  - apply parse_let_spec; [lia|done].
  - apply parse_command_spec; [lia|done|done].
Qed.

Lemma parse_spec c m line :
  wf_comp A c -> m_regs m = R -> m_audit m = L ->
  let '(r, (c', m')) := parse arch c m line in
  wf_comp A c' /\ m_regs m' = R /\ m_audit m' = L /\
  match r with ROk o => outcome_ok o | RErr _ => True | NoFuel => False end.
Proof.
  intros Hc Hr Ha. unfold parse.
  assert (I (length line) c {| ps_comp := c; ps_cur := cur_new line; ps_mach := m |}) as Hi.
  { split; try done. unfold cur_left, remaining. cbn. lia. }
  pose proof (parse_line_spec (length line) (parse_fuel line) c
    ltac:(unfold parse_fuel; lia) Hc _ Hi) as Hp.
  destruct (parse_line _ _ _) as [[o|e|] st]; [|by destruct Hp as (? & ? & ?)|done].
  by destruct Hp as [(? & ? & ?) ?].
Qed.

End Safety.

(** ** Theorems about [parse] *)
Section Theorems.
Context `{PrimAddrs} {B : Type} `{Bus B} `{!BusWidth B} (arch : Arch).

Lemma stmt_ok_mono (A A' : Z -> Prop) s : (forall a, A a -> A' a) -> stmt_ok A s -> stmt_ok A' s.
Proof. intros HA (? & ? & ?). split; auto. Qed.

Lemma wf_comp_mono (A A' : Z -> Prop) c : (forall a, A a -> A' a) -> wf_comp A c -> wf_comp A' c.
Proof.
  intros HA Hc. pose proof (wc_code _ _ Hc) as Hcode. destruct Hc. split; try done.
  intros i Hi. destruct (Hcode i Hi) as (ss & E & Hs). exists ss. split; [done|].
  eapply list.Forall_impl; [exact Hs|]. intros s. by apply stmt_ok_mono.
Qed.

Lemma compiler_new_wf A : wf_comp A compiler_new.
Proof.
  split; try done.
  - apply symbols_new_wf.
  - apply Forall_replicate. unfold u32, M32. cbn. lia.
  - apply Forall_replicate. split; [split; [cbn; lia|done]|constructor|by apply (bool_decide_unpack _)].
  - apply Forall_replicate. done.
  - apply Forall_replicate. unfold FN_BODY_WORDS. lia.
  - intros i Hi. exists []. split; [|constructor]. unfold MAX_FNS in Hi.
    by destruct i as [|[|i]]; [| |lia].
  - intros i j Hi Hj Ha. unfold MAX_FNS in Hi. by destruct i as [|[|i]]; [| |lia].
  - cbn. lia.
Qed.

(** C2. Parsing one line always returns, whatever the bytes, in the fuel
    two units per byte; success or error, it leaves the compiler well formed
    (table, names, bodies and stream within their capacities, every stored
    body compiled code over authorised addresses), and it never changes the
    capability registry or the audit log. *)
Theorem parse_total_and_preserves (A : Z -> Prop) (c : Compiler) (m : Machine B) (line : list Z) :
  wf_comp A c -> wf_registry (m_regs m) ->
  (forall a, check_access arch (m_regs m) a = Ok tt -> A a) ->
  let '(r, (c', m')) := parse arch c m line in
  r <> NoFuel /\ wf_comp A c' /\ m_regs m' = m_regs m /\ m_audit m' = m_audit m.
Proof.
  intros Hc Hr HA. pose proof (parse_spec arch A _ _ Hr HA c m line Hc eq_refl eq_refl) as Hp.
  destruct (parse arch c m line) as [r [c' m']]. destruct Hp as (? & ? & ? & Hm).
  by destruct r.
Qed.

(** The addresses a program compiled from [c] under the registry [R] may name:
    those [check_access] grants now, and those of the functions stored in [c],
    which were checked when they were defined. *)
Definition nameable (R : list Z) (c : Compiler) (a : Z) : Prop :=
  check_access arch R a = Ok tt \/
  exists i ss s, (i < MAX_FNS)%nat /\ fn_body c i = code ss /\ s ∈ ss /\ stmt_addr s = a.

Lemma wf_comp_nameable (A : Z -> Prop) R c : wf_comp A c -> wf_comp (nameable R c) c.
Proof.
  intros Hc. pose proof (wc_code _ _ Hc) as Hcode. destruct Hc. split; try done.
  intros i Hi. destruct (Hcode i Hi) as (ss & E & Hs). exists ss. split; [done|].
  apply list.Forall_forall. intros s Hin. rewrite list.Forall_forall in Hs. destruct (Hs s Hin) as (_ & Ha & Hv).
  split; [|done]. right. by exists i, ss, s.
Qed.

Lemma parse_nameable (A : Z -> Prop) c c' (m m' : Machine B) line o :
  wf_comp A c -> wf_registry (m_regs m) -> parse arch c m line = (ROk o, (c', m')) ->
  outcome_ok arch (nameable (m_regs m) c) (m_regs m) o.
Proof.
  intros Hc Hr E. pose proof (parse_spec arch (nameable (m_regs m) c) _ _ Hr ltac:(by left) c m line
    (wf_comp_nameable A _ c Hc) eq_refl eq_refl) as Hp.
  rewrite E in Hp. apply Hp.
Qed.

(** C3. Capability checks at compile time. When a line compiles, under the
    registry of that moment: a poke, a peek or a bit operation carries an
    address [check_access] grants; a PWM command implies the timer capability
    and an SPI command the SPI one; and every statement of a program names an
    address that is granted now or that a function stored in the compiler
    already names (a function is checked when it is defined and not when it
    is called). The outcomes [flash_test], [spawn], [store], [load] and the
    pool commands carry no check, and a [peek] inside an expression is read
    unchecked while the line is compiled; the theorem promises nothing of
    these. *)
Theorem parse_outcome_authorised (A : Z -> Prop) (c c' : Compiler) (m m' : Machine B)
    (line : list Z) (o : Outcome) :
  wf_comp A c -> wf_registry (m_regs m) ->
  parse arch c m line = (ROk o, (c', m')) ->
  outcome_ok arch (nameable (m_regs m) c) (m_regs m) o.
Proof. apply parse_nameable. Qed.

Lemma prog_ok_runs (A : Z -> Prop) p vm (m : Machine B) :
  prog_ok A p -> length (vm_stack vm) = VM_STACK_SIZE ->
  exists ss vm' m', Forall (stmt_ok A) ss /\
    run_threaded_stream arch MAX_STREAM_WORDS (sp_words p) 0 (vm_reset vm) m = (Halted, vm', m') /\
    m' = snd (run_stmts arch ss ([], m)) /\
    if sp_yields p then ss = [] /\ exists v, u32 v /\ fst (vm_pop vm') = v /\ vm_rep vm' [v]
    else vm_rep vm' (fst (run_stmts arch ss ([], m))).
Proof.
  intros (prog & Hw & _ & Hl & Hp) Hvm. rewrite Hw. unfold copy_prefix. rewrite <- app_assoc. cbn [app].
  rewrite length_app in Hl. cbn [length] in Hl. destruct (sp_yields p).
  - destruct Hp as (v & Hv & ->).
    destruct (dispatch_instrs arch [ILit v] [] (drop (length (encode [ILit v] ++ [word_of halt_prim]))
      (replicate MAX_STREAM_WORDS 0)) MAX_STREAM_WORDS (vm_reset vm) [] m) as (vm' & Hr & E).
    { repeat constructor. } { by apply vm_reset_rep. } { unfold MAX_STREAM_WORDS. cbn. lia. }
    exists [], vm', m. split; [constructor|]. split; [exact E|]. split; [done|]. split; [done|].
    exists v. split; [done|]. split; [by apply (vm_pop_rep vm' [v])|done].
  - destruct Hp as (ss & Hs & ->). pose proof (code_length_instrs ss). pose proof (code_length ss).
    fold (code ss) in *.
    destruct (dispatch_instrs arch (concat (map stmt_instrs ss)) [] (drop (length (code ss ++ [word_of halt_prim]))
      (replicate MAX_STREAM_WORDS 0)) MAX_STREAM_WORDS (vm_reset vm) [] m) as (vm' & Hr & E).
    { apply stmt_instrs_straight. } { by apply vm_reset_rep. } { lia. }
    rewrite exec_stmts in Hr, E by (unfold MAX_STREAM_WORDS, VM_STACK_SIZE in *; cbn; lia).
    exists ss, vm', (snd (run_stmts arch ss ([], m))). done.
Qed.

(** C4. On the threaded engine every program the parser hands over runs to
    its halt word: [run_threaded_stream] never overruns the buffer nor jumps
    to a foreign word, the buffer length is fuel enough, and what it does to
    memory is exactly the run of a list of statements, each of which names an
    address granted now or named by a stored function (none at all for an
    expression, which leaves its value on the stack). The theorem is about
    this engine only: [StreamProgram::run] enters it when the native path
    declines, and native code may store elsewhere. *)
Theorem parsed_program_halts (A : Z -> Prop) (c c' : Compiler) (m m' : Machine B)
    (line : list Z) (p : StreamProgram) (vm : VM) :
  wf_comp A c -> wf_registry (m_regs m) ->
  parse arch c m line = (ROk (ORun p), (c', m')) ->
  length (vm_stack vm) = VM_STACK_SIZE ->
  exists ss vm' m'', Forall (stmt_ok (nameable (m_regs m) c)) ss /\
    run_threaded_stream arch MAX_STREAM_WORDS (sp_words p) 0 (vm_reset vm) m' = (Halted, vm', m'') /\
    m'' = snd (run_stmts arch ss ([], m')) /\
    if sp_yields p then ss = [] /\ exists v, u32 v /\ fst (vm_pop vm') = v /\ vm_rep vm' [v]
    else vm_rep vm' (fst (run_stmts arch ss ([], m'))).
Proof.
  intros Hc Hr E Hvm. apply prog_ok_runs; [|done]. exact (parse_nameable A c c' m m' line _ Hc Hr E).
Qed.

(** ** Export and import *)
Lemma import_wf (A : Z -> Prop) c name words ss :
  wf_comp A c -> ident name -> words = code ss -> Forall (stmt_ok A) ss ->
  wf_comp A (snd (import_fn c name words)).
Proof.
  intros Hc Hid Hw Hs. unfold import_fn. destruct (_ <? _)%nat; [done|]. destruct (Nat.ltb_spec FN_BODY_WORDS (length words)); [done|].
  destruct (from_slice name) as [nb|e] eqn:En; [|done]. apply from_slice_good in En; [|done].
  destruct (alloc_fn_slot c nb) as [idx|e] eqn:Ea; [|done]. cbn [snd]. by eapply store_fn_wf.
Qed.

(** What [export_fn] copies out is the code of the function. *)
Lemma export_code (A : Z -> Prop) c name out count words : wf_comp A c ->
  export_fn c name out = Some (count, words) ->
  exists ss, take count words = code ss /\ Forall (stmt_ok A) ss.
Proof.
  intros Hc E. unfold export_fn in E. destruct (find_fn c name) as [idx|] eqn:Ef; [|done].
  apply List.find_some in Ef as [Hin _]. apply in_seq in Hin.
  destruct (_ <? _)%nat; [done|]. injection E as <- <-.
  destruct (wc_code _ c Hc idx) as (ss & Eb & Hss); [lia|]. exists ss. split; [|done].
  assert (length (fn_body c idx) = aget 0%nat (c_fn_body_lens c) idx) as Hl.
  { unfold fn_body. rewrite length_take. apply Nat.min_l.
    pose proof (proj1 (Forall_lookup _ _) (wc_bodies _ c Hc) idx (aget [] (c_fn_bodies c) idx)) as Hb. cbn beta in Hb.
    rewrite Hb by (apply aget_lookup; rewrite (wc_bodies_len _ c Hc); lia).
    pose proof (proj1 (Forall_lookup _ _) (wc_lens _ c Hc) idx (aget 0%nat (c_fn_body_lens c) idx)) as Hw. cbn beta in Hw.
    apply Hw, aget_lookup. rewrite (wc_lens_len _ c Hc). lia. }
  by rewrite <- Hl, take_copy_prefix.
Qed.

(** ** Sessions

    The compiler over a session: lines parsed one after the other, each under
    whatever well-formed registry and memory the machine has then, functions
    exported to the store, and stored words imported again under any
    identifier, from a store whose words are those exported to it (a store
    that is poked into, or whose slots overlap, is outside this relation).
    The indices list the registries of the lines, the latest first, and the
    words of the store. *)
Inductive session : list (list Z) -> list (list Z) -> Compiler -> Prop :=
| session_boot : session [] [] compiler_new
| session_line hist kept c (m : Machine B) line r c' m' :
    session hist kept c -> wf_registry (m_regs m) -> parse arch c m line = (r, (c', m')) ->
    session (m_regs m :: hist) kept c'
| session_store hist kept c name out count words :
    session hist kept c -> export_fn c name out = Some (count, words) ->
    session hist (take count words :: kept) c
| session_load hist kept c name words :
    session hist kept c -> words ∈ kept -> ident name ->
    session hist kept (snd (import_fn c name words)).

Definition once_granted (hist : list (list Z)) (a : Z) : Prop :=
  exists r, r ∈ hist /\ check_access arch r a = Ok tt.

Lemma once_granted_cons r hist s : stmt_ok (once_granted hist) s -> stmt_ok (once_granted (r :: hist)) s.
Proof. apply stmt_ok_mono. intros a (r0 & Hin & Hg). exists r0. split; [by right|done]. Qed.

(** C5. Over any session of lines, exports and imports the compiler stays well
    formed, and the words it stores for a function are, for every function and
    also for every program in the store, the encoding of statements each of
    which names an address that [check_access] authorised at some line of the
    session. This is about the addresses the code names: which of them the
    native path then accesses is a separate question. *)
Theorem session_functions_once_granted (hist kept : list (list Z)) (c : Compiler) :
  session hist kept c ->
  wf_comp (once_granted hist) c /\
  Forall (fun ws => exists ss, ws = code ss /\ Forall (stmt_ok (once_granted hist)) ss) kept.
Proof.
  induction 1 as [|hist kept c m line r c' m' Hs [IH Hk] Hr E|hist kept c name out count words Hs [IH Hk] E
    |hist kept c name words Hs [IH Hk] Hin Hid].
  - split; [apply compiler_new_wf|constructor].
  - split.
    + assert (wf_comp (once_granted (m_regs m :: hist)) c) as Hc.
      { eapply wf_comp_mono; [|exact IH]. intros a (r0 & Hin & Hg). exists r0. split; [by right|done]. }
      pose proof (parse_spec arch (once_granted (m_regs m :: hist)) _ _ Hr
        ltac:(intros a Ha; exists (m_regs m); split; [left|done]) c m line Hc eq_refl eq_refl) as Hp.
      rewrite E in Hp. apply Hp.
    + eapply list.Forall_impl; [exact Hk|]. intros ws (ss & -> & Hss). exists ss. split; [done|].
      eapply list.Forall_impl; [exact Hss|]. apply once_granted_cons.
  - split; [done|]. constructor; [|done]. by eapply export_code.
  - split; [|done]. rewrite list.Forall_forall in Hk. destruct (Hk words Hin) as (ss & -> & Hss). by eapply import_wf.
Qed.

End Theorems.

(** ** Concrete sessions *)
Definition granted_at_boot (a : Z) : Prop := check_access Arm REGISTRY_INIT a = Ok tt.

Definition demo_parse (c : Compiler) (line : string) := parse Arm c demo_machine (bytes line).

Lemma parse_total_and_preserves_witness :
  let '(r, (c', m')) := demo_parse compiler_new "fn f() { loop 2 { poke 0x20000000 1 + 2; } }" in
  r <> NoFuel /\ wf_comp granted_at_boot c' /\
  m_regs m' = m_regs demo_machine /\ m_audit m' = m_audit demo_machine.
Proof.
  apply (parse_total_and_preserves Arm granted_at_boot compiler_new demo_machine).
  - apply compiler_new_wf.
  - apply registry_init_wf.
  - done.
Defined.

Lemma parse_outcome_authorised_witness :
  outcome_ok Arm (nameable Arm REGISTRY_INIT compiler_new) REGISTRY_INIT (OEnforcedPoke 0x20000000 7).
Proof.
  refine (parse_outcome_authorised Arm granted_at_boot compiler_new _ demo_machine _
    (bytes "poke 0x20000000 3 + 4;") (OEnforcedPoke 0x20000000 7) _ _ _).
  - apply compiler_new_wf.
  - apply registry_init_wf.
  - vm_compute. reflexivity.
Defined.

Lemma parsed_program_halts_witness :
  exists p c' m' ss vm' m'',
    parse Arm compiler_new demo_machine (bytes "loop 3 { poke 0x20000000 5; }") = (ROk (ORun p), (c', m')) /\
    Forall (stmt_ok (nameable Arm REGISTRY_INIT compiler_new)) ss /\
    run_threaded_stream Arm MAX_STREAM_WORDS (sp_words p) 0 (vm_reset vm_new) m' = (Halted, vm', m'').
Proof.
  destruct (parse Arm compiler_new demo_machine (bytes "loop 3 { poke 0x20000000 5; }"))
    as [r [c' m']] eqn:E.
  assert (exists p, r = ROk (ORun p)) as [p ->].
  { revert E. vm_compute. intros [= <- _ _]. eexists. reflexivity. }
  destruct (parsed_program_halts Arm granted_at_boot compiler_new c' demo_machine m'
    (bytes "loop 3 { poke 0x20000000 5; }") p vm_new) as (ss & vm' & m'' & Hs & Hrun & _).
  - apply compiler_new_wf.
  - apply registry_init_wf.
  - exact E.
  - reflexivity.
  - exists p, c', m', ss, vm', m''. exact (conj eq_refl (conj Hs Hrun)).
Defined.

(** A function is defined, exported, and imported again as [g]. *)
Lemma session_functions_once_granted_witness :
  exists r c' m' count words,
    parse Arm compiler_new demo_machine (bytes "fn f() { peek 0x20000000; }") = (r, (c', m')) /\
    export_fn c' (bytes "f") (replicate MAX_STREAM_WORDS 0) = Some (count, words) /\
    fst (import_fn c' (bytes "g") (take count words)) = Ok tt /\
    wf_comp (once_granted Arm [REGISTRY_INIT]) (snd (import_fn c' (bytes "g") (take count words))).
Proof.
  destruct (parse Arm compiler_new demo_machine (bytes "fn f() { peek 0x20000000; }"))
    as [r [c' m']] eqn:E.
  destruct (export_fn c' (bytes "f") (replicate MAX_STREAM_WORDS 0)) as [[count words]|] eqn:Ex.
  2: { exfalso. revert Ex. revert E. vm_compute. intros [= _ <- _]. vm_compute. discriminate. }
  exists r, c', m', count, words. split; [reflexivity|]. split; [exact Ex|]. split.
  { revert Ex. revert E. vm_compute. intros [= _ <- _]. vm_compute. intros [= <- <-]. reflexivity. }
  apply (session_functions_once_granted (B := gmap Z Z) Arm _ [take count words]).
  apply session_load; [|left|by apply (bool_decide_unpack _)].
  apply (session_store Arm _ _ c' (bytes "f") (replicate MAX_STREAM_WORDS 0)); [|exact Ex].
  refine (session_line Arm [] [] compiler_new demo_machine _ r c' m' (session_boot Arm) _ E).
  apply registry_init_wf.
Defined.

(** A [peek] inside an expression is not gated: at boot, with no capability
    claimed, [let x = peek 0x40020000;] reads the GPIO port and binds what it
    holds, whatever the memory, while [check_access] refuses that address and
    the [peek] command on it is a capability violation. *)
Theorem peek_term_unchecked (b : gmap Z Z) :
  check_access Arm REGISTRY_INIT 0x40020000 = Err GpioA /\
  fst (parse Arm compiler_new (boot_machine b) (bytes "peek 0x40020000;")) = RErr CapViolation /\
  fst (parse Arm compiler_new (boot_machine b) (bytes "let x = peek 0x40020000;")) =
    ROk (OBound {| nb_len := 1; nb_bytes := ch "x" :: replicate 15 0 |} (fst (bus_read 0x40020000 b))).
Proof. split; [reflexivity|]. split; vm_compute; reflexivity. Qed.

(** Authority is checked when a function is defined, not when it runs: with
    GPIO A claimed, [fn f()] over its port compiles; after the capability is
    released, [check_access] refuses the port but calling [f()] still yields a
    program, and running it still writes the port. *)
Theorem fn_outlives_capability :
  let held := {| m_regs := snd (acquire REGISTRY_INIT 0); m_audit := audit_new; m_bus := ∅ |} in
  let dropped := {| m_regs := release (m_regs held) 0; m_audit := audit_new; m_bus := ∅ |} in
  let c := fst (snd (parse Arm compiler_new held (bytes "fn f() { poke 0x40020014 1; }"))) in
  check_access Arm (m_regs dropped) 0x40020014 = Err GpioA /\
  exists p vm',
    fst (parse Arm c dropped (bytes "f();")) = ROk (ORun p) /\
    run_threaded_stream Arm MAX_STREAM_WORDS (sp_words p) 0 (vm_reset vm_new) dropped =
      (Halted, vm', poke_u32 Arm 0x40020014 1 dropped).
Proof.
  cbv zeta. split; [vm_compute; reflexivity|]. eexists _, _.
  split; [vm_compute; reflexivity|vm_compute; reflexivity].
Qed.
