(* ===== verification/ParserSem.v ===== *)
(** * ParserSem: what expressions and bindings mean (src/compiler/parser.rs)

    An abstract syntax of expressions, its tokens, and its meaning: operators
    apply strictly from left to right with no precedence, on wrapping 32-bit
    words, and memory is read in that order. The recursive descent of the
    parser computes exactly this meaning on the tokens of an expression. *)
From S2P Require Import Prelude Registry AuditRing Memory Lexer SymTab Exec Parser ParserSafe.
Local Open Scope Z_scope.
Local Open Scope u32_scope.

(** ** Syntax *)
Inductive Term :=
| TLit (v : Z)
| TVar (id : list Z)
| TPeek (t : Term)
| TParen (h : Term) (ops : Ops)
with Ops :=
| ONil
| OCons (op : Z) (t : Term) (ops : Ops).

Scheme Term_mind := Induction for Term Sort Prop
with Ops_mind := Induction for Ops Sort Prop.
Combined Scheme Term_Ops_ind from Term_mind, Ops_mind.

Fixpoint toks (t : Term) : list Token :=
  match t with
  | TLit v => [Literal v]
  | TVar id => [Identifier id]
  | TPeek t => Identifier (bytes "peek") :: toks t
  | TParen h ops => LParen :: toks h ++ toks_ops ops ++ [RParen]
  end
with toks_ops (ops : Ops) : list Token :=
  match ops with
  | ONil => []
  | OCons op t ops => Operator op :: toks t ++ toks_ops ops
  end.

(** Variables are not the [peek] keyword; operators are [+ - * / %]. *)
Fixpoint wf_term (t : Term) : Prop :=
  match t with
  | TLit _ => True
  | TVar id => id <> bytes "peek"
  | TPeek t => wf_term t
  | TParen h ops => wf_term h /\ wf_ops ops
  end
with wf_ops (ops : Ops) : Prop :=
  match ops with
  | ONil => True
  | OCons op t ops => is_arith op = true /\ wf_term t /\ wf_ops ops
  end.

(** The height of the recursion on a term. *)
Fixpoint tsize (t : Term) : nat :=
  match t with
  | TLit _ | TVar _ => 1
  | TPeek t => 2 + tsize t
  | TParen h ops => 1 + tsize h + osize ops
  end
with osize (ops : Ops) : nat :=
  match ops with
  | ONil => 1
  | OCons _ t ops => 1 + tsize t + osize ops
  end.

Lemma tsize_toks :
  (forall t, (tsize t <= 2 * length (toks t))%nat) /\
  (forall ops, (osize ops <= 2 * length (toks_ops ops) + 1)%nat).
Proof.
  apply Term_Ops_ind; cbn [tsize osize toks toks_ops length]; intros;
    rewrite ?length_app; cbn [length]; lia.
Qed.

Lemma toks_no_eof :
  (forall t, Eof ∉ toks t) /\ (forall ops, Eof ∉ toks_ops ops).
Proof.
  apply Term_Ops_ind; cbn [toks toks_ops]; intros; set_solver.
Qed.

(** ** Cursors that deliver given tokens *)
Fixpoint serves (c : Cur) (ts : list Token) : Prop :=
  match ts with
  | [] => True
  | t :: ts' => exists c', Cur_next c = (t, c') /\ serves c' ts'
  end.

Lemma Cur_peek_next c t c' : Cur_next c = (t, c') ->
  exists c1, Cur_peek c = (t, c1) /\ Cur_next c1 = (t, c').
Proof.
  unfold Cur_next, Cur_peek. destruct (cu_ahead c) as [t0|] eqn:E.
  - intros. simplify_eq. exists c. by rewrite E.
  - destruct (next_token (cu_lx c)) as [t0 lx]. intros. simplify_eq. eexists. split; done.
Qed.

Lemma lex_all_serves fuel lx ts :
  lex_all fuel lx = Some ts -> serves {| cu_lx := lx; cu_ahead := None |} (ts ++ [Eof]).
Proof.
  revert lx ts. induction fuel as [|f IH]; intros lx ts; cbn [lex_all]; [done|].
  destruct (next_token lx) as [t lx'] eqn:E.
  assert (Cur_next {| cu_lx := lx; cu_ahead := None |} = (t, {| cu_lx := lx'; cu_ahead := None |})) as En.
  { unfold Cur_next. cbn. by rewrite E. }
  destruct (decide (t = Eof)) as [->|Hne].
  - intros. simplify_eq. cbn. eauto.
  - destruct (lex_all f lx') as [ts'|] eqn:E2; intros Hs.
    + assert (ts = t :: ts') as -> by (destruct t; simplify_eq; done).
      cbn. eexists. split; [exact En|by apply IH].
    + by destruct t.
Qed.

Lemma lex_all_length fuel lx ts :
  lex_all fuel lx = Some ts -> (length ts <= remaining lx)%nat.
Proof.
  revert lx ts. induction fuel as [|f IH]; intros lx ts; cbn [lex_all]; [done|].
  destruct (next_token lx) as [t lx'] eqn:E. apply next_token_progress in E as (_ & _ & Hlt).
  destruct (decide (t = Eof)) as [->|Hne]; [intros; simplify_eq; cbn; lia|].
  specialize (Hlt Hne). destruct (lex_all f lx') as [ts'|] eqn:E2.
  - apply IH in E2. intros Hs. destruct t; simplify_eq; cbn; lia.
  - by destruct t.
Qed.

(** What an operator means on 32-bit words: arithmetic modulo 2^32, unsigned
    division and remainder, a zero divisor an error. *)
Definition op_meaning (op a b : Z) : Result Z ParseError :=
  match List.find (fun e => fst e =? op)
          [(43, (a + b) mod M32); (45, (a - b) mod M32); (42, (a * b) mod M32)] with
  | Some (_, v) => Ok v
  | None => if b =? 0 then Err DivByZero else Ok (if op =? 47 then a / b else a mod b)
  end.

Lemma apply_op_meaning op a b : apply_op op a b = op_meaning op a b.
Proof.
  unfold apply_op, op_meaning. change (ch "+") with 43. change (ch "-") with 45.
  change (ch "*") with 42. change (ch "/") with 47. cbn [List.find fst].
  rewrite !(Z.eqb_sym _ op). destruct (op =? 43), (op =? 45), (op =? 42), (op =? 47), (b =? 0); done.
Qed.

Section Meaning.
Context {B : Type} `{Bus B} (arch : Arch).

(** ** Meaning: value or error, and the machine after the reads *)
Fixpoint den (env : list Z -> option Z) (t : Term) (m : Machine B) : Result Z ParseError * Machine B :=
  match t with
  | TLit v => (Ok v, m)
  | TVar id => (match env id with Some v => Ok v | None => Err UnknownSymbol end, m)
  | TPeek t =>
      match den env t m with
      | (Ok addr, m1) => let (v, m2) := peek_u32 arch addr m1 in (Ok v, m2)
      | (Err e, m1) => (Err e, m1)
      end
  | TParen h ops =>
      match den env h m with
      | (Ok v, m1) => den_ops env v ops m1
      | (Err e, m1) => (Err e, m1)
      end
  end
with den_ops (env : list Z -> option Z) (acc : Z) (ops : Ops) (m : Machine B)
  : Result Z ParseError * Machine B :=
  match ops with
  | ONil => (Ok acc, m)
  | OCons op t ops =>
      match den env t m with
      | (Ok rhs, m1) =>
          match op_meaning op acc rhs with
          | Ok acc' => den_ops env acc' ops m1
          | Err e => (Err e, m1)
          end
      | (Err e, m1) => (Err e, m1)
      end
  end.

Lemma den_ext env env' : (forall id, env id = env' id) ->
  (forall t m, den env t m = den env' t m) /\
  (forall ops acc m, den_ops env acc ops m = den_ops env' acc ops m).
Proof.
  intros He. apply Term_Ops_ind; cbn [den den_ops]; intros; rewrite ?He; try done.
  - by rewrite H0.
  - rewrite H0. destruct (den env' h m) as [[v|e] m1]; [apply H1|done].
  - rewrite H0. destruct (den env' t m) as [[v|e] m1]; [|done].
    destruct (op_meaning op acc v); [apply H1|done].
Qed.

(** [meets p st d rest]: run from [st], the parser [p] ends as the meaning [d]
    says, with the same compiler and the tokens [rest] left on success. *)
Definition meets (p : Parser B Z) (st : PS B) (d : Result Z ParseError * Machine B)
    (rest : list Token) : Prop :=
  match d with
  | (Ok v, m') => exists cu, serves cu rest /\
      p st = (ROk v, {| ps_comp := ps_comp st; ps_cur := cu; ps_mach := m' |})
  | (Err e, m') => exists cu, p st = (RErr e, {| ps_comp := ps_comp st; ps_cur := cu; ps_mach := m' |})
  end.

(** [next], then the rest of the computation. *)
Lemma meets_next (k : Token -> Parser B Z) st t ts d rest :
  serves (ps_cur st) (t :: ts) ->
  (forall cu, serves cu ts ->
     meets (k t) {| ps_comp := ps_comp st; ps_cur := cu; ps_mach := ps_mach st |} d rest) ->
  meets (next ≫= k) st d rest.
Proof.
  intros (cu & E & Hs) Hk. specialize (Hk cu Hs). unfold mbind, parser_bind, next, meets in *.
  rewrite E. exact Hk.
Qed.

Lemma meets_eq (p q : Parser B Z) st st' d rest :
  p st = q st' -> ps_comp st = ps_comp st' -> meets p st d rest -> meets q st' d rest.
Proof. unfold meets. intros -> ->. done. Qed.

(** A first computation that meets [d], then the rest. *)
Lemma meets_bind (p : Parser B Z) (k : Z -> Parser B Z) st d rest d' rest' :
  meets p st d rest ->
  match d with
  | (Ok v, m') => forall cu, serves cu rest ->
      meets (k v) {| ps_comp := ps_comp st; ps_cur := cu; ps_mach := m' |} d' rest'
  | (Err e, m') => d' = (Err e, m')
  end ->
  meets (p ≫= k) st d' rest'.
Proof.
  unfold mbind, parser_bind, meets. destruct d as [[v|e] m'].
  - intros (cu & Hs & E) Hk. specialize (Hk cu Hs). rewrite E. exact Hk.
  - intros (cu & E) ->. rewrite E. eauto.
Qed.

(** The token after an expression does not continue it. *)
Definition ends_expr (rest : list Token) : Prop :=
  match rest with
  | Operator op :: _ => is_arith op = false
  | [] => False
  | _ => True
  end.

Lemma eval_ops_end f acc st rest :
  ends_expr rest -> serves (ps_cur st) rest ->
  meets (eval_ops arch (S f) acc) st (Ok acc, ps_mach st) rest.
Proof.
  intros He Hs. destruct rest as [|t rest]; [done|]. destruct Hs as (cu & En & Hs).
  destruct (Cur_peek_next _ _ _ En) as (cu1 & Ep & En1).
  assert (serves cu1 (t :: rest)) as Hs1 by (exists cu; done).
  exists cu1. split; [exact Hs1|]. cbn [eval_ops]. unfold mbind, parser_bind, peek. rewrite Ep.
  destruct t; try done. cbn [ends_expr] in He. by rewrite He.
Qed.

Lemma eval_ops_cons f acc st op ts d rest :
  is_arith op = true -> serves (ps_cur st) (Operator op :: ts) ->
  (forall cu, serves cu ts ->
     meets (rhs_tok ← next;
            rhs ← paren_or (eval_expr arch f None) (resolve_term arch f) rhs_tok;
            acc' ← lift (apply_op op acc rhs);
            eval_ops arch f acc')
       {| ps_comp := ps_comp st; ps_cur := cu; ps_mach := ps_mach st |} d rest) ->
  meets (eval_ops arch (S f) acc) st d rest.
Proof.
  intros Ha (cu & En & Hs) Hk. specialize (Hk cu Hs).
  destruct (Cur_peek_next _ _ _ En) as (cu1 & Ep & En1). revert Hk. apply meets_eq; [|done].
  symmetry. cbn [eval_ops]. unfold mbind at 1, parser_bind at 1, peek at 1. rewrite Ep. cbv beta iota.
  rewrite Ha. cbn [negb]. unfold mbind at 1, parser_bind at 1, next at 1. cbn [ps_cur].
  rewrite En1. reflexivity.
Qed.

(** The operand position: the next token, then a parenthesis or a term. *)
Definition operand (f : nat) : Parser B Z :=
  tok ← next; paren_or (eval_expr arch f None) (resolve_term arch f) tok.

Lemma operand_bind f (k : Z -> Parser B Z) st d rest :
  meets (v ← operand f; k v) st d rest ->
  meets (tok ← next; v ← paren_or (eval_expr arch f None) (resolve_term arch f) tok; k v) st d rest.
Proof.
  apply meets_eq; [|done]. unfold operand, mbind, parser_bind.
  by destruct (next st) as [[t|e|] st'].
Qed.

(** [eval_expr] is an operand followed by the operator loop. *)
Lemma eval_expr_operand f st : eval_expr arch (S f) None st = (v ← operand f; eval_ops arch f v) st.
Proof.
  cbn [eval_expr]. unfold operand, mbind, parser_bind.
  by destruct (next st) as [[t|e|] st'].
Qed.

Definition term_meets (t : Term) : Prop := forall f st rest,
  wf_term t -> (tsize t <= f)%nat -> serves (ps_cur st) (toks t ++ rest) ->
  meets (operand f) st (den (lookup_symbol (c_symbols (ps_comp st))) t (ps_mach st)) rest.

Definition ops_meet (ops : Ops) : Prop := forall f acc st rest,
  wf_ops ops -> (osize ops <= f)%nat -> ends_expr rest ->
  serves (ps_cur st) (toks_ops ops ++ rest) ->
  meets (eval_ops arch f acc) st (den_ops (lookup_symbol (c_symbols (ps_comp st))) acc ops (ps_mach st)) rest.

(** An expression is a head and its operators. *)
Lemma expr_meets h ops f st rest :
  term_meets h -> ops_meet ops -> wf_term h -> wf_ops ops -> (tsize h + osize ops < f)%nat ->
  ends_expr rest -> serves (ps_cur st) (toks h ++ toks_ops ops ++ rest) ->
  meets (eval_expr arch f None) st (den (lookup_symbol (c_symbols (ps_comp st))) (TParen h ops) (ps_mach st)) rest.
Proof.
  intros Hh Ho Wh Wo Hf He Hs. destruct f as [|f]; [lia|].
  eapply (meets_eq (v ← operand f; eval_ops arch f v)); [symmetry; apply eval_expr_operand|done|].
  eapply meets_bind; [apply (Hh f st _ Wh); [lia|exact Hs]|]. cbn [den].
  destruct (den (lookup_symbol (c_symbols (ps_comp st))) h (ps_mach st)) as [[v|e] m1]; [|done].
  intros cu Hcu. apply (Ho f v {| ps_comp := ps_comp st; ps_cur := cu; ps_mach := m1 |}); [done|lia|done..].
Qed.

Lemma meets_term :
  (forall t, term_meets t) /\ (forall ops, ops_meet ops).
Proof.
  apply Term_Ops_ind.
  - intros v f st rest _ Hf Hs. apply (meets_next _ _ _ _ _ _ Hs). intros cu Hcu.
    destruct f; [cbn in Hf; lia|]. exists cu. done.
  - intros id f st rest Hid Hf Hs. apply (meets_next _ _ _ _ _ _ Hs). intros cu Hcu.
    destruct f; [cbn in Hf; lia|]. cbn [paren_or resolve_term]. rewrite bool_decide_false by exact Hid.
    cbn [den]. unfold meets, mbind, parser_bind, get_comp. cbn [ps_comp].
    destruct (lookup_symbol _ id) as [v|]; exists cu; [split|]; done.
  - intros t IH f st rest Hw Hf Hs. cbn [toks app] in Hs. apply (meets_next _ _ _ _ _ _ Hs).
    intros cu Hcu. cbn [tsize] in Hf. destruct f as [|[|f]]; [lia..|].
    cbn [paren_or]. cbn [resolve_term]. rewrite bool_decide_true by done. cbn [parse_atomic_term].
    eapply (meets_bind (operand f)).
    + apply (IH f _ rest); [done|lia|exact Hcu].
    + cbn [den ps_comp ps_mach]. destruct (den _ t _) as [[addr|e] m1]; [|done].
      intros cu2 Hcu2. unfold meets, peek_mem. cbn [ps_mach ps_comp ps_cur].
      destruct (peek_u32 arch addr m1) as [v m2]. exists cu2. done.
  - intros h IHh ops IHo f st rest [Wh Wo] Hf Hs. cbn [toks app] in Hs.
    apply (meets_next _ _ _ _ _ _ Hs). intros cu Hcu. cbn [tsize] in Hf. cbn [paren_or].
    rewrite <- !app_assoc in Hcu. cbn [app] in Hcu.
    eapply meets_bind.
    + apply (expr_meets h ops f _ (RParen :: rest)); [done..|lia|done|exact Hcu].
    + cbn [ps_comp ps_mach]. destruct (den _ (TParen h ops) _) as [[v|e] m1]; [|done].
      intros cu2 Hcu2. eapply meets_next; [exact Hcu2|]. intros cu3 Hcu3. exists cu3. done.
  - intros f acc st rest _ Hf He Hs. cbn [osize] in Hf. destruct f; [lia|]. by apply eval_ops_end.
  - intros op t IHt ops IHo f acc st rest (Ha & Wt & Wo) Hf He Hs. cbn [osize] in Hf.
    destruct f as [|f]; [lia|]. cbn [toks_ops app] in Hs. apply (eval_ops_cons _ _ _ _ _ _ _ Ha Hs).
    intros cu Hcu. rewrite <- app_assoc in Hcu.
    apply (operand_bind f (fun rhs => acc' ← lift (apply_op op acc rhs); eval_ops arch f acc')).
    eapply meets_bind; [apply (IHt f _ _ Wt); [lia|exact Hcu]|]. cbn [den_ops ps_comp ps_mach].
    destruct (den _ t _) as [[rhs|e] m1]; [|done]. intros cu2 Hcu2.
    rewrite apply_op_meaning.
    destruct (op_meaning op acc rhs) as [acc'|e]; [|by exists cu2].
    eapply (meets_eq (eval_ops arch f acc')); [done|done|].
    apply (IHo f acc' {| ps_comp := ps_comp st; ps_cur := cu2; ps_mach := m1 |}); [done|lia|done..].
Qed.

(** ** Lines *)
Lemma run_next {X} (k : Token -> Parser B X) st t ts :
  serves (ps_cur st) (t :: ts) ->
  exists cu, serves cu ts /\
    (next ≫= k) st = k t {| ps_comp := ps_comp st; ps_cur := cu; ps_mach := ps_mach st |}.
Proof.
  intros (cu & E & Hs). exists cu. split; [done|]. unfold mbind, parser_bind, next. by rewrite E.
Qed.

Lemma run_meets {X} (p : Parser B Z) (k : Z -> Parser B X) st d rest :
  meets p st d rest ->
  match d with
  | (Ok v, m') => exists cu, serves cu rest /\
      (p ≫= k) st = k v {| ps_comp := ps_comp st; ps_cur := cu; ps_mach := m' |}
  | (Err e, m') => exists cu,
      (p ≫= k) st = (RErr e, {| ps_comp := ps_comp st; ps_cur := cu; ps_mach := m' |})
  end.
Proof.
  unfold meets. destruct d as [[v|e] m'].
  - intros (cu & Hs & E). exists cu. split; [done|]. unfold mbind, parser_bind. by rewrite E.
  - intros (cu & E). exists cu. unfold mbind, parser_bind. by rewrite E.
Qed.

Lemma run_semicolon {X} (k : unit -> Parser B X) st ts :
  serves (ps_cur st) (Semicolon :: ts) ->
  exists cu, (expect_semicolon ≫= k) st =
    k tt {| ps_comp := ps_comp st; ps_cur := cu; ps_mach := ps_mach st |}.
Proof.
  intros (cu & E & Hs). exists cu. unfold expect_semicolon, mbind, parser_bind, next. by rewrite E.
Qed.

Lemma run_expect {X} tok (k : unit -> Parser B X) st ts :
  serves (ps_cur st) (tok :: ts) ->
  exists cu, serves cu ts /\ (expect_tok tok ≫= k) st =
    k tt {| ps_comp := ps_comp st; ps_cur := cu; ps_mach := ps_mach st |}.
Proof.
  intros (cu & E & Hs). exists cu. split; [done|]. unfold expect_tok, mbind, parser_bind, next.
  rewrite E. cbv beta iota. by rewrite bool_decide_true by done.
Qed.

Lemma run_lift {X Y} (r : Result X ParseError) (k : X -> Parser B Y) st :
  (lift r ≫= k) st = match r with Ok a => k a st | Err e => (RErr e, st) end.
Proof. by destruct r. Qed.

(** Enough fuel for an expression that is part of a line of [n] tokens. *)
Lemma expr_fuel h ops n :
  (length (toks h ++ toks_ops ops) <= n)%nat -> (tsize h + osize ops < 2 * n + 8)%nat.
Proof.
  rewrite length_app. pose proof (proj1 tsize_toks h). pose proof (proj2 tsize_toks ops). lia.
Qed.

Lemma lex_line line ts :
  lex_all (S (length line)) (lexer_new line) = Some ts ->
  serves (cur_new line) (ts ++ [Eof]) /\ (length ts <= length line)%nat.
Proof.
  intros E. split; [by apply lex_all_serves in E|]. apply lex_all_length in E.
  unfold remaining in E. cbn in E. lia.
Qed.

Context `{PrimAddrs}.

Lemma let_line c m line x h ops :
  lex_all (S (length line)) (lexer_new line) =
    Some ([KwLet; Identifier x; Operator (ch "=")] ++ (toks h ++ toks_ops ops) ++ [Semicolon]) ->
  wf_term h -> wf_ops ops -> (length x <= NAME_MAX)%nat ->
  exists nb, as_slice nb = x /\ wf_name nb /\
  match den (lookup_symbol (c_symbols c)) (TParen h ops) m with
  | (Ok v, m') =>
      parse arch c m line =
      match insert_symbol (c_symbols c) nb v with
      | Ok syms => (ROk (OBound nb v), (set_symbols syms c, m'))
      | Err e => (RErr e, (c, m'))
      end
  | (Err e, m') => parse arch c m line = (RErr e, (c, m'))
  end.
Proof.
  intros Hlex Wh Wo Hx. destruct (from_slice_ok x Hx) as (nb & Enb & Wnb & Hnb).
  exists nb. split; [done|]. split; [done|].
  apply lex_line in Hlex as [Hs Hl]. rewrite !length_app in Hl. cbn [length] in Hl.
  cbn [app] in Hs. rewrite <- !app_assoc in Hs. unfold parse, parse_line.
  edestruct (run_next (X := Outcome)) as (cu1 & Hs1 & ->); [exact Hs|].
  cbv beta iota. unfold parse_let. edestruct (run_next (X := Outcome)) as (cu2 & Hs2 & ->); [exact Hs1|].
  cbv beta iota. rewrite run_lift, Enb. cbn [ps_comp ps_mach].
  edestruct (run_expect (X := Outcome)) as (cu3 & Hs3 & ->); [exact Hs2|]. cbn [ps_comp ps_mach].
  pose proof (expr_meets h ops (parse_fuel line) {| ps_comp := c; ps_cur := cu3; ps_mach := m |}
    [Semicolon; Eof] (proj1 meets_term h) (proj2 meets_term ops) Wh Wo ltac:(apply expr_fuel; rewrite length_app; lia)
    Logic.I Hs3) as Hm.
  cbn [ps_comp ps_mach] in Hm.
  destruct (den (lookup_symbol (c_symbols c)) (TParen h ops) m) as [[v|e] m']; apply (run_meets (X := Outcome) _
    (fun value => expect_semicolon ;; c ← get_comp; syms ← lift (insert_symbol (c_symbols c) nb value);
      put_comp (set_symbols syms c) ;; mret (OBound nb value))) in Hm.
  - destruct Hm as (cu4 & Hs4 & ->). edestruct (run_semicolon (X := Outcome)) as (cu5 & ->); [exact Hs4|].
    cbn [ps_comp ps_mach]. unfold mbind at 1, parser_bind at 1, get_comp. cbn [ps_comp].
    rewrite run_lift. by destruct (insert_symbol _ nb v).
  - destruct Hm as (cu4 & ->). done.
Qed.

(** Commands that take a name. *)
Lemma named_line c m line kw k x nb :
  lex_all (S (length line)) (lexer_new line) = Some [Identifier (bytes kw); Identifier x; Semicolon] ->
  In (kw, k) [("cap_claim"%string, OClaim); ("cap_drop"%string, ODrop); ("store"%string, OStore); ("load"%string, OLoad);
              ("spawn"%string, OSpawn)] ->
  from_slice x = Ok nb -> parse arch c m line = (ROk (k nb), (c, m)).
Proof.
  intros Hlex Hk Enb.
  apply lex_line in Hlex as [Hs _]. cbn [app] in Hs. unfold parse, parse_line.
  edestruct (run_next (X := Outcome)) as (cu1 & Hs1 & ->); [exact Hs|]. cbv beta iota.
  assert (parse_command arch (parse_fuel line) (bytes kw) = named_command (B := B) k) as ->.
  { repeat destruct Hk as [Hk|Hk]; [injection Hk as <- <-; unfold parse_command; cbv zeta..|done];
      repeat (rewrite bool_decide_false by done); by rewrite bool_decide_true by done. }
  unfold named_command, expect_name. cbn [ps_comp ps_mach].
  destruct Hs1 as (cu2 & E2 & cu3 & E3 & _). unfold mbind, parser_bind, next, expect_semicolon. cbn [ps_cur ps_comp ps_mach].
  rewrite E2. unfold lift. rewrite Enb. unfold mbind, parser_bind, next. cbn [ps_cur ps_comp ps_mach]. by rewrite E3.
Qed.

Lemma poke_line c m line t h ops :
  lex_all (S (length line)) (lexer_new line) =
    Some (Identifier (bytes "poke") :: toks t ++ (toks h ++ toks_ops ops) ++ [Semicolon]) ->
  wf_term t -> wf_term h -> wf_ops ops ->
  parse arch c m line =
  match den (lookup_symbol (c_symbols c)) t m with
  | (Ok a, m1) =>
      match den (lookup_symbol (c_symbols c)) (TParen h ops) m1 with
      | (Ok v, m2) =>
          match check_access arch (m_regs m2) a with
          | Ok _ => (ROk (OEnforcedPoke a v), (c, m2))
          | Err _ => (RErr CapViolation, (c, m2))
          end
      | (Err e, m2) => (RErr e, (c, m2))
      end
  | (Err e, m1) => (RErr e, (c, m1))
  end.
Proof.
  intros Hlex Wt Wh Wo. apply lex_line in Hlex as [Hs Hl]. cbn [length] in Hl.
  rewrite !length_app in Hl. cbn [app] in Hs. rewrite <- !app_assoc in Hs. unfold parse, parse_line.
  edestruct (run_next (X := Outcome)) as (cu1 & Hs1 & ->); [exact Hs|]. cbv beta iota.
  unfold parse_command. cbv zeta. rewrite bool_decide_false by done. rewrite bool_decide_true by done.
  destruct (parse_fuel line) as [|f] eqn:Ef; [unfold parse_fuel in Ef; lia|]. cbn [ps_comp ps_mach].
  assert (tsize t <= f)%nat as Hf by (pose proof (proj1 tsize_toks t); unfold parse_fuel in Ef; lia).
  pose proof (proj1 meets_term t f {| ps_comp := c; ps_cur := cu1; ps_mach := m |} _ Wt Hf Hs1) as Hm.
  cbn [ps_comp ps_mach] in Hm. change (operand f) with (parse_atomic_term arch (S f)) in Hm.
  destruct (den (lookup_symbol (c_symbols c)) t m) as [[a|e] m1]; apply (run_meets (X := Outcome) _
    (fun addr => val ← eval_expr arch (S f) None; expect_semicolon ;; require_access arch addr ;;
      mret (OEnforcedPoke addr val))) in Hm; [|by destruct Hm as (cu4 & ->)].
  destruct Hm as (cu2 & Hs2 & ->). cbn [ps_comp ps_mach].
  pose proof (expr_meets h ops (S f) {| ps_comp := c; ps_cur := cu2; ps_mach := m1 |}
    [Semicolon; Eof] (proj1 meets_term h) (proj2 meets_term ops) Wh Wo
    ltac:(rewrite <- Ef; apply expr_fuel; rewrite length_app; lia) Logic.I Hs2) as Hm.
  cbn [ps_comp ps_mach] in Hm.
  destruct (den (lookup_symbol (c_symbols c)) (TParen h ops) m1) as [[v|e] m2]; apply (run_meets (X := Outcome) _
    (fun val => expect_semicolon ;; require_access arch a ;; mret (OEnforcedPoke a val))) in Hm;
    [|by destruct Hm as (cu4 & ->)].
  destruct Hm as (cu3 & Hs3 & ->). edestruct (run_semicolon (X := Outcome)) as (cu5 & ->); [exact Hs3|].
  unfold mbind, parser_bind, require_access. cbn [ps_comp ps_mach].
  by destruct (check_access _ _ _).
Qed.

(** The bindings in force. *)
Definition env_of (c : Compiler) (id : list Z) : option Z := sym_map (c_symbols c) !! id.

Lemma den_env c t m :
  wf_symtab (c_symbols c) -> den (lookup_symbol (c_symbols c)) t m = den (env_of c) t m.
Proof. intros Hwf. apply den_ext. intros id. by apply lookup_symbol_map. Qed.

(** C7. [let x = e;] means what it says: on any line whose tokens are a binding of
    an expression, the parser evaluates the expression from left to right
    (no precedence, wrapping arithmetic, reads of memory in order) under the
    bindings in force, and binds the name to the result, every other binding
    unchanged; a division by zero or an unknown name is that error, a full
    table is [SymbolTableFull], and in both cases no binding changes. *)
Theorem let_correct (c : Compiler) (m : Machine B) (line x : list Z) (h : Term) (ops : Ops) :
  lex_all (S (length line)) (lexer_new line) =
    Some ([KwLet; Identifier x; Operator (ch "=")] ++ (toks h ++ toks_ops ops) ++ [Semicolon]) ->
  wf_term h -> wf_ops ops -> (length x <= NAME_MAX)%nat -> wf_symtab (c_symbols c) ->
  match den (env_of c) (TParen h ops) m with
  | (Ok v, m') =>
      (exists nb c', as_slice nb = x /\ parse arch c m line = (ROk (OBound nb v), (c', m')) /\
         sym_map (c_symbols c') = <[x := v]> (sym_map (c_symbols c))) \/
      (size (sym_map (c_symbols c)) = SYMBOL_SLOTS /\ env_of c x = None /\
         parse arch c m line = (RErr SymbolTableFull, (c, m')))
  | (Err e, m') => parse arch c m line = (RErr e, (c, m'))
  end.
Proof.
  intros Hlex Wh Wo Hx Hwf. destruct (let_line c m line x h ops Hlex Wh Wo Hx) as (nb & Hnb & Wnb & Hl).
  rewrite den_env in Hl by done. destruct (den (env_of c) (TParen h ops) m) as [[v|e] m']; [|done].
  pose proof (insert_symbol_map (c_symbols c) nb v Hwf Wnb) as Hi. rewrite Hnb in Hi.
  destruct (insert_symbol (c_symbols c) nb v) as [syms|e].
  - left. exists nb, (set_symbols syms c). split; [done|]. split; [done|]. apply Hi.
  - right. destruct Hi as (-> & Hn & Hsz). done.
Qed.

(** [poke t e;] evaluates the address, then the value, then asks the registry:
    the outcome carries exactly the two meanings and exists exactly when
    [check_access] accepts the address. *)
Theorem poke_correct (c : Compiler) (m : Machine B) (line : list Z) (t h : Term) (ops : Ops) :
  lex_all (S (length line)) (lexer_new line) =
    Some (Identifier (bytes "poke") :: toks t ++ (toks h ++ toks_ops ops) ++ [Semicolon]) ->
  wf_term t -> wf_term h -> wf_ops ops -> wf_symtab (c_symbols c) ->
  parse arch c m line =
  match den (env_of c) t m with
  | (Ok a, m1) =>
      match den (env_of c) (TParen h ops) m1 with
      | (Ok v, m2) =>
          match check_access arch (m_regs m2) a with
          | Ok _ => (ROk (OEnforcedPoke a v), (c, m2))
          | Err _ => (RErr CapViolation, (c, m2))
          end
      | (Err e, m2) => (RErr e, (c, m2))
      end
  | (Err e, m1) => (RErr e, (c, m1))
  end.
Proof.
  intros Hlex Wt Wh Wo Hwf. rewrite (poke_line c m line t h ops Hlex Wt Wh Wo), den_env by done.
  destruct (den (env_of c) t m) as [[a|e] m1]; [|done]. by rewrite den_env.
Qed.

End Meaning.

Lemma let_correct_witness :
  (exists nb c', as_slice nb = bytes "x" /\
     parse Arm compiler_new demo_machine (bytes "let x = 2 + 3 * (7 - 1);") =
       (ROk (OBound nb 30), (c', demo_machine)) /\
     sym_map (c_symbols c') = <[bytes "x" := 30]> (sym_map symbols_new)) \/
  (size (sym_map symbols_new) = SYMBOL_SLOTS /\ env_of compiler_new (bytes "x") = None /\
     parse Arm compiler_new demo_machine (bytes "let x = 2 + 3 * (7 - 1);") =
       (RErr SymbolTableFull, (compiler_new, demo_machine))).
Proof.
  apply (let_correct Arm compiler_new demo_machine (bytes "let x = 2 + 3 * (7 - 1);") (bytes "x")
    (TLit 2) (OCons (ch "+") (TLit 3) (OCons (ch "*")
      (TParen (TLit 7) (OCons (ch "-") (TLit 1) ONil)) ONil))).
  - vm_compute. reflexivity.
  - exact Logic.I.
  - repeat split.
  - vm_compute. lia.
  - apply symbols_new_wf.
Defined.

Lemma poke_correct_witness :
  parse Arm compiler_new demo_machine (bytes "poke 0x20000000 3 / 2;") =
  (ROk (OEnforcedPoke 0x20000000 1), (compiler_new, demo_machine)).
Proof.
  rewrite (poke_correct Arm compiler_new demo_machine (bytes "poke 0x20000000 3 / 2;")
    (TLit 0x20000000) (TLit 3) (OCons (ch "/") (TLit 2) ONil)).
  - reflexivity.
  - vm_compute. reflexivity.
  - exact Logic.I.
  - exact Logic.I.
  - repeat split.
  - apply symbols_new_wf.
Defined.
