(* ===== verification/Isa.v ===== *)
(** * Isa: reference decoders for the emitted subset of Thumb-2 and RV32IM

    The specification the emitters of src/compiler/emitter.rs are measured
    against; nothing here models code of the repository. Instructions, bit
    patterns and effects are those of the ARMv7-M Architecture Reference
    Manual and of the RISC-V unprivileged manual, for the instructions the
    emitters name: anything else, and what the manuals call UNPREDICTABLE,
    decodes to nothing and counts as a fault. Condition flags are left out: no
    emitted instruction reads them. Code is straight line up to the return
    instruction, so the program counter is the rest of the code. *)
From S2P Require Import Prelude Registry AuditRing Memory.
Local Open Scope Z_scope.
Local Open Scope u32_scope.

(** ** Bit fields *)

(** [field x lo n]: bits [lo .. lo+n-1] of [x]. *)
Definition field (x lo n : Z) : Z := Z.land (Z.shiftr x lo) (Z.ones n).

(** Two's complement reading of an [n]-bit field. *)
Definition sext (n x : Z) : Z := if x <? 2 ^ (n - 1) then x else x - 2 ^ n.

Lemma field_mod x lo n : 0 <= lo -> 0 <= n -> field x lo n = (x / 2 ^ lo) mod 2 ^ n.
Proof. intros. unfold field. by rewrite Z.land_ones, Z.shiftr_div_pow2 by lia. Qed.

Lemma field_range x lo n : 0 <= n -> 0 <= field x lo n < 2 ^ n.
Proof. intros. unfold field. rewrite Z.land_ones by lia. apply Z.mod_pos_bound. lia. Qed.

Lemma field_lor a b lo n : field (Z.lor a b) lo n = Z.lor (field a lo n) (field b lo n).
Proof. unfold field. by rewrite Z.shiftr_lor, Z.land_lor_distr_l. Qed.

Lemma field_bit x lo n i : 0 <= n -> 0 <= i -> 0 <= lo ->
  Z.testbit (field x lo n) i = Z.testbit x (i + lo) && (i <? n).
Proof.
  intros. unfold field. rewrite Z.land_spec, Z.shiftr_spec by lia.
  by rewrite Z.testbit_ones_nonneg by lia.
Qed.

Lemma field_shl_above a k lo n : 0 <= lo -> 0 <= n -> lo + n <= k -> field (Z.shiftl a k) lo n = 0.
Proof.
  intros. apply Z.bits_inj'. intros i Hi. rewrite field_bit, Z.bits_0, Z.shiftl_spec by lia.
  destruct (Z.ltb_spec i n); [|by rewrite andb_false_r].
  rewrite Z.testbit_neg_r by lia. done.
Qed.

Lemma field_shl_below m a k lo n :
  0 <= m -> 0 <= a < 2 ^ m -> 0 <= k -> k + m <= lo -> 0 <= n -> field (Z.shiftl a k) lo n = 0.
Proof.
  intros. apply Z.bits_inj'. intros i Hi. rewrite field_bit, Z.bits_0, Z.shiftl_spec by lia.
  rewrite (testbit_high m) by lia. done.
Qed.

Lemma field_shl_at a lo n : 0 <= lo -> 0 <= n -> 0 <= a < 2 ^ n -> field (Z.shiftl a lo) lo n = a.
Proof.
  intros. rewrite field_mod, Z.shiftl_mul_pow2 by lia.
  rewrite Z.div_mul by lia. by apply Z.mod_small.
Qed.

(** Truncation to [w] bits keeps the fields below bit [w]. *)
Lemma field_wrap w x lo n :
  0 <= lo -> 0 <= n -> lo + n <= w -> field (x mod 2 ^ w) lo n = field x lo n.
Proof.
  intros. apply Z.bits_inj'. intros i Hi. rewrite !field_bit by lia.
  destruct (Z.ltb_spec i n); [|by rewrite !andb_false_r].
  by rewrite Z.mod_pow2_bits_low by lia.
Qed.

(** A mask [x & (2^n - 1)] is a field at the bottom. *)
Lemma land_ones_field x n : Z.land x (Z.ones n) = field x 0 n.
Proof. unfold field. by rewrite Z.shiftr_0_r. Qed.

(** Two adjacent fields make one. *)
Lemma field_join x lo n m : 0 <= lo -> 0 <= n -> 0 <= m ->
  field x lo n + 2 ^ n * field x (lo + n) m = field x lo (n + m).
Proof.
  intros. rewrite !field_mod by lia. rewrite !Z.pow_add_r by lia.
  rewrite <- Z.div_div by lia. symmetry. apply Z.rem_mul_r; lia.
Qed.

Lemma field_all x n : 0 <= n -> 0 <= x < 2 ^ n -> field x 0 n = x.
Proof. intros. rewrite field_mod, Z.pow_0_r, Z.div_1_r by lia. by apply Z.mod_small. Qed.

(** ** The processor: sixteen or thirty-two registers beside the machine. *)
Record Cpu (B : Type) := { cpu_regs : Z -> Z; cpu_mach : Machine B }.
Arguments cpu_regs {B} _.
Arguments cpu_mach {B} _.

Definition set_reg (regs : Z -> Z) (r v : Z) : Z -> Z := fun r' => if r' =? r then v else regs r'.

Lemma set_reg_eq regs r v : set_reg regs r v r = v.
Proof. unfold set_reg. by rewrite Z.eqb_refl. Qed.

Lemma set_reg_ne regs r v r' : r' <> r -> set_reg regs r v r' = regs r'.
Proof. unfold set_reg. intros. by rewrite (proj2 (Z.eqb_neq r' r)). Qed.

(** How a call into the code buffer ends. *)
Inductive NativeStop := Returned | Fault.
#[export] Instance NativeStop_eq_dec : EqDecision NativeStop.
Proof. solve_decision. Defined.

(** A 32-bit word as a signed number. *)
Definition signed (x : Z) : Z := sext 32 x.

(** ** Thumb-2 *)
Inductive Thumb :=
| T_MOVS_imm (rd imm8 : Z)
| T_MOVS_reg (rd rm : Z)
| T_ADDS (rd rn rm : Z)
| T_SUBS (rd rn rm : Z)
| T_MULS (rdm rn : Z)
| T_STR (rt rn off : Z)
| T_LDR (rt rn off : Z)
| T_BX (rm : Z)
| T_UDF (imm8 : Z)
| T_MOVW (rd imm16 : Z)
| T_MOVT (rd imm16 : Z)
| T_SDIV (rd rn rm : Z).
#[export] Instance Thumb_eq_dec : EqDecision Thumb.
Proof. solve_decision. Defined.

(** The leading bits of the first halfword tell the width. *)
Definition thumb_is_wide (hw : Z) : bool := 29 <=? field hw 11 5.

Definition thumb_decode16 (hw : Z) : option Thumb :=
  if field hw 11 5 =? 4 then Some (T_MOVS_imm (field hw 8 3) (field hw 0 8))
  else if field hw 9 7 =? 12 then Some (T_ADDS (field hw 0 3) (field hw 3 3) (field hw 6 3))
  else if field hw 9 7 =? 13 then Some (T_SUBS (field hw 0 3) (field hw 3 3) (field hw 6 3))
  else if field hw 6 10 =? 0 then Some (T_MOVS_reg (field hw 0 3) (field hw 3 3))
  else if field hw 6 10 =? 269 then Some (T_MULS (field hw 0 3) (field hw 3 3))
  else if field hw 11 5 =? 12 then Some (T_STR (field hw 0 3) (field hw 3 3) (4 * field hw 6 5))
  else if field hw 11 5 =? 13 then Some (T_LDR (field hw 0 3) (field hw 3 3) (4 * field hw 6 5))
  else if (field hw 7 9 =? 142) && (field hw 0 3 =? 0) then Some (T_BX (field hw 3 4))
  else if field hw 8 8 =? 222 then Some (T_UDF (field hw 0 8))
  else None.

(** Registers 13 and 15 are UNPREDICTABLE in the wide encodings. *)
Definition wide_reg (r : Z) : bool := negb (r =? 13) && negb (r =? 15).

(** [i : imm4] in the first, [imm3 : imm8] in the second halfword. *)
Definition thumb_imm16 (hw1 hw2 : Z) : Z :=
  field hw2 0 8 + 2 ^ 8 * (field hw2 12 3 + 2 ^ 3 * (field hw1 10 1 + 2 * field hw1 0 4)).

Definition thumb_decode32 (hw1 hw2 : Z) : option Thumb :=
  if (field hw1 11 5 =? 30) && (field hw1 4 6 =? 36) && (field hw2 15 1 =? 0) then
    if wide_reg (field hw2 8 4) then Some (T_MOVW (field hw2 8 4) (thumb_imm16 hw1 hw2)) else None
  else if (field hw1 11 5 =? 30) && (field hw1 4 6 =? 44) && (field hw2 15 1 =? 0) then
    if wide_reg (field hw2 8 4) then Some (T_MOVT (field hw2 8 4) (thumb_imm16 hw1 hw2)) else None
  else if (field hw1 4 12 =? 4025) && (field hw2 12 4 =? 15) && (field hw2 4 4 =? 15) then
    if wide_reg (field hw2 8 4) && wide_reg (field hw1 0 4) && wide_reg (field hw2 0 4)
    then Some (T_SDIV (field hw2 8 4) (field hw1 0 4) (field hw2 0 4)) else None
  else None.

(** Signed division truncates toward zero; by zero it gives zero. *)
Definition sdiv (a b : Z) : Z := if b =? 0 then 0 else wrap32 (Z.quot (signed a) (signed b)).

Section Semantics.
Context {B : Type} `{Bus B}.

Definition cpu_set (c : Cpu B) (r v : Z) : Cpu B :=
  {| cpu_regs := set_reg (cpu_regs c) r v; cpu_mach := cpu_mach c |}.

Definition cpu_load (arch : Arch) (c : Cpu B) (r addr : Z) : Cpu B :=
  let (v, m) := peek_u32 arch addr (cpu_mach c) in
  {| cpu_regs := set_reg (cpu_regs c) r v; cpu_mach := m |}.

Definition cpu_store (arch : Arch) (c : Cpu B) (addr v : Z) : Cpu B :=
  {| cpu_regs := cpu_regs c; cpu_mach := poke_u32 arch addr v (cpu_mach c) |}.

(** The effect of one instruction; [None] leaves straight-line code. *)
Definition thumb_step (i : Thumb) (c : Cpu B) : option (Cpu B) :=
  let g := cpu_regs c in
  match i with
  | T_MOVS_imm rd v => Some (cpu_set c rd v)
  | T_MOVS_reg rd rm => Some (cpu_set c rd (g rm))
  | T_ADDS rd rn rm => Some (cpu_set c rd (g rn +w g rm))
  | T_SUBS rd rn rm => Some (cpu_set c rd (g rn -w g rm))
  | T_MULS rdm rn => Some (cpu_set c rdm (g rn *w g rdm))
  | T_STR rt rn off => Some (cpu_store Arm c (g rn +w off) (g rt))
  | T_LDR rt rn off => Some (cpu_load Arm c rt (g rn +w off))
  | T_MOVW rd v => Some (cpu_set c rd v)
  | T_MOVT rd v => Some (cpu_set c rd (g rd mod 2 ^ 16 + 2 ^ 16 * v))
  | T_SDIV rd rn rm => Some (cpu_set c rd (sdiv (g rn) (g rm)))
  | T_BX _ | T_UDF _ => None
  end.

Fixpoint thumb_steps (prog : list Thumb) (c : Cpu B) : option (Cpu B) :=
  match prog with
  | [] => Some c
  | i :: prog' => match thumb_step i c with None => None | Some c' => thumb_steps prog' c' end
  end.

(** Continue with [k] after a decoded instruction; [BX LR] returns, where the
    link register is r14. *)
Definition thumb_next (i : option Thumb) (c : Cpu B) (k : Cpu B -> NativeStop * Cpu B)
  : NativeStop * Cpu B :=
  match i with
  | None => (Fault, c)
  | Some (T_BX rm) => (if rm =? 14 then Returned else Fault, c)
  | Some i => match thumb_step i c with None => (Fault, c) | Some c' => k c' end
  end.

(** Run the halfwords of the code buffer up to the return. *)
Fixpoint thumb_run (hws : list Z) (c : Cpu B) : NativeStop * Cpu B :=
  match hws with
  | [] => (Fault, c)
  | hw1 :: rest =>
      if thumb_is_wide hw1 then
        match rest with
        | [] => (Fault, c)
        | hw2 :: rest' => thumb_next (thumb_decode32 hw1 hw2) c (thumb_run rest')
        end
      else thumb_next (thumb_decode16 hw1) c (thumb_run rest)
  end.

(** [hws] is the encoding of the straight-line instructions [prog]. *)
Inductive thumb_codes : list Z -> list Thumb -> Prop :=
| codes_nil : thumb_codes [] []
| codes_16 hw i hws prog :
    thumb_is_wide hw = false -> thumb_decode16 hw = Some i ->
    thumb_codes hws prog -> thumb_codes (hw :: hws) (i :: prog)
| codes_32 hw1 hw2 i hws prog :
    thumb_is_wide hw1 = true -> thumb_decode32 hw1 hw2 = Some i ->
    thumb_codes hws prog -> thumb_codes (hw1 :: hw2 :: hws) (i :: prog).

Lemma thumb_codes_app a b p q : thumb_codes a p -> thumb_codes b q -> thumb_codes (a ++ b) (p ++ q).
Proof. induction 1; intros; cbn; [done|eapply codes_16; eauto|eapply codes_32; eauto]. Qed.

(** Code that decodes to instructions with an effect runs them in order. *)
Lemma thumb_run_codes hws prog rest c c' :
  thumb_codes hws prog -> thumb_steps prog c = Some c' ->
  thumb_run (hws ++ rest) c = thumb_run rest c'.
Proof.
  intros Hc. revert c. induction Hc as [|hw i hws prog Hw Hd _ IH|hw1 hw2 i hws prog Hw Hd _ IH];
    cbn [thumb_steps app thumb_run]; intros c Hs; [congruence|..];
    rewrite Hw, Hd; unfold thumb_next;
    destruct (thumb_step i c) eqn:E; try done; destruct i; try done; by apply IH.
Qed.
End Semantics.

(** ** RV32IM *)
Inductive Rv :=
| RV_LUI (rd imm20 : Z)
| RV_ADDI (rd rs1 imm : Z)
| RV_SW (rs2 rs1 off : Z)
| RV_LW (rd rs1 off : Z)
| RV_ADD (rd rs1 rs2 : Z)
| RV_SUB (rd rs1 rs2 : Z)
| RV_MUL (rd rs1 rs2 : Z)
| RV_DIV (rd rs1 rs2 : Z)
| RV_JALR (rd rs1 off : Z)
| RV_CUSTOM0 (rd rs1 rs2 funct3 funct7 : Z).
#[export] Instance Rv_eq_dec : EqDecision Rv.
Proof. solve_decision. Defined.

Definition rv_rd (w : Z) : Z := field w 7 5.
Definition rv_rs1 (w : Z) : Z := field w 15 5.
Definition rv_rs2 (w : Z) : Z := field w 20 5.

Definition rv_op (funct7 funct3 : Z) (rd rs1 rs2 : Z) : option Rv :=
  if (funct7 =? 0) && (funct3 =? 0) then Some (RV_ADD rd rs1 rs2)
  else if (funct7 =? 32) && (funct3 =? 0) then Some (RV_SUB rd rs1 rs2)
  else if (funct7 =? 1) && (funct3 =? 0) then Some (RV_MUL rd rs1 rs2)
  else if (funct7 =? 1) && (funct3 =? 4) then Some (RV_DIV rd rs1 rs2)
  else None.

Definition rv_decode (w : Z) : option Rv :=
  let f3 := field w 12 3 in
  let op := field w 0 7 in
  if op =? 55 then Some (RV_LUI (rv_rd w) (field w 12 20))
  else if (op =? 19) && (f3 =? 0) then Some (RV_ADDI (rv_rd w) (rv_rs1 w) (sext 12 (field w 20 12)))
  else if (op =? 35) && (f3 =? 2) then
    Some (RV_SW (rv_rs2 w) (rv_rs1 w) (sext 12 (field w 7 5 + 2 ^ 5 * field w 25 7)))
  else if (op =? 3) && (f3 =? 2) then Some (RV_LW (rv_rd w) (rv_rs1 w) (sext 12 (field w 20 12)))
  else if op =? 51 then rv_op (field w 25 7) f3 (rv_rd w) (rv_rs1 w) (rv_rs2 w)
  else if (op =? 103) && (f3 =? 0) then Some (RV_JALR (rv_rd w) (rv_rs1 w) (sext 12 (field w 20 12)))
  else if op =? 11 then Some (RV_CUSTOM0 (rv_rd w) (rv_rs1 w) (rv_rs2 w) f3 (field w 25 7))
  else None.

(** Signed division; by zero it gives all ones. *)
Definition rv_div (a b : Z) : Z :=
  if b =? 0 then M32 - 1 else wrap32 (Z.quot (signed a) (signed b)).

Section RvSemantics.
Context {B : Type} `{Bus B}.

(** Register x0 reads as zero. *)
Definition rv_get (c : Cpu B) (r : Z) : Z := if r =? 0 then 0 else cpu_regs c r.

Definition rv_step (i : Rv) (c : Cpu B) : option (Cpu B) :=
  let g := rv_get c in
  match i with
  | RV_LUI rd v => Some (cpu_set c rd (wrap32 (2 ^ 12 * v)))
  | RV_ADDI rd rs1 v => Some (cpu_set c rd (g rs1 +w v))
  | RV_SW rs2 rs1 off => Some (cpu_store Riscv32 c (g rs1 +w off) (g rs2))
  | RV_LW rd rs1 off => Some (cpu_load Riscv32 c rd (g rs1 +w off))
  | RV_ADD rd rs1 rs2 => Some (cpu_set c rd (g rs1 +w g rs2))
  | RV_SUB rd rs1 rs2 => Some (cpu_set c rd (g rs1 -w g rs2))
  | RV_MUL rd rs1 rs2 => Some (cpu_set c rd (g rs1 *w g rs2))
  | RV_DIV rd rs1 rs2 => Some (cpu_set c rd (rv_div (g rs1) (g rs2)))
  | RV_JALR _ _ _ | RV_CUSTOM0 _ _ _ _ _ => None
  end.

Fixpoint rv_steps (prog : list Rv) (c : Cpu B) : option (Cpu B) :=
  match prog with
  | [] => Some c
  | i :: prog' => match rv_step i c with None => None | Some c' => rv_steps prog' c' end
  end.

(** Run the code until [JALR x0, ra, 0]; the return address is x1. *)
Fixpoint rv_run (code : list Z) (c : Cpu B) : NativeStop * Cpu B :=
  match code with
  | [] => (Fault, c)
  | w :: rest =>
      match rv_decode w with
      | None => (Fault, c)
      | Some (RV_JALR rd rs1 off) =>
          (if (rd =? 0) && (rs1 =? 1) && (off =? 0) then Returned else Fault, c)
      | Some i =>
          match rv_step i c with
          | None => (Fault, c)
          | Some c' => rv_run rest c'
          end
      end
  end.

Definition rv_codes (ws : list Z) (prog : list Rv) : Prop := Forall2 (fun w i => rv_decode w = Some i) ws prog.

Lemma rv_run_codes ws prog rest c c' :
  rv_codes ws prog -> rv_steps prog c = Some c' -> rv_run (ws ++ rest) c = rv_run rest c'.
Proof.
  intros Hc. revert c. induction Hc as [|w i ws prog Hd _ IH]; cbn [rv_steps app rv_run];
    intros c Hs; [congruence|]. rewrite Hd.
  destruct (rv_step i c) eqn:E; try done. destruct i; try done; by apply IH.
Qed.
End RvSemantics.
