(* ===== verification/Emitter.v ===== *)
(** * Emitter: machine-code emission (src/compiler/emitter.rs)

    The instruction encoders, the two emitters that write them into the
    executable SRAM buffer, and the trait they share, [TargetEmitter]. Both
    emitter structs have the same fields, so one record serves both; [cursor]
    is the byte offset of the write pointer from the base of EXEC_BUFFER, and
    the buffer itself travels with the emitter, its only owner. Casts to [u16]
    and shifts of [u16] values keep sixteen bits. The encodings are compared
    with the reference decoders of Isa. *)
From S2P Require Import Prelude Registry AuditRing Memory Isa.
Local Open Scope Z_scope.
Local Open Scope u32_scope.

Definition EXEC_BUFFER_SIZE (arch : Arch) : nat :=
  match arch with Riscv32 => 768 | Arm => 4096 end.

Inductive EmitError := Overflow | BadRegister.
#[export] Instance EmitError_eq_dec : EqDecision EmitError.
Proof. solve_decision. Defined.

(** [x as u16] and [x << n] on [u16]. *)
Definition as_u16 (x : Z) : Z := x mod 65536.
Definition u16_shl (a n : Z) : Z := (Z.shiftl a n) mod 65536.

(** ** Encoding helpers *)
Definition encode_movw (rd imm : Z) : Z * Z :=
  let imm4 := as_u16 (Z.land (u32_shr imm 12) 0xF) in
  let i := as_u16 (Z.land (u32_shr imm 11) 0x1) in
  let imm3 := as_u16 (Z.land (u32_shr imm 8) 0x7) in
  let imm8 := as_u16 (Z.land imm 0xFF) in
  let hw1 := Z.lor (Z.lor 0xF240 (u16_shl i 10)) imm4 in
  let hw2 := Z.lor (Z.lor (u16_shl imm3 12) (u16_shl (Z.land rd 0xF) 8)) imm8 in
  (hw1, hw2).

Definition encode_movt (rd imm : Z) : Z * Z :=
  let high := u32_shr imm 16 in
  let imm4 := as_u16 (Z.land (u32_shr high 12) 0xF) in
  let i := as_u16 (Z.land (u32_shr high 11) 0x1) in
  let imm3 := as_u16 (Z.land (u32_shr high 8) 0x7) in
  let imm8 := as_u16 (Z.land high 0xFF) in
  let hw1 := Z.lor (Z.lor 0xF2C0 (u16_shl i 10)) imm4 in
  let hw2 := Z.lor (Z.lor (u16_shl imm3 12) (u16_shl (Z.land rd 0xF) 8)) imm8 in
  (hw1, hw2).

Definition thumb_offset_bad (rt rn byte_offset : Z) : bool :=
  (7 <? rt) || (7 <? rn) || (124 <? byte_offset) || negb (byte_offset mod 4 =? 0).

Definition encode_str_imm (rt rn byte_offset : Z) : option Z :=
  if thumb_offset_bad rt rn byte_offset then None
  else Some (Z.lor (Z.lor (Z.lor 0x6000 (u16_shl (as_u16 (byte_offset / 4)) 6)) (u16_shl rn 3)) rt).

Definition encode_ldr_imm (rt rn byte_offset : Z) : option Z :=
  if thumb_offset_bad rt rn byte_offset then None
  else Some (Z.lor (Z.lor (Z.lor 0x6800 (u16_shl (as_u16 (byte_offset / 4)) 6)) (u16_shl rn 3)) rt).

Definition encode_lui (rd imm20 : Z) : Z :=
  Z.lor (Z.lor 0x37 (u32_shl (Z.land rd 0x1F) 7)) (u32_shl (Z.land imm20 0xFFFFF) 20).

Definition encode_addi (rd rs1 imm12_field : Z) : Z :=
  Z.lor (Z.lor (Z.lor 0x13 (u32_shl (Z.land rd 0x1F) 7)) (u32_shl (Z.land rs1 0x1F) 15))
    (u32_shl (Z.land imm12_field 0xFFF) 20).

(** [(0x800..0xFFFFF000).contains(&offset)]. *)
Definition rv_offset_bad (offset : Z) : bool := (0x800 <=? offset) && (offset <? 0xFFFFF000).

Definition encode_sw (rs2 rs1 offset : Z) : option Z :=
  if rv_offset_bad offset then None
  else
    let off := Z.land offset 0xFFF in
    Some (Z.lor (Z.lor (Z.lor (Z.lor (Z.lor 0x23 (u32_shl 2 12)) (u32_shl (u32_shr off 5) 25))
      (u32_shl (Z.land rs2 0x1F) 20)) (u32_shl (Z.land rs1 0x1F) 15)) (u32_shl (Z.land off 0x1F) 7)).

Definition encode_lw (rd rs1 offset : Z) : option Z :=
  if rv_offset_bad offset then None
  else
    Some (Z.lor (Z.lor (Z.lor (Z.lor 0x03 (u32_shl 2 12)) (u32_shl (Z.land rd 0x1F) 7))
      (u32_shl (Z.land rs1 0x1F) 15)) (u32_shl (Z.land offset 0xFFF) 20)).

Definition encode_rtype_addsub (rd rs1 rs2 : Z) (sub : bool) : Z :=
  let funct7 := if sub then 0x20 else 0x00 in
  Z.lor (Z.lor (Z.lor (Z.lor 0x33 (u32_shl funct7 25)) (u32_shl (Z.land rs2 0x1F) 20))
    (u32_shl (Z.land rs1 0x1F) 15)) (u32_shl (Z.land rd 0x1F) 7).

Definition RV32_RET : Z := 0x00008067.

Definition encode_sdiv (rd rn rm : Z) : Z * Z :=
  let hw1 := Z.lor 0xFB90 rn in
  let hw2 := Z.lor (Z.lor 0xF010 (u16_shl rd 8)) rm in
  (hw1, hw2).

Definition encode_rtype (rd rs1 rs2 funct7 funct3 : Z) : Z :=
  Z.lor (Z.lor (Z.lor (Z.lor (Z.lor 0x33 (u32_shl funct7 25)) (u32_shl (Z.land rs2 0x1F) 20))
    (u32_shl (Z.land rs1 0x1F) 15)) (u32_shl funct3 12)) (u32_shl (Z.land rd 0x1F) 7).

(** ** Emitters *)
Record Emitter := {
  cursor : nat;
  cap_words : nat;
  len_words : nat;
  exec_buffer : list Z;
}.

(** An emitter method: a result and the emitter and buffer it leaves. *)
Definition Emit := Emitter -> Result unit EmitError * Emitter.

(** [a?; b]. *)
Definition emit_then (a b : Emit) : Emit := fun e =>
  match a e with
  | (Ok _, e') => b e'
  | (Err x, e') => (Err x, e')
  end.
Declare Scope emit_scope.
Delimit Scope emit_scope with emit.
Infix ";?" := emit_then (at level 60, right associativity) : emit_scope.
Local Open Scope emit_scope.

Definition emit_ok : Emit := fun e => (Ok tt, e).
Definition emit_err (x : EmitError) : Emit := fun e => (Err x, e).

(** The [w] bytes of a store, least significant first. *)
Fixpoint le_bytes (w : nat) (v : Z) : list Z :=
  match w with O => [] | S w' => v mod 256 :: le_bytes w' (v / 256) end.

Definition write_volatile (w off : nat) (v : Z) (buf : list Z) : list Z :=
  take off buf ++ le_bytes w v ++ drop (off + w) buf.

(** The common body of [push16] and [push32]. *)
Definition push (w : nat) (v : Z) : Emit := fun e =>
  if (cap_words e <=? len_words e)%nat then (Err Overflow, e)
  else
    (Ok tt, {| cursor := cursor e + w; cap_words := cap_words e; len_words := S (len_words e);
               exec_buffer := write_volatile w (cursor e) v (exec_buffer e) |}).

Definition push16 (hw : Z) : Emit := push 2 hw.
Definition push32 (word : Z) : Emit := push 4 word.

(** The trait. *)
Class TargetEmitter := {
  into_exec_buffer : list Z -> Emitter;
  emit_mov_imm : Z -> Z -> Emit;
  emit_store_u32 : Z -> Z -> Emit;
  emit_load_u32 : Z -> Z -> Emit;
  emit_add : Z -> Z -> Z -> Emit;
  emit_sub : Z -> Z -> Z -> Emit;
  emit_mul : Z -> Z -> Z -> Emit;
  emit_div : Z -> Z -> Z -> Emit;
  emit_mov_ret : Z -> Emit;
  emit_ret : Emit;
  bytes_written : Emitter -> nat;
  emit_cap_guard_scalar : Z -> Z -> Emit;
  emit_cap_guard_vector : Z -> Z -> Emit;
  emit_cap_guard_custom : Z -> Z -> Emit;
}.

(** ** The Thumb-2 backend *)
Definition thumb2_into_exec_buffer (buf : list Z) : Emitter :=
  {| cursor := 0; cap_words := EXEC_BUFFER_SIZE Arm / 2; len_words := 0; exec_buffer := buf |}.

Definition thumb2_emit_mov_imm (reg imm : Z) : Emit :=
  if 15 <? reg then emit_err BadRegister
  else if (imm <=? 0xFF) && (reg <? 8) then
    push16 (Z.lor (Z.lor 0x2000 (u16_shl reg 8)) (Z.land (as_u16 imm) 0xFF))
  else
    let (w1, w2) := encode_movw reg imm in
    push16 w1 ;? push16 w2 ;?
    if negb (u32_shr imm 16 =? 0) then
      let (t1, t2) := encode_movt reg imm in
      push16 t1 ;? push16 t2 ;? emit_ok
    else emit_ok.

Definition thumb2_emit_store_u32 (src_reg addr_reg : Z) : Emit :=
  match encode_str_imm src_reg addr_reg 0 with
  | Some hw => push16 hw
  | None => emit_err BadRegister
  end.

Definition thumb2_emit_load_u32 (dst_reg addr_reg : Z) : Emit :=
  match encode_ldr_imm dst_reg addr_reg 0 with
  | Some hw => push16 hw
  | None => emit_err BadRegister
  end.

Definition thumb2_low_regs_bad (dst a b : Z) : bool := (7 <? dst) || (7 <? a) || (7 <? b).

Definition thumb2_emit_add (dst a b : Z) : Emit :=
  if thumb2_low_regs_bad dst a b then emit_err BadRegister
  else push16 (Z.lor (Z.lor (Z.lor 0x1800 (u16_shl b 6)) (u16_shl a 3)) dst).

Definition thumb2_emit_sub (dst a b : Z) : Emit :=
  if thumb2_low_regs_bad dst a b then emit_err BadRegister
  else push16 (Z.lor (Z.lor (Z.lor 0x1A00 (u16_shl b 6)) (u16_shl a 3)) dst).

Definition thumb2_emit_mul (dst a b : Z) : Emit :=
  if thumb2_low_regs_bad dst a b then emit_err BadRegister
  else
    (if negb (a =? dst) then push16 (Z.lor (u16_shl a 3) dst) else emit_ok) ;?
    push16 (Z.lor (Z.lor 0x4340 (u16_shl b 3)) dst).

Definition thumb2_emit_div (dst a b : Z) : Emit :=
  if (15 <? dst) || (15 <? a) || (15 <? b) then emit_err BadRegister
  else let (hw1, hw2) := encode_sdiv dst a b in push16 hw1 ;? push16 hw2.

Definition thumb2_emit_ret : Emit := push16 0x4770.

Definition thumb2_emit_mov_ret (imm : Z) : Emit := thumb2_emit_mov_imm 0 imm ;? thumb2_emit_ret.

Definition thumb2_bytes_written (e : Emitter) : nat := len_words e * 2.

Definition thumb2_emit_cap_guard_scalar (addr_reg _tmp_reg : Z) : Emit :=
  push16 0xF3AF ;? push16 0xF8D0 ;? push16 0xEC10 ;? emit_ok.

Definition thumb2_emit_cap_guard_vector (addr_reg len : Z) : Emit :=
  if (7 <? addr_reg) || (16 <? len) then emit_err BadRegister
  else
    let imm4_reg := Z.land addr_reg 0x0F in
    let imm4_len := as_u16 (Z.land (len -w 1) 0x0F) in
    push16 (Z.lor (Z.lor 0xDE00 (u16_shl imm4_reg 4)) imm4_len).

Definition thumb2_emit_cap_guard_custom (addr_reg cap_reg : Z) : Emit :=
  if (7 <? addr_reg) || (7 <? cap_reg) then emit_err BadRegister
  else push16 (Z.lor (Z.lor 0xDE00 (u16_shl (Z.land cap_reg 0x0F) 4)) (Z.land addr_reg 0x0F)).

Definition Thumb2Emitter : TargetEmitter := {|
  into_exec_buffer := thumb2_into_exec_buffer;
  emit_mov_imm := thumb2_emit_mov_imm;
  emit_store_u32 := thumb2_emit_store_u32;
  emit_load_u32 := thumb2_emit_load_u32;
  emit_add := thumb2_emit_add;
  emit_sub := thumb2_emit_sub;
  emit_mul := thumb2_emit_mul;
  emit_div := thumb2_emit_div;
  emit_mov_ret := thumb2_emit_mov_ret;
  emit_ret := thumb2_emit_ret;
  bytes_written := thumb2_bytes_written;
  emit_cap_guard_scalar := thumb2_emit_cap_guard_scalar;
  emit_cap_guard_vector := thumb2_emit_cap_guard_vector;
  emit_cap_guard_custom := thumb2_emit_cap_guard_custom;
|}.

(** ** The RV32I backend *)
Definition riscv32_into_exec_buffer (buf : list Z) : Emitter :=
  {| cursor := 0; cap_words := EXEC_BUFFER_SIZE Riscv32 / 4; len_words := 0; exec_buffer := buf |}.

Definition riscv32_emit_mov_imm (reg imm : Z) : Emit :=
  let signed_ok := (imm <=? 0x7FF) || (0xFFFFF800 <=? imm) in
  if signed_ok then push32 (encode_addi reg 0 imm)
  else
    let hi20 := u32_shr (imm +w 0x800) 12 in
    let lo12 := imm -w u32_shl hi20 12 in
    push32 (encode_lui reg hi20) ;?
    if negb (lo12 =? 0) then push32 (encode_addi reg reg lo12) ;? emit_ok else emit_ok.

Definition riscv32_emit_store_u32 (src_reg addr_reg : Z) : Emit :=
  match encode_sw src_reg addr_reg 0 with
  | Some word => push32 word
  | None => emit_err BadRegister
  end.

Definition riscv32_emit_load_u32 (dst_reg addr_reg : Z) : Emit :=
  match encode_lw dst_reg addr_reg 0 with
  | Some word => push32 word
  | None => emit_err BadRegister
  end.

Definition riscv32_emit_add (dst a b : Z) : Emit := push32 (encode_rtype_addsub dst a b false).
Definition riscv32_emit_sub (dst a b : Z) : Emit := push32 (encode_rtype_addsub dst a b true).
Definition riscv32_emit_mul (dst a b : Z) : Emit := push32 (encode_rtype dst a b 0x01 0x00).
Definition riscv32_emit_div (dst a b : Z) : Emit := push32 (encode_rtype dst a b 0x01 0x04).

Definition riscv32_emit_ret : Emit := push32 RV32_RET.

Definition riscv32_emit_mov_ret (imm : Z) : Emit := riscv32_emit_mov_imm 10 imm ;? riscv32_emit_ret.

Definition riscv32_bytes_written (e : Emitter) : nat := len_words e * 4.

Definition riscv32_emit_cap_guard_scalar (addr_reg _tmp_reg : Z) : Emit :=
  push32 0x00C55133 ;? push32 0x03F55033 ;? push32 0x00058063 ;? emit_ok.

Definition riscv32_emit_cap_guard_vector (_addr_reg len : Z) : Emit :=
  if 256 <? len then emit_err Overflow
  else push32 (Z.lor 0xF3AF8000 (Z.land len 0xFF)) ;? emit_ok.

Definition riscv32_emit_cap_guard_custom (addr_reg cap_reg : Z) : Emit :=
  let opcode := 11 in
  let funct3 := 0 in
  let funct7 := 1 in
  push32 (Z.lor (Z.lor (Z.lor (Z.lor (u32_shl funct7 25) (u32_shl (Z.land cap_reg 0x1F) 20))
    (u32_shl (Z.land addr_reg 0x1F) 15)) (u32_shl funct3 12)) opcode).

Definition Riscv32Emitter : TargetEmitter := {|
  into_exec_buffer := riscv32_into_exec_buffer;
  emit_mov_imm := riscv32_emit_mov_imm;
  emit_store_u32 := riscv32_emit_store_u32;
  emit_load_u32 := riscv32_emit_load_u32;
  emit_add := riscv32_emit_add;
  emit_sub := riscv32_emit_sub;
  emit_mul := riscv32_emit_mul;
  emit_div := riscv32_emit_div;
  emit_mov_ret := riscv32_emit_mov_ret;
  emit_ret := riscv32_emit_ret;
  bytes_written := riscv32_bytes_written;
  emit_cap_guard_scalar := riscv32_emit_cap_guard_scalar;
  emit_cap_guard_vector := riscv32_emit_cap_guard_vector;
  emit_cap_guard_custom := riscv32_emit_cap_guard_custom;
|}.

(** The backend the build selects. *)
Definition target (arch : Arch) : TargetEmitter :=
  match arch with Arm => Thumb2Emitter | Riscv32 => Riscv32Emitter end.

(** ** What a call emits

    The trait's calls as data, and the code units each stands for. *)
Inductive Call :=
| MovImm (reg imm : Z)
| StoreU32 (src_reg addr_reg : Z)
| LoadU32 (dst_reg addr_reg : Z)
| AddR (dst a b : Z)
| SubR (dst a b : Z)
| MulR (dst a b : Z)
| DivR (dst a b : Z)
| MovRet (imm : Z)
| Ret
| GuardScalar (addr_reg tmp_reg : Z)
| GuardVector (addr_reg len : Z)
| GuardCustom (addr_reg cap_reg : Z).

Definition emit_call {T : TargetEmitter} (c : Call) : Emit :=
  match c with
  | MovImm r v => emit_mov_imm r v
  | StoreU32 s a => emit_store_u32 s a
  | LoadU32 d a => emit_load_u32 d a
  | AddR d a b => emit_add d a b
  | SubR d a b => emit_sub d a b
  | MulR d a b => emit_mul d a b
  | DivR d a b => emit_div d a b
  | MovRet v => emit_mov_ret v
  | Ret => emit_ret
  | GuardScalar a t => emit_cap_guard_scalar a t
  | GuardVector a l => emit_cap_guard_vector a l
  | GuardCustom a k => emit_cap_guard_custom a k
  end.

(** Bytes per code unit: halfwords and words. *)
Definition unit_bytes (arch : Arch) : nat := match arch with Arm => 2 | Riscv32 => 4 end.

Definition thumb_mov_units (reg imm : Z) : list Z :=
  if (imm <=? 0xFF) && (reg <? 8) then [Z.lor (Z.lor 0x2000 (u16_shl reg 8)) (Z.land (as_u16 imm) 0xFF)]
  else
    [(encode_movw reg imm).1; (encode_movw reg imm).2] ++
    if u32_shr imm 16 =? 0 then [] else [(encode_movt reg imm).1; (encode_movt reg imm).2].

Definition rv_mov_units (reg imm : Z) : list Z :=
  if (imm <=? 0x7FF) || (0xFFFFF800 <=? imm) then [encode_addi reg 0 imm]
  else
    let hi20 := u32_shr (imm +w 0x800) 12 in
    let lo12 := imm -w u32_shl hi20 12 in
    encode_lui reg hi20 :: if lo12 =? 0 then [] else [encode_addi reg reg lo12].

Definition low3 (dst a b : Z) (ws : list Z) : Result (list Z) EmitError :=
  if thumb2_low_regs_bad dst a b then Err BadRegister else Ok ws.

Definition of_option (o : option Z) : Result (list Z) EmitError :=
  match o with Some w => Ok [w] | None => Err BadRegister end.

Definition thumb_units (c : Call) : Result (list Z) EmitError :=
  match c with
  | MovImm r v => if 15 <? r then Err BadRegister else Ok (thumb_mov_units r v)
  | StoreU32 s a => of_option (encode_str_imm s a 0)
  | LoadU32 d a => of_option (encode_ldr_imm d a 0)
  | AddR d a b => low3 d a b [Z.lor (Z.lor (Z.lor 0x1800 (u16_shl b 6)) (u16_shl a 3)) d]
  | SubR d a b => low3 d a b [Z.lor (Z.lor (Z.lor 0x1A00 (u16_shl b 6)) (u16_shl a 3)) d]
  | MulR d a b =>
      low3 d a b ((if a =? d then [] else [Z.lor (u16_shl a 3) d]) ++
                  [Z.lor (Z.lor 0x4340 (u16_shl b 3)) d])
  | DivR d a b =>
      if (15 <? d) || (15 <? a) || (15 <? b) then Err BadRegister
      else Ok [(encode_sdiv d a b).1; (encode_sdiv d a b).2]
  | MovRet v => Ok (thumb_mov_units 0 v ++ [0x4770])
  | Ret => Ok [0x4770]
  | GuardScalar _ _ => Ok [0xF3AF; 0xF8D0; 0xEC10]
  | GuardVector a l =>
      if (7 <? a) || (16 <? l) then Err BadRegister
      else Ok [Z.lor (Z.lor 0xDE00 (u16_shl (Z.land a 0x0F) 4)) (as_u16 (Z.land (l -w 1) 0x0F))]
  | GuardCustom a k =>
      if (7 <? a) || (7 <? k) then Err BadRegister
      else Ok [Z.lor (Z.lor 0xDE00 (u16_shl (Z.land k 0x0F) 4)) (Z.land a 0x0F)]
  end.

Definition rv_units (c : Call) : Result (list Z) EmitError :=
  match c with
  | MovImm r v => Ok (rv_mov_units r v)
  | StoreU32 s a => of_option (encode_sw s a 0)
  | LoadU32 d a => of_option (encode_lw d a 0)
  | AddR d a b => Ok [encode_rtype_addsub d a b false]
  | SubR d a b => Ok [encode_rtype_addsub d a b true]
  | MulR d a b => Ok [encode_rtype d a b 0x01 0x00]
  | DivR d a b => Ok [encode_rtype d a b 0x01 0x04]
  | MovRet v => Ok (rv_mov_units 10 v ++ [RV32_RET])
  | Ret => Ok [RV32_RET]
  | GuardScalar _ _ => Ok [0x00C55133; 0x03F55033; 0x00058063]
  | GuardVector _ l => if 256 <? l then Err Overflow else Ok [Z.lor 0xF3AF8000 (Z.land l 0xFF)]
  | GuardCustom a k =>
      Ok [Z.lor (Z.lor (Z.lor (Z.lor (u32_shl 1 25) (u32_shl (Z.land k 0x1F) 20))
            (u32_shl (Z.land a 0x1F) 15)) (u32_shl 0 12)) 11]
  end.

Definition call_units (arch : Arch) : Call -> Result (list Z) EmitError :=
  match arch with Arm => thumb_units | Riscv32 => rv_units end.

(** Pushing a list of units, as far as they fit. *)
Fixpoint emit_seq (w : nat) (vs : list Z) : Emit :=
  match vs with [] => emit_ok | v :: vs' => push w v ;? emit_seq w vs' end.

Lemma emit_seq_one w v e : emit_seq w [v] e = push w v e.
Proof. cbn. unfold emit_then. destruct (push w v e) as [[[]|x] e']; done. Qed.

Lemma emit_seq_app w us vs e : emit_seq w (us ++ vs) e = (emit_seq w us ;? emit_seq w vs) e.
Proof.
  revert e. induction us as [|u us IH]; intros e; [done|]. cbn [app emit_seq]. unfold emit_then in *.
  destruct (push w u e) as [[[]|x] e']; [apply IH|done].
Qed.

Lemma emit_then_ext a a' b b' e :
  (forall e, a e = a' e) -> (forall e, b e = b' e) -> (a ;? b) e = (a' ;? b') e.
Proof. intros Ha Hb. unfold emit_then. rewrite Ha. destruct (a' e) as [[]]; auto. Qed.

Lemma thumb_mov_emits r v e :
  (15 <? r) = false -> thumb2_emit_mov_imm r v e = emit_seq 2 (thumb_mov_units r v) e.
Proof.
  intros Hr. unfold thumb2_emit_mov_imm, thumb_mov_units. rewrite Hr.
  destruct (_ && _); [by rewrite emit_seq_one|].
  destruct (encode_movw r v) as [w1 w2], (encode_movt r v) as [t1 t2]. cbn [fst snd].
  destruct (u32_shr v 16 =? 0); done.
Qed.

Lemma rv_mov_emits r v e : riscv32_emit_mov_imm r v e = emit_seq 4 (rv_mov_units r v) e.
Proof.
  unfold riscv32_emit_mov_imm, rv_mov_units. destruct (_ || _); [by rewrite emit_seq_one|].
  cbv zeta. destruct (_ =? 0); done.
Qed.

(** Close [method e = emit_seq ...] after the guards are decided. *)
Ltac call_cbn := cbn [emit_call emit_mov_imm emit_store_u32 emit_load_u32 emit_add emit_sub emit_mul
  emit_div emit_mov_ret emit_ret emit_cap_guard_scalar emit_cap_guard_vector emit_cap_guard_custom
  Thumb2Emitter Riscv32Emitter].
Ltac emits := repeat case_match; simplify_eq; rewrite ?emit_seq_one; done.

Lemma thumb_call_emits c e :
  emit_call (T := Thumb2Emitter) c e =
  match thumb_units c with Ok vs => emit_seq 2 vs e | Err x => (Err x, e) end.
Proof.
  destruct c; call_cbn; unfold thumb_units, low3, of_option.
  - destruct (15 <? reg) eqn:E; [|by apply thumb_mov_emits].
    unfold thumb2_emit_mov_imm. by rewrite E.
  - unfold thumb2_emit_store_u32. emits.
  - unfold thumb2_emit_load_u32. emits.
  - unfold thumb2_emit_add. emits.
  - unfold thumb2_emit_sub. emits.
  - unfold thumb2_emit_mul. destruct (thumb2_low_regs_bad dst a b); [done|].
    rewrite emit_seq_app. apply emit_then_ext; intros; [|by rewrite emit_seq_one].
    destruct (a =? dst); cbn [negb]; [done|by rewrite emit_seq_one].
  - unfold thumb2_emit_div. destruct (_ || _); [done|].
    destruct (encode_sdiv dst a b) as [h1 h2]. cbn [fst snd].
    apply (emit_then_ext _ _ (push16 h2) (emit_seq 2 [h2])); intros; [done|by rewrite emit_seq_one].
  - unfold thumb2_emit_mov_ret. rewrite emit_seq_app.
    apply emit_then_ext; intros; [by apply thumb_mov_emits|by rewrite emit_seq_one].
  - by rewrite emit_seq_one.
  - done.
  - unfold thumb2_emit_cap_guard_vector. emits.
  - unfold thumb2_emit_cap_guard_custom. emits.
Qed.

Lemma rv_call_emits c e :
  emit_call (T := Riscv32Emitter) c e =
  match rv_units c with Ok vs => emit_seq 4 vs e | Err x => (Err x, e) end.
Proof.
  destruct c; call_cbn; unfold rv_units, of_option;
    rewrite ?emit_seq_one; try done.
  - apply rv_mov_emits.
  - unfold riscv32_emit_store_u32. emits.
  - unfold riscv32_emit_load_u32. emits.
  - unfold riscv32_emit_mov_ret. rewrite emit_seq_app.
    apply emit_then_ext; intros; [by apply rv_mov_emits|by rewrite emit_seq_one].
  - unfold riscv32_emit_cap_guard_vector. destruct (256 <? len); done.
Qed.

Lemma emit_call_units arch c e :
  emit_call (T := target arch) c e =
  match call_units arch c with
  | Ok vs => emit_seq (unit_bytes arch) vs e
  | Err x => (Err x, e)
  end.
Proof. destruct arch; [apply thumb_call_emits|apply rv_call_emits]. Qed.

(** ** Emission refines appending to a bounded list of units

    A call appends its units; when they do not all fit, those that fit are
    written and the call reports [Overflow]. *)
Definition spec_emit (arch : Arch) (c : Call) (code : list Z) : Result unit EmitError * list Z :=
  let cap := (EXEC_BUFFER_SIZE arch / unit_bytes arch)%nat in
  match call_units arch c with
  | Err x => (Err x, code)
  | Ok vs => if (length code + length vs <=? cap)%nat then (Ok tt, code ++ vs)
             else (Err Overflow, take cap (code ++ vs))
  end.

(** The bytes of a list of units. *)
Definition unit_list (w : nat) (code : list Z) : list Z := concat (map (le_bytes w) code).

(** The emitter, started on [buf0], has written [code] at the start of the
    buffer and nothing else. *)
Definition em_rep (w cap : nat) (buf0 : list Z) (e : Emitter) (code : list Z) : Prop :=
  cap_words e = cap /\ len_words e = length code /\ (length code <= cap)%nat /\
  cursor e = (w * length code)%nat /\ length buf0 = (w * cap)%nat /\
  exec_buffer e = unit_list w code ++ drop (w * length code) buf0.

Lemma length_le_bytes w v : length (le_bytes w v) = w.
Proof. revert v. induction w; intros; cbn; auto. Qed.

Lemma length_unit_list w code : length (unit_list w code) = (w * length code)%nat.
Proof.
  unfold unit_list. induction code as [|v code IH]; cbn; [lia|].
  rewrite length_app, length_le_bytes, IH. lia.
Qed.

(** Bytes stay bytes, whatever is emitted. *)
Lemma le_bytes_u8 w v : Forall u8 (le_bytes w v).
Proof. revert v. induction w; intros v; cbn; constructor; [apply Z.mod_pos_bound; lia|done]. Qed.

Lemma emit_seq_u8 w vs e : Forall u8 (exec_buffer e) -> Forall u8 (exec_buffer (snd (emit_seq w vs e))).
Proof.
  revert e. induction vs as [|v vs IH]; intros e He; [done|]. cbn [emit_seq]. unfold emit_then, push.
  destruct (_ <=? _)%nat; [done|]. apply IH. cbn [exec_buffer]. unfold write_volatile.
  apply Forall_app. split; [by apply Forall_take|]. apply Forall_app. split; [apply le_bytes_u8|by apply Forall_drop].
Qed.

Lemma emit_call_u8 arch c e : Forall u8 (exec_buffer e) -> Forall u8 (exec_buffer (snd (emit_call (T := target arch) c e))).
Proof. intros He. rewrite emit_call_units. destruct (call_units arch c); [by apply emit_seq_u8|done]. Qed.

Lemma unit_list_snoc w code v : unit_list w (code ++ [v]) = unit_list w code ++ le_bytes w v.
Proof. unfold unit_list. rewrite map_app, concat_app. cbn. by rewrite app_nil_r. Qed.

Lemma push_rep w cap buf0 e code v :
  em_rep w cap buf0 e code -> (length code < cap)%nat ->
  exists e', push w v e = (Ok tt, e') /\ em_rep w cap buf0 e' (code ++ [v]).
Proof.
  intros (Hc & Hl & Hle & Hcur & Hb & Hbuf) Hlt. unfold push. rewrite Hc, Hl.
  destruct (Nat.leb_spec cap (length code)); [lia|]. eexists. split; [done|].
  unfold em_rep. cbn [cap_words len_words cursor exec_buffer]. rewrite length_app. cbn [length].
  split_and!; try lia; try done. rewrite unit_list_snoc, <- app_assoc.
  unfold write_volatile. rewrite Hbuf, Hcur.
  rewrite take_app_length' by (by rewrite length_unit_list). do 2 f_equal.
  rewrite drop_app_ge by (rewrite length_unit_list; lia). rewrite drop_drop, length_unit_list.
  f_equal. lia.
Qed.

Lemma push_full w cap buf0 e code v :
  em_rep w cap buf0 e code -> (cap <= length code)%nat -> push w v e = (Err Overflow, e).
Proof.
  intros (Hc & Hl & _) Hge. unfold push. rewrite Hc, Hl.
  by rewrite (proj2 (Nat.leb_le _ _) Hge).
Qed.

Lemma emit_seq_rep w cap buf0 vs : forall e code,
  em_rep w cap buf0 e code ->
  exists e', emit_seq w vs e =
    (if (length code + length vs <=? cap)%nat then Ok tt else Err Overflow, e') /\
    em_rep w cap buf0 e' (take cap (code ++ vs)).
Proof.
  induction vs as [|v vs IH]; intros e code Hr.
  - exists e. pose proof Hr as (_ & _ & Hle & _). cbn [length emit_seq].
    rewrite app_nil_r, Nat.add_0_r, take_ge by lia.
    by rewrite (proj2 (Nat.leb_le _ _) Hle).
  - cbn [emit_seq]. unfold emit_then. destruct (Nat.lt_ge_cases (length code) cap) as [Hlt|Hge].
    + destruct (push_rep w cap buf0 e code v Hr Hlt) as (e1 & -> & Hr1).
      destruct (IH e1 (code ++ [v]) Hr1) as (e' & -> & Hr'). exists e'.
      rewrite <- app_assoc in Hr'. split; [|done].
      rewrite length_app. cbn [length].
      replace (length code + 1 + length vs)%nat with (length code + S (length vs))%nat by lia. done.
    + rewrite (push_full w cap buf0 e code v Hr Hge). exists e. cbn [length]. split.
      * destruct (Nat.leb_spec (length code + S (length vs)) cap); [lia|done].
      * pose proof Hr as (_ & _ & Hle & _). rewrite take_app_le by lia. by rewrite take_ge by lia.
Qed.

Lemma emit_call_rep arch buf0 c e code :
  em_rep (unit_bytes arch) (EXEC_BUFFER_SIZE arch / unit_bytes arch) buf0 e code ->
  fst (emit_call (T := target arch) c e) = fst (spec_emit arch c code) /\
  em_rep (unit_bytes arch) (EXEC_BUFFER_SIZE arch / unit_bytes arch) buf0
    (snd (emit_call (T := target arch) c e)) (snd (spec_emit arch c code)).
Proof.
  intros Hr. rewrite emit_call_units. unfold spec_emit.
  destruct (call_units arch c) as [vs|x]; [|done].
  destruct (emit_seq_rep _ _ _ vs e code Hr) as (e' & -> & Hr').
  destruct (Nat.leb_spec (length code + length vs) (EXEC_BUFFER_SIZE arch / unit_bytes arch)); [|done].
  rewrite take_ge in Hr' by (rewrite length_app; lia). done.
Qed.

Lemma emitter_start_rep arch buf :
  length buf = EXEC_BUFFER_SIZE arch ->
  em_rep (unit_bytes arch) (EXEC_BUFFER_SIZE arch / unit_bytes arch) buf
    (into_exec_buffer (TargetEmitter := target arch) buf) [].
Proof.
  intros Hl. destruct arch; unfold em_rep; cbn [target Thumb2Emitter Riscv32Emitter into_exec_buffer
    thumb2_into_exec_buffer riscv32_into_exec_buffer cap_words len_words cursor exec_buffer length unit_bytes].
  all: rewrite Hl, !Nat.mul_0_r; repeat split; try done; try apply Nat.le_0_l.
Qed.

(** ** The bounded append

    The specification: a call with an operand the encoding has no place for is
    [BadRegister] and appends nothing; a call that does not fit is [Overflow]
    and fills the buffer with the units that do; any other call is appended. *)
Definition bounded_append (arch : Arch) (c : Call) (code : list Z) : Result unit EmitError * list Z :=
  let cap := (EXEC_BUFFER_SIZE arch / unit_bytes arch)%nat in
  match call_units arch c with
  | Err _ => (Err BadRegister, code)
  | Ok vs => if (length code + length vs <=? cap)%nat then (Ok tt, code ++ vs)
             else (Err Overflow, take cap (code ++ vs))
  end.

(** The RISC-V vector guard covers at most 256 blocks. *)
Definition guard_in_range (arch : Arch) (c : Call) : Prop :=
  match arch, c with Riscv32, GuardVector _ l => l <= 256 | _, _ => True end.

Lemma call_units_bad arch c x : guard_in_range arch c -> call_units arch c = Err x -> x = BadRegister.
Proof.
  intros Hg. destruct arch, c; cbn [guard_in_range call_units thumb_units rv_units] in *; try discriminate;
    unfold low3, of_option; repeat case_match; try congruence. bool_to_prop. lia.
Qed.

Lemma spec_bounded arch c code : guard_in_range arch c -> spec_emit arch c code = bounded_append arch c code.
Proof.
  intros Hg. unfold spec_emit, bounded_append. destruct (call_units arch c) as [vs|x] eqn:E; [done|].
  by rewrite (call_units_bad arch c x Hg E).
Qed.

Lemma run_spec_bounded arch calls code : Forall (guard_in_range arch) calls ->
  run (spec_emit arch) calls code = run (bounded_append arch) calls code.
Proof.
  intros Hg. revert code. induction Hg as [|c calls Hc _ IH]; intros code; [done|]. cbn [run].
  rewrite spec_bounded by done. destruct (bounded_append arch c code) as [r code1]. by rewrite IH.
Qed.


(** The exception: on an empty buffer, a guard over 257 blocks is [Overflow]. *)
Lemma rv_vector_guard_overflow a l buf : 256 < l ->
  emit_call (T := target Riscv32) (GuardVector a l) (into_exec_buffer (TargetEmitter := target Riscv32) buf) =
    (Err Overflow, into_exec_buffer (TargetEmitter := target Riscv32) buf).
Proof.
  intros Hl. rewrite emit_call_units. cbn [call_units rv_units]. by rewrite (proj2 (Z.ltb_lt _ _) Hl).
Qed.

