(* ===== verification/EmitterSem.v ===== *)
(** * EmitterSem: what the emitted code does

    The encoders of Emitter against the reference decoders of Isa: each call
    decodes to the instructions it is named after, and loading an immediate
    leaves that immediate in the register, on Thumb-2 for every word, on RV32I
    exactly for the signed twelve-bit ones. *)
From S2P Require Import Prelude Registry AuditRing Memory Isa Emitter.
Local Open Scope Z_scope.
Local Open Scope u32_scope.

(** ** Fields of packed words

    [fields] computes every field of a disjunction of shifted parts whose
    ranges are in the context. *)
Lemma u16_shl_field a k lo n :
  0 <= lo -> 0 <= n -> lo + n <= 16 -> field (u16_shl a k) lo n = field (Z.shiftl a k) lo n.
Proof. intros. unfold u16_shl. by apply (field_wrap 16). Qed.

Lemma u32_shl_field a k lo n :
  0 <= lo -> 0 <= n -> lo + n <= 32 -> field (u32_shl a k) lo n = field (Z.shiftl a k) lo n.
Proof. intros. unfold u32_shl, wrap32. rewrite M32_pow. by apply field_wrap. Qed.

Lemma field_low_above m a lo n : 0 <= a < 2 ^ m -> 0 <= m <= lo -> 0 <= n -> field a lo n = 0.
Proof. intros. rewrite <- (Z.shiftl_0_r a). apply (field_shl_below m); lia. Qed.

Ltac is_lit c := lazymatch c with Z0 => idtac | Zpos _ => idtac | Zneg _ => idtac end.

Ltac field_one :=
  match goal with
  | |- context [field ?c ?lo ?n] =>
      is_lit c; let v := eval vm_compute in (field c lo n) in change (field c lo n) with v
  | |- context [field (Z.shiftl ?a ?k) ?lo ?n] => rewrite (field_shl_above a k lo n) by lia
  | |- context [field (Z.shiftl ?a ?k) ?lo ?n] => rewrite (field_shl_at a lo n) by lia
  | |- context [field (Z.shiftl ?a ?k) ?lo ?n] =>
      let go m := rewrite (field_shl_below m a k lo n) by lia in
      first [go 1 | go 3 | go 4 | go 5 | go 7 | go 12]
  | |- context [field ?a 0 ?n] => is_var a; rewrite (field_all a n) by lia
  | |- context [field ?a ?lo ?n] =>
      is_var a;
      let go m := rewrite (field_low_above m a lo n) by lia in first [go 1 | go 3 | go 4 | go 5 | go 7 | go 8]
  end.

Ltac fields :=
  rewrite ?field_lor; rewrite ?u16_shl_field, ?u32_shl_field by lia;
  repeat field_one; rewrite ?Z.lor_0_r, ?Z.lor_0_l.

(** ** Thumb-2 *)

(** The operand fields of MOVW and MOVT. *)
Lemma decode_wide_mov base op (C : Z -> Z -> Thumb) rd i imm4 imm3 imm8 :
  (base, op) = (0xF240, 36) /\ C = T_MOVW \/ (base, op) = (0xF2C0, 44) /\ C = T_MOVT ->
  0 <= rd < 2 ^ 4 -> 0 <= i < 2 ^ 1 -> 0 <= imm4 < 2 ^ 4 -> 0 <= imm3 < 2 ^ 3 -> 0 <= imm8 < 2 ^ 8 ->
  wide_reg rd = true ->
  let hw1 := Z.lor (Z.lor base (u16_shl i 10)) imm4 in
  let hw2 := Z.lor (Z.lor (u16_shl imm3 12) (u16_shl rd 8)) imm8 in
  thumb_is_wide hw1 = true /\
  thumb_decode32 hw1 hw2 = Some (C rd (imm8 + 2 ^ 8 * (imm3 + 2 ^ 3 * (i + 2 * imm4)))).
Proof.
  intros Hb Hrd Hi H4 H3 H8 Hw hw1 hw2. subst hw1 hw2.
  destruct Hb as [[E ->]|[E ->]]; injection E as -> ->;
    unfold thumb_is_wide, thumb_decode32, thumb_imm16; fields.
    all: cbn [Z.eqb Z.leb andb]; by rewrite Hw.
Qed.

Lemma mask_field x lo n :
  0 <= lo -> 0 <= n <= 16 -> as_u16 (Z.land (u32_shr x lo) (Z.ones n)) = field x lo n.
Proof.
  intros. unfold as_u16, u32_shr. fold (field x lo n). apply Z.mod_small.
  pose proof (field_range x lo n). pose proof (Z.pow_le_mono_r 2 n 16). lia.
Qed.

Lemma mask_field0 x n : 0 <= n <= 16 -> as_u16 (Z.land x (Z.ones n)) = field x 0 n.
Proof. intros. rewrite <- (mask_field x 0 n) by lia. unfold u32_shr. by rewrite Z.shiftr_0_r. Qed.

Lemma land_mask_small n x : 0 <= n -> 0 <= x < 2 ^ n -> Z.land x (Z.ones n) = x.
Proof. intros. rewrite land_ones_field. by apply field_all. Qed.

(** The four immediate fields reassemble the low halfword. *)
Lemma imm16_join x :
  field x 0 8 + 2 ^ 8 * (field x 8 3 + 2 ^ 3 * (field x 11 1 + 2 * field x 12 4)) = x mod 2 ^ 16.
Proof.
  change (2 * field x 12 4) with (2 ^ 1 * field x (11 + 1) 4). rewrite field_join by lia.
  change (field x (11) (1 + 4)) with (field x (8 + 3) 5). rewrite field_join by lia.
  change (field x 8 (3 + 5)) with (field x (0 + 8) 8). rewrite field_join by lia.
  rewrite field_mod by lia. by rewrite Z.pow_0_r, Z.div_1_r.
Qed.

Lemma movw_decodes rd imm :
  0 <= rd < 16 -> wide_reg rd = true ->
  thumb_is_wide (encode_movw rd imm).1 = true /\
  thumb_decode32 (encode_movw rd imm).1 (encode_movw rd imm).2 = Some (T_MOVW rd (imm mod 2 ^ 16)).
Proof.
  intros Hr Hw. unfold encode_movw. cbn [fst snd].
  change 0xF with (Z.ones 4). change 0x1 with (Z.ones 1). change 0x7 with (Z.ones 3).
  change 0xFF with (Z.ones 8).
  rewrite !mask_field, mask_field0, (land_mask_small 4 rd) by lia. rewrite <- imm16_join.
  apply (decode_wide_mov _ 36); try apply field_range; auto; lia.
Qed.

Lemma movt_decodes rd imm :
  u32 imm -> 0 <= rd < 16 -> wide_reg rd = true ->
  thumb_is_wide (encode_movt rd imm).1 = true /\
  thumb_decode32 (encode_movt rd imm).1 (encode_movt rd imm).2 = Some (T_MOVT rd (imm / 2 ^ 16)).
Proof.
  intros Hu Hr Hw. unfold encode_movt. cbn [fst snd]. set (high := u32_shr imm 16).
  assert (imm / 2 ^ 16 = high mod 2 ^ 16) as ->.
  { subst high. unfold u32_shr. rewrite Z.shiftr_div_pow2 by lia. unfold u32, M32 in Hu.
    rewrite Z.mod_small; [done|]. split; [apply Z.div_pos; lia|apply Z.div_lt_upper_bound; lia]. }
  change 0xF with (Z.ones 4). change 0x1 with (Z.ones 1). change 0x7 with (Z.ones 3).
  change 0xFF with (Z.ones 8).
  rewrite !mask_field, mask_field0, (land_mask_small 4 rd) by lia. rewrite <- imm16_join.
  apply (decode_wide_mov _ 44); try apply field_range; auto; lia.
Qed.

(** The instructions a call is named after. *)
Definition thumb_mov_instrs (r v : Z) : list Thumb :=
  if (v <=? 255) && (r <? 8) then [T_MOVS_imm r v]
  else T_MOVW r (v mod 2 ^ 16) :: if v / 2 ^ 16 =? 0 then [] else [T_MOVT r (v / 2 ^ 16)].

Definition thumb_instrs (c : Call) : list Thumb :=
  match c with
  | MovImm r v => thumb_mov_instrs r v
  | StoreU32 s a => [T_STR s a 0]
  | LoadU32 d a => [T_LDR d a 0]
  | AddR d a b => [T_ADDS d a b]
  | SubR d a b => [T_SUBS d a b]
  | MulR d a b => (if a =? d then [] else [T_MOVS_reg d a]) ++ [T_MULS d b]
  | DivR d a b => [T_SDIV d a b]
  | MovRet v => thumb_mov_instrs 0 v ++ [T_BX 14]
  | Ret => [T_BX 14]
  | GuardVector a l => [T_UDF (16 * a + (l - 1))]
  | GuardCustom a k => [T_UDF (16 * k + a)]
  | GuardScalar _ _ => []
  end.

Ltac decode16 :=
  intros; repeat match goal with h := _ |- _ => subst h end;
  unfold thumb_is_wide, thumb_decode16; fields; cbn [Z.eqb Z.leb andb Pos.eqb].

Lemma movs_decodes r v :
  0 <= r < 2 ^ 3 -> 0 <= v < 2 ^ 8 ->
  let hw := Z.lor (Z.lor 0x2000 (u16_shl r 8)) v in
  thumb_is_wide hw = false /\ thumb_decode16 hw = Some (T_MOVS_imm r v).
Proof. decode16. done. Qed.

(** Encodings with three-bit operands only: checked for every operand. *)
Definition is_16 (hw : Z) (i : Thumb) : bool :=
  negb (thumb_is_wide hw) && bool_decide (thumb_decode16 hw = Some i).

Definition low_decodes (d a b : Z) : bool :=
  is_16 (Z.lor (Z.lor (Z.lor 0x1800 (u16_shl b 6)) (u16_shl a 3)) d) (T_ADDS d a b) &&
  is_16 (Z.lor (Z.lor (Z.lor 0x1A00 (u16_shl b 6)) (u16_shl a 3)) d) (T_SUBS d a b) &&
  is_16 (Z.lor (u16_shl a 3) d) (T_MOVS_reg d a) &&
  is_16 (Z.lor (Z.lor 0x4340 (u16_shl b 3)) d) (T_MULS d b) &&
  is_16 (Z.lor (Z.lor (Z.lor 0x6000 0) (u16_shl a 3)) d) (T_STR d a 0) &&
  is_16 (Z.lor (Z.lor (Z.lor 0x6800 0) (u16_shl a 3)) d) (T_LDR d a 0).

Definition udf_decodes (a b : Z) : bool :=
  is_16 (Z.lor (Z.lor 0xDE00 (u16_shl a 4)) b) (T_UDF (16 * a + b)).

Lemma forallb_below (P : Z -> bool) n x :
  forallb P (seqZ 0 n) = true -> 0 <= x < n -> P x = true.
Proof.
  intros Hf Hx. rewrite forallb_forall in Hf. apply Hf.
  apply list_elem_of_In, elem_of_seqZ. lia.
Qed.

Lemma low_decodes_all d a b : 0 <= d < 8 -> 0 <= a < 8 -> 0 <= b < 8 -> low_decodes d a b = true.
Proof.
  intros Hd Ha Hb. apply (forallb_below (low_decodes d a) 8 b); [|done].
  apply (forallb_below (fun a => forallb (low_decodes d a) (seqZ 0 8)) 8 a); [|done].
  apply (forallb_below (fun d => forallb (fun a => forallb (low_decodes d a) (seqZ 0 8)) (seqZ 0 8)) 8 d);
    [|done]. vm_compute. reflexivity.
Qed.

Lemma udf_decodes_all a b : 0 <= a < 8 -> 0 <= b < 16 -> udf_decodes a b = true.
Proof.
  intros Ha Hb. apply (forallb_below (udf_decodes a) 16 b); [|done].
  apply (forallb_below (fun a => forallb (udf_decodes a) (seqZ 0 16)) 8 a); [|done].
  vm_compute. reflexivity.
Qed.

Lemma is_16_codes hw i : is_16 hw i = true -> thumb_codes [hw] [i].
Proof.
  unfold is_16. intros Hd. bool_to_prop. apply codes_16; [done|done|constructor].
Qed.

Lemma low_codes d a b : 0 <= d < 8 -> 0 <= a < 8 -> 0 <= b < 8 ->
  thumb_codes [Z.lor (Z.lor (Z.lor 0x1800 (u16_shl b 6)) (u16_shl a 3)) d] [T_ADDS d a b] /\
  thumb_codes [Z.lor (Z.lor (Z.lor 0x1A00 (u16_shl b 6)) (u16_shl a 3)) d] [T_SUBS d a b] /\
  thumb_codes [Z.lor (u16_shl a 3) d] [T_MOVS_reg d a] /\
  thumb_codes [Z.lor (Z.lor 0x4340 (u16_shl b 3)) d] [T_MULS d b] /\
  thumb_codes [Z.lor (Z.lor (Z.lor 0x6000 0) (u16_shl a 3)) d] [T_STR d a 0] /\
  thumb_codes [Z.lor (Z.lor (Z.lor 0x6800 0) (u16_shl a 3)) d] [T_LDR d a 0].
Proof.
  intros Hd Ha Hb. pose proof (low_decodes_all d a b Hd Ha Hb) as Hl. unfold low_decodes in Hl.
  bool_to_prop. split_and!; by apply is_16_codes.
Qed.

(** A call whose operands the manual admits; register 13 and 15 are not
    general operands, MULS overwrites its first source. *)
Definition thumb_call_ok (c : Call) : Prop :=
  match c with
  | MovImm r v => 0 <= r < 16 /\ wide_reg r = true /\ u32 v
  | StoreU32 s a => 0 <= s < 8 /\ 0 <= a < 8
  | LoadU32 d a => 0 <= d < 8 /\ 0 <= a < 8
  | AddR d a b | SubR d a b => 0 <= d < 8 /\ 0 <= a < 8 /\ 0 <= b < 8
  | MulR d a b => 0 <= d < 8 /\ 0 <= a < 8 /\ 0 <= b < 8 /\ (a = d \/ b <> d)
  | _ => False
  end.

Lemma thumb_mov_codes r v :
  0 <= r < 16 -> wide_reg r = true -> u32 v ->
  thumb_codes (thumb_mov_units r v) (thumb_mov_instrs r v).
Proof.
  intros Hr Hw Hv. unfold thumb_mov_units, thumb_mov_instrs. unfold u32 in Hv.
  destruct ((v <=? 0xFF) && (r <? 8)) eqn:E.
  - bool_to_prop. unfold as_u16. rewrite Z.mod_small by lia.
    change 0xFF with (Z.ones 8). rewrite land_mask_small by lia.
    destruct (movs_decodes r v) as [Hn Hd]; [lia..|]. apply codes_16; [done|done|constructor].
  - destruct (movw_decodes r v Hr Hw) as [Hwd Hdd], (movt_decodes r v Hv Hr Hw) as [Htw Htd].
    unfold u32_shr. rewrite Z.shiftr_div_pow2 by lia.
    eapply codes_32; [done|done|]. destruct (v / 2 ^ 16 =? 0); [constructor|].
    eapply codes_32; [done|done|constructor].
Qed.

Lemma thumb_low_bad_false d a b :
  0 <= d < 8 -> 0 <= a < 8 -> 0 <= b < 8 -> thumb2_low_regs_bad d a b = false.
Proof. intros. unfold thumb2_low_regs_bad. destruct (Z.ltb_spec 7 d), (Z.ltb_spec 7 a), (Z.ltb_spec 7 b); auto; lia. Qed.

Lemma thumb_offset0_good r a : 0 <= r < 8 -> 0 <= a < 8 -> thumb_offset_bad r a 0 = false.
Proof. intros. unfold thumb_offset_bad. destruct (Z.ltb_spec 7 r), (Z.ltb_spec 7 a); auto; lia. Qed.

(** An admitted call succeeds and decodes to its instructions. *)
Lemma thumb_call_codes c :
  thumb_call_ok c -> exists vs, thumb_units c = Ok vs /\ thumb_codes vs (thumb_instrs c).
Proof.
  destruct c as [r v|s a|d a|d a b|d a b|d a b|d a b| | | | |]; cbn [thumb_call_ok]; try done.
  - intros (Hr & Hw & Hv). cbn [thumb_units]. destruct (Z.ltb_spec 15 r); [lia|].
    eexists. split; [done|]. by apply thumb_mov_codes.
  - intros (Hs & Ha). cbn [thumb_units]. unfold encode_str_imm. rewrite thumb_offset0_good by done.
    eexists. split; [done|]. apply (low_codes s a 0); lia.
  - intros (Hd & Ha). cbn [thumb_units]. unfold encode_ldr_imm. rewrite thumb_offset0_good by done.
    eexists. split; [done|]. apply (low_codes d a 0); lia.
  - intros (Hd & Ha & Hb). cbn [thumb_units]. unfold low3. rewrite thumb_low_bad_false by done.
    eexists. split; [done|]. by apply low_codes.
  - intros (Hd & Ha & Hb). cbn [thumb_units]. unfold low3. rewrite thumb_low_bad_false by done.
    eexists. split; [done|]. by apply low_codes.
  - intros (Hd & Ha & Hb & _). cbn [thumb_units]. unfold low3. rewrite thumb_low_bad_false by done.
    eexists. split; [done|]. destruct (low_codes d a b Hd Ha Hb) as (_ & _ & Hm & Hl & _).
    apply thumb_codes_app; [|done]. destruct (a =? d); [constructor|done].
Qed.

(** ** What a call does

    The trait's documentation as a state change: registers and machine. *)
Section Effects.
Context {B : Type} `{Bus B}.

Definition reg_read (arch : Arch) (g : Z -> Z) (r : Z) : Z :=
  match arch with Arm => g r | Riscv32 => if r =? 0 then 0 else g r end.

(** [dst = a / b], signed, truncating toward zero; div-by-zero returns 0. *)
Definition doc_div (a b : Z) : Z := if b =? 0 then 0 else wrap32 (Z.quot (signed a) (signed b)).

Definition call_effect (arch : Arch) (c : Call) (s : Cpu B) : Cpu B :=
  let g := reg_read arch (cpu_regs s) in
  match c with
  | MovImm r v => cpu_set s r v
  | StoreU32 src a => cpu_store arch s (g a) (g src)
  | LoadU32 d a => cpu_load arch s d (g a)
  | AddR d a b => cpu_set s d (g a +w g b)
  | SubR d a b => cpu_set s d (g a -w g b)
  | MulR d a b => cpu_set s d (g a *w g b)
  | DivR d a b => cpu_set s d (doc_div (g a) (g b))
  | _ => s
  end.

(** States that agree on every register and on the machine. *)
Definition cpu_eq (s t : Cpu B) : Prop :=
  (forall r, cpu_regs s r = cpu_regs t r) /\ cpu_mach s = cpu_mach t.

#[export] Instance cpu_eq_equivalence : Equivalence cpu_eq.
Proof.
  split; [by split|intros s t [Hr Hm]; by split|].
  intros s t u [Hr Hm] [Hr' Hm']. split; [|congruence]. intros r. by rewrite Hr.
Qed.

Definition regs_u32 (s : Cpu B) : Prop := forall r, u32 (cpu_regs s r).

Lemma cpu_set_twice s r u v : cpu_eq (cpu_set (cpu_set s r u) r v) (cpu_set s r v).
Proof.
  split; [|done]. intros r'. cbn. unfold set_reg. by destruct (r' =? r).
Qed.

Lemma u32_add_0_r x : u32 x -> x +w 0 = x.
Proof. intros. unfold u32_add. rewrite Z.add_0_r. by apply wrap32_small. Qed.

Lemma thumb_mov_steps r v s :
  u32 v -> exists s', thumb_steps (thumb_mov_instrs r v) s = Some s' /\ cpu_eq s' (cpu_set s r v).
Proof.
  intros Hv. unfold u32, M32 in Hv. unfold thumb_mov_instrs.
  destruct ((v <=? 255) && (r <? 8)); [by eexists|].
  destruct (Z.eqb_spec (v / 2 ^ 16) 0) as [E|E]; cbn [thumb_steps thumb_step].
  - eexists. split; [done|]. apply Z.div_small_iff in E; [|lia]. by rewrite Z.mod_small by lia.
  - eexists. split; [done|]. cbn [cpu_set cpu_regs]. rewrite set_reg_eq, Z.mod_mod by lia.
    replace (v mod 2 ^ 16 + 2 ^ 16 * (v / 2 ^ 16)) with v by (pose proof (Z.div_mod v (2 ^ 16)); lia). apply cpu_set_twice.
Qed.

(** Admitted calls run to the documented effect. *)
Lemma thumb_instrs_effect c s :
  thumb_call_ok c -> regs_u32 s ->
  exists s', thumb_steps (thumb_instrs c) s = Some s' /\ cpu_eq s' (call_effect Arm c s).
Proof.
  intros Hc Hs. destruct c as [r v|src a|d a|d a b|d a b|d a b|d a b| | | | |]; cbn [thumb_call_ok] in Hc; try done.
  - apply thumb_mov_steps. apply Hc.
  - eexists. split; [done|]. cbn. by rewrite u32_add_0_r.
  - eexists. split; [done|]. cbn. by rewrite u32_add_0_r.
  - eexists. by split.
  - eexists. by split.
  - destruct Hc as (_ & _ & _ & Hab). cbn [thumb_instrs]. destruct (Z.eqb_spec a d) as [->|Hne]; cbn.
    + eexists. split; [done|]. unfold u32_mul. by rewrite Z.mul_comm.
    + destruct Hab as [?|Hb]; [done|]. eexists. split; [done|].
      rewrite set_reg_eq, set_reg_ne by done. unfold u32_mul. rewrite Z.mul_comm. apply cpu_set_twice.
Qed.

(** C25. The Thumb-2 backend does what the trait documents: a call with
    operands the architecture manual admits succeeds, and its halfwords,
    followed by any code, execute to the documented effect (every 32-bit
    immediate is loaded exactly, stores, loads, sums, differences and products
    change the one register or memory word they name and nothing else). *)
Theorem thumb2_calls_correct (c : Call) (s : Cpu B) :
  thumb_call_ok c -> regs_u32 s ->
  exists vs s', call_units Arm c = Ok vs /\
    (forall rest, thumb_run (vs ++ rest) s = thumb_run rest s') /\ cpu_eq s' (call_effect Arm c s).
Proof.
  intros Hc Hs. destruct (thumb_call_codes c Hc) as (vs & Hu & Hd).
  destruct (thumb_instrs_effect c s Hc Hs) as (s' & He & Heq).
  exists vs, s'. split; [done|]. split; [|done]. intros rest. by apply (thumb_run_codes vs (thumb_instrs c)).
Qed.

(** ** RV32I *)
Lemma land_mask n x : 0 <= n -> Z.land x (Z.ones n) = x mod 2 ^ n.
Proof. apply Z.land_ones. Qed.

Lemma addi_decodes rd rs1 imm :
  0 <= rd < 32 -> 0 <= rs1 < 32 ->
  rv_decode (encode_addi rd rs1 imm) = Some (RV_ADDI rd rs1 (sext 12 (imm mod 2 ^ 12))).
Proof.
  intros Hd Hs. unfold encode_addi. change 0x1F with (Z.ones 5). change 0xFFF with (Z.ones 12).
  rewrite !(land_mask_small 5), land_mask by lia.
  pose proof (Z.mod_pos_bound imm (2 ^ 12) ltac:(lia)) as Hi. set (f := imm mod 2 ^ 12) in *. clearbody f.
  unfold rv_decode, rv_rd, rv_rs1, rv_rs2. fields. done.
Qed.

Lemma sw_decodes rs2 rs1 :
  0 <= rs2 < 32 -> 0 <= rs1 < 32 ->
  exists w, encode_sw rs2 rs1 0 = Some w /\ rv_decode w = Some (RV_SW rs2 rs1 0).
Proof.
  intros H2 H1. eexists. split; [done|]. change 0x1F with (Z.ones 5).
  rewrite !(land_mask_small 5 rs2), !(land_mask_small 5 rs1) by lia.
  change (u32_shl (u32_shr (Z.land 0 0xFFF) 5) 25) with 0.
  change (u32_shl (Z.land (Z.land 0 0xFFF) (Z.ones 5)) 7) with 0. change (u32_shl 2 12) with 8192.
  unfold rv_decode, rv_rd, rv_rs1, rv_rs2. fields. done.
Qed.

Lemma lw_decodes rd rs1 :
  0 <= rd < 32 -> 0 <= rs1 < 32 ->
  exists w, encode_lw rd rs1 0 = Some w /\ rv_decode w = Some (RV_LW rd rs1 0).
Proof.
  intros Hd H1. eexists. split; [done|]. change 0x1F with (Z.ones 5).
  rewrite !(land_mask_small 5 rd), !(land_mask_small 5 rs1) by lia.
  change (u32_shl (Z.land 0 0xFFF) 20) with 0. change (u32_shl 2 12) with 8192.
  unfold rv_decode, rv_rd, rv_rs1, rv_rs2. fields. done.
Qed.

Lemma rtype_decodes rd rs1 rs2 f7 f3 :
  0 <= rd < 32 -> 0 <= rs1 < 32 -> 0 <= rs2 < 32 -> 0 <= f7 < 2 ^ 7 -> 0 <= f3 < 2 ^ 3 ->
  rv_decode (encode_rtype rd rs1 rs2 f7 f3) = rv_op f7 f3 rd rs1 rs2.
Proof.
  intros Hd H1 H2 H7 H3. unfold encode_rtype. change 0x1F with (Z.ones 5).
  rewrite !(land_mask_small 5) by lia.
  unfold rv_decode, rv_rd, rv_rs1, rv_rs2. fields. done.
Qed.

Lemma addsub_is_rtype rd rs1 rs2 sub :
  encode_rtype_addsub rd rs1 rs2 sub = encode_rtype rd rs1 rs2 (if sub then 0x20 else 0) 0.
Proof. unfold encode_rtype_addsub, encode_rtype. by rewrite (Z.lor_0_r (Z.lor (Z.lor _ _) _)). Qed.

(** [encode_lui] puts the immediate at bit 20: the upper-immediate field of
    the instruction receives its low twelve bits, eight places too high. *)
Lemma lui_decodes rd imm20 :
  0 <= rd < 32 -> rv_decode (encode_lui rd imm20) = Some (RV_LUI rd (256 * (imm20 mod 2 ^ 12))).
Proof.
  intros Hd. unfold encode_lui. change 0x1F with (Z.ones 5). change 0xFFFFF with (Z.ones 20).
  rewrite (land_mask_small 5), land_mask by lia.
  assert (u32_shl (imm20 mod 2 ^ 20) 20 = Z.shiftl (imm20 mod 2 ^ 12) 20) as ->.
  { unfold u32_shl, wrap32, M32. rewrite !Z.shiftl_mul_pow2 by lia.
    change 4294967296 with (2 ^ 12 * 2 ^ 20). rewrite Z.mul_mod_distr_r by lia.
    by rewrite Z.mod_mod_divide by (by exists (2 ^ 8)). }
  pose proof (Z.mod_pos_bound imm20 (2 ^ 12) ltac:(lia)) as Hi. set (f := imm20 mod 2 ^ 12) in *. clearbody f.
  unfold rv_decode, rv_rd. fields. cbn [Z.eqb Pos.eqb]. do 2 f_equal.
  rewrite field_mod, Z.shiftl_mul_pow2 by lia. change (2 ^ 20) with (256 * 2 ^ 12).
  rewrite Z.mul_assoc, Z.div_mul by lia. rewrite Z.mod_small by lia. lia.
Qed.

(** The word the RV32I backend really leaves in the register. *)
Definition rv_small (v : Z) : bool := (v <=? 0x7FF) || (0xFFFFF800 <=? v).

Definition rv_mov_value (v : Z) : Z :=
  if rv_small v then v
  else wrap32 (2 ^ 20 * (((v +w 0x800) / 2 ^ 12) mod 2 ^ 12) + sext 12 (v mod 2 ^ 12)).

Definition rv_mov_instrs (r v : Z) : list Rv :=
  if rv_small v then [RV_ADDI r 0 (sext 12 (v mod 2 ^ 12))]
  else
    RV_LUI r (256 * (((v +w 0x800) / 2 ^ 12) mod 2 ^ 12)) ::
    if v mod 2 ^ 12 =? 0 then [] else [RV_ADDI r r (sext 12 (v mod 2 ^ 12))].

Lemma sext12_unique x k : -2048 <= x - 4096 * k < 2048 -> sext 12 (x mod 2 ^ 12) = x - 4096 * k.
Proof.
  intros Hs. unfold sext. pose proof (Z.div_mod x 4096). pose proof (Z.mod_pos_bound x 4096).
  change (2 ^ 12) with 4096. change (2 ^ (12 - 1)) with 2048.
  destruct (Z.ltb_spec (x mod 4096) 2048); nia.
Qed.

(** The rounding by 0x800 splits a word into its upper immediate and a
    signed twelve-bit remainder. *)
Lemma hi_lo_split v :
  u32 v ->
  let h := (v +w 0x800) / 2 ^ 12 in
  0 <= h < 2 ^ 20 /\ -2048 <= sext 12 (v mod 2 ^ 12) < 2048 /\
  v = wrap32 (2 ^ 12 * h + sext 12 (v mod 2 ^ 12)) /\
  v -w u32_shl h 12 = wrap32 (sext 12 (v mod 2 ^ 12)) /\
  (h = 0 -> rv_small v = true).
Proof.
  intros Hv h. unfold u32, M32 in Hv. subst h. unfold u32_add, u32_sub, u32_shl, wrap32, M32, rv_small.
  change (2 ^ 12) with 4096 in *. change (2 ^ 20) with 1048576.
  destruct (Z.lt_ge_cases (v + 2048) 4294967296) as [Hlt|Hge].
  - rewrite (Z.mod_small (v + 0x800)) by lia. set (h := (v + 0x800) / 4096).
    assert (0 <= h < 1048576 /\ -2048 <= v - 4096 * h < 2048) as [Hh Hs].
    { subst h. pose proof (Z.div_mod (v + 2048) 4096). pose proof (Z.mod_pos_bound (v + 2048) 4096). lia. }
    change 4096 with (2 ^ 12) in |- * at 1. rewrite Z.shiftl_mul_pow2 by lia.
    pose proof (sext12_unique v h Hs) as Hx. change (2 ^ 12) with 4096 in *. rewrite Hx.
    rewrite (Z.mod_small (h * 4096)) by lia.
    split_and!; try lia; try (rewrite Z.mod_small; lia); try (f_equal; lia).
  - assert ((v + 0x800) mod 4294967296 = v + 2048 - 4294967296) as ->.
    { rewrite <- (Z.mod_unique_pos (v + 2048) 4294967296 1 (v + 2048 - 4294967296)); lia. }
    rewrite (Z.div_small (v + 2048 - 4294967296)) by lia. rewrite Z.shiftl_0_l, Z.mod_0_l by lia.
    pose proof (sext12_unique v 1048576 ltac:(lia)) as Hx. change (2 ^ 12) with 4096 in *. rewrite Hx.
    split_and!; try lia; rewrite ?Z.sub_0_r, ?(Z.mod_small v) by lia;
      rewrite <- (Z.mod_unique_pos _ 4294967296 (-1) v); lia.
Qed.

Lemma wrap32_sext_zero x : wrap32 (sext 12 (x mod 2 ^ 12)) = 0 <-> x mod 2 ^ 12 = 0.
Proof.
  pose proof (Z.mod_pos_bound x (2 ^ 12) ltac:(lia)) as Hb. unfold sext, wrap32, M32.
  change (2 ^ (12 - 1)) with 2048. change (2 ^ 12) with 4096 in *.
  destruct (Z.ltb_spec (x mod 4096) 2048).
  - by rewrite (Z.mod_small (x mod 4096) 4294967296) by lia.
  - rewrite <- (Z.mod_unique_pos _ 4294967296 (-1) (x mod 4096 - 4096 + 4294967296)); lia.
Qed.

Lemma sext_wrap32 y : -2048 <= y < 2048 -> sext 12 (wrap32 y mod 2 ^ 12) = y.
Proof.
  intros Hy. unfold wrap32, M32. rewrite Z.mod_mod_divide by (by exists (2 ^ 20)).
  rewrite (sext12_unique y 0); lia.
Qed.

Lemma rv_mov_codes r v : 0 <= r < 32 -> u32 v -> rv_codes (rv_mov_units r v) (rv_mov_instrs r v).
Proof.
  intros Hr Hv. unfold rv_mov_units, rv_mov_instrs. fold (rv_small v).
  destruct (rv_small v); [constructor; [apply addi_decodes; lia|constructor]|].
  unfold u32_shr. rewrite Z.shiftr_div_pow2 by lia.
  destruct (hi_lo_split v Hv) as (_ & Hs & _ & -> & _). constructor; [by apply lui_decodes|].
  destruct (Z.eqb_spec (wrap32 (sext 12 (v mod 2 ^ 12))) 0) as [E|E];
    rewrite wrap32_sext_zero in E; destruct (Z.eqb_spec (v mod 2 ^ 12) 0); try done; constructor.
  - rewrite addi_decodes, sext_wrap32 by lia. done.
  - constructor.
Qed.

Lemma rv_mov_steps r v s :
  0 < r < 32 -> u32 v ->
  exists s', rv_steps (rv_mov_instrs r v) s = Some s' /\ cpu_eq s' (cpu_set s r (rv_mov_value v)).
Proof.
  intros Hr Hv. pose proof (hi_lo_split v Hv) as (_ & Hs & _).
  assert ((r =? 0) = false) as Hr0 by lia.
  unfold rv_mov_instrs, rv_mov_value. destruct (rv_small v) eqn:Es; cbn [rv_steps rv_step].
  - eexists. split; [done|]. cbn. unfold rv_small, u32, M32 in *. unfold u32_add. rewrite Z.add_0_l.
    assert (wrap32 (sext 12 (v mod 2 ^ 12)) = v) as ->; [|done]. unfold wrap32, M32.
    destruct (Z.leb_spec v 2047) as [Hl|Hl].
    + rewrite (sext12_unique v 0) by lia. rewrite Z.mod_small by lia. lia.
    + rewrite (sext12_unique v 1048576) by lia. rewrite <- (Z.mod_unique_pos _ 4294967296 (-1) v); lia.
  - set (t := ((v +w 0x800) / 2 ^ 12) mod 2 ^ 12).
    assert (wrap32 (2 ^ 12 * (256 * t)) = 2 ^ 20 * t) as Hl.
    { replace (2 ^ 12 * (256 * t)) with (2 ^ 20 * t) by lia. apply wrap32_small. unfold u32, M32. pose proof (Z.mod_pos_bound ((v +w 0x800) / 2 ^ 12) (2 ^ 12)). lia. }
    destruct (Z.eqb_spec (v mod 2 ^ 12) 0) as [E|E]; cbn [rv_steps rv_step].
    + eexists. split; [done|]. rewrite E, <- Hl. unfold sext. cbn -[t Z.mul wrap32].
      rewrite Z.add_0_r. rewrite (wrap32_small (wrap32 _)) by apply wrap32_range. done.
    + eexists. split; [done|]. unfold rv_get. cbn [cpu_set cpu_regs]. rewrite Hr0, set_reg_eq, Hl.
      apply cpu_set_twice.
Qed.

(** The RV32I immediate load is exact on the signed twelve-bit words and
    on no other: whatever word is requested, the emitted code executes to
    [rv_mov_value], and that is the requested word exactly when it lies in
    0..0x7FF or 0xFFFFF800..0xFFFFFFFF. *)
Theorem riscv32_mov_imm_exact (r v : Z) (s : Cpu B) :
  0 < r < 32 -> u32 v ->
  (exists s', (forall rest, rv_run (rv_mov_units r v ++ rest) s = rv_run rest s') /\
     cpu_eq s' (cpu_set s r (rv_mov_value v))) /\
  (rv_mov_value v = v <-> v <= 0x7FF \/ 0xFFFFF800 <= v).
Proof.
  intros Hr Hv. split.
  - destruct (rv_mov_steps r v s Hr Hv) as (s' & Hs & He). exists s'. split; [|done].
    intros rest. apply (rv_run_codes _ (rv_mov_instrs r v)); [apply rv_mov_codes; [lia|done]|done].
  - destruct (hi_lo_split v Hv) as (Hh & Hs & Hvv & _ & H0). unfold rv_mov_value.
    assert (rv_small v = true <-> v <= 0x7FF \/ 0xFFFFF800 <= v) as Hsm by (unfold rv_small; lia).
    destruct (rv_small v); [naive_solver|]. rewrite <- Hsm. split; [|done]. intros E.
    apply H0. set (h := (v +w 0x800) / 2 ^ 12) in *. rewrite Hvv in E at 2.
    set (y := sext 12 (v mod 2 ^ 12)) in *. clearbody h y. clear H0 Hvv Hsm Hv.
    unfold wrap32, M32 in E. pose proof (Z.div_mod h (2 ^ 12)).
    pose proof (Z.div_mod (2 ^ 20 * (h mod 2 ^ 12) + y) 4294967296).
    pose proof (Z.div_mod (2 ^ 12 * h + y) 4294967296).
    pose proof (Z.mod_pos_bound h (2 ^ 12)). lia.
Qed.

(** Operands the RV32I backend encodes faithfully: five-bit registers, a
    destination other than x0, a signed twelve-bit immediate. *)
Definition rv_call_ok (c : Call) : Prop :=
  match c with
  | MovImm r v => 0 < r < 32 /\ u32 v /\ rv_small v = true
  | StoreU32 s a => 0 <= s < 32 /\ 0 <= a < 32
  | LoadU32 d a => 0 < d < 32 /\ 0 <= a < 32
  | AddR d a b | SubR d a b | MulR d a b | DivR d a b => 0 < d < 32 /\ 0 <= a < 32 /\ 0 <= b < 32
  | _ => False
  end.

Lemma reg_read_u32 s r : regs_u32 s -> u32 (rv_get s r).
Proof. intros Hs. unfold rv_get. destruct (r =? 0); [unfold u32, M32; lia|apply Hs]. Qed.

(** One word that decodes to one instruction. *)
Lemma rv_one_word w i s s' :
  rv_decode w = Some i -> rv_step i s = Some s' ->
  forall rest, rv_run ([w] ++ rest) s = rv_run rest s'.
Proof.
  intros Hd Hs rest. apply (rv_run_codes [w] [i]); [by constructor|]. cbn. by rewrite Hs.
Qed.

(** A register-register call is one word that decodes to its instruction. *)
Ltac rtype_call :=
  eexists _, _; split; [done|];
  split; [eapply rv_one_word; [rewrite rtype_decodes by lia; done|done]|reflexivity].

(** A division by zero is not among the calls the backend gets right. *)
Definition divides (c : Call) (s : Cpu B) : Prop :=
  match c with DivR _ _ b => rv_get s b <> 0 | _ => True end.

(** C27. The RV32I backend does what the trait documents on the operands it
    encodes faithfully (five-bit registers, a destination other than x0,
    immediates of twelve signed bits) and, for a division, when the divisor is
    not zero: the call succeeds and its words, followed by any code, execute to
    the documented effect. *)
Theorem riscv32_calls_correct (c : Call) (s : Cpu B) :
  rv_call_ok c -> divides c s -> regs_u32 s ->
  exists vs s', call_units Riscv32 c = Ok vs /\
    (forall rest, rv_run (vs ++ rest) s = rv_run rest s') /\ cpu_eq s' (call_effect Riscv32 c s).
Proof.
  intros Hc Hz Hs. destruct c as [r v|src a|d a|d a b|d a b|d a b|d a b| | | | |]; cbn [rv_call_ok] in Hc; try done;
    cbn [call_units rv_units of_option].
  - destruct Hc as (Hr & Hv & Hsm). destruct (rv_mov_steps r v s Hr Hv) as (s' & Hst & He).
    exists (rv_mov_units r v), s'. split_and!; [done| |by unfold rv_mov_value in He; rewrite Hsm in He].
    intros rest. apply (rv_run_codes _ (rv_mov_instrs r v)); [apply rv_mov_codes; [lia|done]|done].
  - destruct (sw_decodes src a) as (w & -> & Hd); [lia..|]. eexists _, _. split; [done|].
    split; [by eapply rv_one_word|]. rewrite u32_add_0_r by by apply reg_read_u32. reflexivity.
  - destruct (lw_decodes d a) as (w & -> & Hd); [lia..|]. eexists _, _. split; [done|].
    split; [by eapply rv_one_word|]. rewrite u32_add_0_r by by apply reg_read_u32. reflexivity.
  - rewrite addsub_is_rtype. rtype_call.
  - rewrite addsub_is_rtype. rtype_call.
  - rtype_call.
  - eexists _, _. split; [done|]. split; [eapply rv_one_word; [rewrite rtype_decodes by lia; done|done]|].
    cbn [divides] in Hz. unfold call_effect, doc_div, rv_div. change (reg_read Riscv32 (cpu_regs s)) with (rv_get s).
    by rewrite (proj2 (Z.eqb_neq _ _) Hz).
Qed.

(** Divided by zero, it leaves all ones instead of the documented 0. *)
Lemma riscv32_div_by_zero d a b (s : Cpu B) :
  0 < d < 32 -> 0 <= a < 32 -> 0 <= b < 32 -> rv_get s b = 0 ->
  exists vs s', call_units Riscv32 (DivR d a b) = Ok vs /\
    (forall rest, rv_run (vs ++ rest) s = rv_run rest s') /\ cpu_regs s' d = 0xFFFFFFFF /\
    cpu_regs (call_effect Riscv32 (DivR d a b) s) d = 0.
Proof.
  intros Hd Ha Hb Hz. cbn [call_units rv_units]. eexists _, _. split; [done|].
  split; [eapply rv_one_word; [rewrite rtype_decodes by lia; done|done]|].
  unfold call_effect, doc_div, rv_div. change (reg_read Riscv32 (cpu_regs s)) with (rv_get s). rewrite Hz. cbn.
  by rewrite !set_reg_eq.
Qed.

(** ** Where the encodings fall short *)

(** The second halfword of [encode_sdiv] is no SDIV encoding: emitted
    divisions fault on Thumb-2, whatever the registers. *)
Lemma thumb2_div_faults d a b rest (s : Cpu B) :
  0 <= d < 16 -> 0 <= a < 16 -> 0 <= b < 16 ->
  exists vs, call_units Arm (DivR d a b) = Ok vs /\ thumb_run (vs ++ rest) s = (Fault, s).
Proof.
  intros Hd Ha Hb. cbn [call_units thumb_units]. unfold encode_sdiv. cbn [fst snd].
  destruct (Z.ltb_spec 15 d), (Z.ltb_spec 15 a), (Z.ltb_spec 15 b); try lia. cbn [orb].
  eexists. split; [done|]. cbn [app thumb_run].
  assert (forallb (fun a => thumb_is_wide (Z.lor 0xFB90 a) &&
    forallb (fun d => forallb (fun b =>
      bool_decide (thumb_decode32 (Z.lor 0xFB90 a) (Z.lor (Z.lor 0xF010 (u16_shl d 8)) b) = None))
      (seqZ 0 16)) (seqZ 0 16)) (seqZ 0 16) = true) as Hall by (vm_compute; reflexivity).
  apply (forallb_below _ 16 a) in Hall; [|done]. apply andb_true_iff in Hall as [Hw Hall].
  apply (forallb_below _ 16 d) in Hall; [|done]. apply (forallb_below _ 16 b) in Hall; [|done].
  apply bool_decide_eq_true in Hall. by rewrite Hw, Hall.
Qed.

(** When the destination of a product is its second factor, the move of the
    first factor destroys it: the code squares the first factor. *)
Lemma thumb2_mul_clobbers d a (s : Cpu B) :
  0 <= d < 8 -> 0 <= a < 8 -> a <> d ->
  exists vs s', call_units Arm (MulR d a d) = Ok vs /\
    (forall rest, thumb_run (vs ++ rest) s = thumb_run rest s') /\
    cpu_regs s' d = cpu_regs s a *w cpu_regs s a.
Proof.
  intros Hd Ha Hne. cbn [call_units thumb_units]. unfold low3. rewrite thumb_low_bad_false by done.
  destruct (low_codes d a d Hd Ha Hd) as (_ & _ & Hm & Hl & _).
  rewrite (proj2 (Z.eqb_neq a d) Hne). eexists _, _. split; [done|]. split.
  - intros rest. eapply thumb_run_codes; [by apply thumb_codes_app|]. done.
  - cbn. by rewrite !set_reg_eq.
Qed.

(** The two dense guards of Thumb-2 share their encodings: a vector guard on
    register [k] for [a + 1] blocks is a custom guard on [a] with [k]; and the
    RV32I vector guard does not tell 256 blocks from none. *)
Lemma guard_encodings_collide a k :
  0 <= a < 8 -> 0 <= k < 8 ->
  call_units Arm (GuardVector k (a + 1)) = call_units Arm (GuardCustom a k) /\
  call_units Riscv32 (GuardVector k 256) = call_units Riscv32 (GuardVector k 0).
Proof.
  intros Ha Hk. split; [|done]. cbn [call_units thumb_units].
  destruct (Z.ltb_spec 7 k), (Z.ltb_spec 16 (a + 1)), (Z.ltb_spec 7 a); try lia. cbn [orb].
  do 3 f_equal. unfold u32_sub. replace (a + 1 - 1) with a by lia.
  rewrite wrap32_small by (unfold u32, M32; lia).
  change 0x0F with (Z.ones 4). rewrite land_mask_small by lia. unfold as_u16. apply Z.mod_small. lia.
Qed.
End Effects.

(** ** Witnesses *)
Definition demo_cpu : Cpu (gmap Z Z) := {| cpu_regs := fun _ => 0; cpu_mach := boot_machine ∅ |}.

Lemma thumb2_calls_correct_witness :
  exists vs s', call_units Arm (MovImm 1 0x40020018) = Ok vs /\
    (forall rest, thumb_run (vs ++ rest) demo_cpu = thumb_run rest s') /\
    cpu_eq s' (call_effect Arm (MovImm 1 0x40020018) demo_cpu).
Proof.
  apply (thumb2_calls_correct (MovImm 1 0x40020018) demo_cpu).
  - unfold thumb_call_ok, u32, M32. split_and!; try lia; reflexivity.
  - intros r. unfold u32, M32. cbn. lia.
Defined.

Lemma riscv32_calls_correct_witness :
  let s := cpu_set demo_cpu 11 7 in
  exists vs s', call_units Riscv32 (DivR 10 0 11) = Ok vs /\
    (forall rest, rv_run (vs ++ rest) s = rv_run rest s') /\
    cpu_eq s' (call_effect Riscv32 (DivR 10 0 11) s).
Proof.
  apply (riscv32_calls_correct (DivR 10 0 11) (cpu_set demo_cpu 11 7)).
  - unfold rv_call_ok. lia.
  - cbn. lia.
  - intros r. unfold u32, M32. cbn. unfold set_reg. destruct (r =? 11); lia.
Defined.

Lemma riscv32_mov_imm_exact_witness :
  rv_mov_value 0x10012008 = 0x01200008 /\ rv_mov_value 0x10012008 <> 0x10012008.
Proof.
  split; [vm_compute; reflexivity|]. intros E.
  apply (proj2 (riscv32_mov_imm_exact 10 0x10012008 demo_cpu ltac:(lia) ltac:(unfold u32, M32; lia))) in E. lia.
Defined.
