(* ===== verification/Native.v ===== *)
(** * Native: the native code path (src/compiler/native.rs, StreamProgram::run)

    [StreamProgram::run] first tries to translate the threaded stream into
    machine code: [is_compilable] scans it, the loop of [compile_and_run]
    drives an emitter with two registers, and the buffer is called. The call
    is executed by the reference semantics of Isa on the bytes the emitter
    left in the buffer. The buffer is not part of the bus: a store of the
    running program into its own code is outside the model. *)
From S2P Require Import Prelude Registry AuditRing Memory SymTab Exec Parser ParserSafe Isa Emitter EmitterSem.
Local Open Scope Z_scope.
Local Open Scope u32_scope.

(** [regs::ACC] and [regs::SCRATCH]. *)
Definition ACC (arch : Arch) : Z := match arch with Arm => 0 | Riscv32 => 10 end.
Definition SCRATCH (arch : Arch) : Z := match arch with Arm => 1 | Riscv32 => 11 end.

(** The code buffer as the instruction fetch sees it. *)
Fixpoint halfwords (buf : list Z) : list Z :=
  match buf with
  | b0 :: b1 :: t => (b0 + 256 * b1) :: halfwords t
  | _ => []
  end.

Fixpoint words32 (buf : list Z) : list Z :=
  match buf with
  | b0 :: b1 :: b2 :: b3 :: t => (b0 + 256 * (b1 + 256 * (b2 + 256 * b3))) :: words32 t
  | _ => []
  end.

(** What a call of [compile_and_run] or [run] leaves: its value ([None] when
    control never comes back), the code buffer and the machine. *)
Record Native (B A : Type) := { n_ret : option A; n_buf : list Z; n_mach : Machine B }.
Arguments n_ret {B A} _.
Arguments n_buf {B A} _.
Arguments n_mach {B A} _.

Section Native.
Context `{PrimAddrs} {B : Type} `{Bus B} (arch : Arch).

(** The loop of [is_compilable]; [ip] grows, so [len + 1] rounds are enough. *)
Fixpoint is_compilable_loop (fuel : nat) (stream : list Z) (len ip : nat) (lit_seen : bool) : bool :=
  match fuel with
  | O => lit_seen
  | S f =>
      if (ip <? len)%nat then
        let w := aget 0 stream ip in
        if (w =? 0) || (w =? word_of halt_prim) then true
        else if w =? word_of lit_prim then is_compilable_loop f stream len (ip + 2) true
        else if (w =? word_of add_prim) || (w =? word_of sub_prim) || (w =? word_of mul_prim)
             || (w =? word_of div_prim) || (w =? word_of load_reg_prim) || (w =? word_of write_reg_prim)
        then is_compilable_loop f stream len (ip + 1) true
        else false
      else lit_seen
  end.

Definition is_compilable (stream : list Z) (len : nat) : bool :=
  is_compilable_loop (S len) stream len 0 false.

(** [em.method(..).map_err(|_| ())?] followed by the rest of the loop. *)
Definition and_then (a : Emit) (k : Emitter -> Result unit unit * Emitter) (e : Emitter)
  : Result unit unit * Emitter :=
  match a e with
  | (Ok _, e') => k e'
  | (Err _, e') => (Err tt, e')
  end.

(** The stream consumption loop of [compile_and_run]; every round consumes a
    word, so [len] rounds are enough. *)
Fixpoint compile_loop (fuel : nat) (stream : list Z) (len ip : nat) (acc_loaded : bool) (em : Emitter)
  : Result unit unit * Emitter :=
  let T := target arch in
  match fuel with
  | O => (Ok tt, em)
  | S f =>
      if (ip <? len)%nat then
        let word := aget 0 stream ip in
        let ip1 := (ip + 1)%nat in
        if word =? 0 then (Ok tt, em)
        else if word =? word_of halt_prim then (Ok tt, em)
        else if word =? word_of lit_prim then
          if (len <=? ip1)%nat then (Err tt, em)
          else
            let val := aget 0 stream ip1 in
            let ip2 := (ip1 + 1)%nat in
            let next := if (ip2 <? len)%nat then aget 0 stream ip2 else 0 in
            let addr_context := (next =? word_of load_reg_prim) || (next =? word_of write_reg_prim) in
            if addr_context then
              and_then (emit_mov_imm (SCRATCH arch) val) (compile_loop f stream len ip2 acc_loaded) em
            else if negb acc_loaded then
              and_then (emit_mov_imm (ACC arch) val) (compile_loop f stream len ip2 true) em
            else
              and_then (emit_mov_imm (SCRATCH arch) val) (compile_loop f stream len ip2 acc_loaded) em
        else if word =? word_of add_prim then
          and_then (emit_add (ACC arch) (ACC arch) (SCRATCH arch)) (compile_loop f stream len ip1 true) em
        else if word =? word_of sub_prim then
          and_then (emit_sub (ACC arch) (ACC arch) (SCRATCH arch)) (compile_loop f stream len ip1 true) em
        else if word =? word_of mul_prim then
          and_then (emit_mul (ACC arch) (ACC arch) (SCRATCH arch)) (compile_loop f stream len ip1 true) em
        else if word =? word_of div_prim then
          and_then (emit_div (ACC arch) (ACC arch) (SCRATCH arch)) (compile_loop f stream len ip1 true) em
        else if word =? word_of load_reg_prim then
          and_then (emit_load_u32 (ACC arch) (SCRATCH arch)) (compile_loop f stream len ip1 true) em
        else if word =? word_of write_reg_prim then
          and_then (emit_store_u32 (SCRATCH arch) (ACC arch)) (compile_loop f stream len ip1 acc_loaded) em
        else (Err tt, em)
      else (Ok tt, em)
  end.

(** [jump_to_sram(exec_buffer_entry())]: call the buffer. *)
Definition jump_to_sram (buf : list Z) (s : Cpu B) : NativeStop * Cpu B :=
  match arch with
  | Arm => thumb_run (halfwords buf) s
  | Riscv32 => rv_run (words32 buf) s
  end.

Definition compile_and_run (stream : list Z) (len : nat) (yields_value : bool)
    (buf : list Z) (regs : Z -> Z) (m : Machine B) : Native B (Result (option Z) unit) :=
  let T := target arch in
  if negb (is_compilable stream len) then {| n_ret := Some (Err tt); n_buf := buf; n_mach := m |}
  else
    match compile_loop len stream len 0 false (into_exec_buffer buf) with
    | (Err _, em) => {| n_ret := Some (Err tt); n_buf := exec_buffer em; n_mach := m |}
    | (Ok _, em) =>
        match emit_ret em with
        | (Err _, em') => {| n_ret := Some (Err tt); n_buf := exec_buffer em'; n_mach := m |}
        | (Ok _, em') =>
            match jump_to_sram (exec_buffer em') {| cpu_regs := regs; cpu_mach := m |} with
            | (Fault, s) => {| n_ret := None; n_buf := exec_buffer em'; n_mach := cpu_mach s |}
            | (Returned, s) =>
                {| n_ret := Some (Ok (if yields_value then Some (cpu_regs s (ACC arch)) else None));
                   n_buf := exec_buffer em'; n_mach := cpu_mach s |}
            end
        end
    end.

(** [StreamProgram::run]: the native path, then the threaded one. *)
Definition stream_run (p : StreamProgram) (buf : list Z) (regs : Z -> Z) (vm : VM) (m : Machine B)
  : Native B (option Z) * VM :=
  let vm0 := vm_reset vm in
  let finish vm1 buf1 m1 :=
    if sp_yields p then
      let (v, vm2) := vm_pop vm1 in ({| n_ret := Some (Some v); n_buf := buf1; n_mach := m1 |}, vm2)
    else ({| n_ret := Some None; n_buf := buf1; n_mach := m1 |}, vm1) in
  if (0 <? sp_len p)%nat then
    let r := compile_and_run (sp_words p) (sp_len p) (sp_yields p) buf regs m in
    match n_ret r with
    | None => ({| n_ret := None; n_buf := n_buf r; n_mach := n_mach r |}, vm0)
    | Some (Ok v) => ({| n_ret := Some v; n_buf := n_buf r; n_mach := n_mach r |}, vm0)
    | Some (Err _) =>
        match run_threaded_stream arch MAX_STREAM_WORDS (sp_words p) 0 vm0 (n_mach r) with
        | (Halted, vm1, m1) | (ZeroWord, vm1, m1) => finish vm1 (n_buf r) m1
        | (_, vm1, m1) => ({| n_ret := None; n_buf := n_buf r; n_mach := m1 |}, vm1)
        end
    end
  else finish vm0 buf m.

(** ** What the code generator emits for compiled statements *)
Definition stmt_calls (loaded : bool) (s : Stmt) : list Call :=
  match s with
  | SPeek a => [MovImm (SCRATCH arch) a; LoadU32 (ACC arch) (SCRATCH arch)]
  | SPoke a v =>
      [MovImm (if loaded then SCRATCH arch else ACC arch) a; MovImm (SCRATCH arch) v;
       StoreU32 (SCRATCH arch) (ACC arch)]
  end.

Fixpoint stmts_calls (loaded : bool) (ss : list Stmt) : list Call :=
  match ss with [] => [] | s :: ss' => stmt_calls loaded s ++ stmts_calls true ss' end.

Fixpoint emit_calls (cs : list Call) (k : Emitter -> Result unit unit * Emitter) (e : Emitter)
  : Result unit unit * Emitter :=
  match cs with
  | [] => k e
  | c :: cs' => and_then (emit_call (T := target arch) c) (emit_calls cs' k) e
  end.

Lemma emit_calls_app cs ds k e : emit_calls (cs ++ ds) k e = emit_calls cs (emit_calls ds k) e.
Proof.
  revert e. induction cs as [|c cs IH]; intros e; [done|]. cbn. unfold and_then.
  destruct (emit_call c e) as [[]]; auto.
Qed.

Lemma emit_calls_ext cs k k' e : (forall e, k e = k' e) -> emit_calls cs k e = emit_calls cs k' e.
Proof.
  intros Hk. revert e. induction cs as [|c cs IH]; intros e; [apply Hk|]. cbn. unfold and_then.
  destruct (emit_call c e) as [[]]; auto.
Qed.

Lemma word_eqb p q : (word_of p =? word_of q) = bool_decide (p = q).
Proof. case_bool_decide as E; [subst; apply Z.eqb_refl|]. apply Z.eqb_neq. intros E2. by apply word_of_inj in E2. Qed.

Lemma word_eqb_0 p : (word_of p =? 0) = false.
Proof. apply Z.eqb_neq, word_of_nonnull. Qed.

Lemma aget_skip (pre l : list Z) k : aget 0 (pre ++ l) (length pre + k) = aget 0 l k.
Proof. unfold aget. rewrite app_nth2 by lia. f_equal. lia. Qed.

Lemma aget_head (pre l : list Z) : aget 0 (pre ++ l) (length pre) = aget 0 l 0.
Proof. rewrite <- (aget_skip pre l 0). f_equal. lia. Qed.

(** Decide the word tests of one round of the two loops. *)
Ltac word_tests :=
  rewrite ?word_eqb, ?word_eqb_0;
  repeat match goal with |- context [bool_decide (?p = ?q :> Prim)] =>
    let b := eval vm_compute in (bool_decide (p = q :> Prim)) in change (bool_decide (p = q :> Prim)) with b end;
  cbn [orb negb].

(** One round of the loop at a known place of the stream. *)
Lemma lit_round f pre v l len loaded em :
  (length pre + 2 < len)%nat ->
  let words := pre ++ word_of lit_prim :: v :: l in
  let ctx := (aget 0 l 0 =? word_of load_reg_prim) || (aget 0 l 0 =? word_of write_reg_prim) in
  compile_loop (S f) words len (length pre) loaded em =
  and_then (emit_call (T := target arch) (MovImm (if ctx || loaded then SCRATCH arch else ACC arch) v))
    (compile_loop f words len (length pre + 2) (if ctx then loaded else true)) em.
Proof.
  intros Hl words ctx. subst words. cbn [compile_loop].
  rewrite !aget_head, !aget_skip, <- !Nat.add_assoc, !aget_skip. cbn [aget nth Nat.add].
  word_tests. change (nth 0 l 0) with (aget 0 l 0).
  destruct (Nat.ltb_spec (length pre) len), (Nat.ltb_spec (length pre + 2) len),
    (Nat.leb_spec len (length pre + 1)); try lia.
  fold ctx. clearbody ctx. by destruct ctx, loaded.
Qed.

Lemma op_round f pre p l len loaded em :
  (length pre < len)%nat -> p = load_reg_prim \/ p = write_reg_prim ->
  let words := pre ++ word_of p :: l in
  compile_loop (S f) words len (length pre) loaded em =
  and_then (emit_call (T := target arch)
      (if decide (p = load_reg_prim) then LoadU32 (ACC arch) (SCRATCH arch) else StoreU32 (SCRATCH arch) (ACC arch)))
    (compile_loop f words len (length pre + 1) (if decide (p = load_reg_prim) then true else loaded)) em.
Proof.
  intros Hl Hp words. cbn [compile_loop]. destruct (Nat.ltb_spec (length pre) len); [|lia].
  subst words. rewrite !aget_head. cbn [aget nth].
  destruct Hp as [-> | ->]; word_tests; done.
Qed.

Lemma and_then_ext a k k' e : (forall e, k e = k' e) -> and_then a k e = and_then a k' e.
Proof. intros Hk. unfold and_then. destruct (a e) as [[]]; auto. Qed.

Lemma shift1 f pre w l len b e :
  compile_loop f (pre ++ w :: l) len (length pre + 1) b e =
  compile_loop f ((pre ++ [w]) ++ l) len (length (pre ++ [w])) b e.
Proof. by rewrite <- app_assoc, length_app. Qed.

Lemma shift2 f pre w x l len b e :
  compile_loop f (pre ++ w :: x :: l) len (length pre + 2) b e =
  compile_loop f ((pre ++ [w; x]) ++ l) len (length (pre ++ [w; x])) b e.
Proof. by rewrite <- app_assoc, length_app. Qed.

(** The loop on compiled statements closed by the halt word. *)
Lemma compile_stmts ss : forall pre rest f len loaded em,
  len = (length pre + length (code ss) + 1)%nat ->
  compile_loop (length (concat (map stmt_instrs ss)) + S f) (pre ++ code ss ++ word_of halt_prim :: rest) len
    (length pre) loaded em = emit_calls (stmts_calls loaded ss) (fun e => (Ok tt, e)) em.
Proof.
  induction ss as [|s ss IH]; intros pre rest f len loaded em Hlen.
  - cbn [code concat map length Nat.add compile_loop stmts_calls emit_calls app].
    destruct (Nat.ltb_spec (length pre) len); [|cbn in Hlen; lia].
    unfold code, encode. cbn [map concat app]. rewrite !aget_head. cbn [aget nth]. word_tests. done.
  - rewrite code_cons, length_app in Hlen. rewrite code_cons.
    destruct s as [a v|a]; cbn [stmts_calls stmt_calls stmt_instrs map concat app length Nat.add emit_calls] in *;
      unfold encode in *; cbn [map concat app length encode_instr] in *; rewrite lit_round by lia;
      cbn [aget nth]; word_tests; apply and_then_ext; intros e1; rewrite shift2.
    + rewrite lit_round by (rewrite length_app; cbn; lia). cbn [aget nth]. word_tests.
      apply and_then_ext. intros e2. rewrite shift2.
      rewrite op_round by (auto; rewrite !length_app; cbn; lia). rewrite decide_False by done.
      apply and_then_ext. intros e3. rewrite shift1. apply IH. rewrite !length_app. cbn. lia.
    + rewrite op_round by (auto; rewrite !length_app; cbn; lia). rewrite decide_True by done.
      apply and_then_ext. intros e3. rewrite shift1. apply IH. rewrite !length_app. cbn. lia.
Qed.

Lemma compile_value f v rest em :
  compile_loop (S (S f)) (word_of lit_prim :: v :: word_of halt_prim :: rest) 3 0 false em =
  emit_calls [MovImm (ACC arch) v] (fun e => (Ok tt, e)) em.
Proof.
  pose proof (lit_round (S f) [] v (word_of halt_prim :: rest) 3 false em ltac:(cbn; lia)) as Hr.
  cbn [app length aget nth] in Hr. rewrite Hr. word_tests. apply and_then_ext. intros e1.
  cbn. word_tests. done.
Qed.

(** Encoded instructions closed by the halt word are compilable. *)
Lemma compilable_instrs prog : forall pre rest fuel len b,
  Forall straight prog -> len = (length pre + length (encode prog) + 1)%nat -> (length prog < fuel)%nat ->
  is_compilable_loop fuel (pre ++ encode prog ++ word_of halt_prim :: rest) len (length pre) b = true.
Proof.
  induction prog as [|i prog IH]; intros pre rest fuel len b Hs Hlen Hf;
    (destruct fuel as [|f]; [cbn in Hf; lia|]); cbn [is_compilable_loop];
    (destruct (Nat.ltb_spec (length pre) len); [|lia]).
  - cbn [encode concat map app]. rewrite !aget_head. cbn [aget nth]. word_tests. done.
  - apply Forall_cons_1 in Hs as [Hi Hs]. unfold encode in *. cbn [concat map app] in *.
    rewrite length_app in Hlen. rewrite <- app_assoc, !aget_head.
    assert (forall k b, (k = length (encode_instr i)) ->
      is_compilable_loop f (pre ++ encode_instr i ++ concat (map encode_instr prog) ++ word_of halt_prim :: rest)
        len (length pre + k) b = true) as Hk.
    { intros k b' ->. rewrite app_assoc, <- length_app. apply IH; [done| |cbn in Hf; lia].
      rewrite length_app. lia. }
    destruct i as [v|p]; cbn [encode_instr app aget nth length] in *; word_tests; [by apply Hk|].
    destruct Hi as [Hl Hh]. destruct p; try done; word_tests; by apply Hk.
Qed.

Lemma code_compilable ss rest :
  is_compilable (code ss ++ word_of halt_prim :: rest) (length (code ss) + 1) = true.
Proof.
  apply (compilable_instrs _ []); [apply stmt_instrs_straight|done|].
  pose proof (code_length_instrs ss). lia.
Qed.

(** ** Emission of a list of calls *)
Definition units_of (cs : list Call) (vss : list (list Z)) : Prop :=
  Forall2 (fun c vs => call_units arch c = Ok vs) cs vss.

Lemma emit_calls_rep cs vss : units_of cs vss -> forall k buf e done,
  let cap := (EXEC_BUFFER_SIZE arch / unit_bytes arch)%nat in
  em_rep (unit_bytes arch) cap buf e done -> (length done + length (concat vss) <= cap)%nat ->
  exists e', emit_calls cs k e = k e' /\ em_rep (unit_bytes arch) cap buf e' (done ++ concat vss).
Proof.
  induction 1 as [|c vs cs vss Hc _ IH]; intros k buf e sofar cap Hr Hl.
  - exists e. cbn. by rewrite app_nil_r.
  - cbn [emit_calls concat] in *. rewrite length_app in Hl. unfold and_then.
    rewrite emit_call_units, Hc. destruct (emit_seq_rep _ _ _ vs e sofar Hr) as (e1 & -> & Hr1).
    destruct (Nat.leb_spec (length sofar + length vs) cap); [|lia].
    rewrite take_ge in Hr1 by (rewrite length_app; lia).
    destruct (IH k buf e1 (sofar ++ vs) Hr1) as (e' & -> & Hr'); [rewrite length_app; lia|].
    exists e'. by rewrite app_assoc.
Qed.

(** Fetching what was emitted. *)
Definition unit_ok (v : Z) : Prop := 0 <= v < 2 ^ (8 * Z.of_nat (unit_bytes arch)).

Definition fetch (buf : list Z) : list Z :=
  match arch with Arm => halfwords buf | Riscv32 => words32 buf end.

Definition native_run (code : list Z) (s : Cpu B) : NativeStop * Cpu B :=
  match arch with Arm => thumb_run code s | Riscv32 => rv_run code s end.

Lemma fetch_units us tail :
  Forall unit_ok us -> fetch (unit_list (unit_bytes arch) us ++ tail) = us ++ fetch tail.
Proof.
  unfold fetch, unit_ok. destruct arch; cbn [unit_bytes];
    induction 1 as [|u us Hu _ IH]; try done; unfold unit_list in *; cbn -[Z.mul Z.add Z.pow] in *;
    rewrite IH; f_equal.
  - change (2 ^ (8 * Z.of_nat 2)) with 65536 in Hu. Z.to_euclidean_division_equations; lia.
  - change (2 ^ (8 * Z.of_nat 4)) with 4294967296 in Hu. Z.to_euclidean_division_equations; lia.
Qed.

(** ** Executing what was emitted *)

(** The word an emitted immediate load leaves in its register. *)
Definition mov_value (v : Z) : Z := match arch with Arm => v | Riscv32 => rv_mov_value v end.

(** The calls [cs] emit at most [n] units, which take the processor from [s]
    to [s'] wherever they stand. *)
Definition calls_run (n : nat) (cs : list Call) (s s' : Cpu B) : Prop :=
  exists vss, units_of cs vss /\ Forall unit_ok (concat vss) /\ (length (concat vss) <= n)%nat /\
    forall rest, native_run (concat vss ++ rest) s = native_run rest s'.

Lemma calls_run_nil s : calls_run 0 [] s s.
Proof. exists []. split_and!; try constructor; done. Qed.

Lemma calls_run_app n n' cs ds s s1 s2 :
  calls_run n cs s s1 -> calls_run n' ds s1 s2 -> calls_run (n + n') (cs ++ ds) s s2.
Proof.
  intros (us & Hu & Hok & Hl & Hr) (vs & Hu' & Hok' & Hl' & Hr'). exists (us ++ vs).
  rewrite concat_app, length_app. split_and!; [by apply Forall2_app|by apply Forall_app|lia|].
  intros rest. by rewrite <- app_assoc, Hr.
Qed.

Lemma calls_run_cons n n' c ds s s1 s2 :
  calls_run n [c] s s1 -> calls_run n' ds s1 s2 -> calls_run (n + n') (c :: ds) s s2.
Proof. apply (calls_run_app n n' [c]). Qed.

Lemma calls_run_one n c vs s s' :
  call_units arch c = Ok vs -> Forall unit_ok vs -> (length vs <= n)%nat ->
  (forall rest, native_run (vs ++ rest) s = native_run rest s') -> calls_run n [c] s s'.
Proof.
  intros. exists [vs]. cbn. rewrite app_nil_r. split_and!; [by repeat constructor|done..].
Qed.

Lemma calls_run_weaken n n' cs s s' : calls_run n cs s s' -> (n <= n')%nat -> calls_run n' cs s s'.
Proof. intros (vss & Hu & Hok & Hl & Hr) Hn. exists vss. split_and!; [done|done|lia|done]. Qed.

Lemma rv_mov_value_u32 v : u32 v -> u32 (rv_mov_value v).
Proof. intros. unfold rv_mov_value. destruct (rv_small v); [done|apply wrap32_range]. Qed.

Lemma mov_value_u32 v : u32 v -> u32 (mov_value v).
Proof. intros. unfold mov_value. destruct arch; [done|by apply rv_mov_value_u32]. Qed.
End Native.

(** Units stay in their width. *)
Lemma u16_shl_range a k : 0 <= u16_shl a k < 2 ^ 16.
Proof. apply Z.mod_pos_bound. lia. Qed.

Lemma as_u16_range a : 0 <= as_u16 a < 2 ^ 16.
Proof. apply Z.mod_pos_bound. lia. Qed.

Lemma u32_shl_range a k : 0 <= u32_shl a k < 2 ^ 32.
Proof. apply Z.mod_pos_bound. unfold M32. lia. Qed.

Ltac unit_range w :=
  repeat (apply (lor_range w); [lia| |]);
  first [apply u16_shl_range | apply as_u16_range | apply u32_shl_range | lia
        | apply land_range_r; lia].

Lemma thumb_mov_units_ok r v : Forall (unit_ok Arm) (thumb_mov_units r v).
Proof.
  unfold thumb_mov_units, encode_movw, encode_movt, unit_ok.
  change (2 ^ (8 * Z.of_nat (unit_bytes Arm))) with (2 ^ 16). cbv zeta.
  destruct (_ && _); [|destruct (_ =? 0)]; repeat constructor; cbn [fst snd]; unit_range 16.
Qed.

Lemma rv_mov_units_ok r v : Forall (unit_ok Riscv32) (rv_mov_units r v).
Proof.
  unfold rv_mov_units, encode_addi, encode_lui, unit_ok.
  change (2 ^ (8 * Z.of_nat (unit_bytes Riscv32))) with (2 ^ 32). cbv zeta.
  destruct (_ || _); [|destruct (_ =? 0)]; repeat constructor; unit_range 32.
Qed.

Section Correct.
Context `{PrimAddrs} {B : Type} `{Bus B} `{!BusWidth B} (arch : Arch).
Implicit Types s : Cpu B.

Definition acc_or_scratch (r : Z) : Prop := r = ACC arch \/ r = SCRATCH arch.

Lemma mov_runs r v s :
  acc_or_scratch r -> u32 v ->
  exists s', calls_run arch (match arch with Arm => 4 | Riscv32 => 2 end) [MovImm r v] s s' /\
    cpu_eq s' (cpu_set s r (mov_value arch v)).
Proof.
  unfold acc_or_scratch, mov_value. intros Hr Hv. destruct arch; cbn [ACC SCRATCH] in Hr.
  - destruct (thumb_mov_steps r v s Hv) as (s' & Hs & He). exists s'. split; [|done].
    apply (calls_run_one Arm _ _ (thumb_mov_units r v)).
    + by destruct Hr as [-> | ->].
    + apply thumb_mov_units_ok.
    + unfold thumb_mov_units. repeat case_match; cbn; lia.
    + intros rest. apply (thumb_run_codes _ (thumb_mov_instrs r v)); [|done].
      apply thumb_mov_codes; [lia|by destruct Hr as [-> | ->]|done].
  - destruct (rv_mov_steps r v s) as (s' & Hs & He); [lia|done|]. exists s'. split; [|done].
    apply (calls_run_one Riscv32 _ _ (rv_mov_units r v)); [done|apply rv_mov_units_ok| |].
    + unfold rv_mov_units. cbv zeta. repeat case_match; cbn; lia.
    + intros rest. apply (rv_run_codes _ (rv_mov_instrs r v)); [apply rv_mov_codes; [lia|done]|done].
Qed.

(** The load and the store the generator emits, as single known units. *)
Lemma load_runs s :
  u32 (cpu_regs s (SCRATCH arch)) ->
  calls_run arch 1 [LoadU32 (ACC arch) (SCRATCH arch)] s
    (cpu_load arch s (ACC arch) (cpu_regs s (SCRATCH arch))).
Proof.
  intros Hu. destruct arch; cbn [ACC SCRATCH] in *.
  - eapply (calls_run_one Arm); [vm_compute; reflexivity|repeat constructor; done|done|].
    intros rest. eapply thumb_run_codes; [eapply codes_16; [done|vm_compute; reflexivity|constructor]|].
    cbn [thumb_steps thumb_step]. by rewrite u32_add_0_r.
  - eapply (calls_run_one Riscv32); [vm_compute; reflexivity|repeat constructor; done|done|].
    intros rest. eapply rv_run_codes; [constructor; [vm_compute; reflexivity|constructor]|].
    cbn [rv_steps rv_step]. by rewrite u32_add_0_r.
Qed.

Lemma store_runs s :
  u32 (cpu_regs s (ACC arch)) ->
  calls_run arch 1 [StoreU32 (SCRATCH arch) (ACC arch)] s
    (cpu_store arch s (cpu_regs s (ACC arch)) (cpu_regs s (SCRATCH arch))).
Proof.
  intros Hu. destruct arch; cbn [ACC SCRATCH] in *.
  - eapply (calls_run_one Arm); [vm_compute; reflexivity|repeat constructor; done|done|].
    intros rest. eapply thumb_run_codes; [eapply codes_16; [done|vm_compute; reflexivity|constructor]|].
    cbn [thumb_steps thumb_step]. by rewrite u32_add_0_r.
  - eapply (calls_run_one Riscv32); [vm_compute; reflexivity|repeat constructor; done|done|].
    intros rest. eapply rv_run_codes; [constructor; [vm_compute; reflexivity|constructor]|].
    cbn [rv_steps rv_step]. by rewrite u32_add_0_r.
Qed.

Lemma add_runs s :
  calls_run arch 1 [AddR (ACC arch) (ACC arch) (SCRATCH arch)] s
    (cpu_set s (ACC arch) (cpu_regs s (ACC arch) +w cpu_regs s (SCRATCH arch))).
Proof.
  destruct arch; cbn [ACC SCRATCH] in *.
  - eapply (calls_run_one Arm); [vm_compute; reflexivity|repeat constructor; done|done|].
    intros rest. eapply thumb_run_codes; [eapply codes_16; [done|vm_compute; reflexivity|constructor]|]. done.
  - eapply (calls_run_one Riscv32); [vm_compute; reflexivity|repeat constructor; done|done|].
    intros rest. eapply rv_run_codes; [constructor; [vm_compute; reflexivity|constructor]|]. done.
Qed.

Lemma units_of_fun cs us vs : units_of arch cs us -> units_of arch cs vs -> us = vs.
Proof.
  intros Hu. revert vs. induction Hu as [|c u cs us Hc _ IH]; intros vs Hv; [by inversion Hv|].
  inversion Hv as [|? v ? vs' Hc' Hv']; subst. f_equal; [congruence|by apply IH].
Qed.

(** ** Meaning of the native translation

    The accumulator and the machine. A poke after the first statement stores
    to whatever the accumulator holds: only the first literal of a stream, or
    a load, ever writes it. *)
Definition native_stmt (loaded : bool) (st : Stmt) (am : Z * Machine B) : Z * Machine B :=
  let (acc, m) := am in
  match st with
  | SPeek a => peek_u32 arch (mov_value arch a) m
  | SPoke a v =>
      let acc' := if loaded then acc else mov_value arch a in
      (acc', poke_u32 arch acc' (mov_value arch v) m)
  end.

Fixpoint native_stmts (loaded : bool) (ss : list Stmt) (am : Z * Machine B) : Z * Machine B :=
  match ss with
  | [] => am
  | st :: ss' => native_stmts true ss' (native_stmt loaded st am)
  end.

Definition stmt_u32 (st : Stmt) : Prop :=
  match st with SPoke a v => u32 a /\ u32 v | SPeek a => u32 a end.

(** The processor between statements. *)
Definition cpu_ok (s : Cpu B) : Prop := regs_u32 s /\ wf_machine (cpu_mach s).

Definition view (s : Cpu B) : Z * Machine B := (cpu_regs s (ACC arch), cpu_mach s).

Definition units_per_word : nat := match arch with Arm => 2 | Riscv32 => 1 end.

Lemma acc_ne_scratch : ACC arch <> SCRATCH arch.
Proof. by destruct arch. Qed.

Lemma set_ok s s' r v : cpu_ok s -> u32 v -> cpu_eq s' (cpu_set s r v) -> cpu_ok s'.
Proof.
  intros [Hr Hw] Hv [He Hm]. split; [|by rewrite Hm]. intros r'. rewrite He. cbn.
  unfold set_reg. destruct (r' =? r); [done|apply Hr].
Qed.

(** Load an immediate and keep the processor well formed. *)
Lemma mov_step r v s :
  acc_or_scratch r -> u32 v -> cpu_ok s ->
  exists s', calls_run arch (match arch with Arm => 4 | Riscv32 => 2 end) [MovImm r v] s s' /\
    cpu_ok s' /\ cpu_regs s' r = mov_value arch v /\
    (forall r', r' <> r -> cpu_regs s' r' = cpu_regs s r') /\ cpu_mach s' = cpu_mach s.
Proof.
  intros Hr Hv Hs. destruct (mov_runs r v s Hr Hv) as (s' & Hc & He). exists s'.
  pose proof (set_ok s s' r _ Hs (mov_value_u32 arch v Hv) He) as Hok. destruct He as [He Hm].
  split_and!; [done|done|by rewrite He; apply set_reg_eq| |done].
  intros r' Hne. rewrite He. by apply set_reg_ne.
Qed.

Lemma peek_runs a s :
  u32 a -> cpu_ok s ->
  exists s', calls_run arch (units_per_word * 3) (stmt_calls arch true (SPeek a)) s s' /\
    cpu_ok s' /\ view s' = peek_u32 arch (mov_value arch a) (cpu_mach s).
Proof.
  intros Ha Hs. destruct (mov_step (SCRATCH arch) a s) as (s1 & Hc & [Hr Hw] & Hv & _ & Hm); [by right|done..|].
  exists (cpu_load arch s1 (ACC arch) (cpu_regs s1 (SCRATCH arch))). split_and!.
  - cbn [stmt_calls]. unfold units_per_word.
    replace (match arch with Arm => 2 | Riscv32 => 1 end * 3)%nat
      with (match arch with Arm => 4 | Riscv32 => 2 end + match arch with Arm => 2 | Riscv32 => 1 end)%nat
      by (destruct arch; done).
    eapply calls_run_cons; [done|]. eapply calls_run_weaken; [by apply load_runs|destruct arch; lia].
  - split.
    + intros r. unfold cpu_load. pose proof (peek_range arch (cpu_regs s1 (SCRATCH arch)) _ Hw).
      destruct (peek_u32 _ _ _). cbn. unfold set_reg. destruct (r =? ACC arch); [done|apply Hr].
    + unfold cpu_load. pose proof (peek_wf arch (cpu_regs s1 (SCRATCH arch)) _ Hw). by destruct (peek_u32 _ _ _).
  - unfold view, cpu_load. rewrite Hv, Hm. destruct (peek_u32 _ _ _). cbn. by rewrite set_reg_eq.
Qed.

Lemma poke_runs loaded a v s :
  u32 a -> u32 v -> cpu_ok s ->
  exists s', calls_run arch (units_per_word * 5) (stmt_calls arch loaded (SPoke a v)) s s' /\
    cpu_ok s' /\ view s' = native_stmt loaded (SPoke a v) (view s).
Proof.
  intros Ha Hv Hs.
  destruct (mov_step (if loaded then SCRATCH arch else ACC arch) a s) as (s1 & Hc1 & Hs1 & Hv1 & Hne1 & Hm1);
    [by destruct loaded; [right|left]|done..|].
  destruct (mov_step (SCRATCH arch) v s1) as (s2 & Hc2 & [Hr2 Hw2] & Hv2 & Hne2 & Hm2); [by right|done..|].
  pose proof acc_ne_scratch as Hne.
  assert (cpu_regs s2 (ACC arch) = if loaded then cpu_regs s (ACC arch) else mov_value arch a) as Hacc.
  { rewrite Hne2 by done. destruct loaded; [by apply Hne1|done]. }
  exists (cpu_store arch s2 (cpu_regs s2 (ACC arch)) (cpu_regs s2 (SCRATCH arch))). split_and!.
  - cbn [stmt_calls]. unfold units_per_word.
    eapply (calls_run_weaken arch (match arch with Arm => 4 | Riscv32 => 2 end +
      (match arch with Arm => 4 | Riscv32 => 2 end + 1))); [|destruct arch; lia].
    eapply calls_run_cons; [done|]. eapply calls_run_cons; [done|]. by apply store_runs.
  - split; [done|]. cbn. apply poke_wf; [done|apply Hr2].
  - unfold view, native_stmt. cbn. by rewrite Hacc, Hv2, Hm2, Hm1.
Qed.

Lemma stmts_run ss : forall loaded s,
  Forall stmt_u32 ss -> cpu_ok s ->
  exists s', calls_run arch (units_per_word * length (code ss)) (stmts_calls arch loaded ss) s s' /\
    cpu_ok s' /\ view s' = native_stmts loaded ss (view s).
Proof.
  induction ss as [|st ss IH]; intros loaded s Hss Hs.
  - exists s. split_and!; [|done|done]. rewrite Nat.mul_0_r. apply calls_run_nil.
  - apply Forall_cons_1 in Hss as [Hst Hss]. rewrite code_cons, length_app, Nat.mul_add_distr_l.
    assert (exists s1, calls_run arch (units_per_word * length (encode (stmt_instrs st)))
      (stmt_calls arch loaded st) s s1 /\ cpu_ok s1 /\ view s1 = native_stmt loaded st (view s))
      as (s1 & Hc & Hs1 & Hv1).
    { destruct st as [a v|a]; [destruct Hst; by apply poke_runs|by apply peek_runs]. }
    destruct (IH true s1 Hss Hs1) as (s' & Hc' & Hs' & Hv'). exists s'.
    split_and!; [by eapply calls_run_app|done|]. cbn [native_stmts]. by rewrite <- Hv1.
Qed.

(** ** The whole path *)
Lemma ret_returns (s : Cpu B) : exists v,
  call_units arch Ret = Ok [v] /\ unit_ok arch v /\ forall rest, native_run arch (v :: rest) s = (Returned, s).
Proof. destruct arch; eexists; (split; [vm_compute; reflexivity|]); split; done. Qed.

(** Emitted calls closed by a return run from the start of the buffer. *)
Lemma emitted_runs cs n vss v tail (s s' : Cpu B) :
  calls_run arch n cs s s' -> units_of arch cs vss -> call_units arch Ret = Ok [v] ->
  jump_to_sram arch (unit_list (unit_bytes arch) (concat vss ++ [v]) ++ tail) s = (Returned, s').
Proof.
  intros (us & Hu & Hok & _ & Hr) Hv Hret. rewrite (units_of_fun _ _ _ Hu Hv) in *.
  destruct (ret_returns s') as (v' & Hv' & Hvok & Hend). assert (v' = v) as -> by congruence.
  transitivity (native_run arch (fetch arch (unit_list (unit_bytes arch) (concat vss ++ [v]) ++ tail)) s);
    [by destruct arch|].
  rewrite fetch_units by (apply Forall_app; split; [done|by constructor]). rewrite <- app_assoc, Hr. apply Hend.
Qed.

Lemma start_emission cs n buf (s s' : Cpu B) :
  length buf = EXEC_BUFFER_SIZE arch -> calls_run arch n cs s s' ->
  (n + 1 <= EXEC_BUFFER_SIZE arch / unit_bytes arch)%nat ->
  exists e e' vss v tail,
    emit_calls arch cs (fun e => (Ok tt, e)) (into_exec_buffer (TargetEmitter := target arch) buf) = (Ok tt, e) /\
    emit_ret (TargetEmitter := target arch) e = (Ok tt, e') /\ jump_to_sram arch (exec_buffer e') s = (Returned, s') /\
    length (exec_buffer e') = length buf /\ units_of arch cs vss /\ call_units arch Ret = Ok [v] /\
    exec_buffer e' = unit_list (unit_bytes arch) (concat vss ++ [v]) ++ tail.
Proof.
  intros Hb Hrun Hn. pose proof Hrun as (vss & Hu & Hok & Hl & Hr).
  destruct (emit_calls_rep arch cs vss Hu (fun e => (Ok tt, e)) buf _ [] (emitter_start_rep arch buf Hb))
    as (e & He & Hrep); [cbn; lia|].
  destruct (ret_returns s') as (v & Hv & Hvok & Hret).
  destruct (emit_seq_rep _ _ _ [v] e _ Hrep) as (e' & He' & Hrep').
  pose proof (emit_call_units arch Ret e) as Hc. rewrite Hv in Hc. cbn [emit_call] in Hc.
  destruct (Nat.leb_spec (length ([] ++ concat vss) + length [v]) (EXEC_BUFFER_SIZE arch / unit_bytes arch))
    as [Hf|Hf]; [|cbn in Hf; lia].
  rewrite take_ge in Hrep' by (rewrite length_app; lia).
  destruct Hrep' as (_ & _ & Hle & _ & Hlb & Hbuf). cbn [app] in Hbuf, Hle.
  eexists e, e', vss, v, _. split_and!; [done|by rewrite Hc| | |done|done|exact Hbuf].
  - rewrite Hbuf. by eapply emitted_runs.
  - rewrite Hbuf, length_app, length_unit_list, length_drop, Hlb. nia.
Qed.

Lemma native_finish cs n stream len yields buf regs m (s' : Cpu B) :
  length buf = EXEC_BUFFER_SIZE arch -> is_compilable stream len = true ->
  (forall e, compile_loop arch len stream len 0 false e = emit_calls arch cs (fun e => (Ok tt, e)) e) ->
  calls_run arch n cs {| cpu_regs := regs; cpu_mach := m |} s' ->
  (n + 1 <= EXEC_BUFFER_SIZE arch / unit_bytes arch)%nat ->
  let r := compile_and_run arch stream len yields buf regs m in
  n_ret r = Some (Ok (if yields then Some (cpu_regs s' (ACC arch)) else None)) /\ n_mach r = cpu_mach s' /\
  length (n_buf r) = length buf /\
  exists vss v tail, units_of arch cs vss /\ call_units arch Ret = Ok [v] /\
    n_buf r = unit_list (unit_bytes arch) (concat vss ++ [v]) ++ tail.
Proof.
  intros Hb Hc Hloop Hrun Hn r. subst r. unfold compile_and_run. rewrite Hc. cbn [negb].
  destruct (start_emission cs n buf _ s' Hb Hrun Hn) as (e & e' & vss & v & tail & He & Hret & Hj & Hlen & Hu & Hv & Hbuf).
  rewrite Hloop, He, Hret, Hj. split_and!; [done..|]. by exists vss, v, tail.
Qed.

(** The program the parser builds from statements, and from a value. *)
Definition padded (ws : list Z) : list Z := copy_prefix (replicate MAX_STREAM_WORDS 0) ws.

Definition stmt_program (ss : list Stmt) : StreamProgram :=
  {| sp_words := padded (code ss ++ [word_of halt_prim]); sp_len := length (code ss) + 1; sp_yields := false |}.

Definition value_program (v : Z) : StreamProgram :=
  {| sp_words := padded [word_of lit_prim; v; word_of halt_prim]; sp_len := 3; sp_yields := true |}.

Lemma native_cap n : (n <= 256)%nat -> (n <= 128)%nat \/ arch = Arm ->
  (n + 1 <= EXEC_BUFFER_SIZE arch / unit_bytes arch)%nat.
Proof.
  intros Hn Ha. destruct arch; cbn [EXEC_BUFFER_SIZE unit_bytes].
  - change (4096 / 2)%nat with 2048%nat. lia.
  - change (768 / 4)%nat with 192%nat. destruct Ha; [lia|done].
Qed.

Lemma stmt_program_runs ss buf regs vm m :
  length buf = EXEC_BUFFER_SIZE arch -> (length (code ss) < MAX_STREAM_WORDS)%nat ->
  Forall stmt_u32 ss -> (forall r, u32 (regs r)) -> wf_machine m ->
  let '(out, vm') := stream_run arch (stmt_program ss) buf regs vm m in
  n_ret out = Some None /\ vm' = vm_reset vm /\
  n_mach out = snd (native_stmts false ss (regs (ACC arch), m)) /\
  wf_machine (n_mach out) /\ length (n_buf out) = length buf.
Proof.
  intros Hb Hl Hss Hregs Hm.
  destruct (stmts_run ss false {| cpu_regs := regs; cpu_mach := m |} Hss (conj Hregs Hm)) as (s' & Hc & [_ Hwf] & Hv).
  unfold stream_run, stmt_program. cbn [sp_words sp_len sp_yields].
  destruct (Nat.ltb_spec 0 (length (code ss) + 1)); [|lia].
  assert (padded (code ss ++ [word_of halt_prim]) = code ss ++ word_of halt_prim ::
    drop (length (code ss ++ [word_of halt_prim])) (replicate MAX_STREAM_WORDS 0)) as ->.
  { unfold padded, copy_prefix. by rewrite <- app_assoc. }
  edestruct (native_finish (stmts_calls arch false ss)) as (Hr & Hmach & Hlen & _);
    [exact Hb|apply code_compilable| |exact Hc| |rewrite Hr; cbn [n_ret n_mach]].
  - intros e. pose proof (code_length_instrs ss).
    replace (length (code ss) + 1)%nat with (length (concat (map stmt_instrs ss)) +
      S (length (code ss) - length (concat (map stmt_instrs ss))))%nat at 1 by lia.
    apply (compile_stmts arch ss []). done.
  - unfold MAX_STREAM_WORDS, units_per_word in *. apply native_cap; destruct arch; auto; lia.
  - cbn [n_buf]. rewrite Hmach. split_and!; [done|done| |done|done]. change (regs (ACC arch), m) with (view {| cpu_regs := regs; cpu_mach := m |}). by rewrite <- Hv.
Qed.

Lemma value_program_runs v buf regs vm m :
  length buf = EXEC_BUFFER_SIZE arch -> u32 v -> (forall r, u32 (regs r)) -> wf_machine m ->
  let '(out, vm') := stream_run arch (value_program v) buf regs vm m in
  n_ret out = Some (Some (mov_value arch v)) /\ vm' = vm_reset vm /\ n_mach out = m /\
  length (n_buf out) = length buf.
Proof.
  intros Hb Hv Hregs Hm. unfold stream_run, value_program. cbn [sp_words sp_len sp_yields Nat.ltb Nat.leb].
  destruct (mov_step (ACC arch) v {| cpu_regs := regs; cpu_mach := m |}) as (s' & Hc & _ & Ha & _ & Hm');
    [by left|done|by split|].
  edestruct (native_finish [MovImm (ACC arch) v]) as (Hr & Hmach & Hlen & _);
    [exact Hb| | |exact Hc|apply native_cap; destruct arch; auto; lia|rewrite Hr; cbn [n_ret n_mach]].
  - apply (compilable_instrs [ILit v] []); [by repeat constructor|done|cbn; lia].
  - intros e. apply compile_value.
  - cbn [n_buf]. rewrite Hmach, Hm', Ha. done.
Qed.

(** The parser's programs are exactly these two forms. *)
Lemma prog_ok_forms (A : Z -> Prop) p :
  prog_ok A p ->
  if sp_yields p then exists v, u32 v /\ p = value_program v
  else exists ss, Forall (stmt_ok A) ss /\ (length (code ss) < MAX_STREAM_WORDS)%nat /\ p = stmt_program ss.
Proof.
  intros (prog & Hw & Hl & Hm & Hp). destruct p as [ws len y]. cbn [sp_words sp_len sp_yields] in *.
  destruct y.
  - destruct Hp as (v & Hv & ->). exists v. split; [done|]. subst ws len. done.
  - destruct Hp as (ss & Hss & ->). exists ss. fold (code ss) in *. subst ws len.
    rewrite length_app in *. cbn [length] in *. split_and!; [done|lia|done].
Qed.

Lemma stmt_ok_u32 A ss : Forall (stmt_ok A) ss -> Forall stmt_u32 ss.
Proof. apply Forall_impl. intros [a v|a] (_ & Ha & Hv); cbn in *; auto. Qed.

(** Bytes of the code buffer stay bytes, whatever is compiled. *)
Lemma and_then_u8 c k e : Forall u8 (exec_buffer e) ->
  (forall e', Forall u8 (exec_buffer e') -> Forall u8 (exec_buffer (snd (k e')))) ->
  Forall u8 (exec_buffer (snd (and_then (emit_call (T := target arch) c) k e))).
Proof.
  intros He Hk. unfold and_then. pose proof (emit_call_u8 arch c e He) as Hc.
  destruct (emit_call c e) as [[]]; [by apply Hk|done].
Qed.

Lemma compile_loop_u8 fuel stream len ip acc e : Forall u8 (exec_buffer e) ->
  Forall u8 (exec_buffer (snd (compile_loop arch fuel stream len ip acc e))).
Proof.
  revert ip acc e. induction fuel as [|f IH]; intros ip acc e He; [done|]. cbn [compile_loop].
  repeat (case_match; try done);
    first [apply (and_then_u8 (MovImm _ _)) | apply (and_then_u8 (AddR _ _ _)) | apply (and_then_u8 (SubR _ _ _))
          | apply (and_then_u8 (MulR _ _ _)) | apply (and_then_u8 (DivR _ _ _)) | apply (and_then_u8 (LoadU32 _ _))
          | apply (and_then_u8 (StoreU32 _ _))]; auto.
Qed.

Lemma compile_and_run_u8 stream len yields buf regs (m : Machine B) : Forall u8 buf ->
  Forall u8 (n_buf (compile_and_run arch stream len yields buf regs m)).
Proof.
  intros Hb. unfold compile_and_run. destruct (negb _); [done|].
  assert (Forall u8 (exec_buffer (into_exec_buffer (TargetEmitter := target arch) buf))) as Hi by (by destruct arch).
  pose proof (compile_loop_u8 len stream len 0 false _ Hi) as Hl.
  destruct (compile_loop _ _ _ _ _ _ _) as [[[]|[]] e1]; [|done].
  pose proof (emit_call_u8 arch Ret e1 Hl) as He. cbn [emit_call] in He.
  destruct (emit_ret e1) as [[[]|x] e2]; [|done]. by destruct (jump_to_sram _ _ _) as [[] s].
Qed.

Lemma stream_run_u8 p buf regs vm (m : Machine B) : Forall u8 buf -> Forall u8 (n_buf (fst (stream_run arch p buf regs vm m))).
Proof.
  intros Hb. unfold stream_run.
  pose proof (compile_and_run_u8 (sp_words p) (sp_len p) (sp_yields p) buf regs m Hb) as Hc.
  set (r := compile_and_run _ _ _ _ _ _ _) in *. clearbody r. cbv zeta.
  assert (forall b vm1 m1, Forall u8 b -> Forall u8 (n_buf (fst (if sp_yields p
    then let (v, vm2) := vm_pop vm1 in ({| n_ret := Some (Some v); n_buf := b; n_mach := m1 : Machine B |}, vm2)
    else ({| n_ret := Some None; n_buf := b; n_mach := m1 |}, vm1))))) as Hf
    by (intros b vm1 m1 Hb1; destruct (sp_yields p); [by destruct (vm_pop vm1)|done]).
  destruct (0 <? sp_len p)%nat; [|by apply Hf]. destruct (n_ret r) as [[v|u]|]; [done| |done].
  destruct (run_threaded_stream _ _ _ _ _ _) as [[[] vm1] m1]; first [done|by apply Hf].
Qed.

(** Whatever the parser hands out runs natively, returns, and leaves processor
    memory and code buffer well formed. *)
Lemma prog_ok_native (A : Z -> Prop) p buf regs vm m :
  prog_ok A p -> length buf = EXEC_BUFFER_SIZE arch -> (forall r, u32 (regs r)) -> wf_machine m ->
  let '(out, vm') := stream_run arch p buf regs vm m in
  (exists v, n_ret out = Some v /\ from_option u32 True v) /\ vm' = vm_reset vm /\
  wf_machine (n_mach out) /\ length (n_buf out) = EXEC_BUFFER_SIZE arch.
Proof.
  intros Hok Hb Hregs Hm. apply prog_ok_forms in Hok. destruct (sp_yields p).
  - destruct Hok as (v & Hv & ->). pose proof (value_program_runs v buf regs vm m Hb Hv Hregs Hm) as Hrun.
    destruct (stream_run _ _ _ _ _ _) as [out vm']. destruct Hrun as (E & ? & -> & ?).
    split_and!; [|done|done|congruence]. eexists. split; [done|]. by apply mov_value_u32.
  - destruct Hok as (ss & Hss & Hl & ->).
    pose proof (stmt_program_runs ss buf regs vm m Hb Hl (stmt_ok_u32 _ _ Hss) Hregs Hm) as Hrun.
    destruct (stream_run _ _ _ _ _ _) as [out vm']. destruct Hrun as (E & ? & ? & ? & ?).
    split_and!; [|done|done|congruence]. by eexists.
Qed.

(** ** When the native path agrees with the threaded engine

    What the accumulator is known to hold: nothing was loaded yet, the address
    of the pokes so far, or a value read from memory. *)
Inductive AccState := AFresh | AHolds (a : Z) | AOther.

(** Every poke goes to the address of the first one, with no peek before it. *)
Fixpoint faithful (k : AccState) (ss : list Stmt) : bool :=
  match ss with
  | [] => true
  | SPeek _ :: ss' => faithful AOther ss'
  | SPoke a _ :: ss' =>
      match k with
      | AFresh => faithful (AHolds a) ss'
      | AHolds b => (a =? b) && faithful (AHolds a) ss'
      | AOther => false
      end
  end.

(** The constants of the statement are loaded exactly. *)
Definition stmt_exact (st : Stmt) : Prop :=
  match st with
  | SPoke a v => mov_value arch a = a /\ mov_value arch v = v
  | SPeek a => mov_value arch a = a
  end.

Definition acc_state (k : AccState) (loaded : bool) (acc : Z) : Prop :=
  match k with AFresh => loaded = false | AHolds a => loaded = true /\ acc = a | AOther => loaded = true end.

Lemma native_faithful ss : forall k loaded acc vals m,
  acc_state k loaded acc -> faithful k ss = true -> Forall stmt_exact ss ->
  snd (native_stmts loaded ss (acc, m)) = snd (run_stmts arch ss (vals, m)).
Proof.
  unfold run_stmts. induction ss as [|st ss IH]; intros k loaded acc vals m Hk Hf He; [done|].
  apply Forall_cons_1 in He as [He Hes]. destruct st as [a v|a]; cbn [native_stmts native_stmt foldl run_stmt].
  - destruct He as [-> ->]. cbn [faithful] in Hf. destruct k as [|b|]; [| |done].
    + cbn in Hk. subst loaded. by apply (IH (AHolds a)).
    + destruct Hk as [-> ->]. bool_to_prop. subst b. by apply (IH (AHolds a)).
  - cbn in He. rewrite He. destruct (peek_u32 arch a m) as [v m1]. by apply (IH AOther).
Qed.

Lemma stmt_program_threaded ss vm m :
  (length (code ss) < MAX_STREAM_WORDS)%nat -> length (vm_stack vm) = VM_STACK_SIZE ->
  exists vm', run_threaded_stream arch MAX_STREAM_WORDS (sp_words (stmt_program ss)) 0 (vm_reset vm) m =
    (Halted, vm', snd (run_stmts arch ss ([], m))).
Proof.
  intros Hl Hvm. pose proof (code_length_instrs ss). pose proof (code_length ss).
  destruct (dispatch_instrs arch (concat (map stmt_instrs ss)) [] (drop (length (code ss ++ [word_of halt_prim]))
    (replicate MAX_STREAM_WORDS 0)) MAX_STREAM_WORDS (vm_reset vm) [] m) as (vm' & Hr & E).
  { apply stmt_instrs_straight. } { by apply vm_reset_rep. } { lia. }
  rewrite exec_stmts in E by (unfold MAX_STREAM_WORDS, VM_STACK_SIZE in *; cbn; lia).
  exists vm'. rewrite <- E. unfold stmt_program, padded, copy_prefix. cbn [sp_words]. by rewrite <- app_assoc.
Qed.

(** C24. The native path and the threaded engine agree on the faithful programs:
    all pokes go to one address, no peek comes before a poke, and the target
    loads the constants exactly. On these [StreamProgram::run] leaves the
    machine exactly as the threaded engine run on the same words would. *)
Theorem native_agrees_with_threaded (ss : list Stmt) (buf : list Z) (regs : Z -> Z) (vm : VM) (m : Machine B) :
  length buf = EXEC_BUFFER_SIZE arch -> (length (code ss) < MAX_STREAM_WORDS)%nat ->
  Forall stmt_u32 ss -> (forall r, u32 (regs r)) -> wf_machine m -> length (vm_stack vm) = VM_STACK_SIZE ->
  faithful AFresh ss = true -> Forall stmt_exact ss ->
  exists vm', run_threaded_stream arch MAX_STREAM_WORDS (sp_words (stmt_program ss)) 0 (vm_reset vm) m =
    (Halted, vm', n_mach (fst (stream_run arch (stmt_program ss) buf regs vm m))).
Proof.
  intros Hb Hl Hss Hregs Hm Hvm Hf He.
  pose proof (stmt_program_runs ss buf regs vm m Hb Hl Hss Hregs Hm) as Hrun.
  destruct (stream_run _ _ _ _ _ _) as [out vm1]. destruct Hrun as (_ & _ & Hmach & _). cbn [fst].
  rewrite Hmach, (native_faithful ss AFresh false _ [] m) by done.
  by apply stmt_program_threaded.
Qed.

(** C23. What really runs when a line yields a program, on either target: the
    native path accepts it, its code fits the buffer, and it returns, so that
    the threaded engine is never entered (the operand stack is only reset). An
    expression touches no memory and yields a word, which is its value whenever
    the target's immediate load is exact for it (always on ARM). Statements name
    only addresses granted now or named by a stored function, and when their
    pokes share one address with no peek before them and their constants are
    loaded exactly, the machine is left as their run in program order leaves it.
    Of other statements nothing is said but that the code returns. The bus is
    taken not to fault, and the code buffer to be out of reach of the stores. *)
Theorem parsed_program_runs_native (A : Z -> Prop) (c c' : Compiler) (m m' : Machine B)
    (line : list Z) (p : StreamProgram) (buf : list Z) (regs : Z -> Z) (vm : VM) :
  wf_comp A c -> wf_registry (m_regs m) ->
  parse arch c m line = (ROk (ORun p), (c', m')) ->
  length buf = EXEC_BUFFER_SIZE arch -> (forall r, u32 (regs r)) ->
  let '(out, vm') := stream_run arch p buf regs vm m' in
  vm' = vm_reset vm /\ length (n_buf out) = EXEC_BUFFER_SIZE arch /\
  if sp_yields p then
    exists v w, u32 v /\ p = value_program v /\ n_ret out = Some (Some w) /\ n_mach out = m' /\
      (arch = Arm \/ mov_value arch v = v -> w = v)
  else
    exists ss, Forall (stmt_ok (nameable arch (m_regs m) c)) ss /\ p = stmt_program ss /\ n_ret out = Some None /\
      (faithful AFresh ss = true -> Forall stmt_exact ss -> n_mach out = snd (run_stmts arch ss ([], m'))).
Proof.
  intros Hc Hr E Hb Hregs. pose proof (parse_nameable arch A c c' m m' line _ Hc Hr E) as Hok.
  assert (wf_machine m') as Hm.
  { unfold wf_machine. pose proof (parse_spec arch (fun _ => True) _ (m_audit m) Hr ltac:(done) c m line
      (wf_comp_mono A (fun _ => True) c (fun _ _ => Logic.I) Hc) eq_refl eq_refl) as Hp.
    rewrite E in Hp. destruct Hp as (_ & -> & _). exact Hr. }
  apply prog_ok_forms in Hok. destruct (sp_yields p).
  - destruct Hok as (v & Hv & ->). pose proof (value_program_runs v buf regs vm m' Hb Hv Hregs Hm) as Hrun.
    destruct (stream_run _ _ _ _ _ _) as [out vm']. destruct Hrun as (Hret & -> & Hmach & Hlen).
    split_and!; [done|congruence|]. exists v, (mov_value arch v). split_and!; try done.
    intros [->|Hex]; [done|exact Hex].
  - destruct Hok as (ss & Hss & Hl & ->).
    pose proof (stmt_program_runs ss buf regs vm m' Hb Hl (stmt_ok_u32 _ _ Hss) Hregs Hm) as Hrun.
    destruct (stream_run _ _ _ _ _ _) as [out vm']. destruct Hrun as (Hret & -> & Hmach & _ & Hlen).
    split_and!; [done|congruence|]. exists ss. split_and!; try done. intros Hf He. rewrite Hmach.
    by apply (native_faithful ss AFresh false).
Qed.

(** A later poke at another address is misdirected: the second value goes to
    the first address, and the second address is never accessed. *)
Lemma native_second_poke_misdirected a v b w buf regs vm m :
  length buf = EXEC_BUFFER_SIZE arch -> (forall r, u32 (regs r)) -> wf_machine m ->
  Forall stmt_u32 [SPoke a v; SPoke b w] -> Forall stmt_exact [SPoke a v; SPoke b w] ->
  n_mach (fst (stream_run arch (stmt_program [SPoke a v; SPoke b w]) buf regs vm m)) =
  poke_u32 arch a w (poke_u32 arch a v m).
Proof.
  intros Hb Hregs Hm Hss He.
  pose proof (stmt_program_runs [SPoke a v; SPoke b w] buf regs vm m Hb ltac:(unfold MAX_STREAM_WORDS; cbn; lia) Hss Hregs Hm) as Hrun.
  destruct (stream_run _ _ _ _ _ _) as [out vm1]. destruct Hrun as (_ & _ & Hmach & _). cbn [fst]. rewrite Hmach.
  apply Forall_cons_1 in He as [[Ha Hv] He]. apply Forall_cons_1 in He as [[_ Hw] _].
  cbn. by rewrite Ha, Hv, Hw.
Qed.
End Correct.

(** ** Witnesses *)
Definition zero_regs (_ : Z) : Z := 0.

Lemma zero_regs_u32 r : u32 (zero_regs r).
Proof. unfold u32, M32, zero_regs. lia. Qed.

Lemma parsed_program_runs_native_witness :
  exists p c' m', parse Arm compiler_new demo_machine (bytes "loop 3 { poke 0x20000000 5; }") =
      (ROk (ORun p), (c', m')) /\
    sp_yields p = false /\ n_ret (fst (stream_run Arm p (replicate 4096 0) zero_regs vm_new m')) = Some None /\
    snd (stream_run Arm p (replicate 4096 0) zero_regs vm_new m') = vm_reset vm_new.
Proof.
  destruct (parse Arm compiler_new demo_machine (bytes "loop 3 { poke 0x20000000 5; }"))
    as [r [c' m']] eqn:E.
  assert (exists p, r = ROk (ORun p) /\ sp_yields p = false) as (p & -> & Hy).
  { revert E. vm_compute. intros [= <- _ _]. eexists. split; reflexivity. }
  pose proof (parsed_program_runs_native Arm granted_at_boot compiler_new c' demo_machine m'
    (bytes "loop 3 { poke 0x20000000 5; }") p (replicate 4096 0) zero_regs vm_new
    (compiler_new_wf _) registry_init_wf E (length_replicate 4096 0) zero_regs_u32) as Hn.
  destruct (stream_run _ _ _ _ _ _) as [out vm'] eqn:Er. destruct Hn as (Hvm & _ & Hn). rewrite Hy in Hn.
  destruct Hn as (ss & _ & _ & Hret & _).
  exists p, c', m'. split; [reflexivity|]. split; [exact Hy|]. rewrite Er. split; [exact Hret|exact Hvm].
Defined.

Lemma native_agrees_with_threaded_witness :
  exists vm', run_threaded_stream Arm MAX_STREAM_WORDS
    (sp_words (stmt_program [SPoke 0x20000100 5; SPeek 0x20000100])) 0 (vm_reset vm_new) demo_machine =
    (Halted, vm', n_mach (fst (stream_run Arm (stmt_program [SPoke 0x20000100 5; SPeek 0x20000100])
      (replicate 4096 0) zero_regs vm_new demo_machine))).
Proof.
  apply (native_agrees_with_threaded Arm [SPoke 0x20000100 5; SPeek 0x20000100]).
  - apply length_replicate.
  - unfold MAX_STREAM_WORDS. cbn. lia.
  - repeat constructor; cbn; lia.
  - apply zero_regs_u32.
  - apply registry_init_wf.
  - reflexivity.
  - reflexivity.
  - repeat constructor.
Defined.
