(* ===== verification/Tokens.v ===== *)
(** * Tokens: linear capability tokens (src/capabilities/tokens.rs)

    [claim], [drop_cap], [steal] and [grant_superuser] work on any store with
    the registry's interface ([CapStore]); ownership of the tokens themselves,
    which the borrow checker tracks, is the [held] list of [TokenWorld]. The
    steps a safe client can take keep every token unique. The GPIO ports and
    pin leases of the same file are in Gpio. *)
From S2P Require Import Prelude Registry AuditRing Memory.
Local Open Scope Z_scope.
Local Open Scope u32_scope.

(** ** Resources: the [define_resource!] table *)
Inductive Resource := RGpioA | RGpioB | RUart0 | RSpi0 | RI2c0 | RTimer0 | RDma0 | RSuperUserCap.
#[export] Instance Resource_eq_dec : EqDecision Resource.
Proof. solve_decision. Defined.

Definition RESOURCE_ID (r : Resource) : Z :=
  match r with
  | RGpioA => 0 | RGpioB => 1 | RUart0 => 2 | RSpi0 => 3
  | RI2c0 => 4 | RTimer0 => 5 | RDma0 => 6 | RSuperUserCap => 31
  end.

Definition NAME (r : Resource) : list Z :=
  match r with
  | RGpioA => bytes "GPIOA" | RGpioB => bytes "GPIOB" | RUart0 => bytes "UART0"
  | RSpi0 => bytes "SPI0" | RI2c0 => bytes "I2C0" | RTimer0 => bytes "TIMER0"
  | RDma0 => bytes "DMA0" | RSuperUserCap => bytes "SUPERUSER"
  end.

Definition resolve_table : list (list Z * Z) :=
  [(bytes "GPIOA", 0); (bytes "GPIOB", 1); (bytes "UART0", 2); (bytes "SPI0", 3);
   (bytes "I2C0", 4); (bytes "TIMER0", 5); (bytes "DMA0", 6); (bytes "SUPERUSER", 31)].

Definition resolve_name (name : list Z) : option Z :=
  snd <$> List.find (fun e => bool_decide (fst e = name)) resolve_table.

(** ** Tokens *)
Record Cap := { cap_id : Z }.
#[export] Instance Cap_eq_dec : EqDecision Cap.
Proof. solve_decision. Defined.

Section Store.
Context {S : Type} `{CapStore S}.

Definition claim (r : Resource) (s : S) : option Cap * S :=
  let (won, s') := cs_acquire s (RESOURCE_ID r) in
  (if won then Some {| cap_id := RESOURCE_ID r |} else None, s').

Definition drop_cap (c : Cap) (s : S) : S := cs_release s (cap_id c).

Definition steal (r : Resource) (s : S) : Cap * S :=
  let (_, s') := cs_acquire s (RESOURCE_ID r) in ({| cap_id := RESOURCE_ID r |}, s').

(** [count] is [SUPERUSER_AUDIT_COUNT], an [AtomicU32]. *)
Definition grant_superuser (count : Z) (s : S) : option Cap * Z * S :=
  match claim RSuperUserCap s with
  | (Some c, s') => (Some c, count +w 1, s')
  | (None, s') => (None, count, s')
  end.

(** ** Ownership *)
Record TokenWorld := { tw_store : S; tw_held : list Cap; tw_count : Z }.

(** What safe code can do with tokens: claim, drop a token it owns, lose one
    (there is no [Drop] impl, so nothing is released), ask for superuser. *)
Inductive token_step : TokenWorld -> TokenWorld -> Prop :=
| ts_claim w r oc s' :
    claim r (tw_store w) = (oc, s') ->
    token_step w {| tw_store := s'; tw_held := option_list oc ++ tw_held w; tw_count := tw_count w |}
| ts_drop w c l1 l2 :
    tw_held w = l1 ++ c :: l2 ->
    token_step w {| tw_store := drop_cap c (tw_store w); tw_held := l1 ++ l2; tw_count := tw_count w |}
| ts_lose w c l1 l2 :
    tw_held w = l1 ++ c :: l2 ->
    token_step w {| tw_store := tw_store w; tw_held := l1 ++ l2; tw_count := tw_count w |}
| ts_grant w oc n s' :
    grant_superuser (tw_count w) (tw_store w) = (oc, n, s') ->
    token_step w {| tw_store := s'; tw_held := option_list oc ++ tw_held w; tw_count := n |}.

(** No two live tokens name the same resource, each names a valid id, and the
    store has every held resource claimed. *)
Record wf_world (w : TokenWorld) : Prop := {
  ww_store : cs_wf (tw_store w);
  ww_unique : NoDup (map cap_id (tw_held w));
  ww_valid : Forall (fun c => cs_valid (cap_id c)) (tw_held w);
  ww_claimed : Forall (fun c => cs_holds (tw_store w) (cap_id c) = true) (tw_held w);
}.

Context `{!CapStoreLaws S}.
Hypothesis Hvalid : forall r, cs_valid (RESOURCE_ID r).

Lemma claim_world w r oc s' n :
  wf_world w -> claim r (tw_store w) = (oc, s') ->
  wf_world {| tw_store := s'; tw_held := option_list oc ++ tw_held w; tw_count := n |}.
Proof.
  intros [Hs Hu Hv Hc] E. unfold claim in E.
  pose proof (cs_acquire_wf (tw_store w) (RESOURCE_ID r) Hs) as Hs'.
  pose proof (cs_acquire_won (tw_store w) (RESOURCE_ID r) Hs (Hvalid r)) as Hwon.
  pose proof (fun j Hj => cs_acquire_holds (tw_store w) (RESOURCE_ID r) j Hs (Hvalid r) Hj) as Hh.
  destruct (cs_acquire (tw_store w) (RESOURCE_ID r)) as [won s1]. cbn in *. simplify_eq.
  assert (Forall (fun c => cs_holds s' (cap_id c) = true) (tw_held w)) as Hold.
  { rewrite Forall_lookup in *. intros i c Hi. rewrite (Hh (cap_id c) (Hv i c Hi)), (Hc i c Hi).
    apply orb_true_r. }
  destruct (cs_holds (tw_store w) (RESOURCE_ID r)) eqn:Eh; cbn [negb option_list app]; [by split|].
  split; cbn [tw_store tw_held map]; [done| |constructor; [apply Hvalid|done]|].
  - constructor; [|done]. intros (c & Hid & Hin)%list_elem_of_In%in_map_iff.
    rewrite list.Forall_forall in Hc. specialize (Hc c (proj2 (list_elem_of_In _ _) Hin)).
    cbn [cap_id] in Hid. by rewrite Hid, Eh in Hc.
  - constructor; [|done]. cbn [cap_id]. rewrite (Hh _ (Hvalid r)). by rewrite bool_decide_true.
Qed.

Lemma held_split w c l1 l2 :
  wf_world w -> tw_held w = l1 ++ c :: l2 ->
  (cap_id c ∉ map cap_id (l1 ++ l2)) /\ NoDup (map cap_id (l1 ++ l2)) /\ cs_valid (cap_id c) /\
  Forall (fun c => cs_valid (cap_id c)) (l1 ++ l2) /\
  Forall (fun c => cs_holds (tw_store w) (cap_id c) = true) (l1 ++ l2).
Proof.
  intros [_ Hu Hv Hc] E. rewrite E in *. rewrite map_app in Hu. cbn [map] in Hu.
  rewrite map_app.
  assert (NoDup (cap_id c :: map cap_id l1 ++ map cap_id l2)) as Hu2.
  { eapply NoDup_Permutation_proper; [|exact Hu]. apply Permutation_middle. }
  apply list.NoDup_cons in Hu2 as [Hni Hnd].
  apply Forall_app in Hv as [Hv1 Hv2]. apply Forall_app in Hc as [Hc1 Hc2].
  inversion Hv2; inversion Hc2; subst. do 3 (split; [done|]).
  split; apply Forall_app; done.
Qed.

Lemma token_step_wf w w' : wf_world w -> token_step w w' -> wf_world w'.
Proof.
  intros Hw Hst. destruct Hst as [w r oc s' E|w c l1 l2 E|w c l1 l2 E|w oc n s' E].
  - by eapply claim_world.
  - destruct (held_split _ _ _ _ Hw E) as (Hni & Hnd & Hvc & Hv & Hc). split; cbn; [|done..|].
    + apply cs_release_wf, Hw.
    + rewrite list.Forall_forall in *. intros d Hd. unfold drop_cap.
      rewrite (cs_release_holds _ _ _ (ww_store _ Hw) Hvc (Hv d Hd)), (Hc d Hd).
      rewrite bool_decide_false; [done|]. intros Heq. apply Hni. rewrite Heq.
      apply list_elem_of_In, in_map, list_elem_of_In, Hd.
  - destruct (held_split _ _ _ _ Hw E) as (Hni & Hnd & Hvc & Hv & Hc). by split; [apply Hw|..].
  - unfold grant_superuser in E.
    destruct (claim RSuperUserCap (tw_store w)) as [[c|] s1] eqn:Ec; simplify_eq;
      by apply (claim_world w RSuperUserCap).
Qed.

Lemma token_steps_wf w w' : wf_world w -> rtc token_step w w' -> wf_world w'.
Proof. intros Hw Hst. induction Hst; eauto using token_step_wf. Qed.

Lemma held_claim_fails w c r : wf_world w -> c ∈ tw_held w -> cap_id c = RESOURCE_ID r -> fst (claim r (tw_store w)) = None.
Proof.
  intros Hw Hin Hid. unfold claim.
  pose proof (cs_acquire_won (tw_store w) (RESOURCE_ID r) (ww_store _ Hw) (Hvalid r)) as Hwon.
  pose proof (ww_claimed _ Hw) as Hc. rewrite list.Forall_forall in Hc. specialize (Hc c Hin).
  rewrite Hid in Hc. rewrite Hc in Hwon. destruct (cs_acquire _ _) as [won s']. cbn in *. by subst.
Qed.

(** C28. Linear tokens are exclusive. Starting from a well-formed world, whatever
    sequence of claims, drops, losses and superuser requests safe code
    performs, no two live tokens ever name the same resource, and every live
    token's resource is marked claimed in the store, so no other claim can
    succeed while it lives. Proved for every store with the registry's laws. *)
Theorem tokens_exclusive (w w' : TokenWorld) :
  wf_world w -> rtc token_step w w' ->
  wf_world w' /\
  forall c r, c ∈ tw_held w' -> cap_id c = RESOURCE_ID r -> fst (claim r (tw_store w')) = None.
Proof.
  intros Hw Hst. pose proof (token_steps_wf w w' Hw Hst) as Hw'. split; [done|]. intros c r. by apply held_claim_fails.
Qed.

End Store.

Definition boot_world : TokenWorld (S := list Z) :=
  {| tw_store := REGISTRY_INIT; tw_held := []; tw_count := 0 |}.

Lemma tokens_exclusive_witness :
  let w' := {| tw_store := snd (acquire REGISTRY_INIT 0); tw_held := [{| cap_id := 0 |}]; tw_count := 0 |} in
  wf_world w' /\ forall c r, c ∈ tw_held w' -> cap_id c = RESOURCE_ID r ->
    fst (claim r (tw_store w')) = None.
Proof.
  cbv zeta. apply (tokens_exclusive (S := list Z)) with (w := boot_world).
  - intros r. change (valid_id (RESOURCE_ID r)). unfold valid_id, MAX_RESOURCES. destruct r; cbn; lia.
  - split; [apply registry_init_wf|constructor..].
  - apply rtc_once. apply (ts_claim boot_world RGpioA (Some {| cap_id := 0 |})). reflexivity.
Defined.
