(* ===== verification/Ring.v ===== *)
(** * Ring: the bounded single-producer single-consumer ring

    The scheme shared by the scheduler's task queue and the UART receive
    buffer: [N] slots, a write and a read index, one slot always free. The
    sequential operations refine a bounded FIFO queue; the concurrent section
    interleaves the individual loads and stores of one producer and one
    consumer. *)
From S2P Require Import Prelude.

Section Ring.
Context {A : Type} (N : nat) (d : A).
Local Open Scope nat_scope.

Record Ring := { rg_buf : list A; rg_wr : nat; rg_rd : nat }.

Definition advance (i : nat) : nat := (i + 1) mod N.

Definition ring_push (x : A) (r : Ring) : option Ring :=
  if advance (rg_wr r) =? rg_rd r then None
  else Some {| rg_buf := aset (rg_buf r) (rg_wr r) x; rg_wr := advance (rg_wr r); rg_rd := rg_rd r |}.

Definition ring_pop (r : Ring) : option (A * Ring) :=
  if rg_rd r =? rg_wr r then None
  else Some (aget d (rg_buf r) (rg_rd r),
             {| rg_buf := rg_buf r; rg_wr := rg_wr r; rg_rd := advance (rg_rd r) |}).

Definition count (wr rd : nat) : nat := if rd <=? wr then wr - rd else N - rd + wr.

(** The queued items, the oldest first. *)
Definition slots (buf : list A) (rd n : nat) : list A :=
  map (fun i => aget d buf ((rd + i) mod N)) (seq 0 n).
Definition items (r : Ring) : list A := slots (rg_buf r) (rg_rd r) (count (rg_wr r) (rg_rd r)).

Record wf_ring (r : Ring) : Prop := {
  wr_len : length (rg_buf r) = N;
  wr_wr : rg_wr r < N;
  wr_rd : rg_rd r < N;
}.

Hypothesis HN : 0 < N.

(** ** Index arithmetic *)
Lemma wrap_mod a : a < 2 * N -> a mod N = if a <? N then a else a - N.
Proof.
  intros Ha. destruct (Nat.ltb_spec a N); [by apply Nat.mod_small|].
  replace a with (a - N + 1 * N) at 1 by lia. rewrite Nat.Div0.mod_add. apply Nat.mod_small. lia.
Qed.

Lemma advance_lt i : advance i < N.
Proof. apply Nat.mod_upper_bound. lia. Qed.

Lemma advance_eq i : i < N -> advance i = if i + 1 <? N then i + 1 else 0.
Proof.
  intros Hi. unfold advance. rewrite wrap_mod by lia. destruct (Nat.ltb_spec (i + 1) N); lia.
Qed.

Ltac ring_arith :=
  unfold count in *; rewrite ?advance_eq in * by lia;
  repeat match goal with
  | |- context [?a <=? ?b] => destruct (Nat.leb_spec a b)
  | |- context [?a <? ?b] => destruct (Nat.ltb_spec a b)
  | H : context [?a <=? ?b] |- _ => destruct (Nat.leb_spec a b)
  | H : context [?a <? ?b] |- _ => destruct (Nat.ltb_spec a b)
  end; lia.

Lemma count_lt wr rd : wr < N -> rd < N -> count wr rd < N.
Proof. intros. ring_arith. Qed.

Lemma count_push wr rd : wr < N -> rd < N -> advance wr <> rd -> count (advance wr) rd = S (count wr rd).
Proof. intros. ring_arith. Qed.

Lemma count_pop wr rd : wr < N -> rd < N -> rd <> wr -> count wr rd = S (count wr (advance rd)).
Proof. intros. ring_arith. Qed.

Lemma count_full wr rd : wr < N -> rd < N -> advance wr = rd <-> count wr rd = N - 1.
Proof. intros. split; intros; ring_arith. Qed.

Lemma count_empty wr rd : wr < N -> rd < N -> rd = wr <-> count wr rd = 0.
Proof. intros. split; intros; ring_arith. Qed.

(** The slot [count] steps after the read index is the write slot. *)
Lemma write_slot wr rd : wr < N -> rd < N -> (rd + count wr rd) mod N = wr.
Proof.
  intros. assert (rd + count wr rd < 2 * N) by ring_arith. rewrite wrap_mod by lia. ring_arith.
Qed.

Lemma index_inj rd i j : rd < N -> i < N -> j < N -> (rd + i) mod N = (rd + j) mod N -> i = j.
Proof.
  intros ? ? ?. rewrite !wrap_mod by lia.
  destruct (Nat.ltb_spec (rd + i) N), (Nat.ltb_spec (rd + j) N); lia.
Qed.

(** ** Slots *)
Lemma slots_S buf rd n : slots buf rd (S n) = slots buf rd n ++ [aget d buf ((rd + n) mod N)].
Proof. unfold slots. rewrite seq_S, map_app. done. Qed.

Lemma slots_head buf rd n :
  rd < N -> slots buf rd (S n) = aget d buf rd :: slots buf (advance rd) n.
Proof.
  intros Hrd. unfold slots. cbn [seq map]. rewrite Nat.add_0_r, Nat.mod_small by done. f_equal.
  rewrite <- seq_shift, map_map. apply map_ext. intros i. f_equal. unfold advance.
  rewrite Nat.Div0.add_mod_idemp_l. f_equal. lia.
Qed.

(** Writing a slot that is not among the first [n] leaves them alone. *)
Lemma slots_write buf rd n k x :
  rd < N -> n <= k < N -> slots (aset buf ((rd + k) mod N) x) rd n = slots buf rd n.
Proof.
  intros Hrd Hk. unfold slots. apply map_ext_in. intros i Hi%in_seq. apply aget_aset_ne.
  intros E. apply index_inj in E; lia.
Qed.

Lemma slots_length buf rd n : length (slots buf rd n) = n.
Proof. unfold slots. by rewrite length_map, length_seq. Qed.

(** ** The sequential refinement *)
Lemma items_length r : length (items r) = count (rg_wr r) (rg_rd r).
Proof. apply slots_length. Qed.

Lemma items_bound r : wf_ring r -> length (items r) <= N - 1.
Proof. intros [_ Hw Hr]. rewrite items_length. pose proof (count_lt _ _ Hw Hr). lia. Qed.

Lemma ring_push_spec x r : wf_ring r ->
  match ring_push x r with
  | Some r' => wf_ring r' /\ items r' = items r ++ [x]
  | None => length (items r) = N - 1
  end.
Proof.
  intros [Hl Hw Hr]. unfold ring_push. destruct (Nat.eqb_spec (advance (rg_wr r)) (rg_rd r)) as [E|E].
  - rewrite items_length. by apply count_full.
  - split; [split; cbn; [by rewrite length_aset|apply advance_lt|done]|].
    unfold items. cbn [rg_buf rg_wr rg_rd]. rewrite count_push, slots_S, write_slot by done.
    rewrite aget_aset_eq by lia. f_equal.
    rewrite <- (write_slot (rg_wr r) (rg_rd r)) at 1 by done. apply slots_write; [done|].
    pose proof (count_lt _ _ Hw Hr). lia.
Qed.

Lemma ring_pop_spec r : wf_ring r ->
  match ring_pop r with
  | Some (x, r') => wf_ring r' /\ items r = x :: items r'
  | None => items r = []
  end.
Proof.
  intros [Hl Hw Hr]. unfold ring_pop. destruct (Nat.eqb_spec (rg_rd r) (rg_wr r)) as [E|E].
  - unfold items. by rewrite (proj1 (count_empty _ _ Hw Hr) E).
  - split; [split; cbn; [done|done|apply advance_lt]|].
    unfold items. cbn [rg_buf rg_wr rg_rd]. rewrite (count_pop _ _ Hw Hr E). by apply slots_head.
Qed.

Lemma ring_new_wf : wf_ring {| rg_buf := replicate N d; rg_wr := 0; rg_rd := 0 |}.
Proof. split; cbn; [apply length_replicate|done|done]. Qed.

End Ring.
