(* ===== verification/Scheduler.v ===== *)
(** * Scheduler: task queue and shadow stack (crates/hros-kernel/src/scheduler.rs)

    The lock-free queue holds task-control-block pointers in 256 slots; the
    shadow stack holds return addresses. The queue is a [Ring] with the
    source's field names. Two theorems: the operations run one after the
    other are a bounded FIFO, and the loads and stores of one producer and
    one consumer may interleave in any way without losing, duplicating or
    reordering a task. *)
From S2P Require Import Prelude Registry AuditRing Memory Ring.
Local Open Scope Z_scope.
Local Open Scope u32_scope.

Inductive TaskState := Ready | Running | Blocked | Dead.

Record TaskControlBlock := {
  tcb_sp : Z; tcb_sp_limit : Z; tcb_sp_base : Z; tcb_pc : Z; tcb_state : TaskState
}.

Definition tcb_new : TaskControlBlock :=
  {| tcb_sp := 0; tcb_sp_limit := 0; tcb_sp_base := 0; tcb_pc := 0; tcb_state := Dead |}.

(** ** The queue *)
Definition QSIZE : nat := 256.

Record LockFreeTaskQueue := { q_head : nat; q_tail : nat; q_tasks : list Z }.

Definition queue_new : LockFreeTaskQueue :=
  {| q_head := 0; q_tail := 0; q_tasks := replicate QSIZE 0 |}.

Definition push_task (tcb : Z) (q : LockFreeTaskQueue) : Result unit unit * LockFreeTaskQueue :=
  let current_tail := q_tail q in
  let next_tail := ((current_tail + 1) mod QSIZE)%nat in
  if (next_tail =? q_head q)%nat then (Err tt, q)
  else (Ok tt, {| q_head := q_head q; q_tail := next_tail;
                  q_tasks := aset (q_tasks q) current_tail tcb |}).

Definition pop_task (q : LockFreeTaskQueue) : option Z * LockFreeTaskQueue :=
  let current_head := q_head q in
  if (current_head =? q_tail q)%nat then (None, q)
  else
    let next_head := ((current_head + 1) mod QSIZE)%nat in
    (Some (aget 0 (q_tasks q) current_head),
     {| q_head := next_head; q_tail := q_tail q; q_tasks := q_tasks q |}).

Definition queue_len (q : LockFreeTaskQueue) : nat :=
  if (q_head q <=? q_tail q)%nat then q_tail q - q_head q else QSIZE - q_head q + q_tail q.

Definition queue_is_empty (q : LockFreeTaskQueue) : bool := (q_head q =? q_tail q)%nat.

Definition queue_is_full (q : LockFreeTaskQueue) : bool :=
  ((q_tail q + 1) mod QSIZE =? q_head q)%nat.

(** ** SysTick *)
Definition systick_reload (f_cpu_hz delta_ms : Z) : Z := (f_cpu_hz / 1000) *w delta_ms.

Definition configure_systick {B} `{Bus B} (arch : Arch) (f_cpu_hz delta_ms : Z) (m : Machine B)
  : Z * Machine B :=
  let n := systick_reload f_cpu_hz delta_ms in
  (n, poke_u32 arch 0xE000E010 0x07 (poke_u32 arch 0xE000E018 0 (poke_u32 arch 0xE000E014 n m))).

(** ** The shadow stack *)
Definition D_MAX : nat := 32.

Record ShadowStack := { ss_slots : list Z; ss_depth : nat }.

Definition shadow_new : ShadowStack := {| ss_slots := replicate D_MAX 0; ss_depth := 0 |}.

Definition shadow_push (ret_addr : Z) (s : ShadowStack) : Result unit unit * ShadowStack :=
  if (D_MAX <=? ss_depth s)%nat then (Err tt, s)
  else (Ok tt, {| ss_slots := aset (ss_slots s) (ss_depth s) ret_addr; ss_depth := S (ss_depth s) |}).

Definition shadow_pop (s : ShadowStack) : option Z * ShadowStack :=
  match ss_depth s with
  | O => (None, s)
  | S n => (Some (aget 0 (ss_slots s) n), {| ss_slots := ss_slots s; ss_depth := n |})
  end.

Definition shadow_depth (s : ShadowStack) : nat := ss_depth s.

(** [assert_depth_ok::<D>()]: a failed assertion stops the build. *)
Definition assert_depth_ok (D : nat) : option unit := if (D <=? D_MAX)%nat then Some tt else None.

(** ** The cycle ledger of a context switch *)
Definition CYCLES_AUTO_STACK : Z := 12.
Definition CYCLES_MANUAL_PUSH : Z := 8.
Definition CYCLES_SCHED : Z := 3.
Definition CYCLES_MANUAL_POP : Z := 8.
Definition CYCLES_AUTO_UNSTACK : Z := 12.
Definition TOTAL_CYCLES : Z := 43.

Lemma cycle_ledger_adds_up :
  CYCLES_AUTO_STACK + CYCLES_MANUAL_PUSH + CYCLES_SCHED + CYCLES_MANUAL_POP + CYCLES_AUTO_UNSTACK = TOTAL_CYCLES.
Proof. reflexivity. Qed.

(** ** The queue as a ring *)
Definition queue_ring (q : LockFreeTaskQueue) : Ring :=
  {| rg_buf := q_tasks q; rg_wr := q_tail q; rg_rd := q_head q |}.

Definition wf_queue (q : LockFreeTaskQueue) : Prop := wf_ring QSIZE (queue_ring q).

(** The queued tasks, the oldest first. *)
Definition tasks (q : LockFreeTaskQueue) : list Z := items QSIZE 0 (queue_ring q).

Lemma QSIZE_pos : (0 < QSIZE)%nat.
Proof. unfold QSIZE. lia. Qed.

Lemma push_task_spec tcb q : wf_queue q ->
  match push_task tcb q with
  | (Ok _, q') => wf_queue q' /\ tasks q' = tasks q ++ [tcb] /\ (length (tasks q) < 255)%nat
  | (Err _, q') => q' = q /\ length (tasks q) = 255%nat
  end.
Proof.
  intros Hq. pose proof (ring_push_spec QSIZE 0 QSIZE_pos tcb _ Hq) as Hs.
  unfold ring_push, advance in Hs. unfold push_task. cbn [queue_ring rg_wr rg_rd rg_buf] in Hs.
  destruct (_ =? _)%nat; [by split|]. destruct Hs as [Hw Hi]. split; [exact Hw|]. split; [exact Hi|].
  pose proof (items_bound QSIZE 0 QSIZE_pos _ Hw) as Hb. rewrite Hi, length_app in Hb.
  unfold tasks. cbn [length] in Hb. unfold QSIZE in Hb at 2. lia.
Qed.

Lemma pop_task_spec q : wf_queue q ->
  match pop_task q with
  | (Some x, q') => wf_queue q' /\ tasks q = x :: tasks q'
  | (None, q') => q' = q /\ tasks q = []
  end.
Proof.
  intros Hq. pose proof (ring_pop_spec QSIZE 0 QSIZE_pos _ Hq) as Hs.
  unfold ring_pop, advance in Hs. unfold pop_task. cbn [queue_ring rg_wr rg_rd rg_buf] in Hs.
  destruct (_ =? _)%nat; [by split|]. exact Hs.
Qed.

(** *** Operation sequences against a bounded FIFO *)
Inductive QOp := QPush (tcb : Z) | QPop.

(** The outcome of an operation: [Some] of a result. *)
Inductive QRes := QPushed (ok : bool) | QPopped (r : option Z).

Definition q_step (o : QOp) (q : LockFreeTaskQueue) : QRes * LockFreeTaskQueue :=
  match o with
  | QPush x => let (r, q') := push_task x q in (QPushed (is_ok r), q')
  | QPop => let (r, q') := pop_task q in (QPopped r, q')
  end.

(** The specification: a list of at most 255 tasks. *)
Definition fifo_step (o : QOp) (l : list Z) : QRes * list Z :=
  match o with
  | QPush x => if (length l <? 255)%nat then (QPushed true, l ++ [x]) else (QPushed false, l)
  | QPop => match l with [] => (QPopped None, []) | x :: l' => (QPopped (Some x), l') end
  end.

(** The queue stands for a list. *)
Definition queue_rep (q : LockFreeTaskQueue) (l : list Z) : Prop := wf_queue q /\ tasks q = l.

Lemma q_step_fifo o q l : queue_rep q l ->
  fst (q_step o q) = fst (fifo_step o l) /\ queue_rep (snd (q_step o q)) (snd (fifo_step o l)).
Proof.
  intros [Hq <-]. unfold queue_rep. destruct o as [x|]; cbn [q_step fifo_step].
  - pose proof (push_task_spec x q Hq) as Hs. destruct (push_task x q) as [[[]|[]] q']; cbn [fst snd is_ok].
    + destruct Hs as (Hw & Ht & Hl). by destruct (Nat.ltb_spec (length (tasks q)) 255); [|lia].
    + destruct Hs as [-> Hl]. by destruct (Nat.ltb_spec (length (tasks q)) 255); [lia|].
  - pose proof (pop_task_spec q Hq) as Hs. destruct (pop_task q) as [[x|] q']; cbn [fst snd].
    + by destruct Hs as (Hw & ->).
    + by destruct Hs as (-> & ->).
Qed.

Lemma queue_new_wf : wf_queue queue_new.
Proof. apply (ring_new_wf QSIZE 0 QSIZE_pos). Qed.

Lemma queue_len_tasks q : queue_len q = length (tasks q).
Proof. unfold tasks. by rewrite items_length. Qed.

(** The scheduler queue is a FIFO of capacity 255: any sequence of pushes
    and pops, from the empty queue, returns exactly what a list queue returns
    (a push is refused only when 255 tasks wait, a pop yields the oldest), and
    [len], [is_empty] and [is_full] report the list's length. *)
Theorem task_queue_fifo (os : list QOp) :
  let '(rs, q) := run q_step os queue_new in
  let '(rs', l) := run fifo_step os [] in
  rs = rs' /\ tasks q = l /\
  queue_len q = length l /\
  queue_is_empty q = bool_decide (l = []) /\
  queue_is_full q = (length l =? 255)%nat.
Proof.
  destruct (run_simulation q_step fifo_step queue_rep q_step_fifo os queue_new [])
    as [Er [Hw Hl]]; [by split; [apply queue_new_wf|]|].
  destruct (run q_step os queue_new) as [rs q], (run fifo_step os []) as [rs' l]. cbn [fst snd] in *.
  subst l. split; [done|]. split; [done|].
  split; [apply queue_len_tasks|].
  pose proof (pop_task_spec q Hw) as Hp. unfold pop_task in Hp.
  pose proof (push_task_spec 0 q Hw) as Hf. unfold push_task in Hf.
  unfold queue_is_empty, queue_is_full. split.
  - destruct (q_head q =? q_tail q)%nat; cbn in Hp.
    + destruct Hp as [_ ->]. done.
    + destruct Hp as [_ Hp]. rewrite bool_decide_false; [done|]. by rewrite Hp.
  - destruct (_ =? q_head q)%nat.
    + destruct Hf as [_ ->]. done.
    + destruct Hf as (_ & _ & Hl). symmetry. apply Nat.eqb_neq. lia.
Qed.

(** ** One producer and one consumer, step by step

    A core between two shared-memory accesses of [push_task] or [pop_task]:
    the local variables it holds. *)
Inductive Producer :=
| PIdle
| PLoaded (tcb : Z) (t : nat)   (* tail loaded *)
| PChecked (tcb : Z) (t : nat)  (* head loaded: not full *)
| PWritten (tcb : Z) (t : nat). (* slot written *)

Inductive Consumer :=
| CIdle
| CLoaded (h : nat)
| CChecked (h : nat)
| CRead (h : nat) (v : Z).

Record Cores := {
  co_q : LockFreeTaskQueue; co_p : Producer; co_c : Consumer;
  co_pushed : list Z; (* committed pushes, in order *)
  co_popped : list Z; (* completed pops, in order *)
}.

Definition set_head (h : nat) (q : LockFreeTaskQueue) : LockFreeTaskQueue :=
  {| q_head := h; q_tail := q_tail q; q_tasks := q_tasks q |}.
Definition set_tail (t : nat) (q : LockFreeTaskQueue) : LockFreeTaskQueue :=
  {| q_head := q_head q; q_tail := t; q_tasks := q_tasks q |}.
Definition set_slot (i : nat) (x : Z) (q : LockFreeTaskQueue) : LockFreeTaskQueue :=
  {| q_head := q_head q; q_tail := q_tail q; q_tasks := aset (q_tasks q) i x |}.

Inductive core_step : Cores -> Cores -> Prop :=
| p_load x q c us os :
    core_step {| co_q := q; co_p := PIdle; co_c := c; co_pushed := us; co_popped := os |}
              {| co_q := q; co_p := PLoaded x (q_tail q); co_c := c; co_pushed := us; co_popped := os |}
| p_full x t q c us os : ((t + 1) mod QSIZE)%nat = q_head q ->
    core_step {| co_q := q; co_p := PLoaded x t; co_c := c; co_pushed := us; co_popped := os |}
              {| co_q := q; co_p := PIdle; co_c := c; co_pushed := us; co_popped := os |}
| p_check x t q c us os : ((t + 1) mod QSIZE)%nat <> q_head q ->
    core_step {| co_q := q; co_p := PLoaded x t; co_c := c; co_pushed := us; co_popped := os |}
              {| co_q := q; co_p := PChecked x t; co_c := c; co_pushed := us; co_popped := os |}
| p_write x t q c us os :
    core_step {| co_q := q; co_p := PChecked x t; co_c := c; co_pushed := us; co_popped := os |}
              {| co_q := set_slot t x q; co_p := PWritten x t; co_c := c; co_pushed := us; co_popped := os |}
| p_store x t q c us os :
    core_step {| co_q := q; co_p := PWritten x t; co_c := c; co_pushed := us; co_popped := os |}
              {| co_q := set_tail ((t + 1) mod QSIZE) q; co_p := PIdle; co_c := c;
                 co_pushed := us ++ [x]; co_popped := os |}
| c_load q p us os :
    core_step {| co_q := q; co_p := p; co_c := CIdle; co_pushed := us; co_popped := os |}
              {| co_q := q; co_p := p; co_c := CLoaded (q_head q); co_pushed := us; co_popped := os |}
| c_empty h q p us os : h = q_tail q ->
    core_step {| co_q := q; co_p := p; co_c := CLoaded h; co_pushed := us; co_popped := os |}
              {| co_q := q; co_p := p; co_c := CIdle; co_pushed := us; co_popped := os |}
| c_check h q p us os : h <> q_tail q ->
    core_step {| co_q := q; co_p := p; co_c := CLoaded h; co_pushed := us; co_popped := os |}
              {| co_q := q; co_p := p; co_c := CChecked h; co_pushed := us; co_popped := os |}
| c_read h q p us os :
    core_step {| co_q := q; co_p := p; co_c := CChecked h; co_pushed := us; co_popped := os |}
              {| co_q := q; co_p := p; co_c := CRead h (aget 0 (q_tasks q) h);
                 co_pushed := us; co_popped := os |}
| c_store h v q p us os :
    core_step {| co_q := q; co_p := p; co_c := CRead h v; co_pushed := us; co_popped := os |}
              {| co_q := set_head ((h + 1) mod QSIZE) q; co_p := p; co_c := CIdle;
                 co_pushed := us; co_popped := os ++ [v] |}.

Definition cores_new : Cores :=
  {| co_q := queue_new; co_p := PIdle; co_c := CIdle; co_pushed := []; co_popped := [] |}.

(** What each core may rely on between its accesses. *)
Definition producer_ok (q : LockFreeTaskQueue) (p : Producer) : Prop :=
  match p with
  | PIdle => True
  | PLoaded _ t => t = q_tail q
  | PChecked _ t => t = q_tail q /\ advance QSIZE t <> q_head q
  | PWritten x t => t = q_tail q /\ advance QSIZE t <> q_head q /\ aget 0 (q_tasks q) t = x
  end.

Definition consumer_ok (q : LockFreeTaskQueue) (c : Consumer) : Prop :=
  match c with
  | CIdle => True
  | CLoaded h => h = q_head q
  | CChecked h => h = q_head q /\ h <> q_tail q
  | CRead h v => h = q_head q /\ h <> q_tail q /\ aget 0 (q_tasks q) h = v
  end.

Record cores_ok (s : Cores) : Prop := {
  ck_wf : wf_queue (co_q s);
  ck_hist : co_pushed s = co_popped s ++ tasks (co_q s);
  ck_p : producer_ok (co_q s) (co_p s);
  ck_c : consumer_ok (co_q s) (co_c s);
}.

Lemma set_slot_tail x q : wf_queue q ->
  wf_queue (set_slot (q_tail q) x q) /\ tasks (set_slot (q_tail q) x q) = tasks q /\
  aget 0 (q_tasks (set_slot (q_tail q) x q)) (q_tail q) = x.
Proof.
  intros [Hl Hw Hr]. cbn in Hl, Hw, Hr. split; [split; cbn; rewrite ?length_aset; done|]. split.
  - unfold tasks, items. cbn [queue_ring rg_buf rg_wr rg_rd set_slot q_head q_tail q_tasks].
    rewrite <- (write_slot QSIZE QSIZE_pos (q_tail q) (q_head q)) at 1 by done.
    apply (slots_write QSIZE 0 QSIZE_pos); [done|].
    pose proof (count_lt QSIZE QSIZE_pos (q_tail q) (q_head q) Hw Hr). lia.
  - apply aget_aset_eq. cbn. lia.
Qed.

Lemma set_tail_commit x q : wf_queue q ->
  advance QSIZE (q_tail q) <> q_head q -> aget 0 (q_tasks q) (q_tail q) = x ->
  wf_queue (set_tail (advance QSIZE (q_tail q)) q) /\
  tasks (set_tail (advance QSIZE (q_tail q)) q) = tasks q ++ [x].
Proof.
  intros [Hl Hw Hr] Hne Hx. cbn in Hl, Hw, Hr. split.
  - split; [done|apply (advance_lt QSIZE), QSIZE_pos|done].
  - unfold tasks, items. cbn [queue_ring rg_buf rg_wr rg_rd set_tail q_head q_tail q_tasks].
    rewrite count_push, slots_S, write_slot by first [done|apply QSIZE_pos]. by rewrite Hx.
Qed.

Lemma set_head_commit q : wf_queue q -> q_head q <> q_tail q ->
  wf_queue (set_head (advance QSIZE (q_head q)) q) /\
  tasks q = aget 0 (q_tasks q) (q_head q) :: tasks (set_head (advance QSIZE (q_head q)) q).
Proof.
  intros [Hl Hw Hr] Hne. cbn in Hl, Hw, Hr. split.
  - split; [done|done|apply (advance_lt QSIZE), QSIZE_pos].
  - unfold tasks, items. cbn [queue_ring rg_buf rg_wr rg_rd set_head q_head q_tail q_tasks].
    rewrite (count_pop QSIZE QSIZE_pos _ _ Hw Hr Hne). by apply (slots_head QSIZE 0 QSIZE_pos).
Qed.

Lemma advance_inj i j : (i < QSIZE)%nat -> (j < QSIZE)%nat -> advance QSIZE i = advance QSIZE j -> i = j.
Proof.
  intros Hi Hj. unfold advance. rewrite !(Nat.add_comm _ 1).
  intros E. apply (index_inj QSIZE QSIZE_pos 1 i j) in E; [done|unfold QSIZE; lia|done|done].
Qed.

Lemma core_step_ok s s' : cores_ok s -> core_step s s' -> cores_ok s'.
Proof.
  intros [Hw Hh Hp Hc] Hst. pose proof Hw as [Hl Hwr Hrd].
  destruct Hst as [x q c us os|x t q c us os E|x t q c us os E|x t q c us os|x t q c us os
    |q p us os|h q p us os E|h q p us os E|h q p us os|h v q p us os];
    cbn [co_q co_p co_c co_pushed co_popped queue_ring rg_buf rg_wr rg_rd] in *;
    cbn [producer_ok consumer_ok] in Hp, Hc.
  - by split.
  - by split.
  - split; [done..| |done]. by subst.
  - destruct Hp as [-> Hne]. destruct (set_slot_tail x q Hw) as (Hw' & Ht & Hx).
    split; cbn [co_q co_p co_c co_pushed co_popped]; [done|by rewrite Ht|done|].
    destruct c as [|h|h|h v]; try done. destruct Hc as (-> & Hne2 & <-). split; [done|]. split; [done|].
    by apply aget_aset_ne.
  - destruct Hp as (-> & Hne & Hx). destruct (set_tail_commit x q Hw Hne Hx) as (Hw' & Ht).
    split; [done| |done|].
    + cbn [co_q co_pushed co_popped]. change ((q_tail q + 1) mod QSIZE)%nat with (advance QSIZE (q_tail q)).
      by rewrite Ht, Hh, app_assoc.
    + cbn [co_q co_c]. destruct c as [|h|h|h v]; try done; cbn [consumer_ok set_tail q_head q_tail q_tasks].
      * destruct Hc as [-> _]. done.
      * destruct Hc as (-> & _ & Hv). done.
  - by split.
  - by split.
  - by split; [..|split].
  - destruct Hc as [-> Hne]. by split.
  - destruct Hc as (-> & Hne & <-). destruct (set_head_commit q Hw Hne) as (Hw' & Ht).
    split; [done| | |done].
    + cbn [co_q co_pushed co_popped]. rewrite <- app_assoc. cbn [app].
      change ((q_head q + 1) mod QSIZE)%nat with (advance QSIZE (q_head q)). by rewrite <- Ht.
    + cbn [co_q co_p]. destruct p as [|x t|x t|x t]; try done; cbn [producer_ok set_head q_head q_tail q_tasks].
      * destruct Hp as [-> _]. split; [done|]. intros E. by apply advance_inj in E.
      * destruct Hp as (-> & _ & Hx). split; [done|]. split; [|done]. intros E. by apply advance_inj in E.
Qed.

(** C6. Lock-free and correct for one producer and one consumer: however the
    loads, slot accesses and stores of [push_task] and [pop_task] interleave,
    the pops deliver a prefix of the pushes in order, nothing lost or
    duplicated, and what is in between is exactly the queue's content; the
    consumer never reads a slot being written. *)
Theorem task_queue_interleaved (s : Cores) :
  rtc core_step cores_new s ->
  co_pushed s = co_popped s ++ tasks (co_q s) /\ (length (tasks (co_q s)) <= 255)%nat /\
  match co_p s, co_c s with
  | PChecked _ t, CChecked h => t <> h
  | _, _ => True
  end.
Proof.
  intros Hst. assert (cores_ok s) as [Hw Hh Hp Hc].
  { assert (cores_ok cores_new) as H0 by (split; [apply queue_new_wf|done..]).
    induction Hst; eauto using core_step_ok. }
  split; [done|]. split; [apply (items_bound QSIZE 0 QSIZE_pos _ Hw)|].
  destruct (co_p s), (co_c s); try done. destruct Hp as [-> _], Hc as [-> Hne]. congruence.
Qed.

Lemma task_queue_interleaved_witness :
  let s := {| co_q := set_tail 1 (set_slot 0 7 queue_new); co_p := PIdle; co_c := CLoaded 0;
              co_pushed := [7]; co_popped := [] |} in
  co_pushed s = co_popped s ++ tasks (co_q s) /\ (length (tasks (co_q s)) <= 255)%nat /\ True.
Proof.
  cbv zeta. apply (task_queue_interleaved {| co_q := set_tail 1 (set_slot 0 7 queue_new);
    co_p := PIdle; co_c := CLoaded 0; co_pushed := [7]; co_popped := [] |}).
  eapply rtc_l; [apply (c_load queue_new)|]. eapply rtc_l; [apply (p_load 7)|].
  eapply rtc_l; [apply p_check; vm_compute; discriminate|]. eapply rtc_l; [apply p_write|].
  apply rtc_once, (p_store 7 0 _ _ [] []).
Defined.

(** ** The shadow stack *)
Inductive SOp := SPush (a : Z) | SPop.

Definition shadow_step (o : SOp) (s : ShadowStack) : QRes * ShadowStack :=
  match o with
  | SPush a => let (r, s') := shadow_push a s in (QPushed (is_ok r), s')
  | SPop => let (r, s') := shadow_pop s in (QPopped r, s')
  end.

(** The specification: a call stack of depth at most [D_MAX]. *)
Definition lifo_step (o : SOp) (l : list Z) : QRes * list Z :=
  match o with
  | SPush a => if (length l <? D_MAX)%nat then (QPushed true, a :: l) else (QPushed false, l)
  | SPop => match l with [] => (QPopped None, []) | x :: l' => (QPopped (Some x), l') end
  end.

Definition shadow_rep (s : ShadowStack) (l : list Z) : Prop :=
  length (ss_slots s) = D_MAX /\ (ss_depth s <= D_MAX)%nat /\ l = rev (take (ss_depth s) (ss_slots s)).

Lemma shadow_step_rep o s l : shadow_rep s l ->
  fst (shadow_step o s) = fst (lifo_step o l) /\
  shadow_rep (snd (shadow_step o s)) (snd (lifo_step o l)).
Proof.
  intros (Hl & Hd & Hst).
  assert (length l = ss_depth s) as Hlen by (rewrite Hst, length_rev, length_take; lia).
  destruct o as [a|]; cbn [shadow_step lifo_step].
  - unfold shadow_push. rewrite Hlen.
    destruct (Nat.leb_spec D_MAX (ss_depth s)), (Nat.ltb_spec (ss_depth s) D_MAX); try lia;
      cbn [fst snd is_ok]; (split; [done|]); [done|].
    unfold shadow_rep. cbn [ss_slots ss_depth]. rewrite length_aset. split; [done|]. split; [lia|].
    unfold aset. rewrite (take_S_r _ _ a) by (apply list_lookup_insert_eq; lia).
    rewrite take_insert_ge by lia. rewrite rev_app_distr. cbn [rev app]. by rewrite Hst.
  - unfold shadow_pop. destruct (ss_depth s) as [|n] eqn:E.
    + destruct l; [|done]. cbn [fst snd]. split; [done|]. unfold shadow_rep. rewrite E. done.
    + rewrite (take_S_r _ _ (aget 0 (ss_slots s) n)) in Hst by (apply aget_lookup; lia).
      rewrite rev_app_distr in Hst. cbn in Hst. subst l. cbn [fst snd]. split; [done|].
      split; [done|]. split; [cbn; lia|done].
Qed.

(** The shadow stack is a call stack of depth 32: over any sequence of
    pushes and pops it returns what a bounded list stack returns, refuses the
    33rd nested call, and never reads a slot above its depth. *)
Theorem shadow_stack_lifo (os : list SOp) :
  fst (run shadow_step os shadow_new) = fst (run lifo_step os []) /\
  shadow_rep (snd (run shadow_step os shadow_new)) (snd (run lifo_step os [])).
Proof.
  apply (run_simulation _ _ shadow_rep shadow_step_rep).
  split; [done|]. split; [cbn; unfold D_MAX; lia|done].
Qed.
