(* ===== verification/Uart.v ===== *)
(** * Uart: console output and the receive ring (src/drivers/uart.rs)

    The emitters send bytes through [put_byte], which on ARM waits for the
    transmitter; the wait takes fuel, [None] meaning the transmitter never
    became ready. The numbers the emitters print are read back by the lexer
    as the same numbers. *)
From S2P Require Import Prelude Registry AuditRing Memory Lexer Ring.
Local Open Scope Z_scope.
Local Open Scope u32_scope.

Definition RING_SIZE : nat := 256.

Record RxRing := { rx_buf : list Z; rx_head : nat; rx_tail : nat }.

Definition RX_RING_INIT : RxRing := {| rx_buf := replicate RING_SIZE 0; rx_head := 0; rx_tail := 0 |}.

(** ** MMIO (module [mmio], per target) *)
Definition ARM_SR : Z := 0x40011000.
Definition ARM_DR : Z := 0x40011004.
Definition ARM_CR1 : Z := 0x4001100C.
Definition SR_TXE : Z := bit32 7.
Definition SR_RXNE : Z := bit32 5.
Definition CR1_UE : Z := bit32 13.
Definition CR1_TE : Z := bit32 3.
Definition CR1_RE : Z := bit32 2.
Definition RISCV_TXDATA : Z := 0x10013000.
Definition RISCV_RXDATA : Z := 0x10013004.
Definition RX_EMPTY : Z := bit32 31.

Section Io.
Context {B : Type} `{Bus B} (arch : Arch).
Implicit Type m : Machine B.

Definition uart_init m : Machine B :=
  match arch with
  | Arm =>
      let (cr1, m1) := peek_u32 arch ARM_CR1 m in
      poke_u32 arch ARM_CR1 (Z.lor (Z.lor (Z.lor cr1 CR1_UE) CR1_TE) CR1_RE) m1
  | Riscv32 => m
  end.

(** [while peek(SR) & SR_TXE == 0 {}]. *)
Fixpoint wait_txe (spin : nat) m : option (Machine B) :=
  match spin with
  | O => None
  | S s =>
      let (sr, m1) := peek_u32 arch ARM_SR m in
      if Z.land sr SR_TXE =? 0 then wait_txe s m1 else Some m1
  end.

Definition put_byte (spin : nat) (byte : Z) m : option (Machine B) :=
  match arch with
  | Arm => m1 ← wait_txe spin m; Some (poke_u32 arch ARM_DR byte m1)
  | Riscv32 => Some (poke_u32 arch RISCV_TXDATA byte m)
  end.

Definition poll_get_byte m : option Z * Machine B :=
  match arch with
  | Arm =>
      let (sr, m1) := peek_u32 arch ARM_SR m in
      if negb (Z.land sr SR_RXNE =? 0)
      then let (dr, m2) := peek_u32 arch ARM_DR m1 in (Some (Z.land dr 0xFF), m2)
      else (None, m1)
  | Riscv32 =>
      let (word, m1) := peek_u32 arch RISCV_RXDATA m in
      if Z.land word RX_EMPTY =? 0 then (Some (Z.land word 0xFF), m1) else (None, m1)
  end.

Fixpoint write_str (spin : nat) (s : list Z) m : option (Machine B) :=
  match s with
  | [] => Some m
  | b :: s' => m1 ← put_byte spin b m; write_str spin s' m1
  end.

End Io.

(** ** Number formatting: the bytes sent, in order *)
Definition HEX : list Z := bytes "0123456789ABCDEF".

Definition hex_bytes (value : Z) : list Z :=
  map (fun shift => aget 0 HEX (Z.to_nat (Z.land (u32_shr value shift) 0xF)))
    [28; 24; 20; 16; 12; 8; 4; 0].

(** The scratch buffer after the division loop: [fuel] is its 10 bytes. *)
Fixpoint dec_scratch (fuel : nat) (value : Z) : list Z :=
  match fuel with
  | O => []
  | S f =>
      (ch "0" + value mod 10) ::
      (let value' := value / 10 in if value' =? 0 then [] else dec_scratch f value')
  end.

Definition dec_bytes (value : Z) : list Z := rev (dec_scratch 10 value).

Definition CRLF : list Z := [13; 10].

Section Emit.
Context {B : Type} `{Bus B} (arch : Arch) (spin : nat).

Definition write_hex_u32 (value : Z) (m : Machine B) : option (Machine B) :=
  m1 ← write_str arch spin (bytes "0x") m; write_str arch spin (hex_bytes value) m1.

Definition write_dec_u32 (value : Z) (m : Machine B) : option (Machine B) :=
  write_str arch spin (dec_bytes value) m.

Definition write_line_u32 (value : Z) (m : Machine B) : option (Machine B) :=
  m1 ← write_hex_u32 value m; write_str arch spin CRLF m1.

Definition write_line (s : list Z) (m : Machine B) : option (Machine B) :=
  m1 ← write_str arch spin s m; write_str arch spin CRLF m1.

(** ** The receive path *)
Definition irq_handler (ring : RxRing) (m : Machine B) : RxRing * Machine B :=
  match poll_get_byte arch m with
  | (Some byte, m1) =>
      let next := ((rx_head ring + 1) mod RING_SIZE)%nat in
      if negb (next =? rx_tail ring)%nat
      then ({| rx_buf := aset (rx_buf ring) (rx_head ring) byte; rx_head := next;
               rx_tail := rx_tail ring |}, m1)
      else (ring, m1)
  | (None, m1) => (ring, m1)
  end.

End Emit.

Definition uart_ring_pop (ring : RxRing) : option Z * RxRing :=
  if (rx_tail ring =? rx_head ring)%nat then (None, ring)
  else
    (Some (aget 0 (rx_buf ring) (rx_tail ring)),
     {| rx_buf := rx_buf ring; rx_head := rx_head ring;
        rx_tail := ((rx_tail ring + 1) mod RING_SIZE)%nat |}).

(** ** Printed numbers *)
Lemma numeral_app base dig a b acc :
  numeral base dig (a ++ b) acc = numeral base dig b (numeral base dig a acc).
Proof. revert acc. induction a as [|x a IH]; intros acc; cbn; [done|]. by destruct (dig x). Qed.

Lemma dec_digit_print d : 0 <= d < 10 -> dec_digit (ch "0" + d) = Some d.
Proof.
  intros Hd. unfold dec_digit, is_ascii_digit, in_range. change (ch "0") with 48.
  destruct (Z.leb_spec 48 (48 + d)), (Z.leb_spec (48 + d) 57); try lia. cbn. f_equal. lia.
Qed.

Lemma dec_scratch_value f v :
  0 <= v < 10 ^ Z.of_nat f -> numeral 10 dec_digit (rev (dec_scratch f v)) 0 = v.
Proof.
  revert v. induction f as [|f IH]; intros v Hv; [cbn in *; lia|].
  cbn [dec_scratch rev]. rewrite numeral_app. cbn [numeral].
  pose proof (Z.mod_pos_bound v 10 ltac:(lia)). rewrite dec_digit_print by lia.
  pose proof (Z.div_mod v 10 ltac:(lia)).
  destruct (Z.eqb_spec (v / 10) 0) as [E|E]; cbn [rev numeral]; [lia|].
  rewrite IH; [lia|]. rewrite Nat2Z.inj_succ, Z.pow_succ_r in Hv by lia.
  split; [apply Z.div_pos; lia|apply Z.div_lt_upper_bound; lia].
Qed.

Lemma dec_scratch_digits f v : 0 <= v -> forallb is_ascii_digit (dec_scratch f v) = true.
Proof.
  revert v. induction f as [|f IH]; intros v Hv; [done|]. cbn [dec_scratch forallb].
  pose proof (Z.mod_pos_bound v 10 ltac:(lia)). apply andb_true_iff. split.
  - pose proof (dec_digit_print (v mod 10)) as Hd. unfold dec_digit in Hd.
    destruct (is_ascii_digit _); [done|]. by specialize (Hd ltac:(lia)).
  - cbv zeta. destruct (v / 10 =? 0); [done|]. apply IH. apply Z.div_pos; lia.
Qed.

Lemma dec_scratch_length f v : (length (dec_scratch f v) <= f)%nat.
Proof.
  revert v. induction f as [|f IH]; intros v; cbn [dec_scratch length]; [lia|].
  specialize (IH (v / 10)). cbv zeta. destruct (v / 10 =? 0); cbn [length]; lia.
Qed.

Lemma nibble v k : 0 <= k -> Z.land (u32_shr v k) 0xF = (v / 2 ^ k) mod 16.
Proof.
  intros Hk. unfold u32_shr. rewrite Z.shiftr_div_pow2 by lia.
  change 0xF with (Z.ones 4). by rewrite Z.land_ones by lia.
Qed.

Lemma hex_digit_print n : 0 <= n < 16 -> hex_digit (aget 0 HEX (Z.to_nat n)) = Some n.
Proof.
  intros Hn. assert (exists k : nat, (k < 16)%nat /\ n = Z.of_nat k) as (k & Hk & ->).
  { exists (Z.to_nat n). lia. }
  rewrite Nat2Z.id. do 16 (destruct k as [|k]; [reflexivity|]). lia.
Qed.

Lemma hex_bytes_value v : u32 v -> numeral 16 hex_digit (hex_bytes v) 0 = v.
Proof.
  intros Hv. unfold hex_bytes. cbn [map numeral].
  rewrite !nibble by lia. rewrite !hex_digit_print by (apply Z.mod_pos_bound; lia).
  assert (forall k j, 0 <= k -> j = k + 4 -> v / 2 ^ j * 16 + (v / 2 ^ k) mod 16 = v / 2 ^ k) as Hstep.
  { intros k j Hk ->. rewrite Z.pow_add_r, <- Z.div_div by lia. change (2 ^ 4) with 16.
    pose proof (Z.div_mod (v / 2 ^ k) 16). lia. }
  assert (v / 2 ^ 32 = 0) as H0 by (apply Z.div_small; unfold u32, M32 in Hv; lia).
  rewrite <- H0 at 1.
  rewrite (Hstep 28 32), (Hstep 24 28), (Hstep 20 24), (Hstep 16 20), (Hstep 12 16), (Hstep 8 12),
    (Hstep 4 8), (Hstep 0 4) by lia. apply Z.div_1_r.
Qed.

Lemma hex_bytes_digits v : forallb hex_byte (hex_bytes v) = true.
Proof.
  unfold hex_bytes. apply forallb_forall. intros b (s & <- & Hs)%in_map_iff. unfold hex_byte.
  assert (0 <= s) as Hs0 by (cbn in Hs; lia). rewrite nibble by done.
  pose proof (hex_digit_print ((v / 2 ^ s) mod 16) ltac:(apply Z.mod_pos_bound; lia)) as E.
  apply hex_digit_class in E. by rewrite E.
Qed.

(** A byte that cannot belong to a word or number. *)
Lemma stops_weaken (p q : Z -> bool) rest :
  (forall b, q b = true -> p b = true) -> stops p rest -> stops q rest.
Proof.
  intros Hpq. destruct rest as [|b rest]; [done|]. cbn. intros Hp.
  destruct (q b) eqn:E; [|done]. apply Hpq in E. congruence.
Qed.

Lemma ident_dec b : dec_byte b = true -> is_ident_byte b = true.
Proof.
  unfold dec_byte, is_ident_byte, is_ascii_alphanumeric.
  destruct (is_ascii_digit b), (is_underscore b), (is_ascii_alphabetic b); done.
Qed.

Lemma ident_hex b : hex_byte b = true -> is_ident_byte b = true.
Proof.
  unfold hex_byte, is_ident_byte, is_ascii_alphanumeric, is_ascii_hexdigit, is_ascii_alphabetic, in_range.
  destruct (is_ascii_digit b), (is_underscore b); rewrite ?orb_true_r, ?orb_true_l; try done.
  intros Hb. rewrite ?orb_false_r in *. cbn [orb] in Hb.
  repeat match goal with |- context [?a <=? ?b] => destruct (Z.leb_spec a b) end;
  repeat match goal with H : context [?a <=? ?b] |- _ => destruct (Z.leb_spec a b) end; first [done|lia].
Qed.

Lemma scan_digit b rest c l :
  is_ascii_digit b = true ->
  scan (b :: rest) c l = let (t, n) := parse_literal (b :: rest) in (t, (c + n)%nat, l).
Proof.
  intros Hd. cbn [scan]. rewrite Hd. unfold is_ascii_digit, in_range in Hd. bool_to_prop.
  unfold is_blank, is_ascii_alphabetic, is_underscore, in_range.
  repeat match goal with
  | |- context [b =? ?k] => rewrite (proj2 (Z.eqb_neq b k)) by lia
  | |- context [?k <=? b] => rewrite (proj2 (Z.leb_gt k b)) by lia
  end. done.
Qed.

Lemma dec_text_no_prefix b ds rest :
  is_ascii_digit b = true -> forallb is_ascii_digit ds = true -> stops is_ident_byte rest ->
  hex_prefix (b :: ds ++ rest) = None.
Proof.
  intros Hb Hds Hs. unfold hex_prefix. destruct (decide (b = 48)) as [->|Hne].
  - destruct (ds ++ rest) as [|x l] eqn:E; [done|].
    assert ((x =? 120) || (x =? 88) = false) as ->; [|done].
    destruct ds as [|c ds]; cbn in E; [subst rest|].
    + cbn in Hs. apply orb_false_iff. split; apply Z.eqb_neq; intros ->; by vm_compute in Hs.
    + simplify_eq. cbn [forallb] in Hds. apply andb_true_iff in Hds as [Hx _].
      unfold is_ascii_digit, in_range in Hx. bool_to_prop.
      apply orb_false_iff. split; apply Z.eqb_neq; lia.
  - destruct b as [|b|b]; try done. repeat (destruct b as [b|b|]; try done).
Qed.

Lemma dec_text_lexes v rest :
  u32 v -> stops is_ident_byte rest ->
  scan (dec_bytes v ++ rest) 0 1 = (Literal v, length (dec_bytes v), 1%nat).
Proof.
  intros Hv Hs. unfold u32, M32 in Hv.
  assert (numeral 10 dec_digit (dec_bytes v) 0 = v) as Hval
    by (apply dec_scratch_value; cbn; lia).
  assert (forallb is_ascii_digit (dec_bytes v) = true) as Hdig.
  { apply forallb_forall. intros b Hb%in_rev. revert b Hb. apply forallb_forall.
    apply dec_scratch_digits. lia. }
  assert (dec_bytes v <> []) as Hne.
  { unfold dec_bytes. cbn [dec_scratch rev]. intros E%app_eq_nil. by destruct E. }
  destruct (dec_bytes v) as [|b ds]; [done|]. pose proof Hdig as Hall. cbn [forallb] in Hdig.
  apply andb_true_iff in Hdig as [Hb Hds].
  change ((b :: ds) ++ rest) with (b :: (ds ++ rest)). rewrite scan_digit by done.
  change (b :: (ds ++ rest)) with ((b :: ds) ++ rest). rewrite parse_literal_dec.
  - cbv zeta. rewrite Hval. by rewrite (proj2 (Z.ltb_lt v M32)) by (unfold M32; lia).
  - apply forallb_forall. intros c Hc. unfold dec_byte.
    by rewrite (proj1 (forallb_forall _ _) Hall c Hc).
  - eapply stops_weaken; [|exact Hs]. apply ident_dec.
  - by apply dec_text_no_prefix.
Qed.

Lemma hex_text_lexes v rest :
  u32 v -> stops is_ident_byte rest ->
  scan ((bytes "0x" ++ hex_bytes v) ++ rest) 0 1 = (Literal v, 10%nat, 1%nat).
Proof.
  intros Hv Hs. change ((bytes "0x" ++ hex_bytes v) ++ rest) with (48 :: 120 :: hex_bytes v ++ rest).
  rewrite scan_digit by done. rewrite parse_literal_hex.
  - cbv zeta. rewrite hex_bytes_value by done. unfold u32 in Hv.
    by rewrite (proj2 (Z.ltb_lt v M32)) by lia.
  - done.
  - done.
  - apply hex_bytes_digits.
  - eapply stops_weaken; [|exact Hs]. apply ident_hex.
Qed.

(** C36. What the console prints, the lexer reads back: for every 32-bit value,
    the decimal text (at most ten bytes, never overrunning the scratch buffer)
    and the [0x] text of eight digits, followed by anything that cannot
    continue a word, lex to that value as one literal, consumed whole. *)
Theorem print_lex_roundtrip (v : Z) (rest : list Z) :
  u32 v -> stops is_ident_byte rest ->
  (length (dec_bytes v) <= 10)%nat /\
  next_token (lexer_new (dec_bytes v ++ rest)) =
    (Literal v, {| lx_stream := dec_bytes v ++ rest; lx_cursor := length (dec_bytes v); lx_line := 1 |}) /\
  next_token (lexer_new ((bytes "0x" ++ hex_bytes v) ++ rest)) =
    (Literal v, {| lx_stream := (bytes "0x" ++ hex_bytes v) ++ rest; lx_cursor := 10; lx_line := 1 |}).
Proof.
  intros Hv Hs. split; [unfold dec_bytes; rewrite length_rev; apply dec_scratch_length|].
  unfold next_token, lexer_new. cbn [lx_cursor lx_stream lx_line]. rewrite !drop_0.
  rewrite dec_text_lexes, hex_text_lexes by done. done.
Qed.

Lemma print_lex_roundtrip_witness :
  dec_bytes 4294967295 = bytes "4294967295" /\
  next_token (lexer_new (dec_bytes 4294967295 ++ bytes ")")) =
    (Literal 4294967295,
     {| lx_stream := bytes "4294967295)"; lx_cursor := 10; lx_line := 1 |}).
Proof.
  split; [reflexivity|].
  apply (print_lex_roundtrip 4294967295 (bytes ")")); [unfold u32, M32; lia|reflexivity].
Defined.

(** ** The receive ring as a queue *)
Definition rx_ring (r : RxRing) : Ring :=
  {| rg_buf := rx_buf r; rg_wr := rx_head r; rg_rd := rx_tail r |}.

Definition received (r : RxRing) : list Z := items RING_SIZE 0 (rx_ring r).

Lemma RING_SIZE_pos : (0 < RING_SIZE)%nat.
Proof. unfold RING_SIZE. lia. Qed.

Section Receive.
Context {B : Type} `{Bus B} (arch : Arch).

(** An interrupt, or the REPL taking a byte. *)
Inductive RxOp := RxIrq | RxTake.

Definition rx_step (o : RxOp) (st : RxRing * Machine B) : option Z * (RxRing * Machine B) :=
  match o with
  | RxIrq => (None, irq_handler arch (fst st) (snd st))
  | RxTake => let (b, r) := uart_ring_pop (fst st) in (b, (r, snd st))
  end.

(** The specification: a queue of at most 255 bytes; an interrupt appends the
    byte the device delivers, or drops it when the queue is full. *)
Definition rx_spec (o : RxOp) (st : list Z * Machine B) : option Z * (list Z * Machine B) :=
  let (l, m) := st in
  match o with
  | RxIrq =>
      match poll_get_byte arch m with
      | (Some b, m1) => (None, (if (length l <? 255)%nat then l ++ [b] else l, m1))
      | (None, m1) => (None, (l, m1))
      end
  | RxTake => match l with [] => (None, ([], m)) | b :: l' => (Some b, (l', m)) end
  end.

Definition rx_rep (st : RxRing * Machine B) (sp : list Z * Machine B) : Prop :=
  wf_ring RING_SIZE (rx_ring (fst st)) /\ received (fst st) = fst sp /\ snd st = snd sp.

Lemma rx_step_rep o st sp : rx_rep st sp ->
  fst (rx_step o st) = fst (rx_spec o sp) /\ rx_rep (snd (rx_step o st)) (snd (rx_spec o sp)).
Proof.
  destruct st as [r m], sp as [l m']. intros (Hw & Hl & Hm). cbn [fst snd] in *. subst m' l.
  destruct o; cbn [rx_step rx_spec fst snd].
  - split; [by destruct (poll_get_byte arch m) as [[b|] m1]|]. unfold irq_handler.
    destruct (poll_get_byte arch m) as [[b|] m1]; [|done].
    pose proof (ring_push_spec RING_SIZE 0 RING_SIZE_pos b _ Hw) as Hp.
    unfold ring_push, advance in Hp. cbn [rx_ring rg_buf rg_wr rg_rd] in Hp.
    destruct (_ =? rx_tail r)%nat; cbn [negb].
    + change (items RING_SIZE 0 _) with (received r) in Hp.
      split; [done|]. split; [|done]. cbn [fst snd].
      destruct (Nat.ltb_spec (length (received r)) 255); [unfold RING_SIZE in Hp; lia|done].
    + destruct Hp as [Hw' Hi]. split; [done|]. split; [|done]. cbn [fst snd].
      pose proof (items_bound RING_SIZE 0 RING_SIZE_pos _ Hw') as Hb. rewrite Hi, length_app in Hb.
      cbn [length] in Hb. change (items RING_SIZE 0 _) with (received r) in Hb.
      destruct (Nat.ltb_spec (length (received r)) 255); [exact Hi|].
      unfold RING_SIZE in Hb. lia.
  - pose proof (ring_pop_spec RING_SIZE 0 RING_SIZE_pos _ Hw) as Hp.
    unfold ring_pop, advance in Hp. unfold uart_ring_pop. cbn [rx_ring rg_buf rg_wr rg_rd] in Hp.
    destruct (rx_tail r =? rx_head r)%nat; unfold received at 1 2; [rewrite Hp|].
    + split; [done|]. split; [done|]. split; [exact Hp|done].
    + destruct Hp as [Hw' Hi]. rewrite Hi. split; [done|]. split; [done|]. by split.
Qed.

(** The receive path loses nothing but what it must: over any interleaving of
    receive interrupts and reads, the REPL takes exactly the bytes the device
    delivered, in order, a byte being dropped only when 255 already wait. *)
Theorem uart_rx_fifo (os : list RxOp) (m : Machine B) :
  fst (run rx_step os (RX_RING_INIT, m)) = fst (run rx_spec os ([], m)) /\
  rx_rep (snd (run rx_step os (RX_RING_INIT, m))) (snd (run rx_spec os ([], m))).
Proof.
  apply (run_simulation _ _ rx_rep rx_step_rep).
  split; [apply (ring_new_wf RING_SIZE 0 RING_SIZE_pos)|done].
Qed.

End Receive.
