(* ===== verification/HrosCap.v ===== *)
(** * HrosCap: the window-decomposed capability check (crates/hros-cap/src/lib.rs)

    The stand-alone capability crate: the same bitfield as [Registry] (here
    indexing past the table panics instead of being refused), masks built for
    one 256-block window at a time, and a range check that walks the windows
    of a range of any length. *)
From S2P Require Import Prelude Registry.
Local Open Scope Z_scope.
Local Open Scope u32_scope.

(** [for k in win_start..=win_end { mask[off >> 6] |= 1 << (off & 63) }] over the
    part of the range inside the window. *)
Definition build_mask_window (addr len window_base : Z) : option Mask256 :=
  if len =? 0 then None
  else
    let k_start := Z.shiftr addr 12 in
    let k_end := (k_start +w len) -w 1 in
    let win_start := Z.max k_start window_base in
    let win_end := Z.min k_end (window_base +w 255) in
    if win_end <? win_start then None
    else
      Some {| mask_words :=
        foldl (fun m k => mask_set m (k - window_base)) (replicate 4 0)
          (seqZ win_start (win_end - win_start + 1)) |}.

(** The crate's own [build_mask]. *)
Definition hc_build_mask (addr len : Z) : option Mask256 :=
  if (len =? 0) || (256 <? len) then None
  else
    let k_start := Z.shiftr addr 12 in
    let window_base := Z.land k_start (u32_not 255) in
    build_mask_window addr len window_base.

(** [vcap] is the 4-word window at [vcap_base]. *)
Definition hc_verify_scalar (addr : Z) (vcap : list Z) : bool :=
  let k := Z.shiftr addr 12 in
  let off := Z.land k 255 in
  let word := Z.to_nat (Z.shiftr off 6) in
  let bit := Z.land off 63 in
  Z.land (Z.shiftr (aget 0 vcap word) bit) 1 =? 1.

(** [(v & m) == m], word by word. *)
Definition hc_verify_vector (_addr : Z) (mask : Mask256) (vcap : list Z) : bool :=
  let m := mask_words mask in
  (Z.land (aget 0 vcap 0) (aget 0 m 0) =? aget 0 m 0)
  && (Z.land (aget 0 vcap 1) (aget 0 m 1) =? aget 0 m 1)
  && (Z.land (aget 0 vcap 2) (aget 0 m 2) =? aget 0 m 2)
  && (Z.land (aget 0 vcap 3) (aget 0 m 3) =? aget 0 m 3).

(** Registry operations; [None] is the index panic. *)
Definition hc_available (r : RegistryBits) (id : Z) : option bool :=
  w ← r !! Z.to_nat (id / 32); Some (Z.land w (bit32 (id mod 32)) =? 0).

Definition hc_acquire (r : RegistryBits) (id : Z) : option (bool * RegistryBits) :=
  let mask := bit32 (id mod 32) in
  w ← r !! Z.to_nat (id / 32);
  Some (Z.land w mask =? 0, <[Z.to_nat (id / 32) := Z.lor w mask]> r).

Definition hc_release (r : RegistryBits) (id : Z) : option RegistryBits :=
  w ← r !! Z.to_nat (id / 32);
  Some (<[Z.to_nat (id / 32) := Z.land w (u32_not (bit32 (id mod 32)))]> r).

Definition hc_is_claimed (r : RegistryBits) (id : Z) : option bool := negb <$> hc_available r id.

(** The two resources the crate names. *)
Inductive HcResource := HcGpioA | HcGpioB.
Definition HC_RESOURCE_ID (r : HcResource) : Z := match r with HcGpioA => 0 | HcGpioB => 1 end.
Definition HC_NAME (r : HcResource) : list Z := match r with HcGpioA => bytes "GPIOA" | HcGpioB => bytes "GPIOB" end.

(** The crate's tokens: a [Cap] carries its id and nothing else. *)
Record HcCap := { hc_id : Z }.

Definition hc_claim (resource_id : Z) (r : RegistryBits) : option (option HcCap * RegistryBits) :=
  match hc_acquire r resource_id with
  | Some (won, r') => Some (if won then Some {| hc_id := resource_id |} else None, r')
  | None => None
  end.

Definition hc_drop_cap (c : HcCap) (r : RegistryBits) : option RegistryBits := hc_release r (hc_id c).

(** The crate has the audit record and its empty state, without operations. *)
Record HcAuditEntry := { hc_addr : Z; hc_val : Z; hc_timestamp_cycles : Z }.
Record HcAuditLog := { hc_buffer : list HcAuditEntry; hc_head : Z; hc_count : Z }.
Definition hc_audit_new : HcAuditLog :=
  {| hc_buffer := replicate 16 {| hc_addr := 0; hc_val := 0; hc_timestamp_cycles := 0 |}; hc_head := 0; hc_count := 0 |}.

(** The [while curr_win <= k_end] loop. *)
Fixpoint check_windows (fuel : nat) (r : RegistryBits) (beyond : Z -> Z) (addr len k_end curr_win : Z)
  : option bool :=
  match fuel with
  | O => None
  | S f =>
      if curr_win <=? k_end then
        match build_mask_window addr len curr_win with
        | Some mask =>
            let u32_word := Z.shiftr curr_win 5 in
            if negb (hc_verify_vector addr mask (raw_window r beyond u32_word)) then Some false
            else check_windows f r beyond addr len k_end (curr_win +w 256)
        | None => check_windows f r beyond addr len k_end (curr_win +w 256)
        end
      else Some true
  end.

Definition hc_verify_range_contiguous (fuel : nat) (r : RegistryBits) (beyond : Z -> Z) (addr len : Z)
  : option bool :=
  if len =? 0 then Some true
  else
    let k_start := Z.shiftr addr 12 in
    let k_end := (k_start +w len) -w 1 in
    check_windows fuel r beyond addr len k_end (Z.land k_start (u32_not 255)).

(** The iterations a range needs: one per window it meets, and the exit test. *)
Definition window_count (addr len : Z) : nat :=
  Z.to_nat ((addr / 4096 + len - 1) / 256 - addr / 4096 / 256 + 2).

(** The vector test is the kernel registry's. *)
Lemma hc_verify_vector_kernel addr mask vcap : hc_verify_vector addr mask vcap = verify_vector mask vcap.
Proof. done. Qed.

(** ** Windows *)
Section Windows.
Context (r : RegistryBits) (beyond : Z -> Z) (addr len : Z).
Hypothesis words_u32 : forall i, u32 (raw_word r beyond i).
Hypothesis Haddr : u32 addr.
Hypothesis Hlen : 1 <= len.
Hypothesis Hfit : addr / 4096 + len + 256 <= M32.

Let k0 := addr / 4096.

Lemma k0_range : 0 <= k0.
Proof. unfold k0. unfold u32 in Haddr. apply Z.div_pos; lia. Qed.

Lemma k_end_eq : (Z.shiftr addr 12 +w len) -w 1 = k0 + len - 1.
Proof.
  pose proof k0_range. rewrite shiftr12. fold k0. unfold u32_add, u32_sub.
  rewrite (wrap32_small (k0 + len)) by (unfold u32; fold k0 in Hfit; lia).
  apply wrap32_small. unfold u32. fold k0 in Hfit. lia.
Qed.

(** In window [w] the mask has exactly the bits of the range. *)
Lemma window_mask w :
  0 <= w -> 256 * w <= k0 + len - 1 ->
  match build_mask_window addr len (256 * w) with
  | Some m => wf_mask (mask_words m) /\
      forall o, 0 <= o < 256 -> mask_bit (mask_words m) o = true <-> k0 <= 256 * w + o < k0 + len
  | None => forall o, 0 <= o < 256 -> ~ (k0 <= 256 * w + o < k0 + len)
  end.
Proof.
  intros Hw Hle. pose proof k0_range. unfold build_mask_window.
  destruct (Z.eqb_spec len 0); [lia|]. cbv zeta. rewrite k_end_eq, shiftr12. fold k0. fold k0 in Hfit.
  assert (256 * w +w 255 = 256 * w + 255) as -> by (apply wrap32_small; unfold u32; lia).
  set (lo := Z.max k0 (256 * w)). set (hi := Z.min (k0 + len - 1) (256 * w + 255)).
  destruct (Z.ltb_spec hi lo); [intros; lia|]. cbn [mask_words].
  assert (Forall (fun k => 256 * w <= k < 256 * w + 256) (seqZ lo (hi - lo + 1))) as Hf.
  { apply list.Forall_forall. intros k Hk%elem_of_seqZ. lia. }
  split.
  - apply mask_fold_wf; [apply mask_zero_wf|]. eapply list.Forall_impl; [exact Hf|]. cbn. lia.
  - intros o Ho. rewrite (mask_fold_bit (256 * w)) by (auto using mask_zero_wf).
    rewrite mask_zero_bit, orb_false_r, bool_decide_eq_true, elem_of_seqZ. lia.
Qed.

(** Whether the blocks of the range in window [w] are all claimed. *)
Lemma window_verdict w :
  0 <= w -> 256 * w <= k0 + len - 1 ->
  match build_mask_window addr len (256 * w) with
  | Some m => verify_vector m (raw_window r beyond (Z.shiftr (256 * w) 5))
  | None => true
  end = true <->
  (forall k, 256 * w <= k < 256 * w + 256 -> k0 <= k < k0 + len -> block_bit r beyond k = true).
Proof.
  intros Hw Hle. pose proof (window_mask w Hw Hle) as Hm.
  replace (Z.shiftr (256 * w) 5) with (8 * w)
    by (rewrite Z.shiftr_div_pow2 by lia; change (2 ^ 5) with 32; Z.to_euclidean_division_equations; lia).
  destruct (build_mask_window addr len (256 * w)) as [[m]|].
  - destruct Hm as [Hwf Hbit]. cbn [mask_words] in *. rewrite verify_vector_spec by done. split.
    + intros H1 k Hk1 Hk2. specialize (H1 (k - 256 * w)). rewrite raw_window_bit in H1 by (done || lia).
      replace (256 * w + (k - 256 * w)) with k in H1 by lia. apply H1; [lia|]. apply Hbit; lia.
    + intros H1 o Ho Hb. rewrite raw_window_bit by (done || lia).
      apply H1; [lia|]. by apply Hbit.
  - split; [|done]. intros _ k Hk1 Hk2. exfalso. apply (Hm (k - 256 * w)); lia.
Qed.

Lemma check_windows_spec fuel w :
  0 <= w -> k0 + len - 1 < 256 * w + 256 * (Z.of_nat fuel - 1) -> 256 * w <= k0 + len + 255 ->
  exists b, check_windows fuel r beyond addr len (k0 + len - 1) (256 * w) = Some b /\
    (b = true <-> forall k, 256 * w <= k -> k0 <= k < k0 + len -> block_bit r beyond k = true).
Proof.
  revert w. induction fuel as [|f IH]; intros w Hw Hf Hb; [lia|]. cbn [check_windows].
  fold k0 in Hfit. pose proof k0_range.
  destruct (Z.leb_spec (256 * w) (k0 + len - 1)) as [Hle|Hgt].
  2: { exists true. split; [done|]. split; [intros _ k Hk1 Hk2; lia|done]. }
  pose proof (window_verdict w Hw Hle) as Hv. destruct (IH (w + 1)) as (b & Eb & Hbb); [lia..|].
  assert (256 * w +w 256 = 256 * (w + 1)) as ->
    by (unfold u32_add; rewrite wrap32_small; [lia|unfold u32; lia]).
  destruct (match build_mask_window addr len (256 * w) with
            | Some m => verify_vector m (raw_window r beyond (Z.shiftr (256 * w) 5))
            | None => true end) eqn:E.
  - exists b. split.
    + destruct (build_mask_window addr len (256 * w)) as [m|]; [rewrite hc_verify_vector_kernel, E|]; exact Eb.
    + rewrite Hbb. split; intros Hall k Hk1 Hk2; [|apply Hall; lia].
      destruct (Z.lt_ge_cases k (256 * (w + 1))); [|by apply Hall].
      apply Hv; [done|lia|done].
  - exists false. split.
    + destruct (build_mask_window addr len (256 * w)) as [m|]; [by rewrite hc_verify_vector_kernel, E|done].
    + split; [done|]. intros Hall. apply Hv. intros k Hk1 Hk2. apply Hall; lia.
Qed.

End Windows.

(** The window decomposition is exact: for a range of any length that does not
    wrap the 32-bit block counter, the loop ends after at most one iteration
    per window plus one, and accepts exactly when the bit of every 4 KiB block
    in the range is set in the bit array that starts at the registry (the
    registry for the first 256 blocks, whatever memory follows it beyond). *)
Theorem verify_range_windows_exact (r : RegistryBits) (beyond : Z -> Z) (addr len : Z) :
  (forall i, u32 (raw_word r beyond i)) -> u32 addr -> 1 <= len -> addr / 4096 + len + 256 <= M32 ->
  exists b, hc_verify_range_contiguous (window_count addr len) r beyond addr len = Some b /\
    (b = true <-> forall k, addr / 4096 <= k < addr / 4096 + len -> block_bit r beyond k = true).
Proof.
  intros Hw Ha Hl Hfit. pose proof (k0_range addr Ha) as Hk0.
  assert (u32 (addr / 4096)) as Hk by (apply u32_div_range; unfold u32, M32 in *; lia).
  unfold hc_verify_range_contiguous. destruct (Z.eqb_spec len 0); [lia|]. cbv zeta.
  rewrite k_end_eq by done. rewrite shiftr12, land_not255 by done.
  destruct (check_windows_spec r beyond addr len Hw Ha Hl Hfit (window_count addr len)
    (addr / 4096 / 256)) as (b & Eb & Hb).
  - apply Z.div_pos; lia.
  - unfold window_count. Z.to_euclidean_division_equations. lia.
  - Z.to_euclidean_division_equations. lia.
  - exists b. split; [exact Eb|]. rewrite Hb. split; intros Hall k; [|by auto].
    intros Hk1. apply Hall; [|done]. Z.to_euclidean_division_equations. lia.
Qed.

Lemma verify_range_windows_exact_witness :
  exists b, hc_verify_range_contiguous (window_count 0x1000 300) [6; 0; 0; 0; 0; 0; 0; 0]
    (fun _ => 0) 0x1000 300 = Some b /\
    (b = true <-> forall k, 1 <= k < 301 -> block_bit [6; 0; 0; 0; 0; 0; 0; 0] (fun _ => 0) k = true).
Proof.
  apply (verify_range_windows_exact [6; 0; 0; 0; 0; 0; 0; 0] (fun _ => 0) 0x1000 300).
  - intros i. unfold raw_word, u32, M32.
    destruct (Z.to_nat i) as [|[|[|[|[|[|[|[|n]]]]]]]]; vm_compute; intuition discriminate.
  - unfold u32, M32. lia.
  - lia.
  - vm_compute. discriminate.
Defined.

(** Inside the table the crate's registry behaves as the kernel's: same
    answers, same bits; an id past the table panics where the kernel's
    version refuses it. *)
Lemma hc_registry_agrees (r : RegistryBits) (id : Z) :
  wf_registry r -> 0 <= id ->
  if id <? MAX_RESOURCES then
    hc_available r id = Some (available r id) /\ hc_acquire r id = Some (acquire r id) /\
    hc_release r id = Some (release r id) /\ hc_is_claimed r id = Some (is_claimed r id)
  else
    hc_available r id = None /\ hc_acquire r id = None /\ hc_release r id = None /\
    available r id = false /\ acquire r id = (false, r) /\ release r id = r.
Proof.
  intros Hwf Hid. unfold hc_is_claimed, hc_available, hc_acquire, hc_release, is_claimed, available,
    acquire, release. fold (word_of_id id). fold (bit_of_id id).
  destruct (Z.ltb_spec id MAX_RESOURCES) as [Hlt|Hge].
  - destruct (wf_lookup r (word_of_id id) Hwf (word_of_id_lt id ltac:(split; done))) as [-> _]. done.
  - rewrite (lookup_past r id Hwf) by (unfold MAX_RESOURCES in Hge; lia). done.
Qed.

(** A token is exclusive: a claim succeeds exactly on a free resource, a second
    claim gets none, and dropping the token restores every claim as it was. *)
Lemma hc_token_exclusive (r : RegistryBits) (id : Z) :
  wf_registry r -> valid_id id -> is_claimed r id = false ->
  exists c r1, hc_claim id r = Some (Some c, r1) /\
    (exists r2, hc_claim id r1 = Some (None, r2)) /\
    exists r3, hc_drop_cap c r1 = Some r3 /\ forall j, valid_id j -> is_claimed r3 j = is_claimed r j.
Proof.
  intros Hwf Hid Hfree. pose proof (acquire_wf r id Hwf) as Hwf1.
  assert (id < MAX_RESOURCES /\ 0 <= id) as [Hlt H0] by (destruct Hid; done).
  pose proof (hc_registry_agrees r id Hwf H0) as Ha. pose proof (hc_registry_agrees (snd (acquire r id)) id Hwf1 H0) as Hb.
  destruct (Z.ltb_spec id MAX_RESOURCES); [|lia]. destruct Ha as (_ & Ea & _). destruct Hb as (_ & Eb & Ec & _).
  pose proof (acquire_won r id Hwf Hid) as W1. pose proof (acquire_won (snd (acquire r id)) id Hwf1 Hid) as W2.
  rewrite acquire_claimed, bool_decide_true in W2 by done. rewrite Hfree in W1.
  unfold hc_claim, hc_drop_cap. cbn [hc_id]. destruct (acquire r id) as [won r1] eqn:E1. cbn [fst snd] in *. subst won.
  exists {| hc_id := id |}, r1. rewrite Ea, Eb. cbn. destruct (acquire r1 id) as [won2 r2]. cbn in *. subst won2.
  split; [done|]. split; [by exists r2|]. rewrite Ec. eexists. split; [done|].
  intros j Hj. rewrite release_claimed by done. pose proof (acquire_claimed r id j Hwf Hid Hj) as Hc. rewrite E1 in Hc. cbn in Hc.
  rewrite Hc. destruct (bool_decide_reflect (id = j)) as [<-|]; [by rewrite Hfree|done].
Qed.
