(* ===== verification/Wcet.v ===== *)
(** * Wcet: execution-time ledger and response-time analysis (crates/hros-kernel/src/wcet.rs)

    The ledger functions and the fixed-point iteration of response-time
    analysis, on 32-bit [usize] with wrap-around. A zero period panics
    ([Panic]). Within the word size the iteration is compared with the
    recurrence it approximates. *)
From S2P Require Import Prelude.
Local Open Scope Z_scope.
Local Open Scope u32_scope.

Definition t_jit (s_bytes : Z) : Z := s_bytes *w 25.

Definition t_cap (n_accesses : Z) (vector : bool) : Z := n_accesses *w (if vector then 1 else 3).

Definition T_CTX : Z := 43.

(** [zip] stops at the shorter slice. *)
Definition t_exec (bb_costs bounds : list Z) : Z :=
  foldl (fun acc cb => acc +w (fst cb *w snd cb)) 0 (combine bb_costs bounds).

Definition total_wcet (s_bytes n_cap : Z) (vector : bool) (bb_costs bounds : list Z) : Z :=
  t_jit s_bytes +w t_cap n_cap vector +w t_exec bb_costs bounds +w T_CTX.

Inductive Rta := Schedulable (r : Z) | Unschedulable | Panic.
#[export] Instance Rta_eq_dec : EqDecision Rta.
Proof. solve_decision. Defined.

(** [next += ((r + p_j - 1) / p_j) * w_tj] for each higher-priority task;
    [None] is the division by zero. *)
Fixpoint interference_w (higher : list (Z * Z)) (r next : Z) : option Z :=
  match higher with
  | [] => Some next
  | (w_tj, p_j) :: rest =>
      if p_j =? 0 then None
      else interference_w rest r (next +w ((((r +w p_j) -w 1) / p_j) *w w_tj))
  end.

(** [for _ in 0..iters]. *)
Fixpoint rta_loop (iters : nat) (w_ti : Z) (higher : list (Z * Z)) (deadline r : Z) : Rta :=
  match iters with
  | O => Unschedulable
  | S i =>
      match interference_w higher r w_ti with
      | None => Panic
      | Some next =>
          if deadline <? next then Unschedulable
          else if next =? r then Schedulable r
          else rta_loop i w_ti higher deadline next
      end
  end.

Definition rta_response_time (w_ti : Z) (higher : list (Z * Z)) (deadline : Z) : Rta :=
  rta_loop 100 w_ti higher deadline w_ti.

(** ** The recurrence, without a word size *)
Definition ceil_div (a b : Z) : Z := (a + b - 1) / b.

Definition demand (w_ti : Z) (higher : list (Z * Z)) (r : Z) : Z :=
  foldl (fun acc wp => acc + ceil_div r (snd wp) * fst wp) w_ti higher.

(** A task set whose parameters and demand up to [top] fit the word. *)
Definition fits (w_ti : Z) (higher : list (Z * Z)) (top : Z) : Prop :=
  0 <= w_ti /\ Forall (fun wp => 0 <= fst wp /\ 1 <= snd wp /\ top + snd wp < M32) higher /\
  demand w_ti higher top < M32.

Definition fixed_point (w_ti : Z) (higher : list (Z * Z)) (r : Z) : Prop := demand w_ti higher r = r.

Lemma ceil_div_mono r r' p : 1 <= p -> r <= r' -> ceil_div r p <= ceil_div r' p.
Proof. intros. unfold ceil_div. apply Z.div_le_mono; lia. Qed.

Lemma ceil_div_nonneg r p : 1 <= p -> 0 <= r -> 0 <= ceil_div r p.
Proof. intros. unfold ceil_div. apply Z.div_pos; lia. Qed.

Definition params_ok (wp : Z * Z) : Prop := 0 <= fst wp /\ 1 <= snd wp.

Lemma demand_mono w w' higher r r' :
  Forall params_ok higher -> w <= w' -> r <= r' -> demand w higher r <= demand w' higher r'.
Proof.
  intros Hh. unfold demand. revert w w'. induction Hh as [|[wj pj] higher [Hw Hp] _ IH];
    intros w w' Hww Hr; cbn [foldl fst snd] in *; [done|].
  apply IH; [|done]. pose proof (ceil_div_mono r r' pj Hp Hr). nia.
Qed.

Lemma demand_ge w higher r : Forall params_ok higher -> 0 <= r -> w <= demand w higher r.
Proof.
  intros Hh Hr. unfold demand. revert w. induction Hh as [|[wj pj] higher [Hw Hp] _ IH];
    intros w; cbn [foldl fst snd] in *; [done|].
  pose proof (ceil_div_nonneg r pj Hp Hr). etransitivity; [|apply IH]. nia.
Qed.

(** Within the word the loop body computes the recurrence. *)
Lemma interference_exact w higher top r :
  fits w higher top -> 0 <= r <= top -> interference_w higher r w = Some (demand w higher r).
Proof.
  intros (Hw & Hh & Hd) Hr. revert w Hw Hd. induction Hh as [|[wj pj] higher (Hwj & Hpj & Hsum) Hh IH];
    intros w Hw Hd; [done|]. cbn [interference_w fst snd] in *. unfold demand in *. cbn [foldl fst snd] in *.
  destruct (Z.eqb_spec pj 0); [lia|].
  assert (Forall params_ok higher) as Hok.
  { eapply list.Forall_impl; [exact Hh|]. intros [??] (? & ? & ?). by split. }
  pose proof (ceil_div_nonneg r pj Hpj ltac:(lia)). pose proof (ceil_div_mono r top pj Hpj ltac:(lia)).
  pose proof (demand_ge (w + ceil_div top pj * wj) higher top Hok ltac:(lia)) as Hge.
  unfold demand in Hge.
  assert (((r +w pj) -w 1) / pj = ceil_div r pj) as ->.
  { unfold u32_add, u32_sub, ceil_div. rewrite (wrap32_small (r + pj)) by (unfold u32; lia).
    by rewrite wrap32_small by (unfold u32; lia). }
  assert (ceil_div r pj *w wj = ceil_div r pj * wj) as -> by (apply wrap32_small; unfold u32; nia).
  assert (w +w (ceil_div r pj * wj) = w + ceil_div r pj * wj) as ->
    by (apply wrap32_small; unfold u32; nia).
  apply IH; [nia|].
  eapply Z.le_lt_trans; [|exact Hd]. apply (demand_mono _ _ higher top top); [done|nia|done].
Qed.

Lemma fits_params w higher top : fits w higher top -> Forall params_ok higher.
Proof. intros (_ & Hh & _). eapply list.Forall_impl; [exact Hh|]. intros [??] (? & ? & ?). by split. Qed.

(** What the loop knows: it has climbed from [w_ti], below every fixed point. *)
Lemma rta_loop_spec iters w higher deadline r top :
  fits w higher top -> deadline <= top -> 0 <= r <= top -> w <= r -> r <= demand w higher r ->
  (forall r', 0 <= r' -> fixed_point w higher r' -> r <= r') ->
  match rta_loop iters w higher deadline r with
  | Schedulable x => fixed_point w higher x /\ w <= x <= deadline /\
      forall r', 0 <= r' -> fixed_point w higher r' -> x <= r'
  | Unschedulable => forall r', 0 <= r' -> fixed_point w higher r' -> r' <= deadline ->
      r + Z.of_nat iters <= r'
  | Panic => False
  end.
Proof.
  intros Hf Hdt. revert r. induction iters as [|i IH]; intros r Hr Hwr Hup Hleast; cbn [rta_loop].
  - intros r' H0 Hfp _. specialize (Hleast r' H0 Hfp). lia.
  - rewrite (interference_exact w higher top r Hf Hr). pose proof Hf as (Hw0 & Hh & _).
    pose proof (fits_params _ _ _ Hf) as Hok.
    assert (forall r', 0 <= r' -> fixed_point w higher r' -> demand w higher r <= r') as Hleast'.
    { intros r' H0 Hfp. rewrite <- Hfp. apply demand_mono; [done|lia|by apply Hleast]. }
    destruct (Z.ltb_spec deadline (demand w higher r)).
    { intros r' H0 Hfp Hd. specialize (Hleast' r' H0 Hfp). lia. }
    destruct (Z.eqb_spec (demand w higher r) r) as [E|E]; [split; [done|split; [lia|done]]|].
    specialize (IH (demand w higher r) ltac:(lia) ltac:(lia)
      ltac:(apply demand_mono; [done|lia|lia]) Hleast').
    destruct (rta_loop i w higher deadline (demand w higher r)); [done| |done].
    intros r' H0 Hfp Hd. specialize (IH r' H0 Hfp Hd). lia.
Qed.

(** The recurrence [R(k+1) = W + sum ceil(R(k)/P_j) W_j], from [r]. *)
Definition climb (w_ti : Z) (higher : list (Z * Z)) (r : Z) (k : nat) : Z := Nat.iter k (demand w_ti higher) r.

Lemma climb_next w higher r k : climb w higher r (S k) = demand w higher (climb w higher r k).
Proof. done. Qed.

Lemma climb_S w higher r k : climb w higher r (S k) = climb w higher (demand w higher r) k.
Proof. induction k as [|k IH]; [done|]. by rewrite climb_next, IH. Qed.

Lemma climb_ge w higher r k : Forall params_ok higher -> r <= demand w higher r -> r <= climb w higher r k.
Proof.
  intros Hok Hup. assert (climb w higher r k <= demand w higher (climb w higher r k) /\ r <= climb w higher r k) as [_ ?]; [|done].
  induction k as [|k [IH1 IH2]]; [done|]. rewrite climb_next. split; [by apply demand_mono|lia].
Qed.

Lemma climb_fixed w higher r k : fixed_point w higher r -> climb w higher r k = r.
Proof. intros Hf. induction k as [|k IH]; [done|]. by rewrite climb_next, IH. Qed.

(** A fixed point the climb reaches in time is found. *)
Lemma rta_loop_complete iters w higher deadline r top k :
  fits w higher top -> deadline <= top -> 0 <= r <= top -> r <= demand w higher r -> (k < iters)%nat ->
  fixed_point w higher (climb w higher r k) -> climb w higher r k <= deadline ->
  rta_loop iters w higher deadline r = Schedulable (climb w higher r k).
Proof.
  intros Hf Hdt. revert r k. induction iters as [|i IH]; intros r k Hr Hup Hk Hfp Hd; [lia|]. cbn [rta_loop].
  rewrite (interference_exact w higher top r Hf Hr). pose proof Hf as (Hw0 & Hh & _).
  pose proof (fits_params _ _ _ Hf) as Hok.
  assert (demand w higher r <= demand w higher (demand w higher r)) as Hup' by (by apply demand_mono).
  destruct (Z.eqb_spec (demand w higher r) r) as [E|E].
  { rewrite climb_fixed in * by done. by destruct (Z.ltb_spec deadline (demand w higher r)); [lia|]. }
  destruct k as [|k]; [by destruct E|]. rewrite climb_S in *.
  pose proof (climb_ge w higher (demand w higher r) k Hok Hup').
  destruct (Z.ltb_spec deadline (demand w higher r)); [lia|]. apply IH; (done || lia).
Qed.

(** C35. Response-time analysis, for parameters that fit the word ([fits]: no
    zero period, costs and demand up to the deadline below 2^32): the function
    never panics; an accepted task's response time is the least solution of
    [R = W + sum ceil(R/P_j) W_j] and meets the deadline; and every solution
    within the deadline that the recurrence reaches in fewer than 100 steps is
    accepted. A task whose recurrence needs 100 steps or more is refused, also
    when it is schedulable; a refused task therefore has no solution within the
    deadline below [W + 100]. *)
Theorem rta_least_fixed_point (w_ti : Z) (higher : list (Z * Z)) (deadline : Z) :
  fits w_ti higher (Z.max w_ti deadline) ->
  match rta_response_time w_ti higher deadline with
  | Schedulable x => fixed_point w_ti higher x /\ w_ti <= x <= deadline /\
      forall r', 0 <= r' -> fixed_point w_ti higher r' -> x <= r'
  | Unschedulable => forall r', 0 <= r' -> fixed_point w_ti higher r' -> r' <= deadline ->
      w_ti + 100 <= r'
  | Panic => False
  end /\
  forall k, (k < 100)%nat -> fixed_point w_ti higher (climb w_ti higher w_ti k) ->
    climb w_ti higher w_ti k <= deadline ->
    rta_response_time w_ti higher deadline = Schedulable (climb w_ti higher w_ti k).
Proof.
  intros Hf. pose proof Hf as (Hw & _ & _). pose proof (fits_params _ _ _ Hf) as Hok. split.
  - apply (rta_loop_spec 100 w_ti higher deadline w_ti _ Hf); [lia|lia|lia|by apply demand_ge|].
    intros r' H0 Hfp. rewrite <- Hfp. by apply demand_ge.
  - intros k Hk Hfp Hd. apply (rta_loop_complete 100 w_ti higher deadline w_ti (Z.max w_ti deadline) k);
      [done|lia|lia|by apply demand_ge|done..].
Qed.

Lemma rta_least_fixed_point_witness :
  fixed_point 30 [(10, 50); (20, 100)] 70 /\ 30 <= 70 <= 200 /\
  forall r', 0 <= r' -> fixed_point 30 [(10, 50); (20, 100)] r' -> 70 <= r'.
Proof.
  apply (rta_least_fixed_point 30 [(10, 50); (20, 100)] 200).
  split; [lia|]. split; [repeat constructor; cbn; unfold M32; lia|]. reflexivity.
Defined.

(** The iteration cap refuses schedulable tasks: a task of cost 100 under one
    task of cost 99 and period 100 has the response time 10000, which meets
    the deadline 10000, but the hundred iterations end one short and the
    function answers that it is not schedulable. *)
Theorem rta_cap_incomplete :
  fixed_point 100 [(99, 100)] 10000 /\
  rta_loop 101 100 [(99, 100)] 10000 100 = Schedulable 10000 /\
  rta_response_time 100 [(99, 100)] 10000 = Unschedulable.
Proof. vm_compute. done. Qed.
