(* ===== verification/Jit.v ===== *)
(** * Jit: the lexer of the stand-alone JIT crate (crates/hros-jit/src/lib.rs)

    A smaller lexer than the kernel's: words, decimal numbers, blanks; every
    other byte, the semicolon included, is an error token. The crate's emitter
    trait has no implementation and its parser no operation. *)
From S2P Require Import Prelude Lexer.
Local Open Scope Z_scope.
Local Open Scope u32_scope.

Inductive JToken :=
| JIdentifier (id : list Z)
| JLiteral (v : Z)
| JSemicolon
| JEof
| JError (msg : string).

Record JLexer := { jl_stream : list Z; jl_cursor : nat }.

Definition jl_new (s : list Z) : JLexer := {| jl_stream := s; jl_cursor := 0 |}.

(** [while .. is_ascii_digit() { v = v * 10 + (b - '0') }]: the release profile wraps. *)
Fixpoint jit_digits (rest : list Z) (v : Z) : Z * nat :=
  match rest with
  | [] => (v, 0%nat)
  | b :: rest' =>
      if is_ascii_digit b then let (x, n) := jit_digits rest' ((v *w 10) +w (b - 48)) in (x, S n)
      else (v, 0%nat)
  end.

(** The token at the cursor and how far it reaches. *)
Definition jit_scan (rest : list Z) : JToken * nat :=
  let s := run_len (Z.eqb 32) rest in
  match drop s rest with
  | [] => (JEof, s)
  | b :: rest' =>
      if is_ascii_alphabetic b then
        let n := run_len is_ascii_alphanumeric (b :: rest') in (JIdentifier (take n (b :: rest')), (s + n)%nat)
      else if is_ascii_digit b then
        let (v, n) := jit_digits (b :: rest') 0 in (JLiteral v, (s + n)%nat)
      else (JError "unexpected", S s)
  end.

Definition jit_next_token (lx : JLexer) : JToken * JLexer :=
  let (t, n) := jit_scan (drop (jl_cursor lx) (jl_stream lx)) in
  (t, {| jl_stream := jl_stream lx; jl_cursor := (jl_cursor lx + n)%nat |}).

Fixpoint jit_all (fuel : nat) (lx : JLexer) : option (list JToken) :=
  match fuel with
  | O => None
  | S f =>
      match jit_next_token lx with
      | (JEof, _) => Some []
      | (t, lx') => match jit_all f lx' with Some ts => Some (t :: ts) | None => None end
      end
  end.

(** ** Numbers *)
Lemma numeral_wrap ds v v' : wrap32 v = wrap32 v' ->
  wrap32 (numeral 10 dec_digit ds v) = wrap32 (numeral 10 dec_digit ds v').
Proof.
  revert v v'. induction ds as [|b ds IH]; intros v v' E; [done|]. cbn [numeral].
  destruct (dec_digit b) as [d|]; apply IH; [|done]. unfold wrap32 in *.
  rewrite (Zplus_mod (v * 10)), (Zmult_mod v), E, <- Zmult_mod, <- Zplus_mod. done.
Qed.

(** Numbers past 2^32 wrap, where the kernel's lexer refuses them. *)
Lemma jit_digits_spec ds rest v :
  forallb is_ascii_digit ds = true -> stops is_ascii_digit rest -> u32 v ->
  jit_digits (ds ++ rest) v = (wrap32 (numeral 10 dec_digit ds v), length ds).
Proof.
  revert v. induction ds as [|b ds IH]; intros v Hd Hs Hv.
  - rewrite wrap32_small by done. destruct rest as [|c rest]; [done|]. cbn in *. by rewrite Hs.
  - cbn in Hd. apply andb_true_iff in Hd as [Hb Hd]. cbn [jit_digits app]. rewrite Hb.
    rewrite IH by (done || apply wrap32_range). cbn [numeral length]. unfold dec_digit at 2. rewrite Hb.
    f_equal. apply numeral_wrap. unfold u32_add, u32_mul, wrap32. rewrite Zmod_mod. by rewrite Zplus_mod_idemp_l.
Qed.

(** ** Texts of words and numbers *)
Inductive Word := WId (w : list Z) | WNum (ds : list Z).

Definition spelling (w : Word) : list Z := match w with WId w => w | WNum ds => ds end.

(** A word starts with a letter, goes on with letters and digits and is no
    keyword; a number fits 32 bits. *)
Definition wf_word (w : Word) : Prop :=
  match w with
  | WId w => forallb is_ascii_alphanumeric w = true /\ from_option (fun b => is_ascii_alphabetic b = true) False (head w) /\
             w <> bytes "fn" /\ w <> bytes "let"
  | WNum ds => ds <> [] /\ forallb is_ascii_digit ds = true /\ numeral 10 dec_digit ds 0 < M32
  end.

Definition text (ws : list Word) : list Z := concat (map (fun w => 32 :: spelling w) ws).

Definition jit_tok (w : Word) : JToken :=
  match w with WId w => JIdentifier w | WNum ds => JLiteral (numeral 10 dec_digit ds 0) end.
Definition kernel_tok (w : Word) : Token :=
  match w with WId w => Identifier w | WNum ds => Literal (numeral 10 dec_digit ds 0) end.

Lemma text_stops p ws : p 32 = false -> stops p (text ws).
Proof. intros Hp. by destruct ws. Qed.

Lemma alphabetic_not_blank b : is_ascii_alphabetic b = true -> is_blank b = false /\ (b =? 10) = false /\ (32 =? b) = false.
Proof.
  unfold is_ascii_alphabetic, in_range, is_blank. intros Hb. apply orb_true_iff in Hb as [Hb|Hb]; bool_to_prop;
    repeat (match goal with |- context [?x =? ?y] => destruct (Z.eqb_spec x y); [lia|] end); done.
Qed.

Lemma digit_not_blank b : is_ascii_digit b = true ->
  is_blank b = false /\ (b =? 10) = false /\ (32 =? b) = false /\ is_ascii_alphabetic b = false /\ is_underscore b = false.
Proof.
  unfold is_ascii_digit, is_ascii_alphabetic, is_underscore, in_range, is_blank. intros Hb. bool_to_prop.
  repeat (match goal with
    | |- context [?x =? ?y] => destruct (Z.eqb_spec x y); [lia|]
    | |- context [97 <=? ?y] => destruct (Z.leb_spec 97 y); [lia|]
    | |- context [65 <=? ?y] => destruct (Z.leb_spec 65 y); [lia|] end); done.
Qed.

Lemma hex_prefix_text ds ws : forallb is_ascii_digit ds = true -> hex_prefix (ds ++ text ws) = None.
Proof.
  intros Hd. assert (forall a b tl, (b =? 120) || (b =? 88) = false -> hex_prefix (a :: b :: tl) = None) as Hx.
  { intros a b tl Hb. unfold hex_prefix. repeat case_match; simplify_eq; done. }
  destruct ds as [|a [|b ds]].
  - by destruct ws as [|w ws].
  - destruct ws as [|w ws]; [cbn; by repeat case_match|]. by apply (Hx a 32).
  - apply (Hx a b). cbn in Hd. apply andb_true_iff in Hd as [_ Hd]. apply andb_true_iff in Hd as [Hb _].
    unfold is_ascii_digit, in_range in Hb. bool_to_prop.
    destruct (Z.eqb_spec b 120), (Z.eqb_spec b 88); (done || lia).
Qed.

(** ** One token *)
Lemma one_blank b tl : (32 =? b) = false -> run_len (Z.eqb 32) (32 :: b :: tl) = 1%nat.
Proof. intros Hb. cbn [run_len]. by rewrite Z.eqb_refl, Hb. Qed.

Lemma jit_scan_word w ws : wf_word w -> jit_scan (text (w :: ws)) = (jit_tok w, S (length (spelling w))).
Proof.
  intros Hw. unfold jit_scan. change (text (w :: ws)) with ((32 :: spelling w) ++ text ws).
  destruct w as [[|b w]|[|b ds]]; cbn [spelling wf_word] in *; try (by destruct Hw as (? & [] & ?)); try (by destruct Hw).
  - destruct Hw as (Ha & Hb & _). cbn in Hb. destruct (alphabetic_not_blank b Hb) as (_ & _ & H32).
    change ((32 :: b :: w) ++ text ws) with (32 :: b :: w ++ text ws). rewrite (one_blank b (w ++ text ws) H32). cbn [drop]. rewrite Hb.
    change (b :: w ++ text ws) with ((b :: w) ++ text ws).
    rewrite run_len_app by (done || by apply text_stops). cbn [length]. rewrite take_app_length'; done.
  - destruct Hw as (_ & Hd & Hlt). assert (is_ascii_digit b = true) as Hb by (cbn in Hd; by apply andb_true_iff in Hd as [? _]).
    destruct (digit_not_blank b Hb) as (_ & _ & H32 & Hna & _).
    change ((32 :: b :: ds) ++ text ws) with (32 :: b :: ds ++ text ws). rewrite (one_blank b (ds ++ text ws) H32). cbn [drop]. rewrite Hna, Hb.
    change (b :: ds ++ text ws) with ((b :: ds) ++ text ws).
    rewrite jit_digits_spec by (done || (by apply text_stops) || (unfold u32, M32; lia)).
    rewrite wrap32_small; [done|]. split; [|done]. apply (numeral_ge 10 dec_digit); [lia|exact dec_digit_nonneg|lia].
Qed.

Lemma scan_word w ws c l : wf_word w -> scan (text (w :: ws)) c l = (kernel_tok w, (c + S (length (spelling w)))%nat, l).
Proof.
  intros Hw. cbn [text map concat]. fold (text ws). cbn [app scan].
  change (is_blank 32) with true. cbv iota.
  assert (forall p ds, (forall b, is_ascii_alphanumeric b = true -> p b = true) -> forallb is_ascii_alphanumeric ds = true ->
    forallb p ds = true) as Himp by (intros p ds Hp; rewrite !forallb_forall; auto).
  destruct w as [[|b w]|[|b ds]]; cbn [spelling wf_word] in *; try (by destruct Hw as (? & [] & ?)); try (by destruct Hw).
  - destruct Hw as (Ha & Hb & Hf & Hl). cbn in Hb. destruct (alphabetic_not_blank b Hb) as (H0 & H1 & _).
    cbn [app scan]. rewrite H0, H1, Hb. cbn [orb]. unfold parse_identifier.
    change (b :: w ++ text ws) with ((b :: w) ++ text ws). rewrite run_len_app.
    + rewrite take_app_length', !bool_decide_false by done. cbn [kernel_tok length]. do 2 f_equal. lia.
    + apply Himp; [|done]. intros x Hx. unfold is_ident_byte. by rewrite Hx.
    + by apply text_stops.
  - destruct Hw as (_ & Hd & Hlt). assert (is_ascii_digit b = true) as Hb by (cbn in Hd; by apply andb_true_iff in Hd as [? _]).
    destruct (digit_not_blank b Hb) as (H0 & H1 & _ & Hna & Hu).
    cbn [app scan]. rewrite H0, H1, Hna, Hu, Hb. cbn [orb].
    change (b :: ds ++ text ws) with ((b :: ds) ++ text ws). rewrite parse_literal_dec.
    + cbv zeta. destruct (Z.ltb_spec (numeral 10 dec_digit (b :: ds) 0) M32); [|lia]. cbn [kernel_tok length]. do 2 f_equal. lia.
    + rewrite forallb_forall in *. intros x Hx. unfold dec_byte. by rewrite Hd.
    + by apply text_stops.
    + by apply hex_prefix_text.
Qed.

(** ** Whole texts *)
Lemma jit_all_text ws pre fuel : (length ws < fuel)%nat -> Forall wf_word ws ->
  jit_all fuel {| jl_stream := pre ++ text ws; jl_cursor := length pre |} = Some (map jit_tok ws).
Proof.
  revert pre fuel. induction ws as [|w ws IH]; intros pre [|f] Hf Hw; try (cbn in Hf; lia);
    cbn [jit_all]; unfold jit_next_token; cbn [jl_stream jl_cursor]; rewrite drop_app_length.
  - done.
  - inversion_clear Hw. rewrite jit_scan_word by done. cbn [length] in Hf.
    specialize (IH (pre ++ 32 :: spelling w) f ltac:(lia) ltac:(done)).
    rewrite <- app_assoc in IH. rewrite length_app in IH. cbn [length] in IH.
    change (pre ++ text (w :: ws)) with (pre ++ (32 :: spelling w) ++ text ws). rewrite IH. by destruct w.
Qed.

Lemma lex_all_text ws pre l fuel : (length ws < fuel)%nat -> Forall wf_word ws ->
  lex_all fuel {| lx_stream := pre ++ text ws; lx_cursor := length pre; lx_line := l |} = Some (map kernel_tok ws).
Proof.
  revert pre fuel. induction ws as [|w ws IH]; intros pre [|f] Hf Hw; try (cbn in Hf; lia);
    cbn [lex_all]; unfold next_token; cbn [lx_stream lx_cursor lx_line]; rewrite drop_app_length.
  - done.
  - inversion_clear Hw. rewrite scan_word by done. cbn [length] in Hf.
    specialize (IH (pre ++ 32 :: spelling w) f ltac:(lia) ltac:(done)).
    rewrite <- app_assoc in IH. rewrite length_app in IH. cbn [length] in IH.
    change (pre ++ text (w :: ws)) with (pre ++ (32 :: spelling w) ++ text ws). rewrite IH. by destruct w.
Qed.

(** The JIT crate's lexer and the kernel's agree on their common language:
    on any text of blank-separated words (no keywords) and decimal numbers below
    2^32, both return exactly those words and numbers. *)
Theorem jit_lexer_agrees (ws : list Word) :
  Forall wf_word ws ->
  jit_all (S (length ws)) (jl_new (text ws)) = Some (map jit_tok ws) /\
  lex_all (S (length ws)) (lexer_new (text ws)) = Some (map kernel_tok ws).
Proof.
  intros Hw. split; [apply (jit_all_text ws [])|apply (lex_all_text ws [])]; (done || lia).
Qed.

Lemma jit_lexer_agrees_witness :
  jit_all 4 (jl_new (bytes " poke 4294967295 x1")) =
    Some [JIdentifier (bytes "poke"); JLiteral 4294967295; JIdentifier (bytes "x1")].
Proof.
  apply (jit_lexer_agrees [WId (bytes "poke"); WNum (bytes "4294967295"); WId (bytes "x1")]).
  repeat constructor; vm_compute; congruence.
Defined.
