(* ===== verification/Fuzz.v ===== *)
(** * Fuzz: the deterministic fuzz generator (crates/hros-kernel/src/fuzz.rs)

    The generator, the byte-mutation loop with its bounds-checked buffer and
    the jitter gate of both feature sets. The watchdog window test computes
    with [f32] numbers, which are the standard library's IEEE 754 ones at
    precision 24 and exponent bound 128. *)
From Stdlib Require Import SpecFloat.
From S2P Require Import Prelude.
Local Open Scope Z_scope.
Local Open Scope u32_scope.

Record Lcg := { lcg_state : Z }.

Definition lcg_new (seed : Z) : Lcg := {| lcg_state := seed |}.

Definition lcg_next (g : Lcg) : Z * Lcg :=
  let s := (lcg_state g *w 1664525) +w 1013904223 in (s, {| lcg_state := s |}).

Definition next_byte (g : Lcg) : Z * Lcg := let (v, g') := lcg_next g in (Z.shiftr v 24 mod 256, g').

(** [for i in 0..len { _buf[i] = rng.next_byte() }]; [None] is the bounds check. *)
Fixpoint fill_buf (n i : nat) (buf : list Z) (g : Lcg) : option (list Z * Lcg) :=
  match n with
  | O => Some (buf, g)
  | S n' =>
      let (b, g') := next_byte g in
      if (i <? length buf)%nat then fill_buf n' (S i) (aset buf i b) g' else None
  end.

Fixpoint fuzz_rounds (n : nat) (checks : Z) (g : Lcg) : option (Z * Lcg) :=
  match n with
  | O => Some (checks, g)
  | S n' =>
      let (b, g1) := next_byte g in
      let len := b mod 32 + 1 in
      r ← fill_buf (Z.to_nat len) 0 (replicate 32 0) g1;
      let (_, g3) := lcg_next (snd r) in
      fuzz_rounds n' (checks + 1) g3
  end.

Definition fuzz_uart (n : nat) (seed : Z) : option (Z * Z) :=
  r ← fuzz_rounds n 0 (lcg_new seed); Some (Z.of_nat n, fst r).

(** [baremetal] is the feature baremetal-arm. *)
Definition verify_jitter_bounds (baremetal : bool) (delta_ns : Z) : bool :=
  if baremetal then delta_ns =? 0 else delta_ns <? 100000.

(** ** f32 *)
Definition f32_of_u32 (n : Z) : spec_float := binary_normalize 24 128 n 0 false.
Definition f32_mul : spec_float -> spec_float -> spec_float := SFmul 24 128.

(** The literal [num / den], rounded once. *)
Definition f32_lit (num den : Z) : spec_float := SFdiv 24 128 (f32_of_u32 num) (f32_of_u32 den).

(** [as u32]: truncation, saturating at both ends, NaN to 0. *)
Definition f32_as_u32 (x : spec_float) : Z :=
  match x with
  | S754_finite false m e => Z.min (M32 - 1) (Z.shiftl (Zpos m) e)
  | S754_infinity false => M32 - 1
  | _ => 0
  end.

Definition wwdt_window_test : bool :=
  let f_cpu := 84000000 in
  let t_lower := f32_as_u32 (f32_mul (f32_of_u32 f_cpu) (f32_lit 8 10000)) in
  let t_upper := f32_as_u32 (f32_mul (f32_of_u32 f_cpu) (f32_lit 1 1000)) in
  let inside := (t_lower +w t_upper) / 2 in
  let before := t_lower -w 1000 in
  let after := t_upper +w 1000 in
  (t_lower <? inside) && (inside <? t_upper)
  && negb ((t_lower <? before) && (before <? t_upper))
  && negb ((t_lower <? after) && (after <? t_upper)).

(** The rounded bounds are the exact ones, 0.8 ms and 1 ms of cycles. *)
Lemma wwdt_bounds :
  f32_as_u32 (f32_mul (f32_of_u32 84000000) (f32_lit 8 10000)) = 67200 /\
  f32_as_u32 (f32_mul (f32_of_u32 84000000) (f32_lit 1 1000)) = 84000.
Proof. by vm_compute. Qed.

Lemma wwdt_window_holds : wwdt_window_test = true.
Proof. by vm_compute. Qed.

(** ** The generator is a permutation of the 32-bit words *)
Definition lcg_prev (g : Lcg) : Lcg := {| lcg_state := (lcg_state g -w 1013904223) *w 4276115653 |}.

Lemma lcg_prev_next g : u32 (lcg_state g) -> lcg_prev (snd (lcg_next g)) = g.
Proof.
  intros Hg. destruct g as [s]. unfold lcg_prev, lcg_next. cbn [snd lcg_state] in *. f_equal.
  unfold u32_add, u32_sub, u32_mul, wrap32. rewrite Zminus_mod_idemp_l.
  replace (s * 1664525 mod M32 + 1013904223 - 1013904223) with (s * 1664525 mod M32) by lia.
  rewrite Zmod_mod, <- Zmult_mod_idemp_r, Z.mul_mod_idemp_l, <- Z.mul_assoc by (unfold M32; lia).
  rewrite <- Zmult_mod_idemp_r. change (1664525 * (4276115653 mod M32) mod M32) with 1.
  rewrite Z.mul_1_r. by apply Z.mod_small.
Qed.

(** ** No round panics *)
Lemma fill_buf_fits n i buf g : (i + n <= length buf)%nat -> is_Some (fill_buf n i buf g).
Proof.
  revert i buf g. induction n as [|n IH]; intros i buf g Hi; [by eexists|]. cbn [fill_buf].
  destruct (next_byte g) as [b g']. destruct (Nat.ltb_spec i (length buf)); [|lia].
  apply IH. rewrite length_aset. lia.
Qed.

Lemma fuzz_rounds_total n checks g : exists g', fuzz_rounds n checks g = Some (checks + Z.of_nat n, g').
Proof.
  revert checks g. induction n as [|n IH]; intros checks g; [exists g; cbn; do 2 f_equal; lia|]. cbn [fuzz_rounds].
  destruct (next_byte g) as [b g1].
  destruct (fill_buf_fits (Z.to_nat (b mod 32 + 1)) 0 (replicate 32 0) g1) as [r ->].
  { rewrite length_replicate. pose proof (Z.mod_pos_bound b 32). lia. }
  cbn. destruct (IH (checks + 1) {| lcg_state := (lcg_state (snd r) *w 1664525) +w 1013904223 |}) as [g' ->].
  exists g'. do 2 f_equal. lia.
Qed.

(** The harness never panics: every round stays in its buffer, whatever the
    seed, and each counts one check. *)
Lemma fuzz_uart_total n seed : fuzz_uart n seed = Some (Z.of_nat n, Z.of_nat n).
Proof. unfold fuzz_uart. by destruct (fuzz_rounds_total n 0 (lcg_new seed)) as [g ->]. Qed.
