(* ===== verification/Pool.v ===== *)
(** * Pool: the per-task bump allocator (src/kernel/pool.rs)

    [OFFSETS] is four bump pointers into sub-pools of 2 KiB each; the base
    address is the linker's, so it is a parameter. Arithmetic is 32-bit and
    wraps, as in the release build. The theorems follow the blocks handed out
    since each task's last reset. *)
From S2P Require Import Prelude.
Local Open Scope Z_scope.
Local Open Scope u32_scope.

Definition POOL_SIZE : Z := 8192.
Definition NUM_POOLS : Z := 4.
Definition TASK_POOL_SIZE : Z := POOL_SIZE / NUM_POOLS.

Inductive PoolError := BadTask | Full | BadAlign.
#[export] Instance PoolError_eq_dec : EqDecision PoolError.
Proof. solve_decision. Defined.

Definition OFFSETS_INIT : list Z := replicate 4 0.

Section Pool.
Context (pool_base : Z).

Definition alloc (task_idx size : Z) (offsets : list Z) : Result Z PoolError * list Z :=
  if NUM_POOLS <=? task_idx then (Err BadTask, offsets)
  else
    let off := aget 0 offsets (Z.to_nat task_idx) in
    let base := pool_base +w (task_idx *w TASK_POOL_SIZE) in
    let addr := base +w off in
    if TASK_POOL_SIZE <? (off +w size) then (Err Full, offsets)
    else (Ok addr, aset offsets (Z.to_nat task_idx) (off +w size)).

Definition reset (task_idx : Z) (offsets : list Z) : Result unit PoolError * list Z :=
  if NUM_POOLS <=? task_idx then (Err BadTask, offsets)
  else (Ok tt, aset offsets (Z.to_nat task_idx) 0).

Definition remaining (task_idx : Z) (offsets : list Z) : Result Z PoolError :=
  if NUM_POOLS <=? task_idx then Err BadTask
  else Ok (TASK_POOL_SIZE -w aget 0 offsets (Z.to_nat task_idx)).

Definition stats (offsets : list Z) : list (Z * Z) :=
  map (fun i => (aget 0 offsets i, TASK_POOL_SIZE -w aget 0 offsets i)) (seq 0 4).

(** ** Live blocks *)
Record Block := { bk_task : Z; bk_addr : Z; bk_size : Z }.

Inductive PoolOp := PAlloc (task_idx size : Z) | PReset (task_idx : Z).

(** The allocator with the blocks handed out and not yet reset. *)
Definition pool_step (o : PoolOp) (st : list Z * list Block) : list Z * list Block :=
  let (offsets, live) := st in
  match o with
  | PAlloc t s =>
      match alloc t s offsets with
      | (Ok a, offsets') => (offsets', {| bk_task := t; bk_addr := a; bk_size := s |} :: live)
      | (Err _, offsets') => (offsets', live)
      end
  | PReset t =>
      match reset t offsets with
      | (Ok _, offsets') => (offsets', filter (fun b => bk_task b <> t) live)
      | (Err _, offsets') => (offsets', live)
      end
  end.

Definition pool_run (os : list PoolOp) : list Z * list Block :=
  foldl (fun st o => pool_step o st) (OFFSETS_INIT, []) os.

(** A request that does not wrap the offset, for an existing task index. *)
Definition op_ok (o : PoolOp) : Prop :=
  match o with
  | PAlloc t s => 0 <= t /\ 0 <= s < M32 - TASK_POOL_SIZE
  | PReset t => 0 <= t
  end.

Definition disjoint_blocks (a b : Block) : Prop :=
  bk_addr a + bk_size a <= bk_addr b \/ bk_addr b + bk_size b <= bk_addr a.

Definition sub_base (t : Z) : Z := pool_base + t * TASK_POOL_SIZE.

Definition offset_of (offsets : list Z) (t : Z) : Z := aget 0 offsets (Z.to_nat t).

(** A live block lies below its task's bump pointer. *)
Definition block_ok (offsets : list Z) (b : Block) : Prop :=
  0 <= bk_task b < NUM_POOLS /\ 0 <= bk_size b /\ sub_base (bk_task b) <= bk_addr b /\
  bk_addr b + bk_size b <= sub_base (bk_task b) + offset_of offsets (bk_task b).

Record wf_pool (st : list Z * list Block) : Prop := {
  wp_len : length (fst st) = 4%nat;
  wp_off : forall t, 0 <= t < NUM_POOLS -> 0 <= offset_of (fst st) t <= TASK_POOL_SIZE;
  wp_live : Forall (block_ok (fst st)) (snd st);
  wp_disjoint : ForallOrdPairs disjoint_blocks (snd st);
}.

Hypothesis Hbase : 0 <= pool_base.
Hypothesis Hroom : pool_base + POOL_SIZE < M32.

Lemma FOP_filter {A} (R : A -> A -> Prop) (P : A -> Prop) `{forall x, Decision (P x)} l :
  ForallOrdPairs R l -> ForallOrdPairs R (filter P l).
Proof.
  induction 1 as [|x l Hx Hl IH]; [constructor|]. rewrite filter_cons. case_decide; [|done].
  constructor; [|done]. rewrite list.Forall_forall in *. intros y [_ Hy]%list_elem_of_filter. auto.
Qed.

Lemma offset_aset offsets t u v :
  length offsets = 4%nat -> 0 <= t < NUM_POOLS -> 0 <= u < NUM_POOLS ->
  offset_of (aset offsets (Z.to_nat t) v) u = if decide (t = u) then v else offset_of offsets u.
Proof.
  unfold offset_of, NUM_POOLS. intros Hl Ht Hu. case_decide as E.
  - subst. apply aget_aset_eq. lia.
  - apply aget_aset_ne. lia.
Qed.

(** Where an accepted request lands. *)
Lemma alloc_ok t s offsets a offsets' :
  length offsets = 4%nat -> (0 <= offset_of offsets t <= TASK_POOL_SIZE) -> op_ok (PAlloc t s) ->
  alloc t s offsets = (Ok a, offsets') ->
  0 <= t < NUM_POOLS /\ a = sub_base t + offset_of offsets t /\
  offset_of offsets t + s <= TASK_POOL_SIZE /\
  offsets' = aset offsets (Z.to_nat t) (offset_of offsets t + s).
Proof.
  intros Hl Ho [Ht Hs] E. unfold alloc in E. fold (offset_of offsets t) in E.
  destruct (Z.leb_spec NUM_POOLS t); [done|].
  change TASK_POOL_SIZE with 2048 in *. unfold NUM_POOLS in *. unfold POOL_SIZE in Hroom.
  unfold u32_add, u32_mul in E. rewrite (wrap32_small (t * 2048)) in E by (unfold u32, M32; lia).
  rewrite (wrap32_small (offset_of offsets t + s)) in E by (unfold u32; lia).
  rewrite (wrap32_small (pool_base + t * 2048)) in E by (unfold u32; lia).
  rewrite (wrap32_small (pool_base + t * 2048 + _)) in E by (unfold u32; lia).
  destruct (Z.ltb_spec 2048 (offset_of offsets t + s)); [done|]. simplify_eq.
  unfold sub_base. change TASK_POOL_SIZE with 2048. split; [lia|]. done.
Qed.

Lemma alloc_err t s offsets e offsets' : alloc t s offsets = (Err e, offsets') -> offsets' = offsets.
Proof. unfold alloc. cbv zeta. intros. repeat case_match; by simplify_eq. Qed.

Lemma block_disjoint offsets b t s :
  block_ok offsets b -> 0 <= t < NUM_POOLS -> 0 <= offset_of offsets t ->
  0 <= s -> offset_of offsets t + s <= TASK_POOL_SIZE ->
  (0 <= offset_of offsets (bk_task b) <= TASK_POOL_SIZE) ->
  disjoint_blocks {| bk_task := t; bk_addr := sub_base t + offset_of offsets t; bk_size := s |} b.
Proof.
  intros (Hb1 & Hb2 & Hb3 & Hb4) Ht Ho Hs Hfit Hob. unfold disjoint_blocks, sub_base in *.
  cbn [bk_addr bk_size]. change TASK_POOL_SIZE with 2048 in *.
  destruct (Z.lt_trichotomy t (bk_task b)) as [Hlt|[Heq|Hgt]]; [left; lia| |right; lia].
  right. rewrite Heq. lia.
Qed.

Lemma pool_step_wf o st : wf_pool st -> op_ok o -> wf_pool (pool_step o st).
Proof.
  destruct st as [offsets live]. intros [Hl Hoff Hlive Hdis] Hop. cbn [fst snd] in *.
  destruct o as [t s|t]; cbn [pool_step].
  - destruct (alloc t s offsets) as [[a|e] offsets'] eqn:E; [|by apply alloc_err in E; subst].
    destruct (Z.lt_ge_cases t NUM_POOLS) as [Hlt|Hge].
    2: { unfold alloc in E. by destruct (Z.leb_spec NUM_POOLS t); [|lia]. }
    assert (0 <= t < NUM_POOLS) as Ht by (destruct Hop; lia).
    apply alloc_ok in E as (_ & -> & Hfit & ->); [|done|by apply Hoff|done].
    pose proof (Hoff t Ht) as Hot. destruct Hop as [_ Hs].
    split; cbn [fst snd].
    + by rewrite length_aset.
    + intros u Hu. rewrite offset_aset by done. case_decide; [lia|by apply Hoff].
    + constructor.
      * unfold block_ok. cbn [bk_task bk_addr bk_size]. rewrite offset_aset, decide_True by done. lia.
      * eapply list.Forall_impl; [exact Hlive|]. intros b (Hb1 & Hb2 & Hb3 & Hb4). unfold block_ok.
        rewrite offset_aset by done. case_decide; [subst; lia|done].
    + constructor; [|done]. rewrite list.Forall_forall in *. intros b Hb.
      apply block_disjoint; try done; [by apply Hlive|lia|lia|]. apply Hoff. by apply Hlive.
  - cbn in Hop. unfold reset. destruct (Z.leb_spec NUM_POOLS t); [done|].
    split; cbn [fst snd].
    + by rewrite length_aset.
    + intros u Hu. rewrite offset_aset by (done || lia). case_decide; [|by apply Hoff].
      change TASK_POOL_SIZE with 2048. lia.
    + rewrite list.Forall_forall in *. intros b [Hne Hb]%list_elem_of_filter.
      destruct (Hlive b Hb) as (Hb1 & Hb2 & Hb3 & Hb4). unfold block_ok.
      rewrite offset_aset by (done || lia). by rewrite decide_False by done.
    + by apply FOP_filter.
Qed.

Lemma pool_init_wf : wf_pool (OFFSETS_INIT, []).
Proof.
  split; cbn [fst snd]; [done| |constructor|constructor]. intros t Ht. unfold offset_of, OFFSETS_INIT.
  rewrite aget_replicate. change TASK_POOL_SIZE with 2048. lia.
Qed.

(** C37. The allocator keeps tasks and blocks apart: over any sequence of requests
    and resets whose sizes do not wrap the word, every live block lies inside
    its own task's sub-pool, below that task's bump pointer, and no two live
    blocks overlap; a reset of one task leaves the others' blocks live. *)
Theorem pool_blocks_disjoint (os : list PoolOp) :
  Forall op_ok os ->
  let '(offsets, live) := pool_run os in
  Forall (fun b => sub_base (bk_task b) <= bk_addr b /\
            bk_addr b + bk_size b <= sub_base (bk_task b) + TASK_POOL_SIZE) live /\
  ForallOrdPairs disjoint_blocks live.
Proof.
  intros Hos. assert (wf_pool (pool_run os)) as Hwf.
  { unfold pool_run. pose proof pool_init_wf as H0. revert H0. generalize (OFFSETS_INIT, @nil Block).
    induction Hos as [|o os Ho _ IH]; intros st Hst; [done|]. cbn [foldl]. apply IH. by apply pool_step_wf. }
  destruct (pool_run os) as [offsets live]. destruct Hwf as [Hl Hoff Hlive Hdis]. cbn [fst snd] in *.
  split; [|done]. eapply list.Forall_impl; [exact Hlive|]. intros b (Hb1 & Hb2 & Hb3 & Hb4).
  specialize (Hoff _ Hb1). lia.
Qed.

End Pool.

Lemma pool_blocks_disjoint_witness :
  Forall (fun b => sub_base 0x20006000 (bk_task b) <= bk_addr b /\
            bk_addr b + bk_size b <= sub_base 0x20006000 (bk_task b) + TASK_POOL_SIZE)
    [ {| bk_task := 1; bk_addr := 0x20006800; bk_size := 64 |};
      {| bk_task := 0; bk_addr := 0x20006010; bk_size := 32 |};
      {| bk_task := 0; bk_addr := 0x20006000; bk_size := 16 |} ] /\
  ForallOrdPairs disjoint_blocks
    [ {| bk_task := 1; bk_addr := 0x20006800; bk_size := 64 |};
      {| bk_task := 0; bk_addr := 0x20006010; bk_size := 32 |};
      {| bk_task := 0; bk_addr := 0x20006000; bk_size := 16 |} ].
Proof.
  apply (pool_blocks_disjoint 0x20006000 ltac:(lia) ltac:(unfold POOL_SIZE, M32; lia)
    [PAlloc 0 16; PAlloc 0 32; PAlloc 1 64]).
  repeat constructor; cbn; try lia; unfold M32; change TASK_POOL_SIZE with 2048; lia.
Defined.

(** The fullness test wraps: after a first allocation of 16 bytes, a request
    for 2^32 - 16 bytes, sixteen short of the whole address space, is granted,
    sets the bump pointer back to 0, and the next request receives the first
    block's address while that block is live. *)
Theorem pool_wrap_aliases :
  let base := 0x20006000 in
  let '(r1, o1) := alloc base 0 16 OFFSETS_INIT in
  let '(r2, o2) := alloc base 0 (M32 - 16) o1 in
  let '(r3, o3) := alloc base 0 16 o2 in
  r1 = Ok base /\ r2 = Ok (base + 16) /\ r3 = r1.
Proof. vm_compute. done. Qed.
