(* ===== verification/Pstore.v ===== *)
(** * Pstore: the program persistence store (src/drivers/pstore.rs)

    Eight slots of named word arrays in an SRAM window; the window's bounds
    are linker symbols, so they are parameters. Everything goes through
    [poke_u32] and [peek_u32], at byte-granular (unaligned) addresses: the name
    is stored by overlapping word writes, one per byte. The theorems are about
    any bus that is byte memory on the store window ([ByteRam]). *)
From S2P Require Import Prelude Registry AuditRing Memory.
Local Open Scope Z_scope.
Local Open Scope u32_scope.

Definition MAX_PROGRAMS : nat := 8.
Definition STORE_NAME_MAX : nat := 16.
Definition SLOT_WORDS : nat := 64.

Inductive StoreError := NoStore | NotFound | StoreIsFull | TooLarge.
#[export] Instance StoreError_eq_dec : EqDecision StoreError.
Proof. solve_decision. Defined.

Section Store.
Context {B : Type} `{Bus B} (arch : Arch) (pstore_base pstore_top : Z).
Implicit Type m : Machine B.

(** [NAME_MAX + 1 + 4 + SLOT_WORDS * 4] *)
Definition SLOT_STRIDE : Z := 277.

Definition slot_addr (idx : nat) : option Z :=
  if (pstore_base =? 0) || (pstore_top =? 0) || (pstore_top <=? pstore_base) then None
  else Some (pstore_base +w (Z.of_nat idx *w SLOT_STRIDE)).

(** The two [for] loops: one write per byte, one per word. *)
Fixpoint save_bytes (a : Z) (name : list Z) m : Machine B :=
  match name with
  | [] => m
  | b :: rest => save_bytes (a + 1) rest (poke_u32 arch a b m)
  end.

Fixpoint save_words (a : Z) (words : list Z) m : Machine B :=
  match words with
  | [] => m
  | w :: rest => save_words (a + 4) rest (poke_u32 arch a w m)
  end.

Definition save (idx : nat) (name words : list Z) m : Result unit StoreError * Machine B :=
  match slot_addr idx with
  | None => (Err NoStore, m)
  | Some addr =>
      if (STORE_NAME_MAX <? length name)%nat || (SLOT_WORDS <? length words)%nat then (Err TooLarge, m)
      else
        let m1 := poke_u32 arch addr (Z.of_nat (length name)) m in
        let m2 := save_bytes (addr + 4) name m1 in
        let m3 := poke_u32 arch (addr + 20) (Z.of_nat (length words)) m2 in
        (Ok tt, save_words (addr + 24) words m3)
  end.

(** [for (i, item) in out.iter_mut().enumerate().take(n)]: overwrite the first
    [n] items of the caller's buffer, as far as it goes, with what is read. *)
Fixpoint load_items (cast : Z -> Z) (step a : Z) (n : nat) (out : list Z) m : list Z * Machine B :=
  match n, out with
  | S n', _ :: out' =>
      let (v, m1) := peek_u32 arch a m in
      let (rest, m2) := load_items cast step (a + step) n' out' m1 in
      (cast v :: rest, m2)
  | _, _ => (out, m)
  end.

(** The count on success, then the two buffers and the machine. *)
Definition load (idx : nat) (name_out words_out : list Z) m
  : Result nat StoreError * list Z * list Z * Machine B :=
  match slot_addr idx with
  | None => (Err NoStore, name_out, words_out, m)
  | Some addr =>
      let (name_len, m1) := peek_u32 arch addr m in
      if (name_len =? 0) || (Z.of_nat STORE_NAME_MAX <? name_len)
      then (Err NotFound, name_out, words_out, m1)
      else
        let (names, m2) := load_items (fun v => v mod 256) 1 (addr + 4) (Z.to_nat name_len) name_out m1 in
        let (count, m3) := peek_u32 arch (addr + 20) m2 in
        if (Z.of_nat SLOT_WORDS <? count) || (Z.of_nat (length words_out) <? count)
        then (Err TooLarge, names, words_out, m3)
        else
          let (words, m4) := load_items (fun v => v) 4 (addr + 24) (Z.to_nat count) words_out m3 in
          (Ok (Z.to_nat count), names, words, m4)
  end.

End Store.

(** ** Byte memory

    What the store window promises: word accesses that start in [[lo, hi)] act
    on the bytes behind them, and reads have no effect. *)
Class ByteRam (B : Type) `{Bus B} (lo hi : Z) := {
  rb_byte : B -> Z -> Z;
  rb_range : forall b a, 0 <= rb_byte b a < 256;
  rb_read : forall a b, lo <= a < hi ->
    bus_read a b = (rb_byte b a + 256 * rb_byte b (a + 1) + 65536 * rb_byte b (a + 2) + 16777216 * rb_byte b (a + 3), b);
  rb_write : forall a v b c, lo <= a < hi ->
    rb_byte (bus_write a v b) c = if (a <=? c) && (c <? a + 4) then v / 256 ^ (c - a) mod 256 else rb_byte b c;
}.

Lemma ram_byte_write a v b c :
  ram_byte (ram_write a v b) c = if (a <=? c) && (c <? a + 4) then v / 256 ^ (c - a) mod 256 else ram_byte b c.
Proof.
  unfold ram_write. rewrite !ram_byte_insert, !Zmod_mod.
  destruct (Z.leb_spec a c), (Z.ltb_spec c (a + 4)); cbn [andb].
  2-4: rewrite !bool_decide_false by lia; done.
  assert (c = a \/ c = a + 1 \/ c = a + 2 \/ c = a + 3) as [-> | [-> | [-> | ->]]] by lia;
    repeat (case_bool_decide; try lia).
  - rewrite Z.sub_diag. change (256 ^ 0) with 1. by rewrite Z.div_1_r.
  - replace (a + 1 - a) with 1 by lia. done.
  - replace (a + 2 - a) with 2 by lia. done.
  - replace (a + 3 - a) with 3 by lia. done.
Qed.

#[export] Instance ram_byte_ram lo hi : ByteRam (gmap Z Z) lo hi := {
  rb_byte := ram_byte;
  rb_range := ram_byte_range;
  rb_read _ _ _ := eq_refl;
  rb_write a v b c _ := ram_byte_write a v b c;
}.

Section Bytes.
Context {B : Type} `{Bus B} (arch : Arch) (lo hi : Z) `{!ByteRam B lo hi}.
Implicit Type m : Machine B.

Definition byte_at m (a : Z) : Z := rb_byte (lo := lo) (hi := hi) (m_bus m) a.

(** A range of addresses that never hits the registry words. *)
Definition clear_of_registry : Prop := hi <= CAPREG_BASE arch \/ CAPREG_BASE arch + 32 <= lo.
Hypothesis Hclear : clear_of_registry.

Lemma clear_slot a : lo <= a < hi -> reg_slot arch a = None.
Proof.
  unfold clear_of_registry, reg_slot in *. intros Ha.
  destruct (Z.leb_spec 0 (a - CAPREG_BASE arch)), (Z.ltb_spec (a - CAPREG_BASE arch) 32); try done. lia.
Qed.

Lemma byte_poke a v m c : lo <= a < hi ->
  byte_at (poke_u32 arch a v m) c =
    if (a <=? c) && (c <? a + 4) then v / 256 ^ (c - a) mod 256 else byte_at m c.
Proof. intros Ha. unfold poke_u32, byte_at. rewrite clear_slot by done. cbn [set_bus m_bus]. by apply rb_write. Qed.

Lemma peek_bytes a m : lo <= a < hi ->
  peek_u32 arch a m =
    (byte_at m a + 256 * byte_at m (a + 1) + 65536 * byte_at m (a + 2) + 16777216 * byte_at m (a + 3), m).
Proof. intros Ha. unfold peek_u32. rewrite clear_slot by done. rewrite rb_read by done. by destruct m. Qed.

(** A word read where it was written. *)
Lemma word_bytes v : u32 v ->
  v mod 256 + 256 * (v / 256 ^ 1 mod 256) + 65536 * (v / 256 ^ 2 mod 256)
    + 16777216 * (v / 256 ^ 3 mod 256) = v.
Proof.
  unfold u32, M32. intros Hv. change (256 ^ 1) with 256. change (256 ^ 2) with 65536.
  change (256 ^ 3) with 16777216. Z.to_euclidean_division_equations. lia.
Qed.

(** [holds m a v]: the four bytes at [a] spell the word [v]. *)
Definition holds m (a v : Z) : Prop :=
  forall i, 0 <= i < 4 -> byte_at m (a + i) = v / 256 ^ i mod 256.

Lemma holds_peek m a v :
  lo <= a < hi -> u32 v -> holds m a v -> peek_u32 arch a m = (v, m).
Proof.
  intros Ha Hv Hh. rewrite peek_bytes by done. f_equal.
  rewrite <- (Z.add_0_r a) at 1. rewrite !Hh by lia. change (256 ^ 0) with 1. rewrite Z.div_1_r.
  by apply word_bytes.
Qed.

Lemma holds_frame m m' a v :
  (forall c, a <= c < a + 4 -> byte_at m' c = byte_at m c) -> holds m a v -> holds m' a v.
Proof. intros Hf Hh i Hi. rewrite Hf by lia. by apply Hh. Qed.

Lemma holds_poke m a v :
  lo <= a < hi -> holds (poke_u32 arch a v m) a v.
Proof.
  intros Ha i Hi. rewrite byte_poke by done.
  destruct (Z.leb_spec a (a + i)), (Z.ltb_spec (a + i) (a + 4)); try lia. cbn [andb].
  by replace (a + i - a) with i by lia.
Qed.

(** The byte loop: byte [i] of the name at [a + i], nothing outside
    [[a, a + len + 3)]. *)
Lemma save_bytes_spec name : forall a m,
  lo <= a -> a + Z.of_nat (length name) <= hi -> Forall u8 name ->
  (forall i b, name !! i = Some b -> byte_at (save_bytes arch a name m) (a + Z.of_nat i) = b) /\
  (forall c, c < a \/ a + Z.of_nat (length name) + 3 <= c ->
     byte_at (save_bytes arch a name m) c = byte_at m c).
Proof.
  induction name as [|b name IH]; intros a m Hlo Hhi Hn; [by split|].
  apply Forall_cons_1 in Hn as [Hb Hn]. cbn [length] in *. cbn [save_bytes].
  destruct (IH (a + 1) (poke_u32 arch a b m) ltac:(lia) ltac:(lia) Hn) as [H1 H2]. split.
  - intros [|i] x Hx; cbn in Hx.
    + simplify_eq. rewrite H2 by lia. rewrite byte_poke by (done || lia).
      rewrite Z.add_0_r. destruct (Z.leb_spec a a), (Z.ltb_spec a (a + 4)); try lia. cbn [andb].
      rewrite Z.sub_diag. change (256 ^ 0) with 1. rewrite Z.div_1_r. by apply Z.mod_small.
    + replace (a + Z.of_nat (S i)) with (a + 1 + Z.of_nat i) by lia. by apply H1.
  - intros c Hcc. rewrite H2 by lia. rewrite byte_poke by (done || lia).
    destruct (Z.leb_spec a c), (Z.ltb_spec c (a + 4)); try done. lia.
Qed.

Lemma save_words_spec words : forall a m,
  lo <= a -> a + 4 * Z.of_nat (length words) <= hi ->
  (forall i w, words !! i = Some w -> holds (save_words arch a words m) (a + 4 * Z.of_nat i) w) /\
  (forall c, c < a \/ a + 4 * Z.of_nat (length words) <= c ->
     byte_at (save_words arch a words m) c = byte_at m c).
Proof.
  induction words as [|w words IH]; intros a m Hlo Hhi; [by split|].
  cbn [length] in *. cbn [save_words].
  destruct (IH (a + 4) (poke_u32 arch a w m) ltac:(lia) ltac:(lia)) as [H1 H2]. split.
  - intros [|i] x Hx; cbn in Hx.
    + simplify_eq. replace (a + 4 * Z.of_nat 0) with a by lia.
      eapply holds_frame; [|by apply (holds_poke m a x); lia].
      intros c Hcc. apply H2. lia.
    + replace (a + 4 * Z.of_nat (S i)) with (a + 4 + 4 * Z.of_nat i) by lia. by apply H1.
  - intros c Hcc. rewrite H2 by lia. rewrite byte_poke by (done || lia).
    destruct (Z.leb_spec a c), (Z.ltb_spec c (a + 4)); try done. lia.
Qed.

(** Reading [n] items that are known, one by one. *)
Lemma load_items_spec cast step vals out : forall a m,
  (forall i v, vals !! i = Some v ->
     exists w, peek_u32 arch (a + step * Z.of_nat i) m = (w, m) /\ cast w = v) ->
  (length vals <= length out)%nat ->
  load_items arch cast step a (length vals) out m = (copy_prefix out vals, m).
Proof.
  revert out. induction vals as [|v vals IH]; intros out a m Hv Hl.
  { by destruct out. }
  destruct out as [|o out]; [cbn in Hl; lia|]. cbn [length load_items] in *.
  destruct (Hv 0%nat v eq_refl) as (w & E & <-). rewrite Z.mul_0_r, Z.add_0_r in E. rewrite E.
  rewrite (IH out (a + step) m).
  - done.
  - intros i x Hx. destruct (Hv (S i) x Hx) as (w' & E' & Hw'). exists w'. split; [|done].
    rewrite <- E'. f_equal. lia.
  - lia.
Qed.

End Bytes.

Section Roundtrip.
Context {B : Type} `{Bus B} (arch : Arch) (pstore_base pstore_top : Z).
Hypothesis Hbase : 0 < pstore_base < pstore_top.
Hypothesis Htop : pstore_base + 8 * SLOT_STRIDE + 3 < M32.
Hypothesis Hclear : clear_of_registry arch pstore_base (pstore_base + 8 * SLOT_STRIDE + 3).
Context `{!ByteRam B pstore_base (pstore_base + 8 * SLOT_STRIDE + 3)}.
Implicit Type m : Machine B.

Local Abbreviation lo := pstore_base.
Local Abbreviation hi := (pstore_base + 8 * SLOT_STRIDE + 3).
Local Abbreviation byte_at := (byte_at lo hi).
Local Abbreviation holds := (holds lo hi).

Definition slot_start (idx : nat) : Z := pstore_base + Z.of_nat idx * SLOT_STRIDE.

Lemma stride_val : SLOT_STRIDE = 277.
Proof. done. Qed.

Lemma slot_window idx : (idx < MAX_PROGRAMS)%nat -> lo <= slot_start idx /\ slot_start idx + 280 <= hi.
Proof. pose proof stride_val as Hst. unfold MAX_PROGRAMS, slot_start. rewrite Hst. lia. Qed.

Lemma slot_addr_some idx : (idx < MAX_PROGRAMS)%nat ->
  slot_addr pstore_base pstore_top idx = Some (slot_start idx).
Proof.
  unfold MAX_PROGRAMS, SLOT_STRIDE in *. intros Hi. unfold slot_addr, slot_start, SLOT_STRIDE.
  destruct (Z.eqb_spec pstore_base 0), (Z.eqb_spec pstore_top 0), (Z.leb_spec pstore_top pstore_base);
    try lia. cbn [orb]. unfold u32_add, u32_mul.
  rewrite (wrap32_small (Z.of_nat idx * 277)) by (unfold u32; lia).
  by rewrite wrap32_small by (unfold u32; lia).
Qed.

(** A slot that holds a program. *)
Record slot_holds m (idx : nat) (name words : list Z) : Prop := {
  sh_len : holds m (slot_start idx) (Z.of_nat (length name));
  sh_name : forall i b, name !! i = Some b -> byte_at m (slot_start idx + 4 + Z.of_nat i) = b;
  sh_count : holds m (slot_start idx + 20) (Z.of_nat (length words));
  sh_words : forall i w, words !! i = Some w -> holds m (slot_start idx + 24 + 4 * Z.of_nat i) w;
}.

(** Names and bodies a slot takes. *)
Record storable (name words : list Z) : Prop := {
  st_name : (1 <= length name <= STORE_NAME_MAX)%nat;
  st_name8 : Forall u8 name;
  st_words : (length words <= SLOT_WORDS)%nat;
  st_words32 : Forall u32 words;
}.

(** The bytes a slot with a body of [n] words takes. *)
Definition slot_bytes (idx n : nat) (c : Z) : Prop := slot_start idx <= c < slot_start idx + 24 + 4 * Z.of_nat n.

Lemma slot_frame m m' idx name words : (length name <= STORE_NAME_MAX)%nat ->
  (forall c, slot_bytes idx (length words) c -> byte_at m' c = byte_at m c) ->
  slot_holds m idx name words -> slot_holds m' idx name words.
Proof.
  unfold slot_bytes, STORE_NAME_MAX. intros Hn Hf [H1 H2 H3 H4]. constructor.
  - eapply holds_frame; [|exact H1]. intros c Hc. apply Hf. lia.
  - intros i b Hi. pose proof (lookup_lt_Some _ _ _ Hi). rewrite Hf by lia. by apply H2.
  - eapply holds_frame; [|exact H3]. intros c Hc. apply Hf. lia.
  - intros i w Hi. pose proof (lookup_lt_Some _ _ _ Hi). eapply holds_frame; [|by apply H4]. intros c Hc. apply Hf. lia.
Qed.

(** [save] leaves the slot holding the program and every other byte alone. *)
Lemma save_layout idx name words m : (idx < MAX_PROGRAMS)%nat -> storable name words ->
  exists m', save arch pstore_base pstore_top idx name words m = (Ok tt, m') /\ slot_holds m' idx name words /\
    (forall c, ~ slot_bytes idx (length words) c -> byte_at m' c = byte_at m c).
Proof.
  intros Hidx [Hname Hname8 Hwords _]. destruct (slot_window idx Hidx) as [Hlo Hhi]. pose proof stride_val as Hst.
  unfold save. rewrite slot_addr_some by done. unfold STORE_NAME_MAX, SLOT_WORDS, slot_bytes in *.
  destruct (Nat.ltb_spec 16 (length name)), (Nat.ltb_spec 64 (length words)); try lia. cbn [orb].
  eexists. split; [reflexivity|]. set (a := slot_start idx) in *.
  set (m1 := poke_u32 arch a _ m). set (m2 := save_bytes arch (a + 4) name m1).
  set (m3 := poke_u32 arch (a + 20) _ m2).
  destruct (save_bytes_spec arch lo hi Hclear name (a + 4) m1 ltac:(lia) ltac:(lia) Hname8) as [Hb1 Hb2].
  destruct (save_words_spec arch lo hi Hclear words (a + 24) m3 ltac:(lia) ltac:(lia)) as [Hw1 Hw2].
  fold m2 in Hb1, Hb2.
  assert (forall c, c < a + 20 \/ a + 24 <= c -> byte_at m3 c = byte_at m2 c) as H32.
  { intros c Hc. unfold m3. rewrite (byte_poke arch lo hi Hclear) by lia.
    destruct (Z.leb_spec (a + 20) c), (Z.ltb_spec c (a + 20 + 4)); try done. lia. }
  split; [constructor|].
  - eapply holds_frame; [|apply (holds_poke arch lo hi Hclear m); lia].
    intros c Hc. fold a in Hc. rewrite Hw2, H32, Hb2 by lia. done.
  - intros i b Hi. fold a. pose proof (lookup_lt_Some _ _ _ Hi). rewrite Hw2, H32 by lia. by apply Hb1.
  - eapply holds_frame; [|apply (holds_poke arch lo hi Hclear m2); lia].
    intros c Hc. fold a in Hc. by apply Hw2; lia.
  - exact Hw1.
  - intros c Hc. rewrite Hw2, H32, Hb2 by lia. unfold m1. rewrite (byte_poke arch lo hi Hclear) by lia.
    destruct (Z.leb_spec a c), (Z.ltb_spec c (a + 4)); try done. lia.
Qed.

(** [load] of a slot that holds a program. *)
Lemma load_held idx name words name_out words_out m : (idx < MAX_PROGRAMS)%nat -> storable name words ->
  slot_holds m idx name words -> (length name <= length name_out)%nat ->
  load arch pstore_base pstore_top idx name_out words_out m =
    if (length words_out <? length words)%nat then (Err TooLarge, copy_prefix name_out name, words_out, m)
    else (Ok (length words), copy_prefix name_out name, copy_prefix words_out words, m).
Proof.
  intros Hidx [Hname Hname8 Hwords Hwords32] [Hlen Hnm Hcnt Hwd] Hno.
  destruct (slot_window idx Hidx) as [Hlo Hhi]. pose proof stride_val as Hst.
  unfold load. rewrite slot_addr_some by done. unfold STORE_NAME_MAX, SLOT_WORDS in *. set (a := slot_start idx) in *.
  rewrite (holds_peek arch lo hi Hclear m a (Z.of_nat (length name))) by (try done; unfold u32, M32; lia).
  destruct (Z.eqb_spec (Z.of_nat (length name)) 0), (Z.ltb_spec (Z.of_nat 16) (Z.of_nat (length name))); try lia.
  cbn [orb]. rewrite Nat2Z.id. rewrite (load_items_spec arch _ 1 name name_out (a + 4) m).
  2: { intros i b Hi. pose proof (lookup_lt_Some _ _ _ Hi). rewrite (peek_bytes arch lo hi Hclear) by lia.
       eexists. split; [done|]. rewrite Z.mul_1_l, (Hnm i b Hi).
       rewrite Forall_lookup in Hname8. pose proof (Hname8 _ _ Hi) as Hb. unfold u8 in Hb.
       Z.to_euclidean_division_equations. lia. }
  2: done.
  rewrite (holds_peek arch lo hi Hclear m (a + 20) (Z.of_nat (length words))) by (try done; unfold u32, M32; lia).
  destruct (Z.ltb_spec (Z.of_nat 64) (Z.of_nat (length words))); [lia|]. cbn [orb]. rewrite Nat2Z.id.
  destruct (Z.ltb_spec (Z.of_nat (length words_out)) (Z.of_nat (length words))), (Nat.ltb_spec (length words_out) (length words));
    try lia; [done|].
  rewrite (load_items_spec arch _ 4 words words_out (a + 24) m); [done| |done].
  intros i w Hi. pose proof (lookup_lt_Some _ _ _ Hi). exists w. split; [|done]. rewrite Forall_lookup in Hwords32.
  apply (holds_peek arch lo hi Hclear); [lia|by eapply Hwords32|by apply Hwd].
Qed.

(** Slots of bodies of up to 63 words do not meet. *)
Lemma slot_bytes_disjoint i j n k c : (i < MAX_PROGRAMS)%nat -> (j < MAX_PROGRAMS)%nat -> i <> j ->
  (n < SLOT_WORDS)%nat -> (k < SLOT_WORDS)%nat -> slot_bytes i n c -> ~ slot_bytes j k c.
Proof. unfold slot_bytes, slot_start, SLOT_STRIDE, SLOT_WORDS. intros. lia. Qed.

(** Saved programs come back: after [save] into a slot of byte-addressed
    memory, [load] of that slot returns the word count and fills the caller's
    buffers with exactly the name and the words, for every name of 1 to 16 bytes
    and every body of up to 64 words; and a body of at most 63 words leaves every
    byte of every other slot as it was. *)
Theorem pstore_roundtrip (m : Machine B) (idx : nat) (name words name_out words_out : list Z) :
  (idx < MAX_PROGRAMS)%nat -> storable name words ->
  (length name <= length name_out)%nat -> (length words <= length words_out)%nat ->
  exists m', save arch pstore_base pstore_top idx name words m = (Ok tt, m') /\
    load arch pstore_base pstore_top idx name_out words_out m' =
      (Ok (length words), copy_prefix name_out name, copy_prefix words_out words, m') /\
    ((length words < SLOT_WORDS)%nat -> forall j, (j < MAX_PROGRAMS)%nat -> j <> idx ->
       forall c, slot_start j <= c < slot_start j + SLOT_STRIDE -> byte_at m' c = byte_at m c).
Proof.
  intros Hidx Hst Hno Hwo. destruct (save_layout idx name words m Hidx Hst) as (m' & Es & Hh & Hframe).
  exists m'. split; [exact Es|]. split.
  - rewrite (load_held idx name words) by done. destruct (Nat.ltb_spec (length words_out) (length words)); [lia|done].
  - intros Hlt j Hj Hne c Hc. apply Hframe. unfold slot_bytes, slot_start, SLOT_WORDS, SLOT_STRIDE in *.
    destruct (Nat.lt_trichotomy j idx) as [?|[?|?]]; lia.
Qed.

End Roundtrip.

Definition ram_machine : Machine (gmap Z Z) := boot_machine ∅.

Lemma pstore_roundtrip_witness :
  exists m', save Arm 0x2001A000 0x2001B000 2 (bytes "blink") [257; 5; 289] ram_machine = (Ok tt, m') /\
    load Arm 0x2001A000 0x2001B000 2 (replicate 16 0) (replicate 64 0) m' =
      (Ok 3%nat, copy_prefix (replicate 16 0) (bytes "blink"), copy_prefix (replicate 64 0) [257; 5; 289], m') /\
    ((3 < SLOT_WORDS)%nat -> forall j, (j < MAX_PROGRAMS)%nat -> j <> 2%nat ->
       forall c, slot_start 0x2001A000 j <= c < slot_start 0x2001A000 j + SLOT_STRIDE ->
       byte_at 0x2001A000 (0x2001A000 + 8 * SLOT_STRIDE + 3) m' c =
         byte_at 0x2001A000 (0x2001A000 + 8 * SLOT_STRIDE + 3) ram_machine c).
Proof.
  apply (pstore_roundtrip Arm 0x2001A000 0x2001B000 ltac:(lia) ltac:(unfold SLOT_STRIDE, M32; lia)
    ltac:(right; unfold SLOT_STRIDE; cbn; lia) ram_machine 2 (bytes "blink") [257; 5; 289]).
  - unfold MAX_PROGRAMS. lia.
  - constructor.
    + cbn. unfold STORE_NAME_MAX. lia.
    + repeat constructor; vm_compute; intuition discriminate.
    + cbn. unfold SLOT_WORDS. lia.
    + repeat constructor; vm_compute; intuition discriminate.
  - cbn. lia.
  - cbn. lia.
Defined.

(** Slots overlap by three bytes: the stride counts one byte for the name
    length where the layout uses four, so a 64-word program, which [save]
    accepts, overwrites the next slot's name length, and a program stored
    there is no longer found. *)
Theorem pstore_slots_overlap :
  let save' i n w m := snd (save Arm 0x2001A000 0x2001B000 i n w m) in
  let load' i m := fst (fst (fst (load Arm 0x2001A000 0x2001B000 i (replicate 16 0) (replicate 64 0) m))) in
  let m1 := save' 1%nat (bytes "b") [7] ram_machine in
  let m2 := save' 0%nat (bytes "a") (replicate 64 0xFFFFFFFF) m1 in
  load' 1%nat m1 = Ok 1%nat /\ load' 1%nat m2 = Err NotFound.
Proof. vm_compute. done. Qed.
