(* ===== verification/Drivers.v ===== *)
(** * Drivers: PWM, SPI, flash and timer as bus programs
    (src/drivers/pwm.rs, spi.rs, flash.rs, timer.rs)

    A driver entry point is a program over the machine ([Dev]): it reads and
    writes device registers through [peek_u32] and [poke_u32]. Busy waits take
    fuel; a run whose device does not become ready in that many polls ends with
    no result in the machine it has reached, so that what a driver did before
    and while waiting is part of its meaning. [Traced] records the loads and
    stores a program makes on any bus, so that a driver's theorem can say
    exactly which accesses it performs, in which order, in completed and in
    waiting runs. *)
From S2P Require Import Prelude Registry AuditRing Memory.
Local Open Scope Z_scope.
Local Open Scope u32_scope.

(** ** Device programs *)
Definition Dev (B A : Type) : Type := Machine B -> option A * Machine B.

#[export] Instance dev_ret B : MRet (Dev B) := fun A a m => (Some a, m).
#[export] Instance dev_bind B : MBind (Dev B) := fun A A' k d m =>
  match d m with (Some a, m') => k a m' | (None, m') => (None, m') end.

Section Programs.
Context {B : Type} `{Bus B} (arch : Arch) (spin : nat).

Definition dpeek (addr : Z) : Dev B Z := fun m => let (v, m') := peek_u32 arch addr m in (Some v, m').
Definition dpoke (addr value : Z) : Dev B unit := fun m => (Some tt, poke_u32 arch addr value m).

(** [while !ready(peek(addr)) {}], [n] polls of it; the last value read, or no
    value when the wait goes on. *)
Fixpoint poll_until (n : nat) (addr : Z) (ready : Z -> bool) : Dev B Z :=
  match n with
  | O => fun m => (None, m)
  | S n' => v ← dpeek addr; if ready v then mret v else poll_until n' addr ready
  end.

(** ** PWM (pwm.rs) *)
Definition TIM2_BASE : Z := match arch with Riscv32 => 0x10015000 | Arm => 0x40000000 end.
Definition TIM_CR1 : Z := TIM2_BASE.
Definition TIM_DIER : Z := TIM2_BASE + 0x0C.
Definition TIM_SR : Z := TIM2_BASE + 0x10.
Definition TIM_PSC : Z := TIM2_BASE + 0x28.
Definition TIM_ARR : Z := TIM2_BASE + 0x2C.
Definition TIM_CCMR1 : Z := TIM2_BASE + 0x18.
Definition TIM_CCER : Z := TIM2_BASE + 0x20.
Definition TIM_CCR1 : Z := TIM2_BASE + 0x34.
Definition APB1ENR : Z := 0x40023800 + 0x40.
Definition TIM2EN : Z := bit32 0.

Definition pwm_enable_clock : Dev B unit :=
  match arch with
  | Arm => apb1 ← dpeek APB1ENR; dpoke APB1ENR (Z.lor apb1 TIM2EN)
  | Riscv32 => mret tt
  end.

Definition pwm_configure (period_ticks duty_ticks : Z) : Dev B (Z * Z) :=
  pwm_enable_clock ;;
  dpoke TIM_CR1 0 ;;
  dpoke TIM_PSC 0 ;;
  dpoke TIM_ARR period_ticks ;;
  ccmr ← dpeek TIM_CCMR1;
  dpoke TIM_CCMR1 (Z.lor (Z.land ccmr (u32_not 0x007F)) (Z.shiftl 6 4)) ;;
  ccer ← dpeek TIM_CCER;
  dpoke TIM_CCER (Z.lor ccer (bit32 0)) ;;
  dpoke TIM_CCR1 duty_ticks ;;
  dpoke TIM_CR1 1 ;;
  mret (period_ticks, duty_ticks).

Definition pwm_set_duty (duty_ticks : Z) : Dev B unit := dpoke TIM_CCR1 duty_ticks.

Definition pwm_snapshot : Dev B (Z * Z * Z) :=
  arr ← dpeek TIM_ARR; ccr1 ← dpeek TIM_CCR1; cr1 ← dpeek TIM_CR1; mret (arr, ccr1, cr1).

(** ** SPI (spi.rs) *)
Definition SPI1_BASE : Z := match arch with Riscv32 => 0x10014000 | Arm => 0x40013000 end.
Definition SPI_CTRL : Z := SPI1_BASE.
Definition SPI_TXDATA : Z := SPI1_BASE + 0x18.
Definition SPI_RXDATA : Z := SPI1_BASE + 0x20.
Definition SPI_CR1 : Z := SPI1_BASE.
Definition SPI_SR : Z := SPI1_BASE + 0x08.
Definition SPI_DR : Z := SPI1_BASE + 0x0C.
Definition APB2ENR : Z := 0x40023800 + 0x44.
Definition SPI1EN : Z := bit32 12.
Definition SPI_SR_TXE : Z := bit32 1.
Definition SPI_SR_RXNE : Z := bit32 0.

Definition spi_enable_clock : Dev B unit :=
  match arch with
  | Arm => apb2 ← dpeek APB2ENR; dpoke APB2ENR (Z.lor apb2 SPI1EN)
  | Riscv32 => mret tt
  end.

Definition spi_configure (br_div_log2 : Z) : Dev B unit :=
  spi_enable_clock ;;
  match arch with
  | Riscv32 => dpoke SPI_CTRL (u32_shl (Z.land br_div_log2 0x7) 16)
  | Arm =>
      let cr1 := Z.lor (bit32 2) (u32_shl (Z.land br_div_log2 0x7) 3) in
      dpoke SPI_CR1 cr1 ;; dpoke SPI_CR1 (Z.lor cr1 (bit32 6))
  end.

Definition spi_transfer_byte (byte : Z) : Dev B Z :=
  match arch with
  | Riscv32 =>
      dpoke SPI_TXDATA byte ;;
      rx ← poll_until spin SPI_RXDATA (fun rx => Z.land rx (bit32 31) =? 0);
      mret (Z.land rx 0xFF)
  | Arm =>
      poll_until spin SPI_SR (fun sr => negb (Z.land sr SPI_SR_TXE =? 0)) ;;
      dpoke SPI_DR byte ;;
      poll_until spin SPI_SR (fun sr => negb (Z.land sr SPI_SR_RXNE =? 0)) ;;
      rx ← dpeek SPI_DR;
      mret (Z.land rx 0xFF)
  end.

Definition spi_snapshot : Dev B (Z * Z) :=
  match arch with
  | Riscv32 => ctrl ← dpeek SPI_CTRL; tx ← dpeek SPI_TXDATA; mret (ctrl, tx)
  | Arm => cr1 ← dpeek SPI_CR1; sr ← dpeek SPI_SR; mret (cr1, sr)
  end.

(** ** Flash (flash.rs) *)
Definition FLASH_BASE : Z := 0x08000000.
Definition STORE_BASE : Z := FLASH_BASE + 0x1C000.
Definition FLASH_KEYR : Z := 0x40023C04.
Definition FLASH_SR : Z := 0x40023C0C.
Definition FLASH_CR : Z := 0x40023C10.
Definition KEY1 : Z := 0x45670123.
Definition KEY2 : Z := 0xCDEF89AB.
Definition CR_LOCK : Z := bit32 31.
Definition CR_PG : Z := bit32 0.
Definition CR_SER : Z := bit32 1.
Definition CR_STRT : Z := bit32 16.
Definition SR_BSY : Z := bit32 16.

Definition wait_not_busy : Dev B Z := poll_until spin FLASH_SR (fun sr => Z.land sr SR_BSY =? 0).

Definition flash_unlock : Dev B unit :=
  cr ← dpeek FLASH_CR;
  if negb (Z.land cr CR_LOCK =? 0) then dpoke FLASH_KEYR KEY1 ;; dpoke FLASH_KEYR KEY2 else mret tt.

Definition flash_lock : Dev B unit := cr ← dpeek FLASH_CR; dpoke FLASH_CR (Z.lor cr CR_LOCK).

Definition erase_store_sector (sector_index : Z) : Dev B bool :=
  flash_unlock ;;
  wait_not_busy ;;
  cr ← dpeek FLASH_CR;
  dpoke FLASH_CR (Z.lor (Z.lor (Z.land cr (u32_not (Z.shiftl 0xF 3))) CR_SER)
                        (u32_shl (Z.land sector_index 0xF) 3)) ;;
  cr1 ← dpeek FLASH_CR;
  dpoke FLASH_CR (Z.lor cr1 CR_STRT) ;;
  wait_not_busy ;;
  sr ← dpeek FLASH_SR;
  let ok := Z.land sr (Z.lor (bit32 4) (bit32 5)) =? 0 in
  dpoke FLASH_CR (Z.land cr (u32_not CR_SER)) ;;
  mret ok.

(** The store to flash is a plain volatile write. *)
Definition program_word (byte_off word : Z) : Dev B unit :=
  flash_unlock ;;
  wait_not_busy ;;
  cr ← dpeek FLASH_CR;
  dpoke FLASH_CR (Z.lor cr CR_PG) ;;
  dpoke (STORE_BASE +w byte_off) word ;;
  wait_not_busy ;;
  cr1 ← dpeek FLASH_CR;
  dpoke FLASH_CR (Z.land cr1 (u32_not CR_PG)).

Definition flash_self_test : Dev B bool :=
  flash_unlock ;;
  erase_store_sector 11 ;;
  program_word 0 0xCAFEF00D ;;
  v ← dpeek STORE_BASE;
  flash_lock ;;
  mret (v =? 0xCAFEF00D).

(** ** Timer (timer.rs) *)
Definition timer_systick_reload (f_cpu_hz delta_ms : Z) : Z := (f_cpu_hz / 1000) *w delta_ms.
Definition STK_CTRL : Z := 0xE000E010.
Definition STK_LOAD : Z := 0xE000E014.
Definition STK_VAL : Z := 0xE000E018.
Definition CTRL_BITS : Z := Z.lor (Z.lor 0x01 0x02) 0x04.

(** [arm::configure]; the RISC-V variant only fences. *)
Definition timer_configure (ticks : Z) : Dev B unit :=
  match arch with
  | Arm => dpoke STK_LOAD ticks ;; dpoke STK_VAL 0 ;; dpoke STK_CTRL CTRL_BITS
  | Riscv32 => mret tt
  end.
End Programs.

(** ** Traces *)
Inductive Access := Ld (a v : Z) | St (a v : Z).
#[export] Instance Access_eq_dec : EqDecision Access.
Proof. solve_decision. Defined.

Definition acc_addr (e : Access) : Z := match e with Ld a _ | St a _ => a end.
Definition is_store (e : Access) : bool := match e with Ld _ _ => false | St _ _ => true end.

(** A bus that records its 32-bit accesses, the latest last. *)
Record Traced (B : Type) := { tr_bus : B; tr_log : list Access }.
Arguments tr_bus {B} _.
Arguments tr_log {B} _.

#[export] Instance traced_bus {B} `{Bus B} : Bus (Traced B) := {
  bus_read a b := let (v, b') := bus_read a (tr_bus b) in
                  (v, {| tr_bus := b'; tr_log := tr_log b ++ [Ld a v] |});
  bus_write a v b := {| tr_bus := bus_write a v (tr_bus b); tr_log := tr_log b ++ [St a v] |};
  bus_mcycle b := let (v, b') := bus_mcycle (tr_bus b) in (v, {| tr_bus := b'; tr_log := tr_log b |});
}.

Section TraceLogic.
Context {B : Type} `{Bus B} (arch : Arch).
Implicit Type m : Machine (Traced B).

Definition log_of m : list Access := tr_log (m_bus m).

(** Every run of [d] adds a trace to the log and leaves registry and audit log
    alone: the trace of a completed run satisfies [P] with its result, that of
    a run left waiting satisfies [W]. *)
Definition does {A} (d : Dev (Traced B) A) (P : A -> list Access -> Prop) (W : list Access -> Prop) : Prop :=
  forall m, let (r, m') := d m in
    m_regs m' = m_regs m /\ m_audit m' = m_audit m /\
    exists t, log_of m' = log_of m ++ t /\ match r with Some a => P a t | None => W t end.

(** No run is left waiting. *)
Definition never (_ : list Access) : Prop := False.

Lemma does_mono {A} (d : Dev (Traced B) A) (P Q : A -> list Access -> Prop) (W W' : list Access -> Prop) :
  does d P W -> (forall a t, P a t -> Q a t) -> (forall t, W t -> W' t) -> does d Q W'.
Proof.
  intros Hd Hpq Hw m. specialize (Hd m). destruct (d m) as [[a|] m']; destruct Hd as (? & ? & t & ? & ?); eauto 8.
Qed.

Lemma does_ret {A} (a : A) : does (mret a) (fun b t => b = a /\ t = []) never.
Proof. intros m. split_and!; [done|done|]. exists []. by rewrite app_nil_r. Qed.

(** Follow a program step by step. *)
Lemma does_step {A A'} (d : Dev (Traced B) A) (k : A -> Dev (Traced B) A') P W1 R W :
  does d P W1 -> (forall t, W1 t -> W t) ->
  (forall a t1, P a t1 -> does (k a) (fun b t2 => R b (t1 ++ t2)) (fun t2 => W (t1 ++ t2))) -> does (d ≫= k) R W.
Proof.
  intros Hd Hw Hk m. unfold mbind, dev_bind. specialize (Hd m). destruct (d m) as [[a|] m1].
  - destruct Hd as (R1 & A1 & t1 & L1 & P1). specialize (Hk a t1 P1 m1). destruct (k a m1) as [r m2].
    destruct Hk as (R2 & A2 & t2 & L2 & Q2). split; [congruence|]. split; [congruence|].
    exists (t1 ++ t2). split; [by rewrite L2, L1, app_assoc|exact Q2].
  - destruct Hd as (R1 & A1 & t1 & L1 & P1). eauto 8.
Qed.

Lemma does_peek a : reg_slot arch a = None -> does (dpeek arch a) (fun v t => t = [Ld a v]) never.
Proof.
  intros Hs m. unfold dpeek, peek_u32. rewrite Hs. cbn. destruct (bus_read a (tr_bus (m_bus m))) as [w b]. cbn. eauto 8.
Qed.

Lemma does_poke a v : reg_slot arch a = None -> does (dpoke arch a v) (fun _ t => t = [St a v]) never.
Proof. intros Hs m. unfold dpoke, poke_u32. rewrite Hs. cbn. eauto 8. Qed.

(** A wait polls the register until it is ready; while it goes on, all it has
    done is to poll. *)
Definition polled (a : Z) (ready : Z -> bool) (v : Z) (t : list Access) : Prop :=
  exists busy, Forall (fun w => ready w = false) busy /\ ready v = true /\ t = map (Ld a) busy ++ [Ld a v].

Definition waiting (a : Z) (ready : Z -> bool) (t : list Access) : Prop :=
  exists busy, Forall (fun w => ready w = false) busy /\ t = map (Ld a) busy.

Lemma does_poll n a ready : reg_slot arch a = None ->
  does (poll_until arch n a ready) (polled a ready) (waiting a ready).
Proof.
  intros Hs. induction n as [|n IH].
  { intros m. split_and!; [done|done|]. exists []. rewrite app_nil_r. split; [done|]. by exists []. }
  cbn [poll_until]. eapply does_step; [by apply does_peek|by intros ? []|]. intros w t ->. destruct (ready w) eqn:E.
  - eapply does_mono; [apply does_ret| |by intros ? []]. intros v t (-> & ->). exists []. eauto.
  - eapply does_mono; [apply IH| |].
    + intros v t (busy & Hb & Hv & ->). exists (w :: busy). split; [by constructor|]. done.
    + intros t (busy & Hb & ->). exists (w :: busy). split; [by constructor|]. done.
Qed.
End TraceLogic.

(** Run through the straight-line part of a program. *)
Ltac no_slot := first [reflexivity | match goal with a : Arch |- _ => destruct a; reflexivity end].
Ltac access :=
  eapply does_step; [first [apply does_peek | apply does_poke]; no_slot|by intros ? []|];
  let H := fresh in intros ? ? H; try (rewrite H; clear H).
Ltac wait := eapply does_step; [apply does_poll; no_slot| |].
Ltac finish :=
  eapply does_mono; [first [apply does_ret | apply does_poke; no_slot | apply does_peek; no_slot]| |by intros ? []];
  let H := fresh in intros ? ? H; first [destruct H as (-> & ->) | rewrite H; clear H].

Section DriverTraces.
Context {B : Type} `{Bus B} (arch : Arch) (spin : nat).

(** A read-modify-write of a clock-enable register, on ARM only. *)
Definition clock_gate (a mask : Z) (t : list Access) : Prop :=
  match arch with Arm => exists v, t = [Ld a v; St a (Z.lor v mask)] | Riscv32 => t = [] end.

Lemma pwm_clock_does : does (B := B) (pwm_enable_clock arch) (fun _ => clock_gate APB1ENR TIM2EN) never.
Proof.
  unfold pwm_enable_clock, clock_gate. destruct arch; [|eapply does_mono; [apply does_ret|by intros ? ? (_ & ->)|done]].
  access. finish. eauto.
Qed.

Lemma spi_clock_does : does (B := B) (spi_enable_clock arch) (fun _ => clock_gate APB2ENR SPI1EN) never.
Proof.
  unfold spi_enable_clock, clock_gate. destruct arch; [|eapply does_mono; [apply does_ret|by intros ? ? (_ & ->)|done]].
  access. finish. eauto.
Qed.

Lemma pwm_configure_does p d :
  does (B := B) (pwm_configure arch p d) (fun r t => r = (p, d) /\ exists gate ccmr ccer,
    clock_gate APB1ENR TIM2EN gate /\
    t = gate ++ [St (TIM_CR1 arch) 0; St (TIM_PSC arch) 0; St (TIM_ARR arch) p;
      Ld (TIM_CCMR1 arch) ccmr; St (TIM_CCMR1 arch) (Z.lor (Z.land ccmr (u32_not 0x7F)) 0x60);
      Ld (TIM_CCER arch) ccer; St (TIM_CCER arch) (Z.lor ccer 1);
      St (TIM_CCR1 arch) d; St (TIM_CR1 arch) 1]) never.
Proof.
  unfold pwm_configure. eapply does_step; [apply pwm_clock_does|by intros ? []|]. intros ? gate Hg.
  do 9 access. finish. split; [done|]. exists gate. eauto.
Qed.

Lemma spi_configure_does div :
  does (B := B) (spi_configure arch div) (fun _ t => exists gate,
    clock_gate APB2ENR SPI1EN gate /\
    t = gate ++ match arch with
      | Riscv32 => [St (SPI_CTRL arch) (u32_shl (Z.land div 7) 16)]
      | Arm => let cr1 := Z.lor 4 (u32_shl (Z.land div 7) 3) in
               [St (SPI_CR1 arch) cr1; St (SPI_CR1 arch) (Z.lor cr1 64)]
      end) never.
Proof.
  unfold spi_configure. eapply does_step; [apply spi_clock_does|by intros ? []|]. intros ? gate Hg.
  destruct arch.
  - access. finish. by exists gate.
  - finish. by exists gate.
Qed.

Definition spi_tx_ready (v : Z) : bool := negb (Z.land v SPI_SR_TXE =? 0).
Definition spi_rx_ready (v : Z) : bool :=
  match arch with Arm => negb (Z.land v SPI_SR_RXNE =? 0) | Riscv32 => Z.land v (bit32 31) =? 0 end.

Definition spi_exchange (byte r : Z) (t : list Access) : Prop :=
  match arch with
  | Arm => exists tx rx sr sr' data,
      polled (SPI_SR arch) spi_tx_ready sr tx /\ polled (SPI_SR arch) spi_rx_ready sr' rx /\
      t = tx ++ [St (SPI_DR arch) byte] ++ rx ++ [Ld (SPI_DR arch) data] /\ r = Z.land data 0xFF
  | Riscv32 => exists rx data,
      polled (SPI_RXDATA arch) spi_rx_ready data rx /\
      t = [St (SPI_TXDATA arch) byte] ++ rx /\ r = Z.land data 0xFF
  end.

(** A transfer left waiting, for the transmitter or for the answer. *)
Definition spi_waiting (byte : Z) (t : list Access) : Prop :=
  match arch with
  | Arm =>
      waiting (SPI_SR arch) spi_tx_ready t \/
      exists tx sr rx, polled (SPI_SR arch) spi_tx_ready sr tx /\ waiting (SPI_SR arch) spi_rx_ready rx /\
        t = tx ++ [St (SPI_DR arch) byte] ++ rx
  | Riscv32 => exists rx, waiting (SPI_RXDATA arch) spi_rx_ready rx /\ t = [St (SPI_TXDATA arch) byte] ++ rx
  end.

Lemma spi_transfer_does byte :
  does (B := B) (spi_transfer_byte arch spin byte) (spi_exchange byte) (spi_waiting byte).
Proof.
  unfold spi_transfer_byte, spi_exchange, spi_waiting, spi_rx_ready. destruct arch.
  - wait; [intros t Ht; by left|intros sr tx Htx]. access.
    wait; [intros rx Hrx; right; by exists tx, sr, rx|intros sr' rx Hrx]. access. finish.
    exists tx, rx, sr, sr'. eauto.
  - access. wait; [intros rx Hrx; by exists rx|intros data rx Hrx]. finish.
    exists rx, data. by rewrite app_nil_r.
Qed.

Lemma polls_no_store a busy : List.filter is_store (map (Ld a) busy) = [].
Proof. induction busy as [|w busy IH]; [done|exact IH]. Qed.

Lemma polled_no_store a ready v t : polled a ready v t -> List.filter is_store t = [].
Proof. intros (busy & _ & _ & ->). by rewrite filter_app, polls_no_store. Qed.

Lemma waiting_no_store a ready t : waiting a ready t -> List.filter is_store t = [].
Proof. intros (busy & _ & ->). apply polls_no_store. Qed.

(** One SPI transfer is one exchange, whatever the device answers. A call that
    returns has polled the transmitter until it was ready (ARM), written the
    byte exactly once, polled the receiver until data was there, and returned
    the low byte of the one data word it then read, with no other access in
    between; a call left waiting has made the first part of that, and written
    the byte at most once. *)
Theorem spi_transfer_trace (byte : Z) :
  does (B := B) (spi_transfer_byte arch spin byte)
    (fun r t => spi_exchange byte r t /\ exists a, List.filter is_store t = [St a byte])
    (fun t => spi_waiting byte t /\ (length (List.filter is_store t) <= 1)%nat).
Proof.
  eapply does_mono; [apply spi_transfer_does| |].
  - intros r t Ht. split; [done|]. unfold spi_exchange in Ht. destruct arch.
    + destruct Ht as (tx & rx & sr & sr' & data & Htx & Hrx & -> & _). exists (SPI_DR Arm).
      rewrite !filter_app, (polled_no_store _ _ _ _ Htx), (polled_no_store _ _ _ _ Hrx). done.
    + destruct Ht as (rx & data & Hrx & -> & _). exists (SPI_TXDATA Riscv32).
      rewrite filter_app, (polled_no_store _ _ _ _ Hrx). done.
  - intros t Ht. split; [done|]. unfold spi_waiting in Ht. destruct arch.
    + destruct Ht as [Hw|(tx & sr & rx & Htx & Hrx & ->)]; [rewrite (waiting_no_store _ _ _ Hw); cbn; lia|].
      rewrite !filter_app, (polled_no_store _ _ _ _ Htx), (waiting_no_store _ _ _ Hrx). done.
    + destruct Ht as (rx & Hrx & ->). rewrite filter_app, (waiting_no_store _ _ _ Hrx). done.
Qed.

(** ** Confinement *)
Definition confined (c : CapId) (gate : Z) (t : list Access) : Prop :=
  Forall (fun e => addr_to_cap_id arch (acc_addr e) = Some c \/ arch = Arm /\ acc_addr e = gate) t.

Lemma gate_confined c a mask t : clock_gate a mask t -> confined c a t.
Proof.
  unfold clock_gate, confined. destruct arch.
  - intros (v & ->). constructor; [by right|]. constructor; [by right|constructor].
  - intros ->. constructor.
Qed.

Lemma polls_confined c gate a busy : addr_to_cap_id arch a = Some c -> confined c gate (map (Ld a) busy).
Proof. intros Ha. apply list.Forall_forall. intros e (w & <- & _)%list_elem_of_In%in_map_iff. by left. Qed.

Lemma polled_confined c gate a ready v t :
  addr_to_cap_id arch a = Some c -> polled a ready v t -> confined c gate t.
Proof.
  intros Ha (busy & _ & _ & ->). apply Forall_app. split; [by apply polls_confined|].
  constructor; [by left|constructor].
Qed.

Lemma waiting_confined c gate a ready t :
  addr_to_cap_id arch a = Some c -> waiting a ready t -> confined c gate t.
Proof. intros Ha (busy & _ & ->). by apply polls_confined. Qed.

End DriverTraces.

Ltac in_window := repeat (constructor; [left; no_slot|]); constructor.

Ltac poll_in H := first [eapply polled_confined; [|exact H]; reflexivity | eapply waiting_confined; [|exact H]; reflexivity].

Section Confinement.
Context {B : Type} `{Bus B} (arch : Arch) (spin : nat).

(** Every run of a driver, completed or left waiting, accesses its window and
    nothing else but the clock gate. *)
Definition stays {A} (c : CapId) (gate : Z) (d : Dev (Traced B) A) : Prop :=
  does d (fun _ => confined arch c gate) (confined arch c gate).

(** C33. The drivers stay inside their capability: every load and store of the
    PWM entry points lies in the Timer0 window and every one of the SPI entry
    points in the Spi0 window, on both targets, for every device behaviour and
    in every run, the runs in which an SPI transfer waits for a device that
    does not become ready included; registry and audit log are left alone. The
    single exception is the ARM clock-enable register, which belongs to no
    window and which [check_access] refuses to everyone but SuperUser. *)
Theorem drivers_confined (p d div byte : Z) :
  stays Timer0 APB1ENR (pwm_configure arch p d) /\
  stays Timer0 APB1ENR (pwm_set_duty arch d) /\
  stays Timer0 APB1ENR (pwm_snapshot arch) /\
  stays Spi0 APB2ENR (spi_configure arch div) /\
  stays Spi0 APB2ENR (spi_transfer_byte arch spin byte) /\
  stays Spi0 APB2ENR (spi_snapshot arch) /\
  forall r, is_superuser_active r = false ->
    check_access Arm r APB1ENR = Err SuperUser /\ check_access Arm r APB2ENR = Err SuperUser.
Proof.
  unfold stays. split_and!.
  - eapply does_mono; [apply pwm_configure_does| |by intros ? []]. intros ? t (_ & gate & v & w & Hg & ->).
    apply Forall_app. split; [by eapply gate_confined|in_window].
  - eapply does_mono; [apply does_poke; by destruct arch|intros ? ? ->; in_window|by intros ? []].
  - unfold pwm_snapshot. do 3 access. finish. in_window.
  - eapply does_mono; [apply spi_configure_does| |by intros ? []]. intros ? t (gate & Hg & ->).
    apply Forall_app. split; [by eapply gate_confined|]. destruct arch; in_window.
  - eapply does_mono; [apply spi_transfer_does| |].
    + intros r t Ht. unfold spi_exchange in Ht. destruct arch.
      * destruct Ht as (tx & rx & sr & sr' & data & Htx & Hrx & -> & _).
        repeat (apply Forall_app; split); [poll_in Htx|in_window|poll_in Hrx|in_window].
      * destruct Ht as (rx & data & Hrx & -> & _).
        apply Forall_app; split; [in_window|poll_in Hrx].
    + intros t Ht. unfold spi_waiting in Ht. destruct arch.
      * destruct Ht as [Hw|(tx & sr & rx & Htx & Hrx & ->)]; [poll_in Hw|].
        repeat (apply Forall_app; split); [poll_in Htx|in_window|poll_in Hrx].
      * destruct Ht as (rx & Hrx & ->). apply Forall_app; split; [in_window|poll_in Hrx].
  - unfold spi_snapshot. destruct arch; do 2 access; finish; in_window.
  - intros r Hr. unfold check_access. by rewrite Hr.
Qed.
End Confinement.

(** ** Flash programming *)
(** A constant register bit fits its word. *)
Ltac bit_u32 := unfold u32, M32; vm_compute; split; [discriminate|reflexivity].

Section Flash.
Context {B : Type} `{Bus B} (arch : Arch) (spin : nat).

(** The two keys are written exactly when the controller reads as locked. *)
Definition unlocking (t : list Access) : Prop :=
  exists cr, t = Ld FLASH_CR cr ::
    if Z.land cr CR_LOCK =? 0 then [] else [St FLASH_KEYR KEY1; St FLASH_KEYR KEY2].

Definition not_busy (t : list Access) : Prop :=
  exists sr, polled FLASH_SR (fun sr => Z.land sr SR_BSY =? 0) sr t.

Definition still_busy (t : list Access) : Prop := waiting FLASH_SR (fun sr => Z.land sr SR_BSY =? 0) t.

Lemma unlock_does : does (B := B) (flash_unlock arch) (fun _ => unlocking) never.
Proof.
  unfold flash_unlock, unlocking. access.
  match goal with |- context [Ld FLASH_CR ?v] => rename v into cr end.
  destruct (Z.land cr CR_LOCK =? 0) eqn:E; cbn [negb].
  - finish. exists cr. by rewrite E.
  - access. finish. exists cr. by rewrite E.
Qed.

Lemma store_no_slot off : 0 <= off < 16384 -> reg_slot arch (STORE_BASE +w off) = None.
Proof.
  intros Ho. unfold reg_slot, STORE_BASE, FLASH_BASE, u32_add, wrap32, M32.
  rewrite Z.mod_small by lia. unfold CAPREG_BASE.
  destruct arch; destruct (Z.leb_spec 0 (0x08000000 + 0x1C000 + off - 0x20001000));
    destruct (Z.leb_spec 0 (0x08000000 + 0x1C000 + off - 0x80001800)); try lia; done.
Qed.

(** The first half of the protocol: the program bit raised on an idle controller,
    and the store. *)
Definition programmed (byte_off word : Z) (t : list Access) : Prop :=
  exists keys idle cr, unlocking keys /\ not_busy idle /\
    t = keys ++ idle ++ [Ld FLASH_CR cr; St FLASH_CR (Z.lor cr CR_PG); St (STORE_BASE + byte_off) word].

(** C34. Programming a flash word follows the controller's protocol in every
    run. A run that returns has written the keys only to a locked controller,
    raised the program bit only after the busy flag was seen clear, made the
    one store into the flash array to the requested word while the bit was
    raised, and lowered the bit only after the flag was seen clear again. A run
    left waiting has either unlocked and polled a busy controller, with neither
    program bit nor store, or made the first half of the protocol and polled a
    busy controller since. *)
Theorem flash_program_protocol (byte_off word : Z) :
  0 <= byte_off < 16384 ->
  does (B := B) (program_word arch spin byte_off word)
    (fun _ t => exists half idle' cr', programmed byte_off word half /\ not_busy idle' /\
       t = half ++ idle' ++ [Ld FLASH_CR cr'; St FLASH_CR (Z.land cr' (u32_not CR_PG))])
    (fun t => exists before busy, (unlocking before \/ programmed byte_off word before) /\ still_busy busy /\
       t = before ++ busy).
Proof.
  intros Ho. pose proof (store_no_slot byte_off Ho) as Hs. unfold program_word, wait_not_busy.
  assert (STORE_BASE +w byte_off = STORE_BASE + byte_off) as Hoff.
  { apply Z.mod_small. unfold STORE_BASE, FLASH_BASE, M32. lia. }
  eapply does_step; [apply unlock_does|by intros ? []|]. intros ? keys Hk.
  wait; [intros busy Hb; exists keys, busy; auto|]. intros sr idle Hi. access. access.
  eapply does_step; [by apply does_poke|by intros ? []|]. intros ? ? ->. rewrite Hoff.
  match goal with |- context [Ld FLASH_CR ?v] => rename v into cr end.
  assert (programmed byte_off word (keys ++ idle ++ [Ld FLASH_CR cr; St FLASH_CR (Z.lor cr CR_PG); St (STORE_BASE + byte_off) word])) as Hp
    by (exists keys, idle, cr; split_and!; [done|by exists sr|done]).
  wait; [intros busy Hb; eexists _, busy; split; [right; exact Hp|split; [exact Hb|by rewrite <- !app_assoc]]|].
  intros sr' idle' Hi'. access. finish.
  eexists _, idle', _. split; [exact Hp|]. split; [by exists sr'|]. by rewrite <- !app_assoc.
Qed.

(** *** On a controller that is ordinary memory

    The registers and the first store word read back what was written, and the
    busy flag is clear. *)
Context `{!BusWidth B} (ram : Z -> Prop) `{!BusRam B ram}.
Hypothesis HKEYR : plain arch ram FLASH_KEYR.
Hypothesis HSR : plain arch ram FLASH_SR.
Hypothesis HCR : plain arch ram FLASH_CR.
Hypothesis HST : plain arch ram STORE_BASE.
Hypothesis Hspin : (0 < spin)%nat.

Definition idle_flash (m : Machine B) : Prop := Z.land (word_at arch m FLASH_SR) SR_BSY = 0.

Lemma run_bind {A A'} (d : Dev B A) (k : A -> Dev B A') m a m1 r :
  d m = (Some a, m1) -> k a m1 = r -> (d ≫= k) m = r.
Proof. intros Hd Hk. unfold mbind, dev_bind. by rewrite Hd. Qed.

Lemma run_peek a m : plain arch ram a -> dpeek arch a m = (Some (word_at arch m a), m).
Proof. intros Hp. unfold dpeek. by rewrite (peek_plain arch ram). Qed.

Lemma run_wait m : idle_flash m -> wait_not_busy arch spin m = (Some (word_at arch m FLASH_SR), m).
Proof.
  intros Hi. unfold wait_not_busy. destruct spin as [|n]; [lia|]. cbn [poll_until].
  eapply run_bind; [by apply run_peek|]. by rewrite (proj2 (Z.eqb_eq _ _) Hi).
Qed.

(** Words other than the one stored keep their value. *)
Lemma keep a c v m : plain arch ram a -> plain arch ram c -> a <> c ->
  word_at arch (poke_u32 arch c v m) a = word_at arch m a.
Proof. by apply (word_at_poke_ne arch ram). Qed.

Lemma run_unlock m : exists m', flash_unlock arch m = (Some tt, m') /\
  forall a, plain arch ram a -> a <> FLASH_KEYR -> word_at arch m' a = word_at arch m a.
Proof.
  unfold flash_unlock. destruct (Z.land (word_at arch m FLASH_CR) CR_LOCK =? 0) eqn:E.
  - exists m. split; [|done]. eapply run_bind; [by apply run_peek|]. by rewrite E.
  - exists (poke_u32 arch FLASH_KEYR KEY2 (poke_u32 arch FLASH_KEYR KEY1 m)). split.
    + eapply run_bind; [by apply run_peek|]. by rewrite E.
    + intros a Ha Hne. by rewrite !keep.
Qed.

Lemma wrote a v m : plain arch ram a -> u32 v -> word_at arch (poke_u32 arch a v m) a = v.
Proof. by apply (word_at_poke_eq arch ram). Qed.

Lemma idle_poke a v m : plain arch ram a -> FLASH_SR <> a -> idle_flash m -> idle_flash (poke_u32 arch a v m).
Proof. intros Ha Hne. unfold idle_flash. by rewrite keep. Qed.

Lemma run_erase sector m : idle_flash m ->
  exists ok m', erase_store_sector arch spin sector m = (Some ok, m') /\ idle_flash m' /\
    word_at arch m' FLASH_CR = Z.land (word_at arch m FLASH_CR) (u32_not CR_SER).
Proof.
  intros Hi. destruct (run_unlock m) as (m1 & Eu & Hk).
  assert (idle_flash m1) as Hi1 by (unfold idle_flash; by rewrite Hk).
  pose proof (word_at_u32 arch ram FLASH_CR m HCR) as Hcr. assert (u32 CR_SER) as Hser by bit_u32.
  eexists _, _. split.
  - unfold erase_store_sector. eapply run_bind; [exact Eu|].
    eapply run_bind; [by apply run_wait|]. eapply run_bind; [by apply run_peek|].
    eapply run_bind; [reflexivity|]. eapply run_bind; [by apply run_peek|].
    eapply run_bind; [reflexivity|].
    eapply run_bind; [apply run_wait; by repeat apply idle_poke|].
    eapply run_bind; [by apply run_peek|]. cbv zeta. eapply run_bind; [reflexivity|]. reflexivity.
  - split; [by repeat apply idle_poke|]. rewrite wrote by auto with hros. by rewrite (Hk FLASH_CR).
Qed.

Lemma run_program word m : idle_flash m -> u32 word ->
  exists m', program_word arch spin 0 word m = (Some tt, m') /\ idle_flash m' /\
    word_at arch m' STORE_BASE = word /\
    word_at arch m' FLASH_CR = Z.land (Z.lor (word_at arch m FLASH_CR) CR_PG) (u32_not CR_PG).
Proof.
  intros Hi Hw. destruct (run_unlock m) as (m1 & Eu & Hk).
  assert (idle_flash m1) as Hi1 by (unfold idle_flash; by rewrite Hk).
  pose proof (word_at_u32 arch ram FLASH_CR m1 HCR) as Hcr.
  assert (u32 CR_PG) as Hpg by bit_u32.
  eexists. split.
  - unfold program_word. change (STORE_BASE +w 0) with STORE_BASE. eapply run_bind; [exact Eu|].
    eapply run_bind; [by apply run_wait|]. eapply run_bind; [by apply run_peek|].
    eapply run_bind; [reflexivity|]. eapply run_bind; [reflexivity|].
    eapply run_bind; [apply run_wait; by repeat apply idle_poke|].
    eapply run_bind; [by apply run_peek|]. reflexivity.
  - split_and!; [by repeat apply idle_poke|rewrite keep by done; by apply wrote|].
    rewrite (keep FLASH_CR STORE_BASE) by done. rewrite (wrote FLASH_CR (Z.lor _ _)) by auto with hros.
    rewrite wrote by auto with hros. by rewrite (Hk FLASH_CR).
Qed.

(** The flash self-test answers true on every controller whose registers
    and store word are ordinary memory and whose busy flag is clear: it returns,
    the marker is in the store, and the controller is left locked with program
    and erase bits down. *)
Theorem flash_self_test_passes (m : Machine B) :
  idle_flash m ->
  exists m', flash_self_test arch spin m = (Some true, m') /\
    word_at arch m' STORE_BASE = 0xCAFEF00D /\
    Z.testbit (word_at arch m' FLASH_CR) 31 = true /\
    Z.testbit (word_at arch m' FLASH_CR) 0 = false /\ Z.testbit (word_at arch m' FLASH_CR) 1 = false.
Proof.
  intros Hi. destruct (run_unlock m) as (m1 & Eu & Hk).
  assert (idle_flash m1) as Hi1 by (unfold idle_flash; by rewrite Hk).
  destruct (run_erase 11 m1 Hi1) as (ok & m2 & Ee & Hi2 & Hcr2).
  destruct (run_program 0xCAFEF00D m2 Hi2) as (m3 & Ep & Hi3 & Hst3 & Hcr3); [unfold u32, M32; lia|].
  exists (poke_u32 arch FLASH_CR (Z.lor (word_at arch m3 FLASH_CR) CR_LOCK) m3). split.
  - unfold flash_self_test. eapply run_bind; [exact Eu|]. eapply run_bind; [exact Ee|].
    eapply run_bind; [exact Ep|]. eapply run_bind; [by apply run_peek|].
    eapply run_bind; [unfold flash_lock; eapply run_bind; [by apply run_peek|reflexivity]|].
    by rewrite Hst3.
  - assert (u32 CR_LOCK) by bit_u32.
    pose proof (word_at_u32 arch ram FLASH_CR m3 HCR). rewrite keep by done. split; [done|].
    rewrite wrote by auto with hros. rewrite !Z.lor_spec, Hcr3, !Z.land_spec, !Z.lor_spec, Hcr2, !Z.land_spec.
    rewrite !(testbit_u32_not CR_PG), !(testbit_u32_not CR_SER) by first [lia | bit_u32].
    unfold CR_LOCK, CR_PG, CR_SER. rewrite !testbit_bit32 by lia.
    split_and!; cbn [Z.eqb Pos.eqb negb]; by rewrite ?andb_false_r, ?orb_true_r.
Qed.
End Flash.

(** ** Witnesses *)
Definition traced_memory (b : gmap Z Z) : Machine (Traced (gmap Z Z)) := boot_machine {| tr_bus := b; tr_log := [] |}.

(** An SPI whose transmitter never becomes ready: the transfer is left waiting,
    inside the Spi0 window. *)
Lemma drivers_confined_witness :
  exists m', spi_transfer_byte Arm 2 0x41 (traced_memory ∅) = (None, m') /\ length (log_of m') = 2%nat /\
    confined Arm Spi0 APB2ENR (log_of m').
Proof.
  destruct (drivers_confined (B := gmap Z Z) Arm 2 0 0 0 0x41) as (_ & _ & _ & _ & H & _). specialize (H (traced_memory ∅)).
  destruct (spi_transfer_byte Arm 2 0x41 (traced_memory ∅)) as [r m'] eqn:E.
  assert (r = None /\ length (log_of m') = 2%nat) as [-> Hl] by (revert E; vm_compute; intros [= <- <-]; done).
  exists m'. split; [reflexivity|]. split; [exact Hl|]. destruct H as (_ & _ & t & Ht & Hc).
  change (log_of m' = t) in Ht. rewrite Ht. exact Hc.
Defined.

(** On idle memory the run completes; on a controller that stays busy it is left
    polling after the unlock. *)
Lemma flash_program_protocol_witness :
  (exists m', program_word Arm 1 4 7 (traced_memory ∅) = (Some tt, m') /\
    exists half idle' cr', programmed 4 7 half /\ not_busy idle' /\
      log_of m' = half ++ idle' ++ [Ld FLASH_CR cr'; St FLASH_CR (Z.land cr' (u32_not CR_PG))]) /\
  (exists m', program_word Arm 3 4 7 (traced_memory (ram_write FLASH_SR SR_BSY ∅)) = (None, m') /\
    exists before busy, (unlocking before \/ programmed 4 7 before) /\ still_busy busy /\ log_of m' = before ++ busy).
Proof.
  split.
  - pose proof (flash_program_protocol (B := gmap Z Z) Arm 1 4 7 ltac:(lia) (traced_memory ∅)) as H.
    destruct (program_word Arm 1 4 7 (traced_memory ∅)) as [r m'] eqn:E.
    assert (r = Some tt) as -> by (revert E; vm_compute; intros [= <- _]; reflexivity).
    exists m'. split; [reflexivity|]. destruct H as (_ & _ & t & Ht & Hc). change (log_of m' = t) in Ht. rewrite Ht. exact Hc.
  - pose proof (flash_program_protocol (B := gmap Z Z) Arm 3 4 7 ltac:(lia) (traced_memory (ram_write FLASH_SR SR_BSY ∅))) as H.
    destruct (program_word Arm 3 4 7 (traced_memory (ram_write FLASH_SR SR_BSY ∅))) as [r m'] eqn:E.
    assert (r = None) as -> by (revert E; vm_compute; intros [= <- _]; reflexivity).
    exists m'. split; [reflexivity|]. destruct H as (_ & _ & t & Ht & Hc). change (log_of m' = t) in Ht. rewrite Ht. exact Hc.
Defined.

Lemma flash_self_test_passes_witness :
  exists m', flash_self_test Arm 1 (boot_machine (∅ : gmap Z Z)) = (Some true, m').
Proof.
  destruct (flash_self_test_passes Arm 1 aligned (conj eq_refl eq_refl) (conj eq_refl eq_refl)
    (conj eq_refl eq_refl) (conj eq_refl eq_refl) ltac:(lia) (boot_machine (∅ : gmap Z Z)))
    as (m' & E & _).
  - vm_compute. reflexivity.
  - exists m'. exact E.
Defined.
