(* ===== verification/Gpio.v ===== *)
(** * Gpio: GPIO ports and pin leases (src/capabilities/tokens.rs)

    A [PinGuard] borrows the token of its port; its methods access the port's
    register block without asking the registry, so their authority is the
    token's. Two things are proved. With the SET/CLR register contract of the
    source ([GpioBlock]) any use of any pins behaves as a bank of independent
    pins. With the ownership rules of tokens and leases as a step relation,
    every access a live guard makes is one [check_access] grants. *)
From stdpp Require Import functions.
From S2P Require Import Prelude Registry AuditRing Memory Tokens Drivers.
Local Open Scope Z_scope.
Local Open Scope u32_scope.

(** ** Ports *)
Inductive GpioPort := PortA | PortB.
#[export] Instance GpioPort_eq_dec : EqDecision GpioPort.
Proof. solve_decision. Defined.

Definition BASE (p : GpioPort) : Z := match p with PortA => 0x40020000 | PortB => 0x40020400 end.
Definition port_resource (p : GpioPort) : Resource := match p with PortA => RGpioA | PortB => RGpioB end.
Definition port_cap (p : GpioPort) : CapId := match p with PortA => GpioA | PortB => GpioB end.

Definition DATA_SET : Z := 0x00.
Definition DATA_CLR : Z := 0x04.
Definition DATA_OUT : Z := 0x08.
Definition DIR : Z := 0x10.

Lemma port_slot arch p off : 0 <= off < 1024 -> reg_slot arch (BASE p + off) = None.
Proof.
  intros Ho. unfold reg_slot. assert (0 <= BASE p + off - CAPREG_BASE arch < 32 -> False) as Hn.
  { destruct p, arch; cbn; lia. }
  destruct (Z.leb_spec 0 (BASE p + off - CAPREG_BASE arch)); [|done].
  destruct (Z.ltb_spec (BASE p + off - CAPREG_BASE arch) 32); [lia|done].
Qed.

(** Names, ids and address ranges agree across the three tables: every
    resource's name resolves to its registry id and nothing else resolves; on
    ARM each register of a GPIO port's block is guarded by exactly that port's
    capability bit; on RISC-V the same fixed block is guarded by no
    capability, so without SuperUser [check_access] refuses it. *)
Lemma resource_names :
  (forall r, resolve_name (NAME r) = Some (RESOURCE_ID r)) /\
  (forall name id, resolve_name name = Some id -> exists r, name = NAME r /\ id = RESOURCE_ID r).
Proof.
  split; [by intros []|]. intros name id. unfold resolve_name. destruct (List.find _ _) as [[n i]|] eqn:E; [|done].
  apply List.find_some in E as [Hin Hn]. cbn in *. bool_to_prop. intros; simplify_eq.
  repeat destruct Hin as [Hin|Hin]; simplify_eq;
    [exists RGpioA|exists RGpioB|exists RUart0|exists RSpi0|exists RI2c0|exists RTimer0|
     exists RDma0|exists RSuperUserCap|]; done.
Qed.

Lemma port_guarded p off : 0 <= off < 1024 -> addr_to_cap_id Arm (BASE p + off) = Some (port_cap p).
Proof.
  intros Ho. unfold addr_to_cap_id, arm_addr_to_cap, in_range. destruct p; cbn [BASE port_cap];
    repeat (match goal with |- context [?a <=? ?b] => destruct (Z.leb_spec a b) end;
      try (exfalso; lia); cbn [andb orb]); done.
Qed.

Lemma port_cap_id p : cap_val (port_cap p) = RESOURCE_ID (port_resource p).
Proof. by destruct p. Qed.

Lemma port_refused_riscv p off regs :
  0 <= off < 1024 -> is_superuser_active regs = false -> check_access Riscv32 regs (BASE p + off) = Err SuperUser.
Proof.
  intros Ho Hs. unfold check_access, addr_to_cap_id, riscv_addr_to_cap, is_ram_flash, in_range.
  rewrite Hs. destruct p; cbn [BASE];
    repeat (match goal with |- context [?a <=? ?b] => destruct (Z.leb_spec a b) end;
      try (exfalso; lia); cbn [andb orb]); done.
Qed.

(** ** Pins

    [Cap<T>::pin::<N>] and the methods of the guard. [MASK] is an associated
    constant, so [N] of 32 and above does not compile. *)
Record PinGuard := { pg_cap : Cap; pg_port : GpioPort; pg_pin : Z }.

Definition pin (p : GpioPort) (n : Z) (c : Cap) : PinGuard := {| pg_cap := c; pg_port := p; pg_pin := n |}.

Definition MASK (g : PinGuard) : Z := bit32 (pg_pin g).

(** The error of the embedded-hal methods; no operation returns it. *)
Inductive HalError := HalErr.

Section Pins.
Context {B : Type} `{Bus B} (arch : Arch).
Implicit Types (g : PinGuard) (m : Machine B).

Definition enable_output g m : Machine B := reg_set_bit arch (BASE (pg_port g) + DIR) (pg_pin g) m.

Definition set_high_linear g m : PinGuard * Machine B :=
  let m := enable_output g m in
  (g, poke_u32 arch (BASE (pg_port g) + DATA_SET) (MASK g) m).

Definition set_low_linear g m : PinGuard * Machine B :=
  let m := enable_output g m in
  (g, poke_u32 arch (BASE (pg_port g) + DATA_CLR) (MASK g) m).

Definition level g m : bool * Machine B :=
  let (v, m) := peek_u32 arch (BASE (pg_port g) + DATA_OUT) m in (negb (Z.land v (MASK g) =? 0), m).

(** [OutputPin]: no direction change. *)
Definition set_low g m : Result unit HalError * Machine B :=
  (Ok tt, poke_u32 arch (BASE (pg_port g) + DATA_CLR) (MASK g) m).
Definition set_high g m : Result unit HalError * Machine B :=
  (Ok tt, poke_u32 arch (BASE (pg_port g) + DATA_SET) (MASK g) m).

(** One method call. *)
Inductive PinOp := SetHighLinear | SetLowLinear | Level | SetHigh | SetLow.
Inductive PinRes := Returned (g : PinGuard) | IsHigh (b : bool) | Finished (r : Result unit HalError).

Definition pin_step (go : PinGuard * PinOp) m : PinRes * Machine B :=
  match go with
  | (g, SetHighLinear) => let (g, m) := set_high_linear g m in (Returned g, m)
  | (g, SetLowLinear) => let (g, m) := set_low_linear g m in (Returned g, m)
  | (g, Level) => let (b, m) := level g m in (IsHigh b, m)
  | (g, SetHigh) => let (r, m) := set_high g m in (Finished r, m)
  | (g, SetLow) => let (r, m) := set_low g m in (Finished r, m)
  end.
End Pins.

(** ** The register contract

    The port model the source documents: writing [DATA_SET] or [DATA_CLR] sets
    or clears the latch bits of the mask, [DATA_OUT] reads the latch, [DIR] is
    the direction mask. The two ports are independent. *)
Record Block := { bl_latch : Z; bl_dir : Z }.

Definition block_read (off : Z) (b : Block) : Z := if off =? DATA_OUT then bl_latch b else bl_dir b.

Definition block_write (off v : Z) (b : Block) : Block :=
  if off =? DATA_SET then {| bl_latch := Z.lor (bl_latch b) v; bl_dir := bl_dir b |}
  else if off =? DATA_CLR then {| bl_latch := Z.ldiff (bl_latch b) v; bl_dir := bl_dir b |}
  else {| bl_latch := bl_latch b; bl_dir := v |}.

Class GpioBlock (B : Type) `{Bus B} := {
  gp_block : B -> GpioPort -> Block;
  gp_read : forall p off b, off = DATA_OUT \/ off = DIR ->
    fst (bus_read (BASE p + off) b) = block_read off (gp_block b p) /\
    forall q, gp_block (snd (bus_read (BASE p + off) b)) q = gp_block b q;
  gp_write : forall p off v b q, off = DATA_SET \/ off = DATA_CLR \/ off = DIR ->
    gp_block (bus_write (BASE p + off) v b) q = <[p := block_write off v (gp_block b p)]> (gp_block b) q;
}.

(** ** The abstract bank: every pin has a level and a direction of its own *)
Record Bank := { bk_high : GpioPort * Z -> bool; bk_output : GpioPort * Z -> bool }.

Definition at_pin (g : PinGuard) : GpioPort * Z := (pg_port g, pg_pin g).

Definition drive (g : PinGuard) (high : bool) (s : Bank) : Bank :=
  {| bk_high := <[at_pin g := high]> (bk_high s); bk_output := bk_output s |}.

Definition as_output (g : PinGuard) (s : Bank) : Bank :=
  {| bk_high := bk_high s; bk_output := <[at_pin g := true]> (bk_output s) |}.

Definition bank_step (go : PinGuard * PinOp) (s : Bank) : PinRes * Bank :=
  match go with
  | (g, SetHighLinear) => (Returned g, drive g true (as_output g s))
  | (g, SetLowLinear) => (Returned g, drive g false (as_output g s))
  | (g, Level) => (IsHigh (bk_high s (at_pin g)), s)
  | (g, SetHigh) => (Finished (Ok tt), drive g true s)
  | (g, SetLow) => (Finished (Ok tt), drive g false s)
  end.

Section BankRefinement.
Context {B : Type} `{GpioBlock B} (arch : Arch).
Implicit Types (g : PinGuard) (m : Machine B) (s : Bank).

(** The bank a machine shows. *)
Record shows m s : Prop := {
  sh_high : forall p n, 0 <= n < 32 -> Z.testbit (bl_latch (gp_block (m_bus m) p)) n = bk_high s (p, n);
  sh_output : forall p n, 0 <= n < 32 -> Z.testbit (bl_dir (gp_block (m_bus m) p)) n = bk_output s (p, n);
}.

Definition pin_ok g : Prop := 0 <= pg_pin g < 32.

Lemma poke_block p off v m q : off = DATA_SET \/ off = DATA_CLR \/ off = DIR ->
  gp_block (m_bus (poke_u32 arch (BASE p + off) v m)) q =
    <[p := block_write off v (gp_block (m_bus m) p)]> (gp_block (m_bus m)) q.
Proof.
  intros Ho. unfold poke_u32. rewrite port_slot by (destruct Ho as [->|[->| ->]]; unfold DATA_SET, DATA_CLR, DIR; lia).
  by apply gp_write.
Qed.

Lemma peek_block p off m : off = DATA_OUT \/ off = DIR ->
  fst (peek_u32 arch (BASE p + off) m) = block_read off (gp_block (m_bus m) p) /\
  forall q, gp_block (m_bus (snd (peek_u32 arch (BASE p + off) m))) q = gp_block (m_bus m) q.
Proof.
  intros Ho. unfold peek_u32. rewrite port_slot by (destruct Ho as [->| ->]; unfold DATA_OUT, DIR; lia).
  pose proof (gp_read p off (m_bus m) Ho) as Hr. by destruct (bus_read (BASE p + off) (m_bus m)).
Qed.

Lemma testbit_mask g n : pin_ok g -> Z.testbit (MASK g) n = (pg_pin g =? n).
Proof. intros Hg. unfold MASK. apply testbit_bit32. destruct Hg. lia. Qed.

(** Updating one bit of one block is updating one pin. *)
Lemma pin_update (bank : GpioPort * Z -> bool) (f : Block -> Z) (blocks : GpioPort -> Block) g (x : Block) (b : bool) :
  (forall p n, 0 <= n < 32 -> Z.testbit (f (blocks p)) n = bank (p, n)) ->
  (forall n, Z.testbit (f x) n = if pg_pin g =? n then b else Z.testbit (f (blocks (pg_port g))) n) ->
  forall p n, 0 <= n < 32 -> Z.testbit (f ((<[pg_port g := x]> blocks) p)) n = (<[at_pin g := b]> bank) (p, n).
Proof.
  intros Hb Hx p n Hn. unfold insert, fn_insert, at_pin. destruct (decide (pg_port g = p)) as [<-|Hne].
  - rewrite Hx. destruct (Z.eqb_spec (pg_pin g) n) as [<-|Hnn]; [by rewrite decide_True|].
    rewrite decide_False by congruence. by apply Hb.
  - rewrite decide_False by congruence. by apply Hb.
Qed.

Lemma block_kept (f : Block -> Z) (blocks : GpioPort -> Block) (p : GpioPort) (x : Block) :
  f x = f (blocks p) -> forall q, f ((<[p := x]> blocks) q) = f (blocks q).
Proof. intros Hx q. unfold insert, fn_insert. destruct (decide (p = q)) as [<-|]; done. Qed.

Lemma poke_drives g m s (high : bool) : pin_ok g -> shows m s ->
  shows (poke_u32 arch (BASE (pg_port g) + if high then DATA_SET else DATA_CLR) (MASK g) m) (drive g high s).
Proof.
  intros Hg [Hh Ho]. assert ((if high then DATA_SET else DATA_CLR) = DATA_SET \/ (if high then DATA_SET else DATA_CLR) = DATA_CLR \/
    (if high then DATA_SET else DATA_CLR) = DIR) as Hoff by (destruct high; auto).
  split; intros p n Hn; rewrite poke_block by done; cbn [drive bk_high bk_output].
  - apply (pin_update (bk_high s) bl_latch); [done| |done]. intros k.
    destruct high; cbn [block_write Z.eqb Pos.eqb DATA_SET DATA_CLR bl_latch]; [rewrite Z.lor_spec|rewrite Z.ldiff_spec];
      rewrite testbit_mask by done; destruct (pg_pin g =? k); by destruct (Z.testbit _ k).
  - rewrite (block_kept bl_dir) by (by destruct high). by apply Ho.
Qed.

Lemma enable_output_shows g m s : pin_ok g -> shows m s -> shows (enable_output arch g m) (as_output g s).
Proof.
  intros Hg [Hh Ho]. unfold enable_output, reg_set_bit.
  pose proof (peek_block (pg_port g) DIR m (or_intror eq_refl)) as [Hv Hk].
  destruct (peek_u32 arch (BASE (pg_port g) + DIR) m) as [v m1]. cbn [fst snd] in *.
  split; intros p n Hn; rewrite poke_block by auto; cbn [as_output bk_high bk_output].
  - rewrite (block_kept bl_latch) by done. rewrite Hk. by apply Hh.
  - apply (pin_update (bk_output s) bl_dir); [intros; rewrite Hk; by apply Ho| |done].
    intros k. cbn [block_write Z.eqb Pos.eqb DIR DATA_SET DATA_CLR bl_dir]. unfold shl_bit.
    rewrite Z.lor_spec, Z.mod_small, testbit_bit32, Hv, Hk by (destruct Hg; lia).
    cbn [block_read Z.eqb Pos.eqb DIR DATA_OUT]. destruct (pg_pin g =? k); [by rewrite orb_true_r|by rewrite orb_false_r].
Qed.

Lemma pin_step_shows g o m s : pin_ok g -> shows m s ->
  fst (pin_step arch (g, o) m) = fst (bank_step (g, o) s) /\ shows (snd (pin_step arch (g, o) m)) (snd (bank_step (g, o) s)).
Proof.
  intros Hg Hs. destruct o; cbn [pin_step bank_step set_high_linear set_low_linear set_high set_low fst snd].
  - split; [done|]. apply (poke_drives g _ _ true); [done|]. by apply enable_output_shows.
  - split; [done|]. apply (poke_drives g _ _ false); [done|]. by apply enable_output_shows.
  - unfold level. pose proof (peek_block (pg_port g) DATA_OUT m (or_introl eq_refl)) as [Hv Hk].
    destruct (peek_u32 arch (BASE (pg_port g) + DATA_OUT) m) as [v m1]. cbn [fst snd] in *. split.
    + unfold MASK. destruct Hg. rewrite land_bit32_zero, negb_involutive, Hv by lia. f_equal. by apply Hs.
    + split; intros p n Hn; rewrite Hk; by apply Hs.
  - split; [done|]. by apply (poke_drives g _ _ true).
  - split; [done|]. by apply (poke_drives g _ _ false).
Qed.

(** GPIO pins are independent. On either target and every bus whose two blocks
    follow the register contract, any sequence of method calls on any pins of
    either port answers as a bank of pins that each have their own level and
    direction, and leaves the machine showing that bank: setting a pin changes
    no other, [level] reads back the level last set, and only the linear
    methods make a pin an output. *)
Theorem pins_refine_bank (gos : list (PinGuard * PinOp)) (m : Machine B) (s : Bank) :
  Forall (fun go => pin_ok (fst go)) gos -> shows m s ->
  fst (Prelude.run (pin_step arch) gos m) = fst (Prelude.run bank_step gos s) /\
  shows (snd (Prelude.run (pin_step arch) gos m)) (snd (Prelude.run bank_step gos s)).
Proof.
  intros Hgos. apply (run_simulation_on (fun go => pin_ok (fst go)) (pin_step arch) bank_step shows); [|done].
  intros [g o]. apply pin_step_shows.
Qed.
End BankRefinement.

(** ** Leases

    What safe code can do, on the machine whose registry the tokens are claimed
    in: a token step that leaves leased tokens where they are (a borrowed token
    can be neither dropped nor moved), leasing a pin of an owned port that is
    not leased ([pin] borrows the token mutably), ending a lease, and calling a
    method of a live guard. *)
Section Leases.
Context {B : Type} `{Bus B}.

Record LeaseWorld := { lw_m : Machine (Traced B); lw_held : list Cap; lw_count : Z; lw_leases : list PinGuard }.

Definition tokens_of (w : LeaseWorld) : TokenWorld :=
  {| tw_store := m_regs (lw_m w); tw_held := lw_held w; tw_count := lw_count w |}.

Inductive lease_step : LeaseWorld -> LeaseWorld -> Prop :=
| ls_token w t' :
    token_step (tokens_of w) t' -> Forall (fun g => pg_cap g ∈ tw_held t') (lw_leases w) ->
    lease_step w {| lw_m := set_regs (tw_store t') (lw_m w); lw_held := tw_held t'; lw_count := tw_count t';
                    lw_leases := lw_leases w |}
| ls_pin w p n c :
    c ∈ lw_held w -> cap_id c = RESOURCE_ID (port_resource p) -> c ∉ map pg_cap (lw_leases w) -> 0 <= n < 32 ->
    lease_step w {| lw_m := lw_m w; lw_held := lw_held w; lw_count := lw_count w; lw_leases := pin p n c :: lw_leases w |}
| ls_end w g l1 l2 :
    lw_leases w = l1 ++ g :: l2 ->
    lease_step w {| lw_m := lw_m w; lw_held := lw_held w; lw_count := lw_count w; lw_leases := l1 ++ l2 |}
| ls_use w g o :
    g ∈ lw_leases w ->
    lease_step w {| lw_m := snd (pin_step Arm (g, o) (lw_m w)); lw_held := lw_held w; lw_count := lw_count w;
                    lw_leases := lw_leases w |}.

(** A live guard borrows an owned token of its port. *)
Definition guard_ok (held : list Cap) (g : PinGuard) : Prop :=
  pg_cap g ∈ held /\ cap_id (pg_cap g) = RESOURCE_ID (port_resource (pg_port g)) /\ 0 <= pg_pin g < 32.

Record wf_leases (w : LeaseWorld) : Prop := {
  wl_tokens : wf_world (tokens_of w);
  wl_guards : Forall (guard_ok (lw_held w)) (lw_leases w);
  wl_unique : NoDup (map pg_cap (lw_leases w));
}.

Lemma resource_valid r : cs_valid (RESOURCE_ID r).
Proof. change (valid_id (RESOURCE_ID r)). unfold valid_id, MAX_RESOURCES. destruct r; cbn; lia. Qed.

(** The trace of a method call, on either target: loads and stores in the
    block of the guard's port, and nothing else changes. *)
Lemma pin_step_trace (arch : Arch) g o (m : Machine (Traced B)) :
  let m' := snd (pin_step arch (g, o) m) in
  m_regs m' = m_regs m /\ m_audit m' = m_audit m /\
  exists t, log_of m' = log_of m ++ t /\
    Forall (fun e => exists off, 0 <= off < 1024 /\ acc_addr e = BASE (pg_port g) + off) t.
Proof.
  assert (forall off, 0 <= off < 1024 -> reg_slot arch (BASE (pg_port g) + off) = None) as Hslot by apply port_slot.
  destruct o; cbn [pin_step set_high_linear set_low_linear set_high set_low fst snd];
    unfold level, enable_output, reg_set_bit, peek_u32, poke_u32, DATA_SET, DATA_CLR, DATA_OUT, DIR, log_of;
    repeat rewrite Hslot by lia; cbn [bus_read bus_write traced_bus];
    try destruct (bus_read _ (tr_bus (m_bus m))) as [v b]; cbn [set_bus snd m_bus m_regs m_audit tr_log tr_bus];
    (split_and!; [done|done|]); rewrite <- ?app_assoc; (eexists; split; [reflexivity|]);
    repeat constructor; eexists; (split; [|reflexivity]); lia.
Qed.

Lemma lease_step_wf w w' : wf_leases w -> lease_step w w' -> wf_leases w'.
Proof.
  intros [Ht Hg Hu] Hst. destruct Hst as [w t' Hs Hl|w p n c Hc Hid Hni Hn|w g l1 l2 E|w g o Hin].
  - pose proof (token_step_wf resource_valid _ _ Ht Hs) as Ht'. split; [by destruct t'| |done].
    cbn [lw_held lw_leases]. rewrite list.Forall_forall in *. intros g Hing. split; [by apply Hl|]. by apply Hg.
  - split; [done| |cbn; by constructor]. cbn [lw_held lw_leases]. constructor; done.
  - cbn [lw_leases] in *. rewrite E in Hg, Hu. rewrite map_app in Hu. apply Forall_app in Hg as [Hg1 Hg2].
    split; [done| |]; cbn [lw_held lw_leases].
    + apply Forall_app. split; [done|]. by inversion Hg2.
    + rewrite map_app. apply (NoDup_Permutation_proper _ _ (Permutation_sym (Permutation_middle _ _ _))) in Hu.
      by apply list.NoDup_cons in Hu as [_ Hu].
  - destruct (pin_step_trace Arm g o (lw_m w)) as (Hr & _ & _). split; [|done|done].
    unfold tokens_of in *. cbn [lw_m lw_held lw_count]. by rewrite Hr.
Qed.

(** Tokens are exclusive, so leases of one port borrow the same token. *)
Lemma leases_exclusive w : wf_leases w -> NoDup (map pg_port (lw_leases w)).
Proof.
  intros [Ht Hg Hu]. apply NoDup_fmap_2_strong with (f := pg_port); [|by apply NoDup_fmap_1 in Hu].
  intros g g' Hin Hin' E. rewrite list.Forall_forall in Hg.
  destruct (Hg g Hin) as (Hh & Hid & _), (Hg g' Hin') as (Hh' & Hid' & _).
  assert (pg_cap g = pg_cap g') as Ec by (rewrite E in Hid; destruct (pg_cap g), (pg_cap g'); cbn in *; congruence).
  apply list_elem_of_lookup in Hin as [i Hi]. apply list_elem_of_lookup in Hin' as [j Hj].
  enough (i = j) by (subst; congruence). apply (NoDup_lookup _ i j (pg_cap g) Hu).
  - apply (list_lookup_fmap_Some_2 pg_cap _ i g Hi).
  - rewrite Ec. apply (list_lookup_fmap_Some_2 pg_cap _ j g' Hj).
Qed.

Lemma guard_granted w g off : wf_leases w -> g ∈ lw_leases w -> 0 <= off < 1024 ->
  check_access Arm (m_regs (lw_m w)) (BASE (pg_port g) + off) = Ok tt.
Proof.
  intros [Ht Hg _] Hin Ho. rewrite list.Forall_forall in Hg. destruct (Hg g Hin) as (Hh & Hid & _).
  apply check_access_ok. right; left. exists (port_cap (pg_port g)). split; [by apply port_guarded|].
  pose proof (ww_claimed _ Ht) as Hc. rewrite list.Forall_forall in Hc. specialize (Hc _ Hh).
  rewrite port_cap_id, <- Hid. exact Hc.
Qed.

(** C29. Pin leases carry the capability. On ARM, from any well-formed state and
    over any sequence of claims, drops, losses, leases, method calls and ends
    of leases that the ownership rules allow: no two live guards are of one
    port, no one else can claim the port of a live guard, and whatever method
    of a live guard is called next, every access it makes is one
    [check_access] grants at that moment, although the methods never ask; and
    the registry and the audit log are left alone. *)
Theorem pins_authorised (w0 w : LeaseWorld) :
  wf_leases w0 -> rtc lease_step w0 w ->
  NoDup (map pg_port (lw_leases w)) /\
  forall g o, g ∈ lw_leases w ->
    fst (claim (port_resource (pg_port g)) (m_regs (lw_m w))) = None /\
    let m' := snd (pin_step Arm (g, o) (lw_m w)) in
    m_regs m' = m_regs (lw_m w) /\ m_audit m' = m_audit (lw_m w) /\
    exists t, log_of m' = log_of (lw_m w) ++ t /\
      Forall (fun e => check_access Arm (m_regs (lw_m w)) (acc_addr e) = Ok tt) t.
Proof.
  intros Hw0 Hst. assert (wf_leases w) as Hw by (induction Hst; eauto using lease_step_wf).
  split; [by apply leases_exclusive|]. intros g o Hin. split.
  - pose proof (wl_guards w Hw) as Hg. rewrite list.Forall_forall in Hg. destruct (Hg g Hin) as (Hh & Hid & _).
    apply (held_claim_fails resource_valid (tokens_of w) (pg_cap g)); [apply Hw|done|done].
  - destruct (pin_step_trace Arm g o (lw_m w)) as (Hr & Ha & t & Hl & Ht). split_and!; [done|done|].
    exists t. split; [done|]. eapply Forall_impl; [|exact Ht]. intros e (off & Ho & E). rewrite E. by apply guard_granted.
Qed.
End Leases.

(** ** A bus with the two blocks *)
Record GpioBus := { gb_a : Block; gb_b : Block }.

Definition gb_block (b : GpioBus) (p : GpioPort) : Block := match p with PortA => gb_a b | PortB => gb_b b end.

Definition port_at (a : Z) : GpioPort := if a <? BASE PortB then PortA else PortB.

#[export] Instance gpio_bus : Bus GpioBus := {
  bus_read a b := let p := port_at a in (block_read (a - BASE p) (gb_block b p), b);
  bus_write a v b :=
    match port_at a with
    | PortA => {| gb_a := block_write (a - BASE PortA) v (gb_a b); gb_b := gb_b b |}
    | PortB => {| gb_a := gb_a b; gb_b := block_write (a - BASE PortB) v (gb_b b) |}
    end;
  bus_mcycle b := (0, b);
}.

#[export] Instance gpio_bus_block : GpioBlock GpioBus.
Proof.
  refine {| gp_block := gb_block |}.
  - intros p off b [->| ->]; by destruct p.
  - intros p off v b q [->|[->| ->]]; by destruct p, q.
Defined.

Definition gpio_machine {B} (b : B) : Machine B := {| m_regs := REGISTRY_INIT; m_audit := audit_new; m_bus := b |}.
Definition gpio_zero : GpioBus := {| gb_a := {| bl_latch := 0; bl_dir := 0 |}; gb_b := {| bl_latch := 0; bl_dir := 0 |} |}.
Definition bank_zero : Bank := {| bk_high := fun _ => false; bk_output := fun _ => false |}.
Definition demo_guard (p : GpioPort) (n : Z) : PinGuard := pin p n {| cap_id := RESOURCE_ID (port_resource p) |}.
Definition demo_calls : list (PinGuard * PinOp) :=
  [(demo_guard PortA 5, SetHighLinear); (demo_guard PortB 5, SetHigh); (demo_guard PortA 5, SetLow);
   (demo_guard PortA 5, Level); (demo_guard PortB 5, Level)].

Lemma pins_refine_bank_witness :
  map (fun r => match r with IsHigh b => Some b | _ => None end)
    (fst (Prelude.run (pin_step Arm) demo_calls (gpio_machine gpio_zero))) = [None; None; None; Some false; Some true] /\
  shows (snd (Prelude.run (pin_step Arm) demo_calls (gpio_machine gpio_zero))) (snd (Prelude.run bank_step demo_calls bank_zero)).
Proof.
  destruct (pins_refine_bank Arm demo_calls (gpio_machine gpio_zero) bank_zero) as [E R].
  - repeat constructor; vm_compute; congruence.
  - split; intros [] n Hn; apply Z.testbit_0_l.
  - split; [rewrite E; vm_compute; reflexivity|exact R].
Defined.

Definition lease_start : LeaseWorld (B := GpioBus) :=
  {| lw_m := gpio_machine {| tr_bus := gpio_zero; tr_log := [] |}; lw_held := []; lw_count := 0; lw_leases := [] |}.

Definition lease_live : LeaseWorld (B := GpioBus) :=
  {| lw_m := set_regs (snd (acquire REGISTRY_INIT 0)) (lw_m lease_start); lw_held := [{| cap_id := 0 |}]; lw_count := 0;
     lw_leases := [demo_guard PortA 5] |}.

Lemma pins_authorised_witness :
  demo_guard PortA 5 ∈ lw_leases lease_live /\
  exists t, log_of (snd (pin_step Arm (demo_guard PortA 5, SetHighLinear) (lw_m lease_live))) = log_of (lw_m lease_live) ++ t /\
    Forall (fun e => check_access Arm (m_regs (lw_m lease_live)) (acc_addr e) = Ok tt) t.
Proof.
  assert (demo_guard PortA 5 ∈ lw_leases lease_live) as Hin by (apply list_elem_of_singleton; reflexivity).
  split; [exact Hin|].
  destruct (pins_authorised lease_start lease_live) as [_ Hg].
  - split; [split; [apply registry_init_wf|constructor..]|constructor|constructor].
  - eapply rtc_l; [apply (ls_token lease_start {| tw_store := snd (acquire REGISTRY_INIT 0); tw_held := [{| cap_id := 0 |}]; tw_count := 0 |})|].
    + apply (ts_claim (tokens_of lease_start) RGpioA (Some {| cap_id := 0 |})). reflexivity.
    + constructor.
    + apply rtc_once. match goal with |- lease_step ?w _ => apply (ls_pin w PortA 5 {| cap_id := 0 |}) end;
        [apply list_elem_of_singleton; reflexivity|reflexivity|apply not_elem_of_nil|lia].
  - destruct (Hg (demo_guard PortA 5) SetHighLinear Hin) as (_ & _ & _ & Ht). exact Ht.
Defined.
