(* ===== verification/Pcie.v ===== *)
(** * Pcie: ECAM enumeration and the DMA ring (src/drivers/pcie.rs)

    Configuration space is memory read through [peek_u32]. Enumeration is
    compared with the list of present functions read off that memory; the
    descriptor ring is an instance of the bounded ring, with the hardware as
    its consumer. *)
From S2P Require Import Prelude Registry AuditRing Memory Drivers Ring.
Local Open Scope Z_scope.
Local Open Scope u32_scope.

Definition ECAM_BASE_ARM : Z := 0x40000000.
Definition ECAM_BASE_RISCV : Z := 0x30000000.

Definition ecam_addr (base bus dev func reg : Z) : Z :=
  base +w u32_shl bus 20 +w u32_shl dev 15 +w u32_shl func 12 +w reg.

Record PcieHeader := {
  vendor_device : Z; command_status : Z; class_revision : Z; bist_header_latency_cache : Z;
  bar0 : Z; bar1 : Z; bar2 : Z; bar3 : Z; bar4 : Z; bar5 : Z;
}.
Definition header_zero : PcieHeader :=
  {| vendor_device := 0; command_status := 0; class_revision := 0; bist_header_latency_cache := 0;
     bar0 := 0; bar1 := 0; bar2 := 0; bar3 := 0; bar4 := 0; bar5 := 0 |}.

(** The four fields the sweep fills in; the others keep what was there. *)
Definition fill_header (vd cs cr b0 : Z) (h : PcieHeader) : PcieHeader :=
  {| vendor_device := vd; command_status := cs; class_revision := cr;
     bist_header_latency_cache := bist_header_latency_cache h;
     bar0 := b0; bar1 := bar1 h; bar2 := bar2 h; bar3 := bar3 h; bar4 := bar4 h; bar5 := bar5 h |}.

Section Ecam.
Context {B : Type} `{Bus B} (arch : Arch).
Implicit Type m : Machine B.

Definition bar_size (bar_addr : Z) : Dev B Z :=
  orig ← dpeek arch bar_addr;
  dpoke arch bar_addr 0xFFFFFFFF ;;
  mask ← dpeek arch bar_addr;
  dpoke arch bar_addr orig ;;
  mret (u32_not (Z.land mask (u32_not 0xF)) +w 1).

(** The loop state: [found], [out] and the machine. *)
Record Sweep := { sw_found : nat; sw_out : list PcieHeader; sw_m : Machine B }.

Definition single_function (addr : Z) m : bool * Machine B :=
  let (w, m1) := peek_u32 arch (addr +w 0x0E) m in
  (Z.land (Z.land w 0xFF) 0x80 =? 0, m1).

(** [if func == 0 && single-function { break }]: whether to break. *)
Definition stop_after (func addr : Z) m : bool * Machine B :=
  if func =? 0 then single_function addr m else (false, m).

Definition copy_header (addr : Z) (s : Sweep) : Sweep :=
  if (sw_found s <? 32)%nat then
    let (vd, m1) := peek_u32 arch addr (sw_m s) in
    let (cs, m2) := peek_u32 arch (addr +w 0x04) m1 in
    let (cr, m3) := peek_u32 arch (addr +w 0x08) m2 in
    let (b0, m4) := peek_u32 arch (addr +w 0x10) m3 in
    {| sw_found := S (sw_found s);
       sw_out := alter (fill_header vd cs cr b0) (sw_found s) (sw_out s); sw_m := m4 |}
  else s.

(** [for func in funcs]. *)
Fixpoint sweep_funcs (base bus dev : Z) (funcs : list Z) (s : Sweep) : Sweep :=
  match funcs with
  | [] => s
  | func :: rest =>
      let addr := ecam_addr base bus dev func 0 in
      let (w, m1) := peek_u32 arch addr (sw_m s) in
      let vendor := Z.land w 0xFFFF in
      let s1 := {| sw_found := sw_found s; sw_out := sw_out s; sw_m := m1 |} in
      let s2 := if (vendor =? 0xFFFF) || (vendor =? 0) then s1 else copy_header addr s1 in
      let (stop, m3) := stop_after func addr (sw_m s2) in
      let s3 := {| sw_found := sw_found s2; sw_out := sw_out s2; sw_m := m3 |} in
      if stop then s3 else sweep_funcs base bus dev rest s3
  end.

Definition upto (n : nat) : list Z := map Z.of_nat (seq 0 n).

Definition sweep_bus (base bus : Z) (s : Sweep) : Sweep :=
  foldl (fun s dev => sweep_funcs base bus dev (upto 8) s) s (upto 32).

(** [for bus in buses]. *)
Fixpoint sweep_buses (base : Z) (buses : list Z) (s : Sweep) : Sweep :=
  match buses with
  | [] => s
  | bus :: rest =>
      let s1 := sweep_bus base bus s in
      if (32 <=? sw_found s1)%nat then s1
      else if (bus =? 0) && (sw_found s1 =? 0)%nat then s1
      else sweep_buses base rest s1
  end.

Definition enumerate_ecam (base : Z) (out : list PcieHeader) m : nat * list PcieHeader * Machine B :=
  let s := sweep_buses base (upto 256) {| sw_found := 0; sw_out := out; sw_m := m |} in
  (sw_found s, sw_out s, sw_m s).

(** ** What is there *)
Definition present m (addr : Z) : bool :=
  let vendor := Z.land (word_at arch m addr) 0xFFFF in negb ((vendor =? 0xFFFF) || (vendor =? 0)).

Definition multi_function m (addr : Z) : bool := Z.testbit (word_at arch m (addr +w 0x0E)) 7.

(** The addresses of the functions present on a device, in order: all eight
    when function 0 says it is one of several, else function 0 alone. *)
Definition device_functions (base : Z) m (bus dev : Z) : list Z :=
  let addr f := ecam_addr base bus dev f 0 in
  List.filter (present m) (map addr (if multi_function m (addr 0) then upto 8 else [0])).

Definition bus_functions (base : Z) m (bus : Z) : list Z :=
  concat (map (device_functions base m bus) (upto 32)).

(** A machine without anything on bus 0 counts as having no ECAM. *)
Definition all_functions (base : Z) m : list Z :=
  match bus_functions base m 0 with
  | [] => []
  | fs => fs ++ concat (map (bus_functions base m) (map (fun n => Z.of_nat (S n)) (seq 0 255)))
  end.

Definition header_of m (addr : Z) : PcieHeader -> PcieHeader :=
  fill_header (word_at arch m addr) (word_at arch m (addr +w 0x04))
    (word_at arch m (addr +w 0x08)) (word_at arch m (addr +w 0x10)).

(** Fill the table from entry [n] on with the headers at [addrs]. *)
Fixpoint fill_from m (n : nat) (addrs : list Z) (out : list PcieHeader) : list PcieHeader :=
  match addrs with
  | [] => out
  | a :: rest => fill_from m (S n) rest (alter (header_of m a) n out)
  end.

Lemma fill_from_app m n xs ys out :
  fill_from m n (xs ++ ys) out = fill_from m (n + length xs) ys (fill_from m n xs out).
Proof.
  revert n out. induction xs as [|x xs IH]; intros n out; cbn [app fill_from length]; [by rewrite Nat.add_0_r|].
  rewrite IH. f_equal. lia.
Qed.

(** The state after the functions [addrs] have been met. *)
Definition swept m (addrs : list Z) (out : list PcieHeader) : Sweep :=
  {| sw_found := Nat.min 32 (length addrs); sw_out := fill_from m 0 (take 32 addrs) out; sw_m := m |}.

Section Pure.
Context (m : Machine B).
Hypothesis Hpure : forall a, snd (peek_u32 arch a m) = m.

Lemma peek_pure a : peek_u32 arch a m = (word_at arch m a, m).
Proof. pose proof (Hpure a) as E. unfold word_at. destruct (peek_u32 arch a m). cbn in *. by subst. Qed.

Lemma land_bit7 w : (Z.land (Z.land w 0xFF) 0x80 =? 0) = negb (Z.testbit w 7).
Proof.
  change 0x80 with (bit32 7). rewrite land_bit32_zero by lia. rewrite Z.land_spec.
  change (Z.testbit 0xFF 7) with true. by rewrite andb_true_r.
Qed.

Lemma single_pure addr : single_function addr m = (negb (multi_function m addr), m).
Proof. unfold single_function. by rewrite peek_pure, land_bit7. Qed.

Lemma copy_swept addr seen out : copy_header addr (swept m seen out) = swept m (seen ++ [addr]) out.
Proof.
  unfold copy_header, swept. cbn [sw_found sw_out sw_m].
  destruct (Nat.ltb_spec (Nat.min 32 (length seen)) 32) as [Hl|Hl].
  - rewrite !peek_pure. rewrite !take_ge by (rewrite ?length_app; cbn; lia). rewrite length_app. cbn [length].
    rewrite fill_from_app. cbn [fill_from]. rewrite Nat.min_r by lia. f_equal. lia.
  - by rewrite take_app_le, length_app, !Nat.min_l by lia.
Qed.

(** The first function of a sweep whose state is known. *)
Lemma sweep_first base bus dev func rest seen out :
  let addr := ecam_addr base bus dev func 0 in
  sweep_funcs base bus dev (func :: rest) (swept m seen out) =
    let s2 := swept m (seen ++ List.filter (present m) [addr]) out in
    if (func =? 0) && negb (multi_function m addr) then s2 else sweep_funcs base bus dev rest s2.
Proof.
  intros addr. cbn [sweep_funcs]. fold addr. cbn [sw_m swept]. rewrite peek_pure.
  cbn [sw_found sw_out swept]. fold (swept m seen out).
  assert ((if (Z.land (word_at arch m addr) 0xFFFF =? 0xFFFF) || (Z.land (word_at arch m addr) 0xFFFF =? 0)
    then swept m seen out else copy_header addr (swept m seen out)) =
    swept m (seen ++ List.filter (present m) [addr]) out) as ->.
  { cbn [List.filter]. unfold present. destruct (_ || _); cbn [negb]; [by rewrite app_nil_r|apply copy_swept]. }
  cbv zeta. set (s2 := swept m _ out). change (sw_m s2) with m. unfold stop_after.
  destruct (func =? 0); cbn [andb]; [rewrite single_pure|]; done.
Qed.

Lemma sweep_rest base bus dev funcs seen out : Forall (fun f => f <> 0) funcs ->
  sweep_funcs base bus dev funcs (swept m seen out) =
    swept m (seen ++ List.filter (present m) (map (fun f => ecam_addr base bus dev f 0) funcs)) out.
Proof.
  intros Hf. revert seen. induction Hf as [|f funcs Hf _ IH]; intros seen; [by rewrite app_nil_r|].
  cbn [map List.filter]. rewrite sweep_first. apply Z.eqb_neq in Hf. rewrite Hf. cbn [andb].
  rewrite IH, <- app_assoc. f_equal. f_equal. cbn [List.filter app]. by destruct (present m _).
Qed.

Lemma sweep_device base bus dev seen out :
  sweep_funcs base bus dev (upto 8) (swept m seen out) = swept m (seen ++ device_functions base m bus dev) out.
Proof.
  change (upto 8) with (0 :: [1; 2; 3; 4; 5; 6; 7]). rewrite sweep_first. cbn [Z.eqb andb].
  unfold device_functions. destruct (multi_function m _); cbn [negb]; [|done].
  rewrite sweep_rest by (repeat constructor; lia). by rewrite <- app_assoc, <- filter_app.
Qed.

Lemma sweep_bus_pure base bus seen out :
  sweep_bus base bus (swept m seen out) = swept m (seen ++ bus_functions base m bus) out.
Proof.
  unfold sweep_bus, bus_functions. generalize (upto 32) as devs. intros devs. revert seen.
  induction devs as [|d devs IH]; intros seen; cbn [foldl map concat]; [by rewrite app_nil_r|].
  by rewrite sweep_device, IH, app_assoc.
Qed.

Lemma swept_full seen more out : (32 <= length seen)%nat -> swept m (seen ++ more) out = swept m seen out.
Proof. intros Hl. unfold swept. rewrite take_app_le, length_app, !Nat.min_l by lia. done. Qed.

Lemma sweep_buses_pure base buses seen out : Forall (fun b => b <> 0) buses ->
  sweep_buses base buses (swept m seen out) = swept m (seen ++ concat (map (bus_functions base m) buses)) out.
Proof.
  intros Hb. revert seen. induction Hb as [|b buses Hb _ IH]; intros seen; cbn [sweep_buses map concat].
  { by rewrite app_nil_r. }
  rewrite sweep_bus_pure. apply Z.eqb_neq in Hb. rewrite Hb. cbn [andb]. rewrite app_assoc.
  destruct (Nat.leb_spec 32 (sw_found (swept m (seen ++ bus_functions base m b) out))) as [Hl|_]; [|apply IH].
  symmetry. apply swept_full. cbn [sw_found swept] in Hl. lia.
Qed.

Lemma upto_S n : upto (S n) = 0 :: map (fun k => Z.of_nat (S k)) (seq 0 n).
Proof. unfold upto. cbn [seq map]. by rewrite <- seq_shift, map_map. Qed.

Lemma sweep_bus_zero base rest out : Forall (fun b => b <> 0) rest ->
  sweep_buses base (0 :: rest) (swept m [] out) =
    swept m (match bus_functions base m 0 with
             | [] => []
             | fs => fs ++ concat (map (bus_functions base m) rest)
             end) out.
Proof.
  intros Hr. cbn [sweep_buses]. rewrite sweep_bus_pure. cbn [app].
  destruct (bus_functions base m 0) as [|a fs] eqn:E; [done|].
  destruct (Nat.leb_spec 32 (sw_found (swept m (a :: fs) out))) as [Hl|_].
  - symmetry. apply (swept_full (a :: fs)). cbn [sw_found swept] in Hl. lia.
  - cbn [Z.eqb andb sw_found swept length Nat.min Nat.eqb]. by apply sweep_buses_pure.
Qed.

Lemma enumerate_swept base out :
  sweep_buses base (upto 256) (swept m [] out) = swept m (all_functions base m) out.
Proof.
  rewrite (upto_S 255). apply sweep_bus_zero. apply list.Forall_forall.
  intros b (n & <- & _)%list_elem_of_In%in_map_iff. lia.
Qed.
End Pure.
End Ecam.

(** ** Addresses *)
Definition ecam_window (base a : Z) : Prop := base <= a < base + 2 ^ 28.

Lemma ecam_addr_sum base bus dev func reg :
  0 <= base -> base + 2 ^ 28 <= M32 -> 0 <= bus < 256 -> 0 <= dev < 32 -> 0 <= func < 8 -> 0 <= reg < 4096 ->
  ecam_addr base bus dev func reg = base + 1048576 * bus + 32768 * dev + 4096 * func + reg.
Proof.
  intros Hb Ht Hbus Hdev Hf Hr. unfold ecam_addr, u32_shl. rewrite !Z.shiftl_mul_pow2 by lia.
  change (2 ^ 20) with 1048576. change (2 ^ 15) with 32768. change (2 ^ 12) with 4096. change (2 ^ 28) with 268435456 in Ht.
  unfold u32_add. rewrite !(wrap32_small (_ * _)) by (unfold u32, M32 in *; lia).
  rewrite (wrap32_small (base + _)) by (unfold u32, M32 in *; lia).
  rewrite (wrap32_small (base + bus * 1048576 + dev * 32768)) by (unfold u32, M32 in *; lia).
  rewrite (wrap32_small (base + bus * 1048576 + dev * 32768 + func * 4096)) by (unfold u32, M32 in *; lia).
  rewrite wrap32_small by (unfold u32, M32 in *; lia). lia.
Qed.

(** ECAM addressing: with the window inside the address space, the address
    of a register lies in the window and determines bus, device, function and
    register offset, so no two configuration registers share an address. *)
Theorem ecam_addr_injective (base bus dev func reg bus' dev' func' reg' : Z) :
  0 <= base -> base + 2 ^ 28 <= M32 ->
  0 <= bus < 256 -> 0 <= dev < 32 -> 0 <= func < 8 -> 0 <= reg < 4096 ->
  0 <= bus' < 256 -> 0 <= dev' < 32 -> 0 <= func' < 8 -> 0 <= reg' < 4096 ->
  ecam_window base (ecam_addr base bus dev func reg) /\
  (ecam_addr base bus dev func reg = ecam_addr base bus' dev' func' reg' ->
   bus = bus' /\ dev = dev' /\ func = func' /\ reg = reg').
Proof.
  intros. rewrite !ecam_addr_sum by done. unfold ecam_window. change (2 ^ 28) with 268435456. lia.
Qed.

(** ** Enumeration *)
Section EcamClaims.
Context {B : Type} `{Bus B} (arch : Arch).

(** C32. Enumeration is exact on a machine whose reads have no side effect (the
    hypothesis) and complete, the unaligned one at offset 0x0E included: the
    sweep makes no write, and reports the first 32 present functions in bus,
    device and function order (all functions of a device that says it has
    several, function 0 of any other), each table entry holding that function's
    identification, command, class and BAR 0. When bus 0 is empty the sweep
    stops there and reports nothing, whatever the other buses hold. *)
Theorem enumerate_ecam_exact (base : Z) (out : list PcieHeader) (m : Machine B) :
  (forall a, snd (peek_u32 arch a m) = m) ->
  enumerate_ecam arch base out m =
    (Nat.min 32 (length (all_functions arch base m)),
     fill_from arch m 0 (take 32 (all_functions arch base m)) out, m).
Proof.
  intros Hp. unfold enumerate_ecam.
  change {| sw_found := 0; sw_out := out; sw_m := m |} with (swept arch m [] out).
  by rewrite (enumerate_swept arch m Hp).
Qed.

(** ** Sizing a BAR *)
Lemma bar_size_does a : reg_slot arch a = None ->
  does (B := B) (bar_size arch a) (fun r t => exists orig mask,
    t = [Ld a orig; St a 0xFFFFFFFF; Ld a mask; St a orig] /\ r = u32_not (Z.land mask (u32_not 0xF)) +w 1) never.
Proof.
  intros Hs. unfold bar_size.
  eapply does_step; [by apply does_peek|by intros ? []|intros orig ? ->].
  eapply does_step; [by apply does_poke|by intros ? []|intros ? ? ->].
  eapply does_step; [by apply does_peek|by intros ? []|intros mask ? ->].
  eapply does_step; [by apply does_poke|by intros ? []|intros ? ? ->].
  eapply does_mono; [apply does_ret| |by intros ? []]. intros r t (-> & ->). by exists orig, mask.
Qed.

(** The mask a memory BAR of [2^k] bytes reads back, less its flag bits. *)
Lemma mask_clear k flags : 4 <= k < 32 -> 0 <= flags < 16 ->
  Z.land (Z.lor (M32 - 2 ^ k) flags) (u32_not 0xF) = M32 - 2 ^ k.
Proof.
  intros Hk Hf.
  assert (forall j, 4 <= j < 32 -> 16 * (2 ^ j / 16) = 2 ^ j /\ 2 ^ j < M32 /\ 16 <= 2 ^ j) as Hp.
  { intros j Hj. replace j with (j - 4 + 4) by lia. rewrite Z.pow_add_r by lia. change (2 ^ 4) with 16.
    rewrite Z.div_mul by lia. assert (2 ^ (j - 4) < 2 ^ 28) by (apply Z.pow_lt_mono_r; lia).
    assert (0 < 2 ^ (j - 4)) by (apply Z.pow_pos_nonneg; lia). unfold M32. change (2 ^ 28) with 268435456 in *. lia. }
  destruct (Hp k Hk) as (E16 & Hlt & Hge).
  apply Z.bits_inj'. intros i Hi. rewrite Z.land_spec, Z.lor_spec.
  assert (forall n, 0 <= n < 4 -> Z.testbit (M32 - 2 ^ k) n = false) as Hlow.
  { intros n Hn. rewrite <- (Z.mod_pow2_bits_low _ 4) by lia.
    replace ((M32 - 2 ^ k) mod 2 ^ 4) with 0; [apply Z.bits_0|]. change (2 ^ 4) with 16. unfold M32 in *.
    Z.to_euclidean_division_equations. lia. }
  destruct (Z.lt_ge_cases i 4).
  - rewrite (testbit_u32_not 0xF) by (unfold u32, M32; lia). rewrite Hlow by lia.
    assert (Z.testbit 0xF i = true) as ->; [|by rewrite andb_false_r].
    change 0xF with (Z.ones 4). apply Z.ones_spec_low. lia.
  - rewrite (testbit_high 4 flags) by (change (2 ^ 4) with 16; lia). rewrite orb_false_r.
    destruct (Z.lt_ge_cases i 32).
    + rewrite (testbit_u32_not 0xF) by (unfold u32, M32; lia). rewrite (testbit_high 4 0xF) by (change (2 ^ 4) with 16; lia).
      apply andb_true_r.
    + rewrite (testbit_high 32 (M32 - 2 ^ k)) by (rewrite <- ?M32_pow; lia). done.
Qed.

Lemma size_of_mask k flags : 4 <= k < 32 -> 0 <= flags < 16 ->
  u32_not (Z.land (Z.lor (M32 - 2 ^ k) flags) (u32_not 0xF)) +w 1 = 2 ^ k.
Proof.
  intros Hk Hf. rewrite mask_clear by done.
  unfold u32_not, u32_add. replace (M32 - 1 - (M32 - 2 ^ k) + 1) with (2 ^ k) by lia.
  apply wrap32_small. unfold u32. rewrite M32_pow. split; [apply Z.pow_nonneg; lia|apply Z.pow_lt_mono_r; lia].
Qed.

(** BAR sizing: the probe reads the BAR, writes all ones, reads the mask
    back and writes the original value back, with no other access; for a
    memory BAR of [2^k] bytes, whose mask has its upper bits set and its four
    flag bits arbitrary, the answer is [2^k]; for an unimplemented BAR, whose
    mask is zero, the sum wraps and the answer is 0. *)
Theorem bar_size_correct (a : Z) :
  reg_slot arch a = None ->
  does (B := B) (bar_size arch a) (fun r t => exists orig mask,
    t = [Ld a orig; St a 0xFFFFFFFF; Ld a mask; St a orig] /\
    (forall k flags, 4 <= k < 32 -> 0 <= flags < 16 -> mask = Z.lor (M32 - 2 ^ k) flags -> r = 2 ^ k) /\
    (mask = 0 -> r = 0)) never.
Proof.
  intros Hs. eapply does_mono; [by apply bar_size_does| |done]. intros r t (orig & mask & -> & ->).
  exists orig, mask. split_and!; [done| |by intros ->]. intros k flags Hk Hf ->. by apply size_of_mask.
Qed.
End EcamClaims.

(** ** The DMA ring *)
Record DmaDescriptor := { src_addr : Z; dest_addr : Z; dd_length : Z; dd_flags : Z }.
Definition descriptor_zero : DmaDescriptor := {| src_addr := 0; dest_addr := 0; dd_length := 0; dd_flags := 0 |}.

(** [descriptors], with [tail] as the write and [head] as the read index. *)
Definition AutonomousDmaRing : Type := Ring (A := DmaDescriptor).

Definition dma_new : AutonomousDmaRing := {| rg_buf := replicate 128 descriptor_zero; rg_wr := 0; rg_rd := 0 |}.

Definition submit_transfer (src dest len : Z) (r : AutonomousDmaRing) : Result unit unit * AutonomousDmaRing :=
  let cur_tail := rg_wr r in
  let next_tail := ((cur_tail + 1) mod 128)%nat in
  if (next_tail =? rg_rd r)%nat then (Err tt, r)
  else
    let desc := {| src_addr := src; dest_addr := dest; dd_length := len; dd_flags := 1 |} in
    (Ok tt, {| rg_buf := aset (rg_buf r) cur_tail desc; rg_wr := next_tail; rg_rd := rg_rd r |}).

Definition has_completed (r : AutonomousDmaRing) : bool := negb (rg_rd r =? rg_wr r)%nat.

Definition capacity (r : AutonomousDmaRing) : nat := ((rg_rd r + 128 - rg_wr r - 1) mod 128)%nat.

(** Driver calls and completions by the device, which takes the oldest
    descriptor and advances the head. *)
Inductive DmaOp := Submit (src dest len : Z) | Capacity | HasCompleted | DeviceTakes.
Inductive DmaRes := RSubmit (r : Result unit unit) | RCapacity (n : nat) | RCompleted (b : bool) | RTaken (d : option DmaDescriptor).

Definition dma_step (o : DmaOp) (r : AutonomousDmaRing) : DmaRes * AutonomousDmaRing :=
  match o with
  | Submit s d l => let (res, r') := submit_transfer s d l r in (RSubmit res, r')
  | Capacity => (RCapacity (capacity r), r)
  | HasCompleted => (RCompleted (has_completed r), r)
  | DeviceTakes => match ring_pop 128 descriptor_zero r with
                   | Some (d, r') => (RTaken (Some d), r')
                   | None => (RTaken None, r)
                   end
  end.

(** The specification: a queue of at most 127 descriptors. *)
Definition dma_spec (o : DmaOp) (q : list DmaDescriptor) : DmaRes * list DmaDescriptor :=
  match o with
  | Submit s d l =>
      if (length q <? 127)%nat
      then (RSubmit (Ok tt), q ++ [{| src_addr := s; dest_addr := d; dd_length := l; dd_flags := 1 |}])
      else (RSubmit (Err tt), q)
  | Capacity => (RCapacity (127 - length q), q)
  | HasCompleted => (RCompleted (match q with [] => false | _ => true end), q)
  | DeviceTakes => match q with d :: q' => (RTaken (Some d), q') | [] => (RTaken None, []) end
  end.

Definition dma_rel (r : AutonomousDmaRing) (q : list DmaDescriptor) : Prop :=
  wf_ring 128 r /\ items 128 descriptor_zero r = q.

Lemma submit_push s d l r :
  submit_transfer s d l r =
    match ring_push 128 {| src_addr := s; dest_addr := d; dd_length := l; dd_flags := 1 |} r with
    | Some r' => (Ok tt, r')
    | None => (Err tt, r)
    end.
Proof. unfold submit_transfer, ring_push, advance. by destruct (_ =? _)%nat. Qed.

Lemma dma_counts r q : dma_rel r q ->
  length q = count 128 (rg_wr r) (rg_rd r) /\ capacity r = (127 - length q)%nat /\ has_completed r = negb (length q =? 0)%nat.
Proof.
  intros [[_ Hw Hr] <-]. rewrite items_length. split; [done|]. unfold capacity, has_completed, count.
  destruct (Nat.leb_spec (rg_rd r) (rg_wr r)).
  - split.
    + rewrite (wrap_mod 128) by lia. destruct (Nat.ltb_spec (rg_rd r + 128 - rg_wr r - 1) 128); lia.
    + f_equal. destruct (Nat.eqb_spec (rg_rd r) (rg_wr r)), (Nat.eqb_spec (rg_wr r - rg_rd r) 0); (done || lia).
  - split.
    + rewrite (wrap_mod 128) by lia. destruct (Nat.ltb_spec (rg_rd r + 128 - rg_wr r - 1) 128); lia.
    + f_equal. destruct (Nat.eqb_spec (rg_rd r) (rg_wr r)), (Nat.eqb_spec (128 - rg_rd r + rg_wr r) 0); (done || lia).
Qed.

Lemma dma_step_sim o r q : dma_rel r q ->
  fst (dma_step o r) = fst (dma_spec o q) /\ dma_rel (snd (dma_step o r)) (snd (dma_spec o q)).
Proof.
  intros Hr. destruct (dma_counts r q Hr) as (Hlen & Hcap & Hdone). destruct Hr as [Hwf Hq].
  destruct o as [s d l| | |]; cbn [dma_step dma_spec].
  - rewrite submit_push.
    pose proof (ring_push_spec 128 descriptor_zero ltac:(lia) {| src_addr := s; dest_addr := d; dd_length := l; dd_flags := 1 |} r Hwf) as Hp.
    pose proof (items_bound 128 descriptor_zero ltac:(lia) r Hwf) as Hb. rewrite Hq in Hp, Hb.
    destruct (ring_push 128 _ r) as [r'|] eqn:E.
    + destruct Hp as [Hwf' Hi]. pose proof (items_bound 128 descriptor_zero ltac:(lia) r' Hwf') as Hb'.
      rewrite Hi, length_app in Hb'. cbn in Hb'. destruct (Nat.ltb_spec (length q) 127); [by split|lia].
    + destruct (Nat.ltb_spec (length q) 127); [lia|by split].
  - by rewrite Hcap.
  - rewrite Hdone. by destruct q.
  - pose proof (ring_pop_spec 128 descriptor_zero ltac:(lia) r Hwf) as Hp. 
    destruct (ring_pop 128 descriptor_zero r) as [[d r']|]; rewrite Hq in Hp.
    + destruct Hp as [Hwf' ->]. by split.
    + destruct q; [|done]. split; [done|]. by split.
Qed.

(** The DMA ring refines a queue of at most 127 descriptors under every
    sequence of submissions and device completions: a submission is refused
    exactly when 127 transfers are pending, the device takes descriptors in
    submission order, [capacity] is 127 less the pending transfers, and
    [has_completed] answers true exactly while some transfer is still pending. *)
Theorem dma_ring_refines (os : list DmaOp) :
  fst (Prelude.run dma_step os dma_new) = fst (Prelude.run dma_spec os []).
Proof.
  apply (run_simulation dma_step dma_spec dma_rel dma_step_sim).
  split; [|done]. apply (ring_new_wf 128 descriptor_zero). lia.
Qed.

(** ** Witnesses *)
Lemma ecam_addr_injective_witness :
  ecam_window ECAM_BASE_ARM (ecam_addr ECAM_BASE_ARM 3 4 5 16) /\
  (ecam_addr ECAM_BASE_ARM 3 4 5 16 = ecam_addr ECAM_BASE_ARM 3 4 6 16 -> 3 = 3 /\ 4 = 4 /\ 5 = 6 /\ 16 = 16).
Proof. apply (ecam_addr_injective ECAM_BASE_ARM 3 4 5 16 3 4 6 16); unfold ECAM_BASE_ARM, M32; lia. Defined.

Definition demo_config : Machine (gmap Z Z) :=
  boot_machine (ram_write 0x40008000 0x12348086 (ram_write 0x40008010 0xF0000000 ∅)).

Lemma enumerate_ecam_exact_witness :
  enumerate_ecam Arm ECAM_BASE_ARM (replicate 32 header_zero) demo_config =
    (Nat.min 32 (length (all_functions Arm ECAM_BASE_ARM demo_config)),
     fill_from Arm demo_config 0 (take 32 (all_functions Arm ECAM_BASE_ARM demo_config)) (replicate 32 header_zero),
     demo_config).
Proof.
  apply (enumerate_ecam_exact Arm ECAM_BASE_ARM (replicate 32 header_zero) demo_config).
  intros a. unfold peek_u32. destruct (reg_slot Arm a); reflexivity.
Defined.

Example bus_zero_of_demo : bus_functions Arm ECAM_BASE_ARM demo_config 0 = [0x40008000].
Proof. vm_compute. reflexivity. Qed.

Lemma bar_size_correct_witness :
  does (B := gmap Z Z) (bar_size Arm 0x40000010) (fun r t => exists orig mask,
    t = [Ld 0x40000010 orig; St 0x40000010 0xFFFFFFFF; Ld 0x40000010 mask; St 0x40000010 orig] /\
    (forall k flags, 4 <= k < 32 -> 0 <= flags < 16 -> mask = Z.lor (M32 - 2 ^ k) flags -> r = 2 ^ k) /\
    (mask = 0 -> r = 0)) never.
Proof. apply (bar_size_correct Arm 0x40000010). reflexivity. Defined.
