(* ===== verification/HrosKernel.v ===== *)
(** * HrosKernel: the kernel crate (crates/hros-kernel/src/lib.rs)

    Its memory functions act on the bus directly: the registry of the
    stand-alone crates is a static of another crate with no fixed address. The
    theorem compares them with the kernel's own (src/kernel/memory.rs), which
    see the registry words on the bus. The vector table of the crate is its
    word image, with the hardware's reading of it. *)
From S2P Require Import Prelude Registry AuditRing Memory.
Local Open Scope Z_scope.
Local Open Scope u32_scope.

Definition HK_BANNER : list Z := bytes "Holy Rust REPL v0.1" ++ [13; 10].

(** ** exec *)
Definition HK_EXEC_BUFFER_SIZE : nat := 4096.
Definition HK_EXEC_BUFFER : list Z := replicate HK_EXEC_BUFFER_SIZE 0.

(** ** memory *)
Section Access.
Context {B : Type} `{Bus B}.
Implicit Type b : B.

Definition hk_peek_u32 (addr : Z) b : Z * B := bus_read addr b.
Definition hk_poke_u32 (addr val : Z) b : B := bus_write addr val b.

Definition hk_reg_set_bit (addr bit : Z) b : B :=
  let (x, b1) := hk_peek_u32 addr b in
  let v := Z.lor x (shl_bit bit) in
  hk_poke_u32 addr v b1.

Definition hk_reg_clr_bit (addr bit : Z) b : B :=
  let (x, b1) := hk_peek_u32 addr b in
  let v := Z.land x (u32_not (shl_bit bit)) in
  hk_poke_u32 addr v b1.

(** [while dst < end], one word per turn. *)
Fixpoint hk_copy_words (fuel : nat) (src dst data_end : Z) b : B :=
  match fuel with
  | O => b
  | S f =>
      if dst <? data_end then
        let (v, b1) := hk_peek_u32 src b in
        hk_copy_words f (src + 4) (dst + 4) data_end (hk_poke_u32 dst v b1)
      else b
  end.

(** [while z < bss_end]. *)
Fixpoint hk_zero_words (fuel : nat) (z bss_end : Z) b : B :=
  match fuel with
  | O => b
  | S f => if z <? bss_end then hk_zero_words f (z + 4) bss_end (hk_poke_u32 z 0 b) else b
  end.

Definition hk_init_data_bss (sidata sdata edata sbss ebss : Z) b : B :=
  hk_zero_words (section_fuel sbss ebss) sbss ebss
    (hk_copy_words (section_fuel sdata edata) sidata sdata edata b).
End Access.

(** ** interrupt *)
Record HkVectorTable := {
  vt_initial_sp : Z;
  vt_reset : Z;
  vt_handlers : list (option Z);
}.

(** [RAM_VECTOR_TABLE]; [fault_hang] stands for the address of the handler. *)
Definition HK_RAM_VECTOR_TABLE (fault_hang : Z) : HkVectorTable :=
  {| vt_initial_sp := 0; vt_reset := fault_hang; vt_handlers := replicate 32 None |}.

(** The image [repr(C)] gives the table; [None] is the null word. *)
Definition vt_words (t : HkVectorTable) : list Z :=
  vt_initial_sp t :: vt_reset t :: map (fun h => default 0 h) (vt_handlers t).

(** ** Agreement with the kernel's functions *)
Section Agreement.
Context {B : Type} `{Bus B} (arch : Arch).
Implicit Type m : Machine B.

(** An access of one implementation seen on the state of the other. *)
Definition on_bus {A} (f : B -> A * B) m : A * Machine B := let (v, b) := f (m_bus m) in (v, set_bus b m).
Definition to_bus (f : B -> B) m : Machine B := set_bus (f (m_bus m)) m.

(** A word outside the registry. *)
Definition no_slot (a : Z) : Prop := reg_slot arch a = None.

(** A word range outside the registry. *)
Definition no_slots (lo hi : Z) : Prop := forall a, lo <= a < hi -> no_slot a.

Lemma peek_on_bus a m : no_slot a -> peek_u32 arch a m = on_bus (hk_peek_u32 a) m.
Proof. unfold no_slot, peek_u32, on_bus, hk_peek_u32. by intros ->. Qed.

Lemma poke_to_bus a v m : no_slot a -> poke_u32 arch a v m = to_bus (hk_poke_u32 a v) m.
Proof. unfold no_slot, poke_u32, to_bus, hk_poke_u32. by intros ->. Qed.

Lemma to_bus_id m : to_bus (fun b => b) m = m.
Proof. by destruct m. Qed.

Lemma to_bus_comp f g m : to_bus f (to_bus g m) = to_bus (fun b => f (g b)) m.
Proof. done. Qed.

Lemma set_bit_to_bus a bit m : no_slot a -> reg_set_bit arch a bit m = to_bus (hk_reg_set_bit a bit) m.
Proof.
  intros Ha. unfold reg_set_bit, to_bus, hk_reg_set_bit. rewrite peek_on_bus by done. unfold on_bus.
  destruct (hk_peek_u32 a (m_bus m)). by rewrite poke_to_bus.
Qed.

Lemma clr_bit_to_bus a bit m : no_slot a -> reg_clr_bit arch a bit m = to_bus (hk_reg_clr_bit a bit) m.
Proof.
  intros Ha. unfold reg_clr_bit, to_bus, hk_reg_clr_bit. rewrite peek_on_bus by done. unfold on_bus.
  destruct (hk_peek_u32 a (m_bus m)). by rewrite poke_to_bus.
Qed.

Lemma zero_to_bus n z hi m : no_slots z hi -> zero_words arch n z hi m = to_bus (hk_zero_words n z hi) m.
Proof.
  revert z m. induction n as [|n IH]; intros z m Hz; cbn [zero_words hk_zero_words]; [by rewrite to_bus_id|].
  unfold to_bus. destruct (Z.ltb_spec z hi); [|by destruct m].
  rewrite IH by (intros a ?; apply Hz; lia). rewrite poke_to_bus by (apply Hz; lia). done.
Qed.

Lemma copy_to_bus n src dst hi m : no_slots src (src + (hi - dst)) -> no_slots dst hi ->
  copy_words arch n src dst hi m = to_bus (hk_copy_words n src dst hi) m.
Proof.
  revert src dst m. induction n as [|n IH]; intros src dst m Hs Hd; cbn [copy_words hk_copy_words]; [by rewrite to_bus_id|].
  unfold to_bus. destruct (Z.ltb_spec dst hi); [|by destruct m].
  rewrite peek_on_bus by (apply Hs; lia). unfold on_bus. destruct (hk_peek_u32 src (m_bus m)) as [v b].
  rewrite poke_to_bus by (apply Hd; lia).
  rewrite IH; [done|intros a ?; apply Hs; lia|intros a ?; apply Hd; lia].
Qed.

(** The stand-alone kernel crate accesses memory as the kernel does: outside
    the words of the capability registry its reads, writes and bit updates have
    the same value and the same effect on the bus, and section initialisation
    does too whenever the three sections avoid the registry. *)
Theorem hk_memory_agrees (a v bit sidata sdata edata sbss ebss : Z) (m : Machine B) :
  no_slot a ->
  no_slots sidata (sidata + (edata - sdata)) -> no_slots sdata edata -> no_slots sbss ebss ->
  peek_u32 arch a m = on_bus (hk_peek_u32 a) m /\
  poke_u32 arch a v m = to_bus (hk_poke_u32 a v) m /\
  reg_set_bit arch a bit m = to_bus (hk_reg_set_bit a bit) m /\
  reg_clr_bit arch a bit m = to_bus (hk_reg_clr_bit a bit) m /\
  init_data_bss arch sidata sdata edata sbss ebss m = to_bus (hk_init_data_bss sidata sdata edata sbss ebss) m.
Proof.
  intros Ha Hsi Hd Hb. split_and!; auto using peek_on_bus, poke_to_bus, set_bit_to_bus, clr_bit_to_bus.
  unfold init_data_bss. by rewrite copy_to_bus, zero_to_bus.
Qed.
End Agreement.

(** ** Where the hardware looks

    The entry of exception [n] is word [n] of the table. Interrupt line [k] is
    exception [16 + k], so it goes through handler [14 + k] and the last
    fourteen of the 32 lines have no entry at all. *)
Lemma hk_exception_entry (t : HkVectorTable) (n : nat) :
  (2 <= n)%nat -> length (vt_handlers t) = 32%nat ->
  vt_words t !! n = (fun h => default 0 h) <$> vt_handlers t !! (n - 2)%nat.
Proof.
  intros Hn Hl. destruct n as [|[|n]]; [lia..|]. unfold vt_words. cbn [lookup list_lookup Nat.sub].
  rewrite Nat.sub_0_r. apply list_lookup_fmap.
Qed.

Lemma hk_irq_entry (t : HkVectorTable) (k : nat) :
  length (vt_handlers t) = 32%nat ->
  (forall h, (k < 18)%nat -> vt_handlers t !! (14 + k)%nat = Some h -> vt_words t !! (16 + k)%nat = Some (default 0 h)) /\
  ((18 <= k)%nat -> vt_words t !! (16 + k)%nat = None).
Proof.
  intros Hl. rewrite hk_exception_entry by (done || lia). replace (16 + k - 2)%nat with (14 + k)%nat by lia. split.
  - intros h _ Hh. by rewrite Hh.
  - intros Hk. by rewrite lookup_ge_None_2 by lia.
Qed.

(** ** Witnesses *)
Lemma no_slots_low arch hi : hi <= 0x20001000 -> no_slots arch 0 hi.
Proof.
  intros Hh a Ha. unfold no_slot, reg_slot, CAPREG_BASE. destruct arch.
  - replace (0 <=? a - 0x20001000) with false by (symmetry; apply Z.leb_gt; lia). done.
  - replace (0 <=? a - 0x80001800) with false by (symmetry; apply Z.leb_gt; lia). done.
Qed.

Lemma no_slots_mono arch lo hi lo' hi' : lo <= lo' -> hi' <= hi -> no_slots arch lo hi -> no_slots arch lo' hi'.
Proof. intros ? ? Hn a ?. apply Hn. lia. Qed.

Lemma hk_memory_agrees_witness :
  let m := boot_machine (ram_write 0x100 7 ∅) in
  init_data_bss Arm 0x100 0x20000000 0x20000004 0x20000004 0x20000010 m =
    to_bus (hk_init_data_bss 0x100 0x20000000 0x20000004 0x20000004 0x20000010) m.
Proof.
  cbn zeta. apply (hk_memory_agrees Arm 0x40020000 0 0 0x100 0x20000000 0x20000004 0x20000004 0x20000010);
    [reflexivity | apply (no_slots_mono Arm 0 0x20001000); [lia|lia|apply no_slots_low; lia] ..].
Defined.
