(* ===== verification/HrosDrivers.v ===== *)
(** * HrosDrivers: the driver crate (crates/hros-drivers)

    The crate repeats the kernel's PCIe and timer drivers over the kernel
    crate's memory functions. Unlike the kernel it is not tied to the two
    32-bit targets, so [usize] has the width of the class [Usize], 32 or 64
    bits. BAR sizing depends on that width; the DMA ring, here with its [u32]
    indices, does not. *)
From S2P Require Import Prelude Registry AuditRing Memory Drivers Ring Pcie HrosKernel.
Local Open Scope Z_scope.
Local Open Scope u32_scope.

(** ** usize *)
Class Usize := {
  usize_bits : Z;
  usize_cases : usize_bits = 32 \/ usize_bits = 64;
}.

#[export] Instance usize32 : Usize := { usize_bits := 32; usize_cases := or_introl eq_refl }.
#[export] Instance usize64 : Usize | 10 := { usize_bits := 64; usize_cases := or_intror eq_refl }.

Section Word.
Context {W : Usize}.

Definition us_wrap (x : Z) : Z := x mod 2 ^ usize_bits.
Definition us_add (a b : Z) : Z := us_wrap (a + b).
Definition us_sub (a b : Z) : Z := us_wrap (a - b).
Definition us_shl (a n : Z) : Z := us_wrap (Z.shiftl a n).
Definition us_not (a : Z) : Z := 2 ^ usize_bits - 1 - a.

Lemma us_wrap_small x : 0 <= x < M32 -> us_wrap x = x.
Proof.
  intros Hx. apply Z.mod_small. rewrite M32_pow in Hx. destruct usize_cases as [->| ->]; [done|].
  change (2 ^ 64) with M64. unfold M64. change (2 ^ 32) with 4294967296 in Hx. lia.
Qed.

(** ** pcie *)
Definition HD_ECAM_BASE_ARM : Z := 0x40000000.
Definition HD_ECAM_BASE_RISCV : Z := 0x30000000.

Definition hd_ecam_addr (base bus dev func reg : Z) : Z :=
  us_add (us_add (us_add (us_add base (us_shl bus 20)) (us_shl dev 15)) (us_shl func 12)) reg.

(** The header and descriptor structs are the kernel's. *)
Definition HdPcieHeader : Type := PcieHeader.
Definition HdDmaDescriptor : Type := DmaDescriptor.

Section Devices.
Context {B : Type} `{Bus B}.
Implicit Type b : B.

Definition hd_bar_size (bar_addr : Z) b : Z * B :=
  let (orig, b1) := hk_peek_u32 bar_addr b in
  let b2 := hk_poke_u32 bar_addr 0xFFFFFFFF b1 in
  let (mask, b3) := hk_peek_u32 bar_addr b2 in
  let b4 := hk_poke_u32 bar_addr orig b3 in
  (us_add (us_not (Z.land mask (us_not 0xF))) 1, b4).
End Devices.

Record HdDmaRing := { hd_descriptors : list HdDmaDescriptor; hd_head : Z; hd_tail : Z }.

Definition hd_dma_new : HdDmaRing :=
  {| hd_descriptors := replicate 128 descriptor_zero; hd_head := 0; hd_tail := 0 |}.

(** The store goes through a raw pointer, without a bounds check; [None] is
    the store behind the array. *)
Definition hd_submit_transfer (src dest len : Z) (r : HdDmaRing) : option (Result unit unit * HdDmaRing) :=
  let cur_tail := hd_tail r in
  let next_tail := (cur_tail +w 1) mod 128 in
  if next_tail =? hd_head r then Some (Err tt, r)
  else if (cur_tail <? Z.of_nat (length (hd_descriptors r))) then
    let desc := {| src_addr := src; dest_addr := dest; dd_length := len; dd_flags := 1 |} in
    Some (Ok tt, {| hd_descriptors := aset (hd_descriptors r) (Z.to_nat cur_tail) desc;
                    hd_head := hd_head r; hd_tail := next_tail |})
  else None.

Definition hd_has_completed (r : HdDmaRing) : bool := negb (hd_head r =? hd_tail r).

Definition hd_capacity (r : HdDmaRing) : Z :=
  us_sub (us_sub (us_add (hd_head r) 128) (hd_tail r)) 1 mod 128.

(** ** timer *)
Definition hd_systick_reload (f_cpu_hz delta_ms : Z) : Z := (f_cpu_hz / 1000) *w delta_ms.
Definition HD_STK_CTRL : Z := 0xE000E010.
Definition HD_STK_LOAD : Z := 0xE000E014.
Definition HD_STK_VAL : Z := 0xE000E018.
Definition HD_CTRL_BITS : Z := 0x07.

(** [arm::configure]; the RISC-V variant only fences. *)
Definition hd_configure {B} `{Bus B} (arch : Arch) (ticks : Z) (b : B) : B :=
  match arch with
  | Arm =>
      let b1 := bus_write HD_STK_LOAD ticks b in
      let b2 := bus_write HD_STK_VAL 0 b1 in
      bus_write HD_STK_CTRL HD_CTRL_BITS b2
  | Riscv32 => b
  end.

(** ** The stubs of lib.rs *)
Definition hd_uart_init {B} (b : B) : B := b.
Definition hd_put_byte {B} (_ : Z) (b : B) : B := b.
Definition hd_poll_get_byte {B} (b : B) : option Z * B := (None, b).
Definition hd_write_str {B} (_ : list Z) (b : B) : B := b.

(** [loop { wfi }]: [None] is a loop still running after [turns] rounds. *)
Fixpoint hd_repl_run {B} (turns : nat) (b : B) : option B :=
  match turns with O => None | S n => hd_repl_run n b end.

(** ** Addresses *)
Lemma hd_ecam_addr_sum base bus dev func reg :
  0 <= base -> base + 2 ^ 28 <= M32 -> 0 <= bus < 256 -> 0 <= dev < 32 -> 0 <= func < 8 -> 0 <= reg < 4096 ->
  hd_ecam_addr base bus dev func reg = ecam_addr base bus dev func reg.
Proof.
  intros Hb Ht Hbus Hdev Hf Hr. rewrite ecam_addr_sum by done.
  unfold hd_ecam_addr, us_add, us_shl. rewrite !Z.shiftl_mul_pow2 by lia.
  change (2 ^ 20) with 1048576. change (2 ^ 15) with 32768. change (2 ^ 12) with 4096. change (2 ^ 28) with 268435456 in Ht.
  rewrite !(us_wrap_small (_ * _)) by (unfold M32 in *; lia).
  rewrite (us_wrap_small (base + _)) by (unfold M32 in *; lia).
  rewrite (us_wrap_small (base + bus * 1048576 + dev * 32768)) by (unfold M32 in *; lia).
  rewrite (us_wrap_small (base + bus * 1048576 + dev * 32768 + func * 4096)) by (unfold M32 in *; lia).
  rewrite us_wrap_small by (unfold M32 in *; lia). lia.
Qed.

(** ** BAR sizing *)
Lemma land_us_not x : u32 x -> Z.land x (us_not 0xF) = Z.land x (u32_not 0xF).
Proof.
  intros Hx. assert (x = Z.land x (Z.ones 32)) as E.
  { rewrite Z.land_ones by lia. symmetry. apply Z.mod_small. unfold u32 in Hx. by rewrite M32_pow in Hx. }
  rewrite E at 1. rewrite <- Z.land_assoc. f_equal. unfold us_not.
  by destruct usize_cases as [->| ->].
Qed.

Lemma us_size_of_mask k flags : 4 <= k < 32 -> 0 <= flags < 16 ->
  us_add (us_not (Z.land (Z.lor (M32 - 2 ^ k) flags) (us_not 0xF))) 1 = 2 ^ usize_bits - M32 + 2 ^ k.
Proof.
  intros Hk Hf. assert (16 <= 2 ^ k < M32) as Hp.
  { rewrite M32_pow. change 16 with (2 ^ 4). split; [apply Z.pow_le_mono_r; lia|apply Z.pow_lt_mono_r; lia]. }
  assert (u32 (Z.lor (M32 - 2 ^ k) flags)) as Hu by (apply lor_u32; unfold u32, M32 in *; lia).
  rewrite land_us_not, mask_clear by done.
  unfold us_add, us_not, us_wrap. replace (_ + 1) with (2 ^ usize_bits - M32 + 2 ^ k) by lia.
  apply Z.mod_small. assert (M32 <= 2 ^ usize_bits) by (rewrite M32_pow; apply Z.pow_le_mono_r; destruct usize_cases; lia). lia.
Qed.
End Word.

Section BarClaims.
Context {B : Type} `{Bus B}.

(** C38. BAR sizing depends on the width of [usize]. For a memory BAR of [2^k]
    bytes, whatever its flag bits and on every bus, the probe answers [2^k]
    with a 32-bit [usize]; with a 64-bit one the complement also sets the upper
    half of the word and the answer is [2^64 - 2^32 + 2^k], never the size. In
    both cases it leaves the BAR written back with the value it read first. *)
Theorem hd_bar_size_width (W : Usize) (a : Z) (b : B) (orig mask k flags : Z) (b1 b2 : B) :
  hk_peek_u32 a b = (orig, b1) -> hk_peek_u32 a (hk_poke_u32 a 0xFFFFFFFF b1) = (mask, b2) ->
  4 <= k < 32 -> 0 <= flags < 16 -> mask = Z.lor (M32 - 2 ^ k) flags ->
  hd_bar_size a b = (if usize_bits =? 32 then 2 ^ k else M64 - M32 + 2 ^ k, hk_poke_u32 a orig b2) /\
  (fst (hd_bar_size a b) = 2 ^ k <-> usize_bits = 32).
Proof.
  intros E1 E2 Hk Hf ->. assert (hd_bar_size a b = (2 ^ usize_bits - M32 + 2 ^ k, hk_poke_u32 a orig b2)) as ->.
  { unfold hd_bar_size. rewrite E1, E2. by rewrite us_size_of_mask. }
  cbn [fst]. destruct usize_cases as [E|E]; rewrite E; cbn [Z.eqb].
  - rewrite <- M32_pow. replace (M32 - M32 + 2 ^ k) with (2 ^ k) by lia. done.
  - rewrite <- M64_pow. split; [done|]. split; [unfold M64, M32; lia|done].
Qed.
End BarClaims.

(** ** The DMA ring *)
Section Dma.
Context {W : Usize}.

Definition hd_dma_step (o : DmaOp) (r : HdDmaRing) : option DmaRes * HdDmaRing :=
  match o with
  | Submit s d l => match hd_submit_transfer s d l r with
                    | Some (res, r') => (Some (RSubmit res), r')
                    | None => (None, r)
                    end
  | Capacity => (Some (RCapacity (Z.to_nat (hd_capacity r))), r)
  | HasCompleted => (Some (RCompleted (hd_has_completed r)), r)
  | DeviceTakes =>
      if hd_head r =? hd_tail r then (Some (RTaken None), r)
      else (Some (RTaken (Some (aget descriptor_zero (hd_descriptors r) (Z.to_nat (hd_head r))))),
            {| hd_descriptors := hd_descriptors r; hd_head := (hd_head r +w 1) mod 128; hd_tail := hd_tail r |})
  end.

(** The kernel's ring with the same contents. *)
Definition ring_of (r : HdDmaRing) : AutonomousDmaRing :=
  {| rg_buf := hd_descriptors r; rg_wr := Z.to_nat (hd_tail r); rg_rd := Z.to_nat (hd_head r) |}.

Record wf_hd (r : HdDmaRing) : Prop := {
  hd_len : length (hd_descriptors r) = 128%nat;
  hd_head_lt : 0 <= hd_head r < 128;
  hd_tail_lt : 0 <= hd_tail r < 128;
}.

Lemma next_index i : 0 <= i < 128 ->
  0 <= (i +w 1) mod 128 < 128 /\ Z.to_nat ((i +w 1) mod 128) = ((Z.to_nat i + 1) mod 128)%nat.
Proof.
  intros Hi. split; [apply Z.mod_pos_bound; lia|]. unfold u32_add. rewrite wrap32_small by (unfold u32, M32; lia).
  rewrite Z2Nat.inj_mod by lia. by rewrite Z2Nat.inj_add by lia.
Qed.

Lemma hd_capacity_ring r : wf_hd r -> Z.to_nat (hd_capacity r) = capacity (ring_of r).
Proof.
  intros [_ Hh Ht]. unfold hd_capacity, us_sub, us_add, capacity, ring_of. cbn [rg_rd rg_wr].
  rewrite (us_wrap_small (hd_head r + 128)) by (unfold M32; lia).
  rewrite (us_wrap_small (hd_head r + 128 - _)) by (unfold M32; lia).
  rewrite us_wrap_small by (unfold M32; lia).
  rewrite Z2Nat.inj_mod, !Z2Nat.inj_sub, Z2Nat.inj_add by lia. done.
Qed.

Lemma hd_step_sim o r : wf_hd r ->
  let (res, r') := dma_step o (ring_of r) in
  fst (hd_dma_step o r) = Some res /\ wf_hd (snd (hd_dma_step o r)) /\ ring_of (snd (hd_dma_step o r)) = r'.
Proof.
  intros Hwf. pose proof Hwf as [Hl Hh Ht]. destruct (next_index _ Hh) as [Hh1 Hh2]. destruct (next_index _ Ht) as [Ht1 Ht2].
  destruct o as [s d l| | |]; cbn [dma_step hd_dma_step].
  - unfold hd_submit_transfer, submit_transfer. cbn [ring_of rg_wr rg_rd rg_buf]. rewrite <- Ht2.
    destruct (Z.eqb_spec ((hd_tail r +w 1) mod 128) (hd_head r)) as [E|E].
    + rewrite E, Nat.eqb_refl. done.
    + destruct (Nat.eqb_spec (Z.to_nat ((hd_tail r +w 1) mod 128)) (Z.to_nat (hd_head r))); [lia|].
      destruct (Z.ltb_spec (hd_tail r) (Z.of_nat (length (hd_descriptors r)))); [|lia]. cbn [fst snd].
      split_and!; [done| |done]. constructor; cbn; [|done..]. by unfold aset; rewrite length_insert.
  - by rewrite hd_capacity_ring.
  - cbn [fst snd]. split_and!; [|done..]. unfold hd_has_completed, has_completed. cbn. do 3 f_equal.
    destruct (Z.eqb_spec (hd_head r) (hd_tail r)), (Nat.eqb_spec (Z.to_nat (hd_head r)) (Z.to_nat (hd_tail r))); (done || lia).
  - unfold ring_pop, advance. cbn [ring_of rg_wr rg_rd rg_buf]. rewrite <- Hh2.
    destruct (Z.eqb_spec (hd_head r) (hd_tail r)), (Nat.eqb_spec (Z.to_nat (hd_head r)) (Z.to_nat (hd_tail r))); try lia; cbn [fst snd]; split_and!; try done.
Qed.

(** The driver crate's ring refines the same bounded queue as the kernel's, on
    either width of [usize]: its [u32] indices stay below 128, so the raw
    pointer store is always inside the array, the subtractions of [capacity]
    never wrap, and every sequence of submissions, queries and device
    completions answers as a queue of at most 127 descriptors. *)
Theorem hd_dma_ring_refines (os : list DmaOp) :
  fst (Prelude.run hd_dma_step os hd_dma_new) = map Some (fst (Prelude.run dma_spec os [])).
Proof.
  enough (forall r q, wf_hd r -> dma_rel (ring_of r) q ->
    fst (Prelude.run hd_dma_step os r) = map Some (fst (Prelude.run dma_spec os q))) as H.
  { apply H; [by split|]. split; [|done]. apply (ring_new_wf 128 descriptor_zero). lia. }
  induction os as [|o os IH]; intros r q Hwf Hrel; [done|]. cbn [Prelude.run].
  pose proof (hd_step_sim o r Hwf) as Hs. pose proof (dma_step_sim o (ring_of r) q Hrel) as Hd.
  destruct (dma_step o (ring_of r)) as [res p], (hd_dma_step o r) as [res' r'], (dma_spec o q) as [res'' q'].
  cbn [fst snd] in *. destruct Hs as (-> & Hwf' & <-). destruct Hd as (-> & Hrel').
  specialize (IH r' q' Hwf' Hrel'). destruct (Prelude.run hd_dma_step os r'), (Prelude.run dma_spec os q').
  cbn in *. by subst.
Qed.
End Dma.

(** ** Timer and stubs *)
Lemma hd_configure_trace {B} `{Bus B} (arch : Arch) (ticks : Z) (b : Traced B) :
  tr_log (hd_configure arch ticks b) = tr_log b ++
    match arch with Arm => [St HD_STK_LOAD ticks; St HD_STK_VAL 0; St HD_STK_CTRL 7] | Riscv32 => [] end.
Proof. destruct arch; cbn; [by rewrite <- !app_assoc|by rewrite app_nil_r]. Qed.

Lemma hd_reload_exact f ms : 0 <= f -> 0 <= ms -> f mod 1000 = 0 -> f / 1000 * ms < M32 ->
  1000 * hd_systick_reload f ms = f * ms.
Proof.
  intros Hf Hm Hd Hlt. unfold hd_systick_reload, u32_mul. assert (0 <= f / 1000) by (apply Z.div_pos; lia).
  rewrite wrap32_small by (unfold u32; nia). assert (f = 1000 * (f / 1000)) by (Z.to_euclidean_division_equations; lia). nia.
Qed.

Lemma hd_repl_run_spins {B} (turns : nat) (b : B) : hd_repl_run turns b = None.
Proof. by induction turns. Qed.

(** ** Witnesses

    A BAR of 4096 bytes: a word that keeps its low bits when written. *)
Definition bar_4k : Bus Z := {|
  bus_read _ w := (w, w);
  bus_write _ v w := Z.lor (Z.land v 0xFFFFF000) 0x8;
  bus_mcycle w := (0, w);
|}.

Lemma hd_bar_size_width_witness :
  fst (@hd_bar_size usize32 Z bar_4k 0x10 0x80001008) = 4096 /\
  fst (@hd_bar_size usize64 Z bar_4k 0x10 0x80001008) = M64 - M32 + 4096.
Proof.
  split.
  - apply (@hd_bar_size_width Z bar_4k usize32 0x10 0x80001008 0x80001008 0xFFFFF008 12 8 0x80001008 0xFFFFF008);
      first [reflexivity | lia].
  - rewrite (proj1 (@hd_bar_size_width Z bar_4k usize64 0x10 0x80001008 0x80001008 0xFFFFF008 12 8 0x80001008 0xFFFFF008
      ltac:(reflexivity) ltac:(reflexivity) ltac:(lia) ltac:(lia) ltac:(reflexivity))). reflexivity.
Defined.
