(* ===== verification/Interrupt.v ===== *)
(** * Interrupt: the vector table in SRAM (src/kernel/interrupt.rs)

    The table is memory: sixteen core-exception words followed by thirty-two
    interrupt words at the address the linker scripts give the [vectors]
    region. The CPU takes exception [n] through the word [n] of the table VTOR
    points to ([exc_vector]). Handlers are code addresses; a null word is
    [None]. *)
From S2P Require Import Prelude Registry AuditRing Memory.
Local Open Scope Z_scope.

Definition VECTOR_SLOTS : nat := 256.
Definition VTOR : Z := 0xE000ED08.

(** Where the linker places [RAM_VECTOR_TABLE]. *)
Definition RAM_VECTOR_TABLE (arch : Arch) : Z :=
  match arch with Arm => 0x20000400 | Riscv32 => 0x80001400 end.

(** Word offsets of the fields of [VectorTable]. *)
Inductive Vector :=
| initial_sp | reset_handler | nmi_handler | hard_fault | mem_manage | bus_fault | usage_fault
| sv_call | debug_mon | pend_sv | sys_tick | irq_handlers (i : nat).

Definition vector_index (v : Vector) : nat :=
  match v with
  | initial_sp => 0 | reset_handler => 1 | nmi_handler => 2 | hard_fault => 3 | mem_manage => 4
  | bus_fault => 5 | usage_fault => 6 | sv_call => 11 | debug_mon => 12 | pend_sv => 14
  | sys_tick => 15 | irq_handlers i => 16 + i
  end.

Definition slot_addr (arch : Arch) (n : nat) : Z := RAM_VECTOR_TABLE arch + 4 * Z.of_nat n.

(** The machine with the RISC-V trap-vector register. *)
Record Core (B : Type) := { core_m : Machine B; core_mtvec : Z }.
Arguments core_m {B} _.
Arguments core_mtvec {B} _.

Section Vectors.
Context {B : Type} `{Bus B} (arch : Arch).
Implicit Type m : Machine B.

Definition relocate_vector_table m : Machine B :=
  match arch with Arm => poke_u32 arch VTOR (RAM_VECTOR_TABLE arch) m | Riscv32 => m end.

Definition attach_jit_irq (irq_index : nat) (jit_fn : Z) m : Machine B :=
  if (irq_index <? 32)%nat then poke_u32 arch (slot_addr arch (vector_index (irq_handlers irq_index))) jit_fn m
  else m.

(** [for i in 0..words]: one word from flash to the table. *)
Fixpoint copy_vectors (words : nat) (src dst : Z) m : Machine B :=
  match words with
  | O => m
  | S n => let (v, m1) := peek_u32 arch src m in copy_vectors n (src + 4) (dst + 4) (poke_u32 arch dst v m1)
  end.

Definition vector_words (vector_start vector_end : Z) : nat :=
  Nat.min (Z.to_nat ((vector_end - vector_start) / 4)) VECTOR_SLOTS.

Definition boot_relocate_vectors (vector_start vector_end trap_hang : Z) (c : Core B) : Core B :=
  match arch with
  | Arm =>
      let m1 := copy_vectors (vector_words vector_start vector_end) vector_start (RAM_VECTOR_TABLE arch) (core_m c) in
      {| core_m := poke_u32 arch VTOR (RAM_VECTOR_TABLE arch) m1; core_mtvec := core_mtvec c |}
  | Riscv32 => {| core_m := core_m c; core_mtvec := Z.land trap_hang (u32_not 3) |}
  end.

(** RISC-V only. *)
Definition configure_riscv_interrupts (table_base_address : Z) (c : Core B) : Core B :=
  {| core_m := core_m c; core_mtvec := Z.lor (Z.land table_base_address (u32_not 3)) 1 |}.

Definition PENDING_REG : Z := 0x40010004.

(** [call] is the effect of running the handler at an address; [None] when it
    does not return. *)
Definition generic_irq_trampoline_ch16 (call : Z -> Machine B -> option (Machine B)) m : option (Machine B) :=
  let (pending, m1) := peek_u32 arch PENDING_REG m in
  let m2 := poke_u32 arch PENDING_REG (Z.land pending (u32_not (bit32 16))) m1 in
  let (handler, m3) := peek_u32 arch (slot_addr arch (vector_index (irq_handlers 16))) m2 in
  if negb (handler =? 0) then call handler m3 else Some m3.

(** Code in which the trampoline itself lives at [tramp]; [other] is the rest. *)
Fixpoint call_code (tramp : Z) (other : Z -> Machine B -> option (Machine B)) (depth : nat) (a : Z) m
  : option (Machine B) :=
  match depth with
  | O => None
  | S d => if a =? tramp then generic_irq_trampoline_ch16 (call_code tramp other d) m else other a m
  end.

(** The handler exception [n] is taken through (ARM). *)
Definition exc_vector (n : nat) m : Z := word_at arch m (word_at arch m VTOR + 4 * Z.of_nat n).

(** ** Lemmas *)
Context (ram : Z -> Prop) `{!BusRam B ram}.

Lemma copy_vectors_words n src dst m :
  copy_vectors n src dst m = copy_words arch n src dst (dst + 4 * Z.of_nat n) m.
Proof.
  revert src dst m. induction n as [|n IH]; intros src dst m; [done|]. cbn [copy_vectors copy_words].
  destruct (Z.ltb_spec dst (dst + 4 * Z.of_nat (S n))); [|lia]. destruct (peek_u32 arch src m) as [v m1].
  rewrite IH. by replace (dst + 4 + 4 * Z.of_nat n) with (dst + 4 * Z.of_nat (S n)) by lia.
Qed.

Lemma slot_addr_inj n k : slot_addr arch n = slot_addr arch k -> n = k.
Proof. unfold slot_addr. lia. Qed.

(** The last handler attached to an interrupt line, if any. *)
Fixpoint attached (atts : list (nat * Z)) (irq : nat) : option Z :=
  match atts with
  | [] => None
  | (i, f) :: rest => match attached rest irq with
                      | Some g => Some g
                      | None => if (i =? irq)%nat && (i <? 32)%nat then Some f else None
                      end
  end.

Definition attach_all (atts : list (nat * Z)) m : Machine B :=
  foldl (fun m '(i, f) => attach_jit_irq i f m) m atts.

Hypothesis Htable : forall i, (i < VECTOR_SLOTS)%nat -> plain arch ram (slot_addr arch i).

Lemma attach_word i f m n : (n < VECTOR_SLOTS)%nat -> u32 f ->
  word_at arch (attach_jit_irq i f m) (slot_addr arch n) =
    if (16 + i =? n)%nat && (i <? 32)%nat then f else word_at arch m (slot_addr arch n).
Proof.
  intros Hn Hf. unfold attach_jit_irq. destruct (Nat.ltb_spec i 32); [|by rewrite andb_false_r].
  cbn [vector_index]. rewrite andb_true_r. destruct (Nat.eqb_spec (16 + i) n) as [->|Hne].
  - apply (word_at_poke_eq arch ram); auto.
  - apply (word_at_poke_ne arch ram); [auto|apply Htable; unfold VECTOR_SLOTS; lia|].
    intros E%slot_addr_inj. lia.
Qed.

Lemma attach_other i f m a : plain arch ram a -> (forall n, (n < VECTOR_SLOTS)%nat -> a <> slot_addr arch n) ->
  word_at arch (attach_jit_irq i f m) a = word_at arch m a.
Proof.
  intros Ha Hne. unfold attach_jit_irq. destruct (Nat.ltb_spec i 32); [|done].
  apply (word_at_poke_ne arch ram); [done| |]; [apply Htable|apply Hne]; cbn; unfold VECTOR_SLOTS; lia.
Qed.

Lemma attach_all_word atts m n : (n < VECTOR_SLOTS)%nat -> Forall (fun p => u32 (snd p)) atts ->
  word_at arch (attach_all atts m) (slot_addr arch n) =
    match (if (16 <=? n)%nat then attached atts (n - 16) else None) with
    | Some f => f
    | None => word_at arch m (slot_addr arch n)
    end.
Proof.
  intros Hn Hu. revert m. induction Hu as [|[i f] atts Hf _ IH]; intros m; [by destruct (16 <=? n)%nat|].
  unfold attach_all. cbn [foldl]. fold (attach_all atts (attach_jit_irq i f m)). rewrite IH.
  cbn [attached]. rewrite attach_word by done. cbn [snd] in Hf.
  destruct (Nat.leb_spec 16 n).
  - destruct (attached atts (n - 16)); [done|]. replace (16 + i =? n)%nat with (i =? n - 16)%nat; [by case_match|].
    destruct (Nat.eqb_spec i (n - 16)), (Nat.eqb_spec (16 + i) n); (done || lia).
  - destruct (Nat.eqb_spec (16 + i) n); [lia|done].
Qed.

Lemma attach_all_other atts m a :
  plain arch ram a -> (forall n, (n < VECTOR_SLOTS)%nat -> a <> slot_addr arch n) ->
  word_at arch (attach_all atts m) a = word_at arch m a.
Proof.
  intros Ha Hne. revert m. induction atts as [|[i f] atts IH]; intros m; [done|].
  unfold attach_all. cbn [foldl]. fold (attach_all atts (attach_jit_irq i f m)). rewrite IH.
  by apply attach_other.
Qed.

(** The trampoline installed in the very slot it dispatches to. *)
Lemma trampoline_reenters tramp other depth m :
  plain arch ram PENDING_REG -> PENDING_REG <> slot_addr arch 32 -> tramp <> 0 ->
  word_at arch m (slot_addr arch 32) = tramp ->
  call_code tramp other depth tramp m = None.
Proof.
  intros Hp Hne Hnz. revert m. induction depth as [|d IH]; intros m Hs; [done|].
  cbn [call_code]. rewrite Z.eqb_refl. unfold generic_irq_trampoline_ch16.
  change (vector_index (irq_handlers 16)) with 32%nat.
  assert (plain arch ram (slot_addr arch 32)) as H32 by (apply Htable; unfold VECTOR_SLOTS; lia).
  rewrite (peek_plain arch ram) by done.
  rewrite (peek_plain arch ram) by done.
  rewrite (word_at_poke_ne arch ram) by (done || congruence). rewrite Hs.
  apply Z.eqb_neq in Hnz. rewrite Hnz. cbn [negb].
  apply IH. rewrite (word_at_poke_ne arch ram) by (done || congruence). done.
Qed.

End Vectors.

Section Claims.
Context {B : Type} `{Bus B} (ram : Z -> Prop) `{!BusRam B ram}.
Hypothesis Htable : forall i, (i < VECTOR_SLOTS)%nat -> plain Arm ram (slot_addr Arm i).
Hypothesis Hvtor : plain Arm ram VTOR.

Lemma vtor_not_slot n : (n < VECTOR_SLOTS)%nat -> VTOR <> slot_addr Arm n.
Proof. unfold VTOR, slot_addr, RAM_VECTOR_TABLE, VECTOR_SLOTS. lia. Qed.

Lemma boot_relocate_words vs ve hang (c : Core B) :
  let words := vector_words vs ve in
  (forall i, (i < words)%nat -> plain Arm ram (vs + 4 * Z.of_nat i)) ->
  (forall i, (i < words)%nat -> u32 (word_at Arm (core_m c) (vs + 4 * Z.of_nat i))) ->
  vs + 4 * Z.of_nat words <= RAM_VECTOR_TABLE Arm ->
  let m' := core_m (boot_relocate_vectors Arm vs ve hang c) in
  word_at Arm m' VTOR = RAM_VECTOR_TABLE Arm /\
  (forall n, (n < words)%nat -> word_at Arm m' (slot_addr Arm n) = word_at Arm (core_m c) (vs + 4 * Z.of_nat n)) /\
  (forall a, plain Arm ram a -> a <> VTOR -> ~ (RAM_VECTOR_TABLE Arm <= a < slot_addr Arm words) ->
     word_at Arm m' a = word_at Arm (core_m c) a).
Proof.
  intros words Hsrc Hu Hd m'. unfold m', boot_relocate_vectors. cbn [core_m].
  fold words. rewrite copy_vectors_words.
  assert (words <= VECTOR_SLOTS)%nat as Hw by (unfold words, vector_words; lia).
  destruct (copy_words_spec Arm ram words vs (RAM_VECTOR_TABLE Arm) (core_m c)) as [C1 C2].
  - intros i Hi. rewrite <- (Z2Nat.id i) by lia. split; [apply Hsrc; lia|apply Htable; lia].
  - intros i Hi. rewrite <- (Z2Nat.id i) by lia. apply Hu. lia.
  - by left.
  - set (m1 := copy_words _ _ _ _ _ _) in *. split_and!.
    + apply (word_at_poke_eq Arm ram); [done|unfold u32, M32, RAM_VECTOR_TABLE; lia].
    + intros n Hn. rewrite (word_at_poke_ne Arm ram); [|apply Htable; lia|done|].
      * apply (C1 (Z.of_nat n)). lia.
      * intros E. by apply (vtor_not_slot n); [lia|].
    + intros a Ha Hne Hr. rewrite (word_at_poke_ne Arm ram) by done. by apply C2.
Qed.

(** C22. Interrupt routing on ARM, for every slot of the SRAM table. After boot
    has mirrored the flash vectors and moved VTOR, and after any sequence of
    [attach_jit_irq] calls: an exception whose interrupt line has been attached
    is taken through the handler attached last; one that has not, through the
    flash word of the same number where the flash table has one, and otherwise
    through whatever the SRAM table held at reset. Attaching to a line past 31
    changes nothing. With the sixteen words memory-layout.x puts in flash, the
    core exceptions go to the flash words and the interrupt lines are of the
    other two kinds. *)
Theorem irq_routing (vs ve hang : Z) (c : Core B) (atts : list (nat * Z)) (n : nat) :
  let words := vector_words vs ve in
  (forall i, (i < words)%nat -> plain Arm ram (vs + 4 * Z.of_nat i)) ->
  (forall i, (i < words)%nat -> u32 (word_at Arm (core_m c) (vs + 4 * Z.of_nat i))) ->
  vs + 4 * Z.of_nat words <= RAM_VECTOR_TABLE Arm ->
  Forall (fun p => u32 (snd p)) atts -> (n < VECTOR_SLOTS)%nat ->
  exc_vector Arm n (attach_all Arm atts (core_m (boot_relocate_vectors Arm vs ve hang c))) =
    match (if (16 <=? n)%nat then attached atts (n - 16) else None) with
    | Some f => f
    | None =>
        if (n <? words)%nat then word_at Arm (core_m c) (vs + 4 * Z.of_nat n)
        else word_at Arm (core_m c) (slot_addr Arm n)
    end.
Proof.
  intros words Hsrc Hu Hd Hf Hn.
  destruct (boot_relocate_words vs ve hang c Hsrc Hu Hd) as (Hv & Hw & Ho).
  unfold exc_vector. rewrite (attach_all_other Arm ram Htable _ _ VTOR) by (done || apply vtor_not_slot).
  rewrite Hv. change (RAM_VECTOR_TABLE Arm + 4 * Z.of_nat n) with (slot_addr Arm n).
  rewrite (attach_all_word Arm ram Htable) by done. destruct (if (16 <=? n)%nat then _ else _); [done|].
  destruct (Nat.ltb_spec n words) as [Hlt|Hge]; [by apply Hw|].
  apply Ho; [by apply Htable|intros E; by apply (vtor_not_slot n)|]. unfold slot_addr. fold words. lia.
Qed.
End Claims.

(** The image of memory-layout.x: sixteen flash vectors at 0x08000000; the SRAM
    word of line 6 holds a value at reset. *)
Definition demo_vectors : Machine (gmap Z Z) :=
  boot_machine (ram_write 0x20000458 99
    (foldr (fun i b => ram_write (0x08000000 + 4 * Z.of_nat i) (0x08001000 + 4 * Z.of_nat i) b) ∅ (seq 0 16))).

Lemma demo_slots b i : b = 0x08000000 \/ b = 0x20000400 -> (i < VECTOR_SLOTS)%nat -> plain Arm aligned (b + 4 * Z.of_nat i).
Proof.
  intros Hb Hi. unfold VECTOR_SLOTS in Hi. split.
  - unfold aligned. destruct Hb as [-> | ->]; Z.to_euclidean_division_equations; lia.
  - unfold reg_slot, CAPREG_BASE. destruct Hb as [-> | ->];
      match goal with |- context [0 <=? ?x] => destruct (Z.leb_spec 0 x); [lia|done] end.
Qed.

(** SysTick goes to flash, line 5 to the handler attached last, line 6 to the
    word the SRAM held. *)
Lemma irq_routing_witness :
  let m := attach_all Arm [(5%nat, 0x20002401); (5%nat, 0x20002001); (40%nat, 7)]
    (core_m (boot_relocate_vectors Arm 0x08000000 0x08000040 0 {| core_m := demo_vectors; core_mtvec := 0 |})) in
  exc_vector Arm (vector_index sys_tick) m = 0x0800103C /\
  exc_vector Arm (vector_index (irq_handlers 5)) m = 0x20002001 /\
  exc_vector Arm (vector_index (irq_handlers 6)) m = 99.
Proof.
  assert (forall i, (i < 16)%nat -> plain Arm aligned (0x08000000 + 4 * Z.of_nat i)) as Hsrc
    by (intros i Hi; apply demo_slots; [by left|unfold VECTOR_SLOTS; lia]).
  assert (forall i, (i < 16)%nat -> u32 (word_at Arm demo_vectors (0x08000000 + 4 * Z.of_nat i))) as Hu
    by (intros i _; apply (peek_range Arm); exact registry_init_wf).
  assert (Forall (fun p => u32 (snd p)) [(5%nat, 0x20002401); (5%nat, 0x20002001); (40%nat, 7)]) as Ha
    by (repeat constructor; cbn; unfold M32; lia).
  pose proof (fun n Hn => irq_routing (B := gmap Z Z) aligned (fun i => demo_slots _ i (or_intror eq_refl)) (conj eq_refl eq_refl)
    0x08000000 0x08000040 0 {| core_m := demo_vectors; core_mtvec := 0 |} _ n Hsrc Hu ltac:(vm_compute; discriminate) Ha Hn) as Hr.
  cbv zeta. rewrite !Hr by (apply Nat.ltb_lt; reflexivity). split; [|split]; vm_compute; reflexivity.
Defined.
