(* ===== verification/Hal.v ===== *)
(** * Hal: the hardware abstraction traits and their three back ends
      (crates/hros-hal, crates/hros-arch-arm, crates/hros-arch-riscv, crates/hros-arch-x86)

    A trait is a class, an implementation an instance: [VectorCapabilityEngine]
    with its laws, [ContextSwitch], [InterruptController] and [ExecutionBuffer].
    Statements about the traits are proved from the laws and hold of every
    back end that meets them. Inline assembly that only fences the pipeline has
    no effect here. *)
From S2P Require Import Prelude Registry HrosCap AuditRing Memory Interrupt.
Local Open Scope Z_scope.
Local Open Scope u32_scope.

(** ** Capability engines (cap.rs) *)
Class VectorCapabilityEngine := {
  ce_verify_scalar : Z -> list Z -> bool;
  ce_verify_vector : Z -> Mask256 -> list Z -> bool;
  ce_build_mask : Z -> Z -> option Mask256;
  ce_addr_to_cap : Z -> option Z;
  ce_acquire : Z -> bool;
  ce_available : Z -> bool;
}.

(** [(addr >> 12) as usize & 255], then word and bit. *)
Definition engine_scalar (addr : Z) (vcap : list Z) : bool :=
  let k := Z.land (Z.shiftr addr 12) 255 in
  let word := Z.to_nat (Z.shiftr k 6) in
  let bit := Z.land k 63 in
  Z.land (Z.shiftr (aget 0 vcap word) bit) 1 =? 1.

(** Claiming is a stub: nothing is ever held. *)
Definition ArmCapEngine : VectorCapabilityEngine := {|
  ce_verify_scalar := engine_scalar;
  ce_verify_vector := fun _ mask vcap => verify_vector mask vcap;
  ce_build_mask := build_mask;
  ce_addr_to_cap := fun _ => None;
  ce_acquire := fun _ => false;
  ce_available := fun _ => true;
|}.

Definition RiscvCapEngine : VectorCapabilityEngine := {|
  ce_verify_scalar := engine_scalar;
  ce_verify_vector := fun _ mask vcap => verify_vector mask vcap;
  ce_build_mask := build_mask;
  ce_addr_to_cap := fun _ => None;
  ce_acquire := fun _ => false;
  ce_available := fun _ => true;
|}.

(** The 256-bit register four little-endian words load into, and the AVX2
    intrinsics: [testc a b] tests that [!a & b] is zero. *)
Definition m256_load (ws : list Z) : Z :=
  Z.lor (aget 0 ws 0) (Z.lor (Z.shiftl (aget 0 ws 1) 64)
    (Z.lor (Z.shiftl (aget 0 ws 2) 128) (Z.shiftl (aget 0 ws 3) 192))).
Definition mm256_testc (a b : Z) : bool := Z.ldiff b a =? 0.

Definition x86_verify_vector (avx2 : bool) (mask : Mask256) (vcap : list Z) : bool :=
  if avx2 then
    let mreq := m256_load (mask_words mask) in
    let conj := Z.land (m256_load vcap) mreq in
    mm256_testc conj mreq
  else verify_vector mask vcap.

Definition X86CapEngine (avx2 : bool) : VectorCapabilityEngine := {|
  ce_verify_scalar := hc_verify_scalar;
  ce_verify_vector := fun _ => x86_verify_vector avx2;
  ce_build_mask := build_mask;
  ce_addr_to_cap := fun addr => Some (Z.shiftr addr 12 mod 65536);
  ce_acquire := fun _ => true;
  ce_available := fun _ => true;
|}.

(** What an engine promises: masks of exactly the requested blocks when they
    share a window, a vector test that is set inclusion, and a scalar test that
    reads one bit. *)
Definition window_of (addr : Z) : Z := 256 * (addr / 4096 / 256).
Definition one_window (addr len : Z) : Prop := 1 <= len <= 256 /\ addr / 4096 + len <= window_of addr + 256.

Class CapEngineLaws (E : VectorCapabilityEngine) : Prop := {
  ce_mask_iff : forall addr len, u32 addr -> 0 <= len -> is_Some (ce_build_mask addr len) <-> one_window addr len;
  ce_mask_bits : forall addr len m, u32 addr -> 0 <= len -> ce_build_mask addr len = Some m ->
    wf_mask (mask_words m) /\
    forall o, 0 <= o < 256 -> mask_bit (mask_words m) o = true <-> addr / 4096 <= window_of addr + o < addr / 4096 + len;
  ce_vector : forall addr m v, wf_mask (mask_words m) -> wf_mask v ->
    ce_verify_vector addr m v = true <-> forall o, 0 <= o < 256 -> mask_bit (mask_words m) o = true -> mask_bit v o = true;
  ce_scalar : forall addr v, 0 <= addr -> wf_mask v -> ce_verify_scalar addr v = mask_bit v (addr / 4096 mod 256);
}.

(** The client: a request for [len] blocks is granted exactly when every block is. *)
Lemma guard_exact (E : VectorCapabilityEngine) `{!CapEngineLaws E} addr len m v :
  u32 addr -> 0 <= len -> wf_mask v -> ce_build_mask addr len = Some m ->
  ce_verify_vector addr m v = true <->
  forall i, 0 <= i < len -> ce_verify_scalar (addr + 4096 * i) v = true.
Proof.
  intros Ha Hl Hv Hm. destruct (proj1 (ce_mask_iff addr len Ha Hl) ltac:(by eexists)) as [Hlen Hfit].
  destruct (ce_mask_bits addr len m Ha Hl Hm) as [Hwf Hbit]. rewrite ce_vector by done.
  assert (window_of addr <= addr / 4096) as Hlo by (unfold window_of; Z.to_euclidean_division_equations; lia).
  assert (forall i, 0 <= i < len -> (addr + 4096 * i) / 4096 mod 256 = addr / 4096 + i - window_of addr) as Hk.
  { intros i Hi. unfold window_of, u32 in *. Z.to_euclidean_division_equations. lia. }
  split.
  - intros Hin i Hi. rewrite ce_scalar, Hk by (done || (unfold u32 in *; lia)). apply Hin; [lia|]. apply Hbit; lia.
  - intros Hall o Ho Hb. apply Hbit in Hb; [|done]. specialize (Hall (window_of addr + o - addr / 4096)).
    rewrite ce_scalar, Hk in Hall by (done || (unfold u32 in *; lia)).
    replace (addr / 4096 + (window_of addr + o - addr / 4096) - window_of addr) with o in Hall by lia. apply Hall. lia.
Qed.

(** *** The engines meet the laws *)
Lemma test_bit_one x i : 0 <= i -> (Z.land (Z.shiftr x i) 1 =? 1) = Z.testbit x i.
Proof.
  intros Hi. change 1 with (Z.ones 1) at 1. rewrite Z.land_ones, Z.shiftr_div_pow2 by lia.
  by rewrite Z.testbit_eqb by lia.
Qed.

Lemma land63 k : Z.land k 63 = k mod 64.
Proof. change 63 with (Z.ones 6). by rewrite Z.land_ones by lia. Qed.

Lemma land255 k : Z.land k 255 = k mod 256.
Proof. change 255 with (Z.ones 8). by rewrite Z.land_ones by lia. Qed.

Lemma engine_scalar_bit addr v : 0 <= addr -> engine_scalar addr v = mask_bit v (addr / 4096 mod 256).
Proof.
  intros Ha. unfold engine_scalar, mask_bit. cbv zeta. rewrite shiftr12, land255, land63.
  rewrite (Z.shiftr_div_pow2 _ 6) by lia. apply test_bit_one. apply Z.mod_pos_bound. lia.
Qed.

(** Bit [o] of the 256-bit register. *)
Lemma m256_bit ws o : wf_mask ws -> 0 <= o < 256 -> Z.testbit (m256_load ws) o = mask_bit ws o.
Proof.
  intros Hw Ho. unfold m256_load, mask_bit.
  pose proof (fun i => wf_mask_word ws i Hw) as Hr. pose proof (Z.div_mod o 64 ltac:(lia)) as Ed.
  pose proof (Z.mod_pos_bound o 64 ltac:(lia)) as Hm.
  rewrite !Z.lor_spec, !Z.shiftl_spec by lia.
  assert (forall i k, 0 <= k -> Z.testbit (aget 0 ws i) (o - 64 * k) =
            if o / 64 =? k then Z.testbit (aget 0 ws i) (o mod 64) else false) as Hbit.
  { intros i k Hk. destruct (Z.eqb_spec (o / 64) k); [f_equal; lia|].
    destruct (Z.ltb_spec o (64 * k)); [apply Z.testbit_neg_r; lia|apply (testbit_high 64); [lia|apply Hr|]].
    Z.to_euclidean_division_equations. lia. }
  pose proof (Hbit 0%nat 0 ltac:(lia)) as H0. pose proof (Hbit 1%nat 1 ltac:(lia)) as H1.
  pose proof (Hbit 2%nat 2 ltac:(lia)) as H2. pose proof (Hbit 3%nat 3 ltac:(lia)) as H3.
  change (64 * 0) with 0 in H0. change (64 * 1) with 64 in H1. change (64 * 2) with 128 in H2.
  change (64 * 3) with 192 in H3. rewrite Z.sub_0_r in H0. rewrite H0, H1, H2, H3.
  assert (o / 64 = 0 \/ o / 64 = 1 \/ o / 64 = 2 \/ o / 64 = 3) as [E|[E|[E|E]]]
    by (Z.to_euclidean_division_equations; lia); rewrite E; cbn; rewrite ?orb_false_r; done.
Qed.

Lemma testc_spec m v : wf_mask m -> wf_mask v ->
  mm256_testc (Z.land (m256_load v) (m256_load m)) (m256_load m) = true <->
  forall o, 0 <= o < 256 -> mask_bit m o = true -> mask_bit v o = true.
Proof.
  intros Hm Hv. unfold mm256_testc. rewrite Z.eqb_eq. split.
  - intros E o Ho Hb. apply (f_equal (fun x => Z.testbit x o)) in E.
    rewrite Z.ldiff_spec, Z.land_spec, Z.bits_0, !m256_bit, Hb in E by done. by destruct (mask_bit v o).
  - intros Hin. apply Z.bits_inj'. intros o Ho. rewrite Z.ldiff_spec, Z.land_spec, Z.bits_0.
    destruct (Z.ltb_spec o 256).
    + rewrite !m256_bit by done. specialize (Hin o ltac:(lia)). destruct (mask_bit m o); [|done]. by rewrite Hin.
    + assert (Z.testbit (m256_load m) o = false) as ->; [|by rewrite andb_false_r].
      unfold m256_load. rewrite !Z.lor_spec, !Z.shiftl_spec by lia.
      by rewrite !(fun i => testbit_high 64 (aget 0 m i)) by (apply wf_mask_word || lia; done).
Qed.

Lemma build_mask_iff addr len : u32 addr -> 0 <= len -> is_Some (build_mask addr len) <-> one_window addr len.
Proof.
  intros Ha Hl. split.
  - intros [m Hm]. destruct (build_mask_some addr len m Ha Hl Hm) as (H1 & H2 & _). by split.
  - intros [H1 H2]. by apply build_mask_total.
Qed.

Lemma build_mask_bits addr len m : u32 addr -> 0 <= len -> build_mask addr len = Some m ->
  wf_mask (mask_words m) /\
  forall o, 0 <= o < 256 -> mask_bit (mask_words m) o = true <-> addr / 4096 <= window_of addr + o < addr / 4096 + len.
Proof. intros Ha Hl Hm. by destruct (build_mask_some addr len m Ha Hl Hm) as (_ & _ & ? & ?). Qed.

#[export] Instance arm_engine_laws : CapEngineLaws ArmCapEngine.
Proof.
  constructor; cbn.
  - exact build_mask_iff.
  - exact build_mask_bits.
  - intros _ [m] v Hm _. by apply verify_vector_spec.
  - intros addr v Ha _. by apply engine_scalar_bit.
Qed.

#[export] Instance riscv_engine_laws : CapEngineLaws RiscvCapEngine := arm_engine_laws.

#[export] Instance x86_engine_laws avx2 : CapEngineLaws (X86CapEngine avx2).
Proof.
  constructor; cbn.
  - exact build_mask_iff.
  - exact build_mask_bits.
  - intros _ [m] v Hm Hv. destruct avx2; [by apply testc_spec|by apply verify_vector_spec].
  - intros addr v Ha _. by apply engine_scalar_bit.
Qed.

Inductive Target := TArm | TRiscv | TX86 (avx2 : bool).

Definition cap_engine (t : Target) : VectorCapabilityEngine :=
  match t with TArm => ArmCapEngine | TRiscv => RiscvCapEngine | TX86 avx2 => X86CapEngine avx2 end.

#[export] Instance cap_engine_laws t : CapEngineLaws (cap_engine t).
Proof. destruct t; apply _. Qed.

(** C31. On every back end, with and without AVX2, the 256-bit guard is exact: a
    mask is built exactly when the requested blocks lie in one window of 256,
    and the vector test on it then grants exactly the requests whose blocks the
    scalar test grants one by one. *)
Theorem hal_guard_exact (t : Target) (addr len : Z) (vcap : list Z) :
  u32 addr -> 0 <= len -> wf_mask vcap ->
  match @ce_build_mask (cap_engine t) addr len with
  | Some mask =>
      one_window addr len /\
      (@ce_verify_vector (cap_engine t) addr mask vcap = true <->
       forall i, 0 <= i < len -> @ce_verify_scalar (cap_engine t) (addr + 4096 * i) vcap = true)
  | None => ~ one_window addr len
  end.
Proof.
  intros Ha Hl Hv. pose proof (@ce_mask_iff (cap_engine t) _ addr len Ha Hl) as Hi.
  destruct (@ce_build_mask (cap_engine t) addr len) as [m|] eqn:Em.
  - split; [by apply Hi|]. by apply (guard_exact (cap_engine t)).
  - intros Hw. apply Hi in Hw as [m Hm]. done.
Qed.

(** ** Context switch (switch.rs) *)

(** [next_task]; a remainder by zero panics. *)
Definition next_task (cur len : nat) : option nat := if (len =? 0)%nat then None else Some ((cur + 1) mod len)%nat.

Definition target_arch (t : Target) : Arch := match t with TRiscv => Riscv32 | _ => Arm end.

(** The registers of a frame, lowest address first: r4-r11, or s0-s7. *)
Definition frame_regs (t : Target) : list nat :=
  match t with
  | TArm => [4; 5; 6; 7; 8; 9; 10; 11]
  | TRiscv => [8; 9; 18; 19; 20; 21; 22; 23]
  | TX86 _ => []
  end%nat.

(** The back ends with a switch of their own. *)
Definition native (t : Target) : Prop := match t with TX86 _ => False | _ => True end.

Lemma native_match {X} (t : Target) (x : bool -> X) (y : X) :
  native t -> match t with TX86 b => x b | _ => y end = y.
Proof. by destruct t. Qed.

Lemma frame_regs_8 t : native t -> length (frame_regs t) = 8%nat /\ NoDup (frame_regs t).
Proof. unfold native. destruct t; intros Hn; [..|done]; split; try done; by apply (bool_decide_unpack _). Qed.

Record Ctx (B : Type) := { cx_regs : nat -> Z; cx_sp : Z; cx_m : Machine B }.
Arguments cx_regs {B} _.
Arguments cx_sp {B} _.
Arguments cx_m {B} _.

Section Switch.
Context {B : Type} `{Bus B} (t : Target).
Implicit Types (m : Machine B) (f : nat -> Z) (s : Ctx B).
Local Abbreviation arch := (target_arch t).

Fixpoint store_frame (rs : list nat) (a : Z) f m : Machine B :=
  match rs with
  | [] => m
  | r :: rest => store_frame rest (a + 4) f (poke_u32 arch a (f r) m)
  end.

Fixpoint load_frame (rs : list nat) (a : Z) f m : (nat -> Z) * Machine B :=
  match rs with
  | [] => (f, m)
  | r :: rest =>
      let (v, m1) := peek_u32 arch a m in
      load_frame rest (a + 4) (fun k => if (k =? r)%nat then v else f k) m1
  end.

(** [stmdb sp!, {r4-r11}]; [addi sp, sp, -32] and eight [sw]; nothing on x86. *)
Definition save_callee (sp : Z) f m : Z * Machine B :=
  match t with
  | TX86 _ => (sp, m)
  | _ => let a := sp -w 32 in (a, store_frame (frame_regs t) a f m)
  end.

Definition restore_callee (sp : Z) f m : Z * (nat -> Z) * Machine B :=
  match t with
  | TX86 _ => (sp, f, m)
  | _ => let (f', m') := load_frame (frame_regs t) sp f m in (sp +w 32, f', m')
  end.

Definition switch (cur nxt : Z) s : Ctx B :=
  match t with
  | TX86 _ => s
  | _ =>
      let (sp, m1) := peek_u32 arch cur (cx_m s) in
      let (saved, m2) := save_callee sp (cx_regs s) m1 in
      let m3 := poke_u32 arch cur saved m2 in
      let '(restored, f, m4) := restore_callee nxt (cx_regs s) m3 in
      {| cx_regs := f; cx_sp := restored; cx_m := m4 |}
  end.

(** *** Frames *)
Context (ram : Z -> Prop) `{!BusRam B ram}.

Lemma store_frame_spec rs a f m :
  (forall j, (j < length rs)%nat -> plain arch ram (a + 4 * Z.of_nat j)) -> (forall r, u32 (f r)) ->
  (forall j r, rs !! j = Some r -> word_at arch (store_frame rs a f m) (a + 4 * Z.of_nat j) = f r) /\
  (forall c, plain arch ram c -> (forall j, (j < length rs)%nat -> a + 4 * Z.of_nat j <> c) ->
     word_at arch (store_frame rs a f m) c = word_at arch m c).
Proof.
  intros Hp Hf. revert a m Hp. induction rs as [|r rs IH]; intros a m Hp; [done|]. cbn [store_frame length] in *.
  assert (forall j, a + 4 + 4 * Z.of_nat j = a + 4 * Z.of_nat (S j)) as Hs by lia.
  assert (plain arch ram a) as Hpa by (rewrite <- (Z.add_0_r a); apply (Hp 0%nat); lia).
  destruct (IH (a + 4) (poke_u32 arch a (f r) m)) as [I1 I2]. { intros j Hj. rewrite Hs. apply Hp. lia. }
  split.
  - intros [|j] x E; cbn in E.
    + injection E as <-. rewrite Z.mul_0_r, Z.add_0_r. rewrite I2; [by apply (word_at_poke_eq arch ram)|done|lia].
    + rewrite <- Hs. by apply I1.
  - intros c Hc Hne. rewrite I2; [|done|intros j Hj; rewrite Hs; apply Hne; lia].
    apply (word_at_poke_ne arch ram); [done..|]. specialize (Hne 0%nat). lia.
Qed.

Lemma load_frame_spec rs a f m : NoDup rs ->
  (forall j, (j < length rs)%nat -> plain arch ram (a + 4 * Z.of_nat j)) ->
  snd (load_frame rs a f m) = m /\
  (forall j r, rs !! j = Some r -> fst (load_frame rs a f m) r = word_at arch m (a + 4 * Z.of_nat j)) /\
  (forall r, r ∉ rs -> fst (load_frame rs a f m) r = f r).
Proof.
  intros Hd. revert a f. induction Hd as [|r rs Hr _ IH]; intros a f Hp; [done|]. cbn [load_frame length] in *.
  assert (forall j, a + 4 + 4 * Z.of_nat j = a + 4 * Z.of_nat (S j)) as Hs by lia.
  assert (plain arch ram a) as Hpa by (rewrite <- (Z.add_0_r a); apply (Hp 0%nat); lia).
  rewrite (peek_plain arch ram) by done. edestruct (IH (a + 4)) as (I1 & I2 & I3).
  { intros j Hj. rewrite Hs. apply Hp. lia. }
  split_and!; [exact I1| |].
  - intros [|j] x E; cbn in E.
    + injection E as <-. rewrite I3 by done. rewrite Nat.eqb_refl. f_equal. lia.
    + rewrite <- Hs. by apply I2.
  - intros x Hx. rewrite I3 by set_solver. destruct (Nat.eqb_spec x r); [set_solver|done].
Qed.

(** Where a task's frame lies: eight words of memory apart from the words that
    hold the stack pointers. *)
Record frame_ok (a : Z) (slots : list Z) : Prop := {
  fo_plain : forall j, (j < 8)%nat -> plain arch ram (a + 4 * Z.of_nat j);
  fo_apart : forall j c, (j < 8)%nat -> c ∈ slots -> a + 4 * Z.of_nat j <> c;
  fo_lo : 0 <= a;
  fo_hi : a + 32 < M32;
}.

Lemma save_frame sp f m cur : native t -> frame_ok (sp - 32) [cur] -> (forall r, u32 (f r)) ->
  let '(saved, m') := save_callee sp f m in
  saved = sp - 32 /\
  (forall j r, frame_regs t !! j = Some r -> word_at arch m' (saved + 4 * Z.of_nat j) = f r) /\
  (forall c, plain arch ram c -> (forall j, (j < 8)%nat -> saved + 4 * Z.of_nat j <> c) ->
     word_at arch m' c = word_at arch m c).
Proof.
  intros Hn Hfr Hf. destruct (frame_regs_8 t Hn) as [Hl _].
  assert (save_callee sp f m = (sp -w 32, store_frame (frame_regs t) (sp -w 32) f m)) as -> by (unfold save_callee; by apply (native_match t)).
  assert (sp -w 32 = sp - 32) as -> by (apply wrap32_small; destruct Hfr; unfold u32; lia).
  split; [done|]. destruct (store_frame_spec (frame_regs t) (sp - 32) f m) as [S1 S2]; [|done|].
  - rewrite Hl. apply (fo_plain _ _ Hfr).
  - rewrite Hl in S2. by split.
Qed.

Lemma restore_frame sp f m slots : native t -> frame_ok sp slots ->
  let '(sp', f', m') := restore_callee sp f m in
  sp' = sp + 32 /\ m' = m /\ forall j r, frame_regs t !! j = Some r -> f' r = word_at arch m (sp + 4 * Z.of_nat j).
Proof.
  intros Hn Hfr. destruct (frame_regs_8 t Hn) as [Hl Hd].
  assert (restore_callee sp f m = (sp +w 32, fst (load_frame (frame_regs t) sp f m), snd (load_frame (frame_regs t) sp f m)))
    as -> by (unfold restore_callee; rewrite (native_match t) by done; by destruct (load_frame _ _ _ _)).
  destruct (load_frame_spec (frame_regs t) sp f m Hd) as (L1 & L2 & _). { rewrite Hl. apply (fo_plain _ _ Hfr). }
  split; [apply wrap32_small; destruct Hfr; unfold u32; lia|]. by split.
Qed.

(** What one switch leaves behind. *)
Lemma switch_effect cur nxt s : native t -> plain arch ram cur -> u32 (word_at arch (cx_m s) cur) ->
  frame_ok (word_at arch (cx_m s) cur - 32) [cur] -> frame_ok nxt [cur] -> (forall r, u32 (cx_regs s r)) ->
  (forall i j, (i < 8)%nat -> (j < 8)%nat -> word_at arch (cx_m s) cur - 32 + 4 * Z.of_nat i <> nxt + 4 * Z.of_nat j) ->
  let s' := switch cur nxt s in
  let a := word_at arch (cx_m s) cur - 32 in
  word_at arch (cx_m s') cur = a /\
  (forall j r, frame_regs t !! j = Some r -> word_at arch (cx_m s') (a + 4 * Z.of_nat j) = cx_regs s r) /\
  cx_sp s' = nxt + 32 /\
  (forall j r, frame_regs t !! j = Some r -> cx_regs s' r = word_at arch (cx_m s) (nxt + 4 * Z.of_nat j)).
Proof.
  intros Hn Hc Hu Hfr Hnx Hf Hd s' a. destruct (frame_regs_8 t Hn) as [Hl _].
  assert (forall j r, frame_regs t !! j = Some r -> (j < 8)%nat) as Hj
    by (intros j r E; apply lookup_lt_Some in E; lia).
  pose proof (save_frame (word_at arch (cx_m s) cur) (cx_regs s) (cx_m s) cur Hn Hfr Hf) as Hs.
  destruct (save_callee _ _ _) as [saved m2] eqn:Es. destruct Hs as (-> & S1 & S2). fold a in Es, S1, S2, Hd, Hfr.
  set (m3 := poke_u32 arch cur a m2).
  pose proof (restore_frame nxt (cx_regs s) m3 [cur] Hn Hnx) as Hr.
  destruct (restore_callee nxt (cx_regs s) m3) as [[restored f] m4] eqn:Er. destruct Hr as (-> & -> & R1).
  assert (s' = {| cx_regs := f; cx_sp := nxt + 32; cx_m := m3 |}) as ->.
  { unfold s', switch. rewrite (native_match t), (peek_plain _ ram), Es by done. fold m3. by rewrite Er. }
  cbn [cx_regs cx_sp cx_m]. unfold m3. split_and!; [..|done|].
  - apply (word_at_poke_eq arch ram); [done|]. destruct Hfr. unfold u32 in *. lia.
  - intros j r E. rewrite (word_at_poke_ne arch ram); [by apply S1|by apply (fo_plain _ _ Hfr); eauto|done|].
    apply (fo_apart _ _ Hfr); [eauto|set_solver].
  - intros j r E. rewrite (R1 j r E). unfold m3.
    rewrite (word_at_poke_ne arch ram); [|by apply (fo_plain _ _ Hnx); eauto|done|apply (fo_apart _ _ Hnx); [eauto|set_solver]].
    apply S2; [by apply (fo_plain _ _ Hnx); eauto|]. intros i Hi. apply Hd; eauto.
Qed.
End Switch.

(** The trait: its cycle budget, which no back end overrides, and the four
    functions. *)
Class ContextSwitch (B : Type) := {
  sw_TOTAL_CYCLES : Z := 43;
  sw_CYCLES_AUTO_STACK : Z := 12;
  sw_CYCLES_MANUAL_PUSH : Z := 8;
  sw_CYCLES_SCHED : Z := 3;
  sw_CYCLES_RESTORE : Z := 20;
  sw_save_callee : Z -> (nat -> Z) -> Machine B -> Z * Machine B;
  sw_restore_callee : Z -> (nat -> Z) -> Machine B -> Z * (nat -> Z) * Machine B;
  sw_next_task : nat -> nat -> option nat;
  sw_switch : Z -> Z -> Ctx B -> Ctx B;
}.

Section BackEnds.
Context {B : Type} `{Bus B}.

Definition ArmM4Switch : ContextSwitch B := {|
  sw_save_callee := save_callee TArm; sw_restore_callee := restore_callee TArm;
  sw_next_task := next_task; sw_switch := switch TArm |}.

Definition RiscvSwitch : ContextSwitch B := {|
  sw_save_callee := save_callee TRiscv; sw_restore_callee := restore_callee TRiscv;
  sw_next_task := next_task; sw_switch := switch TRiscv |}.

Definition X86Switch : ContextSwitch B := {|
  sw_save_callee sp _ m := (sp, m); sw_restore_callee sp f m := (sp, f, m);
  sw_next_task := next_task; sw_switch _ _ s := s |}.

(** The phases of the budget add up to the total. *)
Lemma cycle_budget (C : ContextSwitch B) :
  sw_CYCLES_AUTO_STACK + sw_CYCLES_MANUAL_PUSH + sw_CYCLES_SCHED + sw_CYCLES_RESTORE = sw_TOTAL_CYCLES.
Proof. reflexivity. Qed.

(** One selector for the three back ends, whose functions are the switch of
    the target. *)
Definition context_switch (t : Target) : ContextSwitch B :=
  match t with TArm => ArmM4Switch | TRiscv => RiscvSwitch | TX86 _ => X86Switch end.

Lemma context_switch_is t :
  @sw_switch B (context_switch t) = switch t /\ @sw_save_callee B (context_switch t) = save_callee t /\
  @sw_restore_callee B (context_switch t) = restore_callee t.
Proof. by destruct t. Qed.
End BackEnds.

Section SwitchClaims.
Context {B : Type} `{Bus B} (ram : Z -> Prop) `{!BusRam B ram} (t : Target).
Local Abbreviation word := (word_at (target_arch t)).

(** Switching away with the HAL and back, on ARM and RISC-V: when task 1, whose
    stack pointer its caller has stored at [c1], switches away and, in any later
    state [s2] that left that word and the frame alone, task 2 switches back to
    it, task 1 has its eight saved registers as before and the stack pointer is
    the one stored at [c1]. The pointer operand of the assembly is taken to be
    in a register outside the saved block. *)
Theorem hal_switch_roundtrip (c1 c2 nxt : Z) (s s2 : Ctx B) :
  native t ->
  let sp1 := word (cx_m s) c1 in
  let sp2 := word (cx_m s2) c2 in
  let s1 := switch t c1 nxt s in
  plain (target_arch t) ram c1 -> plain (target_arch t) ram c2 -> u32 sp1 -> u32 sp2 ->
  frame_ok t ram (sp1 - 32) [c1; c2] -> frame_ok t ram nxt [c1; c2] -> frame_ok t ram (sp2 - 32) [c1; c2] ->
  (forall i j, (i < 8)%nat -> (j < 8)%nat -> sp1 - 32 + 4 * Z.of_nat i <> nxt + 4 * Z.of_nat j) ->
  (forall i j, (i < 8)%nat -> (j < 8)%nat -> sp2 - 32 + 4 * Z.of_nat i <> sp1 - 32 + 4 * Z.of_nat j) ->
  (forall r, u32 (cx_regs s r)) -> (forall r, u32 (cx_regs s2 r)) ->
  word (cx_m s2) c1 = word (cx_m s1) c1 ->
  (forall j, (j < 8)%nat -> word (cx_m s2) (sp1 - 32 + 4 * Z.of_nat j) = word (cx_m s1) (sp1 - 32 + 4 * Z.of_nat j)) ->
  let s3 := switch t c2 (word (cx_m s2) c1) s2 in
  cx_sp s3 = sp1 /\ forall r, r ∈ frame_regs t -> cx_regs s3 r = cx_regs s r.
Proof.
  intros Hn sp1 sp2 s1 Hc1 Hc2 Hu1 Hu2 F1 Fn F2 D1 D2 Hf Hf2 Hk Hfr s3.
  assert (forall a c, frame_ok t ram a [c1; c2] -> c ∈ [c1; c2] -> frame_ok t ram a [c]) as Hsub.
  { intros a c [] Hin. constructor; [done| |done..]. intros j c' Hj Hc'. assert (c' = c) as -> by set_solver. auto. }
  destruct (switch_effect t ram c1 nxt s Hn Hc1 Hu1 (Hsub _ c1 F1 ltac:(set_solver)) (Hsub _ c1 Fn ltac:(set_solver)) Hf D1)
    as (E1 & E2 & _). fold s1 sp1 in E1, E2. rewrite E1 in Hk. unfold s3. rewrite Hk.
  destruct (switch_effect t ram c2 (sp1 - 32) s2 Hn Hc2 Hu2 (Hsub _ c2 F2 ltac:(set_solver)) (Hsub _ c2 F1 ltac:(set_solver))
    Hf2 D2) as (_ & _ & E3 & E4).
  split; [rewrite E3; lia|]. intros r [j Hj]%list_elem_of_lookup_1. rewrite (E4 j r Hj), Hfr; [by apply E2|].
  apply lookup_lt_Some in Hj. destruct (frame_regs_8 t Hn). lia.
Qed.

(** The stack pointer in use is never read: what is stored in the task's slot is
    computed from the old content of the slot, so a task that switches away
    with another pointer than its slot holds resumes on the wrong stack. *)
Lemma switch_ignores_sp (c1 nxt sp : Z) (s : Ctx B) :
  native t -> switch t c1 nxt {| cx_regs := cx_regs s; cx_sp := sp; cx_m := cx_m s |} = switch t c1 nxt s.
Proof. by destruct t. Qed.
End SwitchClaims.

(** *** The queue head *)
Fixpoint next_tasks (k cur len : nat) : option nat :=
  match k with O => Some cur | S k' => c ← next_task cur len; next_tasks k' c len end.

Lemma next_tasks_mod k cur len : (cur < len)%nat -> next_tasks k cur len = Some ((cur + k) mod len)%nat.
Proof.
  intros Hc. assert (len <> 0)%nat by lia. revert cur Hc. induction k as [|k IH]; intros cur Hc.
  - rewrite Nat.add_0_r, Nat.mod_small by done. done.
  - cbn [next_tasks]. unfold next_task. destruct (Nat.eqb_spec len 0); [lia|]. cbn.
    rewrite IH by (by apply Nat.mod_upper_bound). rewrite Nat.Div0.add_mod_idemp_l. do 2 f_equal. lia.
Qed.

(** [next_task] is fair: from any task of a non-empty queue, every task is
    selected within one round, exactly once. *)
Theorem next_task_fair (cur len i : nat) : (cur < len)%nat -> (i < len)%nat ->
  exists k, (1 <= k <= len)%nat /\ next_tasks k cur len = Some i /\
    forall k', (1 <= k' <= len)%nat -> next_tasks k' cur len = Some i -> k' = k.
Proof.
  intros Hc Hi. pose proof (fun k => next_tasks_mod k cur len Hc) as Hn. setoid_rewrite Hn.
  assert (forall k, (1 <= k <= len)%nat -> ((cur + k) mod len)%nat = (if (cur + k <? len) then cur + k else cur + k - len)%nat) as Hm.
  { intros k Hk. destruct (Nat.ltb_spec (cur + k) len); [by apply Nat.mod_small|].
    rewrite <- (Nat.mod_small (cur + k - len) len) by lia.
    replace (cur + k)%nat with (cur + k - len + 1 * len)%nat at 1 by lia. by rewrite Nat.Div0.mod_add. }
  exists (if (cur <? i) then i - cur else i + len - cur)%nat.
  assert (forall k, (1 <= k <= len)%nat ->
    (cur + k) mod len = i <-> k = (if (cur <? i) then i - cur else i + len - cur))%nat as Hiff.
  { intros k Hk. rewrite Hm by done. destruct (Nat.ltb_spec (cur + k) len), (Nat.ltb_spec cur i); lia. }
  split; [destruct (Nat.ltb_spec cur i); lia|]. split.
  - f_equal. apply Hiff; [destruct (Nat.ltb_spec cur i); lia|done].
  - intros k' Hk' [= E]. by apply Hiff.
Qed.

(** ** Interrupt controllers (irq.rs) *)
Definition ICSR : Z := 0xE000ED04.
Definition NVIC_ISPR : Z := 0xE000E200.

(** The machine with the RISC-V trap registers. *)
Record Hart (B : Type) := { ht_m : Machine B; ht_mtvec : Z; ht_mcause : Z }.
Arguments ht_m {B} _.
Arguments ht_mtvec {B} _.
Arguments ht_mcause {B} _.

Section Irq.
Context {B : Type} `{Bus B}.
Implicit Type h : Hart B.

Definition with_m (m : Machine B) h : Hart B := {| ht_m := m; ht_mtvec := ht_mtvec h; ht_mcause := ht_mcause h |}.

Class InterruptController := {
  ic_relocate : Z -> Hart B -> Hart B;
  ic_pending : Hart B -> option Z * Hart B;
  ic_attach : Z -> option Z -> Hart B -> Hart B;
  ic_ack : Z -> Hart B -> Hart B;
  ic_is_nmi : Z -> bool;
}.

Definition nvic_pending h : option Z * Hart B :=
  let (icsr, m) := peek_u32 Arm ICSR (ht_m h) in
  let n := Z.land icsr 0x1FF in
  ((if 16 <=? n then Some (n - 16) else None), with_m m h).

(** [ispr.add(slot >> 5)] points to words; [1 << (slot & 31)]. *)
Definition nvic_ack (slot : Z) h : Hart B :=
  with_m (poke_u32 Arm (NVIC_ISPR + 4 * Z.shiftr slot 5) (bit32 (Z.land slot 31)) (ht_m h)) h.

(** [attach] keeps the slot as it is. *)
Definition ArmNvic : InterruptController := {|
  ic_relocate := fun table h => with_m (poke_u32 Arm VTOR table (ht_m h)) h;
  ic_pending := nvic_pending;
  ic_attach := fun _ _ h => h;
  ic_ack := nvic_ack;
  ic_is_nmi := fun slot => slot =? 2;
|}.

Definition RiscvIrv : InterruptController := {|
  ic_relocate := fun table h =>
    {| ht_m := ht_m h; ht_mtvec := Z.land table (u32_not 3); ht_mcause := ht_mcause h |};
  ic_pending := fun h => (Some (Z.land (ht_mcause h) 0x7FFFFFFF), h);
  ic_attach := fun _ _ h => h;
  ic_ack := fun _ h => h;
  ic_is_nmi := fun _ => false;
|}.

Definition X86Irq : InterruptController := {|
  ic_relocate := fun _ h => h;
  ic_pending := fun h => (None, h);
  ic_attach := fun _ _ h => h;
  ic_ack := fun _ h => h;
  ic_is_nmi := fun _ => false;
|}.

(** The controller as the ARM manual describes it: a one written to a bit of
    ISPR makes that interrupt pending. *)
Variable irq_pending : B -> Z -> bool.
Hypothesis ispr_sets : forall b w v n, 0 <= w < 8 -> 0 <= n < 256 ->
  irq_pending (bus_write (NVIC_ISPR + 4 * w) v b) n = ((n / 32 =? w) && Z.testbit v (n mod 32)) || irq_pending b n.

(** [ack] does not clear the interrupt, it raises it. *)
Lemma nvic_ack_raises slot h : 0 <= slot < 256 -> irq_pending (m_bus (ht_m (nvic_ack slot h))) slot = true.
Proof.
  intros Hs. unfold nvic_ack. cbn [with_m ht_m]. rewrite Z.shiftr_div_pow2 by lia. change (2 ^ 5) with 32.
  change 31 with (Z.ones 5). rewrite Z.land_ones by lia. change (2 ^ 5) with 32.
  assert (0 <= slot / 32 < 8) as Hw by (Z.to_euclidean_division_equations; lia).
  assert (reg_slot Arm (NVIC_ISPR + 4 * (slot / 32)) = None) as Hn.
  { unfold reg_slot. cbn [CAPREG_BASE]. case_match; [|done]. bool_to_prop. unfold NVIC_ISPR in *. lia. }
  unfold poke_u32. rewrite Hn. cbn [m_bus set_bus]. rewrite ispr_sets, Z.eqb_refl by done.
  pose proof (Z.mod_pos_bound slot 32 ltac:(lia)). by rewrite testbit_bit32, Z.eqb_refl by lia.
Qed.

(** In thread mode no interrupt is ever reported, pending or not. *)
Lemma nvic_pending_thread h : Z.land (fst (peek_u32 Arm ICSR (ht_m h))) 0x1FF = 0 -> fst (nvic_pending h) = None.
Proof. intros E. unfold nvic_pending. destruct (peek_u32 Arm ICSR (ht_m h)) as [v m]. cbn in *. by rewrite E. Qed.
End Irq.

(** ** Execution buffers (exec.rs) *)
Inductive HalEmitError := HalOverflow | HalBadRegister | HalUnaligned.

Class ExecutionBuffer := {
  eb_base : Z;
  eb_len : Z;
  eb_emit16 : Z -> Result unit HalEmitError;
  eb_emit32 : Z -> Result unit HalEmitError;
  eb_call : Z -> Z;
  eb_emit_ret : Result unit HalEmitError;
}.

Definition EB_SIZE : Z := 4096.
Definition eb_remaining `{ExecutionBuffer} : Z := EB_SIZE - eb_len.

(** None of the buffers has state: emission succeeds and stores nothing. *)
Definition ArmExecBuffer : ExecutionBuffer := {|
  eb_base := 0x20002000; eb_len := 0; eb_emit16 := fun _ => Ok tt; eb_emit32 := fun _ => Ok tt;
  eb_call := fun _ => 0; eb_emit_ret := Ok tt |}.
Definition RiscvExecBuffer : ExecutionBuffer := {|
  eb_base := 0x08000000; eb_len := 0; eb_emit16 := fun _ => Ok tt; eb_emit32 := fun _ => Ok tt;
  eb_call := fun _ => 0; eb_emit_ret := Ok tt |}.
Definition X86ExecBuffer : ExecutionBuffer := {|
  eb_base := 0x100000; eb_len := 4096; eb_emit16 := fun _ => Ok tt; eb_emit32 := fun _ => Ok tt;
  eb_call := fun _ => 0; eb_emit_ret := Ok tt |}.

(** ** Witnesses *)
Lemma hal_guard_exact_witness :
  @ce_verify_vector (cap_engine (TX86 true)) 0x5000
    {| mask_words := [0xE0; 0; 0; 0] |} [0xF0; 0; 0; 0] = true /\
  forall i, 0 <= i < 3 -> @ce_verify_scalar (cap_engine (TX86 true)) (0x5000 + 4096 * i) [0xF0; 0; 0; 0] = true.
Proof.
  assert (wf_mask [0xF0; 0; 0; 0]) as Hv by (split; [reflexivity|repeat constructor; lia]).
  pose proof (hal_guard_exact (TX86 true) 0x5000 3 [0xF0; 0; 0; 0] ltac:(unfold u32, M32; lia) ltac:(lia) Hv) as [_ Hw].
  split; [reflexivity|]. apply Hw. reflexivity.
Defined.

Lemma next_task_fair_witness : exists k, (1 <= k <= 4)%nat /\ next_tasks k 2 4 = Some 1%nat.
Proof. destruct (next_task_fair 2 4 1) as (k & Hk & E & _); [lia|lia|]. exists k. split; [exact Hk|exact E]. Defined.

(** Task 1 with its pointer at [demo_c1], task 2 with a saved frame. *)
Definition demo_c1 : Z := 0x80003000.
Definition demo_c2 : Z := 0x80003004.
Definition demo_ctx : Ctx (gmap Z Z) :=
  {| cx_regs := fun r => wrap32 (Z.of_nat r); cx_sp := 0x80004000;
     cx_m := boot_machine (ram_write demo_c1 0x80004000 (ram_write demo_c2 0x80005000 ∅)) |}.
Definition demo_ctx2 : Ctx (gmap Z Z) :=
  {| cx_regs := fun _ => 7; cx_sp := 0x80005000; cx_m := cx_m (switch TRiscv demo_c1 0x80004FE0 demo_ctx) |}.

Lemma demo_frame_ok a : a = 0x80003FE0 \/ a = 0x80004FE0 -> frame_ok TRiscv aligned a [demo_c1; demo_c2].
Proof.
  intros Ha. constructor.
  - intros j Hj. destruct Ha as [-> | ->]; do 8 (destruct j as [|j]; [split; reflexivity|]); lia.
  - intros j c Hj Hc. apply elem_of_cons in Hc as [->|[->|Hc]%elem_of_cons]; [..|by apply elem_of_nil in Hc];
      unfold demo_c1, demo_c2; lia.
  - lia.
  - unfold M32. lia.
Qed.

Lemma demo_in_frame : 23%nat ∈ frame_regs TRiscv.
Proof. unfold frame_regs. set_solver. Qed.

Lemma hal_switch_roundtrip_witness :
  let s3 := switch TRiscv demo_c2 (word_at Riscv32 (cx_m demo_ctx2) demo_c1) demo_ctx2 in
  cx_sp s3 = 0x80004000 /\ cx_regs s3 23%nat = 23.
Proof.
  destruct (hal_switch_roundtrip (B := gmap Z Z) aligned TRiscv demo_c1 demo_c2 0x80004FE0 demo_ctx demo_ctx2) as [E1 E2];
    [exact Logic.I|split; reflexivity|split; reflexivity|split; vm_compute; congruence|split; vm_compute; congruence
    |apply demo_frame_ok; left; vm_compute; reflexivity|apply demo_frame_ok; right; reflexivity
    |apply demo_frame_ok; right; vm_compute; reflexivity| | |intros r; apply wrap32_range|intros r; split; vm_compute; congruence
    |reflexivity|reflexivity|].
  - intros i j Hi Hj. change (word_at (target_arch TRiscv) (cx_m demo_ctx) demo_c1) with 0x80004000. lia.
  - intros i j Hi Hj. change (word_at (target_arch TRiscv) (cx_m demo_ctx) demo_c1) with 0x80004000.
    change (word_at (target_arch TRiscv) (cx_m demo_ctx2) demo_c2) with 0x80005000. lia.
  - split; [exact E1|exact (E2 23%nat demo_in_frame)].
Defined.
