(* ===== verification/Multitask.v ===== *)
(** * Multitask: context switching on ARM (src/kernel/multitask.rs)

    The handlers are assembly. [Asm] is the instruction set they use, with
    flags, process stack pointer and memory, and the three programs are
    transcribed line by line; labels are pseudo-instructions. Task control
    blocks, the current-task word and the task stacks are memory at addresses
    the linker chooses, so those are parameters. *)
From S2P Require Import Prelude Registry AuditRing Memory Interrupt.
Local Open Scope Z_scope.
Local Open Scope u32_scope.

Definition NUM_TASKS : nat := 4.

Inductive TaskState := Dead | Ready | Running.
Definition state_val (t : TaskState) : Z := match t with Dead => 0 | Ready => 1 | Running => 2 end.

Record Tcb := { tcb_sp : Z; tcb_pc : Z; tcb_state : Z; tcb_counter : Z }.
Definition tcb_dead : Tcb := {| tcb_sp := 0; tcb_pc := 0; tcb_state := 0; tcb_counter := 0 |}.

(** ** The instructions *)
Inductive Asm :=
| ldr_eq (rt : nat) (value : Z)
| ldr (rt rn : nat) (off : Z)
| str (rt rn : nat) (off : Z)
| movs (rd : nat) (imm : Z)
| lsls (rd rm : nat) (sh : Z)
| adds (rd rn rm : nat)
| adds_imm (rd rn : nat) (imm : Z)
| cmp (rn rm : nat)
| cmp_imm (rn : nat) (imm : Z)
| beq (l : nat)
| blt (l : nat)
| b_to (l : nat)
| bx (rm : nat)
| mrs_psp (rd : nat)
| msr_psp (rn : nat)
| stmdb (rn : nat) (rs : list nat)
| ldmia (rn : nat) (rs : list nat)
| label (l : nat).

Definition LR : nat := 14.
Definition EXC_RETURN : Z := 0xFFFFFFFD.
Definition r4_r11 : list nat := [4; 5; 6; 7; 8; 9; 10; 11]%nat.

Record Cpu (B : Type) := {
  rf : nat -> Z;
  psp : Z;
  fZ : bool; fN : bool; fV : bool;
  pc : nat;
  mem : Machine B;
}.
Arguments rf {B} _.
Arguments psp {B} _.
Arguments fZ {B} _.
Arguments fN {B} _.
Arguments fV {B} _.
Arguments pc {B} _.
Arguments mem {B} _.

Definition upd (r : nat) (v : Z) (f : nat -> Z) : nat -> Z := fun k => if (k =? r)%nat then v else f k.

(** One instruction: on to the next, out through [bx], or a fault. *)
Inductive Next (B : Type) := Continue (s : Cpu B) | Leave (target : Z) (s : Cpu B) | Fault.
Arguments Continue {B} _.
Arguments Leave {B} _ _.
Arguments Fault {B}.

Section Machine.
Context {B : Type} `{Bus B}.
Implicit Type s : Cpu B.

Definition next s : Cpu B :=
  {| rf := rf s; psp := psp s; fZ := fZ s; fN := fN s; fV := fV s; pc := S (pc s); mem := mem s |}.
Definition set_reg (r : nat) (v : Z) s : Cpu B :=
  {| rf := upd r v (rf s); psp := psp s; fZ := fZ s; fN := fN s; fV := fV s; pc := pc s; mem := mem s |}.
Definition set_mem (m : Machine B) s : Cpu B :=
  {| rf := rf s; psp := psp s; fZ := fZ s; fN := fN s; fV := fV s; pc := pc s; mem := m |}.
Definition set_nz (v : Z) s : Cpu B :=
  {| rf := rf s; psp := psp s; fZ := v =? 0; fN := Z.testbit v 31; fV := fV s; pc := pc s; mem := mem s |}.
Definition set_v (v : bool) s : Cpu B :=
  {| rf := rf s; psp := psp s; fZ := fZ s; fN := fN s; fV := v; pc := pc s; mem := mem s |}.
Definition set_psp (v : Z) s : Cpu B :=
  {| rf := rf s; psp := v; fZ := fZ s; fN := fN s; fV := fV s; pc := pc s; mem := mem s |}.
Definition jump (i : nat) s : Cpu B :=
  {| rf := rf s; psp := psp s; fZ := fZ s; fN := fN s; fV := fV s; pc := i; mem := mem s |}.

(** Signed overflow of [a + b] and [a - b] with result [r]. *)
Definition add_overflow (a b r : Z) : bool :=
  Bool.eqb (Z.testbit a 31) (Z.testbit b 31) && negb (Bool.eqb (Z.testbit r 31) (Z.testbit a 31)).
Definition sub_overflow (a b r : Z) : bool :=
  negb (Bool.eqb (Z.testbit a 31) (Z.testbit b 31)) && negb (Bool.eqb (Z.testbit r 31) (Z.testbit a 31)).

Definition compare (a b : Z) s : Cpu B := let r := a -w b in set_v (sub_overflow a b r) (set_nz r s).
Definition addition (rd : nat) (a b : Z) s : Cpu B :=
  let r := a +w b in set_v (add_overflow a b r) (set_nz r (set_reg rd r s)).

Fixpoint store_regs (rs : list nat) (a : Z) (f : nat -> Z) (m : Machine B) : Machine B :=
  match rs with
  | [] => m
  | r :: rs' => store_regs rs' (a +w 4) f (poke_u32 Arm a (f r) m)
  end.

Fixpoint load_regs (rs : list nat) (a : Z) (f : nat -> Z) (m : Machine B) : (nat -> Z) * Machine B :=
  match rs with
  | [] => (f, m)
  | r :: rs' => let (v, m1) := peek_u32 Arm a m in load_regs rs' (a +w 4) (upd r v f) m1
  end.

Fixpoint label_at (prog : list Asm) (l : nat) : option nat :=
  match prog with
  | [] => None
  | i :: rest =>
      match i with
      | label k => if (k =? l)%nat then Some 0%nat else option_map S (label_at rest l)
      | _ => option_map S (label_at rest l)
      end
  end.

Definition goto (prog : list Asm) (l : nat) s : Next B :=
  match label_at prog l with Some i => Continue (jump i s) | None => Fault end.

Definition step (prog : list Asm) s : Next B :=
  match nth_error prog (pc s) with
  | None => Fault
  | Some i =>
      let s1 := next s in
      match i with
      | ldr_eq rt v => Continue (set_reg rt v s1)
      | ldr rt rn off => let (v, m) := peek_u32 Arm (rf s rn +w off) (mem s) in Continue (set_reg rt v (set_mem m s1))
      | str rt rn off => Continue (set_mem (poke_u32 Arm (rf s rn +w off) (rf s rt) (mem s)) s1)
      | movs rd imm => Continue (set_nz imm (set_reg rd imm s1))
      | lsls rd rm sh => let v := u32_shl (rf s rm) sh in Continue (set_nz v (set_reg rd v s1))
      | adds rd rn rm => Continue (addition rd (rf s rn) (rf s rm) s1)
      | adds_imm rd rn imm => Continue (addition rd (rf s rn) imm s1)
      | cmp rn rm => Continue (compare (rf s rn) (rf s rm) s1)
      | cmp_imm rn imm => Continue (compare (rf s rn) imm s1)
      | beq l => if fZ s then goto prog l s else Continue s1
      | blt l => if negb (Bool.eqb (fN s) (fV s)) then goto prog l s else Continue s1
      | b_to l => goto prog l s
      | bx rm => Leave (rf s rm) s1
      | mrs_psp rd => Continue (set_reg rd (psp s) s1)
      | msr_psp rn => Continue (set_psp (rf s rn) s1)
      | stmdb rn rs =>
          let a := rf s rn -w 4 * Z.of_nat (length rs) in
          Continue (set_reg rn a (set_mem (store_regs rs a (rf s) (mem s)) s1))
      | ldmia rn rs =>
          let a := rf s rn in
          let (f, m) := load_regs rs a (rf s) (mem s) in
          Continue (set_reg rn (a +w 4 * Z.of_nat (length rs))
                 {| rf := f; psp := psp s; fZ := fZ s; fN := fN s; fV := fV s; pc := S (pc s); mem := m |})
      | label _ => Continue s1
      end
  end.

Fixpoint exec (fuel : nat) (prog : list Asm) s : option (Z * Cpu B) :=
  match fuel with
  | O => None
  | S f => match step prog s with
           | Continue s' => exec f prog s'
           | Leave t s' => Some (t, s')
           | Fault => None
           end
  end.
End Machine.

(** Computation on the state; the register and memory operations stay. *)
Ltac mcbv :=
  cbv [pc rf psp fZ fN fV mem next set_reg set_mem set_nz set_v set_psp jump compare addition LR r4_r11 length negb];
  cbn [upd Nat.eqb].

(** ** The handlers *)
Section Handlers.
Context (current tcbs : Z).

Definition PendSV_Handler : list Asm := [
  ldr_eq 1 current;
  ldr 2 1 0;
  movs 6 0;
  label 8;
  cmp 6 2;
  beq 9;
  ldr_eq 3 tcbs;
  movs 4 16;
  lsls 5 6 4;
  adds 3 3 5;
  ldr 5 3 8;
  cmp_imm 5 1;
  beq 1;
  label 9;
  adds_imm 6 6 1;
  cmp_imm 6 5;
  blt 8;
  bx LR;
  label 1;
  mrs_psp 0;
  stmdb 0 r4_r11;
  ldr_eq 3 tcbs;
  movs 4 16;
  lsls 5 2 4;
  adds 3 3 5;
  str 0 3 0;
  movs 5 1;
  str 5 3 8;
  ldr_eq 1 current;
  str 6 1 0;
  ldr_eq 3 tcbs;
  movs 4 16;
  lsls 5 6 4;
  adds 3 3 5;
  ldr 0 3 0;
  ldmia 0 r4_r11;
  msr_psp 0;
  movs 5 2;
  str 5 3 8;
  ldr 6 3 12;
  adds_imm 6 6 1;
  str 6 3 12;
  ldr_eq 0 EXC_RETURN;
  bx 0].

Definition task_body_1 : list Asm := [
  ldr_eq 0 tcbs;
  label 1;
  ldr 1 0 28;
  adds_imm 1 1 1;
  str 1 0 28;
  b_to 1].

Definition task_body_2 : list Asm := [
  ldr_eq 0 tcbs;
  label 1;
  ldr 1 0 44;
  adds_imm 1 1 1;
  str 1 0 44;
  b_to 1].
End Handlers.

(** ** Runs of words *)
Section Words.
Context {B : Type} `{Bus B}.
Implicit Type m : Machine B.

Fixpoint write_words (base : Z) (words : list Z) m : Machine B :=
  match words with
  | [] => m
  | w :: rest => write_words (base +w 4) rest (poke_u32 Arm base w m)
  end.

Lemma write_words_spec (ram : Z -> Prop) `{!BusRam B ram} ws a m :
  (forall j, (j < length ws)%nat -> plain Arm ram (a + 4 * Z.of_nat j)) ->
  0 <= a -> a + 4 * Z.of_nat (length ws) < M32 -> Forall u32 ws ->
  (forall j w, ws !! j = Some w -> word_at Arm (write_words a ws m) (a + 4 * Z.of_nat j) = w) /\
  (forall c, plain Arm ram c -> (forall j, (j < length ws)%nat -> a + 4 * Z.of_nat j <> c) ->
     word_at Arm (write_words a ws m) c = word_at Arm m c).
Proof.
  intros Hp Ha Hm Hu. revert a m Hp Ha Hm. induction Hu as [|w ws Hw _ IH]; intros a m Hp Ha Hm; [done|].
  cbn [write_words length] in *.
  assert (a +w 4 = a + 4) as -> by (apply wrap32_small; unfold u32; lia).
  assert (forall j, a + 4 + 4 * Z.of_nat j = a + 4 * Z.of_nat (S j)) as Hs by lia.
  assert (plain Arm ram a) as Hpa by (rewrite <- (Z.add_0_r a); apply (Hp 0%nat); lia).
  destruct (IH (a + 4) (poke_u32 Arm a w m)) as [I1 I2].
  { intros j Hj. rewrite Hs. apply Hp. lia. }
  1,2: lia. split.
  - intros [|j] x E; cbn in E.
    + injection E as <-. rewrite Z.mul_0_r, Z.add_0_r. rewrite I2; [by apply (word_at_poke_eq Arm ram)|done|].
      intros j _. lia.
    + rewrite <- Hs. by apply I1.
  - intros c Hc Hne. rewrite I2; [|done|intros j Hj; rewrite Hs; apply Hne; lia].
    apply (word_at_poke_ne Arm ram); [done..|]. specialize (Hne 0%nat). lia.
Qed.

Lemma store_regs_words rs a f m : store_regs rs a f m = write_words a (map f rs) m.
Proof. revert a m. induction rs as [|r rs IH]; intros a m; [done|]. apply IH. Qed.
End Words.

(** Decide the comparisons of the goal. *)
Ltac tests := repeat match goal with
  | |- context [?x =? ?y] => destruct (Z.eqb_spec x y); try lia end.

(** ** Memory layout

    Five control blocks of four words and the current-task word, ordinary
    memory that does not overlap. *)
Section Switch.
Context {B : Type} `{Bus B, !BusWidth B} (ram : Z -> Prop) `{!BusRam B ram} (current tcbs : Z).
Implicit Types (s : Cpu B) (m : Machine B).
Local Abbreviation word := (word_at Arm).

Record layout : Prop := {
  lay_tcb : forall j, (j < 20)%nat -> plain Arm ram (tcbs + 4 * Z.of_nat j);
  lay_cur : plain Arm ram current;
  lay_sep : forall j, (j < 20)%nat -> current <> tcbs + 4 * Z.of_nat j;
  lay_lo : 0 <= tcbs;
  lay_hi : tcbs + 80 <= M32;
  lay_cu : u32 current;
}.

(** Eight words of a task stack, apart from the scheduler's own words. *)
Record frame_at (a : Z) : Prop := {
  fr_plain : forall j, (j < 8)%nat -> plain Arm ram (a + 4 * Z.of_nat j);
  fr_cur : forall j, (j < 8)%nat -> a + 4 * Z.of_nat j <> current;
  fr_tcb : forall j k, (j < 8)%nat -> (k < 20)%nat -> a + 4 * Z.of_nat j <> tcbs + 4 * Z.of_nat k;
  fr_lo : 0 <= a;
  fr_hi : a + 32 < M32;
}.

Definition tcb_addr (i : nat) : Z := tcbs + 16 * Z.of_nat i.

Definition tcb_at m (i : nat) : Tcb :=
  {| tcb_sp := word m (tcb_addr i); tcb_pc := word m (tcb_addr i + 4);
     tcb_state := word m (tcb_addr i + 8); tcb_counter := word m (tcb_addr i + 12) |}.

Definition is_ready m (cur i : nat) : bool := negb (i =? cur)%nat && (tcb_state (tcb_at m i) =? 1).

(** The first Ready task other than the current one. *)
Definition next_ready m (cur : nat) : option nat := List.find (is_ready m cur) (seq 0 5).

Hypothesis HL : layout.
Local Abbreviation prog := (PendSV_Handler current tcbs).

(** The offsets of a control block's fields. *)
Definition field (k : Z) : Prop := k = 0 \/ k = 4 \/ k = 8 \/ k = 12.

Lemma tcb_index i k : (i < 5)%nat -> field k ->
  exists j, (j < 20)%nat /\ tcb_addr i + k = tcbs + 4 * Z.of_nat j.
Proof.
  intros Hi Hk. unfold tcb_addr.
  destruct Hk as [->|[->|[->| ->]]];
    [exists (4 * i)%nat|exists (4 * i + 1)%nat|exists (4 * i + 2)%nat|exists (4 * i + 3)%nat]; lia.
Qed.

Lemma tcb_plain i k : (i < 5)%nat -> field k -> plain Arm ram (tcb_addr i + k).
Proof. intros Hi Hk. destruct (tcb_index i k Hi Hk) as (j & Hj & ->). by apply (lay_tcb HL). Qed.

Lemma cur_not_tcb i k : (i < 5)%nat -> field k -> current <> tcb_addr i + k.
Proof. intros Hi Hk. destruct (tcb_index i k Hi Hk) as (j & Hj & ->). by apply (lay_sep HL). Qed.

Lemma frame_not_tcb a j i k : frame_at a -> (j < 8)%nat -> (i < 5)%nat -> field k ->
  a + 4 * Z.of_nat j <> tcb_addr i + k.
Proof. intros Hf Hj Hi Hk. destruct (tcb_index i k Hi Hk) as (n & Hn & ->). by apply (fr_tcb a Hf). Qed.

Lemma tcb_base i : (i < 5)%nat -> tcbs +w u32_shl (Z.of_nat i) 4 = tcb_addr i.
Proof.
  intros Hi. pose proof (lay_lo HL). pose proof (lay_hi HL).
  unfold tcb_addr, u32_shl, u32_add. rewrite Z.shiftl_mul_pow2 by lia. change (2 ^ 4) with 16.
  rewrite (wrap32_small (_ * 16)) by (unfold u32, M32; lia). rewrite wrap32_small by (unfold u32; lia). lia.
Qed.

Lemma tcb_off i k : (i < 5)%nat -> field k -> tcb_addr i +w k = tcb_addr i + k.
Proof.
  intros Hi Hk. pose proof (lay_lo HL). pose proof (lay_hi HL). apply wrap32_small. unfold u32, tcb_addr, field in *. lia.
Qed.

Lemma sub_zero a c : u32 a -> u32 c -> (a -w c =? 0) = (a =? c).
Proof.
  unfold u32, u32_sub, wrap32. intros Ha Hc. destruct (Z.eqb_spec a c) as [->|Hne].
  - by rewrite Z.sub_diag.
  - apply Z.eqb_neq. unfold M32 in *. intros E. Z.to_euclidean_division_equations. lia.
Qed.

(** [n] instructions lead from [s] to [s']. *)
Definition reach (n : nat) s s' : Prop := forall f, exec (n + f) prog s = exec f prog s'.

Lemma reach_trans n k s1 s2 s3 : reach n s1 s2 -> reach k s2 s3 -> reach (n + k) s1 s3.
Proof. intros H1 H2 f. by rewrite <- Nat.add_assoc, H1, H2. Qed.

Lemma reach_step n s s1 s' : step prog s = Continue s1 -> reach n s1 s' -> reach (S n) s s'.
Proof. intros H1 H2 f. cbn [Nat.add exec]. by rewrite H1. Qed.

Lemma state_bit_u32 m i : (i < 5)%nat -> u32 (tcb_state (tcb_at m i)).
Proof. intros Hi. apply (word_at_u32 Arm ram), tcb_plain; [done|]. unfold field. auto. Qed.

Lemma goto_8 s : goto prog 8 s = Continue (jump 3 s).
Proof. reflexivity. Qed.
Lemma goto_9 s : goto prog 9 s = Continue (jump 13 s).
Proof. reflexivity. Qed.
Lemma goto_1 s : goto prog 1 s = Continue (jump 18 s).
Proof. reflexivity. Qed.

Ltac istep :=
  eapply reach_step;
  [unfold step; cbn [nth_error PendSV_Handler pc]; rewrite ?goto_8, ?goto_9, ?goto_1; mcbv; reflexivity|mcbv].

(** A load from ordinary memory. *)
Lemma reach_ldr rt rn off a n s s' :
  nth_error prog (pc s) = Some (ldr rt rn off) -> rf s rn +w off = a -> plain Arm ram a ->
  reach n (set_reg rt (word (mem s) a) (set_mem (mem s) (next s))) s' -> reach (S n) s s'.
Proof.
  intros Hi Ha Hp. apply reach_step. unfold step. rewrite Hi, Ha. by rewrite (peek_plain Arm ram).
Qed.
Ltac iload a := eapply (reach_ldr _ _ _ a); [reflexivity|mcbv|done|mcbv].

(** What the scan leaves alone. *)
Definition keeps s s' : Prop :=
  psp s' = psp s /\ mem s' = mem s /\ rf s' 2%nat = rf s 2%nat /\ forall r, (7 <= r)%nat -> rf s' r = rf s r.

Lemma keeps_trans s1 s2 s3 : keeps s1 s2 -> keeps s2 s3 -> keeps s1 s3.
Proof.
  intros (P1 & M1 & R1 & F1) (P2 & M2 & R2 & F2). split_and!; try congruence. intros r Hr. rewrite F2, F1; done.
Qed.

Ltac keep_regs := split_and!; [done|done|done|intros r Hr; do 7 (destruct r as [|r]; [lia|]); done].

(** One candidate: from label 8 to label 1 when it is ready, else to label 9. *)
Lemma scan_one i cur s : (i < 5)%nat -> (cur < 5)%nat -> pc s = 3%nat ->
  rf s 6%nat = Z.of_nat i -> rf s 2%nat = Z.of_nat cur ->
  exists n s', (n <= 10)%nat /\ reach n s s' /\ keeps s s' /\ rf s' 6%nat = Z.of_nat i /\
    if is_ready (mem s) cur i then pc s' = 18%nat /\ rf s' 4%nat = 16 /\ rf s' 5%nat = 1
    else pc s' = 13%nat.
Proof.
  intros Hi Hc Epc E6 E2. destruct s as [f p z n v c m]. cbn [pc rf mem] in *. subst c.
  assert (forall k, (k < 5)%nat -> u32 (Z.of_nat k)) as Hk by (intros; unfold u32, M32; lia).
  unfold is_ready. destruct (Nat.eqb_spec i cur) as [->|Hne]; cbn [negb andb].
  - exists 3%nat. eexists. split; [lia|]. split.
    { do 2 istep. rewrite E6, E2, sub_zero, Z.eqb_refl by auto. istep. intros ?. reflexivity. }
    split; [keep_regs|done].
  - assert (field 8) as H8 by (unfold field; auto).
    pose proof (tcb_plain i 8 Hi H8) as Hp.
    assert ((Z.of_nat i -w Z.of_nat cur =? 0) = false) as Ez by (rewrite sub_zero by auto; apply Z.eqb_neq; lia).
    change (tcb_state (tcb_at m i)) with (word m (tcb_addr i + 8)).
    assert (u32 (word m (tcb_addr i + 8))) as Hu by (by apply (word_at_u32 Arm ram)).
    exists 10%nat. destruct (word m (tcb_addr i + 8) =? 1) eqn:Es; (eexists; split; [lia|split]).
    1, 3: do 2 istep; rewrite E6, E2, Ez; do 5 istep;
      iload (tcb_addr i + 8); [by rewrite E6, tcb_base, tcb_off by done|];
      istep; rewrite sub_zero, Es by (auto || unfold u32, M32; lia); istep; intros ?; reflexivity.
    all: split; [keep_regs|]. 2: done. apply Z.eqb_eq in Es. done.
Qed.

(** Label 9: on to the next candidate, or out. *)
Lemma scan_next i s : (i < 4)%nat -> pc s = 13%nat -> rf s 6%nat = Z.of_nat i ->
  exists s', reach 4 s s' /\ keeps s s' /\ pc s' = 3%nat /\ rf s' 6%nat = Z.of_nat (S i).
Proof.
  intros Hi Epc E6. destruct s as [f p z n v c m]. cbn [pc rf mem] in *. subst c.
  do 4 (destruct i as [|i]; [eexists; split;
    [do 2 istep; rewrite E6; do 2 istep; intros ?; reflexivity|split; [keep_regs|done]]|]). lia.
Qed.

Lemma scan_last s : pc s = 13%nat -> rf s 6%nat = 4 ->
  exists s', reach 4 s s' /\ keeps s s' /\ pc s' = 17%nat.
Proof.
  intros Epc E6. destruct s as [f p z n v c m]. cbn [pc rf mem] in *. subst c.
  eexists. split; [do 2 istep; rewrite E6; do 2 istep; intros ?; reflexivity|split; [keep_regs|done]].
Qed.

(** The whole scan from candidate [i] on. *)
Lemma scan_from k i cur s : (i + k = 5)%nat -> (0 < k)%nat -> (cur < 5)%nat -> pc s = 3%nat ->
  rf s 6%nat = Z.of_nat i -> rf s 2%nat = Z.of_nat cur ->
  exists n s', (n <= 14 * k)%nat /\ reach n s s' /\ keeps s s' /\
    match List.find (is_ready (mem s) cur) (seq i k) with
    | Some x => pc s' = 18%nat /\ rf s' 4%nat = 16 /\ rf s' 5%nat = 1 /\ rf s' 6%nat = Z.of_nat x
    | None => pc s' = 17%nat
    end.
Proof.
  revert i s. induction k as [|k IH]; intros i s Hik Hk Hc Epc E6 E2; [lia|].
  destruct (scan_one i cur s) as (n1 & s1 & Hn1 & R1 & K1 & E1 & Hr); [lia|done..|].
  cbn [seq List.find]. destruct (is_ready (mem s) cur i).
  - exists n1, s1. destruct Hr as (? & ? & ?). split_and!; (done || lia).
  - destruct (decide (k = 0%nat)) as [->|Hk0].
    + destruct (scan_last s1 Hr) as (s2 & R2 & K2 & P2); [rewrite E1; lia|].
      exists (n1 + 4)%nat, s2. split_and!; [lia|by eapply reach_trans|by eapply keeps_trans|done].
    + destruct (scan_next i s1) as (s2 & R2 & K2 & P2 & E2'); [lia|done..|].
      pose proof (keeps_trans _ _ _ K1 K2) as K12. destruct K12 as (Kp & Km & K2r & Kf).
      destruct (IH (S i) s2) as (n3 & s3 & Hn3 & R3 & K3 & Hfin); [lia|lia|done|done|done|congruence|].
      exists (n1 + (4 + n3))%nat, s3. rewrite Km in Hfin.
      split_and!; [lia|by eapply reach_trans; [|eapply reach_trans]|by eapply keeps_trans; [eapply keeps_trans|]|done].
Qed.

(** ** Saving and restoring *)
Lemma load_regs_spec rs a f m :
  (forall j, (j < length rs)%nat -> plain Arm ram (a + 4 * Z.of_nat j)) ->
  0 <= a -> a + 4 * Z.of_nat (length rs) < M32 -> NoDup rs ->
  exists g, load_regs rs a f m = (g, m) /\
    (forall j r, rs !! j = Some r -> g r = word m (a + 4 * Z.of_nat j)) /\
    (forall r, r ∉ rs -> g r = f r).
Proof.
  intros Hp Ha Hm Hd. revert a f Hp Ha Hm. induction Hd as [|r rs Hr _ IH]; intros a f Hp Ha Hm; [by exists f|].
  cbn [load_regs length] in *.
  assert (a +w 4 = a + 4) as -> by (apply wrap32_small; unfold u32; lia).
  assert (forall j, a + 4 + 4 * Z.of_nat j = a + 4 * Z.of_nat (S j)) as Hs by lia.
  assert (plain Arm ram a) as Hpa by (rewrite <- (Z.add_0_r a); apply (Hp 0%nat); lia).
  rewrite (peek_plain Arm ram) by done. destruct (IH (a + 4) (upd r (word m a) f)) as (g & E & G1 & G2).
  { intros j Hj. rewrite Hs. apply Hp. lia. }
  1,2: lia. exists g. split; [done|]. split.
  - intros [|j] x Ex; cbn in Ex.
    + injection Ex as <-. rewrite Z.mul_0_r, Z.add_0_r. rewrite G2 by done. unfold upd. by rewrite Nat.eqb_refl.
    + rewrite <- Hs. by apply G1.
  - intros x Hx. apply not_elem_of_cons in Hx as [Hne Hx]. rewrite G2 by done. unfold upd.
    apply Nat.eqb_neq in Hne. by rewrite Hne.
Qed.

Definition saved_mem (cur nxt : nat) (a : Z) (f : nat -> Z) m : Machine B :=
  poke_u32 Arm current (Z.of_nat nxt)
    (poke_u32 Arm (tcb_addr cur + 8) 1
      (poke_u32 Arm (tcb_addr cur + 0) a (store_regs r4_r11 a f m))).

Lemma field_cases : field 0 /\ field 4 /\ field 8 /\ field 12.
Proof. unfold field. auto 10. Qed.

Lemma current_off : current +w 0 = current.
Proof. unfold u32_add. rewrite Z.add_0_r. apply wrap32_small, (lay_cu HL). Qed.

Lemma save_part cur nxt s : (cur < 5)%nat -> pc s = 18%nat ->
  rf s 2%nat = Z.of_nat cur -> rf s 6%nat = Z.of_nat nxt -> 32 <= psp s < M32 ->
  exists s', reach 12 s s' /\ pc s' = 30%nat /\ rf s' 6%nat = Z.of_nat nxt /\
    mem s' = saved_mem cur nxt (psp s - 32) (rf s) (mem s).
Proof.
  intros Hc Epc E2 E6 Hp. destruct s as [f p z n v c m]. cbn [pc rf mem psp] in *. subst c.
  destruct field_cases as (F0 & _ & F8 & _).
  assert (p -w 4 * Z.of_nat 8 = p - 32) as Ea by (apply wrap32_small; unfold u32; lia).
  eexists. split.
  - do 7 istep. rewrite E2, tcb_base by done. istep. istep. istep. istep. istep. intros ?. reflexivity.
  - split; [done|]. split; [done|]. mcbv. rewrite !tcb_off, current_off by done. rewrite Ea, E6. done.
Qed.

(** A multiple load from ordinary memory. *)
Lemma reach_ldmia rn a g n s s' :
  nth_error prog (pc s) = Some (ldmia rn r4_r11) -> rf s rn = a ->
  load_regs r4_r11 a (rf s) (mem s) = (g, mem s) ->
  reach n (set_reg rn (a +w 32) {| rf := g; psp := psp s; fZ := fZ s; fN := fN s; fV := fV s;
                                   pc := S (pc s); mem := mem s |}) s' ->
  reach (S n) s s'.
Proof. intros Hi Ha Hl. apply reach_step. unfold step. by rewrite Hi, Ha, Hl. Qed.

Definition resumed_mem (nxt : nat) m : Machine B :=
  let m1 := poke_u32 Arm (tcb_addr nxt + 8) 2 m in
  poke_u32 Arm (tcb_addr nxt + 12) (word m1 (tcb_addr nxt + 12) +w 1) m1.

Lemma restore_part nxt s : (nxt < 5)%nat -> pc s = 30%nat -> rf s 6%nat = Z.of_nat nxt ->
  let sp := word (mem s) (tcb_addr nxt + 0) in
  frame_at sp ->
  exists s', reach 13 s s' /\ pc s' = 43%nat /\ rf s' 0%nat = EXC_RETURN /\ psp s' = sp + 32 /\
    mem s' = resumed_mem nxt (mem s) /\ rf s' 5%nat = 2 /\
    rf s' 6%nat = word (mem s') (tcb_addr nxt + 12) /\
    forall j r, r4_r11 !! j = Some r -> r <> 5%nat -> r <> 6%nat ->
      rf s' r = word (mem s) (sp + 4 * Z.of_nat j).
Proof.
  intros Hn Epc E6 sp Hf. destruct s as [f p z n v c m]. cbn [pc rf mem psp] in *. subst c.
  destruct field_cases as (F0 & _ & F8 & F12).
  pose proof (tcb_plain nxt 0 Hn F0). pose proof (tcb_plain nxt 12 Hn F12) as H12.
  set (f1 := upd 0 sp (upd 3 (tcbs +w u32_shl (Z.of_nat nxt) 4) (upd 5 (u32_shl (Z.of_nat nxt) 4) (upd 4 16 (upd 3 tcbs f))))).
  destruct (load_regs_spec r4_r11 sp f1 m) as (g & Eg & G1 & G2).
  { apply (fr_plain sp Hf). } { apply (fr_lo sp Hf). } { apply (fr_hi sp Hf). }
  { by apply (bool_decide_unpack _). }
  assert (sp +w 32 = sp + 32) as E32
    by (apply wrap32_small; pose proof (fr_lo sp Hf); pose proof (fr_hi sp Hf); unfold u32; lia).
  assert (g 3%nat = tcb_addr nxt) as G3.
  { rewrite G2 by (by apply (bool_decide_unpack _)). unfold f1. cbn [upd Nat.eqb]. by apply tcb_base. }
  eexists. split.
  - do 4 istep. iload (tcb_addr nxt + 0); [by rewrite E6, tcb_base, tcb_off by done|].
    eapply (reach_ldmia _ sp g); [reflexivity|reflexivity|mcbv; by rewrite E6|]. mcbv.
    do 3 istep. iload (tcb_addr nxt + 12); [by rewrite G3, tcb_off by done|]. do 3 istep. intros ?. reflexivity.
  - mcbv. rewrite G3, !tcb_off, E32 by done. fold (resumed_mem nxt m). split_and!; try done.
    + symmetry. apply (word_at_poke_eq Arm ram); [done|apply u32_add_range].
    + intros j r Hj H5 H6. rewrite <- (G1 _ _ Hj).
      do 8 (destruct j as [|j]; [by injection Hj as <-|]). done.
Qed.

(** ** What the two halves leave in memory *)
Lemma poke_word a v c m : plain Arm ram a -> plain Arm ram c -> u32 v ->
  word (poke_u32 Arm a v m) c = if c =? a then v else word m c.
Proof.
  intros Ha Hc Hv. destruct (Z.eqb_spec c a) as [->|Hne];
    [by apply (word_at_poke_eq Arm ram)|by apply (word_at_poke_ne Arm ram)].
Qed.

Lemma saved_word cur nxt a f m c : (cur < 5)%nat -> (nxt < 5)%nat -> u32 a -> plain Arm ram c ->
  word (saved_mem cur nxt a f m) c =
    if c =? current then Z.of_nat nxt
    else if c =? tcb_addr cur + 8 then 1
    else if c =? tcb_addr cur + 0 then a
    else word (store_regs r4_r11 a f m) c.
Proof.
  intros Hc Hn Ha Hp. destruct field_cases as (F0 & _ & F8 & _). unfold saved_mem.
  rewrite !poke_word; first [done | apply (lay_cur HL) | by apply tcb_plain | unfold u32, M32; lia].
Qed.

Lemma resumed_word nxt m c : (nxt < 5)%nat -> plain Arm ram c ->
  word (resumed_mem nxt m) c =
    if c =? tcb_addr nxt + 12 then word m (tcb_addr nxt + 12) +w 1
    else if c =? tcb_addr nxt + 8 then 2 else word m c.
Proof.
  intros Hn Hp. destruct field_cases as (_ & _ & F8 & F12). unfold resumed_mem. cbv zeta.
  rewrite !poke_word; try first [done | by apply tcb_plain | apply u32_add_range | unfold u32, M32; lia].
  destruct (Z.eqb_spec (tcb_addr nxt + 12) (tcb_addr nxt + 8)); [lia|done].
Qed.

Lemma tcb_addr_ne i j k l : field k -> field l -> i <> j -> tcb_addr i + k <> tcb_addr j + l.
Proof. unfold tcb_addr, field. lia. Qed.

Lemma frame_words a f m : frame_at a -> Forall (fun r => u32 (f r)) r4_r11 ->
  (forall j w, map f r4_r11 !! j = Some w -> word (store_regs r4_r11 a f m) (a + 4 * Z.of_nat j) = w) /\
  (forall c, plain Arm ram c -> (forall j, (j < 8)%nat -> a + 4 * Z.of_nat j <> c) ->
     word (store_regs r4_r11 a f m) c = word m c).
Proof.
  intros Hf Hu. rewrite store_regs_words. apply (write_words_spec ram (map f r4_r11)).
  - apply (fr_plain a Hf). - apply (fr_lo a Hf). - apply (fr_hi a Hf). - by apply Forall_map.
Qed.

Lemma frame_saved a f m j r : frame_at a -> r4_r11 !! j = Some r -> Forall (fun r => u32 (f r)) r4_r11 ->
  word (store_regs r4_r11 a f m) (a + 4 * Z.of_nat j) = f r.
Proof. intros Hf Hj Hu. apply (frame_words a f m Hf Hu). by rewrite list_lookup_fmap, Hj. Qed.

Lemma frame_other a f m c : frame_at a -> plain Arm ram c -> Forall (fun r => u32 (f r)) r4_r11 ->
  (forall j, (j < 8)%nat -> a + 4 * Z.of_nat j <> c) -> word (store_regs r4_r11 a f m) c = word m c.
Proof. intros Hf Hc Hu Hne. by apply (frame_words a f m Hf Hu). Qed.

(** The abstract effect of a switch on a control block. *)
Definition park (a : Z) (t : Tcb) : Tcb :=
  {| tcb_sp := a; tcb_pc := tcb_pc t; tcb_state := 1; tcb_counter := tcb_counter t |}.
Definition resume (t : Tcb) : Tcb :=
  {| tcb_sp := tcb_sp t; tcb_pc := tcb_pc t; tcb_state := 2; tcb_counter := tcb_counter t +w 1 |}.


Lemma saved_tcb cur nxt a f m i : (cur < 5)%nat -> (nxt < 5)%nat -> (i < 5)%nat ->
  frame_at a -> Forall (fun r => u32 (f r)) r4_r11 ->
  tcb_at (saved_mem cur nxt a f m) i = if (i =? cur)%nat then park a (tcb_at m i) else tcb_at m i.
Proof.
  intros Hc Hn Hi Hf Hu.
  assert (u32 a) as Ha by (pose proof (fr_lo a Hf); pose proof (fr_hi a Hf); unfold u32; lia).
  assert (forall k, field k -> word (saved_mem cur nxt a f m) (tcb_addr i + k) =
    if (i =? cur)%nat then (if k =? 8 then 1 else if k =? 0 then a else word m (tcb_addr i + k))
    else word m (tcb_addr i + k)) as Hw.
  { intros k Fk. pose proof (tcb_plain i k Hi Fk). rewrite saved_word by done.
    pose proof (cur_not_tcb i k Hi Fk). pose proof (fun j Hj => frame_not_tcb a j i k Hf Hj Hi Fk).
    destruct field_cases as (F0 & _ & F8 & _).
    destruct (Nat.eqb_spec i cur) as [->|Hne].
    - rewrite frame_other by done. tests; done.
    - pose proof (tcb_addr_ne i cur k 8 Fk F8 Hne). pose proof (tcb_addr_ne i cur k 0 Fk F0 Hne).
      rewrite frame_other by done. tests; done. }
  destruct field_cases as (F0 & F4 & F8 & F12).
  pose proof (Hw 0 F0) as W0. rewrite Z.add_0_r in W0.
  unfold tcb_at, park. rewrite W0, !Hw by done. by destruct (i =? cur)%nat.
Qed.

Lemma resumed_tcb nxt m i : (nxt < 5)%nat -> (i < 5)%nat ->
  tcb_at (resumed_mem nxt m) i = if (i =? nxt)%nat then resume (tcb_at m i) else tcb_at m i.
Proof.
  intros Hn Hi.
  assert (forall k, field k -> word (resumed_mem nxt m) (tcb_addr i + k) =
    if (i =? nxt)%nat then (if k =? 12 then word m (tcb_addr i + 12) +w 1 else if k =? 8 then 2 else word m (tcb_addr i + k))
    else word m (tcb_addr i + k)) as Hw.
  { intros k Fk. pose proof (tcb_plain i k Hi Fk). rewrite resumed_word by done.
    destruct field_cases as (_ & _ & F8 & F12). destruct (Nat.eqb_spec i nxt) as [->|Hne].
    - tests; done.
    - pose proof (tcb_addr_ne i nxt k 8 Fk F8 Hne). pose proof (tcb_addr_ne i nxt k 12 Fk F12 Hne). tests; done. }
  destruct field_cases as (F0 & F4 & F8 & F12).
  pose proof (Hw 0 F0) as W0. rewrite Z.add_0_r in W0.
  unfold tcb_at, resume. rewrite W0, !Hw by done. by destruct (i =? nxt)%nat.
Qed.

(** ** The handler as a whole *)
Definition HANDLER_FUEL : nat := 100.

Lemma enter_scan cur s : pc s = 0%nat -> word (mem s) current = Z.of_nat cur ->
  exists s', reach 3 s s' /\ pc s' = 3%nat /\ rf s' 6%nat = 0 /\ rf s' 2%nat = Z.of_nat cur /\
    psp s' = psp s /\ mem s' = mem s /\ forall r, (7 <= r)%nat -> rf s' r = rf s r.
Proof.
  intros Epc Ec. destruct s as [f p z n v c m]. cbn [pc rf mem psp] in *. subst c.
  pose proof (lay_cur HL). eexists. split.
  - istep. iload current; [apply current_off|]. istep. intros ?. reflexivity.
  - split_and!; try done. intros r Hr. by do 7 (destruct r as [|r]; [lia|]).
Qed.

(** The handler that finds no candidate. *)
Lemma pendsv_idle cur s : (cur < 5)%nat -> pc s = 0%nat -> word (mem s) current = Z.of_nat cur ->
  next_ready (mem s) cur = None ->
  exists s', exec HANDLER_FUEL prog s = Some (rf s LR, s') /\ mem s' = mem s /\ psp s' = psp s.
Proof.
  intros Hc Epc Ec Hnone. destruct (enter_scan cur s Epc Ec) as (s1 & R1 & P1 & E6 & E2 & Ep & Em & Er).
  destruct (scan_from 5 0 cur s1) as (n & s2 & Hn & R2 & (Kp & Km & _ & Kf) & Hfin); [lia|lia|done..|].
  rewrite Em in Hfin. unfold next_ready in Hnone. rewrite Hnone in Hfin.
  pose proof (reach_trans _ _ _ _ _ R1 R2 (HANDLER_FUEL - (3 + n))%nat) as R.
  replace (3 + n + (HANDLER_FUEL - (3 + n)))%nat with HANDLER_FUEL in R by (unfold HANDLER_FUEL; lia).
  exists (next s2). rewrite R. replace (HANDLER_FUEL - (3 + n))%nat with (S (99 - (3 + n))) by (unfold HANDLER_FUEL; lia).
  cbn [exec]. unfold step. rewrite Hfin. cbn [nth_error PendSV_Handler].
  rewrite (Kf LR), (Er LR) by (unfold LR; lia). split; [done|]. cbn. split; congruence.
Qed.

(** The handler that switches to task [nxt]; register [r] of the outgoing task
    goes to word [r - 4] of its frame. *)
Lemma pendsv_switch cur nxt s : (cur < 5)%nat -> pc s = 0%nat -> word (mem s) current = Z.of_nat cur ->
  next_ready (mem s) cur = Some nxt -> (nxt < 5)%nat -> nxt <> cur ->
  (forall r, (7 <= r)%nat -> u32 (rf s r)) ->
  frame_at (psp s - 32) -> frame_at (tcb_sp (tcb_at (mem s) nxt)) ->
  exists f s', exec HANDLER_FUEL prog s = Some (EXC_RETURN, s') /\
    mem s' = resumed_mem nxt (saved_mem cur nxt (psp s - 32) f (mem s)) /\
    psp s' = tcb_sp (tcb_at (mem s) nxt) + 32 /\
    Forall (fun r => u32 (f r)) r4_r11 /\
    f 4%nat = 16 /\ f 5%nat = 1 /\ f 6%nat = Z.of_nat nxt /\ (forall r, (7 <= r)%nat -> f r = rf s r) /\
    rf s' 5%nat = 2 /\ rf s' 6%nat = tcb_counter (tcb_at (mem s') nxt) /\
    forall j r, r4_r11 !! j = Some r -> r <> 5%nat -> r <> 6%nat ->
      rf s' r = word (saved_mem cur nxt (psp s - 32) f (mem s)) (tcb_sp (tcb_at (mem s) nxt) + 4 * Z.of_nat j).
Proof.
  intros Hc Epc Ec Hsome Hn Hne Hreg Hfr Hfn.
  destruct (enter_scan cur s Epc Ec) as (s1 & R1 & P1 & E6 & E2 & Ep & Em & Er).
  destruct (scan_from 5 0 cur s1) as (n & s2 & Hnn & R2 & (Kp & Km & K2 & Kf) & Hfin); [lia|lia|done..|].
  rewrite Em in Hfin. unfold next_ready in Hsome. rewrite Hsome in Hfin. destruct Hfin as (P2 & F4 & F5 & F6).
  assert (32 <= psp s2 < M32) as Hpr.
  { rewrite Kp, Ep. pose proof (fr_lo _ Hfr). pose proof (fr_hi _ Hfr). lia. }
  destruct (save_part cur nxt s2) as (s3 & R3 & P3 & E63 & M3); [done|done|congruence|done|done|].
  rewrite Kp, Ep, Km, Em in M3.
  assert (Forall (fun r => u32 (rf s2 r)) r4_r11) as Hu.
  { assert (forall r, (7 <= r)%nat -> u32 (rf s2 r)) as H7 by (intros r Hr; rewrite Kf, Er by done; auto).
    unfold r4_r11. repeat constructor; try (apply H7; lia); rewrite ?F4, ?F5, ?F6; unfold u32, M32; lia. }
  assert (tcb_at (mem s3) nxt = tcb_at (mem s) nxt) as Et.
  { rewrite M3, saved_tcb by done. by apply Nat.eqb_neq in Hne as ->. }
  assert (word (mem s3) (tcb_addr nxt + 0) = tcb_sp (tcb_at (mem s) nxt)) as Esp
    by (rewrite Z.add_0_r; exact (f_equal tcb_sp Et)).
  destruct (restore_part nxt s3) as (s4 & R4 & P4 & E0 & Ep4 & M4 & E54 & E64 & Hrs); [done..|by rewrite Esp|].
  rewrite Esp in Ep4, Hrs. rewrite M3 in M4, Hrs.
  exists (rf s2), (next s4). split.
  - pose proof (reach_trans _ _ _ _ _ R1 (reach_trans _ _ _ _ _ R2 (reach_trans _ _ _ _ _ R3 R4))) as R.
    specialize (R (S (71 - n))%nat). replace (3 + (n + (12 + 13)) + S (71 - n))%nat with HANDLER_FUEL in R
      by (unfold HANDLER_FUEL; lia).
    rewrite R. cbn [exec]. unfold step. rewrite P4. cbn [nth_error PendSV_Handler]. by rewrite E0.
  - split_and!; try done. intros r Hr. by rewrite Kf, Er.
Qed.

(** ** The abstract scheduler *)
Record Sched := { sc_cur : nat; sc_tcbs : list Tcb }.

Definition sc_tcb (sc : Sched) (i : nat) : Tcb := aget tcb_dead (sc_tcbs sc) i.

Definition sc_next (sc : Sched) : option nat :=
  List.find (fun i => negb (i =? sc_cur sc)%nat && (tcb_state (sc_tcb sc i) =? 1)) (seq 0 5).

(** A switch with the outgoing stack pointer at [p]: the stack pointer to
    resume at and the new control blocks. *)
Definition pend_sv_spec (p : Z) (sc : Sched) : option (Z * Sched) :=
  nxt ← sc_next sc;
  Some (tcb_sp (sc_tcb sc nxt) + 32,
        {| sc_cur := nxt; sc_tcbs := alter resume nxt (alter (park (p - 32)) (sc_cur sc) (sc_tcbs sc)) |}).

Definition view m : Sched :=
  {| sc_cur := Z.to_nat (word m current); sc_tcbs := map (tcb_at m) (seq 0 5) |}.

Lemma view_tcb m i : (i < 5)%nat -> sc_tcb (view m) i = tcb_at m i.
Proof. intros Hi. do 5 (destruct i as [|i]; [done|]). lia. Qed.

Lemma view_next m cur : word m current = Z.of_nat cur -> sc_next (view m) = next_ready m cur.
Proof. intros E. unfold sc_next, next_ready, is_ready. cbn [view sc_cur]. by rewrite E, Nat2Z.id. Qed.

Lemma next_ready_lt m cur nxt : next_ready m cur = Some nxt ->
  (nxt < 5)%nat /\ nxt <> cur /\ tcb_state (tcb_at m nxt) = 1.
Proof.
  intros (Hin & Hr)%List.find_some. apply in_seq in Hin. unfold is_ready in Hr. bool_to_prop. split_and!; [lia|done|done].
Qed.

Lemma alter_five {A} (g h : A -> A) (F G : nat -> A) n c :
  (forall i, (i < 5)%nat -> G i = (if (i =? n)%nat then g else id) ((if (i =? c)%nat then h else id) (F i))) ->
  map G (seq 0 5) = alter g n (alter h c (map F (seq 0 5))).
Proof.
  intros HG. cbn [map seq]. rewrite !HG by lia.
  destruct c as [|[|[|[|[|c]]]]], n as [|[|[|[|[|n]]]]]; reflexivity.
Qed.

Lemma switch_view cur nxt a f m : (cur < 5)%nat -> (nxt < 5)%nat -> nxt <> cur ->
  frame_at a -> Forall (fun r => u32 (f r)) r4_r11 ->
  view (resumed_mem nxt (saved_mem cur nxt a f m)) =
    {| sc_cur := nxt; sc_tcbs := alter resume nxt (alter (park a) cur (sc_tcbs (view m))) |}.
Proof.
  intros Hc Hn Hne Hf Hu. destruct field_cases as (_ & _ & F8 & F12). unfold view. cbn [sc_tcbs].
  rewrite resumed_word by (done || apply (lay_cur HL)).
  pose proof (cur_not_tcb nxt 12 Hn F12). pose proof (cur_not_tcb nxt 8 Hn F8). tests.
  rewrite saved_word; [|done|done| |apply (lay_cur HL)].
  2: { pose proof (fr_lo a Hf). pose proof (fr_hi a Hf). unfold u32. lia. }
  rewrite Z.eqb_refl, Nat2Z.id. f_equal. apply alter_five. intros i Hi.
  rewrite resumed_tcb, saved_tcb by done. by destruct (Nat.eqb_spec i nxt), (Nat.eqb_spec i cur).
Qed.

(** A CPU at the handler's first instruction, with task [cur] interrupted. *)
Record interrupted (cur : nat) s : Prop := {
  in_cur : (cur < 5)%nat;
  in_pc : pc s = 0%nat;
  in_word : word (mem s) current = Z.of_nat cur;
  in_regs : forall r, (7 <= r)%nat -> u32 (rf s r);
  in_frame : frame_at (psp s - 32);
  in_ready : forall i, (i < 5)%nat -> i <> cur -> tcb_state (tcb_at (mem s) i) = 1 ->
    frame_at (tcb_sp (tcb_at (mem s) i));
}.

Lemma r4_r11_at r : (7 <= r <= 11)%nat -> r4_r11 !! (r - 4)%nat = Some r.
Proof. intros Hr. do 12 (destruct r as [|r]; [lia || reflexivity|]). lia. Qed.

(** Frame words survive the handler. *)
Lemma frame_word cur nxt a f m c j : (cur < 5)%nat -> (nxt < 5)%nat -> (j < 8)%nat -> u32 a -> frame_at c ->
  word (resumed_mem nxt (saved_mem cur nxt a f m)) (c + 4 * Z.of_nat j) =
  word (store_regs r4_r11 a f m) (c + 4 * Z.of_nat j) /\
  word (saved_mem cur nxt a f m) (c + 4 * Z.of_nat j) = word (store_regs r4_r11 a f m) (c + 4 * Z.of_nat j).
Proof.
  intros Hc Hn Hj Ha Hf. pose proof (fr_plain c Hf j Hj) as Hp. pose proof (fr_cur c Hf j Hj).
  pose proof (fun i k Hi Fk => frame_not_tcb c j i k Hf Hj Hi Fk) as Ht.
  destruct field_cases as (F0 & _ & F8 & F12).
  pose proof (Ht nxt 8 Hn F8). pose proof (Ht nxt 12 Hn F12). pose proof (Ht cur 8 Hc F8). pose proof (Ht cur 0 Hc F0).
  rewrite resumed_word, (saved_word _ _ _ _ _ (c + _)) by done. by tests.
Qed.

Lemma pendsv_step (cur : nat) (s : Cpu B) :
  interrupted cur s ->
  exists t s', exec HANDLER_FUEL prog s = Some (t, s') /\
    match pend_sv_spec (psp s) (view (mem s)) with
    | None => t = rf s LR /\ mem s' = mem s /\ psp s' = psp s
    | Some (p, sc) =>
        t = EXC_RETURN /\ psp s' = p /\ view (mem s') = sc /\
        forall r, (7 <= r <= 11)%nat ->
          word (mem s') (psp s - 32 + 4 * Z.of_nat (r - 4)) = rf s r /\
          rf s' r = word (mem s') (p - 32 + 4 * Z.of_nat (r - 4))
    end.
Proof.
  intros [Hc Hpc Hw Hr Hf Hrd]. unfold pend_sv_spec. rewrite (view_next (mem s) cur Hw).
  destruct (next_ready (mem s) cur) as [nxt|] eqn:En.
  2: { destruct (pendsv_idle cur s Hc Hpc Hw En) as (s' & ? & ? & ?). by exists (rf s LR), s'. }
  destruct (next_ready_lt _ _ _ En) as (Hn & Hne & Hst). pose proof (Hrd nxt Hn Hne Hst) as Hfn.
  destruct (pendsv_switch cur nxt s) as (f & s' & E & Em & Ep & Hu & _ & _ & _ & Hf7 & _ & _ & Hl); [done..|].
  cbn [mbind option_bind]. exists EXC_RETURN, s'. rewrite (view_tcb _ _ Hn), Em. cbn [view sc_cur].
  rewrite Hw, Nat2Z.id. split_and!; [done|done|done|by apply switch_view|]. intros r Hr7.
  assert (u32 (psp s - 32)) as Ha by (pose proof (fr_lo _ Hf); pose proof (fr_hi _ Hf); unfold u32; lia).
  assert (r - 4 < 8)%nat as H8 by lia. replace (tcb_sp (tcb_at (mem s) nxt) + 32 - 32) with (tcb_sp (tcb_at (mem s) nxt)) by lia.
  destruct (frame_word cur nxt (psp s - 32) f (mem s) (psp s - 32) (r - 4)) as [W1 _]; [done..|].
  destruct (frame_word cur nxt (psp s - 32) f (mem s) (tcb_sp (tcb_at (mem s) nxt)) (r - 4)) as [W2 W3]; [done..|].
  split.
  - rewrite W1, (frame_saved _ _ _ _ r) by (done || by apply r4_r11_at). apply Hf7. lia.
  - rewrite W2, <- W3. apply Hl; [by apply r4_r11_at|lia|lia].
Qed.


(** C19. Switching away and back: when the frame of a switched-out task is still
    intact and the handler comes back to it, its stack pointer and r7 to r11
    are those it was interrupted with, but r4, r5 and r6 hold the handler's own
    working values (16, 2 and the activation count) instead of the task's. *)
Theorem switch_roundtrip (cur nxt : nat) (s s2 : Cpu B) :
  interrupted cur s -> next_ready (mem s) cur = Some nxt ->
  interrupted nxt s2 -> next_ready (mem s2) nxt = Some cur ->
  (forall t s', exec HANDLER_FUEL prog s = Some (t, s') ->
     tcb_sp (tcb_at (mem s2) cur) = tcb_sp (tcb_at (mem s') cur) /\
     forall j, (j < 8)%nat -> word (mem s2) (psp s - 32 + 4 * Z.of_nat j) = word (mem s') (psp s - 32 + 4 * Z.of_nat j)) ->
  (forall j k, (j < 8)%nat -> (k < 8)%nat -> psp s2 - 32 + 4 * Z.of_nat j <> psp s - 32 + 4 * Z.of_nat k) ->
  exists s3, exec HANDLER_FUEL prog s2 = Some (EXC_RETURN, s3) /\ psp s3 = psp s /\
    (forall r, (7 <= r <= 11)%nat -> rf s3 r = rf s r) /\
    rf s3 4%nat = 16 /\ rf s3 5%nat = 2 /\ rf s3 6%nat = tcb_counter (tcb_at (mem s3) cur).
Proof.
  intros [Hc Hpc Hw Hr Hf Hrd] En [Hc2 Hpc2 Hw2 Hr2 Hf2 Hrd2] En2 Hkeep Hdis.
  destruct (next_ready_lt _ _ _ En) as (Hn & Hne & Hst). pose proof (Hrd nxt Hn Hne Hst) as Hfn.
  destruct (pendsv_switch cur nxt s) as (f & s' & E & Em & _ & Hu & F4 & _ & _ & Hf7 & _); [done..|].
  destruct (Hkeep _ _ E) as (Hsp & Hfr). clear Hkeep.
  assert (u32 (psp s - 32)) as Ha by (pose proof (fr_lo _ Hf); pose proof (fr_hi _ Hf); unfold u32; lia).
  assert (u32 (psp s2 - 32)) as Ha2 by (pose proof (fr_lo _ Hf2); pose proof (fr_hi _ Hf2); unfold u32; lia).
  assert (tcb_sp (tcb_at (mem s2) cur) = psp s - 32) as Esp.
  { rewrite Hsp, Em, resumed_tcb, saved_tcb by done. apply Nat.eqb_neq in Hne.
    by rewrite (Nat.eqb_sym cur nxt), Hne, Nat.eqb_refl. }
  destruct (pendsv_switch nxt cur s2) as (g & s3 & E3 & Em3 & Ep3 & Hu3 & _ & _ & _ & _ & G5 & G6 & Hl);
    [done..|by rewrite Esp|].
  rewrite Esp in Ep3, Hl. exists s3.
  assert (forall j r, r4_r11 !! j = Some r -> r <> 5%nat -> r <> 6%nat -> rf s3 r = f r) as Hback.
  { intros j r Hj H5 H6. rewrite (Hl j r Hj H5 H6). pose proof (lookup_lt_Some _ _ _ Hj) as Hj8. cbn in Hj8.
    destruct (frame_word nxt cur (psp s2 - 32) g (mem s2) (psp s - 32) j) as [_ ->]; [done..|].
    rewrite frame_other by first [done | by apply (fr_plain _ Hf) | by intros; apply Hdis]. rewrite Hfr by done.
    rewrite Em. destruct (frame_word cur nxt (psp s - 32) f (mem s) (psp s - 32) j) as [-> _]; [done..|].
    by apply frame_saved. }
  split_and!; [done|lia| |rewrite (Hback 0%nat 4%nat) by done; done|done|done].
  intros r Hr7. rewrite (Hback _ r (r4_r11_at r Hr7)) by lia. apply Hf7. lia.
Qed.

(** ** Rotation

    One tick of the abstract scheduler: a switch, after which tasks may run and
    spawn others, but do not touch the current-task word, nor the state of a
    task that is not dead. *)
Definition tick (sc sc' : Sched) : Prop :=
  exists p p' sc1, pend_sv_spec p sc = Some (p', sc1) /\ sc_cur sc' = sc_cur sc1 /\
    length (sc_tcbs sc') = length (sc_tcbs sc1) /\
    forall i, tcb_state (sc_tcb sc1 i) <> 0 -> tcb_state (sc_tcb sc' i) = tcb_state (sc_tcb sc1 i).

(** Tasks 0 and 1 share the processor: one is current, the other Ready. *)
Definition paired (sc : Sched) : Prop :=
  (2 <= length (sc_tcbs sc))%nat /\ (sc_cur sc < 2)%nat /\ tcb_state (sc_tcb sc (1 - sc_cur sc)) = 1.

Lemma aget_alter {A} (d : A) g i ts j : (i < length ts)%nat ->
  aget d (alter g i ts) j = if (j =? i)%nat then g (aget d ts i) else aget d ts j.
Proof.
  intros Hi. destruct (Nat.eqb_spec j i) as [->|Hne].
  - apply aget_of_lookup. rewrite list_lookup_alter_eq, (aget_lookup d) by done. done.
  - destruct (decide (j < length ts)%nat).
    + apply aget_of_lookup. rewrite list_lookup_alter_ne by done. by apply aget_lookup.
    + unfold aget. rewrite !nth_overflow; rewrite ?length_alter; auto; lia.
Qed.

Lemma paired_next sc : paired sc -> sc_next sc = Some (1 - sc_cur sc)%nat.
Proof.
  intros (_ & Hc & Hst). unfold sc_next.
  destruct (sc_cur sc) as [|[|c]]; [| |lia]; cbn [seq List.find Nat.eqb negb andb Nat.sub] in *; by rewrite Hst.
Qed.

Lemma paired_tick sc sc' : paired sc -> tick sc sc' -> paired sc' /\ sc_cur sc' = (1 - sc_cur sc)%nat.
Proof.
  intros Hp (p & p' & sc1 & E & Ec & Elen & Hs). pose proof (paired_next sc Hp) as En. destruct Hp as (Hl & Hc & Hst).
  unfold pend_sv_spec in E. rewrite En in E. cbn [mbind option_bind] in E. injection E as <- <-.
  cbn [sc_cur sc_tcbs] in *. rewrite !length_alter in Elen.
  split; [|done]. unfold paired. rewrite Ec, Elen. split_and!; [done|lia|].
  assert (tcb_state (sc_tcb {| sc_cur := 1 - sc_cur sc;
    sc_tcbs := alter resume (1 - sc_cur sc)%nat (alter (park (p - 32)) (sc_cur sc) (sc_tcbs sc)) |} (sc_cur sc)) = 1) as H1.
  { unfold sc_tcb. cbn [sc_tcbs]. rewrite aget_alter by (rewrite length_alter; lia).
    destruct (Nat.eqb_spec (sc_cur sc) (1 - sc_cur sc)); [lia|].
    rewrite aget_alter by lia. by rewrite Nat.eqb_refl. }
  replace (1 - (1 - sc_cur sc))%nat with (sc_cur sc) by lia. rewrite Hs; rewrite H1; done.
Qed.

(** From one handler run to the next: the task the handler returned to runs
    until it is interrupted in turn. It may spawn tasks, count and use its own
    stack; it leaves the current-task word and the state of every task that is
    not dead. *)
Definition runs_until (s1 s2 : Cpu B) : Prop :=
  (exists c, interrupted c s2) /\ word (mem s2) current = word (mem s1) current /\
  forall i, (i < 5)%nat -> tcb_state (tcb_at (mem s1) i) <> 0 ->
    tcb_state (tcb_at (mem s2) i) = tcb_state (tcb_at (mem s1) i).

(** [n] runs of the handler, each followed by the task it returned to. *)
Inductive preempted : nat -> Cpu B -> Cpu B -> Prop :=
| preempted_0 s : preempted 0 s s
| preempted_S n s t s1 s2 s3 :
    exec HANDLER_FUEL prog s = Some (t, s1) -> runs_until s1 s2 -> preempted n s2 s3 -> preempted (S n) s s3.

Lemma view_dead m i : (5 <= i)%nat -> sc_tcb (view m) i = tcb_dead.
Proof. intros Hi. unfold sc_tcb, aget. by apply nth_overflow. Qed.

Lemma view_cur cur s : interrupted cur s -> sc_cur (view (mem s)) = cur.
Proof. intros Hi. cbn [view sc_cur]. by rewrite (in_word cur s Hi), Nat2Z.id. Qed.

(** The handler makes a tick of the abstract scheduler. *)
Lemma handler_switches cur s : interrupted cur s -> paired (view (mem s)) ->
  exists t s1 p p', exec HANDLER_FUEL prog s = Some (t, s1) /\ pend_sv_spec p (view (mem s)) = Some (p', view (mem s1)).
Proof.
  intros Hi Hp. destruct (pendsv_step cur s Hi) as (t & s1 & E & Hs).
  destruct (pend_sv_spec (psp s) (view (mem s))) as [[p' sc]|] eqn:Es.
  - destruct Hs as (_ & _ & Hv & _). exists t, s1, (psp s), p'. by rewrite Hv.
  - unfold pend_sv_spec in Es. rewrite (paired_next _ Hp) in Es. discriminate Es.
Qed.

Lemma handler_tick cur s t s1 s2 : interrupted cur s -> paired (view (mem s)) ->
  exec HANDLER_FUEL prog s = Some (t, s1) -> runs_until s1 s2 -> tick (view (mem s)) (view (mem s2)).
Proof.
  intros Hi Hp E (_ & Hw & Hst). destruct (handler_switches cur s Hi Hp) as (t' & s1' & p & p' & E' & Hs).
  rewrite E in E'. injection E' as <- <-. exists p, p', (view (mem s1)). split; [done|].
  split; [cbn [view sc_cur]; by rewrite Hw|]. split; [done|]. intros i Hne.
  destruct (decide (i < 5)%nat) as [Hlt|]; [|by rewrite !view_dead by lia].
  rewrite !view_tcb in * by done. by apply Hst.
Qed.

(** C20. Tasks 0 and 1 alternate. On the handler itself: when task 0 or 1 is
    interrupted and the other of the two is Ready, then after [n] runs of the
    handler, whatever the tasks do in between short of writing the scheduler's
    words, and whatever further tasks they spawn, the current task is the one
    of the two that has the parity of [n], and the next run of the handler
    returns and switches to the other. No task other than these two runs. *)
Theorem two_tasks_alternate (n cur : nat) (s s' : Cpu B) :
  interrupted cur s -> (cur < 2)%nat -> tcb_state (tcb_at (mem s) (1 - cur)) = 1 -> preempted n s s' ->
  word (mem s') current = Z.of_nat ((cur + n) mod 2) /\
  exists t s'', exec HANDLER_FUEL prog s' = Some (t, s'') /\
    sc_cur (view (mem s'')) = ((cur + S n) mod 2)%nat.
Proof.
  intros Hi Hc Hr Ht.
  assert (paired (view (mem s))) as Hp.
  { split_and!; [cbn; lia|by rewrite (view_cur cur s)|]. rewrite (view_cur cur s), view_tcb by (done || lia). exact Hr. }
  clear Hr. revert cur Hi Hc Hp. induction Ht as [s|n s t s1 s2 s3 E Hrun _ IH]; intros cur Hi Hc Hp.
  - rewrite Nat.add_0_r, Nat.mod_small by lia. split; [apply Hi|].
    destruct (handler_switches cur s Hi Hp) as (t & s1 & p & p' & E & Hs). exists t, s1. split; [done|].
    unfold pend_sv_spec in Hs. rewrite (paired_next _ Hp), (view_cur cur s Hi) in Hs. cbn [mbind option_bind] in Hs.
    injection Hs as _ Hv _. cbn [view sc_cur]. rewrite <- Hv. by destruct cur as [|[|]]; [| |lia].
  - pose proof (handler_tick cur s t s1 s2 Hi Hp E Hrun) as Hk. destruct (paired_tick _ _ Hp Hk) as [Hp2 Ecur].
    destruct Hrun as ([c2 Hi2] & _). rewrite (view_cur c2 s2 Hi2), (view_cur cur s Hi) in Ecur. subst c2.
    destruct (IH _ Hi2 ltac:(lia) Hp2) as [H1 H2].
    assert (forall k, (1 - cur + k) mod 2 = (cur + S k) mod 2)%nat as Hm.
    { intros k. destruct cur as [|[|]]; [done| |lia]. replace (1 + S k)%nat with (1 - 1 + k + 1 * 2)%nat by lia.
      by rewrite Nat.Div0.mod_add. }
    rewrite !Hm in *. done.
Qed.
End Switch.

(** ** Spawning *)
Section Spawn.
Context {B : Type} `{Bus B} (current tcbs : Z).
(** Linker symbols: the stack tops and the two task bodies; the handlers. *)
Context (_task_stack_1 _task_stack_2 _task_stack_3 : Z) (body_1 body_2 : Z).
Context (PendSV_addr sys_tick_pend_addr : Z).
Implicit Type m : Machine B.

Definition task_stack_top (idx : nat) : Z :=
  match idx with
  | 1%nat => _task_stack_1
  | 2%nat => _task_stack_2
  | 3%nat => _task_stack_3
  | _ => _task_stack_1
  end.

Definition set_tcb (i : nat) (sp pc state : Z) m : Machine B :=
  poke_u32 Arm (tcb_addr tcbs i + 8) state
    (poke_u32 Arm (tcb_addr tcbs i + 4) pc (poke_u32 Arm (tcb_addr tcbs i + 0) sp m)).

Definition spawn_counter_task (task_idx : nat) m : bool * Machine B :=
  if (NUM_TASKS - 1 <=? task_idx)%nat then (false, m)
  else
    let stack_top := task_stack_top (task_idx + 1) in
    let body_addr := if (task_idx =? 0)%nat then body_1 else body_2 in
    let sp := stack_top in
    let m1 := poke_u32 Arm (sp -w 4) 0x01000000 m in
    let m2 := poke_u32 Arm (sp -w 8) (Z.lor body_addr 1) m1 in
    let m3 := foldl (fun m off => poke_u32 Arm (sp -w off) 0 m) m2 [12; 16; 20; 24; 28; 32] in
    (true, set_tcb (task_idx + 1) (sp -w 64) body_addr (state_val Ready) m3).

Definition spawn_jit_task (slot_idx : nat) m : bool * Machine B :=
  if (NUM_TASKS - 1 <=? slot_idx)%nat then (false, m)
  else
    let stack_top := task_stack_top (slot_idx + 1) in
    let body_addr := if (slot_idx =? 0)%nat then body_1 else body_2 in
    let sp := stack_top in
    let m1 := poke_u32 Arm (sp -w 4) 0x01000000 m in
    let m2 := poke_u32 Arm (sp -w 8) (Z.lor body_addr 1) m1 in
    let m3 := foldl (fun m off => poke_u32 Arm (sp -w off) 0 m) m2 [12; 16; 20; 24; 28; 32] in
    (true, set_tcb (slot_idx + 1) (sp -w 64) body_addr (state_val Ready) m3).

Definition install_task_handlers m : Machine B :=
  poke_u32 Arm (0xE000ED20 + 12) 0xFF000000
    (poke_u32 Arm (slot_addr Arm 15) sys_tick_pend_addr (poke_u32 Arm (slot_addr Arm 14) PendSV_addr m)).

(** ICSR.PENDSVSET. *)
Definition sys_tick_pend m : Machine B := poke_u32 Arm 0xE000ED04 (bit32 28) m.

Definition slot_bases : list Z := [0x20002000; 0x20002400; 0x20002800; 0x20002C00].

Definition emit_fn_into_slot (slot_idx : nat) (words : list Z) m : Result unit unit * Machine B :=
  if (NUM_TASKS - 1 <=? slot_idx)%nat || (256 <? length words)%nat then (Err tt, m)
  else (Ok tt, write_words (aget 0 slot_bases slot_idx) words m).

Definition jit_slot_base_addr (slot_idx : nat) : Z :=
  match slot_idx with
  | 0%nat => 0x20002000
  | 1%nat => 0x20002400
  | 2%nat => 0x20002800
  | _ => 0x20002C00
  end.

Lemma spawn_jit_counter idx m : spawn_jit_task idx m = spawn_counter_task idx m.
Proof. reflexivity. Qed.

(** ** What a spawned task starts with *)
Context `{!BusWidth B} (ram : Z -> Prop) `{!BusRam B ram}.
Local Abbreviation word := (word_at Arm).
Hypothesis HL : layout ram current tcbs.

(** The eight words the exception return pops: r0 to r3, r12, lr, pc, xPSR. *)
Definition exc_frame m (p : Z) : list Z := map (fun j => word m (p + 4 * Z.of_nat j)) (seq 0 8).

Definition body_of (idx : nat) : Z := if (idx =? 0)%nat then body_1 else body_2.

Lemma sub_off sp k : frame_at ram current tcbs (sp - 32) -> 0 <= k <= 32 -> sp -w k = sp - k.
Proof.
  intros Hf Hk. pose proof (fr_lo _ _ _ _ Hf). pose proof (fr_hi _ _ _ _ Hf). apply wrap32_small. unfold u32. lia.
Qed.

(** The initial stack, word by word. *)
Definition stacked (sp body : Z) m : Machine B :=
  foldl (fun m off => poke_u32 Arm (sp -w off) 0 m)
    (poke_u32 Arm (sp -w 8) (Z.lor body 1) (poke_u32 Arm (sp -w 4) 0x01000000 m)) [12; 16; 20; 24; 28; 32].

Definition initial_frame (body : Z) : list Z := [0; 0; 0; 0; 0; 0; Z.lor body 1; 0x01000000].


Lemma stacked_word sp body m c : frame_at ram current tcbs (sp - 32) -> u32 body -> plain Arm ram c ->
  (forall j, (j < 8)%nat -> c = sp - 32 + 4 * Z.of_nat j -> word (stacked sp body m) c = aget 0 (initial_frame body) j) /\
  ((forall j, (j < 8)%nat -> sp - 32 + 4 * Z.of_nat j <> c) -> word (stacked sp body m) c = word m c).
Proof.
  intros Hf Hb Hc. unfold stacked. cbn [foldl]. rewrite !(sub_off sp) by (done || lia).
  assert (forall k j, sp - k = sp - 32 + 4 * Z.of_nat j -> (j < 8)%nat -> plain Arm ram (sp - k)) as Hq
    by (intros k j -> Hj; by apply (fr_plain _ _ _ _ Hf)).
  assert (u32 0) by (unfold u32, M32; lia). assert (u32 0x01000000) by (unfold u32, M32; lia).
  assert (u32 (Z.lor body 1)) by (apply lor_u32; [done|unfold u32, M32; lia]).
  rewrite !(poke_word ram); try done;
    [|apply (Hq 4 7%nat); lia|apply (Hq 8 6%nat); lia|apply (Hq 12 5%nat); lia|apply (Hq 16 4%nat); lia
     |apply (Hq 20 3%nat); lia|apply (Hq 24 2%nat); lia|apply (Hq 28 1%nat); lia|apply (Hq 32 0%nat); lia].
  split.
  - intros j Hj Ec. do 8 (destruct j as [|j]; [tests; reflexivity|]). lia.
  - intros Hne. pose proof (fun j Hj => Hne j Hj) as Hn.
    pose proof (Hn 0%nat). pose proof (Hn 1%nat). pose proof (Hn 2%nat). pose proof (Hn 3%nat).
    pose proof (Hn 4%nat). pose proof (Hn 5%nat). pose proof (Hn 6%nat). pose proof (Hn 7%nat). by tests.
Qed.

Lemma spawn_eq idx m : (idx < 3)%nat ->
  spawn_counter_task idx m =
    (true, set_tcb (idx + 1) (task_stack_top (idx + 1) -w 64) (body_of idx) 1
             (stacked (task_stack_top (idx + 1)) (body_of idx) m)).
Proof.
  intros Hi. unfold spawn_counter_task. destruct (Nat.leb_spec (NUM_TASKS - 1) idx); [unfold NUM_TASKS in *; lia|done].
Qed.

Lemma set_tcb_word i sp pc st m c : (i < 5)%nat -> u32 sp -> u32 pc -> u32 st -> plain Arm ram c ->
  word (set_tcb i sp pc st m) c =
    if c =? tcb_addr tcbs i + 8 then st else if c =? tcb_addr tcbs i + 4 then pc
    else if c =? tcb_addr tcbs i + 0 then sp else word m c.
Proof.
  intros Hi Hs Hp Ht Hc. destruct field_cases as (F0 & F4 & F8 & _). unfold set_tcb.
  rewrite !(poke_word ram); first [done | by apply (tcb_plain ram current)].
Qed.

(** The control blocks after a spawn. *)
Lemma spawn_tcb idx m i : (idx < 3)%nat -> (i < 5)%nat -> u32 (body_of idx) ->
  let sp := task_stack_top (idx + 1) in
  frame_at ram current tcbs (sp - 32) -> frame_at ram current tcbs (sp - 64) ->
  tcb_at tcbs (snd (spawn_counter_task idx m)) i =
    if (i =? idx + 1)%nat
    then {| tcb_sp := sp - 64; tcb_pc := body_of idx; tcb_state := 1; tcb_counter := tcb_counter (tcb_at tcbs m i) |}
    else tcb_at tcbs m i.
Proof.
  intros Hx Hi Hb sp Hf Hf2. rewrite spawn_eq by done. cbn [snd]. fold sp.
  assert (sp -w 64 = sp - 64) as E64.
  { pose proof (fr_lo _ _ _ _ Hf2). pose proof (fr_hi _ _ _ _ Hf). apply wrap32_small. unfold u32. lia. }
  assert (u32 (sp -w 64)) by apply u32_sub_range.
  assert (forall k, field k -> word (set_tcb (idx + 1) (sp -w 64) (body_of idx) 1 (stacked sp (body_of idx) m)) (tcb_addr tcbs i + k) =
    if (i =? idx + 1)%nat then (if k =? 8 then 1 else if k =? 4 then body_of idx else if k =? 0 then sp - 64 else word m (tcb_addr tcbs i + k))
    else word m (tcb_addr tcbs i + k)) as Hw.
  { intros k Fk. pose proof (tcb_plain ram current tcbs HL i k Hi Fk) as Hp.
    rewrite set_tcb_word by (done || lia || unfold u32, M32; lia).
    destruct (stacked_word sp (body_of idx) m (tcb_addr tcbs i + k) Hf Hb Hp) as [_ ->].
    2: { intros j Hj. by apply (frame_not_tcb ram current tcbs). }
    destruct field_cases as (F0 & F4 & F8 & _). destruct (Nat.eqb_spec i (idx + 1)) as [->|Hne].
    - tests; done.
    - pose proof (tcb_addr_ne tcbs i (idx + 1) k 8 Fk F8 Hne). pose proof (tcb_addr_ne tcbs i (idx + 1) k 4 Fk F4 Hne).
      pose proof (tcb_addr_ne tcbs i (idx + 1) k 0 Fk F0 Hne). tests; done. }
  destruct field_cases as (F0 & F4 & F8 & F12).
  pose proof (Hw 0 F0) as W0. rewrite Z.add_0_r in W0.
  unfold tcb_at. rewrite W0, !Hw by done. by destruct (i =? idx + 1)%nat.
Qed.

(** The words of the new stack after a spawn. *)
Lemma spawn_frame_word idx m j : (idx < 3)%nat -> (j < 8)%nat -> u32 (body_of idx) ->
  let sp := task_stack_top (idx + 1) in
  frame_at ram current tcbs (sp - 32) ->
  word (snd (spawn_counter_task idx m)) (sp - 32 + 4 * Z.of_nat j) = aget 0 (initial_frame (body_of idx)) j.
Proof.
  intros Hx Hj Hb sp Hf. rewrite spawn_eq by done. cbn [snd]. fold sp.
  pose proof (fr_plain _ _ _ _ Hf j Hj) as Hp. assert (idx + 1 < 5)%nat as H5 by lia.
  rewrite set_tcb_word by first [done | apply u32_sub_range | unfold u32, M32; lia].
  destruct field_cases as (F0 & F4 & F8 & _).
  pose proof (frame_not_tcb ram current tcbs _ j _ _ Hf Hj H5 F0).
  pose proof (frame_not_tcb ram current tcbs _ j _ _ Hf Hj H5 F4).
  pose proof (frame_not_tcb ram current tcbs _ j _ _ Hf Hj H5 F8). tests.
  by apply (stacked_word sp (body_of idx) m _ Hf Hb Hp).
Qed.

(** A spawned task starts at its body: when the handler first switches to a
    task prepared by [spawn_counter_task] or [spawn_jit_task], the exception
    return pops the body's address with the Thumb bit, an xPSR in Thumb state,
    and zeroes in every other register of the frame. *)
Theorem spawn_first_dispatch (idx cur : nat) (m : Machine B) (s : Cpu B) :
  let sp := task_stack_top (idx + 1) in
  (idx < 3)%nat -> u32 (body_of idx) ->
  frame_at ram current tcbs (sp - 32) -> frame_at ram current tcbs (sp - 64) ->
  interrupted ram current tcbs cur s -> mem s = snd (spawn_jit_task idx m) ->
  next_ready tcbs (mem s) cur = Some (idx + 1)%nat ->
  (forall j k, (j < 8)%nat -> (k < 8)%nat -> psp s - 32 + 4 * Z.of_nat j <> sp - 32 + 4 * Z.of_nat k) ->
  exists s', exec HANDLER_FUEL (PendSV_Handler current tcbs) s = Some (EXC_RETURN, s') /\
    exc_frame (mem s') (psp s') = [0; 0; 0; 0; 0; 0; Z.lor (body_of idx) 1; 0x01000000].
Proof.
  intros sp Hx Hb Hf Hf2 [Hc Hpc Hw Hr Hfr Hrd] Em En Hdis. rewrite spawn_jit_counter in Em.
  destruct (next_ready_lt tcbs _ _ _ En) as (Hn & Hne & Hst).
  assert (tcb_sp (tcb_at tcbs (mem s) (idx + 1)) = sp - 64) as Esp
    by (rewrite Em, spawn_tcb by done; by rewrite Nat.eqb_refl).
  destruct (pendsv_switch ram current tcbs HL cur (idx + 1) s)
    as (f & s' & E & Em' & Ep & Hu & _); [done..|by rewrite Esp|].
  exists s'. split; [done|]. rewrite Ep, Esp. replace (sp - 64 + 32) with (sp - 32) by lia.
  assert (u32 (psp s - 32)) as Ha
    by (pose proof (fr_lo _ _ _ _ Hfr); pose proof (fr_hi _ _ _ _ Hfr); unfold u32; lia).
  assert (forall j, (j < 8)%nat -> word (mem s') (sp - 32 + 4 * Z.of_nat j) = aget 0 (initial_frame (body_of idx)) j) as Hj.
  { intros j Hj. rewrite Em'.
    destruct (frame_word ram current tcbs HL cur (idx + 1) (psp s - 32) f (mem s) (sp - 32) j) as [-> _]; [done..|].
    rewrite (frame_other ram current tcbs) by first [done | by apply (fr_plain _ _ _ _ Hf) | by intros; apply Hdis].
    rewrite Em. by apply spawn_frame_word. }
  unfold exc_frame. cbn [map seq]. rewrite !Hj by lia. reflexivity.
Qed.
End Spawn.

(** ** Task bodies and code slots *)
Section Slots.
Context {B : Type} `{Bus B, !BusWidth B} (ram : Z -> Prop) `{!BusRam B ram}.
Implicit Types (m : Machine B) (s : Cpu B).

(** [n] instructions. *)
Fixpoint run_steps (n : nat) (prog : list Asm) s : option (Cpu B) :=
  match n with
  | O => Some s
  | S k => match step prog s with Continue s1 => run_steps k prog s1 | _ => None end
  end.

Lemma run_steps_S n prog s s1 r :
  step prog s = Continue s1 -> run_steps n prog s1 = r -> run_steps (S n) prog s = r.
Proof. intros E1 E2. cbn [run_steps]. by rewrite E1. Qed.

(** The counter word the two bodies increment: [off] is 28 or 44. *)
Definition counting (tcbs off : Z) : list Asm :=
  [ldr_eq 0 tcbs; label 1; ldr 1 0 off; adds_imm 1 1 1; str 1 0 off; b_to 1].

Ltac cstep :=
  eapply run_steps_S; [unfold step; cbn [nth_error counting pc]; mcbv; reflexivity|mcbv].

Lemma bodies_count tcbs : task_body_1 tcbs = counting tcbs 28 /\ task_body_2 tcbs = counting tcbs 44.
Proof. done. Qed.

Lemma count_loop tcbs off k s : plain Arm ram (tcbs + off) -> u32 (tcbs + off) -> pc s = 1%nat -> rf s 0%nat = tcbs ->
  exists s', run_steps (5 * k) (counting tcbs off) s = Some s' /\ pc s' = 1%nat /\ rf s' 0%nat = tcbs /\
    word_at Arm (mem s') (tcbs + off) = wrap32 (word_at Arm (mem s) (tcbs + off) + Z.of_nat k) /\
    forall c, plain Arm ram c -> c <> tcbs + off -> word_at Arm (mem s') c = word_at Arm (mem s) c.
Proof.
  intros Hp Hu. revert s. induction k as [|k IH]; intros s Epc E0.
  { exists s. rewrite Z.add_0_r, wrap32_small by (by apply (word_at_u32 Arm ram)). done. }
  replace (5 * S k)%nat with (5 + 5 * k)%nat by lia. destruct s as [f p z n v c m]. cbn [pc rf mem] in *. subst c.
  assert (tcbs +w off = tcbs + off) as Ea by (by apply wrap32_small).
  set (v1 := word_at Arm m (tcbs + off) +w 1).
  set (s1 := {| rf := upd 1 v1 (upd 1 (word_at Arm m (tcbs + off)) f); psp := p; fZ := v1 =? 0; fN := Z.testbit v1 31;
                fV := add_overflow (word_at Arm m (tcbs + off)) 1 v1; pc := 1; mem := poke_u32 Arm (tcbs + off) v1 m |}).
  assert (run_steps (5 + 5 * k) (counting tcbs off)
    {| rf := f; psp := p; fZ := z; fN := n; fV := v; pc := 1; mem := m |} = run_steps (5 * k) (counting tcbs off) s1) as ->.
  { change (5 + 5 * k)%nat with (S (S (S (S (S (5 * k)))))). cstep.
    eapply run_steps_S;
      [unfold step; cbn [nth_error counting pc rf mem]; rewrite E0, Ea, (peek_plain Arm ram) by done; reflexivity|mcbv].
    do 2 cstep. rewrite E0, Ea. cstep. reflexivity. }
  destruct (IH s1) as (s' & E & P & R0 & W & Hc); [done..|]. exists s'. split_and!; [done..| |].
  - rewrite W. cbn [mem s1]. rewrite (word_at_poke_eq Arm ram) by (done || apply u32_add_range).
    unfold v1, u32_add, wrap32. rewrite Zplus_mod_idemp_l. f_equal. lia.
  - intros c Hcp Hne. rewrite Hc by done. cbn [mem s1]. by apply (word_at_poke_ne Arm ram).
Qed.

Lemma slot_base idx : (idx < 3)%nat ->
  aget 0 slot_bases idx = jit_slot_base_addr idx /\ jit_slot_base_addr idx = 0x20002000 + 0x400 * Z.of_nat idx.
Proof. intros Hi. do 3 (destruct idx as [|idx]; [done|]). lia. Qed.

(** C21. Emitting code into a task slot: slots other than 0, 1 and 2 and bodies
    of more than 256 words are refused without touching memory; otherwise every
    word of the body is in the slot, and no word outside that slot's kilobyte
    changes, so no other slot does. *)
Theorem emit_fn_slot_confined (idx : nat) (words : list Z) (m : Machine B) :
  (forall j, (j < 256)%nat -> plain Arm ram (jit_slot_base_addr idx + 4 * Z.of_nat j)) -> Forall u32 words ->
  let (r, m') := emit_fn_into_slot idx words m in
  if (idx <? 3)%nat && (length words <=? 256)%nat then
    r = Ok tt /\
    (forall j w, words !! j = Some w -> word_at Arm m' (jit_slot_base_addr idx + 4 * Z.of_nat j) = w) /\
    (forall c, plain Arm ram c -> ~ (jit_slot_base_addr idx <= c < jit_slot_base_addr idx + 1024) ->
       word_at Arm m' c = word_at Arm m c)
  else r = Err tt /\ m' = m.
Proof.
  intros Hp Hu. unfold emit_fn_into_slot, NUM_TASKS.
  destruct (Nat.leb_spec (4 - 1) idx), (Nat.ltb_spec idx 3); try lia; [done|].
  destruct (Nat.ltb_spec 256 (length words)), (Nat.leb_spec (length words) 256); try lia; [done|]. cbn [orb andb].
  destruct (slot_base idx) as [-> E]; [done|]. split; [done|]. rewrite E in *.
  destruct (write_words_spec ram words (0x20002000 + 0x400 * Z.of_nat idx) m) as [W1 W2];
    [intros; apply Hp; lia|lia|unfold M32; lia|done|].
  split; [done|]. intros c Hc Hr. apply W2; [done|]. intros j Hj. lia.
Qed.
End Slots.

(** ** A concrete image

    Control blocks at the start of SRAM, stacks where the linker script puts
    them, the REPL interrupted with its stack pointer at the store's base. *)
Definition demo_tcbs : Z := 0x20003000.
Definition demo_current : Z := 0x20003100.
Definition demo_top (n : nat) : Z := 0x2000F000 - 512 * Z.of_nat n.

Lemma plain_aligned a : a mod 4 = 0 -> a < 0x20001000 \/ 0x20001020 <= a -> plain Arm aligned a.
Proof.
  intros Ha Hr. split; [done|]. unfold reg_slot, CAPREG_BASE.
  destruct (Z.leb_spec 0 (a - 0x20001000)), (Z.ltb_spec (a - 0x20001000) 32); try done; lia.
Qed.

Lemma demo_layout : layout aligned demo_current demo_tcbs.
Proof.
  unfold demo_current, demo_tcbs. constructor; try (unfold u32, M32; lia).
  - intros j Hj. apply plain_aligned; [Z.to_euclidean_division_equations; lia|lia].
  - by apply plain_aligned; [|lia].
Qed.

Lemma demo_frame a : a mod 4 = 0 -> 0x20004000 <= a <= 0x2000F000 -> frame_at aligned demo_current demo_tcbs a.
Proof.
  unfold demo_current, demo_tcbs. intros Ha Hr. constructor; try (unfold M32; lia).
  intros j Hj. apply plain_aligned; [Z.to_euclidean_division_equations; lia|lia].
Qed.

Definition demo_spawned : Machine (gmap Z Z) :=
  snd (spawn_jit_task demo_tcbs (demo_top 1) (demo_top 2) (demo_top 3) 0x08000200 0x08000210 0
         (boot_machine (∅ : gmap Z Z))).

Definition demo_cpu (p : Z) (m : Machine (gmap Z Z)) : Cpu (gmap Z Z) :=
  {| rf := fun r => 100 + Z.of_nat r mod 16; psp := p; fZ := false; fN := false; fV := false; pc := 0; mem := m |}.

Definition demo_s : Cpu (gmap Z Z) := demo_cpu 0x2000F000 demo_spawned.

(** The spawned task, interrupted after its first switch. *)
Definition demo_s2 : Cpu (gmap Z Z) :=
  match exec HANDLER_FUEL (PendSV_Handler demo_current demo_tcbs) demo_s with
  | Some (_, s') => demo_cpu (psp s') (mem s')
  | None => demo_s
  end.

Lemma demo_regs p m r : u32 (rf (demo_cpu p m) r).
Proof. cbn. unfold u32, M32. pose proof (Z.mod_pos_bound (Z.of_nat r) 16). lia. Qed.

Lemma demo_s2_cpu : exists p m, demo_s2 = demo_cpu p m.
Proof. unfold demo_s2. destruct (exec _ _ _) as [[t s']|]; by eexists _, _. Qed.

Lemma demo_interrupted : interrupted aligned demo_current demo_tcbs 0 demo_s.
Proof.
  constructor; [lia|done|by vm_compute|intros; apply demo_regs|by apply demo_frame; cbn; [|lia]|].
  intros i Hi Hne. destruct i as [|[|[|[|[|i]]]]]; try lia; intros E; try (vm_compute in E; discriminate E).
  assert (tcb_sp (tcb_at demo_tcbs (mem demo_s) 1) = 0x2000EDC0) as -> by (vm_compute; reflexivity).
  by apply demo_frame; [|lia].
Qed.

Lemma demo_interrupted2 : interrupted aligned demo_current demo_tcbs 1 demo_s2.
Proof.
  constructor; [lia|by vm_compute|by vm_compute| | |].
  - intros r _. destruct demo_s2_cpu as (p & m & ->). apply demo_regs.
  - assert (psp demo_s2 = 0x2000EDE0) as -> by (vm_compute; reflexivity). by apply demo_frame; [|lia].
  - intros i Hi Hne. destruct i as [|[|[|[|[|i]]]]]; try lia; intros E; try (vm_compute in E; discriminate E).
    assert (tcb_sp (tcb_at demo_tcbs (mem demo_s2) 0) = 0x2000EFE0) as -> by (vm_compute; reflexivity).
    by apply demo_frame; [|lia].
Qed.


Lemma switch_roundtrip_witness :
  exists s3, exec HANDLER_FUEL (PendSV_Handler demo_current demo_tcbs) demo_s2 = Some (EXC_RETURN, s3) /\
    psp s3 = psp demo_s /\ (forall r, (7 <= r <= 11)%nat -> rf s3 r = rf demo_s r) /\
    rf s3 4%nat = 16 /\ rf s3 5%nat = 2 /\ rf s3 6%nat = tcb_counter (tcb_at demo_tcbs (mem s3) 0).
Proof.
  apply (switch_roundtrip aligned demo_current demo_tcbs demo_layout 0 1 demo_s demo_s2 demo_interrupted).
  - by vm_compute.
  - exact demo_interrupted2.
  - by vm_compute.
  - intros t s' E. unfold demo_s2. rewrite E. by split.
  - assert (psp demo_s2 = 0x2000EDE0) as -> by (vm_compute; reflexivity). cbn [psp demo_s demo_cpu]. intros j k Hj Hk. lia.
Defined.

Lemma spawn_first_dispatch_witness :
  exists s', exec HANDLER_FUEL (PendSV_Handler demo_current demo_tcbs) demo_s = Some (EXC_RETURN, s') /\
    exc_frame (mem s') (psp s') = [0; 0; 0; 0; 0; 0; 0x08000201; 0x01000000].
Proof.
  apply (spawn_first_dispatch demo_current demo_tcbs (demo_top 1) (demo_top 2) (demo_top 3) 0x08000200 0x08000210
    aligned demo_layout 0 0 (boot_machine ∅) demo_s).
  - lia.
  - unfold u32, M32. cbn. lia.
  - by apply demo_frame; vm_compute; [|split; discriminate].
  - by apply demo_frame; vm_compute; [|split; discriminate].
  - exact demo_interrupted.
  - reflexivity.
  - by vm_compute.
  - intros j k Hj Hk. change (0x2000F000 - 32 + 4 * Z.of_nat j <> 0x2000EE00 - 32 + 4 * Z.of_nat k). lia.
Defined.

(** The REPL, then the spawned task, then the REPL again. *)
Lemma two_tasks_alternate_witness :
  word_at Arm (mem demo_s2) demo_current = 1 /\
  exists t s'', exec HANDLER_FUEL (PendSV_Handler demo_current demo_tcbs) demo_s2 = Some (t, s'') /\
    sc_cur (view demo_current demo_tcbs (mem s'')) = 0%nat.
Proof.
  apply (two_tasks_alternate aligned demo_current demo_tcbs demo_layout 1 0 demo_s demo_s2 demo_interrupted).
  - lia.
  - by vm_compute.
  - destruct (exec HANDLER_FUEL (PendSV_Handler demo_current demo_tcbs) demo_s) as [[t s1]|] eqn:E;
      [|exfalso; vm_compute in E; discriminate E].
    eapply preempted_S; [exact E| |constructor].
    assert (mem demo_s2 = mem s1) as Em by (unfold demo_s2; by rewrite E).
    split; [exists 1%nat; exact demo_interrupted2|]. rewrite Em. by split.
Defined.

Lemma emit_fn_slot_confined_witness :
  fst (emit_fn_into_slot 1 [257; 7; 369] (boot_machine (∅ : gmap Z Z))) = Ok tt.
Proof.
  assert (forall j, (j < 256)%nat -> plain Arm aligned (jit_slot_base_addr 1 + 4 * Z.of_nat j)) as Hp.
  { intros j Hj. cbn. apply plain_aligned; [Z.to_euclidean_division_equations; lia|lia]. }
  assert (Forall u32 [257; 7; 369]) as Hu by (repeat constructor; unfold M32; lia).
  pose proof (emit_fn_slot_confined aligned 1 [257; 7; 369] (boot_machine (∅ : gmap Z Z)) Hp Hu) as E.
  exact (proj1 E).
Defined.
