(* ===== verification/Repl.v ===== *)
(** * Repl: line editing and capability commands (src/drivers/repl.rs)

    Console output is the list of bytes handed to [uart::write_str], in order;
    Uart.v models their transmission. The line editor feeds received bytes
    into a fixed buffer; a carriage return or newline submits the line to the
    compiler. [do_claim] and [do_drop] are the only REPL commands that change
    the registry by name. *)
From S2P Require Import Prelude Registry AuditRing Memory Lexer SymTab Exec Parser ParserSafe Tokens Uart.
Local Open Scope Z_scope.

Definition LINE_MAX : nat := 128.

Inductive State := Idle | Reading | Evaluating | Printing.
#[export] Instance State_eq_dec : EqDecision State.
Proof. solve_decision. Defined.

(** [LINE_BUF] and [LINE_LEN]. *)
Record Line := { ln_buf : list Z; ln_len : nat }.

Definition line_new : Line := {| ln_buf := replicate LINE_MAX 0; ln_len := 0 |}.

Definition set_line_len (n : nat) (l : Line) : Line := {| ln_buf := ln_buf l; ln_len := n |}.

Definition prompt : list Z := bytes "holy> ".

(** Backspace, blank, backspace. *)
Definition RUBOUT : list Z := [8; 32; 8].

(** The new state, the line, and the bytes echoed. *)
Definition feed (byte0 : Z) (l : Line) : State * Line * list Z :=
  let byte := if byte0 =? 9 then 32 else byte0 in
  if (byte =? 13) || (byte =? 10) then (Evaluating, l, CRLF)
  else if (byte =? 8) || (byte =? 127) then
    let len := ln_len l in
    if (0 <? len)%nat then (Reading, set_line_len (len - 1) l, RUBOUT) else (Reading, l, [])
  else if byte =? 0x15 then
    (Reading, set_line_len 0 l, concat (replicate (ln_len l) RUBOUT))
  else if byte =? 3 then (Idle, set_line_len 0 l, bytes "^C" ++ CRLF ++ prompt)
  else if in_range 0x20 0x7E byte then
    let len := ln_len l in
    if (len <? LINE_MAX)%nat
    then (Reading, set_line_len (S len) {| ln_buf := aset (ln_buf l) len byte; ln_len := len |}, [byte])
    else (Reading, l, [])
  else (Reading, l, []).

Definition take_line (l : Line) : list Z * Line := (take (ln_len l) (ln_buf l), set_line_len 0 l).

(** [None] for an empty line. *)
Definition compile `{PrimAddrs} {B} `{Bus B} (arch : Arch) (c : Compiler) (m : Machine B) (line : list Z)
  : option (Res Outcome) * (Compiler * Machine B) :=
  match line with
  | [] => (None, (c, m))
  | _ => let (r, cm) := parse arch c m line in (Some r, cm)
  end.

Definition error_text (e : ParseError) : list Z :=
  match e with
  | LexError _ => bytes "LEX" ++ [10]
  | UnexpectedToken => bytes "UNEXPECTED TOKEN" ++ [10]
  | UnsupportedOperator _ => bytes "UNSUPPORTED OPERATOR" ++ [10]
  | UnknownSymbol => bytes "UNKNOWN SYMBOL" ++ [10]
  | DuplicateFn => bytes "FN REDEFINED" ++ [10]
  | SymbolTableFull => bytes "SYMBOL TABLE FULL" ++ [10]
  | FnTableFull => bytes "FN TABLE FULL" ++ [10]
  | StreamFull => bytes "STREAM FULL" ++ [10]
  | NameTooLong => bytes "NAME TOO LONG" ++ [10]
  | DivByZero => bytes "DIV BY ZERO" ++ [10]
  | MissingSemicolon => bytes "MISSING SEMICOLON" ++ [10]
  | EmptyLine => [10]
  | CapViolation => bytes "E001: CAPABILITY_VIOLATION - Peripheral token not claimed" ++ [10]
  | LoopTooLarge => bytes "LOOP TOO LARGE (max 64 unroll)" ++ [10]
  end.

Definition write_value (value : Z) : list Z :=
  bytes "0x" ++ hex_bytes value ++ bytes " (" ++ dec_bytes value ++ bytes ")" ++ CRLF.

Definition do_claim (name : NameBuf) (r : list Z) : list Z * list Z :=
  match resolve_name (as_slice name) with
  | Some id =>
      let (won, r') := acquire r id in
      if won then (r', bytes "CAP CLAIMED " ++ as_slice name ++ bytes " id=" ++ dec_bytes id ++ [10])
      else (r', bytes "CAP BUSY " ++ as_slice name ++ CRLF)
  | None => (r, bytes "ERR UNKNOWN RESOURCE " ++ as_slice name ++ CRLF)
  end.

Definition do_drop (name : NameBuf) (r : list Z) : list Z * list Z :=
  match resolve_name (as_slice name) with
  | Some id =>
      if available r id then (r, bytes "CAP NOT HELD " ++ as_slice name ++ CRLF)
      else (release r id, bytes "CAP RELEASED " ++ as_slice name ++ CRLF)
  | None => (r, bytes "ERR UNKNOWN RESOURCE " ++ as_slice name ++ CRLF)
  end.

(** The audit dump: entries with a zero address are not shown. *)
Definition audit_row (e : AuditEntry) : list Z :=
  if negb (ae_addr e =? 0) then
    bytes "ADDR: " ++ bytes "0x" ++ hex_bytes (ae_addr e) ++ bytes " | VAL: " ++ bytes "0x" ++
    hex_bytes (ae_val e) ++ bytes " | CYCLES: " ++ dec_bytes (ae_cycles e) ++ CRLF
  else [].

Definition handle_audit (log : AuditLog) : list Z :=
  bytes "--- SUPERUSER AUDIT LOG ---" ++ CRLF ++ bytes "Total Unsafe Operations: " ++
  dec_bytes (total_audits log) ++ CRLF ++ bytes "Recent Events:" ++ CRLF ++
  concat (map audit_row (entries log)).

(** ** Submitted lines *)

(** The reading loop of [run] on received bytes: each submitted line is taken
    and collected; the buffer carries over. *)
Fixpoint read_lines (input : list Z) (l : Line) : list (list Z) * Line :=
  match input with
  | [] => ([], l)
  | b :: rest =>
      match feed b l with
      | (Evaluating, l1, _) =>
          let (text, l2) := take_line l1 in
          let (lines, l3) := read_lines rest l2 in (text :: lines, l3)
      | (_, l1, _) => read_lines rest l1
      end
  end.

(** The specification: an editable text of at most 128 printable bytes. *)
Inductive Key := KEnter | KErase | KKill | KText (b : Z) | KIgnore.

Definition key_of (b : Z) : Key :=
  if (b =? 13) || (b =? 10) then KEnter
  else if (b =? 8) || (b =? 127) then KErase
  else if (b =? 0x15) || (b =? 3) then KKill
  else if b =? 9 then KText 32
  else if in_range 0x20 0x7E b then KText b
  else KIgnore.

Fixpoint edit_lines (keys : list Key) (text : list Z) : list (list Z) * list Z :=
  match keys with
  | [] => ([], text)
  | KEnter :: rest => let (lines, t) := edit_lines rest [] in (text :: lines, t)
  | KErase :: rest => edit_lines rest (removelast text)
  | KKill :: rest => edit_lines rest []
  | KText b :: rest => edit_lines rest (if (length text <? 128)%nat then text ++ [b] else text)
  | KIgnore :: rest => edit_lines rest text
  end.

Definition line_rep (l : Line) (text : list Z) : Prop :=
  length (ln_buf l) = LINE_MAX /\ (ln_len l <= LINE_MAX)%nat /\ text = take (ln_len l) (ln_buf l).

Lemma line_rep_length l text : line_rep l text -> length text = ln_len l.
Proof. intros (H1 & H2 & ->). rewrite length_take. lia. Qed.

Lemma line_rep_append l text b :
  line_rep l text -> (ln_len l < LINE_MAX)%nat ->
  line_rep (set_line_len (S (ln_len l)) {| ln_buf := aset (ln_buf l) (ln_len l) b; ln_len := ln_len l |})
    (text ++ [b]).
Proof.
  intros (H1 & H2 & ->) Hlt. split; [by cbn; rewrite length_aset|]. split; [cbn; lia|].
  cbn [set_line_len ln_buf ln_len]. unfold aset.
  rewrite (take_S_r _ _ b) by (apply list_lookup_insert_eq; lia). by rewrite take_insert_ge by lia.
Qed.

Lemma line_rep_erase l text :
  line_rep l text -> line_rep (set_line_len (ln_len l - 1) l) (removelast text).
Proof.
  intros Hr. pose proof (line_rep_length _ _ Hr) as Hlen. destruct Hr as (H1 & H2 & Ht).
  split; [done|]. split; [cbn; lia|]. cbn [set_line_len ln_buf ln_len].
  rewrite removelast_firstn_len, Hlen, Ht, take_take. f_equal. lia.
Qed.

Lemma line_rep_clear l text : line_rep l text -> line_rep (set_line_len 0 l) [].
Proof. intros (H1 & _). split; [done|]. split; [cbn; lia|done]. Qed.

(** One key press. *)
Lemma feed_key b l text :
  line_rep l text ->
  match key_of b, feed b l with
  | KEnter, (st, l', _) => st = Evaluating /\ l' = l
  | KErase, (st, l', _) => st <> Evaluating /\ line_rep l' (removelast text)
  | KKill, (st, l', _) => st <> Evaluating /\ line_rep l' []
  | KText x, (st, l', _) => st <> Evaluating /\ line_rep l' (if (length text <? 128)%nat then text ++ [x] else text)
  | KIgnore, (st, l', _) => st <> Evaluating /\ line_rep l' text
  end.
Proof.
  intros Hr. pose proof (line_rep_length _ _ Hr) as Hlen. unfold key_of, feed.
  assert (forall x, line_rep (if (ln_len l <? LINE_MAX)%nat
      then set_line_len (S (ln_len l)) {| ln_buf := aset (ln_buf l) (ln_len l) x; ln_len := ln_len l |} else l)
    (if (length text <? 128)%nat then text ++ [x] else text)) as Htext.
  { intros x. rewrite Hlen. change 128%nat with LINE_MAX.
    destruct (Nat.ltb_spec (ln_len l) LINE_MAX); [by apply line_rep_append|done]. }
  destruct (Z.eqb_spec b 9) as [->|H9].
  { specialize (Htext 32). cbn -[LINE_MAX Nat.ltb line_rep set_line_len aset].
    destruct (ln_len l <? LINE_MAX)%nat; (split; [done|exact Htext]). }
  destruct ((b =? 13) || (b =? 10)); [done|]. destruct ((b =? 8) || (b =? 127)).
  { destruct (Nat.ltb_spec 0 (ln_len l)); (split; [done|]); [by apply line_rep_erase|].
    destruct text; [done|cbn in Hlen; lia]. }
  destruct (b =? 0x15); cbn [orb]; [split; [done|by eapply line_rep_clear]|].
  destruct (b =? 3); [split; [done|by eapply line_rep_clear]|].
  destruct (in_range 0x20 0x7E b); [|done]. specialize (Htext b).
  destruct (ln_len l <? LINE_MAX)%nat; (split; [done|exact Htext]).
Qed.

Lemma read_lines_rep input l text : line_rep l text ->
  fst (read_lines input l) = fst (edit_lines (map key_of input) text) /\
  line_rep (snd (read_lines input l)) (snd (edit_lines (map key_of input) text)).
Proof.
  revert l text. induction input as [|b input IH]; intros l text Hr; [done|].
  cbn [map read_lines edit_lines]. pose proof (feed_key b l text Hr) as Hk.
  destruct (feed b l) as [[st l'] out]. destruct (key_of b) eqn:Ek.
  - destruct Hk as [-> ->]. unfold take_line.
    destruct (IH (set_line_len 0 l) [] (line_rep_clear _ _ Hr)) as [E1 R1].
    destruct (read_lines input (set_line_len 0 l)), (edit_lines (map key_of input) []).
    cbn [fst snd] in *. split; [|done]. f_equal; [|done]. by destruct Hr as (_ & _ & ->).
  - destruct Hk as [Hne Hr']. destruct st; try done; by apply IH.
  - destruct Hk as [Hne Hr']. destruct st; try done; by apply IH.
  - destruct Hk as [Hne Hr']. destruct st; try done; by apply IH.
  - destruct Hk as [Hne Hr']. destruct st; try done; by apply IH.
Qed.

Definition printable (b : Z) : Prop := 0x20 <= b <= 0x7E.

Definition good_text (t : list Z) : Prop := (length t <= 128)%nat /\ Forall printable t.

Definition good_key (k : Key) : Prop := match k with KText b => printable b | _ => True end.

Lemma key_of_good b : good_key (key_of b).
Proof.
  unfold key_of, in_range, printable. repeat case_match; simplify_eq; cbn; try done; try lia.
  bool_to_prop. unfold printable. lia.
Qed.

Lemma edit_lines_good keys text : Forall good_key keys -> good_text text ->
  Forall good_text (fst (edit_lines keys text)) /\ good_text (snd (edit_lines keys text)).
Proof.
  intros Hk. revert text. induction Hk as [|k keys Hk _ IH]; intros text Ht; [by split; [constructor|]|].
  assert (good_text []) as H0 by (split; [cbn; lia|constructor]).
  destruct k as [| | |b|]; cbn [edit_lines].
  - destruct (IH [] H0) as [H1 H2]. destruct (edit_lines keys []). cbn [fst snd] in *.
    split; [by constructor|done].
  - apply IH. destruct Ht as [Hl Hp]. rewrite removelast_firstn_len. split.
    + rewrite length_take. lia.
    + by apply Forall_take.
  - by apply IH.
  - apply IH. destruct (Nat.ltb_spec (length text) 128); [|done]. destruct Ht as [Hl Hp]. split.
    + rewrite length_app. cbn. lia.
    + apply Forall_app. split; [done|]. by apply Forall_singleton.
  - by apply IH.
Qed.

(** The line editor: whatever bytes arrive, the lines submitted for
    compilation are those a text editor with erase, kill and a 128-byte limit
    would submit (tabs as blanks, other control bytes ignored), and every one
    is at most 128 bytes of printable ASCII. *)
Theorem repl_lines (input : list Z) :
  fst (read_lines input line_new) = fst (edit_lines (map key_of input) []) /\
  Forall (fun t => (length t <= LINE_MAX)%nat /\ Forall printable t) (fst (read_lines input line_new)).
Proof.
  assert (line_rep line_new []) as Hr by (split; [done|]; split; [cbn; lia|done]).
  destruct (read_lines_rep input line_new [] Hr) as [E _]. split; [done|]. rewrite E.
  apply edit_lines_good; [|split; [cbn; lia|constructor]].
  apply list.Forall_forall. intros k (b & <- & _)%list_elem_of_In%in_map_iff. apply key_of_good.
Qed.

(** ** Claiming and dropping by name *)
Definition cap_of (r : Resource) : CapId :=
  match r with
  | RGpioA => GpioA | RGpioB => GpioB | RUart0 => Uart0 | RSpi0 => Spi0
  | RI2c0 => I2c0 | RTimer0 => Timer0 | RDma0 => Dma0 | RSuperUserCap => SuperUser
  end.

Lemma cap_of_id r : cap_val (cap_of r) = RESOURCE_ID r.
Proof. by destruct r. Qed.

Lemma resolve_own_name r : resolve_name (NAME r) = Some (RESOURCE_ID r).
Proof. by destruct r. Qed.

Lemma do_claim_free nb r regs :
  as_slice nb = NAME r -> wf_registry regs -> available regs (RESOURCE_ID r) = true ->
  fst (do_claim nb regs) = snd (acquire regs (RESOURCE_ID r)) /\
  snd (do_claim nb regs) = bytes "CAP CLAIMED " ++ NAME r ++ bytes " id=" ++ dec_bytes (RESOURCE_ID r) ++ [10].
Proof.
  intros Hn Hwf Ha. unfold do_claim. rewrite Hn, resolve_own_name.
  pose proof (cap_val_valid (cap_of r)) as Hv. rewrite cap_of_id in Hv.
  pose proof (acquire_won regs _ Hwf Hv) as Hw. unfold is_claimed in Hw. rewrite Ha in Hw.
  destruct (acquire regs (RESOURCE_ID r)) as [won regs']. cbn in Hw. by subst won.
Qed.

(** A free peripheral claimed by name, and dropped again. *)
Lemma claim_then_drop (arch : Arch) (nb : NameBuf) (r : Resource) (regs : list Z) (a : Z) :
  as_slice nb = NAME r -> wf_registry regs -> available regs (RESOURCE_ID r) = true ->
  is_superuser_active regs = false -> r <> RSuperUserCap -> in_region arch a (cap_of r) ->
  let claimed := fst (do_claim nb regs) in
  let dropped := fst (do_drop nb claimed) in
  check_access arch claimed a = Ok tt /\ check_access arch dropped a = Err (cap_of r) /\
  claimed_set dropped = claimed_set regs /\ is_superuser_active claimed = false /\
  snd (do_claim nb regs) = bytes "CAP CLAIMED " ++ NAME r ++ bytes " id=" ++ dec_bytes (RESOURCE_ID r) ++ [10] /\
  snd (do_drop nb claimed) = bytes "CAP RELEASED " ++ NAME r ++ CRLF.
Proof.
  intros Hn Hwf Hav Hsu Hr Hin. cbv zeta. destruct (do_claim_free nb r regs) as [-> ->]; [done..|].
  pose proof (cap_val_valid (cap_of r)) as Hv. rewrite cap_of_id in Hv.
  pose proof (acquire_wf regs (RESOURCE_ID r) Hwf) as Hwf1.
  pose proof (fun j Hj => acquire_claimed regs (RESOURCE_ID r) j Hwf Hv Hj) as Hacq.
  set (regs1 := snd (acquire regs (RESOURCE_ID r))) in *.
  pose proof (fun j Hj => release_claimed regs1 (RESOURCE_ID r) j Hwf1 Hv Hj) as Hrel.
  assert (is_claimed regs1 (RESOURCE_ID r) = true) as H1 by (rewrite Hacq, bool_decide_true by done; done).
  assert (do_drop nb regs1 = (release regs1 (RESOURCE_ID r), bytes "CAP RELEASED " ++ NAME r ++ CRLF)) as ->.
  { unfold do_drop. rewrite Hn, resolve_own_name. unfold is_claimed in H1.
    by destruct (available regs1 (RESOURCE_ID r)). }
  cbn [fst snd].
  pose proof (cap_val_valid SuperUser) as Hvs.
  assert (bool_decide (RESOURCE_ID r = cap_val SuperUser) = false) as Hne
    by (apply bool_decide_false; rewrite <- cap_of_id; intros E%cap_val_inj; by destruct r).
  assert (is_superuser_active regs = is_claimed regs (cap_val SuperUser)) as Esu by done.
  assert (is_superuser_active regs1 = false) as Hsu1
    by (change (is_superuser_active regs1) with (is_claimed regs1 (cap_val SuperUser)); by rewrite Hacq, Hne, <- Esu, Hsu by done).
  apply addr_to_cap_id_region in Hin. split_and!; [| | |done..].
  - unfold check_access. by rewrite Hsu1, Hin, cap_of_id, H1.
  - unfold check_access.
    change (is_superuser_active (release regs1 _)) with (is_claimed (release regs1 (RESOURCE_ID r)) (cap_val SuperUser)).
    rewrite Hrel, Hacq, Hne, <- Esu, Hsu by done. cbn [orb andb negb].
    rewrite Hin, cap_of_id, Hrel, bool_decide_true by done. done.
  - clear Hne. apply set_eq. intros j. rewrite !elem_of_claimed_set. split; intros [Hj Hc]; (split; [done|]).
    + rewrite Hrel, Hacq in Hc by done. case_bool_decide; [done|]. exact Hc.
    + rewrite Hrel, Hacq, Hc, orb_true_r, andb_true_r by done. case_bool_decide as E; [|done].
      subst j. unfold is_claimed in Hc. by rewrite Hav in Hc.
Qed.

(** [cap_claim] and [cap_drop] by name do what they say: claiming a free
    peripheral makes every address of its window accessible; dropping it
    again makes every one of them refused, and restores the registry's set of
    claimed resources exactly. *)
Theorem repl_claim_drop (arch : Arch) (nb : NameBuf) (r : Resource) (regs : list Z) (a : Z) :
  as_slice nb = NAME r -> wf_registry regs -> available regs (RESOURCE_ID r) = true ->
  is_superuser_active regs = false -> r <> RSuperUserCap -> in_region arch a (cap_of r) ->
  let claimed := fst (do_claim nb regs) in
  let dropped := fst (do_drop nb claimed) in
  check_access arch claimed a = Ok tt /\ check_access arch dropped a = Err (cap_of r) /\
  claimed_set dropped = claimed_set regs.
Proof.
  intros Hn Hwf Hav Hsu Hr Hin. by destruct (claim_then_drop arch nb r regs a) as (? & ? & ? & _).
Qed.

Lemma repl_claim_drop_witness :
  check_access Arm (fst (do_claim {| nb_len := 5; nb_bytes := bytes "GPIOA" |} REGISTRY_INIT)) 0x40020014 = Ok tt.
Proof.
  apply (repl_claim_drop Arm {| nb_len := 5; nb_bytes := bytes "GPIOA" |} RGpioA REGISTRY_INIT 0x40020014).
  - reflexivity.
  - apply registry_init_wf.
  - reflexivity.
  - reflexivity.
  - discriminate.
  - apply addr_to_cap_id_region. reflexivity.
Defined.
