(* ===== verification/World.v ===== *)
(** * World: the kernel's state and its commands

    Everything the REPL's commands work on: the machine (registry, audit log,
    bus), the compiler, the line buffer, the code buffer, the operand stack and
    the pool offsets. A command either completes, waits for ever on a device
    ([Hang]: a busy wait ran out of its polls), or leaves the defined behaviour
    of the program ([Crash]: a jump to a word that is no code, a fault in
    generated code, a failed bounds check). The safety theorems say that
    commands do not crash. *)
From S2P Require Import Prelude Registry AuditRing Memory Lexer SymTab Exec Parser.
From S2P Require Import ParserSafe Isa Emitter Native Uart Drivers Repl.
Local Open Scope Z_scope.

Record World (B : Type) := {
  w_m : Machine B;
  w_comp : Compiler;
  w_line : Line;
  w_buf : list Z;
  w_vm : VM;
  w_pool : list Z;
}.
Arguments w_m {B} _.
Arguments w_comp {B} _.
Arguments w_line {B} _.
Arguments w_buf {B} _.
Arguments w_vm {B} _.
Arguments w_pool {B} _.

Inductive Out (A : Type) := Done (a : A) | Hang | Crash.
Arguments Done {A} _.
Arguments Hang {A}.
Arguments Crash {A}.

Definition Cmd (B A : Type) : Type := World B -> Out (A * World B).

#[export] Instance cmd_ret B : MRet (Cmd B) := fun A a w => Done (a, w).
#[export] Instance cmd_bind B : MBind (Cmd B) := fun A A' k c w =>
  match c w with Done (a, w') => k a w' | Hang => Hang | Crash => Crash end.

Definition set_m {B} (m : Machine B) (w : World B) : World B :=
  {| w_m := m; w_comp := w_comp w; w_line := w_line w; w_buf := w_buf w; w_vm := w_vm w; w_pool := w_pool w |}.
Definition set_comp {B} (c : Compiler) (w : World B) : World B :=
  {| w_m := w_m w; w_comp := c; w_line := w_line w; w_buf := w_buf w; w_vm := w_vm w; w_pool := w_pool w |}.
Definition set_line {B} (l : Line) (w : World B) : World B :=
  {| w_m := w_m w; w_comp := w_comp w; w_line := l; w_buf := w_buf w; w_vm := w_vm w; w_pool := w_pool w |}.
Definition set_code {B} (buf : list Z) (vm : VM) (w : World B) : World B :=
  {| w_m := w_m w; w_comp := w_comp w; w_line := w_line w; w_buf := buf; w_vm := vm; w_pool := w_pool w |}.
Definition set_pool {B} (p : list Z) (w : World B) : World B :=
  {| w_m := w_m w; w_comp := w_comp w; w_line := w_line w; w_buf := w_buf w; w_vm := w_vm w; w_pool := p |}.

Definition crash {B A} : Cmd B A := fun _ => Crash.
Definition get_world {B} : Cmd B (World B) := fun w => Done (w, w).
Definition modify {B} (f : World B -> World B) : Cmd B unit := fun w => Done (tt, f w).

Lemma bind_done {B A A'} (c : Cmd B A) (k : A -> Cmd B A') w a w' : c w = Done (a, w') -> (c ≫= k) w = k a w'.
Proof. intros E. unfold mbind, cmd_bind. by rewrite E. Qed.

Section Commands.
Context `{PrimAddrs} {B : Type} `{Bus B} (arch : Arch) (spin : nat) (regs : Z -> Z).

(** A pure step of the machine; a device program; console output. *)
Definition on_machine {A} (f : Machine B -> A * Machine B) : Cmd B A := fun w =>
  let (a, m) := f (w_m w) in Done (a, set_m m w).

Definition device {A} (d : Dev B A) : Cmd B A := fun w =>
  match d (w_m w) with (Some a, m) => Done (a, set_m m w) | (None, _) => Hang end.

Definition say (s : list Z) : Cmd B unit := fun w =>
  match write_str arch spin s (w_m w) with Some m => Done (tt, set_m m w) | None => Hang end.

Definition say_line (s : list Z) : Cmd B unit := say (s ++ CRLF).

(** [run_threaded_stream] on a complete stream. *)
Definition run_stream (words : list Z) : Cmd B unit := fun w =>
  match run_threaded_stream arch MAX_STREAM_WORDS words 0 (w_vm w) (w_m w) with
  | (Halted, vm, m) | (ZeroWord, vm, m) => Done (tt, set_m m (set_code (w_buf w) vm w))
  | _ => Crash
  end.

(** [compile_and_run]. *)
Definition run_native (words : list Z) (len : nat) (yields : bool) : Cmd B (Result (option Z) unit) := fun w =>
  let r := compile_and_run arch words len yields (w_buf w) regs (w_m w) in
  match n_ret r with
  | Some v => Done (v, set_m (n_mach r) (set_code (n_buf r) (w_vm w) w))
  | None => Crash
  end.

(** [program.run()]. *)
Definition run_program (p : StreamProgram) : Cmd B (option Z) := fun w =>
  let (r, vm) := stream_run arch p (w_buf w) regs (w_vm w) (w_m w) in
  match n_ret r with
  | Some v => Done (v, set_m (n_mach r) (set_code (n_buf r) vm w))
  | None => Crash
  end.

(** [execute_sram_buffer(0)]: call the code buffer. *)
Definition execute_sram_buffer : Cmd B Z := fun w =>
  match jump_to_sram arch (w_buf w) {| cpu_regs := regs; cpu_mach := w_m w |} with
  | (Returned, s) => Done (cpu_regs s (ACC arch), set_m (cpu_mach s) w)
  | (Fault, _) => Crash
  end.

(** [for _ in 0..n]. *)
Fixpoint times (n : nat) (c : Cmd B unit) : Cmd B unit :=
  match n with O => mret tt | S k => c ;; times k c end.

(** ** Well-formed worlds *)
Record wf_vm (vm : VM) : Prop := {
  wv_len : length (vm_stack vm) = VM_STACK_SIZE;
  wv_sp : (vm_sp vm <= VM_STACK_SIZE)%nat;
  wv_words : Forall u32 (vm_stack vm);
}.

Record wf_line (l : Line) : Prop := {
  wl_size : length (ln_buf l) = LINE_MAX;
  wl_used : (ln_len l <= LINE_MAX)%nat;
  wl_bytes : Forall u8 (ln_buf l);
}.

Record wf_code (buf : list Z) : Prop := {
  wk_len : length buf = EXEC_BUFFER_SIZE arch;
  wk_bytes : Forall u8 buf;
}.

Record wf_pool (offsets : list Z) : Prop := {
  wp_len : length offsets = 4%nat;
  wp_words : Forall u32 offsets;
}.

(** The types of the source, array sizes included: registry words in range,
    compiler tables within capacity with every stored function compiled code,
    line and code buffer arrays of bytes, operand stack and pool offsets arrays
    of words, lengths and stack pointer within bounds. *)
Record wf_world (w : World B) : Prop := {
  ww_m : wf_machine (w_m w);
  ww_comp : wf_comp (fun _ => True) (w_comp w);
  ww_line : wf_line (w_line w);
  ww_buf : wf_code (w_buf w);
  ww_vm : wf_vm (w_vm w);
  ww_pool : wf_pool (w_pool w);
}.

(** From well-formed worlds with [P], a command never crashes and, when it
    completes, keeps the world well formed and establishes [Q]. *)
Definition safe_in {A} (P : World B -> Prop) (c : Cmd B A) (Q : A -> World B -> Prop) : Prop :=
  forall w, wf_world w -> P w ->
    match c w with
    | Done (a, w') => wf_world w' /\ Q a w'
    | Hang => True
    | Crash => False
    end.

Definition safe {A} (c : Cmd B A) (Q : A -> Prop) : Prop := safe_in (fun _ => True) c (fun a _ => Q a).

Lemma safe_in_bind {A A'} (c : Cmd B A) (k : A -> Cmd B A') P (Q : A -> World B -> Prop) R :
  safe_in P c Q -> (forall a, safe_in (Q a) (k a) R) -> safe_in P (c ≫= k) R.
Proof.
  intros Hc Hk w Hw HP. unfold mbind, cmd_bind. pose proof (Hc w Hw HP) as H1.
  destruct (c w) as [[a w']| |]; [|done|done]. destruct H1 as [Hw' Ha]. by apply Hk.
Qed.

Lemma safe_in_pure {A} (phi : Prop) (c : Cmd B A) (P : World B -> Prop) Q :
  (phi -> safe_in P c Q) -> safe_in (fun w => phi /\ P w) c Q.
Proof. intros Hc w Hw [Hphi HP]. by apply Hc. Qed.

Lemma safe_in_weaken {A} (c : Cmd B A) (P : World B -> Prop) (Q : A -> Prop) : safe c Q -> safe_in P c (fun a _ => Q a).
Proof. intros Hc w Hw _. by apply Hc. Qed.

Lemma safe_ret {A} (a : A) (Q : A -> Prop) : Q a -> safe (mret a) Q.
Proof. by intros Ha w Hw. Qed.

Lemma safe_bind {A A'} (c : Cmd B A) (k : A -> Cmd B A') (Q : A -> Prop) R :
  safe c Q -> (forall a, Q a -> safe (k a) R) -> safe (c ≫= k) R.
Proof.
  intros Hc Hk. eapply safe_in_bind; [exact Hc|]. intros a w Hw Ha. by apply Hk.
Qed.

Lemma safe_mono {A} (c : Cmd B A) (Q R : A -> Prop) : safe c Q -> (forall a, Q a -> R a) -> safe c R.
Proof.
  intros Hc HQ w Hw HP. pose proof (Hc w Hw HP) as H1. destruct (c w) as [[a w']| |]; [|done|done].
  destruct H1. auto.
Qed.

Lemma safe_get : safe get_world (fun w => wf_world w).
Proof. by intros w Hw _. Qed.

Lemma safe_modify f : (forall w, wf_world w -> wf_world (f w)) -> safe (modify f) (fun _ => True).
Proof. intros Hf w Hw _. split; [by apply Hf|done]. Qed.

Lemma wf_set_m m w : wf_machine m -> wf_world w -> wf_world (set_m m w).
Proof. intros Hm []. by constructor. Qed.

Lemma wf_set_code buf vm w : wf_code buf -> wf_vm vm -> wf_world w -> wf_world (set_code buf vm w).
Proof. intros ? ? []. by constructor. Qed.

Lemma wf_set_comp c w : wf_comp (fun _ => True) c -> wf_world w -> wf_world (set_comp c w).
Proof. intros ? []. by constructor. Qed.

Lemma wf_set_line l w : wf_line l -> wf_world w -> wf_world (set_line l w).
Proof. intros ? []. by constructor. Qed.

Lemma wf_set_pool p w : wf_pool p -> wf_world w -> wf_world (set_pool p w).
Proof. intros ? []. by constructor. Qed.

(** A device program that keeps the registry well formed. *)
Definition keeps_wf {A} (d : Dev B A) (Q : A -> Prop) : Prop :=
  forall m, wf_machine m -> wf_machine (snd (d m)) /\ from_option Q True (fst (d m)).

Lemma keeps_ret {A} (a : A) (Q : A -> Prop) : Q a -> keeps_wf (mret a) Q.
Proof. by intros Ha m Hm. Qed.

Lemma keeps_bind {A A'} (d : Dev B A) (k : A -> Dev B A') (Q : A -> Prop) R :
  keeps_wf d Q -> (forall a, Q a -> keeps_wf (k a) R) -> keeps_wf (d ≫= k) R.
Proof.
  intros Hd Hk m Hm. unfold mbind, dev_bind. pose proof (Hd m Hm) as H1.
  destruct (d m) as [[a|] m']; [|done]. destruct H1. by apply Hk.
Qed.

Lemma keeps_peek a : keeps_wf (dpeek arch a) (fun _ => True).
Proof.
  intros m Hm. unfold dpeek. pose proof (peek_regs arch a m) as Hp. destruct (peek_u32 arch a m) as [v m'].
  split; [|done]. unfold wf_machine. cbn in *. by rewrite Hp.
Qed.

(** A store that misses the registry, or stores a word. *)
Lemma keeps_poke a v : reg_slot arch a = None -> keeps_wf (dpoke arch a v) (fun _ => True).
Proof. intros Hs m Hm. unfold dpoke. split; [|done]. unfold wf_machine. cbn [snd]. by rewrite poke_regs. Qed.

Lemma keeps_poll n a ready : keeps_wf (poll_until arch n a ready) (fun _ => True).
Proof.
  induction n as [|n IH]; [by intros m Hm|]. cbn [poll_until]. eapply keeps_bind; [apply keeps_peek|].
  intros v _. destruct (ready v); [by apply keeps_ret|exact IH].
Qed.

(** Device programs and machine steps change the machine only. *)
Lemma safe_in_device {A} (d : Dev B A) Q (P : list Z -> VM -> Compiler -> Prop) : keeps_wf d Q ->
  safe_in (fun w => P (w_buf w) (w_vm w) (w_comp w)) (device d) (fun a w => Q a /\ P (w_buf w) (w_vm w) (w_comp w)).
Proof.
  intros Hd w Hw HP. unfold device. pose proof (Hd _ (ww_m w Hw)) as H1.
  destruct (d (w_m w)) as [[a|] m]; [|done]. destruct H1. split; [by apply wf_set_m|done].
Qed.

Lemma safe_device {A} (d : Dev B A) Q : keeps_wf d Q -> safe (device d) Q.
Proof.
  intros Hd w Hw _. pose proof (safe_in_device d Q (fun _ _ _ => True) Hd w Hw Logic.I) as H1.
  destruct (device d w) as [[a w']| |]; [|done|done]. destruct H1 as (? & ? & ?). done.
Qed.

Lemma safe_machine {A} (f : Machine B -> A * Machine B) (Q : A -> Prop) :
  (forall m, wf_machine m -> wf_machine (snd (f m)) /\ Q (fst (f m))) -> safe (on_machine f) Q.
Proof.
  intros Hf w Hw _. unfold on_machine. pose proof (Hf _ (ww_m w Hw)) as H1. destruct (f (w_m w)) as [a m].
  destruct H1. split; [by apply wf_set_m|done].
Qed.

(** ** Console output *)
Lemma uart_no_slot :
  reg_slot arch ARM_SR = None /\ reg_slot arch ARM_DR = None /\ reg_slot arch RISCV_TXDATA = None /\
  reg_slot arch RISCV_RXDATA = None /\ reg_slot arch ARM_CR1 = None.
Proof. by destruct arch. Qed.

Lemma wait_txe_regs n m m' : wait_txe arch n m = Some m' -> m_regs m' = m_regs m.
Proof.
  revert m. induction n as [|n IH]; intros m E; [done|]. cbn [wait_txe] in E.
  pose proof (peek_regs arch ARM_SR m) as Hp. destruct (peek_u32 arch ARM_SR m) as [sr m1]. cbn in Hp.
  destruct (Z.land sr SR_TXE =? 0); [|by injection E as <-]. rewrite <- Hp. by apply IH.
Qed.

Lemma write_str_regs s m m' : write_str arch spin s m = Some m' -> m_regs m' = m_regs m.
Proof.
  destruct uart_no_slot as (_ & Hdr & Htx & _).
  revert m. induction s as [|b s IH]; intros m E; [by injection E as <-|]. cbn [write_str] in E.
  apply bind_Some in E as (m1 & E1 & E2). rewrite (IH m1 E2). unfold put_byte in E1. clear IH E2.
  destruct arch eqn:Ea; rewrite <- Ea in *.
  - apply bind_Some in E1 as (m0 & E0 & [= <-]). rewrite poke_regs by done. by eapply wait_txe_regs.
  - injection E1 as <-. by rewrite poke_regs.
Qed.

Lemma safe_say s : safe (say s) (fun _ => True).
Proof.
  intros w Hw _. unfold say. destruct (write_str arch spin s (w_m w)) as [m|] eqn:E; [|done].
  split; [|done]. apply wf_set_m; [|done]. unfold wf_machine. rewrite (write_str_regs _ _ _ E). apply (ww_m w Hw).
Qed.

Lemma safe_times n c : safe c (fun _ => True) -> safe (times n c) (fun _ => True).
Proof.
  intros Hc. induction n as [|n IH]; [by apply safe_ret|]. cbn [times]. eapply safe_bind; [exact Hc|]. by intros _ _.
Qed.
End Commands.

(** ** The state at power-up *)
Lemma zeros_bytes n : Forall u8 (replicate n 0).
Proof. apply Forall_replicate. unfold u8. lia. Qed.

Lemma zeros_words n : Forall u32 (replicate n 0).
Proof. apply Forall_replicate. unfold u32, M32. lia. Qed.

Lemma line_new_wf : wf_line line_new.
Proof. constructor; [apply length_replicate|cbn; lia|apply zeros_bytes]. Qed.

Lemma vm_new_wf : wf_vm vm_new.
Proof. constructor; [apply length_replicate|cbn; lia|apply zeros_words]. Qed.

Lemma code_zero_wf arch : wf_code arch (replicate (EXEC_BUFFER_SIZE arch) 0).
Proof. constructor; [apply length_replicate|apply zeros_bytes]. Qed.

Lemma pool_zero_wf : wf_pool (replicate 4 0).
Proof. constructor; [apply length_replicate|apply zeros_words]. Qed.

Create HintDb world discriminated.
#[export] Hint Resolve safe_say wf_set_m wf_set_comp wf_set_line wf_set_pool wf_set_code : world.
