(* ===== verification/Bench.v ===== *)
(** * Bench: the native-versus-threaded benchmark (src/kernel/bench.rs)

    One fixed stream, [lit 2, lit 3, add, halt], run a thousand times by the
    threaded engine and a thousand times as compiled code, with the cycle
    counter read around each batch. The report goes out line by line. *)
From S2P Require Import Prelude Registry AuditRing Memory Lexer SymTab Exec Parser ParserSafe.
From S2P Require Import Isa Emitter EmitterSem Native Uart Drivers Repl World.
Local Open Scope Z_scope.

Definition ITERATIONS : nat := 1000.

(** [prefix + number + suffix] in a buffer of [cap] bytes; [None] is the panic
    on a write past it. The digits of a 64-bit number fill at most 20 bytes. *)
Definition format_u64 (prefix : list Z) (v : Z) (suffix : list Z) (cap : nat) : option (list Z) :=
  let line := prefix ++ rev (dec_scratch 20 v) ++ suffix in
  if (length line <=? cap)%nat then Some line else None.

Section Bench.
Context `{PrimAddrs} {B : Type} `{Bus B} (arch : Arch) (spin : nat) (regs : Z -> Z).

(** DWT CYCCNT, enabled first, on ARM; the mcycle CSR on RISC-V. *)
Definition cycles : Cmd B Z :=
  match arch with
  | Arm =>
      device (demcr ← dpeek arch 0xE000EDFC; dpoke arch 0xE000EDFC (Z.lor demcr (bit32 24)) ;;
              ctrl ← dpeek arch 0xE0001000; dpoke arch 0xE0001000 (Z.lor ctrl 1) ;;
              dpeek arch 0xE0001004)
  | Riscv32 => device (fun m => let (v, b) := bus_mcycle (m_bus m) in (Some v, set_bus b m))
  end.

Definition build_stream : list Z * nat :=
  (copy_prefix (replicate MAX_STREAM_WORDS 0)
     [word_of lit_prim; 2; word_of lit_prim; 3; word_of add_prim; word_of halt_prim], 6%nat).

Definition report (prefix : list Z) (v : Z) (suffix : list Z) : Cmd B unit :=
  match format_u64 prefix v suffix 96 with Some line => say arch spin line | None => crash end.

Definition run_bench : Cmd B unit :=
  let (stream, len) := build_stream in
  run_stream arch stream ;;
  t0 ← cycles;
  times ITERATIONS (run_stream arch stream) ;;
  t1 ← cycles;
  let threaded := u32_sub t1 t0 / Z.of_nat ITERATIONS in
  say arch spin (bytes "bench: stream = lit 2, lit 3, add, halt" ++ CRLF) ;;
  say arch spin (bytes "bench: iterations = 1000" ++ CRLF) ;;
  t2 ← cycles;
  first ← run_native arch regs stream len true;
  t3 ← cycles;
  let first_cycles := u32_sub t3 t2 in
  match first with
  | Ok _ =>
      t4 ← cycles;
      times ITERATIONS (execute_sram_buffer arch regs ;; mret tt) ;;
      t5 ← cycles;
      let native := u32_sub t5 t4 / Z.of_nat ITERATIONS in
      report (bytes "bench: threaded = ") threaded (bytes " cyc/exec" ++ CRLF) ;;
      report (bytes "bench: first-call (compile+exec) = ") first_cycles (bytes " cyc" ++ CRLF) ;;
      report (bytes "bench: native    = ") native (bytes " cyc/exec" ++ CRLF) ;;
      if 0 <? native
      then report (bytes "bench: speedup  = x") (threaded * 100 / native) (bytes "/100" ++ CRLF)
      else mret tt
  | Err _ =>
      say arch spin (bytes "bench: native path unavailable on this target" ++ CRLF) ;;
      report (bytes "bench: threaded = ") threaded (bytes " cyc/exec" ++ CRLF)
  end.

(** ** The compiled stream *)
Definition bench_calls : list Call :=
  [MovImm (ACC arch) 2; MovImm (SCRATCH arch) 3; AddR (ACC arch) (ACC arch) (SCRATCH arch)].

Ltac word_tests :=
  rewrite ?word_eqb, ?word_eqb_0;
  repeat match goal with |- context [bool_decide (?p = ?q :> Prim)] =>
    let b := eval vm_compute in (bool_decide (p = q :> Prim)) in change (bool_decide (p = q :> Prim)) with b end;
  cbn [orb negb].

Lemma bench_compiles rest e :
  compile_loop arch 6 ([word_of lit_prim; 2; word_of lit_prim; 3; word_of add_prim; word_of halt_prim] ++ rest) 6 0 false e =
  emit_calls arch bench_calls (fun e => (Ok tt, e)) e.
Proof.
  pose proof (lit_round arch 5 [] 2 (word_of lit_prim :: 3 :: word_of add_prim :: word_of halt_prim :: rest) 6 false e
    ltac:(cbn; lia)) as R1. cbn [app length] in *. rewrite R1. cbn [aget nth]. word_tests.
  apply and_then_ext. intros e1.
  pose proof (lit_round arch 4 [word_of lit_prim; 2] 3 (word_of add_prim :: word_of halt_prim :: rest) 6 true e1
    ltac:(cbn; lia)) as R2. cbn [app length] in *. cbn [Nat.add] in *. rewrite R2. cbn [aget nth]. word_tests.
  apply and_then_ext. intros e2. cbn [compile_loop Nat.add Nat.ltb Nat.leb aget nth]. word_tests.
  apply and_then_ext. intros e3. cbn [compile_loop Nat.add Nat.ltb Nat.leb aget nth]. word_tests. done.
Qed.


Context `{!BusWidth B}.

Lemma bench_calls_run (s : Cpu B) : cpu_ok s ->
  exists s', calls_run arch 9 bench_calls s s' /\ cpu_regs s' (ACC arch) = 5 /\ cpu_mach s' = cpu_mach s.
Proof.
  intros Hs.
  destruct (mov_step arch (ACC arch) 2 s) as (s1 & C1 & Hs1 & V1 & _ & M1); [by left|unfold u32, M32; lia|done|].
  destruct (mov_step arch (SCRATCH arch) 3 s1) as (s2 & C2 & Hs2 & V2 & N2 & M2); [by right|unfold u32, M32; lia|done|].
  eexists. split.
  - eapply calls_run_weaken; [eapply calls_run_cons; [exact C1|eapply calls_run_cons; [exact C2|apply add_runs]]|].
    destruct arch; cbn; lia.
  - cbn [cpu_set cpu_regs cpu_mach]. rewrite set_reg_eq, M2, M1, V2, (N2 (ACC arch)), V1 by apply acc_ne_scratch.
    split; [by destruct arch|done].
Qed.

(** What the code buffer holds once the stream was compiled. *)
Definition holds_bench (buf : list Z) : Prop :=
  length buf = EXEC_BUFFER_SIZE arch /\
  exists vss v tail, units_of arch bench_calls vss /\ call_units arch Ret = Ok [v] /\
    buf = unit_list (unit_bytes arch) (concat vss ++ [v]) ++ tail.

Lemma bench_first buf m :
  length buf = EXEC_BUFFER_SIZE arch -> (forall r, u32 (regs r)) -> wf_machine m ->
  let r := compile_and_run arch (fst build_stream) (snd build_stream) true buf regs m in
  n_ret r = Some (Ok (Some 5)) /\ n_mach r = m /\ holds_bench (n_buf r).
Proof.
  intros Hb Hr Hm r.
  destruct (bench_calls_run {| cpu_regs := regs; cpu_mach := m |}) as (s' & Hc & H5 & Hm'); [by split|].
  destruct (native_finish arch bench_calls 9 (fst build_stream) (snd build_stream) true buf regs m s')
    as (E & Em & El & vss & v & tail & Hu & Hv & Et); [done| | |done|apply native_cap; lia|].
  - apply (compilable_instrs [ILit 2; ILit 3; IOp add_prim] []); [|done|cbn; lia].
    repeat constructor; done.
  - intros e. apply bench_compiles.
  - fold r in E, Em, El, Et. rewrite E, Em, H5, Hm'. split_and!; [done|done|]. split; [congruence|].
    by exists vss, v, tail.
Qed.

Lemma set_m_same (w : World B) : set_m (w_m w) w = w.
Proof. by destruct w. Qed.

Lemma bench_steady (w : World B) :
  wf_world arch w -> (forall r, u32 (regs r)) -> holds_bench (w_buf w) ->
  execute_sram_buffer arch regs w = Done (5, w).
Proof.
  intros Hw Hr (Hl & vss & v & tail & Hu & Hv & Eb). unfold execute_sram_buffer.
  destruct (bench_calls_run {| cpu_regs := regs; cpu_mach := w_m w |}) as (s' & Hc & H5 & Hm);
    [split; [done|apply (ww_m arch w Hw)]|].
  rewrite Eb, (emitted_runs arch bench_calls 9 vss v tail _ s' Hc Hu Hv), H5, Hm. cbn [cpu_mach].
  by rewrite set_m_same.
Qed.

Definition bench_instrs : list Instr := [ILit 2; ILit 3; IOp add_prim].

Lemma bench_dispatch vm stk m : vm_rep vm stk ->
  exists vm', vm_rep vm' (fst (exec_instrs arch bench_instrs (stk, m))) /\
    run_threaded_stream arch MAX_STREAM_WORDS (fst build_stream) 0 vm m = (Halted, vm', m).
Proof.
  intros Hv. destruct (dispatch_instrs arch bench_instrs [] (drop 6 (replicate MAX_STREAM_WORDS 0)) MAX_STREAM_WORDS vm stk m)
    as (vm' & Hr & E); [repeat constructor; done|done|unfold MAX_STREAM_WORDS; cbn; lia|].
  exists vm'. split; [done|]. etransitivity; [exact E|]. done.
Qed.

Lemma build_stream_u32 : Forall u32 (fst build_stream).
Proof.
  unfold build_stream, copy_prefix. cbn [fst]. apply Forall_app. split; [|by apply Forall_drop, zeros_words].
  repeat constructor; try apply word_of_u32; unfold u32, M32; lia.
Qed.

Lemma bench_stream_safe : safe arch (run_stream (B := B) arch (fst build_stream)) (fun _ => True).
Proof.
  intros w Hw _. destruct (ww_vm arch w Hw) as [Hl Hs Hu].
  destruct (bench_dispatch (w_vm w) _ (w_m w) (conj Hl (conj Hs eq_refl))) as (vm' & (Hl' & Hs' & _) & E).
  pose proof (run_threaded_u32 arch MAX_STREAM_WORDS (fst build_stream) 0 (w_vm w) (w_m w) build_stream_u32 Hu (ww_m arch w Hw)) as Hv.
  unfold run_stream. rewrite E in *. split; [|done]. apply wf_set_m; [apply (ww_m arch w Hw)|].
  apply wf_set_code; [apply (ww_buf arch w Hw)|by constructor|done].
Qed.

(** The two sides of the benchmark compute the same thing: the threaded
    engine leaves 5 on the operand stack, the first native call returns 5, and
    every later call of the code buffer returns 5 and changes nothing. *)
Theorem bench_computes_five (w : World B) :
  wf_world arch w -> (forall r, u32 (regs r)) ->
  (exists vm, run_threaded_stream arch MAX_STREAM_WORDS (fst build_stream) 0 (vm_reset (w_vm w)) (w_m w)
     = (Halted, vm, w_m w) /\ vm_rep vm [5]) /\
  exists w1, run_native arch regs (fst build_stream) (snd build_stream) true w = Done (Ok (Some 5), w1) /\
    w_m w1 = w_m w /\ execute_sram_buffer arch regs w1 = Done (5, w1).
Proof.
  intros Hw Hr. split.
  - destruct (ww_vm arch w Hw) as [Hl _ _].
    destruct (bench_dispatch (vm_reset (w_vm w)) [] (w_m w) (vm_reset_rep _ Hl)) as (vm' & Hv & E). by exists vm'.
  - destruct (bench_first (w_buf w) (w_m w)) as (E & Em & Hh); [apply (wk_len arch), (ww_buf arch w Hw)|done|apply (ww_m arch w Hw)|].
    unfold run_native. rewrite E, Em. eexists. split; [done|]. split; [done|]. apply bench_steady; [|done|done].
    apply wf_set_m; [apply (ww_m arch w Hw)|]. apply wf_set_code; [|apply (ww_vm arch w Hw)|done].
    constructor; [apply Hh|]. apply compile_and_run_u8, (ww_buf arch w Hw).
Qed.

(** ** The report *)
Lemma format_fits prefix v suffix : (length prefix + 20 + length suffix <= 96)%nat ->
  exists line, format_u64 prefix v suffix 96 = Some line.
Proof.
  intros Hl. unfold format_u64. rewrite !length_app, length_rev. pose proof (dec_scratch_length 20 v).
  destruct (Nat.leb_spec (length prefix + (length (dec_scratch 20 v) + length suffix)) 96); [by eexists|lia].
Qed.

Lemma report_safe prefix v suffix : (length prefix + 20 + length suffix <= 96)%nat ->
  safe arch (report prefix v suffix) (fun _ => True).
Proof. intros Hl. unfold report. destruct (format_fits prefix v suffix Hl) as [line ->]. apply safe_say. Qed.
Ltac no_slot := by destruct arch.
Ltac dev_step := eapply keeps_bind; [first [apply keeps_peek | apply keeps_poke; no_slot | apply keeps_poll]|intros ? _].

(** Cycle reads are device programs. *)
Lemma cycles_safe_in (P : list Z -> Prop) :
  safe_in arch (fun w => P (w_buf w)) cycles (fun _ w => P (w_buf w)).
Proof.
  assert (forall d : Dev B Z, keeps_wf d (fun _ => True) ->
    safe_in arch (fun w => P (w_buf w)) (device d) (fun _ w => P (w_buf w))) as Hd.
  { intros d Hd w Hw HP. pose proof (safe_in_device arch d _ (fun b _ _ => P b) Hd w Hw HP) as H1.
    destruct (device d w) as [[a w']| |]; [|done|done]. by destruct H1 as (? & _ & ?). }
  unfold cycles. destruct arch eqn:Ea; rewrite <- Ea in *; apply Hd.
  - do 4 dev_step. apply keeps_peek.
  - intros m Hm. by destruct (bus_mcycle (m_bus m)).
Qed.

Lemma cycles_safe : safe arch cycles (fun _ => True).
Proof. apply (cycles_safe_in (fun _ => True)). Qed.

(** The first native call leaves the compiled stream in the buffer, and the
    steady-state loop needs just that. *)
Lemma first_safe : (forall r, u32 (regs r)) ->
  safe_in arch (fun _ => True) (run_native arch regs (fst build_stream) (snd build_stream) true)
    (fun r w => r = Ok (Some 5) /\ holds_bench (w_buf w)).
Proof.
  intros Hr w Hw _.
  destruct (bench_first (w_buf w) (w_m w)) as (E & Em & Hh); [apply (wk_len arch), (ww_buf arch w Hw)|done|apply (ww_m arch w Hw)|].
  unfold run_native. rewrite E, Em. split; [|by split].
  apply wf_set_m; [apply (ww_m arch w Hw)|]. apply wf_set_code; [|apply (ww_vm arch w Hw)|done].
    constructor; [apply Hh|]. apply compile_and_run_u8, (ww_buf arch w Hw).
Qed.

Lemma steady_safe k : (forall r, u32 (regs r)) ->
  safe_in arch (fun w => holds_bench (w_buf w)) (times k (execute_sram_buffer arch regs ;; mret tt)) (fun _ _ => True).
Proof.
  intros Hr w Hw Hh. assert (times k (execute_sram_buffer arch regs ;; mret tt) w = Done (tt, w)) as ->; [|done].
  induction k as [|k IH]; [done|]. cbn [times].
  rewrite (bind_done _ _ w tt w); [exact IH|]. by rewrite (bind_done _ _ w 5 w) by (by apply bench_steady).
Qed.

Lemma run_bench_safe : (forall r, u32 (regs r)) -> safe arch run_bench (fun _ => True).
Proof.
  intros Hr. unfold run_bench. change build_stream with (fst build_stream, snd build_stream). cbv iota.
  eapply safe_bind; [apply bench_stream_safe|intros _ _].
  eapply safe_bind; [apply cycles_safe|intros t0 _].
  eapply safe_bind; [apply safe_times, bench_stream_safe|intros _ _].
  eapply safe_bind; [apply cycles_safe|intros t1 _]. cbv zeta.
  eapply safe_bind; [apply safe_say|intros _ _]. eapply safe_bind; [apply safe_say|intros _ _].
  eapply safe_bind; [apply cycles_safe|intros t2 _].
  eapply safe_in_bind; [by apply first_safe|intros res].
  eapply safe_in_bind; [apply (cycles_safe_in (fun b => res = Ok (Some 5) /\ holds_bench b))|intros t3].
  apply safe_in_pure. intros ->.
  eapply safe_in_bind; [apply (cycles_safe_in holds_bench)|intros t4].
  eapply safe_in_bind; [by apply steady_safe|intros ?].
  eapply safe_bind; [apply cycles_safe|intros t5 _].
  do 3 (eapply safe_bind; [apply report_safe; vm_compute; lia|intros _ _]).
  destruct (0 <? _); [apply report_safe; vm_compute; lia|by apply safe_ret].
Qed.
End Bench.

(** ** Witness *)
Definition demo_world : World (gmap Z Z) :=
  {| w_m := demo_machine; w_comp := compiler_new; w_line := line_new; w_buf := replicate 4096 0; w_vm := vm_new;
     w_pool := replicate 4 0 |}.

Lemma demo_world_wf : wf_world Arm demo_world.
Proof.
  constructor; cbn [w_m w_comp w_line w_buf w_vm w_pool demo_world].
  - apply registry_init_wf.
  - apply compiler_new_wf.
  - apply line_new_wf.
  - apply code_zero_wf.
  - apply vm_new_wf.
  - apply pool_zero_wf.
Qed.

Lemma bench_computes_five_witness :
  exists w1, run_native Arm zero_regs (fst build_stream) (snd build_stream) true demo_world = Done (Ok (Some 5), w1) /\
    execute_sram_buffer Arm zero_regs w1 = Done (5, w1).
Proof.
  destruct (bench_computes_five Arm zero_regs demo_world demo_world_wf zero_regs_u32) as [_ (w1 & E & _ & H5)].
  exists w1. split; [exact E|exact H5].
Defined.
