(* ===== verification/Session.v ===== *)
(** * Session: executing commands and the REPL loop (src/drivers/repl.rs, src/main.rs)

    [execute] has one arm per outcome of the parser, on both targets; [turn] is
    one round of the loop in [run], [boot] what happens before it. Addresses the
    linker assigns are the fields of [Link]. *)
From S2P Require Import Prelude Registry AuditRing Memory Lexer SymTab Exec Parser ParserSafe Isa Emitter EmitterSem.
From S2P Require Import Native Tokens Uart Pool Pstore Drivers Interrupt Multitask Repl World Bench.
Local Open Scope Z_scope.

Record Link := {
  lk_pool_base : Z;
  lk_pstore_base : Z; lk_pstore_top : Z;
  lk_tcbs : Z;
  lk_stack_1 : Z; lk_stack_2 : Z; lk_stack_3 : Z;
  lk_body_1 : Z; lk_body_2 : Z;
  lk_sidata : Z; lk_sdata : Z; lk_edata : Z; lk_sbss : Z; lk_ebss : Z;
  lk_vector_start : Z; lk_vector_end : Z;
}.

Definition BANNER : list Z := bytes "Holy Rust REPL v0.1" ++ CRLF.

Definition as_bytes (e : MemError) : list Z :=
  match e with
  | CapabilityViolation => bytes "E001: CAPABILITY_VIOLATION - Peripheral token not claimed"
  | PermissionDenied => bytes "E002: PERMISSION_DENIED - Unmapped MMIO access requires SuperUserCap"
  end.

Definition help_lines : list string := [
  "commands:";
  "peek ADDR;              read u32 from address (requires capability)";
  "poke ADDR VAL;          write u32 to address (requires capability)";
  "reg_set_bit ADDR BIT;   set register bit (requires capability)";
  "reg_clr_bit ADDR BIT;   clear register bit (requires capability)";
  "cap_claim NAME;         claim peripheral (GPIOA GPIOB UART0 SPI0 I2C0 TIMER0 DMA0 SUPERUSER)";
  "cap_drop NAME;          release peripheral";
  "let NAME = EXPR;        bind constant";
  "fn NAME() { ... }       define callable body";
  "EXPR;                   evaluate (+ - * / % left-to-right)";
  "sys_audit               dump SuperUser audit log";
  "bench                   native vs threaded JIT benchmark";
  "pwm PERIOD DUTY;        TIM2 PWM config (Timer0 cap)";
  "pwm_duty DUTY;          live duty update (Timer0 cap)";
  "spi_tx BYTE;            SPI1 transfer (Spi0 cap)";
  "banner                  reprint banner"]%string.

Definition print_help : list Z := concat (map (fun l => bytes l ++ CRLF) help_lines).

Definition hex_line (v : Z) : list Z := bytes "0x" ++ hex_bytes v ++ CRLF.

Section Execute.
Context `{PrimAddrs} {B : Type} `{Bus B} (arch : Arch) (L : Link) (spin : nat) (regs : Z -> Z).

Local Abbreviation say := (say (B := B) arch spin).
Local Abbreviation line := (say_line (B := B) arch spin).
Local Abbreviation pload := (Pstore.load arch (lk_pstore_base L) (lk_pstore_top L)).
Local Abbreviation psave := (Pstore.save arch (lk_pstore_base L) (lk_pstore_top L)).

(** [do_claim] and [do_drop] on the machine's registry. *)
Definition on_registry (f : list Z -> list Z * list Z) : Cmd B unit :=
  out ← on_machine (fun m => let (r, out) := f (m_regs m) in (out, set_regs r m));
  say out.

(** The match on the result of a guarded access. *)
Definition access_result {A} (r : Result A MemError) (ok : A -> Cmd B unit) : Cmd B unit :=
  match r with Ok a => ok a | Err e => say (as_bytes e) ;; say [10] end.

(** [reg_set_bit] and [reg_clr_bit]: read the register, then a guarded write. *)
Definition modify_bit (addr : Z) (f : Z -> Z) : Cmd B unit :=
  r ← on_machine (fun m => let (v, m1) := peek_u32 arch addr m in enforced_poke_u32 arch addr (f v) m1);
  access_result r (fun _ => line (bytes "OK")).

(** *** The program store *)
Fixpoint free_slot (slots : list nat) : Cmd B (option nat) :=
  match slots with
  | [] => mret None
  | i :: rest =>
      r ← on_machine (fun m => let '(r, _, _, m') := pload i (replicate 16 0) [] m in (r, m'));
      match r with Err NotFound => mret (Some i) | _ => free_slot rest end
  end.

Definition do_store (name : NameBuf) : Cmd B unit :=
  w ← get_world;
  match export_fn (w_comp w) (as_slice name) (replicate MAX_STREAM_WORDS 0) with
  | Some (count, words) =>
      slot ← free_slot (seq 0 MAX_PROGRAMS);
      match slot with
      | Some i => on_machine (psave i (as_slice name) (take count words)) ;; line (bytes "STORED")
      | None => line (bytes "STORE FULL")
      end
  | None => line (bytes "ERR UNKNOWN FN")
  end.

(** [probe[..name.len()] == *name]; the slice panics past the probe. *)
Definition name_matches (probe name : list Z) : option bool :=
  if (length probe <? length name)%nat then None else Some (bool_decide (take (length name) probe = name)).

(** The slots in turn, with the word buffer carried along; [true] once a slot
    has settled the command. *)
Fixpoint load_from (slots : list nat) (name : NameBuf) (words : list Z) : Cmd B bool :=
  match slots with
  | [] => mret false
  | i :: rest =>
      res ← on_machine (fun m => let '(r, probe, ws, m') := pload i (replicate 16 0) words m in ((r, probe, ws), m'));
      let '(r, probe, ws) := res in
      match r with
      | Ok count =>
          match name_matches probe (as_slice name) with
          | None => crash
          | Some true =>
              w ← get_world;
              let (res, c) := import_fn (w_comp w) (as_slice name) (take count ws) in
              modify (set_comp c) ;;
              line (match res with Ok _ => bytes "LOADED" | Err _ => bytes "ERR IMPORT FAILED" end) ;;
              mret true
          | Some false => load_from rest name ws
          end
      | Err NoStore => line (bytes "NO STORE ON THIS TARGET") ;; mret true
      | Err _ => load_from rest name ws
      end
  end.

Definition do_load (name : NameBuf) : Cmd B unit :=
  found ← load_from (seq 0 MAX_PROGRAMS) name (replicate 64 0);
  if negb found then line (bytes "NOT FOUND") else mret tt.

Fixpoint say_names (names : list (list Z * nat)) : Cmd B unit :=
  match names with
  | [] => mret tt
  | (buf, len) :: rest => say (take len buf) ;; say CRLF ;; say_names rest
  end.

Definition do_store_list : Cmd B unit :=
  w ← get_world;
  match fn_names_iter (w_comp w) with
  | [] => line (bytes "(no fns)")
  | names => say_names names
  end.

(** *** Tasks *)
Fixpoint spawn_in (slots : list nat) (body : list Z) : Cmd B unit :=
  match slots with
  | [] => mret tt
  | slot :: rest =>
      state ← on_machine (peek_u32 arch (tcb_addr (lk_tcbs L) (slot + 1) + 8));
      if state =? 0 then
        on_machine (emit_fn_into_slot slot body) ;;
        ok ← on_machine (spawn_jit_task (lk_tcbs L) (lk_stack_1 L) (lk_stack_2 L) (lk_stack_3 L)
                           (lk_body_1 L) (lk_body_2 L) slot);
        (if (ok : bool) then device (timer_configure arch (timer_systick_reload 168000000 1)) else mret tt) ;;
        say (bytes "TASK SPAWNED slot=") ;; say (dec_bytes (Z.of_nat slot)) ;; line []
      else spawn_in rest body
  end.

Definition do_spawn (name : NameBuf) : Cmd B unit :=
  w ← get_world;
  match export_fn (w_comp w) (as_slice name) (replicate MAX_STREAM_WORDS 0) with
  | Some (count, words) => spawn_in [0%nat; 1%nat] (take count words)
  | None => line (bytes "ERR UNKNOWN FN")
  end.

(** *** Pools *)
Definition on_pool {A} (f : list Z -> A * list Z) : Cmd B A := fun w =>
  let (a, p) := f (w_pool w) in Done (a, set_pool p w).

Definition do_pool_alloc (size : Z) : Cmd B unit :=
  r ← on_pool (Pool.alloc (lk_pool_base L) 0 size);
  match r with
  | Ok addr => say (bytes "POOL @") ;; say (bytes "0x" ++ hex_bytes addr) ;; line []
  | Err _ => line (bytes "POOL FULL")
  end.

Fixpoint say_stats (i : nat) (rows : list (Z * Z)) : Cmd B unit :=
  match rows with
  | [] => mret tt
  | (used, rem) :: rest =>
      say (bytes "pool[") ;; say (dec_bytes (Z.of_nat i)) ;; say (bytes "] used=") ;; say (dec_bytes used) ;;
      say (bytes " free=") ;; say (dec_bytes rem) ;; line [] ;; say_stats (S i) rest
  end.

Definition execute (o : Outcome) : Cmd B unit :=
  match o with
  | OEmpty => mret tt
  | OHelp => say print_help
  | OBanner => say BANNER
  | OBound name value => say (as_slice name) ;; say (bytes " = ") ;; say (write_value value)
  | OFnDefined name => say (bytes "FN ") ;; say (as_slice name) ;; line (bytes " DEFINED")
  | ORun program =>
      r ← run_program arch regs program;
      match r with
      | Some value => say (bytes "= ") ;; say (write_value value)
      | None => line (bytes "OK")
      end
  | OClaim name => on_registry (do_claim name)
  | ODrop name => on_registry (do_drop name)
  | OEnforcedPoke addr val =>
      r ← on_machine (enforced_poke_u32 arch addr val);
      access_result r (fun _ => line (bytes "OK"))
  | OEnforcedPeek addr =>
      r ← on_machine (enforced_peek_u32 arch addr);
      access_result r (fun value => say (bytes "= ") ;; say (write_value value))
  | OSetBit addr bit => modify_bit addr (fun v => Z.lor v (shl_bit bit))
  | OClrBit addr bit => modify_bit addr (fun v => Z.land v (u32_not (shl_bit bit)))
  | OSysAudit => w ← get_world; say (handle_audit (m_audit (w_m w)))
  | OBench => run_bench arch spin regs
  | OPwm period duty =>
      r ← device (pwm_configure arch period duty);
      say (bytes "PWM ARR=") ;; say (dec_bytes (fst r)) ;; say (bytes " CCR1=") ;; say (hex_line (snd r))
  | OPwmDuty duty => device (pwm_set_duty arch duty) ;; line (bytes "OK")
  | OSpiTx byte =>
      rx ← device (spi_transfer_byte arch spin byte);
      say (bytes "SPI RX=") ;; say (hex_line rx)
  | OFlashTest =>
      ok ← device (flash_self_test arch spin);
      say (bytes "FLASH SELF-TEST: ") ;;
      line (if (ok : bool) then bytes "HONORS PROGRAMMING" else bytes "STUB (writes ignored)")
  | OStore name =>
      match arch with Arm => do_store name | Riscv32 => line (bytes "NO STORE ON THIS TARGET") end
  | OLoad name =>
      match arch with Arm => do_load name | Riscv32 => line (bytes "NO STORE ON THIS TARGET") end
  | OStoreList =>
      match arch with Arm => do_store_list | Riscv32 => line (bytes "NO STORE ON THIS TARGET") end
  | OSpawn name => match arch with Arm => do_spawn name | Riscv32 => line (bytes "SPAWN: arm only") end
  | OPoolAlloc size =>
      match arch with Arm => do_pool_alloc size | Riscv32 => line (bytes "NO POOL ON THIS TARGET") end
  | OPoolFree =>
      match arch with
      | Arm => on_pool (Pool.reset 0) ;; line (bytes "POOL RESET")
      | Riscv32 => line (bytes "NO POOL ON THIS TARGET")
      end
  | OPoolStats =>
      match arch with
      | Arm => w ← get_world; say_stats 0 (Pool.stats (w_pool w))
      | Riscv32 => line (bytes "NO POOL ON THIS TARGET")
      end
  end.

(** ** The loop of [run] *)
Record Loop := { lp_state : State; lp_pending : option (Res Outcome) }.

(** One round of the match. The compiler always answers ([NoFuel] does not
    occur), so that case stands with the crashes. *)
Definition turn (l : Loop) : Cmd B Loop :=
  match lp_state l with
  | Idle | Reading =>
      b ← on_machine (poll_get_byte arch);
      match b with
      | Some byte =>
          w ← get_world;
          let '(st, ln, echo) := feed byte (w_line w) in
          modify (set_line ln) ;;
          say echo ;;
          mret {| lp_state := st; lp_pending := lp_pending l |}
      | None => mret {| lp_state := Reading; lp_pending := lp_pending l |}
      end
  | Evaluating =>
      w ← get_world;
      let (text, ln) := take_line (w_line w) in
      let '(r, (c, m)) := compile arch (w_comp w) (w_m w) text in
      modify (fun w => set_line ln (set_comp c (set_m m w))) ;;
      mret {| lp_state := Printing; lp_pending := r |}
  | Printing =>
      match lp_pending l with
      | Some (ROk o) => execute o
      | Some (RErr e) => say (bytes "ERR ") ;; say (error_text e)
      | Some NoFuel => crash
      | None => mret tt
      end ;;
      say prompt ;;
      mret {| lp_state := Idle; lp_pending := None |}
  end.

Fixpoint turns (n : nat) (l : Loop) : Cmd B Loop :=
  match n with O => mret l | S k => l' ← turn l; turns k l' end.

(** [while uart::poll_get_byte().is_some() {}]. *)
Fixpoint drain (n : nat) : Cmd B unit :=
  match n with
  | O => fun _ => Hang
  | S k => b ← on_machine (poll_get_byte arch); match b with Some _ => drain k | None => mret tt end
  end.

(** Every core exception of the flash vectors: announce it and stop. *)
Definition halt : Cmd B unit := fun _ => Hang.
Definition fault_hang : Cmd B unit :=
  say (CRLF ++ bytes "**FAULT: core exception, halted**" ++ CRLF) ;; halt.

(** The handlers the SRAM vector table starts with, before boot fills it. *)
Definition default_reset : Cmd B unit := halt.
Definition default_handler : Cmd B unit := halt.

(** The panic handler; [message] is [info.message().as_str()], which is there
    for messages without arguments. *)
Definition panic (message : option (list Z)) : Cmd B unit :=
  say ([10] ++ bytes "PANIC: ") ;;
  match message with Some msg => say msg | None => say (bytes "(no message)") end ;;
  say [10] ;;
  halt.

(** [boot] and the start of [run]. *)
Definition boot : Cmd B Loop :=
  on_machine (fun m => (tt, uart_init arch m)) ;;
  say BANNER ;;
  on_machine (fun m => (tt, core_m (boot_relocate_vectors arch (lk_vector_start L) (lk_vector_end L) 0
                                      {| core_m := m; core_mtvec := 0 |}))) ;;
  drain spin ;;
  say prompt ;;
  mret {| lp_state := Idle; lp_pending := None |}.

(** [Reset] on ARM, [rust_boot_riscv] on RISC-V. *)
Definition Reset : Cmd B Loop :=
  on_machine (fun m => (tt, init_data_bss arch (lk_sidata L) (lk_sdata L) (lk_edata L) (lk_sbss L) (lk_ebss L) m)) ;;
  boot.

End Execute.

(** ** The RISC-V reset assembly

    [la rd, symbol] loads the address of a symbol; [tail] jumps through t1 and
    leaves there the [scratch] word its expansion needs. *)
Inductive ResetInsn := La (rd : Z) (sym : Z) | Tail (target : Z).

Definition GP : Z := 3.
Definition SP : Z := 2.
Definition T1 : Z := 6.

Definition reset_riscv (global_pointer stack_top rust_boot_riscv : Z) : list ResetInsn :=
  [La GP global_pointer; La SP stack_top; Tail rust_boot_riscv].

(** The registers and the address control leaves for. *)
Fixpoint run_reset (scratch : Z) (code : list ResetInsn) (x : Z -> Z) : option (Z * (Z -> Z)) :=
  match code with
  | [] => None
  | La rd sym :: rest => run_reset scratch rest (fun r => if r =? rd then sym else x r)
  | Tail target :: _ => Some (target, fun r => if r =? T1 then scratch else x r)
  end.

(** Whatever the registers hold at power-up, [rust_boot_riscv] is entered with
    the global and the stack pointer of the linker script. *)
Lemma reset_riscv_enters scratch gp sp target x :
  exists x', run_reset scratch (reset_riscv gp sp target) x = Some (target, x') /\ x' GP = gp /\ x' SP = sp /\
    forall r, r <> GP -> r <> SP -> r <> T1 -> x' r = x r.
Proof.
  eexists. split; [reflexivity|]. split_and!; [done..|]. intros r Hg Hs Ht.
  rewrite (proj2 (Z.eqb_neq _ _) Ht), (proj2 (Z.eqb_neq _ _) Hs), (proj2 (Z.eqb_neq _ _) Hg). done.
Qed.
