(* ===== verification/SessionSafe.v ===== *)
(** * SessionSafe: no command crashes the kernel

    Every command the parser can produce is executed without leaving the
    program's defined behaviour and keeps the world well formed, whatever the
    devices answer; so does every round of the loop, boot included, as long as
    no exception is taken. Not covered is a [load] from a store that holds
    something else than compiled programs. Concrete sessions run on a memory
    with a console ([Tty]); those at the end of the file show what the kernel
    lets a session do. *)
From S2P Require Import Prelude Registry AuditRing Memory Lexer SymTab Exec Parser ParserSafe Isa Emitter EmitterSem.
From S2P Require Import Native Tokens Uart Pool Pstore Drivers Interrupt Multitask Repl World Bench Session.
Local Open Scope Z_scope.

Lemma arch_match {X} (P : X -> Prop) (a : Arch) x y :
  (a = Arm -> P x) -> P y -> P (match a with Arm => x | Riscv32 => y end).
Proof. destruct a; auto. Qed.

Section Safe.
Context `{PrimAddrs} {B : Type} `{Bus B} `{!BusWidth B} (arch : Arch) (L : Link) (spin : nat) (regs : Z -> Z).
Hypothesis Hregs : forall r, u32 (regs r).

(** What the linker script guarantees of its addresses. *)
Record wf_link : Prop := {
  wl_store : forall a, lk_pstore_base L <= a < lk_pstore_base L + 4096 -> reg_slot arch a = None;
  wl_store_range : 0 <= lk_pstore_base L /\ lk_pstore_base L + 4096 <= M32;
  wl_body_1 : u32 (lk_body_1 L);
  wl_body_2 : u32 (lk_body_2 L);
}.
Hypothesis HL : wf_link.

Local Abbreviation sf := (safe (B := B) arch).
Local Abbreviation any := (fun _ => True).

(** Sequencing, and console output. *)
Ltac say_step := eapply safe_bind; [apply safe_say|intros _ _].
Ltac says := repeat say_step; first [apply safe_say | by apply safe_ret].

Lemma safe_line s : sf (say_line arch spin s) any.
Proof. apply safe_say. Qed.

Lemma safe_access {A} (r : Result A MemError) (Q : A -> Prop) (ok : A -> Cmd B unit) :
  (forall a, r = Ok a -> Q a) -> (forall a, Q a -> sf (ok a) any) -> sf (access_result arch spin r ok) any.
Proof. intros Hr Hok. unfold access_result. destruct r as [a|e]; [apply Hok; auto|says]. Qed.

(** ** Guarded accesses *)
Lemma enforced_poke_wf a v (m : Machine B) : wf_machine m -> u32 v -> wf_machine (snd (enforced_poke_u32 arch a v m)).
Proof.
  intros Hm Hv. unfold enforced_poke_u32.
  assert (wf_machine (audit_event arch a v m)) by (unfold wf_machine; by rewrite audit_event_regs).
  repeat case_match; cbn [snd]; auto using poke_wf.
Qed.

Lemma enforced_peek_wf a (m : Machine B) : wf_machine m ->
  wf_machine (snd (enforced_peek_u32 arch a m)) /\ forall v, fst (enforced_peek_u32 arch a m) = Ok v -> u32 v.
Proof.
  intros Hm. pose proof (peek_wf arch a m Hm) as Hw. pose proof (peek_range arch a m Hm) as Hr.
  unfold enforced_peek_u32. destruct (peek_u32 arch a m) as [v m1]. cbn [fst snd] in *.
  repeat case_match; cbn [fst snd]; (split; [done|]); intros ? [= <-]; done.
Qed.

Lemma shl_bit_u32 b : u32 (shl_bit b).
Proof. apply bit32_range. apply Z.mod_pos_bound. lia. Qed.

Lemma modify_bit_safe addr f : (forall v, u32 v -> u32 (f v)) -> sf (modify_bit arch spin addr f) any.
Proof.
  intros Hf. unfold modify_bit. eapply safe_bind; [apply (safe_machine arch _ any)|].
  - intros m Hm. pose proof (peek_wf arch addr m Hm). pose proof (peek_range arch addr m Hm).
    destruct (peek_u32 arch addr m) as [v m1]. split; [|done]. by apply enforced_poke_wf; [|apply Hf].
  - intros r _. apply (safe_access r any); [done|]. intros _ _. apply safe_line.
Qed.

Lemma registry_safe f : (forall r, wf_registry r -> wf_registry (fst (f r))) -> sf (on_registry arch spin f) any.
Proof.
  intros Hf. unfold on_registry. eapply safe_bind; [apply (safe_machine arch _ any)|intros out _; apply safe_say].
  intros m Hm. pose proof (Hf (m_regs m) Hm) as H1. destruct (f (m_regs m)) as [r out]. by split.
Qed.

Lemma claim_wf n r : wf_registry r -> wf_registry (fst (do_claim n r)).
Proof.
  intros Hr. unfold do_claim. destruct (resolve_name _) as [id|]; [|done].
  pose proof (acquire_wf r id Hr) as Ha. destruct (acquire r id) as [won r']. by destruct won.
Qed.

Lemma drop_wf n r : wf_registry r -> wf_registry (fst (do_drop n r)).
Proof.
  intros Hr. unfold do_drop. destruct (resolve_name _) as [id|]; [|done].
  destruct (available r id); [done|]. by apply release_wf.
Qed.

(** ** Programs *)
Lemma program_safe p : prog_ok (fun _ => True) p -> sf (run_program arch regs p) (from_option u32 True).
Proof.
  intros Hp w Hw _. unfold run_program.
  pose proof (prog_ok_native arch _ p (w_buf w) regs (w_vm w) (w_m w) Hp (wk_len _ _ (ww_buf arch w Hw)) Hregs (ww_m arch w Hw)) as Hr.
  pose proof (stream_run_u8 arch p (w_buf w) regs (w_vm w) (w_m w) (wk_bytes _ _ (ww_buf arch w Hw))) as H8.
  destruct (stream_run arch p (w_buf w) regs (w_vm w) (w_m w)) as [r vm].
  destruct Hr as ((v & -> & Hv) & -> & Hm & Hb). split; [|done].
  apply wf_set_m; [done|]. apply wf_set_code; [by constructor| |done].
  destruct (ww_vm arch w Hw). constructor; [done|cbn; unfold VM_STACK_SIZE; lia|done].
Qed.

(** ** Drivers *)
Ltac no_slot := first [reflexivity | by destruct arch].
Ltac dev_step :=
  eapply keeps_bind; [first [apply keeps_peek | apply keeps_poke; no_slot | apply keeps_poll]|intros ? _].
Ltac dev_end := first [by apply keeps_ret | apply keeps_peek | apply keeps_poke; no_slot].

Lemma clock_keeps a mask : reg_slot arch a = None ->
  keeps_wf (B := B) (match arch with Arm => v ← dpeek arch a; dpoke arch a (Z.lor v mask) | Riscv32 => mret tt end) any.
Proof.
  intros Hs. destruct arch; [|by apply keeps_ret]. eapply keeps_bind; [apply keeps_peek|intros v _]. by apply keeps_poke.
Qed.

Lemma pwm_keeps p d : keeps_wf (B := B) (pwm_configure arch p d) any.
Proof.
  unfold pwm_configure. eapply keeps_bind; [apply clock_keeps; no_slot|intros _ _].
  do 9 dev_step. dev_end.
Qed.

Lemma spi_keeps b : keeps_wf (B := B) (spi_transfer_byte arch spin b) any.
Proof. unfold spi_transfer_byte. destruct arch; repeat dev_step; dev_end. Qed.

Lemma unlock_keeps : keeps_wf (B := B) (flash_unlock arch) any.
Proof. unfold flash_unlock. dev_step. destruct (negb _); [dev_step|]; dev_end. Qed.

Lemma erase_keeps s : keeps_wf (B := B) (erase_store_sector arch spin s) any.
Proof.
  unfold erase_store_sector. eapply keeps_bind; [apply unlock_keeps|intros _ _]. unfold wait_not_busy.
  do 7 dev_step. cbv zeta. dev_step. dev_end.
Qed.

Lemma program_word_keeps off v : reg_slot arch (u32_add STORE_BASE off) = None ->
  keeps_wf (B := B) (program_word arch spin off v) any.
Proof.
  intros Hs. unfold program_word. eapply keeps_bind; [apply unlock_keeps|intros _ _]. unfold wait_not_busy.
  do 3 dev_step. eapply keeps_bind; [by apply keeps_poke|intros _ _]. do 2 dev_step. dev_end.
Qed.

Lemma self_test_keeps : keeps_wf (B := B) (flash_self_test arch spin) any.
Proof.
  unfold flash_self_test. eapply keeps_bind; [apply unlock_keeps|intros _ _].
  eapply keeps_bind; [apply erase_keeps|intros _ _].
  eapply keeps_bind; [apply program_word_keeps; no_slot|intros _ _]. dev_step.
  eapply keeps_bind; [unfold flash_lock; dev_step; dev_end|intros _ _]. dev_end.
Qed.

Lemma timer_keeps t : keeps_wf (B := B) (timer_configure arch t) any.
Proof. unfold timer_configure. destruct arch; [do 2 dev_step|]; dev_end. Qed.

(** ** Functions out of the compiler *)
Lemma code_u32 A ss : Forall (stmt_ok A) ss -> Forall u32 (code ss).
Proof.
  induction 1 as [|st ss Hst _ IH]; [constructor|]. rewrite code_cons. apply Forall_app. split; [|done].
  destruct st as [a v|a]; destruct Hst as (_ & Ha & Hv); unfold encode; cbn;
    repeat constructor; auto using word_of_u32; first [apply word_of_u32 | apply Ha | apply Hv].
Qed.

Lemma export_words c name count words : wf_comp (fun _ => True) c ->
  export_fn c name (replicate MAX_STREAM_WORDS 0) = Some (count, words) -> Forall u32 (take count words).
Proof.
  intros Hc E. destruct (export_code _ c name _ count words Hc E) as (ss & -> & Hss). by eapply code_u32.
Qed.

(** ** The store *)
Lemma load_items_wf cast st a n out (m : Machine B) : wf_machine m -> wf_machine (snd (load_items arch cast st a n out m)).
Proof.
  revert a out m. induction n as [|n IH]; intros a [|o out] m Hm; try done. cbn [load_items].
  pose proof (peek_wf arch a m Hm) as Hp. destruct (peek_u32 arch a m) as [v m1]. cbn [snd] in Hp.
  pose proof (IH (a + st) out m1 Hp) as H1. destruct (load_items arch cast st (a + st) n out m1). done.
Qed.

Lemma load_wf i po wo (m : Machine B) : wf_machine m ->
  wf_machine (snd (Pstore.load arch (lk_pstore_base L) (lk_pstore_top L) i po wo m)).
Proof.
  intros Hm. unfold Pstore.load. destruct (Pstore.slot_addr _ _ i) as [addr|]; [|done].
  pose proof (peek_wf arch addr m Hm) as H1. destruct (peek_u32 arch addr m) as [n m1]. cbn [snd] in H1.
  destruct (_ || _); [done|].
  pose proof (load_items_wf (fun v => v mod 256) 1 (addr + 4) (Z.to_nat n) po m1 H1) as H2.
  destruct (load_items _ _ _ _ _ _ _) as [names m2]. cbn [snd] in H2.
  pose proof (peek_wf arch (addr + 20) m2 H2) as H3. destruct (peek_u32 arch (addr + 20) m2) as [cnt m3]. cbn [snd] in H3.
  destruct (_ || _); [done|].
  pose proof (load_items_wf (fun v => v) 4 (addr + 24) (Z.to_nat cnt) wo m3 H3) as H4.
  by destruct (load_items _ _ _ _ _ _ _) as [ws m4].
Qed.

Lemma save_list_wf step a ws (m : Machine B)
    (f : Z -> list Z -> Machine B -> Machine B) :
  (forall a m, f a [] m = m) -> (forall a w ws m, f a (w :: ws) m = f (a + step) ws (poke_u32 arch a w m)) ->
  0 <= step -> (forall k, 0 <= k < step * Z.of_nat (length ws) + 1 -> reg_slot arch (a + k) = None) ->
  wf_machine m -> wf_machine (f a ws m).
Proof.
  intros Hnil Hcons Hst. revert a m. induction ws as [|w ws IH]; intros a m Hs Hm; [by rewrite Hnil|].
  rewrite Hcons. apply IH.
  - intros k Hk. rewrite <- Z.add_assoc. apply Hs. cbn [length]. lia.
  - unfold wf_machine. rewrite poke_regs; [done|]. rewrite <- (Z.add_0_r a). apply Hs. nia.
Qed.

Lemma save_wf i name words (m : Machine B) : (i < MAX_PROGRAMS)%nat -> wf_machine m ->
  wf_machine (snd (Pstore.save arch (lk_pstore_base L) (lk_pstore_top L) i name words m)).
Proof.
  intros Hi Hm. unfold Pstore.save. destruct (Pstore.slot_addr _ _ i) as [addr|] eqn:Ea; [|done].
  destruct (_ || _) eqn:El; [done|]. apply orb_false_iff in El as [Hn Hw].
  apply Nat.ltb_ge in Hn, Hw. unfold STORE_NAME_MAX, SLOT_WORDS, MAX_PROGRAMS in *. cbn [snd].
  destruct (wl_store_range HL) as [Hlo Hhi].
  assert (lk_pstore_base L <= addr <= lk_pstore_base L + 1939) as Hr.
  { unfold Pstore.slot_addr, SLOT_STRIDE in Ea. destruct (_ || _ || _); [done|]. injection Ea as <-.
    unfold u32_add, u32_mul. rewrite (wrap32_small (_ * _)) by (unfold u32, M32 in *; lia).
    rewrite wrap32_small by (unfold u32, M32 in *; lia). lia. }
  assert (forall k, 0 <= k < 300 -> reg_slot arch (addr + k) = None) as Hs by (intros k Hk; apply (wl_store HL); lia).
  assert (forall k v m, 0 <= k < 300 -> wf_machine m -> wf_machine (poke_u32 arch (addr + k) v m)) as Hp
    by (intros k v m' Hk Hm'; unfold wf_machine; by rewrite poke_regs by auto).
  apply (save_list_wf 4 (addr + 24) words _ (save_words arch)); try done.
  { intros k Hk. rewrite <- Z.add_assoc. apply Hs. lia. }
  apply Hp; [lia|]. apply (save_list_wf 1 (addr + 4) name _ (save_bytes arch)); try done.
  { intros k Hk. rewrite <- Z.add_assoc. apply Hs. lia. }
  rewrite <- (Z.add_0_r addr) at 1. apply Hp; [lia|done].
Qed.

Lemma free_slot_safe slots : Forall (fun i => (i < MAX_PROGRAMS)%nat) slots ->
  sf (free_slot arch L slots) (fun r => from_option (fun i => (i < MAX_PROGRAMS)%nat) True r).
Proof.
  induction 1 as [|i slots Hi _ IH]; [by apply safe_ret|]. cbn [free_slot].
  eapply safe_bind; [apply (safe_machine arch _ any)|].
  - intros m Hm. pose proof (load_wf i (replicate 16 0) [] m Hm) as H1.
    by destruct (Pstore.load _ _ _ _ _ _ _) as [[[r ?] ?] m'].
  - intros r _. destruct r as [n|[]]; try exact IH. by apply safe_ret.
Qed.

Lemma store_safe n : sf (do_store arch L spin n) any.
Proof.
  unfold do_store. eapply safe_bind; [apply safe_get|intros w Hw].
  destruct (export_fn _ _ _) as [[count words]|]; [|apply safe_line].
  eapply safe_bind; [apply free_slot_safe; by apply (bool_decide_unpack _)|].
  intros [i|] Hi; [|apply safe_line]. eapply safe_bind; [apply (safe_machine arch _ any)|intros _ _; apply safe_line].
  intros m Hm. split; [by apply save_wf|done].
Qed.

Lemma store_list_safe : sf (do_store_list arch spin) any.
Proof.
  unfold do_store_list. eapply safe_bind; [apply safe_get|intros w Hw].
  assert (forall names, sf (say_names arch spin names) any) as Hn.
  { induction names as [|[buf len] names IH]; [by apply safe_ret|]. cbn [say_names]. do 2 say_step. exact IH. }
  destruct (fn_names_iter _); [apply safe_line|apply Hn].
Qed.

(** ** Tasks and pools *)
Lemma emit_wf i ws (m : Machine B) : Forall u32 ws -> wf_machine m -> wf_machine (snd (emit_fn_into_slot i ws m)).
Proof.
  intros Hu Hm. unfold emit_fn_into_slot. destruct (_ || _); [done|]. cbn [snd].
  generalize (aget 0 slot_bases i) as a. intros a. revert a m Hm.
  induction Hu as [|w ws Hw _ IH]; intros a m Hm; [done|]. cbn [write_words]. apply IH. by apply poke_wf.
Qed.

Lemma spawn_wf i (m : Machine B) : wf_machine m ->
  wf_machine (snd (spawn_jit_task (lk_tcbs L) (lk_stack_1 L) (lk_stack_2 L) (lk_stack_3 L) (lk_body_1 L) (lk_body_2 L) i m)).
Proof.
  intros Hm. unfold spawn_jit_task. destruct (_ <=? _)%nat; [done|]. cbn [snd foldl]. unfold set_tcb.
  destruct HL as [_ _ H1 H2]. assert (u32 1) by (unfold u32, M32; lia). assert (u32 0) by (unfold u32, M32; lia).
  assert (u32 0x01000000) by (unfold u32, M32; lia).
  destruct (i =? 0)%nat; repeat (apply poke_wf; [|solve [done | apply u32_sub_range | by apply lor_u32]]); done.
Qed.

Lemma spawn_safe n : sf (do_spawn arch L spin n) any.
Proof.
  unfold do_spawn. eapply safe_bind; [apply safe_get|intros w Hw].
  destruct (export_fn _ _ _) as [[count words]|] eqn:E; [|apply safe_line].
  pose proof (export_words _ _ _ _ (ww_comp arch w Hw) E) as Hu. generalize [0%nat; 1%nat] as slots.
  induction slots as [|i slots IH]; [by apply safe_ret|]. cbn [spawn_in].
  eapply safe_bind; [apply (safe_machine arch _ any)|intros st _].
  { intros m Hm. split; [by apply peek_wf|done]. }
  destruct (st =? 0); [|exact IH].
  eapply safe_bind; [apply (safe_machine arch _ any)|intros _ _]. { intros m Hm. split; [by apply emit_wf|done]. }
  eapply safe_bind; [apply (safe_machine arch _ any)|intros ok _]. { intros m Hm. split; [by apply spawn_wf|done]. }
  eapply (safe_bind _ _ _ any); [|intros _ _; do 2 say_step; apply safe_line].
  destruct ok; [apply safe_device, timer_keeps|by apply safe_ret].
Qed.

Lemma pool_safe {A} (f : list Z -> A * list Z) : (forall p, wf_pool p -> wf_pool (snd (f p))) -> sf (on_pool f) any.
Proof.
  intros Hf w Hw _. unfold on_pool. pose proof (Hf (w_pool w) (ww_pool arch w Hw)) as Hl. destruct (f (w_pool w)) as [a p].
  split; [|done]. by apply wf_set_pool.
Qed.

Lemma aset_pool p i v : u32 v -> wf_pool p -> wf_pool (aset p i v).
Proof. intros Hv [Hl Hu]. constructor; [by rewrite length_aset|by apply Forall_insert]. Qed.

Lemma pool_alloc_safe n : sf (do_pool_alloc arch L spin n) any.
Proof.
  unfold do_pool_alloc. eapply safe_bind; [apply pool_safe|].
  - intros p Hp. unfold Pool.alloc. repeat case_match; cbn [snd]; try done. by apply aset_pool; [apply u32_add_range|].
  - intros [a|e] _; [do 2 say_step|]; apply safe_line.
Qed.

Lemma stats_safe i rows : sf (say_stats arch spin i rows) any.
Proof.
  revert i. induction rows as [|[u r] rows IH]; intros i; [by apply safe_ret|]. cbn [say_stats].
  do 6 say_step. eapply safe_bind; [apply safe_line|intros _ _]. apply IH.
Qed.

(** ** Loading
    A store that reads like memory and whose slots hold compiled programs. *)
Definition store_valid (m : Machine B) : Prop :=
  forall i words, (i < MAX_PROGRAMS)%nat -> length words = 64%nat ->
    let '(r, _, ws, m') := Pstore.load arch (lk_pstore_base L) (lk_pstore_top L) i (replicate 16 0) words m in
    m' = m /\ match r with
              | Ok count => exists ss, take count ws = code ss /\ Forall (stmt_ok any) ss
              | Err _ => True
              end.

Lemma load_items_length cast st a n out (m : Machine B) : length (fst (load_items arch cast st a n out m)) = length out.
Proof.
  revert a out m. induction n as [|n IH]; intros a [|o out] m; try done. cbn [load_items].
  destruct (peek_u32 arch a m) as [v m1]. pose proof (IH (a + st) out m1) as H1.
  destruct (load_items arch cast st (a + st) n out m1). cbn in *. by rewrite H1.
Qed.

Lemma load_lengths i po wo (m : Machine B) :
  let '(_, names, ws, _) := Pstore.load arch (lk_pstore_base L) (lk_pstore_top L) i po wo m in
  length names = length po /\ length ws = length wo.
Proof.
  unfold Pstore.load. destruct (Pstore.slot_addr _ _ i) as [addr|]; [|done].
  destruct (peek_u32 arch addr m) as [n m1]. destruct (_ || _); [done|].
  pose proof (load_items_length (fun v => v mod 256) 1 (addr + 4) (Z.to_nat n) po m1) as H1.
  destruct (load_items _ _ _ _ _ _ _) as [names m2]. destruct (peek_u32 arch (addr + 20) m2) as [cnt m3].
  destruct (_ || _); [done|].
  pose proof (load_items_length (fun v => v) 4 (addr + 24) (Z.to_nat cnt) wo m3) as H2.
  by destruct (load_items _ _ _ _ _ _ _) as [ws m4].
Qed.

Lemma load_safe_from slots name words : good_name name -> length words = 64%nat -> Forall (fun i => (i < MAX_PROGRAMS)%nat) slots ->
  safe_in arch (fun w => store_valid (w_m w)) (load_from arch L spin slots name words) (fun _ _ => True).
Proof.
  intros Hn Hlen Hsl. revert words Hlen. induction Hsl as [|i slots Hi _ IH]; intros words Hlen; [by intros w Hw _|].
  intros w Hw Hv. cbn [load_from]. unfold mbind at 1, cmd_bind at 1, on_machine.
  pose proof (Hv i words Hi Hlen) as Hr. pose proof (load_lengths i (replicate 16 0) words (w_m w)) as Hls.
  destruct (Pstore.load _ _ _ _ _ _ _) as [[[r probe] ws] m']. destruct Hr as [-> Hr]. destruct Hls as [Hp Hws].
  rewrite length_replicate in Hp. rewrite Hlen in Hws.
  assert (set_m (w_m w) w = w) as -> by (by destruct w).
  assert (forall s, sf (say_line arch spin s ;; mret true) any) as Hsay
    by (intros s; eapply safe_bind; [apply safe_line|intros _ _; by apply safe_ret]).
  destruct r as [count|[]]; [|by apply Hsay|by apply IH..].
  unfold name_matches. rewrite Hp. destruct (Nat.ltb_spec 16 (length (as_slice name))) as [Hlt|_].
  { pose proof (as_slice_length name (gn_wf _ Hn)) as Ha. destruct Hn as [[Hn _] _ _]. unfold NAME_MAX in *. lia. }
  destruct (bool_decide _); [|by apply IH]. unfold mbind at 1, cmd_bind at 1, get_world.
  destruct Hr as (ss & Ess & Hss). pose proof (import_wf _ _ (as_slice name) _ ss (ww_comp arch w Hw) (gn_ident _ Hn) Ess Hss) as Hi'.
  destruct (import_fn _ _ _) as [res c]. unfold mbind at 1, cmd_bind at 1, modify.
  apply Hsay; [|done]. by apply wf_set_comp.
Qed.

Lemma load_safe name : good_name name -> safe_in arch (fun w => store_valid (w_m w)) (do_load arch L spin name) (fun _ _ => True).
Proof.
  intros Hn. unfold do_load. eapply safe_in_bind.
  - apply load_safe_from; [done|apply length_replicate|by apply (bool_decide_unpack _)].
  - intros found. apply safe_in_weaken. destruct (negb found); [apply safe_line|by apply safe_ret].
Qed.

(** ** Commands *)
Definition trusted (o : Outcome) (m : Machine B) : Prop :=
  match o with OLoad _ => arch = Riscv32 \/ store_valid m | _ => True end.

Lemma load_arm_safe name : good_name name ->
  safe_in arch (fun w => trusted (OLoad name) (w_m w)) (execute arch L spin regs (OLoad name)) (fun _ _ => True).
Proof.
  intros Hn w Hw Ht. cbn [execute trusted] in *. generalize Hw. revert Ht.
  apply (arch_match (fun c => arch = Riscv32 \/ store_valid (w_m w) -> wf_world arch w ->
    match c w with Done (a, w') => wf_world arch w' /\ True | Hang => True | Crash => False end)).
  - intros Ea [Hr|Hv] _; [congruence|]. by apply load_safe.
  - intros _ _. by apply safe_line.
Qed.

Lemma command_safe R o : outcome_ok arch any R o -> (forall n, o <> OLoad n) -> sf (execute arch L spin regs o) any.
Proof.
  intros Ho Hl. destruct o; cbn [execute]; try (by apply safe_ret); try says;
    try (apply registry_safe; auto using claim_wf, drop_wf; fail);
    try (by apply run_bench_safe); try (apply (arch_match (fun c => sf c any)); [intros Ea|apply safe_line]).
  - eapply safe_bind; [by apply program_safe|]. intros [v|] _; says.
  - apply modify_bit_safe. intros v Hv. apply lor_u32; [done|apply shl_bit_u32].
  - apply modify_bit_safe. intros v Hv. rewrite Z.land_comm. by apply land_u32.
  - eapply safe_bind; [apply safe_get|intros w Hw]. apply safe_say.
  - eapply safe_bind; [apply (safe_machine arch _ any)|intros r _; apply (safe_access r any); [done|intros; apply safe_line]].
    intros m Hm. split; [by apply enforced_poke_wf; [|apply Ho]|done].
  - eapply safe_bind; [apply (safe_machine arch _ any)|intros r _; apply (safe_access r any); [done|intros; says]].
    intros m Hm. split; [by apply enforced_peek_wf|done].
  - eapply safe_bind; [apply safe_device, pwm_keeps|intros r _]. says.
  - eapply safe_bind; [apply (safe_device arch _ any); unfold pwm_set_duty; dev_end|intros r _]. says.
  - eapply safe_bind; [apply safe_device, spi_keeps|intros r _]. says.
  - eapply safe_bind; [apply safe_device, self_test_keeps|intros r _]. says.
  - apply store_safe.
  - by destruct (Hl name).
  - apply store_list_safe.
  - apply spawn_safe.
  - apply pool_alloc_safe.
  - eapply safe_bind; [apply pool_safe|intros _ _; apply safe_line]. intros p Hp. unfold Pool.reset. case_match; cbn [snd]; [done|].
    apply aset_pool; [unfold u32, M32; lia|done].
  - eapply safe_bind; [apply safe_get|intros w Hw]. apply stats_safe.
Qed.

Lemma execute_safe R o : outcome_ok arch any R o ->
  safe_in arch (fun w => trusted o (w_m w)) (execute arch L spin regs o) (fun _ _ => True).
Proof.
  intros Ho. assert ((exists n, o = OLoad n) \/ forall n, o <> OLoad n) as [[n ->]|Hne] by (destruct o; eauto; by right).
  - by apply load_arm_safe.
  - apply (safe_in_weaken arch _ _ any). by eapply command_safe.
Qed.

(** ** The loop *)
Definition loop_ok (l : Loop) : Prop :=
  match lp_pending l with
  | Some (ROk o) => exists R, outcome_ok arch any R o
  | Some NoFuel => False
  | _ => True
  end.

Definition trusted_pending (l : Loop) (m : Machine B) : Prop :=
  match lp_pending l with Some (ROk o) => trusted o m | _ => True end.

Lemma get_byte_wf (m : Machine B) : wf_machine m -> wf_machine (snd (poll_get_byte arch m)).
Proof.
  intros Hm. unfold poll_get_byte.
  assert (forall a (m : Machine B), wf_machine m -> wf_machine (snd (peek_u32 arch a m))) as Hp by auto using peek_wf.
  apply (arch_match (fun r => wf_machine (snd r))); [intros _|].
  - pose proof (Hp ARM_SR m Hm) as H1. destruct (peek_u32 arch ARM_SR m) as [sr m1]. cbn [snd] in H1.
    destruct (negb _); [|done]. pose proof (Hp ARM_DR m1 H1) as H2. by destruct (peek_u32 arch ARM_DR m1).
  - pose proof (Hp RISCV_RXDATA m Hm) as H1. destruct (peek_u32 arch RISCV_RXDATA m) as [v m1]. by destruct (_ =? 0).
Qed.

Lemma get_byte_safe : sf (on_machine (poll_get_byte arch)) any.
Proof. apply (safe_machine arch _ any). intros m Hm. split; [by apply get_byte_wf|done]. Qed.

Lemma feed_wf b l : wf_line l -> wf_line (snd (fst (feed b l))).
Proof.
  intros [Hl Hn H8]. pose proof (feed_key b l _ (conj Hl (conj Hn eq_refl))) as Hk.
  assert (Forall u8 (ln_buf (snd (fst (feed b l))))) as Hf.
  { unfold feed. repeat case_match; cbn [fst snd set_line_len ln_buf]; try done; (apply Forall_insert; [done|]);
      unfold in_range in *; bool_to_prop; unfold u8; lia. }
  assert (forall l' t, line_rep l' t -> Forall u8 (ln_buf l') -> wf_line l') as Hr by (intros l' t (? & ? & _); by constructor).
  destruct (feed b l) as [[st l'] out]. destruct (key_of b), Hk as [_ Hk]; [by subst l'|eauto..].
Qed.

(** A line through the compiler. *)
Lemma compile_wf c (m : Machine B) text : wf_comp any c -> wf_machine m ->
  let '(r, (c', m')) := compile arch c m text in
  wf_comp any c' /\ wf_machine m' /\ loop_ok {| lp_state := Printing; lp_pending := r |}.
Proof.
  intros Hc Hm. unfold compile, loop_ok. cbn [lp_pending]. destruct text as [|b text]; [done|].
  pose proof (parse_spec arch any _ (m_audit m) Hm ltac:(done) c m (b :: text) Hc eq_refl eq_refl) as Hp.
  destruct (parse arch c m (b :: text)) as [r [c' m']]. destruct Hp as (H1 & H2 & _ & H3).
  split_and!; [done|by unfold wf_machine; rewrite H2|]. destruct r as [o|e|]; [by exists (m_regs m)|done|done].
Qed.

Lemma evaluate_safe : forall w, wf_world arch w ->
  let (text, ln) := take_line (w_line w) in
  let '(r, (c, m)) := compile arch (w_comp w) (w_m w) text in
  wf_world arch (set_line ln (set_comp c (set_m m w))) /\ loop_ok {| lp_state := Printing; lp_pending := r |}.
Proof.
  intros w Hw. unfold take_line.
  pose proof (compile_wf (w_comp w) (w_m w) (take (ln_len (w_line w)) (ln_buf (w_line w)))
    (ww_comp arch w Hw) (ww_m arch w Hw)) as Hp.
  destruct (compile _ _ _ _) as [r [c m]]. destruct Hp as (Hc & Hm & Hr). split; [|done].
  destruct (ww_line arch w Hw) as [Hl _ H8]. apply wf_set_line; [constructor; [done|cbn; lia|done]|].
  by apply wf_set_comp; [|apply wf_set_m].
Qed.

Lemma turn_safe l : loop_ok l ->
  safe_in arch (fun w => trusted_pending l (w_m w)) (turn arch L spin regs l) (fun l' _ => loop_ok l').
Proof.
  intros Hl. destruct l as [st p]. unfold turn. cbn [lp_state lp_pending].
  assert (sf (b ← on_machine (poll_get_byte arch);
              match b with
              | Some byte =>
                  w ← get_world;
                  let '(st, ln, echo) := feed byte (w_line w) in
                  modify (set_line ln) ;; say arch spin echo ;; mret {| lp_state := st; lp_pending := p |}
              | None => mret {| lp_state := Reading; lp_pending := p |}
              end) loop_ok) as Hread.
  { eapply safe_bind; [apply get_byte_safe|]. intros [b|] _; [|by apply safe_ret].
    eapply safe_bind; [apply safe_get|intros w Hw]. pose proof (feed_wf b _ (ww_line arch w Hw)) as Hf.
    destruct (feed b (w_line w)) as [[st' ln] echo]. cbn [fst snd] in Hf.
    eapply safe_bind; [apply safe_modify; intros; by apply wf_set_line|intros _ _].
    say_step. by apply safe_ret. }
  destruct st; try (by apply (safe_in_weaken arch _ _ loop_ok)).
  - intros w Hw _. unfold mbind, cmd_bind, get_world, modify. pose proof (evaluate_safe w Hw) as He.
    destruct (take_line _) as [text ln]. destruct (compile _ _ _ _) as [r [c m]]. exact He.
  - eapply (safe_in_bind arch _ _ _ (fun _ _ => True)).
    + destruct p as [[o|e|]|]; [|apply (safe_in_weaken arch _ _ any); says|done|by apply (safe_in_weaken arch _ _ any), safe_ret].
      destruct Hl as [R Ho]. by eapply execute_safe.
    + intros _. apply (safe_in_weaken arch _ _ loop_ok). say_step. by apply safe_ret.
Qed.

(** ** Boot *)
Lemma copy_words_wf n src dst data_end (m : Machine B) : wf_machine m -> wf_machine (copy_words arch n src dst data_end m).
Proof.
  revert src dst m. induction n as [|n IH]; intros src dst m Hm; [done|]. cbn [copy_words].
  destruct (_ <? _); [|done]. pose proof (peek_wf arch src m Hm) as H1. pose proof (peek_range arch src m Hm) as H2.
  destruct (peek_u32 arch src m) as [v m1]. apply IH. by apply poke_wf.
Qed.

Lemma zero_words_wf n z bss_end (m : Machine B) : wf_machine m -> wf_machine (zero_words arch n z bss_end m).
Proof.
  revert z m. induction n as [|n IH]; intros z m Hm; [done|]. cbn [zero_words]. destruct (_ <? _); [|done].
  apply IH. by apply poke_wf; [|unfold u32, M32; lia].
Qed.

Lemma boot_vectors_wf vs ve hang (c : Core B) : wf_machine (core_m c) ->
  wf_machine (core_m (boot_relocate_vectors arch vs ve hang c)).
Proof.
  intros Hm. unfold boot_relocate_vectors. apply (arch_match (fun c => wf_machine (core_m c))); [intros Ea|done].
  cbn [core_m]. apply poke_wf; [rewrite copy_vectors_words; by apply copy_words_wf|].
  rewrite Ea. unfold u32, M32. cbn. lia.
Qed.

Lemma uart_init_wf (m : Machine B) : wf_machine m -> wf_machine (uart_init arch m).
Proof.
  intros Hm. unfold uart_init. apply (arch_match wf_machine); [intros _|done].
  pose proof (peek_wf arch ARM_CR1 m Hm) as H1. destruct (peek_u32 arch ARM_CR1 m) as [v m1].
  unfold wf_machine. rewrite poke_regs; [done|]. apply (uart_no_slot arch).
Qed.

Lemma drain_safe n : sf (drain (B := B) arch n) any.
Proof.
  induction n as [|n IH]; [by intros w Hw _|]. cbn [drain]. eapply safe_bind; [apply get_byte_safe|].
  intros [b|] _; [exact IH|by apply safe_ret].
Qed.

Lemma boot_safe : sf (boot arch L spin) loop_ok.
Proof.
  unfold boot.
  eapply safe_bind; [apply (safe_machine arch _ any)|intros _ _]. { intros m Hm. split; [by apply uart_init_wf|done]. }
  say_step. eapply safe_bind; [apply (safe_machine arch _ any)|intros _ _].
  { intros m Hm. split; [by apply boot_vectors_wf|done]. }
  eapply safe_bind; [apply drain_safe|intros _ _]. say_step. by apply safe_ret.
Qed.

Lemma reset_safe : sf (Reset arch L spin) loop_ok.
Proof.
  unfold Reset. eapply safe_bind; [apply (safe_machine arch _ any)|intros _ _; apply boot_safe].
  intros m Hm. split; [|done]. by apply zero_words_wf, copy_words_wf.
Qed.

(** ** Sessions *)
(** The states of a session from power-up in world [w0]: boot, then rounds of
    the loop; on ARM, each [load] among them from a valid store. *)
Inductive session_state (w0 : World B) : Loop -> World B -> Prop :=
| session_boot l w : Reset arch L spin w0 = Done (l, w) -> session_state w0 l w
| session_turn l w l' w' :
    session_state w0 l w -> trusted_pending l (w_m w) -> turn arch L spin regs l w = Done (l', w') -> session_state w0 l' w'.

Lemma session_state_ok w0 l w : wf_world arch w0 -> session_state w0 l w -> wf_world arch w /\ loop_ok l.
Proof.
  intros Hw0. induction 1 as [l w E|l w l' w' _ [Hw Hl] Hn E].
  - pose proof (reset_safe w0 Hw0 Logic.I) as Hb. rewrite E in Hb. by destruct Hb.
  - pose proof (turn_safe l Hl w Hw Hn) as Ht. by rewrite E in Ht.
Qed.

(** [n] rounds, stopping at a load. *)
Fixpoint play (n : nat) (l : Loop) (w : World B) : option (Loop * World B) :=
  match n with
  | O => Some (l, w)
  | S k =>
      match arch, lp_pending l with
      | Arm, Some (ROk (OLoad _)) => None
      | _, _ => match turn arch L spin regs l w with Done (l', w') => play k l' w' | _ => None end
      end
  end.

Lemma play_session w0 n l w l' w' : session_state w0 l w -> play n l w = Some (l', w') -> session_state w0 l' w'.
Proof.
  revert l w. induction n as [|n IH]; intros l w Hs E; [by injection E as <- <-|]. cbn [play] in E.
  assert (trusted_pending l (w_m w) /\ exists s, turn arch L spin regs l w = Done s /\ play n (fst s) (snd s) = Some (l', w'))
    as (Hn & [l1 w1] & E1 & E2).
  { unfold trusted_pending, trusted.
    destruct arch, (lp_pending l) as [[[]| |]|]; try done; (split; [first [done|by left]|]);
      destruct (turn _ _ _ _ l w) as [[]| |]; try done; by eexists. }
  eapply IH; [|exact E2]. by eapply session_turn.
Qed.

Lemma session_check n (w0 : World B) (test : Loop -> bool) :
  match Reset arch L spin w0 with
  | Done (l0, w1) => match play n l0 w1 with Some (l, _) => test l | None => false end
  | _ => false
  end = true ->
  exists l w, session_state w0 l w /\ test l = true.
Proof.
  intros E. destruct (Reset arch L spin w0) as [[l0 w1]| |] eqn:E0; try done.
  destruct (play n l0 w1) as [[l w]|] eqn:E1; [|done]. exists l, w. split; [|done].
  eapply play_session; [by apply session_boot|done].
Qed.

(** C11. The rounds of an undisturbed session do not crash: from any
    well-formed power-up state, after boot and any number of rounds of the
    REPL loop, whatever bytes arrive and whatever the devices answer, the state
    is well formed and the next round fails no bounds check, calls no word that
    is not code and faults in no generated code. The scope of the claim: no
    exception is taken (after [spawn] the first tick would stop the system,
    [spawn_ticks_into_fault]); every bus access completes without a fault; the
    kernel's own variables, stack and code buffer are out of reach of the
    stores commands make; and on ARM a [load] is covered when the store holds
    compiled programs, since it runs whatever is there. *)
Theorem repl_session_safe (w0 w : World B) (l : Loop) :
  wf_world arch w0 -> session_state w0 l w -> trusted_pending l (w_m w) ->
  wf_world arch w /\ turn arch L spin regs l w <> Crash.
Proof.
  intros Hw0 Hs Hn. destruct (session_state_ok w0 l w Hw0 Hs) as [Hw Hl]. split; [done|].
  pose proof (turn_safe l Hl w Hw Hn) as Ht. intros E. by rewrite E in Ht.
Qed.
End Safe.

(** ** Concrete sessions
    A memory with a console on the ARM UART registers: the input is there to
    be read once [tty_open] bytes have been printed. *)
Record Tty := { tty_mem : gmap Z Z; tty_in : list Z; tty_out : list Z; tty_open : nat }.

Definition tty_ready (t : Tty) : bool :=
  (tty_open t <=? length (tty_out t))%nat && negb (bool_decide (tty_in t = [])).

Definition tty_read (a : Z) (t : Tty) : Z * Tty :=
  if a =? ARM_SR then ((if tty_ready t then Z.lor SR_TXE SR_RXNE else SR_TXE), t)
  else if a =? ARM_DR then
    (wrap32 (hd 0 (tty_in t)),
     {| tty_mem := tty_mem t; tty_in := tl (tty_in t); tty_out := tty_out t; tty_open := tty_open t |})
  else (fst (bus_read a (tty_mem t)), t).

Definition tty_write (a v : Z) (t : Tty) : Tty :=
  if a =? ARM_DR then
    {| tty_mem := tty_mem t; tty_in := tty_in t; tty_out := v :: tty_out t; tty_open := tty_open t |}
  else {| tty_mem := bus_write a v (tty_mem t); tty_in := tty_in t; tty_out := tty_out t; tty_open := tty_open t |}.

#[export] Instance tty_bus : Bus Tty := { bus_read := tty_read; bus_write := tty_write; bus_mcycle t := (0, t) }.

#[export] Instance tty_bus_width : BusWidth Tty.
Proof.
  constructor. intros a t. cbn. unfold tty_read. destruct (a =? ARM_SR); [destruct (tty_ready t); by vm_compute|].
  destruct (a =? ARM_DR); [apply wrap32_range|]. apply (bus_read_u32 (B := gmap Z Z)).
Qed.

(** The addresses of memory.x and memory-layout.x; statics placed by hand. *)
Definition demo_link : Link :=
  {| lk_pool_base := 0x2000C800; lk_pstore_base := 0x2000F000; lk_pstore_top := 0x20010000; lk_tcbs := 0x20003100;
     lk_stack_1 := 0x2000EE00; lk_stack_2 := 0x2000EC00; lk_stack_3 := 0x2000EA00;
     lk_body_1 := 0x08000401; lk_body_2 := 0x08000421;
     lk_sidata := 0x08001000; lk_sdata := 0x20003000; lk_edata := 0x20003010; lk_sbss := 0x20003010; lk_ebss := 0x20003200;
     lk_vector_start := 0x08000000; lk_vector_end := 0x08000040 |}.

Lemma demo_link_wf : wf_link Arm demo_link.
Proof.
  constructor; cbn; try (unfold u32, M32; lia). intros a Ha. unfold reg_slot.
  destruct (Z.leb_spec 0 (a - CAPREG_BASE Arm)); cbn in *; [|done].
  destruct (Z.ltb_spec (a - 0x20001000) 32); cbn; [lia|done].
Qed.

(** Flash with the vectors of memory-layout.x: every exception to [fault_hang]. *)
Definition fault_hang_addr : Z := 0x08000201.
Definition demo_flash : gmap Z Z :=
  foldr (fun n b => ram_write (0x08000000 + 4 * Z.of_nat n) fault_hang_addr b) ∅ (seq 0 16).

Definition tty_world (input : list Z) : World Tty :=
  {| w_m := boot_machine {| tty_mem := demo_flash; tty_in := input; tty_out := []; tty_open := 27 |};
     w_comp := compiler_new; w_line := line_new; w_buf := replicate 4096 0; w_vm := vm_new; w_pool := replicate 4 0 |}.

Lemma tty_world_wf input : wf_world Arm (tty_world input).
Proof.
  constructor; cbn [w_m w_comp w_line w_buf w_vm w_pool tty_world];
    [apply registry_init_wf|apply compiler_new_wf|apply line_new_wf|apply code_zero_wf|apply vm_new_wf|apply pool_zero_wf].
Qed.

(** Boot with [lines] typed at the console, then [n] rounds. *)
Definition typed (lines : list (list Z)) : list Z := concat (map (fun l => l ++ [13]) lines).

Definition kernel (n : nat) (lines : list (list Z)) : Out (Loop * World Tty) :=
  (Reset Arm demo_link 4 ≫= turns Arm demo_link 4 zero_regs n) (tty_world (typed lines)).

Definition console (w : World Tty) : list Z := rev (tty_out (m_bus (w_m w))).

Definition demo_lines : list (list Z) :=
  [bytes "cap_claim GPIOA;"; bytes "fn f() { poke 0x40020014 1; }"; bytes "f();"; bytes "peek 0x40020014;"].

Lemma kernel_check n lines (P : Machine Tty -> Prop) `{!forall m, Decision (P m)} :
  match kernel n lines with Done (_, w) => bool_decide (P (w_m w)) | _ => false end = true ->
  exists l w, kernel n lines = Done (l, w) /\ P (w_m w).
Proof.
  intros E. destruct (kernel n lines) as [[l w]| |]; try done. exists l, w. split; [done|]. by apply bool_decide_eq_true_1 in E.
Qed.

Definition runs_next (l : Loop) : bool := match lp_pending l with Some (ROk (ORun _)) => true | _ => false end.

(** After 57 rounds the compiled [f();] is about to run. *)
Lemma demo_reaches :
  exists l w, session_state Arm demo_link 4 zero_regs (tty_world (typed demo_lines)) l w /\ runs_next l = true.
Proof. apply (session_check _ _ _ _ 57). vm_compute. reflexivity. Qed.

Lemma repl_session_safe_witness :
  exists l w, session_state Arm demo_link 4 zero_regs (tty_world (typed demo_lines)) l w /\
    runs_next l = true /\ wf_world Arm w /\ turn Arm demo_link 4 zero_regs l w <> Crash.
Proof.
  destruct demo_reaches as (l & w & Hs & Hr). exists l, w. split; [exact Hs|]. split; [exact Hr|].
  apply (repl_session_safe Arm demo_link 4 zero_regs zero_regs_u32 demo_link_wf (tty_world (typed demo_lines)) w l
    (tty_world_wf _) Hs).
  unfold runs_next in Hr. unfold trusted_pending. destruct (lp_pending l) as [[[]| |]|]; first [discriminate Hr|exact Logic.I].
Defined.

(** A session that forges slot 0 of the store: a program [a] with the given words. *)
Definition forged (words : list Z) : list (list Z) :=
  let poke_line a v := bytes "poke " ++ dec_bytes a ++ [32] ++ dec_bytes v ++ bytes ";" in
  [poke_line 0x2000F000 1; poke_line 0x2000F004 97; poke_line 0x2000F014 (Z.of_nat (length words))]
  ++ imap (fun i w => poke_line (0x2000F018 + 4 * Z.of_nat i) w) words
  ++ [bytes "load a;"; bytes "a();"].

(** [load] trusts the store. The store is ordinary SRAM that [poke] reaches
    without any capability, and the loaded words are called as they are: from
    a fresh boot, with no capability claimed, forged words crash the kernel, and
    a forged program writes a GPIO A register the session may not touch. *)
Theorem load_trusts_store :
  kernel 200 (forged [0x12345678]) = Crash /\
  exists l w, kernel 400 (forged (code [SPoke 0x40020014 1])) = Done (l, w) /\
    word_at Arm (w_m w) 0x40020014 = 1 /\ check_access Arm (m_regs (w_m w)) 0x40020014 = Err GpioA.
Proof.
  split; [vm_compute; reflexivity|].
  apply (kernel_check _ _ (fun m => word_at Arm m 0x40020014 = 1 /\ check_access Arm (m_regs m) 0x40020014 = Err GpioA)).
  vm_compute. reflexivity.
Qed.

(** [spawn] starts the tick but not the scheduler: after it the task is ready
    and SysTick runs with its interrupt enabled, and exceptions 14 and 15 still
    go to [fault_hang], because nothing installs the task handlers. The first
    tick therefore stops the system. *)
Theorem spawn_ticks_into_fault :
  exists l w, kernel 60 [bytes "fn f() { poke 0x20004000 7; }"; bytes "spawn f;"] = Done (l, w) /\
    word_at Arm (w_m w) (tcb_addr (lk_tcbs demo_link) 1 + 8) = state_val Ready /\
    Z.testbit (word_at Arm (w_m w) STK_CTRL) 0 = true /\ Z.testbit (word_at Arm (w_m w) STK_CTRL) 1 = true /\
    exc_vector Arm (vector_index sys_tick) (w_m w) = fault_hang_addr /\
    exc_vector Arm (vector_index pend_sv) (w_m w) = fault_hang_addr.
Proof.
  apply (kernel_check _ _ (fun m =>
    word_at Arm m (tcb_addr (lk_tcbs demo_link) 1 + 8) = state_val Ready /\
    Z.testbit (word_at Arm m STK_CTRL) 0 = true /\ Z.testbit (word_at Arm m STK_CTRL) 1 = true /\
    exc_vector Arm (vector_index sys_tick) m = fault_hang_addr /\ exc_vector Arm (vector_index pend_sv) m = fault_hang_addr)).
  vm_compute. reflexivity.
Qed.

(** The native path bypasses the gate: from a fresh boot, with no capability
    claimed, a session of authorised SRAM accesses writes a GPIO A register.
    The compiled function reads an SRAM word and then stores to the same word;
    its native code stores to the address it read instead. *)
Theorem native_bypasses_gate :
  exists l w, kernel 100 [bytes "poke 0x20004000 0x40020014;"; bytes "fn f() { peek 0x20004000; poke 0x20004000 5; }"; bytes "f();"]
      = Done (l, w) /\
    word_at Arm (w_m w) 0x40020014 = 5 /\ word_at Arm (w_m w) 0x20004000 = 0x40020014 /\
    check_access Arm (m_regs (w_m w)) 0x40020014 = Err GpioA.
Proof.
  apply (kernel_check _ _ (fun m => word_at Arm m 0x40020014 = 5 /\ word_at Arm m 0x20004000 = 0x40020014 /\
    check_access Arm (m_regs m) 0x40020014 = Err GpioA)).
  vm_compute. reflexivity.
Qed.

(** [flash_test] needs no capability: from a fresh boot, with nothing claimed,
    the command erases a sector and programs a word of flash. *)
Theorem flash_test_ungated :
  exists l w, kernel 20 [bytes "flash_test;"] = Done (l, w) /\
    word_at Arm (w_m w) STORE_BASE = 0xCAFEF00D /\ m_regs (w_m w) = REGISTRY_INIT.
Proof.
  apply (kernel_check _ _ (fun m => word_at Arm m STORE_BASE = 0xCAFEF00D /\ m_regs m = REGISTRY_INIT)).
  vm_compute. reflexivity.
Qed.

(** Only [enforced_poke_u32] writes the audit log: with SUPERUSER claimed the
    store a compiled program makes changes memory and leaves no entry, while the
    same store made by the [poke] command leaves one. *)
Theorem superuser_program_unaudited :
  (exists l w, kernel 90 [bytes "cap_claim SUPERUSER;"; bytes "fn f() { poke 0x20004000 5; }"; bytes "f();"] = Done (l, w) /\
    is_superuser_active (m_regs (w_m w)) = true /\
    word_at Arm (w_m w) 0x20004000 = 5 /\ total_audits (m_audit (w_m w)) = 0) /\
  (exists l w, kernel 90 [bytes "cap_claim SUPERUSER;"; bytes "poke 0x20004000 5;"] = Done (l, w) /\
    is_superuser_active (m_regs (w_m w)) = true /\
    word_at Arm (w_m w) 0x20004000 = 5 /\ total_audits (m_audit (w_m w)) = 1).
Proof.
  split.
  - apply (kernel_check _ _ (fun m => is_superuser_active (m_regs m) = true /\
      word_at Arm m 0x20004000 = 5 /\ total_audits (m_audit m) = 0)). vm_compute. reflexivity.
  - apply (kernel_check _ _ (fun m => is_superuser_active (m_regs m) = true /\
      word_at Arm m 0x20004000 = 5 /\ total_audits (m_audit m) = 1)). vm_compute. reflexivity.
Qed.
