(* ===== verification/Console.v ===== *)
(** * Console: what a user at the terminal sees

    [Terminal] is what the kernel's console needs from the hardware behind the
    UART driver: a transmitter that is ready within the busy wait, and input
    that stays until it is taken. Against this interface, on either target, a
    line typed at the prompt is answered: the keys are echoed, the text is
    compiled, the outcome executed and the next prompt printed, in a number of
    rounds of the loop that depends on the keys only. The memory with a console
    on which the concrete sessions run is an instance. *)
From S2P Require Import Prelude Registry AuditRing Memory Lexer SymTab Exec Parser ParserSafe ParserSem Isa Emitter.
From S2P Require Import EmitterSem Native Tokens Uart Pool Pstore Drivers Interrupt Multitask Repl World Bench.
From S2P Require Import Session SessionSafe.
Local Open Scope Z_scope.

Class Terminal (arch : Arch) (spin : nat) (B : Type) `{Bus B} := {
  t_in : B -> list Z;
  t_out : B -> list Z;
  t_put : Z -> B -> B;
  t_take : B -> B;
  t_put_law : forall c (m : Machine B), put_byte arch spin c m = Some (set_bus (t_put c (m_bus m)) m);
  t_get_law : forall c rest (m : Machine B), t_in (m_bus m) = c :: rest ->
    poll_get_byte arch m = (Some c, set_bus (t_take (m_bus m)) m);
  t_put_out : forall c b, t_out (t_put c b) = t_out b ++ [c];
  t_put_in : forall c b, t_in b <> [] -> t_in (t_put c b) = t_in b;
  t_take_in : forall b, t_in (t_take b) = tl (t_in b);
  t_take_out : forall b, t_out (t_take b) = t_out b;
}.

Section Lines.
Context `{PrimAddrs} {B : Type} `{Bus B} (arch : Arch) (L : Link) (spin : nat) (regs : Z -> Z).
Context `{!Terminal arch spin B}.
Implicit Type w : World B.

Definition console_of w : list Z := t_out (m_bus (w_m w)).
Definition input_of w : list Z := t_in (m_bus (w_m w)).

Definition on_bus (f : B -> B) w : World B := set_m (set_bus (f (m_bus (w_m w))) (w_m w)) w.

(** The world after printing, and after taking a key. *)
Definition printed (s : list Z) w : World B := on_bus (fun b => foldl (fun b c => t_put c b) b s) w.
Definition taken w : World B := on_bus t_take w.

(** What the terminal does to the hardware by itself. *)
Inductive term_steps : B -> B -> Prop :=
| ts_refl b : term_steps b b
| ts_put c b b' : term_steps b b' -> term_steps b (t_put c b')
| ts_take b b' : term_steps b b' -> term_steps b (t_take b').

Lemma ts_trans b1 b2 b3 : term_steps b1 b2 -> term_steps b2 b3 -> term_steps b1 b3.
Proof. intros H1 H2. revert H1. induction H2; intros; eauto using term_steps. Qed.

Lemma ts_print s b : term_steps b (foldl (fun b c => t_put c b) b s).
Proof.
  revert b. induction s as [|c s IH]; intros b; [apply ts_refl|]. cbn. eapply ts_trans; [apply ts_put, ts_refl|apply IH].
Qed.

(** ** Printing *)
Lemma write_str_terminal s (m : Machine B) :
  write_str arch spin s m = Some (set_bus (foldl (fun b c => t_put c b) (m_bus m) s) m).
Proof.
  revert m. induction s as [|c s IH]; intros m; [by destruct m|]. cbn [write_str]. rewrite t_put_law.
  cbn [mbind option_bind]. by rewrite IH.
Qed.

Lemma say_printed s w : say arch spin s w = Done (tt, printed s w).
Proof. unfold say. by rewrite write_str_terminal. Qed.

Lemma say_then {A} s (k : Cmd B A) w : (say arch spin s ;; k) w = k (printed s w).
Proof. unfold mbind, cmd_bind. by rewrite say_printed. Qed.

Lemma printed_app s1 s2 w : printed (s1 ++ s2) w = printed s2 (printed s1 w).
Proof. unfold printed, on_bus. cbn. by rewrite foldl_app. Qed.

Lemma console_printed s w : console_of (printed s w) = console_of w ++ s.
Proof.
  unfold console_of, printed, on_bus. cbn. generalize (m_bus (w_m w)) as b.
  induction s as [|c s IH]; intros b; cbn; [by rewrite app_nil_r|]. rewrite IH, t_put_out. by rewrite <- app_assoc.
Qed.

Lemma input_printed s w : input_of w <> [] -> input_of (printed s w) = input_of w.
Proof.
  unfold input_of, printed, on_bus. cbn. generalize (m_bus (w_m w)) as b.
  induction s as [|c s IH]; intros b Hb; cbn; [done|]. rewrite IH; rewrite t_put_in; done.
Qed.

(** ** Keys *)
Definition is_enter (b : Z) : bool := (b =? 13) || (b =? 10).

(** The world after one key, and after a sequence of keys. *)
Definition key_world (k : Z) w : World B :=
  let '(_, ln, echo) := feed k (w_line w) in printed echo (set_line ln (taken w)).
Definition keys_world (ks : list Z) w : World B := foldl (fun w k => key_world k w) w ks.

Definition reading (l : Loop) : Prop := lp_state l = Idle \/ lp_state l = Reading.

Lemma turn_key l k rest w : reading l -> input_of w = k :: rest ->
  turn arch L spin regs l w =
    Done ({| lp_state := fst (fst (feed k (w_line w))); lp_pending := lp_pending l |}, key_world k w).
Proof.
  intros Hl Hi. unfold turn, key_world.
  assert (on_machine (poll_get_byte arch) w = Done (Some k, taken w)) as E.
  { unfold on_machine. by rewrite (t_get_law k rest) by done. }
  destruct l as [st p]. destruct Hl as [-> | ->]; cbn [lp_state lp_pending];
    unfold mbind at 1, cmd_bind at 1; rewrite E; unfold mbind at 1, cmd_bind at 1, get_world; cbn [taken on_bus w_line set_m];
    destruct (feed k (w_line w)) as [[st' ln] echo]; unfold mbind at 1, cmd_bind at 1, modify; by rewrite say_then.
Qed.

Lemma feed_reading k ln text : line_rep ln text -> is_enter k = false ->
  let '(st, ln', echo) := feed k ln in
  (st = Idle \/ st = Reading) /\ line_rep ln' (snd (edit_lines [key_of k] text)) /\
  (printable k -> (length text < LINE_MAX)%nat -> echo = [k] /\ snd (edit_lines [key_of k] text) = text ++ [k]).
Proof.
  intros Hr Hk. pose proof (feed_key k ln text Hr) as Hf. pose proof (line_rep_length _ _ Hr) as Hlen.
  assert (printable k -> (length text < LINE_MAX)%nat -> snd (feed k ln) = [k] /\ key_of k = KText k) as He.
  { unfold printable, LINE_MAX. intros Hp Hl. unfold feed, key_of, in_range.
    repeat match goal with |- context [k =? ?n] => destruct (Z.eqb_spec k n); [lia|] end. cbn [orb].
    destruct (Z.leb_spec 32 k), (Z.leb_spec k 126); try lia. cbn [andb].
    destruct (Nat.ltb_spec (ln_len ln) LINE_MAX); [done|unfold LINE_MAX in *; lia]. }
  assert (forall st, st <> Evaluating -> (exists l' o, feed k ln = (st, l', o)) -> st = Idle \/ st = Reading) as Hst.
  { intros st Hne (l' & o & E). unfold feed in E. repeat case_match; simplify_eq; auto. }
  destruct (feed k ln) as [[st ln'] echo]. cbn [snd] in He.
  destruct (key_of k) eqn:Ek.
  - exfalso. unfold key_of in Ek. fold (is_enter k) in Ek. rewrite Hk in Ek. repeat case_match; discriminate.
  - destruct Hf as [Hne Hl]. split_and!; [eauto|exact Hl|]. intros Hp Hlt. by destruct (He Hp Hlt).
  - destruct Hf as [Hne Hl]. split_and!; [eauto|exact Hl|]. intros Hp Hlt. by destruct (He Hp Hlt).
  - destruct Hf as [Hne Hl]. split_and!; [eauto|exact Hl|]. intros Hp Hlt. destruct (He Hp Hlt) as [-> [= ->]].
    cbn [edit_lines snd]. destruct (Nat.ltb_spec (length text) 128); [done|unfold LINE_MAX in *; lia].
  - destruct Hf as [Hne Hl]. split_and!; [eauto|exact Hl|]. intros Hp Hlt. by destruct (He Hp Hlt).
Qed.

Lemma edit_lines_cons k ks text : k <> KEnter ->
  edit_lines (k :: ks) text = edit_lines ks (snd (edit_lines [k] text)).
Proof. destruct k; cbn; done. Qed.

Lemma turns_S n l w : turns arch L spin regs (S n) l w = (l' ← turn arch L spin regs l; turns arch L spin regs n l') w.
Proof. done. Qed.

(** What typing leaves alone, and where the text goes. *)
Record typed_to (w w' : World B) (text : list Z) : Prop := {
  ty_comp : w_comp w' = w_comp w;
  ty_buf : w_buf w' = w_buf w;
  ty_vm : w_vm w' = w_vm w;
  ty_pool : w_pool w' = w_pool w;
  ty_regs : m_regs (w_m w') = m_regs (w_m w);
  ty_audit : m_audit (w_m w') = m_audit (w_m w);
  ty_line : line_rep (w_line w') text;
  ty_bus : term_steps (m_bus (w_m w)) (m_bus (w_m w'));
}.

Lemma typed_key k w text : line_rep (w_line w) text -> is_enter k = false ->
  typed_to w (key_world k w) (snd (edit_lines [key_of k] text)).
Proof.
  intros Hr Hk. unfold key_world. pose proof (feed_reading k _ _ Hr Hk) as Hf.
  destruct (feed k (w_line w)) as [[st ln] echo]. destruct Hf as (_ & Hl & _). constructor; try done.
  eapply ts_trans; [apply ts_take, ts_refl|apply ts_print].
Qed.

Lemma typed_trans w1 w2 w3 t2 t3 : typed_to w1 w2 t2 -> typed_to w2 w3 t3 -> typed_to w1 w3 t3.
Proof. intros [] []. constructor; [congruence..|done|by eapply ts_trans]. Qed.

Lemma turns_keys n ks l w text rest : reading l -> line_rep (w_line w) text -> Forall (fun k => is_enter k = false) ks ->
  input_of w = ks ++ rest -> rest <> [] ->
  exists l', reading l' /\
    turns arch L spin regs (length ks + n) l w = turns arch L spin regs n l' (keys_world ks w) /\
    typed_to w (keys_world ks w) (snd (edit_lines (map key_of ks) text)) /\
    input_of (keys_world ks w) = rest /\
    (Forall printable ks -> (length text + length ks <= LINE_MAX)%nat ->
       console_of (keys_world ks w) = console_of w ++ ks /\ snd (edit_lines (map key_of ks) text) = text ++ ks).
Proof.
  intros Hl Hr Hks. revert l w text Hl Hr. induction Hks as [|k ks Hk _ IH]; intros l w text Hl Hr Hi Hrest.
  { exists l. cbn. rewrite !app_nil_r. split_and!; try done. constructor; try done. apply ts_refl. }
  cbn [length map Nat.add] in *. rewrite turns_S.
  change (keys_world (k :: ks) w) with (keys_world ks (key_world k w)).
  unfold mbind, cmd_bind. rewrite (turn_key l k (ks ++ rest)) by done.
  pose proof (feed_reading k _ _ Hr Hk) as Hf. pose proof (typed_key k w text Hr Hk) as Ht.
  assert (input_of (key_world k w) = ks ++ rest /\
    (forall echo, snd (feed k (w_line w)) = echo -> console_of (key_world k w) = console_of w ++ echo)) as [Hi' Ho].
  { unfold key_world. destruct (feed k (w_line w)) as [[st ln] echo]. cbn [snd].
    assert (input_of (set_line ln (taken w)) = ks ++ rest) as E
      by (unfold input_of, taken, on_bus in *; cbn; rewrite t_take_in; by rewrite Hi).
    split; [rewrite input_printed; rewrite E; [done|by destruct ks]|].
    intros ? <-. rewrite console_printed. unfold console_of, taken, on_bus. cbn. by rewrite t_take_out. }
  destruct (feed k (w_line w)) as [[st ln] echo]. destruct Hf as (Hst & _ & Hecho). cbn [fst snd] in *.
  assert (key_of k <> KEnter) as Hne.
  { unfold key_of. fold (is_enter k). rewrite Hk. repeat case_match; done. }
  destruct (IH {| lp_state := st; lp_pending := lp_pending l |} (key_world k w) _ Hst (ty_line _ _ _ Ht) Hi' Hrest)
    as (l' & Hl' & E & Ht' & Hin & Hp).
  exists l'. split; [done|]. split; [exact E|]. rewrite edit_lines_cons by done.
  split_and!; [by eapply typed_trans|done|].
  intros [Hpk Hpks]%Forall_cons_1 Hlen. destruct (Hecho Hpk ltac:(lia)) as [-> Et].
  destruct (Hp Hpks) as [Hc He]; [rewrite Et, length_app; cbn; lia|].
  rewrite He, Et. rewrite Hc, (Ho [k]) by done. by rewrite <- !app_assoc.
Qed.

(** ** The answer

    What the loop does with a submitted line. *)
Definition reply (r : option (Res Outcome)) : Cmd B Loop :=
  match r with
  | Some (ROk o) => execute arch L spin regs o
  | Some (RErr e) => say arch spin (bytes "ERR ") ;; say arch spin (error_text e)
  | Some NoFuel => crash
  | None => mret tt
  end ;;
  say arch spin prompt ;;
  mret {| lp_state := Idle; lp_pending := None |}.

Definition answer (text : list Z) : Cmd B Loop :=
  w ← get_world;
  let '(r, (c, m)) := compile arch (w_comp w) (w_m w) text in
  modify (fun w => set_comp c (set_m m w)) ;;
  reply r.

Lemma turn_evaluate p w text : line_rep (w_line w) text ->
  turn arch L spin regs {| lp_state := Evaluating; lp_pending := p |} w =
    (let '(r, (c, m)) := compile arch (w_comp w) (w_m w) text in
     Done ({| lp_state := Printing; lp_pending := r |},
           set_comp c (set_m m (set_line (set_line_len 0 (w_line w)) w)))).
Proof.
  intros (_ & _ & ->). unfold turn. cbn [lp_state]. unfold mbind, cmd_bind, get_world, take_line, modify.
  by destruct (compile arch (w_comp w) (w_m w) _) as [r [c m]].
Qed.

Lemma turn_reply r w : turn arch L spin regs {| lp_state := Printing; lp_pending := r |} w = reply r w.
Proof. done. Qed.

Lemma turns_answer p w text : line_rep (w_line w) text ->
  turns arch L spin regs 2 {| lp_state := Evaluating; lp_pending := p |} w =
    answer text (set_line (set_line_len 0 (w_line w)) w).
Proof.
  intros Hr. rewrite turns_S. unfold mbind, cmd_bind. rewrite (turn_evaluate p w text Hr).
  unfold answer, mbind, cmd_bind, get_world, modify. cbn [w_comp w_m set_line].
  destruct (compile arch (w_comp w) (w_m w) text) as [r [c m]]. cbn [turns]. unfold mbind, cmd_bind. rewrite turn_reply.
  change (set_m m {| w_m := _ |}) with (set_m m (set_line (set_line_len 0 (w_line w)) w)).
  by destruct (reply r _) as [[]| |].
Qed.

Lemma line_answered (w : World B) (l : Loop) (ks rest : list Z) (enter : Z) :
  reading l -> line_rep (w_line w) [] -> Forall (fun k => is_enter k = false) ks -> is_enter enter = true ->
  input_of w = ks ++ enter :: rest ->
  let text := snd (edit_lines (map key_of ks) []) in
  exists w1,
    turns arch L spin regs (length ks + 3) l w = answer text w1 /\
    typed_to w w1 [] /\ (rest <> [] -> input_of w1 = rest) /\
    (Forall printable ks -> (length ks <= LINE_MAX)%nat ->
       console_of w1 = console_of w ++ ks ++ CRLF /\ text = ks).
Proof.
  intros Hl Hr Hks He Hi. cbv zeta.
  destruct (turns_keys 3 ks l w [] (enter :: rest) Hl Hr Hks Hi) as (l' & Hl' & E & Ht & Hin & Hp); [done|].
  set (w0 := keys_world ks w) in *. set (text := snd (edit_lines (map key_of ks) [])) in *.
  assert (feed enter (w_line w0) = (Evaluating, w_line w0, CRLF)) as Ef.
  { unfold is_enter in He. unfold feed. destruct (Z.eqb_spec enter 9) as [->|]; [done|]. by rewrite He. }
  assert (turn arch L spin regs l' w0 =
    Done ({| lp_state := Evaluating; lp_pending := lp_pending l' |}, key_world enter w0)) as E1
    by (rewrite (turn_key l' enter rest) by done; by rewrite Ef).
  assert (key_world enter w0 = printed CRLF (taken w0)) as Ek.
  { unfold key_world. rewrite Ef. by destruct w0. }
  exists (set_line (set_line_len 0 (w_line w0)) (key_world enter w0)). rewrite E. split_and!.
  - rewrite turns_S. unfold mbind, cmd_bind. rewrite E1, (turns_answer _ _ text) by (rewrite Ek; apply Ht).
    by rewrite Ek.
  - destruct Ht. rewrite Ek. constructor; try done; [by eapply line_rep_clear|].
    eapply ts_trans; [exact ty_bus0|]. eapply ts_trans; [apply ts_take, ts_refl|apply ts_print].
  - intros Hrest. change (input_of (key_world enter w0) = rest). rewrite Ek.
    assert (input_of (taken w0) = rest) as Et by (unfold input_of, taken, on_bus in *; cbn; rewrite t_take_in; by rewrite Hin).
    rewrite input_printed; by rewrite Et.
  - intros Hpr Hlen. destruct (Hp Hpr) as [Hc Htext]; [cbn; lia|]. split; [|done].
    change (console_of (key_world enter w0) = console_of w ++ ks ++ CRLF). rewrite Ek, console_printed.
    change (console_of (taken w0)) with (t_out (t_take (m_bus (w_m w0)))). rewrite t_take_out.
    change (t_out (m_bus (w_m w0))) with (console_of w0). by rewrite Hc, <- app_assoc.
Qed.

(** C16. The prompt answers. On either target, with any terminal: when the loop
    waits for input and the keys [ks] and a carriage return or newline have been
    typed into an empty line, then after [length ks + 3] rounds the loop has
    compiled exactly the text those keys edit and executed the outcome or
    printed the error, and is printing the next prompt; until the answer starts,
    nothing but the line, the terminal and the loop state has changed, the line
    is empty again, and keys that are a printable text of at most 128 bytes are
    echoed as they are, followed by a line end. *)
Theorem typed_line_answered (w : World B) (l : Loop) (ks rest : list Z) (enter : Z) :
  reading l -> line_rep (w_line w) [] -> Forall (fun k => is_enter k = false) ks -> is_enter enter = true ->
  input_of w = ks ++ enter :: rest ->
  let text := snd (edit_lines (map key_of ks) []) in
  exists w1,
    turns arch L spin regs (length ks + 3) l w = answer text w1 /\
    typed_to w w1 [] /\ (rest <> [] -> input_of w1 = rest) /\
    (Forall printable ks -> (length ks <= LINE_MAX)%nat ->
       console_of w1 = console_of w ++ ks ++ CRLF /\ text = ks).
Proof. apply line_answered. Qed.

(** ** A binding, from the keyboard to the screen *)
Definition idle : Loop := {| lp_state := Idle; lp_pending := None |}.

Lemma reply_bound nb v w :
  reply (Some (ROk (OBound nb v))) w = Done (idle, printed (as_slice nb ++ bytes " = " ++ write_value v ++ prompt) w).
Proof. unfold reply. cbn [execute]. unfold mbind, cmd_bind. by rewrite !say_printed, !printed_app. Qed.

Lemma reply_error e w :
  reply (Some (RErr e)) w = Done (idle, printed (bytes "ERR " ++ error_text e ++ prompt) w).
Proof. unfold reply, mbind, cmd_bind. by rewrite !say_printed, !printed_app. Qed.

Lemma printable_not_enter k : printable k -> is_enter k = false.
Proof. unfold printable, is_enter. intros Hk. destruct (Z.eqb_spec k 13), (Z.eqb_spec k 10); (done || lia). Qed.

Lemma answer_parsed text w c0 r c m : text <> [] -> w_comp w = c0 -> parse arch c0 (w_m w) text = (r, (c, m)) ->
  answer text w = reply (Some r) (set_comp c (set_m m w)).
Proof.
  intros Hne <- E. unfold answer, mbind, cmd_bind, get_world, modify, compile.
  destruct text; [done|]. by rewrite E.
Qed.

(** Expressions without [peek] read no memory. *)
Fixpoint no_peek (t : Term) : bool :=
  match t with
  | TLit _ | TVar _ => true
  | TPeek _ => false
  | TParen h ops => no_peek h && no_peek_ops ops
  end
with no_peek_ops (ops : Ops) : bool :=
  match ops with ONil => true | OCons _ t ops => no_peek t && no_peek_ops ops end.

Lemma den_no_peek env :
  (forall t, no_peek t = true -> exists r, forall m : Machine B, den arch env t m = (r, m)) /\
  (forall ops, no_peek_ops ops = true -> forall acc, exists r, forall m : Machine B, den_ops arch env acc ops m = (r, m)).
Proof.
  apply Term_Ops_ind; cbn [no_peek no_peek_ops den den_ops]; intros; try discriminate; try (by eexists).
  - apply andb_true_iff in H3 as [Hh Ho]. destruct (H1 Hh) as [[v|e] E1].
    + destruct (H2 Ho v) as [r Er]. exists r. intros m. by rewrite E1.
    + exists (Err e). intros m. by rewrite E1.
  - apply andb_true_iff in H3 as [Ht Ho]. destruct (H1 Ht) as [[v|e] E1].
    + destruct (op_meaning op acc v) as [a|e] eqn:Eo.
      * destruct (H2 Ho a) as [r Er]. exists r. intros m. by rewrite E1, Eo.
      * exists (Err e). intros m. by rewrite E1, Eo.
    + exists (Err e). intros m. by rewrite E1.
Qed.

(** A binding, end to end. With any terminal on either target, typing
    [let x = e;], where [e] reads no memory, and a line end takes the loop back
    to the prompt in [length + 3] rounds: the screen shows the line as typed,
    then [x = ] with the value of [e] in hexadecimal and decimal, then the
    prompt, and the name is bound to that value with every other binding kept;
    or, when [e] has no value or the table is full, it shows that error and the
    prompt, and the compiler is unchanged. *)
Theorem let_typed (w : World B) (l : Loop) (ks rest : list Z) (enter : Z) (x : list Z) (h : Term) (ops : Ops)
    (r : Result Z ParseError) :
  reading l -> line_rep (w_line w) [] -> Forall printable ks -> (length ks <= LINE_MAX)%nat -> is_enter enter = true ->
  input_of w = ks ++ enter :: rest ->
  lex_all (S (length ks)) (lexer_new ks) =
    Some ([KwLet; Identifier x; Operator (ch "=")] ++ (toks h ++ toks_ops ops) ++ [Semicolon]) ->
  wf_term h -> wf_ops ops -> (length x <= NAME_MAX)%nat -> wf_symtab (c_symbols (w_comp w)) ->
  (forall m : Machine B, den arch (env_of (w_comp w)) (TParen h ops) m = (r, m)) ->
  exists w', turns arch L spin regs (length ks + 3) l w = Done (idle, w') /\
    let shows s := console_of w' = console_of w ++ (ks ++ CRLF) ++ s ++ prompt in
    let fails e := shows (bytes "ERR " ++ error_text e) /\ w_comp w' = w_comp w in
    match r with
    | Ok v =>
        shows (x ++ bytes " = " ++ write_value v) /\
          sym_map (c_symbols (w_comp w')) = <[x := v]> (sym_map (c_symbols (w_comp w))) \/
        size (sym_map (c_symbols (w_comp w))) = SYMBOL_SLOTS /\ env_of (w_comp w) x = None /\ fails SymbolTableFull
    | Err e => fails e
    end.
Proof.
  intros Hl Hr Hpr Hlen He Hi Hlex Wh Wo Hx Hwf Hden.
  assert (Forall (fun k => is_enter k = false) ks) as Hks by (eapply Forall_impl; [apply printable_not_enter|exact Hpr]).
  destruct (line_answered w l ks rest enter Hl Hr Hks He Hi) as (w1 & -> & Ht & _ & Ho).
  destruct (Ho Hpr Hlen) as [Hc ->]. clear Ho.
  assert (ks <> []) as Hne by (intros ->; discriminate Hlex).
  destruct (let_line arch (w_comp w1) (w_m w1) ks x h ops Hlex Wh Wo Hx) as (nb & Hnb & Wnb & Hp).
  rewrite (ty_comp _ _ _ Ht), den_env, Hden in Hp by done.
  assert (forall t c, console_of (printed (t ++ prompt) (set_comp c (set_m (w_m w1) w1))) =
    console_of w ++ (ks ++ CRLF) ++ t ++ prompt) as Hshow
    by (intros t c; rewrite console_printed; change (console_of (set_comp _ _)) with (console_of w1); by rewrite Hc, <- !app_assoc).
  assert (forall e, parse arch (w_comp w) (w_m w1) ks = (RErr e, (w_comp w, w_m w1)) -> exists w',
    answer ks w1 = Done (idle, w') /\
    console_of w' = console_of w ++ (ks ++ CRLF) ++ (bytes "ERR " ++ error_text e) ++ prompt /\ w_comp w' = w_comp w) as Hfail.
  { intros e E. rewrite (answer_parsed ks w1 _ _ _ _ Hne (ty_comp _ _ _ Ht) E), reply_error, app_assoc. eexists. split; [reflexivity|]. by rewrite Hshow. }
  destruct r as [v|e]; [|by apply Hfail].
  pose proof (insert_symbol_map (c_symbols (w_comp w)) nb v Hwf Wnb) as Hs. rewrite Hnb in Hs.
  destruct (insert_symbol (c_symbols (w_comp w)) nb v) as [syms|e].
  - rewrite (answer_parsed ks w1 _ _ _ _ Hne (ty_comp _ _ _ Ht) Hp), reply_bound, Hnb. eexists. split; [reflexivity|].
    left. split; [|apply Hs]. by rewrite !(app_assoc x), !(app_assoc (x ++ _)), Hshow, <- !app_assoc.
  - destruct Hs as (-> & Hn & Hsz). destruct (Hfail _ Hp) as (w' & E & Hsh). exists w'. split; [done|]. by right.
Qed.

(** ** A write, from the keyboard to the bus *)
Lemma granted_pokes a v (m : Machine B) : check_access arch (m_regs m) a = Ok tt -> fst (enforced_poke_u32 arch a v m) = Ok tt.
Proof.
  unfold check_access, enforced_poke_u32. destruct (is_superuser_active (m_regs m)); [done|].
  destruct (addr_to_cap_id arch a) as [c|]; [|done]. by destruct (is_claimed (m_regs m) (cap_val c)).
Qed.

Lemma reply_poke a v w : check_access arch (m_regs (w_m w)) a = Ok tt ->
  reply (Some (ROk (OEnforcedPoke a v))) w =
    Done (idle, printed (bytes "OK" ++ CRLF ++ prompt) (set_m (snd (enforced_poke_u32 arch a v (w_m w))) w)).
Proof.
  intros Hg%(granted_pokes a v). unfold reply. cbn [execute]. unfold mbind, cmd_bind, on_machine.
  destruct (enforced_poke_u32 arch a v (w_m w)) as [r m]. cbn [fst snd] in *. subst r. cbn [access_result].
  unfold say_line. by rewrite !say_printed, <- printed_app, <- app_assoc.
Qed.

(** What [poke t e;] answers and how it leaves the machine: the address and then
    the value are evaluated, their own memory reads unchecked, an error of
    either ends the command; then the registry is asked, and the answer is E001
    or one guarded write. *)
Definition poke_meaning (env : list Z -> option Z) (t e : Term) (m : Machine B) : list Z * Machine B :=
  match den arch env t m with
  | (Err err, m1) => (bytes "ERR " ++ error_text err, m1)
  | (Ok a, m1) =>
      match den arch env e m1 with
      | (Err err, m2) => (bytes "ERR " ++ error_text err, m2)
      | (Ok v, m2) =>
          match check_access arch (m_regs m2) a with
          | Err _ => (bytes "ERR " ++ error_text CapViolation, m2)
          | Ok _ => (bytes "OK" ++ CRLF, snd (enforced_poke_u32 arch a v m2))
          end
      end
  end.

(** C15. A write, end to end. With any terminal on either target, typing a
    syntactically correct [poke t e;] takes the loop back to the prompt in
    [length + 3] rounds with the compiler unchanged. Up to the end of the line
    only the terminal's transfers have happened and the screen shows the line;
    from there the command does to the machine exactly what [poke_meaning]
    says: the operands are evaluated (the reads of a [peek] in them are made,
    unchecked, also when the command is then refused), an operand without a
    value is answered with its error, a refused address with E001 and no
    write, a granted one with exactly one guarded write of the value to the
    address and OK. After that only the answer and the prompt are sent. *)
Theorem poke_typed (w : World B) (l : Loop) (ks rest : list Z) (enter : Z) (t h : Term) (ops : Ops) :
  reading l -> line_rep (w_line w) [] -> Forall printable ks -> (length ks <= LINE_MAX)%nat -> is_enter enter = true ->
  input_of w = ks ++ enter :: rest ->
  lex_all (S (length ks)) (lexer_new ks) =
    Some (Identifier (bytes "poke") :: toks t ++ (toks h ++ toks_ops ops) ++ [Semicolon]) ->
  wf_term t -> wf_term h -> wf_ops ops -> wf_symtab (c_symbols (w_comp w)) ->
  exists m1 w', turns arch L spin regs (length ks + 3) l w = Done (idle, w') /\ w_comp w' = w_comp w /\
    m_regs m1 = m_regs (w_m w) /\ m_audit m1 = m_audit (w_m w) /\ term_steps (m_bus (w_m w)) (m_bus m1) /\
    t_out (m_bus m1) = console_of w ++ ks ++ CRLF /\
    let (answer, m2) := poke_meaning (env_of (w_comp w)) t (TParen h ops) m1 in
    m_regs (w_m w') = m_regs m2 /\ m_audit (w_m w') = m_audit m2 /\ term_steps (m_bus m2) (m_bus (w_m w')) /\
    console_of w' = t_out (m_bus m2) ++ answer ++ prompt.
Proof.
  intros Hl Hr Hpr Hlen He Hi Hlex Wt Wh Wo Hwf.
  assert (Forall (fun k => is_enter k = false) ks) as Hks by (eapply Forall_impl; [apply printable_not_enter|exact Hpr]).
  destruct (line_answered w l ks rest enter Hl Hr Hks He Hi) as (w1 & -> & Ht & _ & Ho).
  destruct (Ho Hpr Hlen) as [Hc ->]. clear Ho.
  assert (ks <> []) as Hne by (intros ->; discriminate Hlex).
  assert (forall p m2 text mf, parse arch (w_comp w) (w_m w1) ks = (p, (w_comp w, m2)) ->
    reply (Some p) (set_comp (w_comp w) (set_m m2 w1)) = Done (idle, printed (text ++ prompt) (set_comp (w_comp w) (set_m mf w1))) ->
    exists w', answer ks w1 = Done (idle, w') /\ w_comp w' = w_comp w /\ m_regs (w_m w') = m_regs mf /\
      m_audit (w_m w') = m_audit mf /\ term_steps (m_bus mf) (m_bus (w_m w')) /\
      console_of w' = t_out (m_bus mf) ++ text ++ prompt) as Hend.
  { intros p m2 text mf Hp Ha. rewrite (answer_parsed ks w1 _ _ _ _ Hne (ty_comp _ _ _ Ht) Hp), Ha. eexists.
    split; [reflexivity|]. split_and!; try done; [apply ts_print|apply console_printed]. }
  assert (forall e m2, parse arch (w_comp w) (w_m w1) ks = (RErr e, (w_comp w, m2)) -> exists w',
    answer ks w1 = Done (idle, w') /\ w_comp w' = w_comp w /\ m_regs (w_m w') = m_regs m2 /\
      m_audit (w_m w') = m_audit m2 /\ term_steps (m_bus m2) (m_bus (w_m w')) /\
      console_of w' = t_out (m_bus m2) ++ (bytes "ERR " ++ error_text e) ++ prompt) as Hfail.
  { intros e m2 Hp. eapply Hend; [exact Hp|]. by rewrite reply_error, <- app_assoc. }
  pose proof (poke_line arch (w_comp w) (w_m w1) ks t h ops Hlex Wt Wh Wo) as Hp. rewrite den_env in Hp by done.
  exists (w_m w1). unfold poke_meaning.
  assert (forall P : World B -> Prop, (exists w', answer ks w1 = Done (idle, w') /\ w_comp w' = w_comp w /\ P w') ->
    exists w', answer ks w1 = Done (idle, w') /\ w_comp w' = w_comp w /\
      m_regs (w_m w1) = m_regs (w_m w) /\ m_audit (w_m w1) = m_audit (w_m w) /\
      term_steps (m_bus (w_m w)) (m_bus (w_m w1)) /\ t_out (m_bus (w_m w1)) = console_of w ++ ks ++ CRLF /\ P w') as Hwrap.
  { intros P (w' & E & Ec & HP). exists w'. split_and!; try apply Ht; done. }
  apply Hwrap. destruct (den arch (env_of (w_comp w)) t (w_m w1)) as [[a|e] m1]; [|by apply Hfail].
  rewrite den_env in Hp by done.
  destruct (den arch (env_of (w_comp w)) (TParen h ops) m1) as [[v|e] m2]; [|by apply Hfail].
  destruct (check_access arch (m_regs m2) a) as [[]|cap] eqn:Ea; [|by apply Hfail].
  eapply Hend; [exact Hp|]. rewrite reply_poke by done. by rewrite <- app_assoc.
Qed.
End Lines.

(** ** The console of the concrete sessions *)
Lemma tty_sr_ready t : tty_read ARM_SR t = (if tty_ready t then Z.lor SR_TXE SR_RXNE else SR_TXE, t).
Proof. done. Qed.

Definition tty_pending (t : Tty) : list Z :=
  if (tty_open t <=? length (tty_out t))%nat then map (fun c => Z.land (wrap32 c) 0xFF) (tty_in t) else [].

#[export] Instance tty_terminal (n : nat) : Terminal Arm (S n) Tty.
Proof.
  refine {| t_in := tty_pending; t_out t := rev (tty_out t); t_put := tty_write ARM_DR; t_take t := snd (tty_read ARM_DR t) |}.
  - intros c [r a t]. unfold put_byte. cbn [wait_txe]. unfold peek_u32. change (reg_slot Arm ARM_SR) with (@None nat).
    cbn [bus_read tty_bus m_bus]. rewrite tty_sr_ready. by destruct (tty_ready t).
  - intros c rest [r a t] Hi. cbn [m_bus] in *. unfold tty_pending in Hi.
    destruct (tty_open t <=? length (tty_out t))%nat eqn:Eo; [|done]. destruct (tty_in t) as [|c' ins] eqn:Ei; [done|].
    injection Hi as Hc Hrest. unfold poll_get_byte, peek_u32. change (reg_slot Arm ARM_SR) with (@None nat).
    change (reg_slot Arm ARM_DR) with (@None nat). cbn [bus_read tty_bus m_bus].
    rewrite tty_sr_ready. assert (tty_ready t = true) as -> by (unfold tty_ready; by rewrite Eo, Ei).
    cbn [set_bus m_bus m_regs m_audit]. change (Z.land (Z.lor SR_TXE SR_RXNE) SR_RXNE =? 0) with false. cbn [negb].
    change (tty_read ARM_DR t) with (wrap32 (hd 0 (tty_in t)),
      {| tty_mem := tty_mem t; tty_in := tl (tty_in t); tty_out := tty_out t; tty_open := tty_open t |}).
    rewrite Ei. cbn [hd tl snd]. by rewrite Hc.
  - intros c t. done.
  - intros c t. unfold tty_pending. change (tty_in (tty_write ARM_DR c t)) with (tty_in t).
    change (tty_out (tty_write ARM_DR c t)) with (c :: tty_out t). change (tty_open (tty_write ARM_DR c t)) with (tty_open t).
    destruct (Nat.leb_spec (tty_open t) (length (tty_out t))); [|done]. intros _. cbn [length].
    destruct (Nat.leb_spec (tty_open t) (S (length (tty_out t)))); [done|lia].
  - intros t. unfold tty_pending. change (tty_in (snd (tty_read ARM_DR t))) with (tl (tty_in t)).
    change (tty_out (snd (tty_read ARM_DR t))) with (tty_out t). change (tty_open (snd (tty_read ARM_DR t))) with (tty_open t).
    destruct (_ <=? _)%nat; [|done]. by destruct (tty_in t).
  - done.
Defined.

(** ** Witnesses *)
Definition at_prompt (input : list Z) : World Tty :=
  {| w_m := boot_machine {| tty_mem := ∅; tty_in := input; tty_out := []; tty_open := 0 |};
     w_comp := compiler_new; w_line := line_new; w_buf := replicate 4096 0; w_vm := vm_new; w_pool := replicate 4 0 |}.

Lemma line_new_rep : line_rep line_new [].
Proof. split; [apply length_replicate|]. split; [cbn; unfold LINE_MAX; lia|done]. Qed.

(** A mistyped and corrected line. *)
Definition corrected : list Z := bytes "peel" ++ [8] ++ bytes "k 8;".

Lemma corrected_text : snd (edit_lines (map key_of corrected) []) = bytes "peek 8;".
Proof. reflexivity. Qed.

Lemma typed_line_answered_witness :
  exists w1, turns Arm demo_link 4 zero_regs (length corrected + 3) idle (at_prompt (corrected ++ [13])) =
    answer Arm demo_link 4 zero_regs (bytes "peek 8;") w1.
Proof.
  destruct (typed_line_answered Arm demo_link 4 zero_regs (at_prompt (corrected ++ [13])) idle corrected [] 13)
    as (w1 & E & _).
  - by left.
  - apply line_new_rep.
  - by apply (bool_decide_unpack _).
  - reflexivity.
  - reflexivity.
  - exists w1. rewrite corrected_text in E. exact E.
Defined.

Definition binding : list Z := bytes "let x = 6 * 7;".

Lemma let_typed_witness :
  exists w', turns Arm demo_link 4 zero_regs (length binding + 3) idle (at_prompt (binding ++ 13 :: bytes "x;")) = Done (idle, w') /\
    (console_of Arm 4 w' = binding ++ CRLF ++ bytes "x = 0x0000002A (42)" ++ CRLF ++ bytes "holy> " /\
       sym_map (c_symbols (w_comp w')) = <[bytes "x" := 42]> (sym_map (c_symbols (w_comp (at_prompt (binding ++ 13 :: bytes "x;"))))) \/
     size (sym_map (c_symbols (w_comp (at_prompt (binding ++ 13 :: bytes "x;"))))) = SYMBOL_SLOTS).
Proof.
  destruct (let_typed Arm demo_link 4 zero_regs (at_prompt (binding ++ 13 :: bytes "x;")) idle
    binding (bytes "x;") 13 (bytes "x") (TLit 6) (OCons (ch "*") (TLit 7) ONil) (Ok 42)) as (w' & E & Hm).
  - by left.
  - apply line_new_rep.
  - unfold printable. repeat constructor; vm_compute; congruence.
  - apply Nat.leb_le. reflexivity.
  - reflexivity.
  - reflexivity.
  - vm_compute. reflexivity.
  - exact Logic.I.
  - repeat split.
  - apply Nat.leb_le. reflexivity.
  - apply symbols_new_wf.
  - reflexivity.
  - exists w'. split; [exact E|]. cbv zeta in Hm. destruct Hm as [[Hs Hb]|(Hsz & _)]; [left|right; exact Hsz].
    split; [|exact Hb]. rewrite Hs. reflexivity.
Defined.

Definition refused_poke : list Z := bytes "poke 0x40020014 1;".
Definition granted_poke : list Z := bytes "poke 0x20004000 2 + 3;".

(** Refused at a GPIO register; performed in SRAM. *)
Lemma poke_typed_witness :
  (exists w', turns Arm demo_link 4 zero_regs (length refused_poke + 3) idle (at_prompt (refused_poke ++ [13])) = Done (idle, w') /\
    console_of Arm 4 w' = refused_poke ++ CRLF ++
      bytes "ERR E001: CAPABILITY_VIOLATION - Peripheral token not claimed" ++ [10] ++ bytes "holy> ") /\
  (exists m1 w', turns Arm demo_link 4 zero_regs (length granted_poke + 3) idle (at_prompt (granted_poke ++ [13])) = Done (idle, w') /\
    term_steps Arm 4 (m_bus (snd (enforced_poke_u32 Arm 0x20004000 5 m1))) (m_bus (w_m w')) /\
    m_regs m1 = REGISTRY_INIT).
Proof.
  split.
  - destruct (poke_typed Arm demo_link 4 zero_regs (at_prompt (refused_poke ++ [13])) idle refused_poke [] 13
      (TLit 0x40020014) (TLit 1) ONil) as (m1 & w' & E & _ & Hr & _ & _ & Ho & Hm).
    + by left.
    + apply line_new_rep.
    + unfold printable. repeat constructor; vm_compute; congruence.
    + apply Nat.leb_le. reflexivity.
    + reflexivity.
    + reflexivity.
    + vm_compute. reflexivity.
    + exact Logic.I.
    + exact Logic.I.
    + exact Logic.I.
    + apply symbols_new_wf.
    + exists w'. split; [exact E|]. unfold poke_meaning in Hm. cbn [den den_ops] in Hm. rewrite Hr in Hm.
      change (check_access Arm (m_regs (w_m (at_prompt (refused_poke ++ [13])))) 0x40020014) with (@Err unit CapId GpioA) in Hm.
      destruct Hm as (_ & _ & _ & ->). rewrite Ho. reflexivity.
  - destruct (poke_typed Arm demo_link 4 zero_regs (at_prompt (granted_poke ++ [13])) idle granted_poke [] 13
      (TLit 0x20004000) (TLit 2) (OCons (ch "+") (TLit 3) ONil)) as (m1 & w' & E & _ & Hr & _ & _ & Ho & Hm).
    + by left.
    + apply line_new_rep.
    + unfold printable. repeat constructor; vm_compute; congruence.
    + apply Nat.leb_le. reflexivity.
    + reflexivity.
    + reflexivity.
    + vm_compute. reflexivity.
    + exact Logic.I.
    + exact Logic.I.
    + repeat split.
    + apply symbols_new_wf.
    + exists m1, w'. split; [exact E|]. split; [|exact Hr]. unfold poke_meaning in Hm.
      change (den Arm _ (TLit 0x20004000) m1) with (@Ok Z ParseError 0x20004000, m1) in Hm. cbv iota beta in Hm.
      change (den Arm _ (TParen _ _) m1) with (@Ok Z ParseError 5, m1) in Hm. cbv iota beta in Hm. rewrite Hr in Hm.
      change (check_access Arm (m_regs (w_m (at_prompt (granted_poke ++ [13])))) 0x20004000) with (@Ok unit CapId tt) in Hm.
      apply Hm.
Defined.
