(* ===== verification/StoreSession.v ===== *)
(** * StoreSession: the store commands as a table of programs

    On a byte-addressed store window the commands [store] and [load] behave as
    on a table of eight optional programs, each a name and a compiled body.
    [store_rep] relates the table to the bytes of the window; a store in this
    relation is one that [load] may trust. [table_step] describes the commands
    as they are, with the prefix comparison of [load]; [dict_step] is the
    specification, which looks a program up under its own name, and the two
    agree as long as no name in use begins with another. *)
From S2P Require Import Prelude Registry AuditRing Memory Lexer SymTab Exec Parser ParserSafe ParserSem Isa Emitter.
From S2P Require Import EmitterSem Native Tokens Uart Pool Pstore Drivers Interrupt Multitask Repl World Bench.
From S2P Require Import Session SessionSafe Console.
Local Open Scope Z_scope.

(** ** The specification *)
Abbreviation Program := (list Z * list Z)%type.
Abbreviation Table := (list (option Program)).

Inductive StoreCmd :=
| Store (name : NameBuf)
| Load (name : NameBuf)
| Recompiled (c : Compiler).

Definition is_free (ps : Table) (i : nat) : bool := match ps !! i with Some None => true | _ => false end.

(** A stored name answers to each of its prefixes, padded with zeros. *)
Definition answers_to (name : list Z) (p : Program) : bool :=
  bool_decide (take (length name) (copy_prefix (replicate 16 0) (fst p)) = name).

Definition slot_answers (ps : Table) (name : list Z) (i : nat) : bool :=
  match ps !! i with Some (Some p) => answers_to name p | _ => false end.

Definition program_at (ps : Table) (i : nat) : Program := default ([], []) (mjoin (ps !! i)).

Definition listing (c : Compiler) : list Z :=
  match fn_names_iter c with
  | [] => bytes "(no fns)" ++ CRLF
  | names => concat (map (fun p => take (snd p) (fst p) ++ CRLF) names)
  end.

(** A command answers with text and changes the table or the compiler. *)
Definition table_step (o : StoreCmd) (s : Table * Compiler) : list Z * (Table * Compiler) :=
  let (ps, c) := s in
  match o with
  | Store n =>
      match find_fn c (as_slice n) with
      | Some idx =>
          match List.find (is_free ps) (seq 0 MAX_PROGRAMS) with
          | Some i => (bytes "STORED" ++ CRLF, (<[i := Some (as_slice n, fn_body c idx)]> ps, c))
          | None => (bytes "STORE FULL" ++ CRLF, (ps, c))
          end
      | None => (bytes "ERR UNKNOWN FN" ++ CRLF, (ps, c))
      end
  | Load n =>
      match List.find (slot_answers ps (as_slice n)) (seq 0 MAX_PROGRAMS) with
      | Some i =>
          let (r, c') := import_fn c (as_slice n) (snd (program_at ps i)) in
          (match r with Ok _ => bytes "LOADED" | Err _ => bytes "ERR IMPORT FAILED" end ++ CRLF, (ps, c'))
      | None => (bytes "NOT FOUND" ++ CRLF, (ps, c))
      end
  | Recompiled c' => ([], (ps, c'))
  end.

(** The specification: a program is found under its own name. *)
Definition slot_named (ps : Table) (name : list Z) (i : nat) : bool :=
  match ps !! i with Some (Some p) => bool_decide (fst p = name) | _ => false end.

Definition dict_step (o : StoreCmd) (s : Table * Compiler) : list Z * (Table * Compiler) :=
  let (ps, c) := s in
  match o with
  | Store n =>
      match find_fn c (as_slice n), List.find (is_free ps) (seq 0 MAX_PROGRAMS) with
      | Some idx, Some i => (bytes "STORED" ++ CRLF, (<[i := Some (as_slice n, fn_body c idx)]> ps, c))
      | Some _, None => (bytes "STORE FULL" ++ CRLF, (ps, c))
      | None, _ => (bytes "ERR UNKNOWN FN" ++ CRLF, (ps, c))
      end
  | Load n =>
      match List.find (slot_named ps (as_slice n)) (seq 0 MAX_PROGRAMS) with
      | Some i =>
          let (r, c') := import_fn c (as_slice n) (snd (program_at ps i)) in
          (match r with Ok _ => bytes "LOADED" | Err _ => bytes "ERR IMPORT FAILED" end ++ CRLF, (ps, c'))
      | None => (bytes "NOT FOUND" ++ CRLF, (ps, c))
      end
  | Recompiled c' => ([], (ps, c'))
  end.

(** ** Names none of which begins with another *)
Definition prefix_free (names : list (list Z)) : Prop :=
  forall a b, a ∈ names -> b ∈ names -> a `prefix_of` b -> a = b.

Definition cmd_in (names : list (list Z)) (o : StoreCmd) : Prop :=
  match o with Store n | Load n => as_slice n ∈ names | Recompiled _ => True end.

Definition table_in (names : list (list Z)) (ps : Table) : Prop :=
  forall i p, ps !! i = Some (Some p) -> fst p ∈ names.

(** Identifiers have no zero byte: a stored name answers to its prefixes and to
    nothing else. *)
Lemma ident_nonzero id : ident id -> 0 ∉ id.
Proof. intros Hid Hin. unfold ident in Hid. rewrite list.Forall_forall in Hid. by specialize (Hid 0 Hin). Qed.

Lemma answers_prefix name p : ident name -> answers_to name p = true -> name `prefix_of` fst p.
Proof.
  intros Hid Ha. unfold answers_to in Ha. apply bool_decide_eq_true_1 in Ha. unfold copy_prefix in Ha.
  destruct (decide (length name <= length (fst p))%nat) as [Hle|Hgt].
  - rewrite take_app_le in Ha by done. exists (drop (length name) (fst p)). by rewrite <- Ha at 1; rewrite take_drop.
  - exfalso. rewrite take_app_ge, drop_replicate, take_replicate in Ha by lia.
    set (k := (_ `min` _)%nat) in Ha. assert (0 < k)%nat.
    { apply (f_equal length) in Ha. rewrite length_app, length_replicate in Ha. lia. }
    apply (ident_nonzero name Hid). rewrite <- Ha. destruct k as [|k]; [lia|].
    apply elem_of_app. right. left.
Qed.

Lemma find_ext {X} (f g : X -> bool) l : (forall x, f x = g x) -> List.find f l = List.find g l.
Proof. intros E. induction l as [|x l IH]; cbn; [done|]. by rewrite E, IH. Qed.

Lemma slot_answers_named names ps name i : prefix_free names -> table_in names ps -> name ∈ names -> ident name ->
  slot_answers ps name i = slot_named ps name i.
Proof.
  intros Hpf Hps Hn Hid. unfold slot_answers, slot_named. destruct (ps !! i) as [[p|]|] eqn:Ep; [|done..].
  destruct (answers_to name p) eqn:Ea; symmetry.
  - apply bool_decide_eq_true_2. symmetry. apply Hpf; [done|by eapply Hps|by apply answers_prefix].
  - apply bool_decide_eq_false_2. intros <-. unfold answers_to in Ea. by rewrite take_copy_prefix, bool_decide_true in Ea.
Qed.

Lemma table_dict names o ps c : prefix_free names -> table_in names ps -> cmd_in names o ->
  match o with Store n | Load n => good_name n | Recompiled _ => True end ->
  table_step o (ps, c) = dict_step o (ps, c) /\ table_in names (fst (snd (dict_step o (ps, c)))).
Proof.
  intros Hpf Hps Hin Hn. destruct o as [n|n|c']; cbn [table_step dict_step cmd_in] in *; [| |done].
  - destruct (find_fn c (as_slice n)) as [idx|]; [|done]. destruct (List.find (is_free ps) _) as [i|]; [|done].
    split; [done|]. intros k p Hk. cbn [fst snd] in Hk. apply list_lookup_insert_Some in Hk as [(_ & [= <-] & _)|[_ Hk]]; [done|by eapply Hps].
  - erewrite find_ext by (intros i; eapply slot_answers_named; [exact Hpf|done|done|apply Hn]).
    destruct (List.find _ _) as [i|]; [|done]. by destruct (import_fn _ _ _).
Qed.

Lemma run_table_dict names os ps c : prefix_free names -> table_in names ps -> Forall (cmd_in names) os ->
  Forall (fun o => match o with Store n | Load n => good_name n | Recompiled _ => True end) os ->
  Prelude.run table_step os (ps, c) = Prelude.run dict_step os (ps, c).
Proof.
  intros Hpf Hps Hin Hn. revert ps c Hps. induction os as [|o os IH]; intros ps c Hps; cbn [Prelude.run]; [done|].
  apply Forall_cons_1 in Hin as [Ho Hin], Hn as [Hg Hn].
  destruct (table_dict names o ps c Hpf Hps Ho Hg) as [-> Hps'].
  destruct (dict_step o (ps, c)) as [out [ps1 c1]]. by rewrite IH.
Qed.

Section Store.
Context `{PrimAddrs} {B : Type} `{Bus B} (L : Link) (spin : nat) (regs : Z -> Z).
Context `{!Terminal Arm spin B}.
Local Abbreviation base := (lk_pstore_base L).
Local Abbreviation top := (lk_pstore_top L).
Local Abbreviation hi := (lk_pstore_base L + 8 * SLOT_STRIDE + 3).
Hypothesis Hbase : 0 < base < top.
Hypothesis Htop : base + 8 * SLOT_STRIDE + 3 < M32.
Hypothesis Hclear : clear_of_registry Arm base hi.
Context `{!ByteRam B base hi}.
(** Printing leaves the store alone, storing leaves the screen alone. *)
Hypothesis Hput : forall c (b : B) a, rb_byte (lo := base) (hi := hi) (t_put c b) a = rb_byte (lo := base) (hi := hi) b a.
Hypothesis Hout : forall a v (b : B), base <= a < hi -> t_out (bus_write a v b) = t_out b.

Local Abbreviation any := (fun _ => True).
Implicit Types (m : Machine B) (w : World B).

(** Compiled code, short enough for slots not to meet. *)
Definition compiled (ws : list Z) : Prop :=
  (length ws <= FN_BODY_WORDS)%nat /\ exists ss, ws = code ss /\ Forall (stmt_ok any) ss.

Definition slot_empty m (i : nat) : Prop :=
  exists v, u32 v /\ holds base hi m (slot_start base i) v /\ (v = 0 \/ 16 < v).

Definition slot_rep m (i : nat) (p : option Program) : Prop :=
  match p with
  | None => slot_empty m i
  | Some (name, ws) => slot_holds base m i name ws /\ storable name ws /\ compiled ws
  end.

Definition store_rep m (ps : Table) : Prop :=
  length ps = MAX_PROGRAMS /\ forall i p, ps !! i = Some p -> slot_rep m i p.

(** ** Single slots *)
Lemma compiled_u32 ws : compiled ws -> Forall u32 ws.
Proof. intros (_ & ss & -> & Hs). by eapply code_u32. Qed.

Lemma load_empty m i no wo : (i < MAX_PROGRAMS)%nat -> slot_empty m i ->
  Pstore.load Arm base top i no wo m = (Err NotFound, no, wo, m).
Proof.
  intros Hi (v & Hv & Hh & Hcase). destruct (slot_window base i Hi) as [Hlo Hhi].
  unfold Pstore.load. rewrite (slot_addr_some base top Hbase Htop) by done.
  rewrite (holds_peek Arm base hi Hclear m _ v) by (done || lia).
  destruct (Z.eqb_spec v 0), (Z.ltb_spec (Z.of_nat STORE_NAME_MAX) v); cbn [orb]; try done.
  unfold STORE_NAME_MAX in *. lia.
Qed.

Lemma slot_rep_load m i p no wo : (i < MAX_PROGRAMS)%nat -> slot_rep m i p -> length no = 16%nat ->
  Pstore.load Arm base top i no wo m =
    match p with
    | None => (Err NotFound, no, wo, m)
    | Some (name, ws) =>
        if (length wo <? length ws)%nat then (Err TooLarge, copy_prefix no name, wo, m)
        else (Ok (length ws), copy_prefix no name, copy_prefix wo ws, m)
    end.
Proof.
  intros Hi Hr Hno. destruct p as [[name ws]|]; [|by apply load_empty]. destruct Hr as (Hh & Hst & _).
  apply (load_held Arm base top Hbase Htop Hclear); [done..|]. destruct Hst as [Hn _ _ _]. unfold STORE_NAME_MAX in Hn. lia.
Qed.

(** The bytes a slot's state depends on. *)
Definition rep_words (p : option Program) : nat := match p with Some (_, ws) => length ws | None => 0 end.

Lemma slot_rep_frame m m' i p : (forall c, slot_bytes base i (rep_words p) c -> byte_at base hi m' c = byte_at base hi m c) ->
  slot_rep m i p -> slot_rep m' i p.
Proof.
  intros Hf Hr. destruct p as [[name ws]|].
  - destruct Hr as (Hh & Hst & Hc). split_and!; [|done..]. eapply slot_frame; [apply Hst|exact Hf|done].
  - destruct Hr as (v & Hv & Hh & Hcase). exists v. split_and!; [done| |done]. eapply holds_frame; [|exact Hh].
    intros c Hc. apply Hf. unfold slot_bytes. cbn [rep_words]. lia.
Qed.

Lemma store_rep_bus m m' ps : (forall c, byte_at base hi m' c = byte_at base hi m c) -> store_rep m ps -> store_rep m' ps.
Proof. intros Hb [Hl Hs]. split; [done|]. intros i p Hp. eapply slot_rep_frame; [|by apply Hs]. intros c _. apply Hb. Qed.

Lemma printed_bytes s w c : byte_at base hi (w_m (printed Arm spin s w)) c = byte_at base hi (w_m w) c.
Proof.
  unfold byte_at, printed, on_bus. cbn. generalize (m_bus (w_m w)) as b. induction s as [|k s IH]; intros b; cbn; [done|].
  by rewrite IH, Hput.
Qed.

Lemma printed_rep s w ps : store_rep (w_m w) ps -> store_rep (w_m (printed Arm spin s w)) ps.
Proof. apply store_rep_bus. intros c. apply printed_bytes. Qed.

(** Saving a compiled program into a slot. *)
Lemma save_rep m ps i name ws : store_rep m ps -> (i < MAX_PROGRAMS)%nat -> storable name ws -> compiled ws ->
  exists m', Pstore.save Arm base top i name ws m = (Ok tt, m') /\ store_rep m' (<[i := Some (name, ws)]> ps).
Proof.
  intros [Hl Hs] Hi Hst Hc.
  destruct (save_layout Arm base top Hbase Htop Hclear i name ws m Hi Hst) as (m' & E & Hh & Hf).
  exists m'. split; [done|]. split; [by rewrite length_insert|]. intros j p Hj.
  destruct (decide (i = j)) as [->|Hne].
  - rewrite list_lookup_insert_eq in Hj by lia. by simplify_eq.
  - rewrite list_lookup_insert_ne in Hj by done. pose proof (lookup_lt_Some _ _ _ Hj) as Hlt. rewrite Hl in Hlt.
    eapply slot_rep_frame; [|by apply Hs]. intros c Hcj. apply Hf.
    assert (rep_words p < SLOT_WORDS)%nat.
    { unfold rep_words, SLOT_WORDS. pose proof (Hs j p Hj) as Hp. destruct p as [[n' ws']|]; [|lia].
      destruct Hp as (_ & _ & [Hlen _]). unfold FN_BODY_WORDS in Hlen. lia. }
    destruct Hc as [Hlen _]. unfold FN_BODY_WORDS in Hlen.
    eapply (slot_bytes_disjoint base j i); [done|done|done| | |exact Hcj]; [done|unfold SLOT_WORDS; lia].
Qed.

Lemma save_screen m i name ws : (i < MAX_PROGRAMS)%nat ->
  t_out (m_bus (snd (Pstore.save Arm base top i name ws m))) = t_out (m_bus m).
Proof.
  intros Hi. destruct (slot_window base i Hi) as [Hlo Hhi]. unfold Pstore.save.
  rewrite (slot_addr_some base top Hbase Htop) by done. destruct (_ || _) eqn:El; [done|].
  apply orb_false_iff in El as [Hn Hw]. apply Nat.ltb_ge in Hn, Hw. unfold STORE_NAME_MAX, SLOT_WORDS in *. cbn [snd].
  set (a := slot_start base i) in *.
  assert (forall a v m, base <= a < hi -> t_out (m_bus (poke_u32 Arm a v m)) = t_out (m_bus m)) as Hp
    by (intros; unfold poke_u32; rewrite (clear_slot Arm base hi Hclear) by done; by apply Hout).
  assert (forall ws a m, base <= a -> a + 4 * Z.of_nat (length ws) <= hi ->
    t_out (m_bus (save_words Arm a ws m)) = t_out (m_bus m)) as Hws.
  { clear -Hp. induction ws as [|v ws IH]; intros a m H1 H2; [done|]. cbn [length save_words] in *.
    rewrite IH by lia. apply Hp. lia. }
  assert (forall bs a m, base <= a -> a + Z.of_nat (length bs) <= hi ->
    t_out (m_bus (save_bytes Arm a bs m)) = t_out (m_bus m)) as Hbs.
  { clear -Hp. induction bs as [|v bs IH]; intros a m H1 H2; [done|]. cbn [length save_bytes] in *.
    rewrite IH by lia. apply Hp. lia. }
  rewrite Hws, Hp, Hbs, Hp by lia. done.
Qed.

(** The store [load] may trust. *)
Lemma store_rep_valid m ps : store_rep m ps -> store_valid Arm L m.
Proof.
  intros [Hl Hs] i words Hi Hwl. destruct (lookup_lt_is_Some_2 ps i) as [p Hp]; [lia|].
  rewrite (slot_rep_load m i p) by (done || by apply Hs). pose proof (Hs i p Hp) as Hr.
  destruct p as [[name ws]|]; [|done]. destruct Hr as (_ & _ & (Hlen & ss & -> & Hss)). unfold FN_BODY_WORDS in Hlen.
  destruct (Nat.ltb_spec (length words) (length (code ss))); [done|]. split; [done|]. exists ss. by rewrite take_copy_prefix.
Qed.

(** ** Scanning the slots *)
Lemma program_at_some (ps : Table) i name ws : ps !! i = Some (Some (name, ws)) -> snd (program_at ps i) = ws.
Proof. unfold program_at. by intros ->. Qed.

Lemma on_machine_pure {A} (f : Machine B -> A * Machine B) w a : f (w_m w) = (a, w_m w) -> on_machine f w = Done (a, w).
Proof. unfold on_machine. intros ->. by destruct w. Qed.

Lemma free_slot_first slots ps w : store_rep (w_m w) ps -> Forall (fun i => (i < MAX_PROGRAMS)%nat) slots ->
  free_slot Arm L slots w = Done (List.find (is_free ps) slots, w).
Proof.
  intros [Hl Hs]. induction 1 as [|i slots Hi _ IH]; [done|]. cbn [free_slot List.find].
  destruct (lookup_lt_is_Some_2 ps i) as [p Hp]; [lia|].
  pose proof (slot_rep_load (w_m w) i p (replicate 16 0) [] Hi (Hs i p Hp) eq_refl) as El.
  unfold mbind, cmd_bind, is_free. rewrite Hp. destruct p as [[name ws]|].
  - destruct (length [] <? length ws)%nat; (erewrite on_machine_pure; [|cbv beta; rewrite El; reflexivity]); exact IH.
  - erewrite on_machine_pure; [|cbv beta; rewrite El; reflexivity]. done.
Qed.

(** What [load] does with the slot it finds. *)
Definition import_cmd (name ws : list Z) : Cmd B bool :=
  w ← get_world;
  let (res, c) := import_fn (w_comp w) name ws in
  modify (set_comp c) ;;
  say_line Arm spin (match res with Ok _ => bytes "LOADED" | Err _ => bytes "ERR IMPORT FAILED" end) ;;
  mret true.

Lemma load_from_first slots ps n buf w : store_rep (w_m w) ps -> good_name n -> length buf = 64%nat ->
  Forall (fun i => (i < MAX_PROGRAMS)%nat) slots ->
  load_from Arm L spin slots n buf w =
    match List.find (slot_answers ps (as_slice n)) slots with
    | Some i => import_cmd (as_slice n) (snd (program_at ps i)) w
    | None => Done (false, w)
    end.
Proof.
  intros [Hl Hs] [Hn _ _] Hb Hsl. revert buf Hb. induction Hsl as [|i slots Hi _ IH]; intros buf Hb; [done|].
  cbn [load_from List.find]. destruct (lookup_lt_is_Some_2 ps i) as [p Hp]; [lia|]. pose proof (Hs i p Hp) as Hr.
  pose proof (slot_rep_load (w_m w) i p (replicate 16 0) buf Hi Hr eq_refl) as El.
  unfold mbind at 1, cmd_bind at 1, slot_answers. rewrite Hp. destruct p as [[name ws]|].
  - destruct Hr as (_ & Hst & [Hlen _]). unfold FN_BODY_WORDS in Hlen.
    destruct (Nat.ltb_spec (length buf) (length ws)); [lia|].
    erewrite on_machine_pure; [|cbv beta; rewrite El; reflexivity]. unfold name_matches, answers_to. cbn [fst].
    assert (length (copy_prefix (replicate 16 0) name) = 16%nat) as ->.
    { destruct Hst as [Hname _ _ _]. unfold STORE_NAME_MAX in Hname. rewrite length_copy_prefix; rewrite length_replicate; lia. }
    pose proof (as_slice_length n Hn) as Hnl. destruct Hn as [Hn _]. unfold NAME_MAX in Hn.
    destruct (Nat.ltb_spec 16 (length (as_slice n))); [lia|].
    destruct (bool_decide _); [|by apply IH; rewrite length_copy_prefix; lia].
    rewrite take_copy_prefix. cbv iota. by rewrite (program_at_some ps i name ws).
  - erewrite on_machine_pure; [|cbv beta; rewrite El; reflexivity]. by apply IH.
Qed.

(** ** Commands *)
Definition run_cmd (o : StoreCmd) : Cmd B unit :=
  match o with
  | Store n => execute Arm L spin regs (OStore n)
  | Load n => execute Arm L spin regs (OLoad n)
  | Recompiled c => modify (set_comp c)
  end.

Definition cmd_ok (o : StoreCmd) : Prop :=
  match o with Store n | Load n => good_name n | Recompiled c => wf_comp any c end.

(** A command that answers [out] and ends with the table [ps] and compiler [c]. *)
Definition ends_as (r : Out (unit * World B)) w (out : list Z) (ps : Table) (c : Compiler) : Prop :=
  exists w', r = Done (tt, w') /\ console_of Arm spin w' = console_of Arm spin w ++ out /\
    w_comp w' = c /\ store_rep (w_m w') ps.

Lemma line_ends s w ps : store_rep (w_m w) ps -> ends_as (say_line Arm spin s w) w (s ++ CRLF) ps (w_comp w).
Proof.
  intros Hr. exists (printed Arm spin (s ++ CRLF) w). unfold say_line. rewrite (say_printed Arm spin). split_and!; [done| |done|].
  - apply console_printed.
  - by apply printed_rep.
Qed.

Lemma body_compiled c idx : wf_comp any c -> (idx < MAX_FNS)%nat -> compiled (fn_body c idx).
Proof.
  intros Hc Hi. split; [|apply (wc_code _ c Hc idx Hi)]. unfold fn_body. rewrite length_take.
  pose proof (proj1 (Forall_lookup _ _) (wc_lens _ c Hc) idx (aget 0%nat (c_fn_body_lens c) idx)) as Hw. cbn beta in Hw.
  etransitivity; [apply Nat.le_min_l|]. apply Hw, aget_lookup. rewrite (wc_lens_len _ c Hc). lia.
Qed.

Lemma export_found c name idx : wf_comp any c -> find_fn c name = Some idx ->
  export_fn c name (replicate MAX_STREAM_WORDS 0) =
    Some (length (fn_body c idx), copy_prefix (replicate MAX_STREAM_WORDS 0) (fn_body c idx)).
Proof.
  intros Hc Hf. unfold export_fn. rewrite Hf. apply find_fn_slot in Hf as (Hi & _ & _).
  assert (aget 0%nat (c_fn_body_lens c) idx <= FN_BODY_WORDS)%nat as Hlen.
  { pose proof (proj1 (Forall_lookup _ _) (wc_lens _ c Hc) idx (aget 0%nat (c_fn_body_lens c) idx)) as Hw. cbn beta in Hw.
    apply Hw, aget_lookup. rewrite (wc_lens_len _ c Hc). lia. }
  assert (length (fn_body c idx) = aget 0%nat (c_fn_body_lens c) idx) as ->.
  { unfold fn_body. rewrite length_take. apply Nat.min_l.
    pose proof (proj1 (Forall_lookup _ _) (wc_bodies _ c Hc) idx (aget [] (c_fn_bodies c) idx)) as Hb. cbn beta in Hb.
    rewrite Hb; [done|]. apply aget_lookup. rewrite (wc_bodies_len _ c Hc). lia. }
  rewrite length_replicate. destruct (Nat.ltb_spec MAX_STREAM_WORDS (aget 0%nat (c_fn_body_lens c) idx)); [|done].
  unfold MAX_STREAM_WORDS, FN_BODY_WORDS in *. lia.
Qed.

Lemma found_storable c n idx : wf_comp any c -> good_name n -> find_fn c (as_slice n) = Some idx ->
  storable (as_slice n) (fn_body c idx) /\ compiled (fn_body c idx).
Proof.
  intros Hc Hgn Hf. pose proof (good_name_u8 n Hgn) as H8. destruct Hgn as [Hn _ _].
  apply find_fn_slot in Hf as (Hi & Ha & Hname). pose proof (body_compiled c idx Hc Hi) as Hb.
  split; [|done]. pose proof (as_slice_length n Hn) as Hl. destruct Hn as [Hn1 _]. unfold NAME_MAX in Hn1. constructor.
  - split; [|unfold STORE_NAME_MAX; lia]. rewrite <- Hname. unfold fn_allocated in Ha. bool_to_prop.
    rewrite as_slice_length; [lia|]. eapply (proj1 (Forall_lookup _ _) (wc_names _ c Hc) idx), aget_lookup.
    rewrite (wc_names_len _ c Hc). lia.
  - done.
  - destruct Hb as [Hb _]. unfold SLOT_WORDS, FN_BODY_WORDS in *. lia.
  - by apply compiled_u32.
Qed.

Lemma all_slots : Forall (fun i => (i < MAX_PROGRAMS)%nat) (seq 0 MAX_PROGRAMS).
Proof. by apply (bool_decide_unpack _). Qed.

Lemma store_ends n w ps : wf_comp any (w_comp w) -> good_name n -> store_rep (w_m w) ps ->
  let '(out, (ps', c')) := table_step (Store n) (ps, w_comp w) in ends_as (do_store Arm L spin n w) w out ps' c'.
Proof.
  intros Hc Hn Hr. cbn [table_step]. unfold do_store, mbind at 1, cmd_bind at 1, get_world.
  destruct (find_fn (w_comp w) (as_slice n)) as [idx|] eqn:Ef.
  2: { unfold export_fn. rewrite Ef. by apply line_ends. }
  rewrite (export_found _ _ _ Hc Ef). unfold mbind at 1, cmd_bind at 1. rewrite (free_slot_first _ ps) by (done || apply all_slots).
  destruct (List.find (is_free ps) (seq 0 MAX_PROGRAMS)) as [i|] eqn:Ei; [|by apply line_ends].
  apply List.find_some in Ei as [Hi _]. apply in_seq in Hi. rewrite take_copy_prefix.
  destruct (found_storable _ _ _ Hc Hn Ef) as [Hst Hcp].
  destruct (save_rep (w_m w) ps i _ _ Hr ltac:(lia) Hst Hcp) as (m' & Es & Hr').
  unfold mbind, cmd_bind, on_machine. rewrite Es.
  destruct (line_ends (bytes "STORED") (set_m m' w) _ Hr') as (w' & E & Hcon & Hcomp & Hrep).
  exists w'. split_and!; [exact E| |exact Hcomp|exact Hrep]. rewrite Hcon. f_equal.
  pose proof (save_screen (w_m w) i (as_slice n) (fn_body (w_comp w) idx) ltac:(lia)) as Hsc. rewrite Es in Hsc. exact Hsc.
Qed.

Lemma load_ends n w ps : good_name n -> store_rep (w_m w) ps ->
  let '(out, (ps', c')) := table_step (Load n) (ps, w_comp w) in ends_as (do_load Arm L spin n w) w out ps' c'.
Proof.
  intros Hn Hr. cbn [table_step]. unfold do_load, mbind at 1, cmd_bind at 1.
  rewrite (load_from_first _ ps) by (done || apply all_slots).
  destruct (List.find (slot_answers ps (as_slice n)) (seq 0 MAX_PROGRAMS)) as [i|]; [|by apply line_ends].
  unfold import_cmd, mbind at 1, cmd_bind at 1, get_world.
  destruct (import_fn (w_comp w) (as_slice n) (snd (program_at ps i))) as [res c].
  unfold mbind, cmd_bind, modify. set (s := match res with Ok _ => _ | Err _ => _ end).
  destruct (line_ends s (set_comp c w) ps Hr) as (w' & -> & Hcon & Hcomp & Hrep). by exists w'.
Qed.

Lemma say_names_prints names w :
  say_names Arm spin names w = Done (tt, printed Arm spin (concat (map (fun p => take (snd p) (fst p) ++ CRLF) names)) w).
Proof.
  revert w. induction names as [|[buf len] names IH]; intros w; [by destruct w as [[] ? ? ? ? ?]|].
  cbn [say_names map concat fst snd]. rewrite !(say_then Arm spin), IH. by rewrite <- app_assoc, !printed_app.
Qed.

(** [store_list] never looks at the store: what it prints is a function of the
    compiler. *)
Lemma list_ends w ps : store_rep (w_m w) ps -> ends_as (do_store_list Arm spin w) w (listing (w_comp w)) ps (w_comp w).
Proof.
  intros Hr. unfold do_store_list, listing, mbind, cmd_bind, get_world.
  destruct (fn_names_iter (w_comp w)) as [|p names]; [by apply line_ends|]. rewrite say_names_prints.
  eexists. split; [done|]. split_and!; [apply console_printed|done|by apply printed_rep].
Qed.

Lemma table_step_wf o ps c m : wf_comp any c -> cmd_ok o -> store_rep m ps -> wf_comp any (snd (snd (table_step o (ps, c)))).
Proof.
  intros Hc Ho [_ Hs]. destruct o as [n|n|c']; cbn [table_step cmd_ok] in *; [by repeat case_match| |done].
  destruct (List.find _ _) as [i|] eqn:Ei; [|done]. apply List.find_some in Ei as [_ Ha]. unfold slot_answers in Ha.
  destruct (ps !! i) as [[[name ws]|]|] eqn:Ep; [|done..].
  rewrite (program_at_some ps i name ws) by done.
  destruct (Hs i _ Ep) as (_ & _ & (_ & ss & -> & Hss)).
  pose proof (import_wf _ c (as_slice n) _ ss Hc (gn_ident _ Ho) eq_refl Hss) as Hw.
  destruct (import_fn c (as_slice n) (code ss)). exact Hw.
Qed.

Lemma cmd_ends o w ps : wf_comp any (w_comp w) -> cmd_ok o -> store_rep (w_m w) ps ->
  let '(out, (ps', c')) := table_step o (ps, w_comp w) in ends_as (run_cmd o w) w out ps' c'.
Proof.
  intros Hc Ho Hr. destruct o as [n|n|c']; cbn [run_cmd cmd_ok execute] in *.
  - by apply store_ends.
  - by apply load_ends.
  - exists (set_comp c' w). by rewrite app_nil_r.
Qed.

Fixpoint run_cmds (os : list StoreCmd) : Cmd B unit :=
  match os with [] => mret tt | o :: rest => run_cmd o ;; run_cmds rest end.

Lemma run_cmds_table (os : list StoreCmd) (w : World B) (ps : Table) :
  wf_comp any (w_comp w) -> store_rep (w_m w) ps -> Forall cmd_ok os ->
  let '(outs, (ps', c')) := Prelude.run table_step os (ps, w_comp w) in
  exists w', run_cmds os w = Done (tt, w') /\ console_of Arm spin w' = console_of Arm spin w ++ concat outs /\
    w_comp w' = c' /\ store_rep (w_m w') ps' /\ store_valid Arm L (w_m w').
Proof.
  intros Hc Hr Hos. revert w ps Hc Hr. induction Hos as [|o os Ho _ IH]; intros w ps Hc Hr; cbn [Prelude.run].
  { exists w. cbn. rewrite app_nil_r. split_and!; try done. by eapply store_rep_valid. }
  pose proof (cmd_ends o w ps Hc Ho Hr) as H1. pose proof (table_step_wf o ps (w_comp w) (w_m w) Hc Ho Hr) as Hw.
  destruct (table_step o (ps, w_comp w)) as [out [ps1 c1]]. destruct H1 as (w1 & E1 & Hcon & <- & Hr1).
  specialize (IH w1 ps1 Hw Hr1). destruct (Prelude.run table_step os (ps1, w_comp w1)) as [outs [ps2 c2]].
  destruct IH as (w2 & E2 & Hcon2 & Hc2 & Hr2 & Hv). exists w2. cbn [run_cmds concat]. unfold mbind, cmd_bind. rewrite E1.
  split_and!; try done. by rewrite Hcon2, Hcon, app_assoc.
Qed.

(** C17. The program store refines a table looked up by name. On ARM, with any
    console and any byte-addressed store window that share no addresses with
    each other or with anything the compiler writes: every sequence of [store]
    and [load] commands, with the compiler changing arbitrarily in between,
    completes, prints what the table of eight optional programs answers, leaves
    the compiler the table says, and leaves the window representing the table,
    so that every later [load] reads compiled programs. Storing takes the first
    free slot and changes no other, also when the name is stored already;
    loading takes the first slot with exactly that name. The names in use
    ([names]) are such that none begins with another: [load] compares prefixes,
    and with [abc] stored it would answer to [a]. *)
Theorem store_refines_table (names : list (list Z)) (os : list StoreCmd) (w : World B) (ps : Table) :
  prefix_free names -> table_in names ps -> Forall (cmd_in names) os ->
  wf_comp any (w_comp w) -> store_rep (w_m w) ps -> Forall cmd_ok os ->
  let '(outs, (ps', c')) := Prelude.run dict_step os (ps, w_comp w) in
  exists w', run_cmds os w = Done (tt, w') /\ console_of Arm spin w' = console_of Arm spin w ++ concat outs /\
    w_comp w' = c' /\ store_rep (w_m w') ps' /\ store_valid Arm L (w_m w').
Proof.
  intros Hpf Hps Hin Hc Hr Hos. rewrite <- (run_table_dict names os ps (w_comp w) Hpf Hps Hin); [by apply run_cmds_table|].
  eapply list.Forall_impl; [exact Hos|]. by intros [].
Qed.

(** ** What is stored comes back *)
Lemma find_only (f : nat -> bool) (l : list nat) (i : nat) : In i l -> (forall j, In j l -> f j = true <-> j = i) -> List.find f l = Some i.
Proof.
  intros Hi Hf. destruct (List.find f l) as [j|] eqn:E.
  - apply List.find_some in E as [Hj Hfj]. f_equal. by apply Hf.
  - apply (List.find_none _ _ E) in Hi as Hfi. rewrite (proj2 (Hf i Hi) eq_refl) in Hfi. done.
Qed.

Lemma import_new c n j ws : wf_comp any c -> wf_name n -> (0 < nb_len n)%nat -> alloc_fn_slot c n = Ok j -> compiled ws ->
  exists nb, import_fn c (as_slice n) ws = (Ok tt, store_fn c j nb ws) /\
    find_fn (store_fn c j nb ws) (as_slice n) = Some j /\ fn_body (store_fn c j nb ws) j = ws.
Proof.
  intros Hc Hn Hpos Ha [Hlen _]. pose proof (as_slice_length n Hn) as Hnl.
  destruct (from_slice_ok (as_slice n)) as (nb & Enb & Wnb & Hnb); [destruct Hn; lia|].
  assert (alloc_fn_slot c nb = Ok j) as Ha' by (unfold alloc_fn_slot in *; by rewrite Hnb).
  destruct (alloc_fn_slot_inv _ _ _ Ha) as (Hj & Hf & _). exists nb. split_and!.
  - unfold import_fn. destruct (Nat.ltb_spec NAME_MAX (length (as_slice n))); [destruct Hn; lia|].
    destruct (Nat.ltb_spec FN_BODY_WORDS (length ws)); [lia|]. by rewrite Enb, Ha'.
  - unfold find_fn. apply find_only; [apply in_seq; lia|]. intros i Hi%in_seq. unfold fn_allocated, eq_bytes.
    cbn [store_fn c_fn_names]. destruct (decide (j = i)) as [<-|Hne].
    + rewrite aget_aset_eq by (rewrite (wc_names_len _ c Hc); lia). rewrite Hnb, bool_decide_true by done.
      pose proof (as_slice_length nb Wnb) as Hl. rewrite Hnb in Hl. destruct (Nat.ltb_spec 0 (nb_len nb)); [done|lia].
    + rewrite aget_aset_ne by done. split; [|by intros ->]. intros [Hal Heq]%andb_true_iff. bool_to_prop.
      exfalso. eapply (find_fn_none c (as_slice n) i Hf); [lia| |done]. unfold fn_allocated. by apply Nat.ltb_lt.
  - rewrite (fn_body_store any) by done. by rewrite decide_True.
Qed.

(** C18. Stored functions come back, under five conditions: a slot of the store
    is free, no stored name begins with [f] (with [abc] stored, [load a] would
    find it), the compiler that loads has room for a function and none of that
    name, and nothing but the store commands writes the window (in particular
    not the stack). Then, on ARM and whatever the compiler did in between, after
    [store f] of a defined function [load f] defines [f] again with exactly the
    same code words, and the screen shows both successes. *)
Theorem store_load_roundtrip (w : World B) (ps : Table) (n : NameBuf) (idx i : nat) (c' : Compiler) (j : nat) :
  wf_comp any (w_comp w) -> store_rep (w_m w) ps -> good_name n -> find_fn (w_comp w) (as_slice n) = Some idx ->
  List.find (is_free ps) (seq 0 MAX_PROGRAMS) = Some i -> (forall k, slot_answers ps (as_slice n) k = false) ->
  wf_comp any c' -> alloc_fn_slot c' n = Ok j ->
  exists w', run_cmds [Store n; Recompiled c'; Load n] w = Done (tt, w') /\
    console_of Arm spin w' = console_of Arm spin w ++ bytes "STORED" ++ CRLF ++ bytes "LOADED" ++ CRLF /\
    find_fn (w_comp w') (as_slice n) = Some j /\ fn_body (w_comp w') j = fn_body (w_comp w) idx.
Proof.
  intros Hc Hr Hn Hf Hi Hno Hc' Ha. pose proof (found_storable _ _ _ Hc Hn Hf) as [Hst Hcp].
  assert (Forall cmd_ok [Store n; Recompiled c'; Load n]) as Hos by (repeat (apply Forall_cons_2; [done|]); apply Forall_nil_2).
  pose proof (run_cmds_table _ w ps Hc Hr Hos) as Hrun.
  assert (0 < nb_len n)%nat as Hpos.
  { destruct Hst as [Hl _ _ _]. rewrite (as_slice_length n (gn_wf _ Hn)) in Hl. lia. }
  destruct (import_new c' n j _ Hc' (gn_wf _ Hn) Hpos Ha Hcp) as (nb & Eimp & Hfind & Hbody).
  set (ps1 := <[i := Some (as_slice n, fn_body (w_comp w) idx)]> ps) in *.
  assert (ps1 !! i = Some (Some (as_slice n, fn_body (w_comp w) idx))) as Hps1.
  { apply list_lookup_insert_eq. destruct Hr as [-> _]. apply List.find_some in Hi as [Hi _]. apply in_seq in Hi. lia. }
  assert (List.find (slot_answers ps1 (as_slice n)) (seq 0 MAX_PROGRAMS) = Some i) as Hans.
  { apply find_only; [by apply List.find_some in Hi as [Hi _]|]. intros k _. unfold slot_answers.
    destruct (decide (k = i)) as [->|Hne].
    - rewrite Hps1. unfold answers_to. cbn [fst]. by rewrite take_copy_prefix, bool_decide_true.
    - unfold ps1. rewrite list_lookup_insert_ne by done. specialize (Hno k). unfold slot_answers in Hno. by rewrite Hno. }
  cbn [Prelude.run table_step] in Hrun. rewrite Hf, Hi in Hrun. fold ps1 in Hrun. cbn [table_step] in Hrun.
  rewrite Hans, (program_at_some ps1 i _ _ Hps1), Eimp in Hrun.
  destruct Hrun as (w' & E & Hcon & Hcomp & _). exists w'. rewrite Hcomp. split_and!; [done| |done|done].
  rewrite Hcon. cbn [concat app]. by rewrite app_nil_r, <- app_assoc.
Qed.
End Store.

(** ** The memory with a console *)
Definition tty_byte_ram (lo hi : Z) (Hhi : hi <= ARM_SR) : ByteRam Tty lo hi.
Proof.
  refine {| rb_byte t := ram_byte (tty_mem t); rb_range t := ram_byte_range (tty_mem t) |}.
  - intros a t Ha. unfold ARM_SR in *. cbn [bus_read tty_bus]. unfold tty_read, ARM_SR, ARM_DR.
    destruct (Z.eqb_spec a 0x40011000), (Z.eqb_spec a 0x40011004); try lia. done.
  - intros a v t c Ha. unfold ARM_SR in *. cbn [bus_write tty_bus]. unfold tty_write, ARM_DR.
    destruct (Z.eqb_spec a 0x40011004); [lia|]. apply ram_byte_write.
Defined.

Local Abbreviation slo := (lk_pstore_base demo_link).
Local Abbreviation shi := (lk_pstore_base demo_link + 8 * SLOT_STRIDE + 3).

Lemma demo_window : shi <= ARM_SR.
Proof. unfold SLOT_STRIDE, ARM_SR. cbn. lia. Qed.

#[export] Instance demo_store_ram : ByteRam Tty slo shi := tty_byte_ram slo shi demo_window.

Lemma demo_base : 0 < lk_pstore_base demo_link < lk_pstore_top demo_link.
Proof. cbn. lia. Qed.

Lemma demo_top : lk_pstore_base demo_link + 8 * SLOT_STRIDE + 3 < M32.
Proof. unfold SLOT_STRIDE, M32. cbn. lia. Qed.

Lemma demo_clear : clear_of_registry Arm (lk_pstore_base demo_link) (lk_pstore_base demo_link + 8 * SLOT_STRIDE + 3).
Proof. right. cbn. lia. Qed.

Lemma demo_put c (b : Tty) a : rb_byte (lo := slo) (hi := shi) (t_put (spin := 4) c b) a = rb_byte (lo := slo) (hi := shi) b a.
Proof. done. Qed.

Lemma demo_out a v (b : Tty) : slo <= a < shi -> t_out (spin := 4) (bus_write a v b) = t_out (spin := 4) b.
Proof.
  intros Ha. cbn [bus_write tty_bus t_out tty_terminal]. unfold tty_write, ARM_DR.
  destruct (Z.eqb_spec a 0x40011004); [|done]. unfold SLOT_STRIDE in Ha. cbn in Ha. lia.
Qed.

(** A compiler with one function, on an empty store. *)
Definition demo_name : NameBuf := {| nb_len := 1; nb_bytes := copy_prefix (replicate NAME_MAX 0) (bytes "f") |}.
Definition demo_body : list Z := code [SPoke 0x20004000 7].
Definition demo_comp : Compiler := store_fn compiler_new 0 demo_name demo_body.
Definition demo_store : World Tty := set_comp demo_comp (at_prompt []).
Definition no_programs : Table := replicate MAX_PROGRAMS None.

Lemma demo_name_ok : good_name demo_name.
Proof. split; [split; [vm_compute; lia|done]|by repeat constructor|by apply (bool_decide_unpack _)]. Qed.

Lemma demo_comp_wf : wf_comp (fun _ => True) demo_comp.
Proof.
  eapply (store_fn_wf (fun _ => True) compiler_new 0 demo_name demo_body [SPoke 0x20004000 7]);
    [apply compiler_new_wf|apply demo_name_ok|done|vm_compute; lia|done|].
  apply Forall_singleton. by vm_compute.
Qed.

Lemma no_programs_rep : store_rep demo_link (w_m demo_store) no_programs.
Proof.
  split; [done|]. intros i p Hp. apply lookup_replicate in Hp as [-> _]. exists 0. split; [by vm_compute|].
  split; [|by left]. intros k Hk. rewrite Z.div_0_l, Zmod_0_l by (apply Z.pow_nonzero; lia). done.
Qed.

(** The function is stored, its name is taken when it is loaded again, and an
    unknown name is not found. *)
Definition other_name : NameBuf := {| nb_len := 1; nb_bytes := copy_prefix (replicate NAME_MAX 0) (bytes "g") |}.
Definition demo_cmds : list StoreCmd := [Store demo_name; Load demo_name; Load other_name].

Lemma other_name_ok : good_name other_name.
Proof. split; [split; [vm_compute; lia|done]|by repeat constructor|by apply (bool_decide_unpack _)]. Qed.

Lemma demo_names_free : prefix_free [bytes "f"; bytes "g"].
Proof.
  intros a b Ha Hb [k Hk]. repeat (apply elem_of_cons in Ha as [->|Ha]); [| |by apply not_elem_of_nil in Ha];
    (repeat (apply elem_of_cons in Hb as [->|Hb]); [| |by apply not_elem_of_nil in Hb]); first [reflexivity|discriminate Hk].
Qed.

Lemma store_refines_table_witness :
  exists w', run_cmds demo_link 4 zero_regs demo_cmds demo_store = Done (tt, w') /\
    console_of Arm 4 w' = bytes "STORED" ++ CRLF ++ bytes "ERR IMPORT FAILED" ++ CRLF ++ bytes "NOT FOUND" ++ CRLF /\
    store_valid Arm demo_link (w_m w').
Proof.
  pose proof (store_refines_table demo_link 4 zero_regs demo_base demo_top demo_clear demo_put demo_out
    [bytes "f"; bytes "g"] demo_cmds demo_store no_programs demo_names_free) as Hr.
  destruct (Prelude.run dict_step demo_cmds (no_programs, w_comp demo_store)) as [outs [ps' c']] eqn:E.
  destruct Hr as (w' & E' & Hcon & _ & _ & Hv).
  - intros i p Hp. apply lookup_replicate in Hp as [Hp _]. discriminate Hp.
  - unfold demo_cmds. repeat (apply Forall_cons_2; [cbn [cmd_in]; first [left|right; left]|]); apply Forall_nil_2.
  - exact demo_comp_wf.
  - exact no_programs_rep.
  - unfold demo_cmds. repeat (apply Forall_cons_2; [first [exact demo_name_ok|exact other_name_ok]|]); apply Forall_nil_2.
  - exists w'. split; [exact E'|]. split; [|exact Hv]. rewrite Hcon.
    replace outs with (fst (Prelude.run dict_step demo_cmds (no_programs, w_comp demo_store)))
      by (by rewrite E). vm_compute. reflexivity.
Defined.

Lemma store_load_roundtrip_witness :
  exists w', run_cmds demo_link 4 zero_regs [Store demo_name; Recompiled compiler_new; Load demo_name] demo_store = Done (tt, w') /\
    find_fn (w_comp w') (as_slice demo_name) = Some 0%nat /\ fn_body (w_comp w') 0 = demo_body.
Proof.
  destruct (store_load_roundtrip demo_link 4 zero_regs demo_base demo_top demo_clear demo_put demo_out
    demo_store no_programs demo_name 0 0 compiler_new 0 demo_comp_wf no_programs_rep demo_name_ok
    ltac:(reflexivity) ltac:(reflexivity)) as (w' & E & _ & Hf & Hb).
  - intros k. unfold slot_answers, no_programs. destruct (replicate MAX_PROGRAMS None !! k) as [p|] eqn:Ek; [|reflexivity].
    apply lookup_replicate in Ek as [-> _]. reflexivity.
  - apply compiler_new_wf.
  - reflexivity.
  - exists w'. split; [exact E|]. split; [exact Hf|]. rewrite Hb. reflexivity.
Defined.
