(* ===== verification/StoreTrust.v ===== *)
(** * StoreTrust: sessions that leave the store to its commands

    [load] runs what the store holds, so the safety of a session with loads
    rests on who wrote the window. Here the condition is put on the rounds
    alone: a round that is not a [store] leaves the bytes of the window as they
    are. Then the window represents a table of compiled programs throughout,
    every [load] may trust it, and no round crashes. *)
From S2P Require Import Prelude Registry AuditRing Memory Lexer SymTab Exec Parser ParserSafe ParserSem Isa Emitter.
From S2P Require Import EmitterSem Native Tokens Uart Pool Pstore Drivers Interrupt Multitask Repl World Bench.
From S2P Require Import Session SessionSafe Console StoreSession.
Local Open Scope Z_scope.

(** The round that executes a [store]. *)
Definition stores (l : Loop) : bool :=
  match lp_state l, lp_pending l with Printing, Some (ROk (OStore _)) => true | _, _ => false end.

Section Trust.
Context `{PrimAddrs} {B : Type} `{Bus B} `{!BusWidth B} (L : Link) (spin : nat) (regs : Z -> Z).
Hypothesis Hregs : forall r, u32 (regs r).
Hypothesis HL : wf_link Arm L.
Context `{!Terminal Arm spin B}.
Local Abbreviation base := (lk_pstore_base L).
Local Abbreviation top := (lk_pstore_top L).
Local Abbreviation hi := (lk_pstore_base L + 8 * SLOT_STRIDE + 3).
Hypothesis Hbase : 0 < base < top.
Hypothesis Htop : base + 8 * SLOT_STRIDE + 3 < M32.
Hypothesis Hclear : clear_of_registry Arm base hi.
Context `{!ByteRam B base hi}.
Hypothesis Hput : forall c (b : B) a, rb_byte (lo := base) (hi := hi) (t_put c b) a = rb_byte (lo := base) (hi := hi) b a.
Hypothesis Hout : forall a v (b : B), base <= a < hi -> t_out (bus_write a v b) = t_out b.
Implicit Types (m : Machine B) (w : World B).

Definition window_kept w w' : Prop :=
  forall c, base <= c < hi -> byte_at base hi (w_m w') c = byte_at base hi (w_m w) c.

(** A round of the loop that keeps its hands off the store, unless it stores. *)
Inductive respectful : Loop * World B -> Loop * World B -> Prop :=
| respectful_turn l w l' w' :
    turn Arm L spin regs l w = Done (l', w') -> (stores l = true \/ window_kept w w') -> respectful (l, w) (l', w').

(** The slots a table needs lie in the window. *)
Lemma slot_in_window m i p c : (i < MAX_PROGRAMS)%nat -> slot_rep L m i p -> slot_bytes base i (rep_words p) c -> base <= c < hi.
Proof.
  intros Hi Hr Hc. unfold MAX_PROGRAMS in Hi.
  assert (rep_words p <= 32)%nat as Hn.
  { destruct p as [[name ws]|]; cbn [rep_words]; [|lia]. destruct Hr as (_ & _ & [Hlen _]). exact Hlen. }
  unfold slot_bytes, slot_start, SLOT_STRIDE in *. lia.
Qed.

Lemma store_rep_kept w w' ps : window_kept w w' -> store_rep L (w_m w) ps -> store_rep L (w_m w') ps.
Proof.
  intros Hk [Hl Hs]. split; [done|]. intros i p Hp. pose proof (Hs i p Hp) as Hr.
  pose proof (lookup_lt_Some _ _ _ Hp) as Hi. rewrite Hl in Hi.
  eapply slot_rep_frame; [|exact Hr]. intros c Hc. apply Hk. by eapply slot_in_window.
Qed.

(** A [store] round ends at the prompt with the table updated. *)
Lemma store_round l w l' w' ps : wf_world Arm w -> loop_ok Arm l -> stores l = true ->
  turn Arm L spin regs l w = Done (l', w') -> store_rep L (w_m w) ps -> exists ps', store_rep L (w_m w') ps'.
Proof.
  intros Hw Hl Hst E Hr. destruct l as [st p]. unfold stores, loop_ok in *. cbn [lp_state lp_pending] in *.
  destruct st, p as [[[]| |]|]; try done. destruct Hl as [R Hn]. cbn [outcome_ok] in Hn.
  unfold turn in E. cbn [lp_state lp_pending execute] in E.
  pose proof (store_ends L spin Hbase Htop Hclear Hput Hout _ w ps (ww_comp Arm w Hw) Hn Hr) as He.
  destruct (table_step _ _) as [out [ps' c']]. destruct He as (w1 & E1 & _ & _ & Hr1).
  unfold mbind at 1, cmd_bind at 1 in E. rewrite E1, (say_then Arm spin) in E. injection E as <- <-.
  exists ps'. by apply printed_rep.
Qed.

Record session_inv (s : Loop * World B) : Prop := {
  si_world : wf_world Arm (snd s);
  si_loop : loop_ok Arm (fst s);
  si_store : exists ps, store_rep L (w_m (snd s)) ps;
}.

Lemma inv_trusted s : session_inv s -> trusted_pending Arm L (fst s) (w_m (snd s)).
Proof.
  intros [_ _ [ps Hr]]. unfold trusted_pending, trusted. destruct (lp_pending _) as [[[]| |]|]; try done.
  right. by apply (store_rep_valid L Hbase Htop Hclear _ ps).
Qed.

Lemma respectful_inv s s' : session_inv s -> respectful s s' -> session_inv s'.
Proof.
  intros Hi Hs. destruct Hs as [l w l' w' E Hk]. pose proof (inv_trusted _ Hi) as Ht. destruct Hi as [Hw Hl [ps Hr]].
  cbn [fst snd] in *. pose proof (turn_safe Arm L spin regs Hregs HL l Hl w Hw Ht) as Hsafe. rewrite E in Hsafe.
  destruct Hsafe as [Hw' Hl']. split; cbn [fst snd]; [done|done|].
  destruct Hk as [Hst|Hk]; [by apply (store_round l w l' w' ps)|]. exists ps. by apply (store_rep_kept w).
Qed.

(** C14. The store can be trusted as long as only [store] writes it. On ARM, from
    any state of a session in which the window represents a table of programs
    (after power-up, the empty one), and over any further rounds, with any
    input, any devices and any commands, loads included, each of which either
    executes a [store] or leaves the bytes of the eight slots as they are: the
    window represents a table, the state is well formed, and the next round
    does not crash. The condition on the rounds is a hypothesis: a [poke] into
    the slots breaks it, and so does a main stack deeper than the 1877 bytes
    that memory-layout.x leaves between the last slot and the initial stack
    pointer. The scope is otherwise that of the session theorem of SessionSafe:
    no exception is taken, bus accesses do not fault, and the kernel's
    variables and code buffer are out of reach of stores. *)
Theorem store_session_safe (w0 w1 w : World B) (l1 l : Loop) (ps : Table) :
  wf_world Arm w0 -> session_state Arm L spin regs w0 l1 w1 -> store_rep L (w_m w1) ps ->
  rtc respectful (l1, w1) (l, w) ->
  wf_world Arm w /\ (exists ps', store_rep L (w_m w) ps') /\ turn Arm L spin regs l w <> Crash.
Proof.
  intros Hw0 Hs Hr Hst. destruct (session_state_ok Arm L spin regs Hregs HL w0 l1 w1 Hw0 Hs) as [Hw1 Hl1].
  assert (session_inv (l, w)) as Hi.
  { assert (session_inv (l1, w1)) as Hi by (split; eauto). revert Hi. induction Hst; eauto using respectful_inv. }
  pose proof (inv_trusted _ Hi) as Ht. destruct Hi as [Hw Hl Hps]. cbn [fst snd] in *. split_and!; [done|done|].
  pose proof (turn_safe Arm L spin regs Hregs HL l Hl w Hw Ht) as Hsafe. intros E. by rewrite E in Hsafe.
Qed.

(** ** Playing rounds

    [kept] is a test that is sound for [window_kept]. *)
Context (kept : World B -> World B -> bool).
Hypothesis kept_window : forall w w', kept w w' = true -> window_kept w w'.

Fixpoint play_kept (n : nat) (l : Loop) (w : World B) : option (Loop * World B) :=
  match n with
  | O => Some (l, w)
  | S k =>
      match turn Arm L spin regs l w with
      | Done (l', w') => if stores l || kept w w' then play_kept k l' w' else None
      | _ => None
      end
  end.

Lemma play_respectful n l w l' w' : play_kept n l w = Some (l', w') -> rtc respectful (l, w) (l', w').
Proof.
  revert l w. induction n as [|n IH]; intros l w E; cbn [play_kept] in E; [by simplify_eq|].
  destruct (turn Arm L spin regs l w) as [[l1 w1]| |] eqn:Et; try done.
  destruct (stores l || kept w w1) eqn:Ek; [|done]. eapply rtc_l; [|by apply IH].
  constructor; [done|]. apply orb_true_iff in Ek as [Ek|Ek]; [by left|right; by apply kept_window].
Qed.
End Trust.

(** ** A session that stores, loads and calls *)
Definition store_lines : list (list Z) :=
  [bytes "fn f() { poke 0x20004000 7; }"; bytes "store f;"; bytes "load f;"; bytes "f();"].

Definition loads_next (l : Loop) : bool := match lp_pending l with Some (ROk (OLoad _)) => true | _ => false end.

Local Abbreviation slo := (lk_pstore_base demo_link).
Local Abbreviation shi := (lk_pstore_base demo_link + 8 * SLOT_STRIDE + 3).

Definition window_zero (w : World Tty) : bool :=
  forallb (fun c => byte_at slo shi (w_m w) c =? 0) (seqZ slo (8 * SLOT_STRIDE + 3)).

Lemma window_zero_rep w : window_zero w = true -> store_rep demo_link (w_m w) no_programs.
Proof.
  intros Hz. split; [done|]. intros i p Hp. apply lookup_replicate in Hp as [-> Hi]. exists 0. split; [by vm_compute|].
  split; [|by left]. intros k Hk. rewrite Z.div_0_l, Zmod_0_l by (apply Z.pow_nonzero; lia).
  apply Z.eqb_eq. eapply (proj1 (forallb_forall _ _) Hz). apply list_elem_of_In, elem_of_seqZ.
  unfold slot_start, SLOT_STRIDE, MAX_PROGRAMS in *. lia.
Qed.

(** Rounds that leave the whole memory alone need no look at the window. *)
Definition tty_kept (w w' : World Tty) : bool :=
  if bool_decide (tty_mem (m_bus (w_m w')) = tty_mem (m_bus (w_m w))) then true
  else forallb (fun c => byte_at slo shi (w_m w') c =? byte_at slo shi (w_m w) c) (seqZ slo (8 * SLOT_STRIDE + 3)).

Lemma tty_kept_window w w' : tty_kept w w' = true -> window_kept demo_link w w'.
Proof.
  unfold tty_kept. case_bool_decide as Hm; intros Hk c Hc.
  - unfold byte_at. cbn [rb_byte demo_store_ram tty_byte_ram]. by rewrite Hm.
  - apply Z.eqb_eq. eapply (proj1 (forallb_forall _ _) Hk). apply list_elem_of_In, elem_of_seqZ. lia.
Qed.

Lemma store_session_check n input (test : Loop -> bool) :
  match Reset Arm demo_link 4 (tty_world input) with
  | Done (l1, w1) =>
      window_zero w1 && match play_kept demo_link 4 zero_regs tty_kept n l1 w1 with Some (l, _) => test l | None => false end
  | _ => false
  end = true ->
  exists l1 w1 l w, session_state Arm demo_link 4 zero_regs (tty_world input) l1 w1 /\
    store_rep demo_link (w_m w1) no_programs /\ rtc (respectful demo_link 4 zero_regs) (l1, w1) (l, w) /\ test l = true.
Proof.
  intros E. destruct (Reset Arm demo_link 4 (tty_world input)) as [[l1 w1]| |] eqn:E0; [|discriminate E|discriminate E].
  apply andb_true_iff in E as [Hz E]. destruct (play_kept _ _ _ _ n l1 w1) as [[l w]|] eqn:Ep; [|discriminate E].
  exists l1, w1, l, w. split; [exact (session_boot Arm demo_link 4 zero_regs _ l1 w1 E0)|].
  split; [exact (window_zero_rep w1 Hz)|]. split; [exact (play_respectful demo_link 4 zero_regs tty_kept tty_kept_window n l1 w1 l w Ep)|exact E].
Qed.

(** The [load] of that session is about to run. *)
Lemma store_lines_reach :
  exists l1 w1 l w, session_state Arm demo_link 4 zero_regs (tty_world (typed store_lines)) l1 w1 /\
    store_rep demo_link (w_m w1) no_programs /\ rtc (respectful demo_link 4 zero_regs) (l1, w1) (l, w) /\
    loads_next l = true.
Proof. apply (store_session_check 52). vm_compute. reflexivity. Qed.

Lemma store_session_safe_witness :
  exists l w, loads_next l = true /\ wf_world Arm w /\ (exists ps', store_rep demo_link (w_m w) ps') /\
    turn Arm demo_link 4 zero_regs l w <> Crash.
Proof.
  destruct store_lines_reach as (l1 & w1 & l & w & Hs & Hr & Hst & Hl). exists l, w. split; [exact Hl|].
  exact (store_session_safe demo_link 4 zero_regs zero_regs_u32 demo_link_wf demo_base demo_top demo_clear demo_put demo_out
    (tty_world (typed store_lines)) w1 w l1 l no_programs (tty_world_wf _) Hs Hr Hst).
Defined.
