(* ===== verification/Lifecycle.v ===== *)
(** * Lifecycle: a capability from claim to drop, at the terminal

    The components together, from the keys typed to the registers written: a
    user claims a peripheral by name, writes one of its registers, drops it and
    writes again. What each line does to the registry, the screen and the bus
    is a relation between worlds ([after]) that composes over lines. A SiFive
    UART is a second instance of the terminal. *)
From S2P Require Import Prelude Registry AuditRing Memory Lexer SymTab Exec Parser ParserSafe ParserSem Isa Emitter.
From S2P Require Import EmitterSem Native Tokens Uart Pool Pstore Drivers Interrupt Multitask Repl World Bench.
From S2P Require Import Session SessionSafe Console.
Local Open Scope Z_scope.

(** A text that can be typed as it is. *)
Definition typable (ks : list Z) : Prop := Forall printable ks /\ (length ks <= LINE_MAX)%nat /\ ks <> [].

Section Lifecycle.
Context `{PrimAddrs} {B : Type} `{Bus B} (arch : Arch) (L : Link) (spin : nat) (regs : Z -> Z).
Context `{!Terminal arch spin B}.
Implicit Type w : World B.
Local Abbreviation turns := (turns arch L spin regs).
Local Abbreviation console_of := (console_of arch spin).
Local Abbreviation input_of := (input_of arch spin).

(** The writes a session makes, between the terminal's own transfers. *)
Inductive bus_does : list (Z * Z) -> B -> B -> Prop :=
| bd_term b b' : term_steps arch spin b b' -> bus_does [] b b'
| bd_write ws b b1 a v b2 :
    bus_does ws b b1 -> term_steps arch spin (bus_write a v b1) b2 -> bus_does (ws ++ [(a, v)]) b b2.

Lemma bd_app ws1 ws2 b1 b2 b3 : bus_does ws1 b1 b2 -> bus_does ws2 b2 b3 -> bus_does (ws1 ++ ws2) b1 b3.
Proof.
  intros H1 H2. induction H2 as [b b' Ht|ws b b' a v b2 _ IH Ht].
  - rewrite app_nil_r. revert b' Ht. induction H1 as [b0 b Hs|ws b0 b' a v b2 Hb _ Hs]; intros b'' Ht.
    + apply bd_term. by eapply ts_trans.
    + eapply bd_write; [done|]. by eapply ts_trans.
  - rewrite app_assoc. eapply bd_write; [by apply IH|done].
Qed.

(** What lines have done since [w]: the registry they leave, the text they
    showed and the writes they made; nothing else has changed. *)
Record after w (rg : RegistryBits) (out : list Z) (ws : list (Z * Z)) (w' : World B) : Prop := {
  af_line : line_rep (w_line w') [];
  af_comp : w_comp w' = w_comp w;
  af_regs : m_regs (w_m w') = rg;
  af_audit : m_audit (w_m w') = m_audit (w_m w);
  af_out : console_of w' = console_of w ++ out;
  af_bus : bus_does ws (m_bus (w_m w)) (m_bus (w_m w'));
}.

Lemma after_trans w w1 w2 rg1 rg2 o1 o2 ws1 ws2 :
  after w rg1 o1 ws1 w1 -> after w1 rg2 o2 ws2 w2 -> after w rg2 (o1 ++ o2) (ws1 ++ ws2) w2.
Proof.
  intros [] []. constructor; [done|congruence|done|congruence| |by eapply bd_app].
  by rewrite app_assoc, <- af_out0.
Qed.

Lemma turns_app n k l w l' w' : turns n l w = Done (l', w') -> turns (n + k) l w = turns k l' w'.
Proof.
  revert l w. induction n as [|n IH]; intros l w E; [by injection E as -> ->|]. cbn [Nat.add]. rewrite !turns_S in *.
  unfold mbind, cmd_bind in *. destruct (turn arch L spin regs l w) as [[l1 w1]| |]; [by apply IH|done|done].
Qed.

(** ** One line *)
Lemma type_line w ks rest r : line_rep (w_line w) [] -> typable ks -> input_of w = ks ++ 13 :: rest ->
  (forall m : Machine B, m_regs m = m_regs (w_m w) -> parse arch (w_comp w) m ks = (r, (w_comp w, m))) ->
  exists w1, turns (length ks + 3) idle w = reply arch L spin regs (Some r) w1 /\ typed_to arch spin w w1 [] /\
    (rest <> [] -> input_of w1 = rest) /\ console_of w1 = console_of w ++ ks ++ CRLF.
Proof.
  intros Hr (Hpr & Hlen & Hne) Hi Hp.
  assert (Forall (fun k => is_enter k = false) ks) as Hks by (eapply Forall_impl; [apply printable_not_enter|exact Hpr]).
  destruct (line_answered arch L spin regs w idle ks rest 13 (or_introl eq_refl) Hr Hks eq_refl Hi) as (w1 & E & Ht & Hin & Ho).
  destruct (Ho Hpr Hlen) as [Hc Htext]. exists w1. rewrite E, Htext. split; [|done].
  rewrite (answer_parsed arch L spin regs ks w1 _ _ _ _ Hne (ty_comp _ _ _ _ _ Ht) (Hp _ (ty_regs _ _ _ _ _ Ht))).
  rewrite <- (ty_comp _ _ _ _ _ Ht). by destruct w1.
Qed.

(** The world a line leaves, when it changes the machine by [f] and prints [s]. *)
Lemma line_ends_after w w1 ks s (m : Machine B) ws rest :
  typed_to arch spin w w1 [] -> console_of w1 = console_of w ++ ks ++ CRLF -> (rest <> [] -> input_of w1 = rest) ->
  m_audit m = m_audit (w_m w1) -> bus_does ws (m_bus (w_m w1)) (m_bus m) ->
  t_in (m_bus m) = input_of w1 -> t_out (m_bus m) = console_of w1 ->
  let w' := printed arch spin (s ++ prompt) (set_m m w1) in
  after w (m_regs m) ((ks ++ CRLF) ++ s ++ prompt) ws w' /\ (rest <> [] -> input_of w' = rest).
Proof.
  intros Ht Hc Hin Ha Hb Hti Hto w'. subst w'. split.
  - constructor; try apply Ht; try done.
    + cbn. rewrite Ha. apply Ht.
    + rewrite console_printed. change (console_of (set_m m w1)) with (t_out (m_bus m)). by rewrite Hto, Hc, <- !app_assoc.
    + rewrite <- (app_nil_l ws). eapply bd_app; [apply bd_term; apply Ht|]. rewrite <- (app_nil_r ws).
      eapply bd_app; [exact Hb|]. apply bd_term. apply ts_print.
  - intros Hrest. rewrite input_printed; change (input_of (set_m m w1)) with (t_in (m_bus m)); rewrite Hti, Hin; done.
Qed.

(** [cap_claim NAME;] and [cap_drop NAME;]. *)
Lemma registry_line w ks rest kw k (f : NameBuf -> list Z -> list Z * list Z) x :
  line_rep (w_line w) [] -> typable ks -> input_of w = ks ++ 13 :: rest ->
  lex_all (S (length ks)) (lexer_new ks) = Some [Identifier (bytes kw); Identifier x; Semicolon] ->
  In (kw, k, f) [("cap_claim"%string, OClaim, do_claim); ("cap_drop"%string, ODrop, do_drop)] -> (length x <= NAME_MAX)%nat ->
  exists nb w', as_slice nb = x /\ turns (length ks + 3) idle w = Done (idle, w') /\
    let (rg, out) := f nb (m_regs (w_m w)) in
    after w rg ((ks ++ CRLF) ++ out ++ prompt) [] w' /\ (rest <> [] -> input_of w' = rest).
Proof.
  intros Hr Hty Hi Hlex Hk Hx.
  destruct (from_slice_ok x Hx) as (nb & Enb & _ & Hnb).
  assert (forall m : Machine B, parse arch (w_comp w) m ks = (ROk (k nb), (w_comp w, m))) as Hp.
  { intros m. apply (named_line arch (w_comp w) m ks kw k x nb Hlex); [|done].
    repeat destruct Hk as [Hk|Hk]; [injection Hk as <- <- _; cbn; tauto..|done]. }
  destruct (type_line w ks rest _ Hr Hty Hi (fun m _ => Hp m)) as (w1 & E & Ht & Hin & Hc).
  exists nb. rewrite E. unfold reply.
  assert (execute arch L spin regs (k nb) = on_registry arch spin (f nb)) as ->
    by (repeat destruct Hk as [Hk|Hk]; [by injection Hk as _ <- <-..|done]).
  unfold on_registry, on_machine, mbind, cmd_bind. rewrite (ty_regs _ _ _ _ _ Ht).
  destruct (f nb (m_regs (w_m w))) as [rg out]. rewrite !(say_printed arch spin), <- printed_app.
  eexists. split; [done|]. split; [reflexivity|].
  apply (line_ends_after w w1 ks out (set_regs rg (w_m w1)) [] rest); try done. apply bd_term, ts_refl.
Qed.

(** [poke t e;], refused and granted. *)
Lemma poke_parses w ks t h ops a v (m : Machine B) :
  lex_all (S (length ks)) (lexer_new ks) =
    Some (Identifier (bytes "poke") :: toks t ++ (toks h ++ toks_ops ops) ++ [Semicolon]) ->
  wf_term t -> wf_term h -> wf_ops ops -> wf_symtab (c_symbols (w_comp w)) ->
  (forall m : Machine B, den arch (env_of (w_comp w)) t m = (Ok a, m)) ->
  (forall m : Machine B, den arch (env_of (w_comp w)) (TParen h ops) m = (Ok v, m)) ->
  m_regs m = m_regs (w_m w) ->
  parse arch (w_comp w) m ks =
    (match check_access arch (m_regs (w_m w)) a with Ok _ => ROk (OEnforcedPoke a v) | Err _ => RErr CapViolation end, (w_comp w, m)).
Proof.
  intros Hlex Wt Wh Wo Hwf Hdt Hde Hm. rewrite (poke_line arch (w_comp w) m ks t h ops Hlex Wt Wh Wo).
  rewrite !den_env, Hdt, den_env, Hde, Hm by done. by destruct (check_access arch (m_regs (w_m w)) a).
Qed.

Lemma refused_line w ks rest e : line_rep (w_line w) [] -> typable ks -> input_of w = ks ++ 13 :: rest ->
  (forall m : Machine B, m_regs m = m_regs (w_m w) -> parse arch (w_comp w) m ks = (RErr e, (w_comp w, m))) ->
  exists w', turns (length ks + 3) idle w = Done (idle, w') /\
    after w (m_regs (w_m w)) ((ks ++ CRLF) ++ (bytes "ERR " ++ error_text e) ++ prompt) [] w' /\
    (rest <> [] -> input_of w' = rest).
Proof.
  intros Hr Hty Hi Hp. destruct (type_line w ks rest _ Hr Hty Hi Hp) as (w1 & E & Ht & Hin & Hc).
  rewrite E, (reply_error arch L spin regs), app_assoc. eexists. split; [reflexivity|]. rewrite <- (ty_regs _ _ _ _ _ Ht).
  pose proof (line_ends_after w w1 ks (bytes "ERR " ++ error_text e) (w_m w1) [] rest Ht Hc Hin eq_refl
    (bd_term _ _ (ts_refl _ _ _)) eq_refl eq_refl) as Ha.
  by destruct w1.
Qed.

Lemma granted_line w ks rest a v c : line_rep (w_line w) [] -> typable ks -> input_of w = ks ++ 13 :: rest ->
  (forall m : Machine B, m_regs m = m_regs (w_m w) -> parse arch (w_comp w) m ks = (ROk (OEnforcedPoke a v), (w_comp w, m))) ->
  is_superuser_active (m_regs (w_m w)) = false -> addr_to_cap_id arch a = Some c -> check_access arch (m_regs (w_m w)) a = Ok tt ->
  (forall b : B, t_in (bus_write a v b) = t_in b /\ t_out (bus_write a v b) = t_out b) ->
  exists w', turns (length ks + 3) idle w = Done (idle, w') /\
    after w (m_regs (w_m w)) ((ks ++ CRLF) ++ (bytes "OK" ++ CRLF) ++ prompt) [(a, v)] w' /\ (rest <> [] -> input_of w' = rest).
Proof.
  intros Hr Hty Hi Hp Hsu Hcap Hg Hio. destruct (type_line w ks rest _ Hr Hty Hi Hp) as (w1 & E & Ht & Hin & Hc).
  pose proof (ty_regs _ _ _ _ _ Ht) as Er. rewrite E, (reply_poke arch L spin regs) by (by rewrite Er).
  assert (snd (enforced_poke_u32 arch a v (w_m w1)) = set_bus (bus_write a v (m_bus (w_m w1))) (w_m w1)) as ->.
  { unfold enforced_poke_u32, check_access in *. rewrite Er, Hsu, Hcap in *.
    destruct (is_claimed (m_regs (w_m w)) (cap_val c)); [|done]. cbn [negb snd]. unfold poke_u32.
    destruct (reg_slot arch a) as [i|] eqn:Es; [|done]. apply reg_slot_region in Es. congruence. }
  eexists. split; [reflexivity|]. rewrite <- Er, (app_assoc (bytes "OK") CRLF prompt).
  apply (line_ends_after w w1 ks (bytes "OK" ++ CRLF) (set_bus _ (w_m w1)) [(a, v)] rest); try done; try apply Hio.
  eapply (bd_write []); [apply bd_term|]; apply ts_refl.
Qed.

(** ** Claim, write, drop, write *)

(** C13. Authority begins with the claim and ends with the drop. On either target
    and any terminal, from any prompt with no SuperUser: when the peripheral
    [r] is free, typing [cap_claim r;], a [poke] to a register of [r] (which is
    not one of the terminal's), [cap_drop r;] and the same [poke] again brings
    the loop back to the prompt after that many rounds, having shown that [r]
    was claimed, OK, that it was released, and E001; exactly one write has
    reached the bus besides the terminal's transfers; the set of claimed
    resources is the one before, and compiler and audit log are unchanged. *)
Theorem capability_lifecycle (w : World B) (r : Resource) (k1 k2 k3 rest : list Z) (t h : Term) (ops : Ops) (a v : Z) :
  line_rep (w_line w) [] -> Forall typable [k1; k2; k3] ->
  input_of w = k1 ++ 13 :: k2 ++ 13 :: k3 ++ 13 :: k2 ++ 13 :: rest ->
  lex_all (S (length k1)) (lexer_new k1) = Some [Identifier (bytes "cap_claim"); Identifier (NAME r); Semicolon] ->
  lex_all (S (length k3)) (lexer_new k3) = Some [Identifier (bytes "cap_drop"); Identifier (NAME r); Semicolon] ->
  lex_all (S (length k2)) (lexer_new k2) =
    Some (Identifier (bytes "poke") :: toks t ++ (toks h ++ toks_ops ops) ++ [Semicolon]) ->
  wf_term t -> wf_term h -> wf_ops ops -> wf_symtab (c_symbols (w_comp w)) ->
  (forall m : Machine B, den arch (env_of (w_comp w)) t m = (Ok a, m)) ->
  (forall m : Machine B, den arch (env_of (w_comp w)) (TParen h ops) m = (Ok v, m)) ->
  (forall b : B, t_in (bus_write a v b) = t_in b /\ t_out (bus_write a v b) = t_out b) ->
  wf_registry (m_regs (w_m w)) -> available (m_regs (w_m w)) (RESOURCE_ID r) = true ->
  is_superuser_active (m_regs (w_m w)) = false -> r <> RSuperUserCap -> in_region arch a (cap_of r) ->
  exists w' rg, turns ((length k1 + 3) + ((length k2 + 3) + ((length k3 + 3) + (length k2 + 3)))) idle w = Done (idle, w') /\
    claimed_set rg = claimed_set (m_regs (w_m w)) /\
    after w rg
      (((k1 ++ CRLF) ++ (bytes "CAP CLAIMED " ++ NAME r ++ bytes " id=" ++ dec_bytes (RESOURCE_ID r) ++ [10]) ++ prompt) ++
       ((k2 ++ CRLF) ++ (bytes "OK" ++ CRLF) ++ prompt) ++
       ((k3 ++ CRLF) ++ (bytes "CAP RELEASED " ++ NAME r ++ CRLF) ++ prompt) ++
       ((k2 ++ CRLF) ++ (bytes "ERR " ++ error_text CapViolation) ++ prompt))
      [(a, v)] w'.
Proof.
  intros Hr [T1 [T2 [T3 _]%Forall_cons_1]%Forall_cons_1]%Forall_cons_1 Hi L1 L3 L2 Wt Wh Wo Hwf Hdt Hde Hio Hreg Hav Hsu Hne Hin.
  assert (length (NAME r) <= NAME_MAX)%nat as Hx by (unfold NAME_MAX; destruct r; cbn; lia).
  destruct (registry_line w k1 _ "cap_claim" OClaim do_claim _ Hr T1 Hi L1 ltac:(by left) Hx) as (nb & w1 & Hnb & E1 & A1).
  destruct (claim_then_drop arch nb r (m_regs (w_m w)) a Hnb Hreg Hav Hsu Hne Hin) as (Hok & Hbad & Hset & Hsu1 & Ho1 & Ho2).
  destruct (do_claim nb (m_regs (w_m w))) as [rg1 out1]. cbn [fst snd] in *. subst out1. destruct A1 as [A1 I1].
  specialize (I1 ltac:(by destruct k2)). rewrite <- (af_regs _ _ _ _ _ A1) in Hok, Hsu1. rewrite <- (af_comp _ _ _ _ _ A1) in Hwf, Hdt, Hde.
  destruct (granted_line w1 k2 _ a v (cap_of r) (af_line _ _ _ _ _ A1) T2 I1) as (w2 & E2 & A2 & I2);
    [|done|by apply addr_to_cap_id_region|done|done|].
  { intros m Hm. rewrite (poke_parses w1 k2 t h ops a v) by done. by rewrite Hok. }
  specialize (I2 ltac:(by destruct k3)).
  destruct (registry_line w2 k3 _ "cap_drop" ODrop do_drop _ (af_line _ _ _ _ _ A2) T3 I2 L3 ltac:(by right; left) Hx)
    as (nb2 & w3 & Hnb2 & E3 & A3).
  assert (do_drop nb2 (m_regs (w_m w2)) = do_drop nb rg1) as Ed.
  { rewrite (af_regs _ _ _ _ _ A2), (af_regs _ _ _ _ _ A1). unfold do_drop. by rewrite Hnb, Hnb2. }
  rewrite Ed in A3. destruct (do_drop nb rg1) as [rg3 out3]. cbn [fst snd] in *. subst out3. destruct A3 as [A3 I3].
  specialize (I3 ltac:(by destruct k2)). rewrite <- (af_regs _ _ _ _ _ A3) in Hbad.
  pose proof (after_trans _ _ _ _ _ _ _ _ _ A2 A3) as A23. rewrite <- (af_comp _ _ _ _ _ A23) in Hwf, Hdt, Hde.
  destruct (refused_line w3 k2 rest CapViolation (af_line _ _ _ _ _ A3) T2 I3) as (w4 & E4 & A4 & _).
  { intros m Hm. rewrite (poke_parses w3 k2 t h ops a v) by done. by rewrite Hbad. }
  exists w4, rg3. split; [|split; [done|]].
  - by rewrite (turns_app _ _ _ _ _ _ E1), (turns_app _ _ _ _ _ _ E2), (turns_app _ _ _ _ _ _ E3).
  - rewrite <- (af_regs _ _ _ _ _ A3). apply (after_trans w w1 w4 rg1 _ _ _ [] [(a, v)] A1).
    apply (after_trans w1 w2 w4 (m_regs (w_m w1)) _ _ _ [(a, v)] [] A2). by apply (after_trans w2 w3 w4 rg3 _ _ _ [] [] A3).
Qed.
End Lifecycle.

(** ** The SiFive UART

    Received bytes queue behind [rxdata], which shows the empty flag when there
    is none; [txdata] takes a byte at once. Other writes are recorded. *)
Record RvTty := { rv_in : list Z; rv_out : list Z; rv_writes : list (Z * Z) }.

#[export] Instance rv_bus : Bus RvTty := {
  bus_read a b :=
    if a =? RISCV_RXDATA then
      match rv_in b with
      | [] => (RX_EMPTY, b)
      | c :: rest => (Z.land c 0xFF, {| rv_in := rest; rv_out := rv_out b; rv_writes := rv_writes b |})
      end
    else (0, b);
  bus_write a v b :=
    if a =? RISCV_TXDATA then {| rv_in := rv_in b; rv_out := rv_out b ++ [v]; rv_writes := rv_writes b |}
    else {| rv_in := rv_in b; rv_out := rv_out b; rv_writes := rv_writes b ++ [(a, v)] |};
  bus_mcycle b := (0, b);
}.

Lemma byte_not_empty c : Z.land (Z.land c 0xFF) RX_EMPTY = 0.
Proof. rewrite <- Z.land_assoc. change (Z.land 0xFF RX_EMPTY) with 0. apply Z.land_0_r. Qed.

#[export] Instance rv_terminal (n : nat) : Terminal Riscv32 n RvTty.
Proof.
  refine {| t_in b := map (fun c => Z.land c 0xFF) (rv_in b); t_out := rv_out; t_put := bus_write RISCV_TXDATA;
            t_take b := snd (bus_read RISCV_RXDATA b) |}.
  - done.
  - intros c rest [r a b] Hi. cbn [m_bus] in *. destruct (rv_in b) as [|c' ins] eqn:E; [done|]. injection Hi as <- <-.
    unfold poll_get_byte, peek_u32. change (reg_slot Riscv32 RISCV_RXDATA) with (@None nat). cbn [bus_read rv_bus m_bus].
    rewrite Z.eqb_refl, E. by rewrite byte_not_empty, <- Z.land_assoc.
  - done.
  - done.
  - intros b. cbn [bus_read rv_bus]. rewrite Z.eqb_refl. by destruct (rv_in b) eqn:E; cbn [snd rv_in]; rewrite ?E.
  - intros b. cbn [bus_read rv_bus]. rewrite Z.eqb_refl. by destruct (rv_in b).
Defined.

(** ** A session on RISC-V *)
Definition rv_prompt (input : list Z) : World RvTty :=
  {| w_m := {| m_regs := REGISTRY_INIT; m_audit := audit_new; m_bus := {| rv_in := input; rv_out := []; rv_writes := [] |} |};
     w_comp := compiler_new; w_line := line_new; w_buf := replicate 4096 0; w_vm := vm_new; w_pool := replicate 4 0 |}.

Definition claim_text : list Z := bytes "cap_claim GPIOA;".
Definition poke_text : list Z := bytes "poke 0x10012008 3;".
Definition drop_text : list Z := bytes "cap_drop GPIOA;".
Definition rv_input : list Z := claim_text ++ 13 :: poke_text ++ 13 :: drop_text ++ 13 :: poke_text ++ [13].

Lemma texts_typable : Forall typable [claim_text; poke_text; drop_text].
Proof.
  repeat constructor; try discriminate; try (apply Nat.leb_le; reflexivity);
    unfold printable; vm_compute; congruence.
Qed.

Lemma capability_lifecycle_witness :
  exists w' rg, turns Riscv32 demo_link 4 zero_regs 79 idle (rv_prompt rv_input) = Done (idle, w') /\
    after Riscv32 4 (rv_prompt rv_input) rg
      (claim_text ++ CRLF ++ bytes "CAP CLAIMED GPIOA id=0" ++ [10] ++ prompt ++
       poke_text ++ CRLF ++ bytes "OK" ++ CRLF ++ prompt ++
       drop_text ++ CRLF ++ bytes "CAP RELEASED GPIOA" ++ CRLF ++ prompt ++
       poke_text ++ CRLF ++ bytes "ERR " ++ error_text CapViolation ++ prompt)
      [(0x10012008, 3)] w'.
Proof.
  destruct (capability_lifecycle Riscv32 demo_link 4 zero_regs (rv_prompt rv_input) RGpioA claim_text poke_text drop_text []
    (TLit 0x10012008) (TLit 3) ONil 0x10012008 3) as (w' & rg & E & _ & Ha).
  - apply line_new_rep.
  - exact texts_typable.
  - reflexivity.
  - vm_compute. reflexivity.
  - vm_compute. reflexivity.
  - vm_compute. reflexivity.
  - exact Logic.I.
  - exact Logic.I.
  - exact Logic.I.
  - apply symbols_new_wf.
  - reflexivity.
  - reflexivity.
  - intros b. split; reflexivity.
  - apply registry_init_wf.
  - reflexivity.
  - reflexivity.
  - discriminate.
  - apply addr_to_cap_id_region. reflexivity.
  - exists w', rg. split; [exact E|exact Ha].
Defined.
