(* ===== verification/HrosCore.v ===== *)
(** * HrosCore: the boot entry of the core crate (crates/hros-core/src/main.rs)

    The crate calls [hros_drivers::uart::init] and [hros_drivers::repl::run],
    which the driver crate does not have; they are parameters here. [repl::run]
    never returns, so what is modelled is the hardware it is entered with. The
    [wfi] between the two sleeps until an interrupt arrives, if one ever does. *)
From S2P Require Import Prelude Registry AuditRing Memory Lexer SymTab Exec Parser ParserSafe Isa Emitter EmitterSem.
From S2P Require Import Native Tokens Uart Pool Pstore Drivers Interrupt Multitask Repl World Bench Session HrosKernel.
Local Open Scope Z_scope.

Inductive Boot (B : Type) := Running (b : B) | Asleep (b : B).
Arguments Running {B} b.
Arguments Asleep {B} b.

Section Core.
Context {B : Type} `{Bus B}.
(** [uart::init], and whether an interrupt ends the sleep. *)
Context (uart_init : B -> B) (wakes : B -> bool).
Implicit Type b : B.

(** The panic handler sleeps for ever. *)
Definition core_panic b : Boot B := Asleep b.

Definition core_boot b : Boot B :=
  let b := uart_init b in
  if wakes b then Running b else Asleep b.

(** [Reset] on ARM. *)
Definition core_Reset (sidata sdata edata sbss ebss : Z) b : Boot B :=
  core_boot (hk_init_data_bss sidata sdata edata sbss ebss b).

(** [Reset] on RISC-V, the assembly of the kernel's own reset, then
    [rust_boot_riscv]. *)
Definition core_reset_riscv (global_pointer stack_top rust_boot_riscv : Z) : list ResetInsn :=
  [La GP global_pointer; La SP stack_top; Tail rust_boot_riscv].

Definition rust_boot_riscv (sidata sdata edata sbss ebss : Z) b : Boot B :=
  core_boot (hk_init_data_bss sidata sdata edata sbss ebss b).

(** The core crate prepares memory as the kernel's own boot does: on either
    target, away from the registry words, [uart::init] is entered with the bus
    that [init_data_bss] of the kernel leaves; and the REPL starts exactly when
    an interrupt arrives after that. *)
Theorem core_reset_prepares (arch : Arch) (sidata sdata edata sbss ebss : Z) (m : Machine B) :
  no_slots arch sidata (sidata + (edata - sdata)) -> no_slots arch sdata edata -> no_slots arch sbss ebss ->
  let ready := uart_init (m_bus (init_data_bss arch sidata sdata edata sbss ebss m)) in
  core_Reset sidata sdata edata sbss ebss (m_bus m) = (if wakes ready then Running ready else Asleep ready) /\
  rust_boot_riscv sidata sdata edata sbss ebss (m_bus m) = core_Reset sidata sdata edata sbss ebss (m_bus m).
Proof.
  intros Hs Hd Hb. cbv zeta. unfold core_Reset, core_boot. split; [|done].
  assert (init_data_bss arch sidata sdata edata sbss ebss m = to_bus (hk_init_data_bss sidata sdata edata sbss ebss) m) as ->; [|done].
  unfold init_data_bss, hk_init_data_bss. by rewrite copy_to_bus, zero_to_bus.
Qed.
End Core.
