(* ===== verification/BuildTool.v ===== *)
(** * BuildTool: the build script and the task runner (build.rs, xtask)

    The build script picks the linker script of the target, checks it and
    prints the instructions for cargo. The environment and the file system are
    its inputs; each panic is a value. *)
From S2P Require Import Prelude.
Local Open Scope string_scope.

Section Build.
(** [env::var], [fs::read_to_string] and [Path::exists] under the manifest
    directory. *)
Context (var : string -> option string) (read : string -> string -> option string) (exists_in : string -> string -> bool).

Inductive BuildPanic :=
| NoManifestDir
| CannotRead (script : string)
| NoDirectives (script : string)
| NoInclude (script layout : string)
| NoLayout (layout : string).

Definition contains (text needle : string) : bool :=
  match String.index 0 needle text with Some _ => true | None => false end.

Definition target_arch : string := default "arm" (var "CARGO_CFG_TARGET_ARCH").

Definition link_scripts : string * string :=
  if String.eqb target_arch "riscv32" then ("memory-riscv.x", "memory-layout-riscv.x")
  else ("memory.x", "memory-layout.x").

Definition include_directive (layout : string) : string := "INCLUDE " ++ layout.

Definition cargo_lines (script layout : string) : list string :=
  ["cargo:rerun-if-changed=" ++ script; "cargo:rerun-if-changed=" ++ layout;
   "cargo:rerun-if-env-changed=CARGO_CFG_TARGET_ARCH"; "cargo:rustc-link-arg=-T" ++ script].

Definition build_main : Result (list string) BuildPanic :=
  let (script, layout) := link_scripts in
  match var "CARGO_MANIFEST_DIR" with
  | None => Err NoManifestDir
  | Some dir =>
      match read dir script with
      | None => Err (CannotRead script)
      | Some contents =>
          if negb (contains contents "ORIGIN") || negb (contains contents "LENGTH") then Err (NoDirectives script)
          else if negb (contains contents (include_directive layout)) then Err (NoInclude script layout)
          else if negb (exists_in dir layout) then Err (NoLayout layout)
          else Ok (cargo_lines script layout)
      end
  end.

(** The script succeeds exactly when the target's linker script can be read,
    declares regions and includes a layout that is there, and then tells cargo
    to link with that script. *)
Lemma build_main_exact lines :
  build_main = Ok lines <->
  exists dir contents, var "CARGO_MANIFEST_DIR" = Some dir /\ read dir (fst link_scripts) = Some contents /\
    contains contents "ORIGIN" = true /\ contains contents "LENGTH" = true /\
    contains contents (include_directive (snd link_scripts)) = true /\ exists_in dir (snd link_scripts) = true /\
    lines = cargo_lines (fst link_scripts) (snd link_scripts).
Proof.
  unfold build_main. destruct link_scripts as [script layout]. cbn [fst snd]. split.
  - intros E. repeat case_match; simplify_eq. repeat match goal with H : (_ || _) = false |- _ => apply orb_false_iff in H as [? ?] end.
    bool_to_prop. eauto 12.
  - intros (dir & contents & -> & -> & -> & -> & -> & -> & ->). done.
Qed.
End Build.

(** [std::env::args().nth(1)] selects the line printed. *)
Definition xtask_main (args : list string) : string :=
  let task := default "help" (args !! 1%nat) in
  if String.eqb task "qemu-arm" then "cargo run --target thumbv7em-none-eabihf --release"
  else if String.eqb task "qemu-riscv" then "cargo run --target riscv32imac-unknown-none-elf --release"
  else if String.eqb task "fuzz" then "cargo fuzz run uart_mutator -- -max_total_time=60"
  else if String.eqb task "bench" then "cargo bench --target thumbv7em-none-eabihf"
  else "xtask: qemu-arm | qemu-riscv | fuzz | bench".

(** The RISC-V target is linked with its own script, every other one with the
    ARM map. *)
Example riscv_scripts : link_scripts (fun _ => Some "riscv32") = ("memory-riscv.x", "memory-layout-riscv.x").
Proof. reflexivity. Qed.

Example build_arm :
  build_main (fun v => if String.eqb v "CARGO_MANIFEST_DIR" then Some "/hros" else None)
    (fun _ f => if String.eqb f "memory.x" then Some "flash : ORIGIN = 0x08000000, LENGTH = 128K INCLUDE memory-layout.x" else None)
    (fun _ f => String.eqb f "memory-layout.x")
  = Ok ["cargo:rerun-if-changed=memory.x"; "cargo:rerun-if-changed=memory-layout.x";
        "cargo:rerun-if-env-changed=CARGO_CFG_TARGET_ARCH"; "cargo:rustc-link-arg=-Tmemory.x"].
Proof. vm_compute. reflexivity. Qed.
